(* ===== verification/_CoqProject ===== *)
-Q . S2P
Prelude.v
MinHeap.v
Scheduler.v
SlotOwners.v
Mpsc.v
ControlCore.v
ControlChannel.v
Bytes.v
Files.v
BTreeMap.v
SubscriberTypes.v
Progress.v
SubscriberState.v
Registry.v
RegistryRuns.v
Recovery.v
WalFormat.v
WalReader.v
Budget.v
WalWriter.v
WalLog.v
WalRuns.v
WalRecovery.v
WalFaults.v
Arrow.v
ArrowModel.v
SegmentTypes.v
Dictionaries.v
OpenSegment.v
SegmentFile.v
SegmentRoundtrip.v
SegmentStore.v
EngineRegistry.v
EngineLog.v
WalIter.v
Engine.v
EngineRetention.v
EngineState.v
EngineRuns.v
EngineReplay.v
EngineOpen.v
EngineExample.v
EngineDurable.v
EngineRecovery.v
EngineFaults.v
EngineRaces.v
Configuration.v
