(* ===== verification/Prelude.v ===== *)
(** * Verification of the OTAP dataflow runtime

    This library models parts of the Rust workspace
    [src/rust/otap-dataflow/crates] in Rocq and proves them correct: the
    processor-local scheduler and the channels of the pipeline engine, and the
    storage layers of Quiver, the persistence engine that buffers telemetry on disk.
    Paths below are relative to that directory.

    ** How the parts interact

    In the pipeline engine, a processor parks delayed work in its scheduler, which
    keeps the wakeups in an indexed heap; nodes exchange data over a bounded local
    channel, and control messages over the control channel, a queue core with
    blocked senders around it.

    Quiver takes record bundles (Arrow record batches, one per slot).  [ingest]
    appends a bundle to the write-ahead log, then to the open segment.  When the
    open segment is large or old enough it is written to a segment file, the cursor
    of the log is moved past its bundles and consumed log files are purged; the
    segment store serves the file, and the registry announces it to the
    subscribers, which poll bundles, acknowledge them, and have their progress
    written to progress files.  Maintenance deletes segments that nobody needs or
    that are too old, within a disk budget that log and segments share.  On opening,
    the segment files are scanned, progress is restored, and the log is replayed
    from the cursor.

    ** Files and the code they model

    - [Prelude]: machine integers, results, the [Ord] trait, lemmas on lists.
    - [MinHeap]: [engine/src/indexed_min_heap.rs].
    - [Scheduler]: [engine/src/node_local_scheduler.rs].
    - [SlotOwners]: the relation between waiter slots and futures that the two
      channels share.
    - [Mpsc]: [channel/src/mpsc.rs], [channel/src/error.rs].
    - [ControlCore], [ControlChannel]: [control-channel/src/core.rs], [types.rs]
      and [channel.rs].
    - [Bytes], [Files], [BTreeMap]: little-endian words, bitmaps, directories,
      ordered maps, as the storage components use them.
    - [SubscriberTypes], [Progress], [SubscriberState], [Registry]:
      [quiver/src/subscriber/] [types.rs], [error.rs], [progress.rs], [state.rs],
      [registry.rs], [handle.rs].  [RegistryRuns] and [Recovery] follow the registry
      through calls and restarts.
    - [WalFormat], [WalReader], [WalWriter]: [quiver/src/wal/] [mod.rs],
      [header.rs], [cursor_sidecar.rs], [reader.rs], [writer.rs].  [WalLog],
      [WalRuns], [WalRecovery], [WalIter] and [WalFaults] hold the theorems on the
      log; [Budget] is [quiver/src/budget.rs].
    - [Arrow]: the operations of the Arrow crates that Quiver calls, as a class
      with laws; [ArrowModel] is an instance of it.
    - [SegmentTypes], [Dictionaries], [OpenSegment], [SegmentFile]:
      [quiver/src/segment/] [types.rs], [error.rs], [stream_accumulator.rs],
      [open_segment.rs], [writer.rs], [reader.rs]; [SegmentRoundtrip] proves that a
      file reads back.
    - [SegmentStore]: [quiver/src/segment_store.rs].
    - [Engine]: [quiver/src/engine.rs], [wal/replay.rs], [telemetry.rs];
      [Configuration]: [config.rs] and the checks at the beginning of
      [open_with_wal_counters].  [EngineRegistry] and [EngineLog] state what the
      engine relies on of its parts, [EngineState] the invariant that ties them
      together, [EngineRetention], [EngineRuns], [EngineReplay] and [EngineOpen]
      that the operations keep it, [EngineDurable], [EngineRecovery] and
      [EngineFaults] what follows; [EngineRaces] interleaves two calls of [ingest].
      [EngineExample] has data for examples.

    A definition has the name of the function it models where that is possible; a
    struct is a record with the same fields, an enum an inductive type.  Stateful
    code passes its state explicitly; the writer of the log is a small state and
    error monad.  [None], or [Panicked] where errors matter too, is a panic.
    Integers are [Z] with saturation and wrap-around written out.  Readings of the
    clock, outcomes of I/O calls and the iteration order of hash maps and
    directories are arguments.  The theorems hold for all clocks and orders.  Writing
    progress files, and removing segments in the store and the clean-up, may fail in
    every way the model has; the theorems on runs of the log and of the engine assume
    that log, cursor and segment files can be written, and [WalFaults] and
    [EngineFaults] show what a failing write does.

    ** What is proved

    - Heap and scheduler: the heap refines a finite map with minimum; the scheduler
      runs without panic, loses no retained payload and delivers in the order of
      deadlines.
    - Channels: values are delivered in order and within capacity; a blocked sender
      always has something that will wake it, or, in the control channel, does
      unless a future is dropped between its wake-up and its next poll; lifecycle tokens, completions and normal work are
      delivered in a legal order, fairly, and a shutdown ends.
    - Subscribers: a bundle is handed out again only after a release and never once
      it is resolved; progress files are replaced atomically and read back;
      dropping and cleaning segments removes only what it may.
    - Log: reading returns exactly the entries appended and not consumed, also
      after a crash that cuts the active file anywhere; appends succeed exactly when
      the limits allow it; the limits hold.
    - Segments: unifying dictionaries changes no value; a segment file reads back
      every accepted bundle.
    - Store: the budget has exactly the bytes of the files.
    - Engine: through any sequence of calls each acknowledged bundle is in a
      segment that is served, or in the open segment and the log; after a crash and
      a restart the segments are served and the surviving bundles are replayed.
      Opening fails only for invalid configurations.
    - Where the code does not do what its documentation says, a theorem shows the
      behaviour: [reopen_after_purge_deletes_unread], [failed_write_loses_next],
      [budget_misses_headers], [concurrent_ingests_lose_bundle],
      [failed_flush_loses_bundles], [failed_read_strands_bundle],
      [activation_redelivers_completed], [cancelled_wake_strands_sender],
      [oversized_entries_unreadable].

    ** Bounds, fuel and assumptions

    Loops that are not structural take fuel, and it is proved to be enough: the
    reader of the log needs one unit for each entry, the replay is given the number
    of bytes in the log ([replay_fuel]), forced dropping one unit for each tracked
    segment ([drop_fuel]), a poll loop the number of rounds after which it returns.
    Runs of the log and of the engine are bounded by [2^32] operations so that
    positions stay within 64 bits; segment files by 4 GiB, because the footer
    stores lengths in 32 bits.  The CRC-32 of [crc32fast] is any function into 32
    bits, and nothing is assumed on collisions: an entry torn by a crash is a proper
    prefix of an entry ([torn]), which is rejected by its length.  The Arrow stream
    codec of the log is any function with a decoder that inverts it.  The restart of
    an engine is proved for directories without progress files and for logs from
    which no file was purged, since the code fails after a purge ([WalFaults]);
    restoring progress is the subject of [Recovery].

    ** Not modelled

    The calls of a run of Quiver's engine happen one after the other; of the
    interleavings of concurrent calls only that of [EngineRaces], between the two
    parts of [ingest], is modelled.  Not modelled are waiting for bundles with
    timeout and cancellation, the flush of the log when its writer is dropped, the
    sizes of its scratch buffers, and the probe of file permissions.  File systems
    are maps of names to contents; memory mapping, names of segment files and
    directories are not modelled.  The MPMC channel ([channel/src/mpmc.rs]) has the
    waiter scheme of the local channel and is left out.  Of the other crates,
    [core-nodes], [otap], [pdata], [query-engine], [controller], [admin], [config], [telemetry] and the
    contributed ones are built on tokio, tonic, DataFusion, serde and the Arrow
    kernels; what they compute is for the most part computed by those libraries,
    and they are not modelled.  Neither is the Go implementation. *)
From stdpp Require Export base list gmap sorting.
From Stdlib Require Export ZArith Lia.
From coqutil Require Export Datatypes.RecordSetters.
Export RecordSetters.TriangleBracketNotations.

Set Default Goal Selector "!".

#[global] Arguments RecordSetters.constant {E} newValue _ /.

(** * Machine integers

    [u16], [u32], [u64] and [usize] values are integers of [Z]; the source
    targets 64-bit platforms, so [usize] has 64 bits.  Saturating and wrapping
    arithmetic is written out. *)

Definition u16_max : Z := 2 ^ 16 - 1.

Definition u32_max : Z := 2 ^ 32 - 1.

Definition u64_max : Z := 2 ^ 64 - 1.

Lemma u64_max_eq : u64_max = 18446744073709551615%Z.
Proof. done. Qed.

Definition usize_max : Z := u64_max.

Definition saturating_add (max a b : Z) : Z := Z.min (a + b) max.

Definition saturating_sub (a b : Z) : Z := Z.max (a - b) 0.

Definition wrapping_add (width a b : Z) : Z := (a + b) mod 2 ^ width.

(** Lengths of vectors and deques as machine integers. *)
Definition zlen {A} (l : list A) : Z := Z.of_nat (length l).

Lemma zlen_nonneg {A} (l : list A) : (0 ≤ zlen l)%Z.
Proof. unfold zlen. lia. Qed.

Lemma zlen_nil {A} : zlen (@nil A) = 0%Z.
Proof. done. Qed.

Lemma zlen_cons {A} (x : A) l : zlen (x :: l) = (zlen l + 1)%Z.
Proof. unfold zlen. simpl. lia. Qed.

Lemma zlen_omap {A B} (f : A → option B) l : (zlen (omap f l) ≤ zlen l)%Z.
Proof.
  induction l as [|x l IH]; [done|].
  change (omap f (x :: l)) with (match f x with Some y => y :: omap f l | None => omap f l end).
  destruct (f x); rewrite ?zlen_cons; lia.
Qed.

Lemma zlen_app {A} (l k : list A) : zlen (l ++ k) = (zlen l + zlen k)%Z.
Proof. unfold zlen. rewrite length_app. lia. Qed.

(** Number of elements that satisfy a boolean predicate. *)
Definition count_if {A} (p : A → bool) (l : list A) : Z := foldr (λ x n, Z.b2z (p x) + n)%Z 0%Z l.

Lemma count_if_nonneg {A} (p : A → bool) l : (0 ≤ count_if p l)%Z.
Proof. induction l as [|x l IH]; simpl; [lia|]. destruct (p x); simpl; lia. Qed.

Lemma count_if_app {A} (p : A → bool) l k : count_if p (l ++ k) = (count_if p l + count_if p k)%Z.
Proof. induction l as [|x l IH]; simpl in *; lia. Qed.

Lemma count_if_le {A} (p : A → bool) l : (count_if p l ≤ zlen l)%Z.
Proof. induction l as [|x l IH]; simpl; [done|]. rewrite zlen_cons. destruct (p x); simpl; lia. Qed.

Lemma count_if_ext {A} (p p' : A → bool) l : (∀ x, x ∈ l → p' x = p x) → count_if p' l = count_if p l.
Proof.
  intros Hp. induction l as [|x l IH]; simpl; [done|].
  rewrite (Hp x) by left. rewrite IH; [done|]. intros y Hy. apply Hp. by right.
Qed.

Lemma count_if_insert {A} (p : A → bool) l i x y :
  l !! i = Some x → count_if p (<[i:=y]> l) = (count_if p l - Z.b2z (p x) + Z.b2z (p y))%Z.
Proof.
  revert i. induction l as [|z l IH]; intros [|i] Hx; simpl in *; try done.
  - simplify_eq. lia.
  - rewrite (IH i) by done. lia.
Qed.

Lemma count_if_filter {A} (p : A → bool) l : zlen (filter (λ x, p x = true) l) = count_if p l.
Proof.
  induction l as [|x l IH]; [done|]. rewrite filter_cons. simpl.
  destruct (p x); simpl; [rewrite zlen_cons|]; lia.
Qed.

Lemma count_if_pos {A} (p : A → bool) l :
  (0 < count_if p l)%Z → ∃ i x, l !! i = Some x ∧ p x = true.
Proof.
  induction l as [|t l IH]; simpl; [lia|]. intros Hpos. destruct (p t) eqn:Ht.
  - by exists 0%nat, t.
  - destruct IH as (i & s & ? & ?); [simpl in Hpos; lia|]. by exists (S i), s.
Qed.


(** * The [Ord] trait

    [Ord::cmp] of the standard library with its documented laws; the operators
    [<] and [>=] derive from it. *)

Class Ord (A : Type) := cmp : A → A → comparison.

Class OrdLaws (A : Type) `{Ord A} := {
  cmp_refl : ∀ a : A, cmp a a = Eq;
  cmp_opp : ∀ a b : A, cmp b a = CompOpp (cmp a b);
  cmp_le_trans : ∀ a b c : A, cmp a b ≠ Gt → cmp b c ≠ Gt → cmp a c ≠ Gt;
}.

Definition ltb `{Ord A} (a b : A) : bool :=
  match cmp a b with Lt => true | _ => false end.

Definition geb `{Ord A} (a b : A) : bool := negb (ltb a b).

(** [ord_le a b]: [a] does not come after [b]. *)
Definition ord_le `{Ord A} (a b : A) : Prop := cmp a b ≠ Gt.

Section ord_laws.
Context `{OrdLaws A}.
Implicit Types a b c : A.

Lemma ord_le_refl a : ord_le a a.
Proof. unfold ord_le. by rewrite cmp_refl. Qed.

Lemma ord_le_trans a b c : ord_le a b → ord_le b c → ord_le a c.
Proof. apply cmp_le_trans. Qed.

Lemma ltb_true_le a b : ltb a b = true → ord_le a b.
Proof. unfold ltb, ord_le. destruct (cmp a b); congruence. Qed.

Lemma ltb_false_le a b : ltb a b = false → ord_le b a.
Proof.
  unfold ltb, ord_le. rewrite (cmp_opp a b). destruct (cmp a b); simpl; congruence.
Qed.

Lemma ord_le_total a b : ord_le a b ∨ ord_le b a.
Proof.
  destruct (ltb a b) eqn:E.
  - left. by apply ltb_true_le.
  - right. by apply ltb_false_le.
Qed.

End ord_laws.

#[global] Instance Z_ord : Ord Z := Z.compare.

#[global] Instance Z_ord_laws : OrdLaws Z.
Proof.
  split; unfold cmp, Z_ord.
  - apply Z.compare_refl.
  - intros a b. apply Z.compare_antisym.
  - intros a b c Hab Hbc. exact (Z.le_trans a b c Hab Hbc).
Qed.

(** [Ordering::then_with]: lexicographic comparison. *)
Definition then_with (c1 c2 : comparison) : comparison :=
  match c1 with Eq => c2 | _ => c1 end.

(** * Results of fallible operations *)

Inductive result (A E : Type) :=
  | Ok (a : A)
  | Err (e : E).
Arguments Ok {A E} a.
Arguments Err {A E} e.

Definition is_ok {A E} (r : result A E) : bool :=
  match r with Ok _ => true | Err _ => false end.

(** The [?] operator. *)
Definition result_bind {A B E} (r : result A E) (f : A → result B E) : result B E :=
  match r with Ok a => f a | Err e => Err e end.

Declare Scope result_scope.
Delimit Scope result_scope with result.

Notation "x ←! e ; k" := (result_bind e (λ x, k))
  (at level 20, e at level 100, k at level 200, only parsing) : result_scope.
Notation "' x ←! e ; k" := (result_bind e (λ x, k))
  (at level 20, x pattern, e at level 100, k at level 200, only parsing) : result_scope.

(** * [std::collections::BinaryHeap]

    The max-heap of the standard library, by its contract: [push] adds an
    element, [peek] and [pop] return a greatest one.  The list is kept in
    descending order; among elements that compare equal, the one pushed first
    is popped first. *)
Module BinaryHeap.
Section binary_heap.
Context `{OrdLaws A}.
Implicit Types (x y : A) (l : list A).

Fixpoint push (x : A) (l : list A) : list A :=
  match l with
  | [] => [x]
  | y :: l' => match cmp x y with Gt => x :: l | _ => y :: push x l' end
  end.

Definition peek (l : list A) : option A := head l.

Definition pop (l : list A) : option (A * list A) :=
  match l with [] => None | x :: l' => Some (x, l') end.

Definition sorted (l : list A) : Prop := StronglySorted (λ a b, ord_le b a) l.

Lemma push_perm x l : push x l ≡ₚ x :: l.
Proof.
  induction l as [|y l IH]; simpl; [done|]. destruct (cmp x y); [..|done].
  all: rewrite IH; apply perm_swap.
Qed.

Lemma push_length x l : length (push x l) = S (length l).
Proof. by rewrite push_perm. Qed.

Lemma push_sorted x l : sorted l → sorted (push x l).
Proof.
  unfold sorted. induction l as [|y l IH]; simpl; intros Hs; [by repeat constructor|].
  apply StronglySorted_inv in Hs as Hs'. destruct Hs' as [Hs' Hall].
  assert (cmp x y ≠ Gt → StronglySorted (λ a b, ord_le b a) (y :: push x l)) as Hle.
  { intros Hc. constructor; [by apply IH|]. rewrite push_perm.
    constructor; [exact Hc|done]. }
  destruct (cmp x y) eqn:Hc; [by apply Hle..|].
  assert (ord_le y x) as Hyx by (unfold ord_le; rewrite (cmp_opp x y), Hc; done).
  constructor; [done|]. constructor; [done|].
  eapply Forall_impl; [done|]. intros z Hz. exact (ord_le_trans z y x Hz Hyx).
Qed.

Lemma pop_greatest l x l' :
  sorted l → pop l = Some (x, l') →
  l = x :: l' ∧ sorted l' ∧ ∀ y, y ∈ l → ord_le y x.
Proof.
  destruct l as [|z l]; simpl; intros Hs [= <- <-]. apply StronglySorted_inv in Hs as [Hs Hall].
  split; [done|]. split; [done|]. intros y [->|Hy]%elem_of_cons; [apply ord_le_refl|].
  by eapply Forall_forall in Hall.
Qed.

End binary_heap.
End BinaryHeap.

Create HintDb otap.
#[export] Hint Resolve zlen_nonneg ord_le_refl : otap.
