(* ===== verification/MinHeap.v ===== *)
(** * The indexed binary min-heap of the engine

    Models [crates/engine/src/indexed_min_heap.rs].  The heap is a vector of
    entries in heap order together with a map from each key to its position in
    the vector.  Every operation that can panic in the source (an [expect] on the
    index map, an out-of-range vector access) returns [None] in the model, so
    "the operation returns" and "the operation does not panic" are the same
    statement.

    The specification is a finite map from keys to priorities: [insert] is map
    insertion, [remove] is map deletion, and [pop] deletes a key whose priority
    is minimal. *)
From S2P Require Import Prelude.

Set Default Goal Selector "!".

Module MinHeap.

Inductive InsertOutcome :=
  | Inserted
  | Replaced.

Section heap.
Context {K P : Type} `{Countable K} `{OrdLaws P}.

Record Entry := mkEntry { key : K; priority : P }.

Record IndexedMinHeap := mkHeap {
  entries : list Entry;
  indices : gmap K nat;
}.

Implicit Types (h : IndexedMinHeap) (l : list Entry) (e : Entry) (k : K) (p : P).

Definition new : IndexedMinHeap := mkHeap [] ∅.

Definition len (h : IndexedMinHeap) : nat := length (entries h).

Definition is_empty (h : IndexedMinHeap) : bool :=
  match entries h with [] => true | _ => false end.

Definition peek (h : IndexedMinHeap) : option (K * P) :=
  (λ e, (key e, priority e)) <$> entries h !! 0.

Definition contains_key (h : IndexedMinHeap) (k : K) : bool :=
  match indices h !! k with Some _ => true | None => false end.

Definition clear (h : IndexedMinHeap) : IndexedMinHeap := mkHeap [] ∅.

(** [Vec::swap], which panics when an index is out of range. *)
Definition vec_swap (l : list Entry) (a b : nat) : option (list Entry) :=
  ea ← l !! a; eb ← l !! b; Some (<[b:=ea]> (<[a:=eb]> l)).

(** [HashMap::insert(..).expect(..)]: overwrites a key that must be present. *)
Definition reindex (m : gmap K nat) (k : K) (i : nat) : option (gmap K nat) :=
  match m !! k with Some _ => Some (<[k:=i]> m) | None => None end.

Definition swap (h : IndexedMinHeap) (a b : nat) : option IndexedMinHeap :=
  if decide (a = b) then Some h else
  l ← vec_swap (entries h) a b;
  ea ← l !! a;
  eb ← l !! b;
  m ← reindex (indices h) (key ea) a;
  m' ← reindex m (key eb) b;
  Some (mkHeap l m').

Definition parent (i : nat) : nat := (i - 1) / 2.

(** The [while index > 0] loop; [fuel] bounds the number of iterations, and
    running out of it is reported like a panic. *)
Fixpoint sift_up (fuel : nat) (h : IndexedMinHeap) (index : nat) : option IndexedMinHeap :=
  match fuel with
  | 0 => None
  | S fuel =>
    if decide (0 < index) then
      e ← entries h !! index;
      ep ← entries h !! parent index;
      if geb (priority e) (priority ep) then Some h else
      h' ← swap h index (parent index);
      sift_up fuel h' (parent index)
    else Some h
  end.

Fixpoint sift_down (fuel : nat) (h : IndexedMinHeap) (index : nat) : option IndexedMinHeap :=
  match fuel with
  | 0 => None
  | S fuel =>
    let left := index * 2 + 1 in
    if decide (len h ≤ left) then Some h else
    let right := left + 1 in
    el ← entries h !! left;
    smallest ←
      (if decide (right < len h)
       then er ← entries h !! right;
            Some (if ltb (priority er) (priority el) then right else left)
       else Some left);
    es ← entries h !! smallest;
    e ← entries h !! index;
    if geb (priority es) (priority e) then Some h else
    h' ← swap h index smallest;
    sift_down fuel h' smallest
  end.

(** Fuel: [sift_up] moves towards the root, [sift_down] away from it. *)
Definition repair_at (h : IndexedMinHeap) (index : nat) : option IndexedMinHeap :=
  up ←
    (if decide (0 < index)
     then e ← entries h !! index;
          ep ← entries h !! parent index;
          Some (ltb (priority e) (priority ep))
     else Some false);
  if (up : bool) then sift_up (S index) h index else sift_down (S (len h)) h index.

Definition insert (h : IndexedMinHeap) (k : K) (p : P) :
    option (InsertOutcome * IndexedMinHeap) :=
  match indices h !! k with
  | Some index =>
    e ← entries h !! index;
    h' ← repair_at (mkHeap (<[index := mkEntry (key e) p]> (entries h)) (indices h)) index;
    Some (Replaced, h')
  | None =>
    let index := length (entries h) in
    h' ← sift_up (S index)
           (mkHeap (entries h ++ [mkEntry k p]) (<[k:=index]> (indices h))) index;
    Some (Inserted, h')
  end.

(** The caller has already removed the key from the index map. *)
Definition remove_at (h : IndexedMinHeap) (index : nat) : option (Entry * IndexedMinHeap) :=
  if decide (entries h = []) then None else
  let last := length (entries h) - 1 in
  if decide (index = last) then
    e ← entries h !! last;
    Some (e, mkHeap (take last (entries h)) (indices h))
  else
    l ← vec_swap (entries h) index last;
    removed ← l !! last;
    let l' := take last l in
    moved ← l' !! index;
    m ← reindex (indices h) (key moved) index;
    h' ← repair_at (mkHeap l' m) index;
    Some (removed, h').

(** The outer option is the panic, the inner one the method's result. *)
Definition pop (h : IndexedMinHeap) : option (option (K * P) * IndexedMinHeap) :=
  match entries h with
  | [] => Some (None, h)
  | root :: _ =>
    match indices h !! key root with
    | None => None
    | Some _ =>
      '(e, h') ← remove_at (mkHeap (entries h) (delete (key root) (indices h))) 0;
      Some (Some (key e, priority e), h')
    end
  end.

Definition remove (h : IndexedMinHeap) (k : K) : option (option (K * P) * IndexedMinHeap) :=
  match indices h !! k with
  | None => Some (None, h)
  | Some index =>
    '(e, h') ← remove_at (mkHeap (entries h) (delete k (indices h))) index;
    Some (Some (key e, priority e), h')
  end.

(** The consistency check that debug builds run before every scheduler poll. *)
Definition assert_consistent (h : IndexedMinHeap) : bool :=
  (length (entries h) =? size (indices h)) &&
  forallb id (imap (λ i e,
    bool_decide (indices h !! key e = Some i) &&
    (if decide (0 < i) then
       match entries h !! parent i with
       | Some ep => geb (priority e) (priority ep)
       | None => false
       end
     else true)) (entries h)).

(** ** Invariant

    [index_ok]: the index map is exactly the position of each key.
    [ordered]: no entry has a smaller priority than its parent. *)

Definition index_ok (l : list Entry) (m : gmap K nat) : Prop :=
  ∀ k i, m !! k = Some i ↔ ∃ e, l !! i = Some e ∧ key e = k.

Definition ple (l : list Entry) (i j : nat) : Prop :=
  ∀ ei ej, l !! i = Some ei → l !! j = Some ej → ord_le (priority ei) (priority ej).

Definition ordered (l : list Entry) : Prop := ∀ j, 0 < j → ple l (parent j) j.

Definition wf (h : IndexedMinHeap) : Prop :=
  index_ok (entries h) (indices h) ∧ ordered (entries h).

(** The finite map a heap stands for. *)
Definition to_map (h : IndexedMinHeap) : gmap K P :=
  list_to_map ((λ e, (key e, priority e)) <$> entries h).

(** *** Positions *)

Lemma parent_spec j : 0 < j → j = 2 * parent j + 1 ∨ j = 2 * parent j + 2.
Proof.
  intros Hj. unfold parent. pose proof (Nat.div_mod_eq (j - 1) 2).
  pose proof (Nat.mod_upper_bound (j - 1) 2). lia.
Qed.

Lemma parent_lt j : 0 < j → parent j < j.
Proof. intros Hj. destruct (parent_spec j Hj); lia. Qed.

Lemma swap_lookup l a b ea eb j :
  l !! a = Some ea → l !! b = Some eb →
  <[b:=ea]> (<[a:=eb]> l) !! j =
    if decide (j = b) then Some ea else if decide (j = a) then Some eb else l !! j.
Proof.
  intros Ha Hb. pose proof (lookup_lt_Some _ _ _ Ha). pose proof (lookup_lt_Some _ _ _ Hb).
  repeat case_decide; subst.
  - apply list_lookup_insert_eq. by rewrite length_insert.
  - rewrite list_lookup_insert_ne by done. by apply list_lookup_insert_eq.
  - by rewrite !list_lookup_insert_ne.
Qed.

(** *** The index map under the elementary updates *)

Lemma index_ok_inj l m i j ei ej :
  index_ok l m → l !! i = Some ei → l !! j = Some ej → key ei = key ej → i = j.
Proof.
  intros Hm Hi Hj Hk.
  assert (m !! key ei = Some i) by (apply Hm; eauto).
  assert (m !! key ei = Some j) by (apply Hm; eauto). congruence.
Qed.

Lemma index_ok_lookup l m i e : index_ok l m → l !! i = Some e → m !! key e = Some i.
Proof. intros Hm Hi. apply Hm. eauto. Qed.

Lemma index_ok_NoDup l m : index_ok l m → NoDup (key <$> l).
Proof.
  intros Hm. apply NoDup_alt. intros i j k Hi Hj.
  apply list_lookup_fmap_Some in Hi as (ei & Hk & Hi).
  apply list_lookup_fmap_Some in Hj as (ej & Hk' & Hj).
  subst. eauto using index_ok_inj.
Qed.

Lemma index_ok_swap l m a b ea eb :
  index_ok l m → l !! a = Some ea → l !! b = Some eb →
  index_ok (<[b:=ea]> (<[a:=eb]> l)) (<[key ea:=b]> (<[key eb:=a]> m)).
Proof.
  intros Hm Ha Hb k i. rewrite (swap_lookup l a b ea eb) by done.
  pose proof (index_ok_inj l m) as Hinj.
  rewrite !lookup_insert. split.
  - intros Hk. repeat case_decide; simplify_eq; eauto.
    all: apply Hm in Hk as (e & He & <-); simplify_eq; eauto.
  - intros (e & He & <-). repeat case_decide; simplify_eq; try done.
    1: f_equal; by eauto.
    1: assert (a = i) by eauto; congruence.
    1: assert (b = i) by eauto; congruence.
    by apply (index_ok_lookup l).
Qed.

Lemma swap_spec h a b ea eb :
  index_ok (entries h) (indices h) → a ≠ b →
  entries h !! a = Some ea → entries h !! b = Some eb →
  ∃ m, swap h a b = Some (mkHeap (<[b:=ea]> (<[a:=eb]> (entries h))) m)
     ∧ index_ok (<[b:=ea]> (<[a:=eb]> (entries h))) m.
Proof.
  intros Hm Hab Ha Hb. exists (<[key ea:=b]> (<[key eb:=a]> (indices h))).
  split; [|by apply index_ok_swap].
  unfold swap, vec_swap, reindex. rewrite decide_False by done.
  rewrite Ha, Hb. simpl. rewrite !(swap_lookup _ a b ea eb) by done.
  destruct (decide (a = b)), (decide (a = a)), (decide (b = b)); try done. simpl.
  rewrite (index_ok_lookup (entries h) _ b eb) by done. simpl.
  rewrite lookup_insert, (index_ok_lookup (entries h) _ a ea) by done.
  by case_decide.
Qed.

(** *** Heap order up to one position

    [up_exc l i]: ordered, except that [i] may be smaller than its parent;
    [down_exc l i]: ordered, except that [i] may be larger than its children.
    In both, the children of [i] do not come before the parent of [i]. *)

Definition bypass (l : list Entry) (i : nat) : Prop :=
  ∀ j, 0 < j → parent j = i → 0 < i → ple l (parent i) j.

Definition up_exc (l : list Entry) (i : nat) : Prop :=
  (∀ j, 0 < j → j ≠ i → ple l (parent j) j) ∧ bypass l i.

Definition down_exc (l : list Entry) (i : nat) : Prop :=
  (∀ j, 0 < j → parent j ≠ i → ple l (parent j) j) ∧ bypass l i.

Lemma up_exc_swap l i e ep :
  0 < i → up_exc l i → l !! i = Some e → l !! parent i = Some ep →
  ord_le (priority e) (priority ep) →
  up_exc (<[parent i:=e]> (<[i:=ep]> l)) (parent i).
Proof.
  intros Hi [Hup Hby] He Hep Hle. pose proof (parent_lt i Hi).
  split.
  - intros j Hj Hjq e1 e2. rewrite !(swap_lookup l i (parent i) e ep) by done.
    pose proof (parent_lt j Hj).
    intros Hx Hy. repeat case_decide; simplify_eq; try lia; try done.
    + apply ord_le_trans with (priority ep); [done|].
      apply (Hup j Hj); congruence.
    + apply (Hby j Hj); congruence.
    + by apply (Hup j Hj).
  - intros j Hj Hjq Hq e1 e2. rewrite !(swap_lookup l i (parent i) e ep) by done.
    pose proof (parent_lt (parent i) Hq). pose proof (parent_lt j Hj).
    intros Hx Hy. repeat case_decide; simplify_eq; try lia; try done.
    + apply (Hup (parent i)); [lia|lia|done|done].
    + apply ord_le_trans with (priority ep).
      * apply (Hup (parent i)); [lia|lia|done|done].
      * apply (Hup j Hj); congruence.
Qed.

Lemma up_exc_stop l i e ep :
  up_exc l i → l !! i = Some e → l !! parent i = Some ep →
  ord_le (priority ep) (priority e) → ordered l.
Proof.
  intros [Hup _] He Hep Hle j Hj. destruct (decide (j = i)) as [->|]; [|by apply Hup].
  intros ???? . by simplify_eq.
Qed.

Lemma down_exc_swap l i c e ec :
  0 < c → parent c = i → down_exc l i → l !! i = Some e → l !! c = Some ec →
  ord_le (priority ec) (priority e) →
  (∀ j ej, 0 < j → parent j = i → l !! j = Some ej → ord_le (priority ec) (priority ej)) →
  down_exc (<[c:=e]> (<[i:=ec]> l)) c.
Proof.
  intros Hc Hci [Hdown Hby] He Hec Hle Hmin. pose proof (parent_lt c Hc).
  split.
  - intros j Hj Hjc e1 e2. rewrite !(swap_lookup l i c e ec) by done.
    pose proof (parent_lt j Hj).
    intros Hx Hy. repeat case_decide; simplify_eq; try lia; eauto.
    + by apply (Hby c).
    + by apply (Hdown j).
  - intros j Hj Hjc Hc' e1 e2. rewrite !(swap_lookup l i c e ec) by done.
    pose proof (parent_lt j Hj).
    intros Hx Hy. repeat case_decide; simplify_eq; try lia.
    by apply (Hdown j); [|lia|..].
Qed.

(** *** The sifting loops terminate, do not panic and restore the order *)

(** What a repair of [h] delivers: a well-formed heap with the same entries. *)
Definition repaired (h : IndexedMinHeap) (r : option IndexedMinHeap) : Prop :=
  ∃ h', r = Some h' ∧ wf h' ∧ entries h' ≡ₚ entries h.

Lemma repaired_perm h1 h2 r :
  entries h1 ≡ₚ entries h2 → repaired h1 r → repaired h2 r.
Proof. intros Hp (h' & -> & Hwf & Hp'). exists h'. by rewrite Hp' , Hp. Qed.

Lemma sift_up_spec fuel : ∀ h i,
  index_ok (entries h) (indices h) → i < len h → i < fuel →
  up_exc (entries h) i → repaired h (sift_up fuel h i).
Proof.
  induction fuel as [|fuel IH]; intros h i Hm Hi Hf Hup; [lia|].
  simpl. unfold len in Hi. case_decide as H0i; cycle 1.
  { exists h. repeat split; try done; [apply Hm..|].
    intros j Hj. destruct Hup as [Hup _]. apply Hup; lia. }
  pose proof (parent_lt i H0i).
  destruct (lookup_lt_is_Some_2 (entries h) i) as [e He]; [done|].
  destruct (lookup_lt_is_Some_2 (entries h) (parent i)) as [ep Hep]; [lia|].
  rewrite He, Hep. simpl. unfold geb. destruct (ltb _ _) eqn:Hlt; simpl; cycle 1.
  { exists h. repeat split; try done; [apply Hm..|].
    eapply up_exc_stop; eauto using ltb_false_le. }
  destruct (swap_spec h i (parent i) e ep) as (m & -> & Hm'); [done|lia|done|done|].
  refine (repaired_perm (mkHeap _ m) _ _ (Permutation_insert_swap _ _ _ _ _ He Hep) _).
  apply IH; simpl; [done|..|by apply up_exc_swap; eauto using ltb_true_le].
  - unfold len. simpl. rewrite !length_insert. lia.
  - lia.
Qed.

Lemma child_cases i j : 0 < j → parent j = i → j = i * 2 + 1 ∨ j = i * 2 + 1 + 1.
Proof. intros Hj <-. destruct (parent_spec j Hj); lia. Qed.

Lemma parent_child i c : c = i * 2 + 1 ∨ c = i * 2 + 1 + 1 → parent c = i.
Proof. intros Hc. destruct (parent_spec c); lia. Qed.

Lemma down_exc_stop l i e :
  down_exc l i → l !! i = Some e →
  (∀ j ej, 0 < j → parent j = i → l !! j = Some ej → ord_le (priority e) (priority ej)) →
  ordered l.
Proof.
  intros [Hdown _] He Hmin j Hj. destruct (decide (parent j = i)) as [Hji|]; [|by apply Hdown].
  intros ????. subst. simplify_eq. eauto.
Qed.

(** The child that [sift_down] compares with is a smallest one. *)
Lemma smallest_child l i el :
  l !! (i * 2 + 1) = Some el →
  ∃ c ec, (if decide (i * 2 + 1 + 1 < length l)
           then er ← l !! (i * 2 + 1 + 1);
                Some (if ltb (priority er) (priority el) then i * 2 + 1 + 1 else i * 2 + 1)
           else Some (i * 2 + 1)) = Some c ∧
    (c = i * 2 + 1 ∨ c = i * 2 + 1 + 1) ∧ l !! c = Some ec ∧
    ∀ j ej, 0 < j → parent j = i → l !! j = Some ej → ord_le (priority ec) (priority ej).
Proof.
  intros Hel. case_decide as Hr.
  - destruct (lookup_lt_is_Some_2 l (i * 2 + 1 + 1)) as [er Her]; [done|].
    rewrite Her. simpl. destruct (ltb _ _) eqn:Hlt.
    + eexists _, er. split; [done|]. split; [by right|]. split; [done|].
      intros j ej Hj Hp Hej. destruct (child_cases i j Hj Hp) as [-> | ->]; simplify_eq;
        eauto using ltb_true_le, ord_le_refl.
    + eexists _, el. split; [done|]. split; [by left|]. split; [done|].
      intros j ej Hj Hp Hej. destruct (child_cases i j Hj Hp) as [-> | ->]; simplify_eq;
        eauto using ltb_false_le, ord_le_refl.
  - eexists _, el. split; [done|]. split; [by left|]. split; [done|].
    intros j ej Hj Hp Hej. pose proof (lookup_lt_Some _ _ _ Hej).
    destruct (child_cases i j Hj Hp) as [-> | ->]; [|lia].
    simplify_eq. apply ord_le_refl.
Qed.

Lemma sift_down_spec fuel : ∀ h i,
  index_ok (entries h) (indices h) → i < len h → len h - i < fuel →
  down_exc (entries h) i → repaired h (sift_down fuel h i).
Proof.
  induction fuel as [|fuel IH]; intros h i Hm Hi Hf Hdown; [lia|].
  unfold len in *. destruct (lookup_lt_is_Some_2 (entries h) i) as [e He]; [done|].
  cbn [sift_down]. unfold len. case_decide as Hleft.
  { exists h. repeat split; try done; [apply Hm..|].
    eapply down_exc_stop; [done..|]. intros j ej Hj Hp Hej.
    apply lookup_lt_Some in Hej. destruct (child_cases i j Hj Hp); lia. }
  destruct (lookup_lt_is_Some_2 (entries h) (i * 2 + 1)) as [el Hel]; [lia|].
  destruct (smallest_child _ _ _ Hel) as (c & ec & Hsel & Hc & Hec & Hmin).
  rewrite Hel. cbn [mbind option_bind]. rewrite Hsel. cbn [mbind option_bind].
  rewrite Hec, He. cbn [mbind option_bind].
  pose proof (parent_child i c Hc) as Hpc. unfold geb. destruct (ltb _ _) eqn:Hlt; simpl; cycle 1.
  { exists h. repeat split; try done; [apply Hm..|].
    eapply down_exc_stop; [done..|]. intros j ej ???.
    eapply ord_le_trans; [by apply ltb_false_le|]. eauto. }
  destruct (swap_spec h i c e ec) as (m & -> & Hm'); [done|lia|done|done|].
  refine (repaired_perm (mkHeap _ m) _ _ (Permutation_insert_swap _ _ _ _ _ He Hec) _).
  apply lookup_lt_Some in Hec as Hlt'.
  apply IH; unfold len; simpl; rewrite ?length_insert; [done|lia|lia|].
  apply down_exc_swap; eauto using ltb_true_le. lia.
Qed.

(** Ordered, except that [i] may be out of order with its parent or children. *)
Definition point_exc (l : list Entry) (i : nat) : Prop :=
  (∀ j, 0 < j → j ≠ i → parent j ≠ i → ple l (parent j) j) ∧ bypass l i.

Lemma repair_at_spec h i :
  index_ok (entries h) (indices h) → i < len h → point_exc (entries h) i →
  repaired h (repair_at h i).
Proof.
  intros Hm Hi [Hpt Hby]. unfold repair_at, len in *.
  destruct (lookup_lt_is_Some_2 (entries h) i) as [e He]; [done|].
  case_decide as H0i; cycle 1.
  { cbn [mbind option_bind]. apply sift_down_spec; [done|done|unfold len; lia|].
    split; [|done]. intros j ??. apply Hpt; [done|lia|done]. }
  pose proof (parent_lt i H0i).
  destruct (lookup_lt_is_Some_2 (entries h) (parent i)) as [ep Hep]; [lia|].
  rewrite He, Hep. cbn [mbind option_bind]. destruct (ltb _ _) eqn:Hlt.
  - apply sift_up_spec; [done|done|lia|]. split; [|done].
    intros j Hj Hji. destruct (decide (parent j = i)) as [Hp|]; [|by apply Hpt].
    intros e1 e2 He1 He2. subst. simplify_eq.
    eapply ord_le_trans; [by apply ltb_true_le|]. by apply (Hby j).
  - apply sift_down_spec; [done|done|unfold len; lia|]. split; [|done].
    intros j Hj Hji. destruct (decide (j = i)) as [->|]; [|by apply Hpt].
    intros e1 e2 He1 He2. simplify_eq. by apply ltb_false_le.
Qed.

(** *** Inserting and removing entries *)

Lemma ordered_point_exc l l' i e :
  ordered l → l !! i = Some e → (∀ j x, j ≠ i → l' !! j = Some x → l !! j = Some x) →
  point_exc l' i.
Proof.
  intros Hord He Hsub. split.
  - intros j Hj ?? e1 e2 He1 He2. apply (Hord j Hj); eauto.
  - intros j Hj Hp Hi e1 e2 He1 He2. pose proof (parent_lt i Hi). pose proof (parent_lt j Hj).
    apply ord_le_trans with (priority e).
    + apply (Hord i Hi); [|done]. apply Hsub; [lia|done].
    + apply (Hord j Hj); [congruence|]. apply Hsub; [lia|done].
Qed.

Lemma index_ok_snoc l m e :
  index_ok l m → m !! key e = None → index_ok (l ++ [e]) (<[key e:=length l]> m).
Proof.
  intros Hm Hnone k i. rewrite lookup_insert. setoid_rewrite lookup_snoc_Some. split.
  - case_decide; [intros [= <-]; exists e; auto|].
    intros (e' & He' & <-)%Hm. exists e'.
    split; [|done]. left. split; [by eapply lookup_lt_Some|done].
  - intros (e' & [[? He']|[-> ->]] & <-); [|by rewrite decide_True].
    pose proof (index_ok_lookup _ _ _ _ Hm He'). rewrite decide_False; congruence.
Qed.

Lemma index_ok_update l m i e p :
  index_ok l m → l !! i = Some e → index_ok (<[i:=mkEntry (key e) p]> l) m.
Proof.
  intros Hm He k j. rewrite (Hm k j). pose proof (lookup_lt_Some _ _ _ He).
  destruct (decide (i = j)) as [<-|].
  - rewrite list_lookup_insert_eq, He by done.
    split; intros (? & [= <-] & <-); eauto.
  - by rewrite list_lookup_insert_ne.
Qed.

Lemma index_ok_take_last l m e :
  index_ok (l ++ [e]) m → index_ok l (delete (key e) m).
Proof.
  intros Hm k i. rewrite lookup_delete. split.
  - case_decide; [done|]. intros (e' & He' & <-)%Hm.
    apply lookup_snoc_Some in He' as [[_ ?]|[_ ->]]; [eauto|done].
  - intros (e' & He' & <-).
    assert ((l ++ [e]) !! i = Some e') as He'' by (apply lookup_app_l_Some; done).
    rewrite decide_False; [by eapply index_ok_lookup|]. intros Hk.
    assert ((l ++ [e]) !! length l = Some e) by (apply lookup_snoc_Some; auto).
    assert (length l = i) by (by eapply index_ok_inj). subst.
    apply lookup_lt_Some in He'. lia.
Qed.

(** Removing position [i] by moving the last entry into it. *)
Lemma index_ok_move_last l m i e elast :
  index_ok (l ++ [elast]) m → l !! i = Some e →
  index_ok (<[i:=elast]> l) (<[key elast:=i]> (delete (key e) m)).
Proof.
  intros Hm He. pose proof (lookup_lt_Some _ _ _ He) as Hlt.
  assert ((l ++ [elast]) !! length l = Some elast) as Hl by (apply lookup_snoc_Some; auto).
  assert ((l ++ [elast]) !! i = Some e) as Hi by (apply lookup_app_l_Some; done).
  pose proof (index_ok_swap _ _ _ _ _ _ Hm Hi Hl) as Hsw.
  rewrite insert_app_l in Hsw by done. rewrite insert_app_r_alt in Hsw by (by rewrite length_insert).
  rewrite length_insert, Nat.sub_diag in Hsw. apply index_ok_take_last in Hsw.
  rewrite delete_insert_eq, delete_insert_ne in Hsw; [done|]. intros Hk.
  assert (i = length l) by (apply (index_ok_inj _ _ _ _ _ _ Hm Hi Hl); congruence). lia.
Qed.

Lemma remove_at_spec h i e :
  wf h → entries h !! i = Some e →
  ∃ h', remove_at (mkHeap (entries h) (delete (key e) (indices h))) i = Some (e, h')
      ∧ wf h' ∧ e :: entries h' ≡ₚ entries h.
Proof.
  destruct h as [l m]. intros [Hm Hord] He. simpl in *.
  destruct l as [|elast l _] using rev_ind; [done|]. unfold remove_at. simpl.
  rewrite decide_False by (by destruct l).
  rewrite length_app. simpl. replace (length l + 1 - 1) with (length l) by lia.
  assert ((l ++ [elast]) !! length l = Some elast) as Hl by (apply lookup_snoc_Some; auto).
  pose proof (lookup_lt_Some _ _ _ He) as Hlt. rewrite length_app in Hlt. simpl in Hlt.
  case_decide as Hi.
  - subst i. simplify_eq. rewrite He. simpl. rewrite take_app_length.
    eexists. split; [done|]. split; [|by rewrite Permutation_cons_append].
    split; [by apply index_ok_take_last|]. simpl.
    intros j Hj e1 e2 He1 He2. apply (Hord j Hj); by apply lookup_app_l_Some.
  - assert (l !! i = Some e) as He' by (rewrite lookup_app_l in He by lia; done).
    unfold vec_swap. rewrite He, Hl. simpl.
    rewrite (swap_lookup _ i (length l) e elast) by done. rewrite decide_True by done. simpl.
    rewrite take_insert_ge, take_insert_lt, take_app_length by lia.
    rewrite list_lookup_insert_eq by lia. simpl. unfold reindex.
    rewrite lookup_delete_ne; cycle 1.
    { intros Hk. apply Hi. by eapply (index_ok_inj (l ++ [elast]) m). }
    rewrite (index_ok_lookup (l ++ [elast]) m _ _ Hm Hl). simpl.
    set (h := mkHeap _ _).
    destruct (repair_at_spec h i) as (h' & -> & Hwf & Hp); simpl.
    + by apply index_ok_move_last.
    + unfold len. simpl. rewrite length_insert. lia.
    + eapply ordered_point_exc; [done..|]. intros j x Hj Hx.
      rewrite list_lookup_insert_ne in Hx by done. by apply lookup_app_l_Some.
    + exists h'. split; [done|]. split; [done|]. rewrite Hp. simpl.
      rewrite <-(Permutation_insert_swap _ _ _ _ _ He Hl).
      rewrite insert_app_l by lia. rewrite insert_app_r_alt by (rewrite length_insert; lia).
      rewrite length_insert, Nat.sub_diag. simpl. by rewrite Permutation_cons_append.
Qed.

(** *** The finite map behind the heap *)

Lemma contents_NoDup l m :
  index_ok l m → NoDup ((λ e, (key e, priority e)) <$> l).*1.
Proof.
  intros Hm. rewrite <-list_fmap_compose. by eapply index_ok_NoDup.
Qed.

Lemma to_map_lookup h k p :
  wf h →
  to_map h !! k = Some p ↔ ∃ e, e ∈ entries h ∧ key e = k ∧ priority e = p.
Proof.
  intros [Hm _]. unfold to_map. rewrite <-elem_of_list_to_map by (by eapply contents_NoDup).
  rewrite list_elem_of_fmap. split.
  - intros (e & [= -> ->] & ?). eauto.
  - intros (e & ? & <- & <-). eauto.
Qed.

Lemma to_map_insert h h' e :
  wf h → wf h' → entries h' ≡ₚ e :: entries h → to_map h' = <[key e:=priority e]> (to_map h).
Proof.
  intros [Hm _] [Hm' _] Hp. unfold to_map.
  by rewrite (list_to_map_proper _ ((key e, priority e) :: ((λ e, (key e, priority e)) <$> entries h)))
    by (eauto using contents_NoDup || by rewrite Hp).
Qed.

Lemma to_map_delete h h' e :
  wf h → wf h' → e :: entries h' ≡ₚ entries h → to_map h' = delete (key e) (to_map h).
Proof.
  intros Hwf Hwf' Hp. rewrite (to_map_insert h' h e) by done.
  rewrite delete_insert_id; [done|]. apply eq_None_not_Some. intros [p Hk].
  apply to_map_lookup in Hk as (e' & He' & Hk & _); [|done].
  destruct Hwf as [Hm _]. apply index_ok_NoDup in Hm. rewrite <-Hp in Hm. simpl in Hm.
  apply NoDup_cons in Hm as [Hnin _]. apply Hnin, list_elem_of_fmap. eauto.
Qed.

Lemma wf_lookup_index h k : wf h → is_Some (indices h !! k) ↔ is_Some (to_map h !! k).
Proof.
  intros Hwf. pose proof Hwf as [Hm _]. split.
  - intros [i (e & He & <-)%Hm]. exists (priority e). apply to_map_lookup; [done|].
    exists e. split; [by eapply list_elem_of_lookup_2|done].
  - intros [p Hk]. apply to_map_lookup in Hk as (e & He & <- & _); [|done].
    apply list_elem_of_lookup in He as [i He]. exists i. by eapply index_ok_lookup.
Qed.

(** The root is a minimum. *)
Lemma ordered_root l e0 : ordered l → l !! 0 = Some e0 →
  ∀ j e, l !! j = Some e → ord_le (priority e0) (priority e).
Proof.
  intros Hord H00. intros j. induction (lt_wf j) as [j _ IH]. intros e He.
  destruct (decide (0 < j)) as [Hj|]; cycle 1.
  { replace j with 0 in He by lia. simplify_eq. apply ord_le_refl. }
  pose proof (parent_lt j Hj). pose proof (lookup_lt_Some _ _ _ He).
  destruct (lookup_lt_is_Some_2 l (parent j)) as [ep Hep]; [lia|].
  apply ord_le_trans with (priority ep); [by eapply IH|]. by apply (Hord j Hj).
Qed.

(** *** The operations against the finite map *)

Lemma new_wf : wf new.
Proof.
  split; simpl.
  - intros k i. rewrite lookup_empty. split; [done|]. by intros (? & [=] & _).
  - by intros j Hj ?? [=].
Qed.

Lemma to_map_new : to_map new = ∅.
Proof. done. Qed.

Lemma update_perm l i e x : l !! i = Some e → e :: <[i:=x]> l ≡ₚ x :: l.
Proof.
  intros He. pose proof (lookup_lt_Some _ _ _ He).
  rewrite insert_take_drop by done. rewrite <-(take_drop_middle l i e He) at 3.
  rewrite <-!Permutation_middle. apply perm_swap.
Qed.

Lemma insert_spec h k p :
  wf h → ∃ o h', insert h k p = Some (o, h') ∧ wf h' ∧ to_map h' = <[k:=p]> (to_map h)
    ∧ (o = Replaced ↔ is_Some (to_map h !! k)).
Proof.
  intros Hwf. pose proof Hwf as [Hm Hord]. pose proof (wf_lookup_index h k Hwf) as Hidx.
  unfold insert. destruct (indices h !! k) as [i|] eqn:Hk.
  - apply Hm in Hk as (e & He & <-). rewrite He. simpl.
    pose proof (lookup_lt_Some _ _ _ He) as Hlt. set (h1 := mkHeap _ _).
    destruct (repair_at_spec h1 i) as (h' & -> & Hwf' & Hp).
    + by apply index_ok_update.
    + unfold len. simpl. by rewrite length_insert.
    + eapply ordered_point_exc; [done..|]. intros j x Hj. simpl.
      by rewrite list_lookup_insert_ne.
    + eexists _, _. split; [done|]. split; [done|]. split; [|by rewrite <-Hidx; eauto].
      destruct (remove_at_spec h i e Hwf He) as (h0 & _ & Hwf0 & Hp0).
      rewrite (to_map_insert h0 h' (mkEntry (key e) p)); [|done..|].
      * simpl. rewrite (to_map_delete h h0 e) by done. by rewrite insert_delete_eq.
      * rewrite Hp. simpl. apply (Permutation_cons_inv (a:=e)).
        rewrite perm_swap, Hp0. by apply update_perm.
  - set (h1 := mkHeap _ _).
    destruct (sift_up_spec (S (length (entries h))) h1 (length (entries h)))
      as (h' & -> & Hwf' & Hp).
    + by apply (index_ok_snoc _ _ (mkEntry k p)).
    + unfold len. simpl. rewrite length_app. simpl. lia.
    + lia.
    + split.
      * intros j Hj Hjl e1 e2 He1 He2. simpl in *. pose proof (parent_lt j Hj).
        apply lookup_snoc_Some in He1 as [[? He1]|[? _]];
          apply lookup_snoc_Some in He2 as [[? He2]|[? _]]; try lia.
        by apply (Hord j Hj).
      * intros j Hj Hp ? e1 e2 _ He2. simpl in *. pose proof (parent_lt j Hj).
        apply lookup_lt_Some in He2. rewrite length_app in He2. simpl in He2. lia.
    + eexists _, _. split; [done|]. split; [done|]. split; [|rewrite <-Hidx; split; [done|by intros []]].
      apply (to_map_insert h h' (mkEntry k p)); [done..|].
      rewrite Hp. symmetry. apply Permutation_cons_append.
Qed.

(** [r] is what removing one entry from [h] may return. *)
Definition is_min (m : gmap K P) (k : K) (p : P) : Prop :=
  m !! k = Some p ∧ ∀ k' p', m !! k' = Some p' → ord_le p p'.

Lemma root_is_min h e l : wf h → entries h = e :: l → is_min (to_map h) (key e) (priority e).
Proof.
  intros Hwf Hl. split.
  - apply to_map_lookup; [done|]. exists e. rewrite Hl. split; [left|done].
  - intros k' p' Hk'. apply to_map_lookup in Hk' as (e' & He' & _ & <-); [|done].
    apply list_elem_of_lookup in He' as [j Hj]. destruct Hwf as [_ Hord].
    eapply ordered_root; [done|by rewrite Hl|done].
Qed.

Lemma entries_nil_iff h : wf h → entries h = [] ↔ to_map h = ∅.
Proof.
  intros Hwf. unfold to_map. split; [by intros ->|]. intros Hm.
  destruct (entries h) as [|e l] eqn:He; [done|].
  destruct (root_is_min h e l) as [Hk _]; [done..|].
  unfold to_map in Hk. rewrite He, Hm in Hk. by rewrite lookup_empty in Hk.
Qed.

Lemma pop_spec h :
  wf h → ∃ r h', pop h = Some (r, h') ∧ wf h' ∧
    match r with
    | None => to_map h = ∅ ∧ h' = h
    | Some (k, p) => is_min (to_map h) k p ∧ to_map h' = delete k (to_map h)
    end.
Proof.
  intros Hwf. unfold pop. destruct (entries h) as [|e l] eqn:He.
  { eexists None, h. do 2 (split; [done|]). split; [|done]. by apply entries_nil_iff. }
  assert (entries h !! 0 = Some e) as H0e by (by rewrite He).
  destruct Hwf as [Hm Hord]. rewrite (index_ok_lookup _ _ _ _ Hm H0e).
  destruct (remove_at_spec h 0 e) as (h' & Hr & Hwf' & Hp); [done..|].
  rewrite <-He, Hr. simpl. eexists (Some _), h'. do 2 (split; [done|]).
  split; [by eapply root_is_min|]. by apply to_map_delete.
Qed.

Lemma remove_spec h k :
  wf h → ∃ h', remove h k = Some ((λ p, (k, p)) <$> to_map h !! k, h')
    ∧ wf h' ∧ to_map h' = delete k (to_map h).
Proof.
  intros Hwf. unfold remove. destruct (indices h !! k) as [i|] eqn:Hk.
  - pose proof Hwf as [Hm _]. apply Hm in Hk as (e & He & <-).
    destruct (remove_at_spec h i e) as (h' & Hr & Hwf' & Hp); [done..|].
    rewrite Hr. simpl. exists h'. split; [|split; [done|by apply to_map_delete]].
    assert (to_map h !! key e = Some (priority e)) as ->; [|done].
    apply to_map_lookup; [done|]. exists e. split; [by eapply list_elem_of_lookup_2|done].
  - assert (to_map h !! k = None) as Hnone.
    { apply eq_None_not_Some. rewrite <-wf_lookup_index by done. rewrite Hk. by intros []. }
    exists h. rewrite Hnone. split; [done|]. split; [done|]. by rewrite delete_id.
Qed.

Lemma peek_spec h :
  wf h →
  match peek h with
  | None => to_map h = ∅
  | Some (k, p) => is_min (to_map h) k p
  end.
Proof.
  intros Hwf. unfold peek. destruct (entries h) as [|e l] eqn:He; simpl.
  - by apply entries_nil_iff.
  - by eapply root_is_min.
Qed.

Lemma len_spec h : wf h → len h = size (to_map h).
Proof.
  intros [Hm _]. unfold len, to_map.
  rewrite <-length_map_to_list, map_to_list_to_map by (by eapply contents_NoDup).
  by rewrite length_fmap.
Qed.

Lemma contains_key_spec h k : wf h → contains_key h k = true ↔ is_Some (to_map h !! k).
Proof.
  intros Hwf. rewrite <-wf_lookup_index by done. unfold contains_key.
  destruct (indices h !! k) as [i|]; split; [by eauto|done|done|by intros []].
Qed.

(** *** The consistency check decides the invariant *)

Lemma forallb_imap {A} (f : nat → A → bool) (l : list A) :
  forallb id (imap f l) = true ↔ ∀ i x, l !! i = Some x → f i x = true.
Proof.
  rewrite forallb_forall. setoid_rewrite <-list_elem_of_In. split.
  - intros Hall i x Hx. apply (Hall (f i x)), list_elem_of_lookup. exists i.
    by rewrite list_lookup_imap, Hx.
  - intros Hall b Hb. apply list_elem_of_lookup in Hb as [i Hi].
    rewrite list_lookup_imap in Hi. destruct (l !! i) eqn:Hx; [|done].
    simpl in Hi. simplify_eq. unfold id. eauto.
Qed.

Lemma index_ok_iff l m :
  index_ok l m ↔
  length l = size m ∧ ∀ i e, l !! i = Some e → m !! key e = Some i.
Proof.
  split.
  - intros Hm. split; [|intros i e He; by eapply index_ok_lookup].
    rewrite <-(length_fmap key l), <-size_dom. pose proof (index_ok_NoDup _ _ Hm) as Hnd.
    rewrite <-(size_list_to_set (C:=gset K) (key <$> l)) by done. f_equal.
    apply set_eq. intros k. rewrite elem_of_list_to_set, elem_of_dom, list_elem_of_fmap. split.
    + intros (e & -> & [i Hi]%list_elem_of_lookup). exists i. by eapply index_ok_lookup.
    + intros [i (e & He & <-)%Hm]. exists e. split; [done|]. by eapply list_elem_of_lookup_2.
  - intros [Hlen Hpos].
    assert (NoDup (key <$> l)) as Hnd.
    { apply NoDup_alt. intros i j k Hi Hj.
      apply list_lookup_fmap_Some in Hi as (ei & -> & Hi).
      apply list_lookup_fmap_Some in Hj as (ej & Hk & Hj).
      apply Hpos in Hi, Hj. congruence. }
    assert (list_to_set (key <$> l) = dom m) as Hdom.
    { apply set_subseteq_size_eq.
      - intros k. rewrite elem_of_list_to_set, elem_of_dom, list_elem_of_fmap.
        intros (e & -> & [i Hi]%list_elem_of_lookup). eauto.
      - rewrite size_list_to_set, length_fmap, size_dom by done. lia. }
    intros k i. split; [|by intros (e & He & <-); auto].
    intros Hk. assert (k ∈ dom m) as Hin by (apply elem_of_dom; eauto).
    rewrite <-Hdom, elem_of_list_to_set, list_elem_of_fmap in Hin.
    destruct Hin as (e & -> & [j Hj]%list_elem_of_lookup).
    pose proof (Hpos _ _ Hj). simplify_eq. eauto.
Qed.

Lemma geb_le (a b : P) : geb a b = true ↔ ord_le b a.
Proof.
  unfold geb, ltb, ord_le. rewrite (cmp_opp a b). destruct (cmp a b); simpl; split; congruence.
Qed.

Lemma assert_consistent_spec h : assert_consistent h = true ↔ wf h.
Proof.
  unfold assert_consistent, wf. rewrite andb_true_iff, Nat.eqb_eq, forallb_imap, index_ok_iff.
  setoid_rewrite andb_true_iff. setoid_rewrite bool_decide_eq_true. split.
  - intros [Hlen Hall]. split; [split; [done|]; intros i e He; by apply Hall|].
    intros j Hj ep e Hep He. destruct (Hall j e He) as [_ Hj'].
    rewrite decide_True, Hep in Hj' by done. by apply geb_le.
  - intros [[Hlen Hpos] Hord]. split; [done|]. intros i e He. split; [auto|].
    case_decide as Hi; [|done]. pose proof (parent_lt i Hi). pose proof (lookup_lt_Some _ _ _ He).
    destruct (lookup_lt_is_Some_2 (entries h) (parent i)) as [ep Hep]; [lia|].
    rewrite Hep. apply geb_le. by apply (Hord i Hi).
Qed.

(** ** Properties *)

(** C15: on a consistent heap [insert] always returns (no [expect] fails, the
    sifting loop ends), keeps the heap consistent, acts on the key/priority map as
    map insertion, and reports [Replaced] exactly when the key was present. *)
Theorem insert_refines_map h k p :
  wf h → ∃ o h', insert h k p = Some (o, h') ∧ wf h' ∧ to_map h' = <[k:=p]> (to_map h)
    ∧ (o = Replaced ↔ is_Some (to_map h !! k)).
Proof. apply insert_spec. Qed.

(** C31: on a consistent heap [pop] always returns, keeps the heap consistent,
    returns nothing exactly when the heap is empty, and otherwise removes an entry
    whose priority is minimal among all entries and nothing else. *)
Theorem pop_removes_minimum h :
  wf h → ∃ r h', pop h = Some (r, h') ∧ wf h' ∧
    match r with
    | None => to_map h = ∅ ∧ h' = h
    | Some (k, p) => is_min (to_map h) k p ∧ to_map h' = delete k (to_map h)
    end.
Proof. apply pop_spec. Qed.

(** on a consistent heap keyed removal always returns, keeps the heap
    consistent, returns the entry stored for the key if there is one, and acts on
    the key/priority map as map deletion. *)
Theorem remove_refines_map h k :
  wf h → ∃ h', remove h k = Some ((λ p, (k, p)) <$> to_map h !! k, h')
    ∧ wf h' ∧ to_map h' = delete k (to_map h).
Proof. apply remove_spec. Qed.

End heap.

(** ** Witnesses *)

Definition sample_heap : IndexedMinHeap (K:=Z) (P:=Z) :=
  mkHeap [mkEntry 1%Z 10%Z; mkEntry 2%Z 30%Z; mkEntry 3%Z 20%Z]
    (list_to_map [(1%Z, 0); (2%Z, 1); (3%Z, 2)]).

Lemma sample_heap_wf : wf sample_heap.
Proof. apply assert_consistent_spec. vm_compute. reflexivity. Qed.

Lemma insert_refines_map_witness :
  ∃ o h', insert sample_heap 4%Z 5%Z = Some (o, h') ∧ wf h'
    ∧ to_map h' = <[4%Z:=5%Z]> (to_map sample_heap)
    ∧ (o = Replaced ↔ is_Some (to_map sample_heap !! 4%Z)).
Proof. apply (insert_refines_map sample_heap 4%Z 5%Z), sample_heap_wf. Defined.

Lemma pop_removes_minimum_witness :
  ∃ r h', pop sample_heap = Some (r, h') ∧ wf h' ∧
    match r with
    | None => to_map sample_heap = ∅ ∧ h' = sample_heap
    | Some (k, p) => is_min (to_map sample_heap) k p ∧ to_map h' = delete k (to_map sample_heap)
    end.
Proof. apply (pop_removes_minimum sample_heap), sample_heap_wf. Defined.

Example sample_insert_moves_to_root :
  match insert sample_heap 4%Z 5%Z with
  | Some (o, h') => (o, map key (entries h')) = (Inserted, [4%Z; 1%Z; 3%Z; 2%Z])
  | None => False
  end.
Proof. vm_compute. reflexivity. Qed.

End MinHeap.
