(* ===== verification/Scheduler.v ===== *)
(** * The processor-local scheduler of the engine

    Models [crates/engine/src/node_local_scheduler.rs]: delayed resumes (retained
    payloads that return to the processor at a deadline) and keyed wakeups (slots
    with a deadline and a revision).  Instants are integers; [clock::now()] is an
    argument.  An operation that would panic (an [expect] of the scheduler, or a
    panic of the wakeup heap) is [None].

    The scheduler handle only adds a mutex and a notification around the
    operations below; the retained payload is passed by value where the source
    passes a [Box]. *)
From S2P Require Import Prelude MinHeap.
Import MinHeap.

Set Default Goal Selector "!".
Local Open Scope Z_scope.

Module Scheduler.

Inductive WakeupError :=
  | Unsupported
  | ShuttingDown
  | Capacity.

Inductive WakeupSetOutcome :=
  | SetInserted (revision : Z)
  | SetReplaced (revision : Z).

Definition revision_of (o : WakeupSetOutcome) : Z :=
  match o with SetInserted r | SetReplaced r => r end.

(** The wakeup counters and gauges; release builds wrap. *)
Record NodeLocalWakeupSchedulerMetrics := mkMetrics {
  set_inserted : Z;
  set_replaced : Z;
  set_error_capacity : Z;
  set_error_shutdown : Z;
  cancel_removed : Z;
  cancel_missed : Z;
  cancel_ignored_shutdown : Z;
  pop_due_count : Z;
  shutdown_cleared : Z;
  live : Z;
  capacity_gauge : Z;
}.

Definition counter_add (v c : Z) : Z := wrapping_add 64 c v.

Definition counter_inc (c : Z) : Z := wrapping_add 64 c 1.

Record WakeupPriority := mkPriority { pr_when : Z; pr_revision : Z }.

Definition priority_cmp (a b : WakeupPriority) : comparison :=
  then_with (Z.compare (pr_when a) (pr_when b)) (Z.compare (pr_revision a) (pr_revision b)).

#[global] Instance priority_ord : Ord WakeupPriority := priority_cmp.

#[global] Instance priority_ord_laws : OrdLaws WakeupPriority.
Proof.
  split; unfold cmp, priority_ord, priority_cmp.
  - intros [a b]. simpl. by rewrite !Z.compare_refl.
  - intros [a b] [c d]. simpl. rewrite (Z.compare_antisym a c), (Z.compare_antisym b d).
    by destruct (a ?= c), (b ?= d).
  - intros [a b] [c d] [e f]. simpl.
    destruct (Z.compare_spec a c), (Z.compare_spec c e), (Z.compare_spec a e),
      (Z.compare_spec b d), (Z.compare_spec d f), (Z.compare_spec b f);
      simpl; first [done|lia].
Qed.

Section scheduler.
Context {PData : Type}.

(** The control messages the scheduler emits. *)
Inductive NodeControlMsg :=
  | Wakeup (slot : Z) (when : Z) (revision : Z)
  | ResumeData (when : Z) (data : PData).

Record ScheduledResume := mkResume { when : Z; sequence : Z; data : PData }.

(** Reversed, so that the greatest element is the earliest one. *)
Definition resume_cmp (self other : ScheduledResume) : comparison :=
  then_with (Z.compare (when other) (when self)) (Z.compare (sequence other) (sequence self)).

#[local] Instance resume_ord : Ord ScheduledResume := resume_cmp.

#[local] Instance resume_ord_laws : OrdLaws ScheduledResume.
Proof.
  split; unfold cmp, resume_ord, resume_cmp.
  - intros [a b ?]. simpl. by rewrite !Z.compare_refl.
  - intros [a b ?] [c d ?]. simpl. rewrite (Z.compare_antisym a c), (Z.compare_antisym b d).
    by destruct (a ?= c), (b ?= d).
  - intros [a b ?] [c d ?] [e f ?]. simpl.
    destruct (Z.compare_spec c a), (Z.compare_spec e c), (Z.compare_spec e a),
      (Z.compare_spec d b), (Z.compare_spec f d), (Z.compare_spec f b);
      simpl; first [done|lia].
Qed.

Record NodeLocalScheduler := mkScheduler {
  delayed_resume_capacity : Z;
  wakeup_capacity : Z;
  next_sequence_ : Z;
  next_revision_ : Z;
  delayed_resumes : list ScheduledResume;
  due_now : list NodeControlMsg;
  heap : IndexedMinHeap (K:=Z) (P:=WakeupPriority);
  shutting_down : bool;
  metrics : option NodeLocalWakeupSchedulerMetrics;
}.

Implicit Types (s : NodeLocalScheduler) (r : ScheduledResume).

Definition new_with_metrics (dcap wcap : Z) (ms : option NodeLocalWakeupSchedulerMetrics) :
    NodeLocalScheduler :=
  mkScheduler dcap wcap 0 0 [] [] new false ms.

Definition with_metrics (f : NodeLocalWakeupSchedulerMetrics → NodeLocalWakeupSchedulerMetrics)
    (s : NodeLocalScheduler) : NodeLocalScheduler :=
  s <| metrics := f <$> metrics s |>.

Definition next_sequence (s : NodeLocalScheduler) : Z * NodeLocalScheduler :=
  (next_sequence_ s, s <| next_sequence_ := saturating_add u64_max (next_sequence_ s) 1 |>).

Definition next_revision (s : NodeLocalScheduler) : Z * NodeLocalScheduler :=
  (next_revision_ s, s <| next_revision_ := saturating_add u64_max (next_revision_ s) 1 |>).

Definition refresh_gauges (s : NodeLocalScheduler) : NodeLocalScheduler :=
  with_metrics (λ m, m <| live := Z.of_nat (len (heap s)) |>
                       <| capacity_gauge := wakeup_capacity s |>) s.

Definition requeue_later (s : NodeLocalScheduler) (at_ : Z) (d : PData) :
    result unit PData * NodeLocalScheduler :=
  if shutting_down s || (delayed_resume_capacity s <=? zlen (delayed_resumes s))
  then (Err d, s)
  else
    let '(seq, s) := next_sequence s in
    (Ok tt, s <| delayed_resumes := BinaryHeap.push (mkResume at_ seq d) (delayed_resumes s) |>).

(** The steps both accepting branches of [set_wakeup] share: allocate a
    revision, store the wakeup, count it, refresh the gauges. *)
Definition store_wakeup (s : NodeLocalScheduler) (slot at_ : Z)
    (count : NodeLocalWakeupSchedulerMetrics → NodeLocalWakeupSchedulerMetrics) :
    option (Z * NodeLocalScheduler) :=
  let '(revision, s) := next_revision s in
  '(_, h) ← insert (heap s) slot (mkPriority at_ revision);
  let s := s <| heap := h |> in
  Some (revision, refresh_gauges (with_metrics count s)).

Definition set_wakeup (s : NodeLocalScheduler) (slot at_ : Z) :
    option (result WakeupSetOutcome WakeupError * NodeLocalScheduler) :=
  if wakeup_capacity s =? 0 then Some (Err Unsupported, s)
  else if shutting_down s then
    Some (Err ShuttingDown,
          with_metrics (λ m, m <| set_error_shutdown ::= counter_inc |>) s)
  else if contains_key (heap s) slot then
    '(revision, s) ← store_wakeup s slot at_ (λ m, m <| set_replaced ::= counter_inc |>);
    Some (Ok (SetReplaced revision), s)
  else if wakeup_capacity s <=? Z.of_nat (len (heap s)) then
    Some (Err Capacity, with_metrics (λ m, m <| set_error_capacity ::= counter_inc |>) s)
  else
    '(revision, s) ← store_wakeup s slot at_ (λ m, m <| set_inserted ::= counter_inc |>);
    Some (Ok (SetInserted revision), s).

Definition cancel_wakeup (s : NodeLocalScheduler) (slot : Z) :
    option (bool * NodeLocalScheduler) :=
  if shutting_down s then
    Some (false, with_metrics (λ m, m <| cancel_ignored_shutdown ::= counter_inc |>) s)
  else
    '(r, h) ← remove (heap s) slot;
    let removed := match r with Some _ => true | None => false end in
    let s := s <| heap := h |> in
    let s := with_metrics (λ m, if removed then m <| cancel_removed ::= counter_inc |>
                                else m <| cancel_missed ::= counter_inc |>) s in
    Some (removed, refresh_gauges s).

Definition peek_resume (s : NodeLocalScheduler) : option Z :=
  when <$> BinaryHeap.peek (delayed_resumes s).

Definition peek_wakeup (s : NodeLocalScheduler) : option Z :=
  (λ '(_, p), pr_when p) <$> peek (heap s).

(** Debug builds also run [assert_consistent] on the wakeup heap here. *)
Definition next_expiry (s : NodeLocalScheduler) (now : Z) : option Z :=
  match due_now s with
  | _ :: _ => Some now
  | [] =>
    match peek_resume s, peek_wakeup s with
    | Some a, Some b => Some (Z.min a b)
    | Some a, None => Some a
    | None, Some b => Some b
    | None, None => None
    end
  end.

(** The wakeup half of [pop_due]. *)
Definition pop_due_wakeup (s : NodeLocalScheduler) (now : Z) :
    option (option NodeControlMsg * NodeLocalScheduler) :=
  match peek_wakeup s with
  | None => Some (None, s)
  | Some next_due =>
    if now <? next_due then Some (None, s)
    else
      '(r, h) ← pop (heap s);
      match r with
      | None => None
      | Some (slot, p) =>
        let s := s <| heap := h |> in
        let s := with_metrics (λ m, m <| pop_due_count ::= counter_inc |>) s in
        Some (Some (Wakeup slot (pr_when p) (pr_revision p)), refresh_gauges s)
      end
  end.

Definition pop_due (s : NodeLocalScheduler) (now : Z) :
    option (option NodeControlMsg * NodeLocalScheduler) :=
  match due_now s with
  | msg :: rest => Some (Some msg, s <| due_now := rest |>)
  | [] =>
    match
      match peek_resume s, peek_wakeup s with
      | Some resume_when, Some wakeup_when =>
        Some ((resume_when <=? now) && ((now <? wakeup_when) || (resume_when <=? wakeup_when)))
      | Some resume_when, None => Some (resume_when <=? now)
      | None, Some _ => Some false
      | None, None => None
      end
    with
    | None => Some (None, s)
    | Some true =>
      '(r, rest) ← BinaryHeap.pop (delayed_resumes s);
      Some (Some (ResumeData (when r) (data r)), s <| delayed_resumes := rest |>)
    | Some false => pop_due_wakeup s now
    end
  end.

(** [while let Some(resume) = self.delayed_resumes.pop()]. *)
Fixpoint drain_resumes (now : Z) (l : list ScheduledResume) (acc : list NodeControlMsg) :
    list NodeControlMsg :=
  match l with
  | [] => acc
  | r :: l' => drain_resumes now l' (acc ++ [ResumeData now (data r)])
  end.

Definition begin_shutdown (s : NodeLocalScheduler) (now : Z) : NodeLocalScheduler :=
  if shutting_down s then s
  else
    let s := s <| shutting_down := true |> in
    let s := s <| due_now := drain_resumes now (delayed_resumes s) (due_now s) |>
               <| delayed_resumes := [] |> in
    let cleared := Z.of_nat (len (heap s)) in
    let s := with_metrics (λ m, m <| shutdown_cleared ::= counter_add cleared |>) s in
    let s := s <| heap := clear (heap s) |> in
    refresh_gauges s.

Definition is_drained (s : NodeLocalScheduler) : bool :=
  match due_now s, delayed_resumes s with
  | [], [] => is_empty (heap s)
  | _, _ => false
  end.

(** ** Invariant *)

Definition wakeups (s : NodeLocalScheduler) : gmap Z WakeupPriority := to_map (heap s).

(** An identifier handed out before the counter reached [next]; the counters
    saturate at [u64::MAX]. *)
Definition issued (next id : Z) : Prop := 0 ≤ id ≤ next ∧ (next < u64_max → id < next).

Record sched_wf (s : NodeLocalScheduler) : Prop := {
  wf_heap : MinHeap.wf (heap s);
  wf_sorted : BinaryHeap.sorted (delayed_resumes s);
  wf_resume_capacity : zlen (delayed_resumes s) ≤ delayed_resume_capacity s;
  wf_wakeup_capacity : Z.of_nat (size (wakeups s)) ≤ wakeup_capacity s;
  wf_revisions : 0 ≤ next_revision_ s ≤ u64_max ∧
    map_Forall (λ _ p, issued (next_revision_ s) (pr_revision p)) (wakeups s);
  wf_sequences : 0 ≤ next_sequence_ s ≤ u64_max ∧
    Forall (λ r, issued (next_sequence_ s) (sequence r)) (delayed_resumes s);
  wf_phase : if shutting_down s then delayed_resumes s = [] ∧ wakeups s = ∅
             else due_now s = [];
}.

Lemma issued_next next : 0 ≤ next ≤ u64_max → issued (saturating_add u64_max next 1) next.
Proof. unfold issued, saturating_add. lia. Qed.

Lemma issued_mono next id :
  next ≤ u64_max → issued next id → issued (saturating_add u64_max next 1) id.
Proof. unfold issued, saturating_add. lia. Qed.

Lemma new_sched_wf dcap wcap ms :
  0 ≤ dcap → 0 ≤ wcap → sched_wf (new_with_metrics dcap wcap ms).
Proof.
  intros Hd Hw. split; unfold wakeups; simpl; try rewrite to_map_new; try done.
  - apply new_wf.
  - constructor.
Qed.

Lemma priority_le_when p p' : ord_le p p' → pr_when p ≤ pr_when p'.
Proof.
  unfold ord_le, cmp, priority_ord, priority_cmp.
  destruct (Z.compare_spec (pr_when p) (pr_when p')); simpl; [lia|lia|done].
Qed.

Lemma peek_wakeup_spec s :
  MinHeap.wf (heap s) →
  match peek_wakeup s with
  | None => wakeups s = ∅
  | Some w => (∃ slot p, wakeups s !! slot = Some p ∧ pr_when p = w) ∧
              map_Forall (λ _ p, w ≤ pr_when p) (wakeups s)
  end.
Proof.
  intros Hwf. unfold peek_wakeup, wakeups. pose proof (peek_spec _ Hwf) as Hp.
  destruct (peek (heap s)) as [[slot p]|]; simpl; [|done].
  destruct Hp as [Hslot Hmin]. split; [eauto|].
  intros slot' p' Hp'. eauto using priority_le_when.
Qed.

Lemma resume_le a b : ord_le a b ↔
  when b < when a ∨ (when b = when a ∧ sequence b ≤ sequence a).
Proof.
  unfold ord_le, cmp, resume_ord, resume_cmp.
  destruct (Z.compare_spec (when b) (when a)); simpl.
  - rewrite Z.compare_le_iff. split; [auto|]. intros [|[]]; [lia|done].
  - split; [auto|done].
  - split; [done|]. intros [|[]]; lia.
Qed.

(** [r] comes first among the delayed resumes: earliest deadline, then FIFO. *)
Definition earliest (l : list ScheduledResume) (r : ScheduledResume) : Prop :=
  r ∈ l ∧ ∀ r', r' ∈ l → when r < when r' ∨ (when r = when r' ∧ sequence r ≤ sequence r').

Lemma sorted_earliest r l : BinaryHeap.sorted (r :: l) → earliest (r :: l) r.
Proof.
  intros Hs. split; [left|]. intros r' Hr'.
  destruct (BinaryHeap.pop_greatest (r :: l) r l Hs eq_refl) as (_ & _ & Hall).
  by apply resume_le, Hall.
Qed.

(** ** Requeueing *)

Lemma requeue_later_spec s t d :
  sched_wf s →
  let '(res, s') := requeue_later s t d in
  sched_wf s' ∧
  if shutting_down s || (delayed_resume_capacity s <=? zlen (delayed_resumes s))
  then res = Err d ∧ s' = s
  else res = Ok tt ∧ delayed_resumes s' ≡ₚ mkResume t (next_sequence_ s) d :: delayed_resumes s
       ∧ due_now s' = due_now s ∧ wakeups s' = wakeups s ∧ shutting_down s' = false.
Proof.
  intros Hwf. unfold requeue_later. destruct (_ || _) eqn:Hrej; [done|].
  apply orb_false_iff in Hrej as [Hsd Hcap]. apply Z.leb_gt in Hcap.
  destruct Hwf, s; simpl in *. subst. split; [|split; [done|]; split; [apply BinaryHeap.push_perm|done]].
  destruct wf_sequences0 as [Hn Hall]. split; simpl; try done.
  - by apply BinaryHeap.push_sorted.
  - unfold zlen in *. rewrite BinaryHeap.push_length. lia.
  - split; [unfold saturating_add; lia|]. rewrite BinaryHeap.push_perm. constructor.
    + by apply issued_next.
    + eapply Forall_impl; [done|]. intros r Hr. apply issued_mono; [lia|done].
Qed.

(** ** Wakeups *)

(** The fields other than the wakeup heap, its revision counter and the metrics. *)
Definition same_resumes (s s' : NodeLocalScheduler) : Prop :=
  delayed_resume_capacity s' = delayed_resume_capacity s ∧
  wakeup_capacity s' = wakeup_capacity s ∧
  next_sequence_ s' = next_sequence_ s ∧
  delayed_resumes s' = delayed_resumes s ∧
  due_now s' = due_now s ∧
  shutting_down s' = shutting_down s.

Lemma wf_update_wakeups s s' :
  sched_wf s → same_resumes s s' → MinHeap.wf (heap s') →
  Z.of_nat (size (wakeups s')) ≤ wakeup_capacity s →
  0 ≤ next_revision_ s' ≤ u64_max →
  map_Forall (λ _ p, issued (next_revision_ s') (pr_revision p)) (wakeups s') →
  (shutting_down s = true → wakeups s' = ∅) →
  sched_wf s'.
Proof.
  intros [] (Hdc & Hwc & Hseq & Hdr & Hdn & Hsd) Hwf Hsize Hrev Hall Hempty.
  split; rewrite ?Hdc, ?Hwc, ?Hseq, ?Hdr, ?Hdn, ?Hsd; try done.
  destruct (shutting_down s); [|done]. split; [by destruct wf_phase0|auto].
Qed.

Lemma with_metrics_same f s : same_resumes s (with_metrics f s).
Proof. destruct s. by repeat split. Qed.

Lemma with_metrics_wakeups f s : wakeups (with_metrics f s) = wakeups s.
Proof. by destruct s. Qed.

Lemma with_metrics_wf f s : sched_wf s → sched_wf (with_metrics f s).
Proof. intros []. destruct s. by split. Qed.

Lemma store_wakeup_spec s slot t count :
  sched_wf s → shutting_down s = false →
  Z.of_nat (size (<[slot := mkPriority t (next_revision_ s)]> (wakeups s))) ≤ wakeup_capacity s →
  ∃ s', store_wakeup s slot t count = Some (next_revision_ s, s') ∧ sched_wf s' ∧
    same_resumes s s' ∧
    next_revision_ s' = saturating_add u64_max (next_revision_ s) 1 ∧
    wakeups s' = <[slot := mkPriority t (next_revision_ s)]> (wakeups s).
Proof.
  intros Hwf Hsd Hsize. pose proof Hwf as [Hheap _ _ _ [Hr Hall] _ _].
  destruct (insert_spec (heap s) slot (mkPriority t (next_revision_ s)) Hheap)
    as (o & h & Hins & Hwfh & Hmap & _).
  unfold store_wakeup, next_revision, wakeups in *. destruct s; simpl in *.
  rewrite Hins. simpl. eexists. split; [done|]. simpl.
  split; [|by repeat split].
  eapply wf_update_wakeups; [exact Hwf|by repeat split|..];
    unfold wakeups; simpl; rewrite ?Hmap; [done|done|unfold saturating_add; lia| |congruence].
  apply map_Forall_insert_2; [by apply issued_next|].
  intros k p Hk. apply issued_mono; [lia|]. by eapply Hall.
Qed.

Lemma set_wakeup_spec s slot t :
  sched_wf s → ∃ res s', set_wakeup s slot t = Some (res, s') ∧ sched_wf s' ∧
    same_resumes s s' ∧
    match res with
    | Err Unsupported => wakeup_capacity s = 0 ∧ s' = s
    | Err ShuttingDown => wakeup_capacity s ≠ 0 ∧ shutting_down s = true ∧ wakeups s' = wakeups s
    | Err Capacity => shutting_down s = false ∧ wakeups s !! slot = None ∧
        Z.of_nat (size (wakeups s)) = wakeup_capacity s ∧ wakeups s' = wakeups s
    | Ok o => shutting_down s = false ∧ wakeup_capacity s ≠ 0 ∧
        revision_of o = next_revision_ s ∧
        next_revision_ s' = saturating_add u64_max (next_revision_ s) 1 ∧
        wakeups s' = <[slot := mkPriority t (next_revision_ s)]> (wakeups s) ∧
        match o with
        | SetReplaced _ => is_Some (wakeups s !! slot)
        | SetInserted _ => wakeups s !! slot = None ∧
            Z.of_nat (size (wakeups s)) < wakeup_capacity s
        end
    end.
Proof.
  intros Hwf. pose proof Hwf as []. unfold set_wakeup.
  destruct (Z.eqb_spec (wakeup_capacity s) 0) as [Hc0|Hc0].
  { by eexists _, _. }
  destruct (shutting_down s) eqn:Hsd.
  { eexists _, _. split; [done|]. split; [by apply with_metrics_wf|].
    split; [apply with_metrics_same|]. by rewrite with_metrics_wakeups. }
  pose proof (contains_key_spec (heap s) slot wf_heap0) as Hck.
  pose proof (len_spec _ wf_heap0) as Hlen. fold (wakeups s) in *.
  destruct (contains_key (heap s) slot).
  { assert (is_Some (wakeups s !! slot)) as Hslot by (by apply Hck).
    destruct (store_wakeup_spec s slot t (λ m, m <| set_replaced ::= counter_inc |>))
      as (s' & -> & ? & ? & ? & ?); [done..| |].
    { rewrite map_size_insert. by destruct Hslot as [? ->]. }
    by eexists _, _. }
  assert (wakeups s !! slot = None) as Hslot.
  { apply eq_None_not_Some. intros Hs. by apply Hck in Hs. }
  rewrite Hlen. destruct (Z.leb_spec (wakeup_capacity s) (Z.of_nat (size (wakeups s)))).
  { eexists _, _. split; [done|]. split; [by apply with_metrics_wf|].
    split; [apply with_metrics_same|]. rewrite with_metrics_wakeups. auto with lia. }
  destruct (store_wakeup_spec s slot t (λ m, m <| set_inserted ::= counter_inc |>))
    as (s' & -> & ? & ? & ? & ?); [done..| |].
  { rewrite map_size_insert, Hslot. lia. }
  by eexists _, _.
Qed.

Lemma wf_delete_wakeup s slot h :
  sched_wf s → MinHeap.wf h → to_map h = delete slot (wakeups s) → sched_wf (s <| heap := h |>).
Proof.
  intros Hwf Hwfh Hmap. pose proof Hwf as [_ _ _ Hcap [Hr Hall] _ Hph].
  eapply wf_update_wakeups; [done|destruct s; by repeat split|..];
    unfold wakeups in *; destruct s; simpl in *; rewrite ?Hmap;
    [done| |lia|by apply map_Forall_delete|].
  - pose proof (map_size_delete slot (to_map heap0)) as Hsz.
    destruct (to_map heap0 !! slot); unfold id in *; lia.
  - intros ->. destruct Hph as [_ ->]. by rewrite delete_empty.
Qed.

Lemma cancel_wakeup_spec s slot :
  sched_wf s → ∃ b s', cancel_wakeup s slot = Some (b, s') ∧ sched_wf s' ∧ same_resumes s s' ∧
    next_revision_ s' = next_revision_ s ∧
    if shutting_down s then b = false ∧ wakeups s' = wakeups s
    else b = bool_decide (is_Some (wakeups s !! slot)) ∧ wakeups s' = delete slot (wakeups s).
Proof.
  intros Hwf. pose proof Hwf as []. unfold cancel_wakeup. destruct (shutting_down s) eqn:Hsd.
  { eexists _, _. split; [done|]. split; [by apply with_metrics_wf|].
    split; [apply with_metrics_same|]. by destruct s. }
  destruct (remove_spec (heap s) slot wf_heap0) as (h & -> & Hwfh & Hmap).
  simpl. fold (wakeups s) in *. eexists _, _. split; [done|].
  split; [|split; [|split]].
  - by apply with_metrics_wf, with_metrics_wf, (wf_delete_wakeup _ slot).
  - destruct s; by repeat split.
  - by destruct s.
  - destruct s; simpl in *. unfold wakeups in *. simpl in *. subst. split; [|done].
    by destruct (to_map heap0 !! slot).
Qed.

(** ** Popping due work *)

(** What [pop_due] may deliver at [now]: work converted by shutdown first, then
    whatever has the earliest deadline, a delayed resume before a wakeup with the
    same deadline; nothing only when nothing is due. *)
Definition pop_due_post (s : NodeLocalScheduler) (now : Z)
    (m : option NodeControlMsg) (s' : NodeLocalScheduler) : Prop :=
  match m with
  | None => s' = s ∧ due_now s = [] ∧ Forall (λ r, now < when r) (delayed_resumes s) ∧
      map_Forall (λ _ p, now < pr_when p) (wakeups s)
  | Some msg =>
    (due_now s = msg :: due_now s' ∧ delayed_resumes s' = delayed_resumes s ∧
      wakeups s' = wakeups s) ∨
    (due_now s = [] ∧ due_now s' = [] ∧
      match msg with
      | ResumeData w d => w ≤ now ∧ map_Forall (λ _ p, w ≤ pr_when p) (wakeups s) ∧
          wakeups s' = wakeups s ∧
          ∃ q, earliest (delayed_resumes s) (mkResume w q d) ∧
               delayed_resumes s = mkResume w q d :: delayed_resumes s'
      | Wakeup slot w rev => w ≤ now ∧ wakeups s !! slot = Some (mkPriority w rev) ∧
          map_Forall (λ _ p, w ≤ pr_when p) (wakeups s) ∧
          Forall (λ r, w < when r) (delayed_resumes s) ∧
          wakeups s' = delete slot (wakeups s) ∧ delayed_resumes s' = delayed_resumes s
      end)
  end.

Lemma peek_resume_spec s :
  BinaryHeap.sorted (delayed_resumes s) →
  match peek_resume s with
  | None => delayed_resumes s = []
  | Some w => ∃ q d rest, delayed_resumes s = mkResume w q d :: rest ∧
      earliest (delayed_resumes s) (mkResume w q d) ∧ BinaryHeap.sorted rest ∧
      Forall (λ r, w ≤ when r) (delayed_resumes s)
  end.
Proof.
  unfold peek_resume, BinaryHeap.peek. destruct (delayed_resumes s) as [|[w q d] rest]; simpl; [done|].
  intros Hs. exists q, d, rest. split; [done|]. pose proof (sorted_earliest _ _ Hs) as He.
  split; [done|]. apply StronglySorted_inv in Hs as [Hs _]. split; [done|].
  apply Forall_forall. intros r' Hr'. destruct He as [_ He]. specialize (He r' Hr'). simpl in He. lia.
Qed.

Lemma pop_due_wakeup_spec s now :
  sched_wf s → due_now s = [] →
  Forall (λ r, now < when r ∨ ∃ w, peek_wakeup s = Some w ∧ w < when r) (delayed_resumes s) →
  ∃ m s', pop_due_wakeup s now = Some (m, s') ∧ sched_wf s' ∧
    shutting_down s' = shutting_down s ∧ pop_due_post s now m s'.
Proof.
  intros Hwf Hdn Hres. pose proof Hwf as []. unfold pop_due_wakeup.
  pose proof (peek_wakeup_spec s wf_heap0) as Hpw. destruct (peek_wakeup s) as [w|].
  2: { eexists None, s. do 4 (split; [done|]). split; [done|]. split; [|by rewrite Hpw].
       eapply Forall_impl; [done|]. by intros r [?|(? & [=] & _)]. }
  destruct Hpw as [(slot0 & p0 & Hp0 & Hw0) Hmin]. destruct (Z.ltb_spec now w) as [Hlt|Hle].
  { eexists None, s. do 4 (split; [done|]). split; [done|]. split.
    - eapply Forall_impl; [done|]. intros r [?|(? & [= <-] & ?)]; lia.
    - intros k p Hk. specialize (Hmin k p Hk). simpl in Hmin. lia. }
  destruct (pop_spec (heap s) wf_heap0) as (r & h & -> & Hwfh & Hr). simpl.
  fold (wakeups s) in Hr. destruct r as [[slot [w' rev]]|]; cycle 1.
  { destruct Hr as [Hr _]. by rewrite Hr in Hp0. }
  destruct Hr as [[Hslot Hmin'] Hdel]. assert (w' = w) as ->.
  { specialize (Hmin _ _ Hslot). specialize (Hmin' _ _ Hp0).
    apply priority_le_when in Hmin'. simpl in *. lia. }
  eexists _, _. split; [done|]. split; [|split; [by destruct s|]].
  - apply with_metrics_wf, with_metrics_wf. eapply wf_delete_wakeup; [done| |done]. done.
  - right. split; [done|]. split; [by destruct s|]. simpl. split; [done|]. split; [done|].
    split; [done|]. split; [|by destruct s].
    eapply Forall_impl; [done|]. intros r [?|(? & [= <-] & ?)]; simpl; lia.
Qed.

Lemma take_resume_spec s now w q d rest :
  sched_wf s → due_now s = [] → delayed_resumes s = mkResume w q d :: rest → w ≤ now →
  map_Forall (λ _ p, w ≤ pr_when p) (wakeups s) →
  sched_wf (s <| delayed_resumes := rest |>) ∧
  pop_due_post s now (Some (ResumeData w d)) (s <| delayed_resumes := rest |>).
Proof.
  intros [] Hdn Hl Hw Hmin. pose proof wf_sorted0 as Hs. rewrite Hl in Hs.
  pose proof (sorted_earliest _ _ Hs). apply StronglySorted_inv in Hs as [Hs _].
  destruct wf_sequences0 as [Hn Hall]. destruct s; simpl in *; subst. split.
  - split; simpl in *; try done.
    + unfold zlen in *. simpl in *. lia.
    + split; [done|]. by apply Forall_cons in Hall as [].
    + by destruct shutting_down0; [destruct wf_phase0|].
  - right. do 3 (split; [done|]). split; [done|]. split; [done|]. exists q. auto.
Qed.

Lemma pop_due_spec s now :
  sched_wf s → ∃ m s', pop_due s now = Some (m, s') ∧ sched_wf s' ∧
    shutting_down s' = shutting_down s ∧ pop_due_post s now m s'.
Proof.
  intros Hwf. pose proof Hwf as []. unfold pop_due. destruct (due_now s) as [|msg rest] eqn:Hdn.
  2: { eexists _, _. split; [done|]. destruct s; simpl in *; subst.
       split; [|split; [done|by left]]. split; try done. simpl in *. by destruct shutting_down0. }
  pose proof (peek_resume_spec s wf_sorted0) as Hpr. pose proof (peek_wakeup_spec s wf_heap0) as Hpw.
  assert (∀ w q d rest, delayed_resumes s = mkResume w q d :: rest → w ≤ now →
    map_Forall (λ _ p, w ≤ pr_when p) (wakeups s) →
    ∃ m s', ('(r, rest) ← BinaryHeap.pop (delayed_resumes s);
      Some (Some (ResumeData (when r) (data r)), s <| delayed_resumes := rest |>)) = Some (m, s') ∧
      sched_wf s' ∧ shutting_down s' = shutting_down s ∧ pop_due_post s now m s') as Htake.
  { intros w q d rest Hl Hw Hmin. destruct (take_resume_spec s now w q d rest) as [??]; [done..|].
    rewrite Hl. simpl. eexists _, _. split; [done|]. split; [done|]. split; [by destruct s|done]. }
  assert (Forall (λ r, now < when r ∨ ∃ w, peek_wakeup s = Some w ∧ w < when r) (delayed_resumes s) →
    ∃ m s', pop_due_wakeup s now = Some (m, s') ∧ sched_wf s' ∧
      shutting_down s' = shutting_down s ∧ pop_due_post s now m s') as Hwake.
  { by apply pop_due_wakeup_spec. }
  destruct (peek_resume s) as [rw|], (peek_wakeup s) as [ww|].
  - destruct Hpr as (q & d & rest & Hl & _ & _ & Hle). destruct Hpw as [_ Hmin].
    destruct (Z.leb_spec rw now); simpl; [destruct (Z.ltb_spec now ww); simpl;
      [|destruct (Z.leb_spec rw ww); simpl]|].
    + eapply Htake; [done..|]. intros k p Hk. specialize (Hmin k p Hk). simpl in *. lia.
    + eapply Htake; [done..|]. intros k p Hk. specialize (Hmin k p Hk). simpl in *. lia.
    + apply Hwake. eapply Forall_impl; [done|]. intros r Hr. right. exists ww. split; [done|].
      simpl in *. lia.
    + apply Hwake. eapply Forall_impl; [done|]. intros r Hr. left. simpl in *. lia.
  - destruct Hpr as (q & d & rest & Hl & _ & _ & Hle). destruct (Z.leb_spec rw now); simpl.
    + eapply Htake; [done..|]. by rewrite Hpw.
    + apply Hwake. eapply Forall_impl; [done|]. intros r Hr. left. simpl in *. lia.
  - apply Hwake. by rewrite Hpr.
  - eexists None, s. do 4 (split; [done|]). rewrite Hpr, Hpw. split; [done|]. by split.
Qed.

(** ** Shutdown *)

Lemma drain_resumes_app now l acc :
  drain_resumes now l acc = acc ++ ((λ r, ResumeData now (data r)) <$> l).
Proof.
  revert acc. induction l as [|r l IH]; intros acc; simpl; [by rewrite app_nil_r|].
  rewrite IH. by rewrite <-app_assoc.
Qed.

Lemma begin_shutdown_spec s now :
  sched_wf s → sched_wf (begin_shutdown s now) ∧ shutting_down (begin_shutdown s now) = true ∧
    delayed_resumes (begin_shutdown s now) = [] ∧ wakeups (begin_shutdown s now) = ∅ ∧
    due_now (begin_shutdown s now) =
      due_now s ++ ((λ r, ResumeData now (data r)) <$> delayed_resumes s).
Proof.
  intros Hwf. unfold begin_shutdown. pose proof Hwf as [Hh ? Hrc Hwc [Hr _] [Hn _] Hph].
  destruct (shutting_down s) eqn:Hsd.
  { destruct Hph as [Hdr Hw]. rewrite Hdr. simpl. by rewrite app_nil_r. }
  unfold refresh_gauges. destruct s; simpl in *. subst. rewrite drain_resumes_app. simpl.
  split; [|done]. split; simpl; unfold wakeups; simpl; try done.
  - apply new_wf.
  - constructor.
  - rewrite zlen_nil. pose proof (zlen_nonneg delayed_resumes0). lia.
  - unfold wakeups in Hwc. simpl in Hwc. change (0 ≤ wakeup_capacity0). lia.
Qed.

(** ** Sequences of operations *)

Inductive Op :=
  | OpRequeue (at_ : Z) (d : PData)
  | OpSetWakeup (slot at_ : Z)
  | OpCancelWakeup (slot : Z)
  | OpPopDue (now : Z)
  | OpBeginShutdown (now : Z).

Inductive Out :=
  | OutRequeue (r : result unit PData)
  | OutSetWakeup (r : result WakeupSetOutcome WakeupError)
  | OutCancel (removed : bool)
  | OutPop (m : option NodeControlMsg)
  | OutUnit.

Definition step (s : NodeLocalScheduler) (op : Op) : option (Out * NodeLocalScheduler) :=
  match op with
  | OpRequeue t d => let '(r, s') := requeue_later s t d in Some (OutRequeue r, s')
  | OpSetWakeup slot t => '(r, s') ← set_wakeup s slot t; Some (OutSetWakeup r, s')
  | OpCancelWakeup slot => '(b, s') ← cancel_wakeup s slot; Some (OutCancel b, s')
  | OpPopDue now => '(m, s') ← pop_due s now; Some (OutPop m, s')
  | OpBeginShutdown now => Some (OutUnit, begin_shutdown s now)
  end.

Fixpoint run (s : NodeLocalScheduler) (ops : list Op) : option (list Out * NodeLocalScheduler) :=
  match ops with
  | [] => Some ([], s)
  | op :: ops =>
    '(out, s) ← step s op;
    '(outs, s) ← run s ops;
    Some (out :: outs, s)
  end.

Definition payload (m : NodeControlMsg) : option PData :=
  match m with ResumeData _ d => Some d | Wakeup _ _ _ => None end.

(** Payloads the scheduler took over, and payloads it gave back. *)
Definition accepted (op : Op) (out : Out) : list PData :=
  match op, out with OpRequeue _ d, OutRequeue (Ok _) => [d] | _, _ => [] end.

Definition delivered (out : Out) : list PData :=
  match out with OutPop (Some m) => option_list (payload m) | _ => [] end.

Definition pending (s : NodeLocalScheduler) : list PData :=
  omap payload (due_now s) ++ (data <$> delayed_resumes s).

Lemma omap_payload_resumes now (l : list ScheduledResume) :
  omap payload ((λ r, ResumeData now (data r)) <$> l) = data <$> l.
Proof. induction l as [|r l IH]; [done|]. simpl. f_equal. exact IH. Qed.

Lemma step_spec s op :
  sched_wf s → ∃ out s', step s op = Some (out, s') ∧ sched_wf s' ∧
    pending s ++ accepted op out ≡ₚ delivered out ++ pending s'.
Proof.
  intros Hwf. unfold step, pending. destruct op as [t d|slot t|slot|now|now].
  - pose proof (requeue_later_spec s t d Hwf) as Hr. destruct (requeue_later s t d) as [r s'].
    destruct Hr as [Hwf' Hr]. eexists _, _. split; [done|]. split; [done|].
    destruct (_ || _); [destruct Hr as [-> ->]; simpl; by rewrite app_nil_r|].
    destruct Hr as (-> & Hp & -> & _). simpl. rewrite Hp. simpl.
    rewrite <-app_assoc. f_equiv. by rewrite Permutation_app_comm.
  - destruct (set_wakeup_spec s slot t Hwf) as (r & s' & -> & Hwf' & (_ & _ & _ & Hd & Hn & _) & _).
    simpl. eexists _, _. split; [done|]. split; [done|]. simpl. by rewrite Hd, Hn, app_nil_r.
  - destruct (cancel_wakeup_spec s slot Hwf) as (r & s' & -> & Hwf' & (_ & _ & _ & Hd & Hn & _) & _).
    simpl. eexists _, _. split; [done|]. split; [done|]. simpl. by rewrite Hd, Hn, app_nil_r.
  - destruct (pop_due_spec s now Hwf) as (m & s' & -> & Hwf' & _ & Hpost).
    simpl. eexists _, _. split; [done|]. split; [done|]. simpl. rewrite app_nil_r.
    destruct m as [msg|]; [|by destruct Hpost as [-> _]].
    destruct Hpost as [(-> & -> & _)|(-> & -> & Hm)].
    + simpl. by destruct msg.
    + destruct msg; simpl.
      * by destruct Hm as (_ & _ & _ & _ & _ & ->).
      * destruct Hm as (_ & _ & _ & q & _ & ->). done.
  - destruct (begin_shutdown_spec s now Hwf) as (Hwf' & _ & Hd & _ & Hn).
    eexists _, _. split; [done|]. split; [done|]. simpl.
    by rewrite Hd, Hn, omap_app, omap_payload_resumes, !app_nil_r.
Qed.

Definition accepted_all (ops : list Op) (outs : list Out) : list PData :=
  concat (zip_with accepted ops outs).

Definition delivered_all (outs : list Out) : list PData := concat (delivered <$> outs).

Lemma run_spec s ops :
  sched_wf s → ∃ outs s', run s ops = Some (outs, s') ∧ sched_wf s' ∧
    pending s ++ accepted_all ops outs ≡ₚ delivered_all outs ++ pending s'.
Proof.
  revert s. induction ops as [|op ops IH]; intros s Hwf; simpl.
  { eexists _, _. split; [done|]. split; [done|]. unfold accepted_all. simpl. by rewrite app_nil_r. }
  destruct (step_spec s op Hwf) as (out & s1 & -> & Hwf1 & Hp1). simpl.
  destruct (IH s1 Hwf1) as (outs & s2 & -> & Hwf2 & Hp2). simpl.
  eexists _, _. split; [done|]. split; [done|].
  unfold accepted_all, delivered_all in *. simpl.
  rewrite app_assoc, Hp1, <-!app_assoc. by rewrite <-Hp2.
Qed.

Lemma pop_all_due_now s t :
  sched_wf s → delayed_resumes s = [] → wakeups s = ∅ →
  ∃ s', run s (replicate (length (due_now s)) (OpPopDue t)) =
          Some ((λ m, OutPop (Some m)) <$> due_now s, s') ∧ is_drained s' = true.
Proof.
  intros Hwf Hdr Hw. remember (due_now s) as l eqn:Hl. revert s Hl Hwf Hdr Hw.
  induction l as [|m l IH]; intros s Hl Hwf Hdr Hw; simpl.
  - exists s. split; [done|]. unfold is_drained. rewrite <-Hl, Hdr. unfold is_empty.
    destruct Hwf as [Hh _ _ _ _ _ _]. apply entries_nil_iff in Hw; [|done]. by rewrite Hw.
  - destruct (pop_due_spec s t Hwf) as (m' & s' & Hpop & Hwf' & _ & Hpost).
    rewrite Hpop. simpl. destruct m' as [m'|]; [|by destruct Hpost as (_ & Hd & _); rewrite <-Hl in Hd].
    destruct Hpost as [(Hd & Hdr' & Hw')|(Hd & _)]; [|by rewrite <-Hl in Hd].
    rewrite <-Hl in Hd. injection Hd as <- Hd.
    destruct (IH s') as (s'' & -> & Hdrain); [done|done|by rewrite Hdr'|by rewrite Hw'|].
    simpl. eauto.
Qed.

(** Without converted work, [next_expiry] is the minimum of all deadlines. *)
Lemma next_expiry_min s now :
  sched_wf s → due_now s = [] →
  match next_expiry s now with
  | None => delayed_resumes s = [] ∧ wakeups s = ∅
  | Some t => ((∃ r, r ∈ delayed_resumes s ∧ when r = t) ∨
               (∃ slot p, wakeups s !! slot = Some p ∧ pr_when p = t)) ∧
              Forall (λ r, t ≤ when r) (delayed_resumes s) ∧
              map_Forall (λ _ p, t ≤ pr_when p) (wakeups s)
  end.
Proof.
  intros [Hh Hs _ _ _ _ _] Hdn. unfold next_expiry. rewrite Hdn.
  pose proof (peek_resume_spec s Hs) as Hpr. pose proof (peek_wakeup_spec s Hh) as Hpw.
  destruct (peek_resume s) as [rw|], (peek_wakeup s) as [ww|]; [| | |done].
  - destruct Hpr as (q & d & rest & Hl & [Hin _] & _ & Hle). destruct Hpw as [(slot & p & Hp & Hpt) Hmin].
    split; [destruct (Z.min_spec rw ww) as [[_ ->]|[_ ->]]; [left|right]; eauto|].
    split; [eapply Forall_impl|eapply map_Forall_impl]; [done| |done|]; simpl; intros; lia.
  - destruct Hpr as (q & d & rest & Hl & [Hin _] & _ & Hle). rewrite Hpw. split; [left; eauto|done].
  - destruct Hpw as [(slot & p & Hp & Hpt) Hmin]. rewrite Hpr. split; [right; eauto|done].
Qed.

(** ** Properties *)

(** C26: from an empty scheduler, any sequence of requeue, wakeup, cancel, pop and
    shutdown operations runs without a panic and ends in a state that satisfies the
    invariant: the wakeup heap is consistent, both bounded sets are within
    capacity, revisions and sequence numbers were issued, and after shutdown neither
    delayed resumes nor wakeups remain. *)
Theorem scheduler_runs_safely dcap wcap ms ops :
  0 ≤ dcap → 0 ≤ wcap →
  ∃ outs s, run (new_with_metrics dcap wcap ms) ops = Some (outs, s) ∧ sched_wf s.
Proof.
  intros Hd Hw. destruct (run_spec _ ops (new_sched_wf dcap wcap ms Hd Hw)) as (outs & s & ? & ? & _).
  eauto.
Qed.

(** C14: no retained payload is lost or duplicated: in any run, the payloads
    accepted by [requeue_later] are, up to order, the ones delivered by [pop_due]
    together with the ones still retained, shutdown included. *)
Theorem payloads_conserved dcap wcap ms ops outs s :
  0 ≤ dcap → 0 ≤ wcap →
  run (new_with_metrics dcap wcap ms) ops = Some (outs, s) →
  accepted_all ops outs ≡ₚ delivered_all outs ++ pending s.
Proof.
  intros Hd Hw Hrun.
  destruct (run_spec _ ops (new_sched_wf dcap wcap ms Hd Hw)) as (outs' & s' & Hrun' & _ & Hp).
  rewrite Hrun in Hrun'. by injection Hrun' as <- <-.
Qed.

(** C33: [pop_due] delivers in deadline order: work converted by shutdown first;
    otherwise the delayed resume with the earliest deadline (FIFO among equal ones)
    or the wakeup with the earliest deadline, a resume winning ties with a wakeup;
    it delivers nothing only if nothing is due at [now]. *)
Theorem pop_due_in_deadline_order s now :
  sched_wf s → ∃ m s', pop_due s now = Some (m, s') ∧ pop_due_post s now m s'.
Proof.
  intros Hwf. destruct (pop_due_spec s now Hwf) as (m & s' & ? & _ & _ & ?). eauto.
Qed.

(** [next_expiry] is exact: [pop_due] at [now] delivers something if and only
    if [next_expiry] reports an instant that is not after [now]. *)
Theorem next_expiry_exact s now :
  sched_wf s →
  (∃ msg s', pop_due s now = Some (Some msg, s')) ↔ (∃ t, next_expiry s now = Some t ∧ t ≤ now).
Proof.
  intros Hwf. destruct (pop_due_spec s now Hwf) as (m & s' & Hpop & _ & _ & Hpost).
  pose proof (next_expiry_min s now Hwf) as Hmin. destruct m as [msg|]; simpl in Hpost.
  - split; [intros _|by eauto]. destruct Hpost as [(Hd & _)|(Hd & _ & Hm)].
    { exists now. unfold next_expiry. by rewrite Hd. }
    specialize (Hmin Hd). destruct (next_expiry s now) as [t|]; simpl in *.
    + exists t. split; [done|]. destruct Hmin as (_ & Hr & Hw), msg as [slot w rev|w d].
      * destruct Hm as (? & Hslot & _). specialize (Hw _ _ Hslot). simpl in Hw. lia.
      * destruct Hm as (? & _ & _ & q & [Hin _] & _). rewrite Forall_forall in Hr.
        specialize (Hr _ Hin). simpl in Hr. lia.
    + destruct Hmin as [Hr Hw], msg as [slot w rev|w d].
      * destruct Hm as (_ & Hslot & _). by rewrite Hw in Hslot.
      * destruct Hm as (_ & _ & _ & q & [Hin _] & _). rewrite Hr in Hin. by apply not_elem_of_nil in Hin.
  - split; [by intros (? & ? & ?); simplify_eq|]. intros (t & Ht & Hle).
    destruct Hpost as (_ & Hd & Hr & Hw). specialize (Hmin Hd). rewrite Ht in Hmin.
    destruct Hmin as ([(r & Hin & <-)|(slot & p & Hp & <-)] & _).
    + rewrite Forall_forall in Hr. specialize (Hr _ Hin). simpl in Hr. lia.
    + specialize (Hw _ _ Hp). simpl in Hw. lia.
Qed.

(** [set_wakeup] never panics; it is rejected exactly when wakeups are
    disabled, shutdown has latched, or a new slot finds the set full; replacing a
    live slot needs no capacity; an accepted request stores the deadline under the
    returned revision, which no live wakeup has carried before. *)
Theorem set_wakeup_outcome s slot t :
  sched_wf s → ∃ res s', set_wakeup s slot t = Some (res, s') ∧ sched_wf s' ∧
    match res with
    | Err Unsupported => wakeup_capacity s = 0 ∧ s' = s
    | Err ShuttingDown => wakeup_capacity s ≠ 0 ∧ shutting_down s = true ∧ wakeups s' = wakeups s
    | Err Capacity => shutting_down s = false ∧ wakeups s !! slot = None ∧
        Z.of_nat (size (wakeups s)) = wakeup_capacity s ∧ wakeups s' = wakeups s
    | Ok o => wakeup_capacity s ≠ 0 ∧ shutting_down s = false ∧
        wakeups s' = <[slot := mkPriority t (revision_of o)]> (wakeups s) ∧
        (o = SetReplaced (revision_of o) ↔ is_Some (wakeups s !! slot)) ∧
        (wakeups s !! slot = None → Z.of_nat (size (wakeups s)) < wakeup_capacity s) ∧
        (next_revision_ s < u64_max →
           map_Forall (λ _ p, pr_revision p < revision_of o) (wakeups s))
    end.
Proof.
  intros Hwf. destruct (set_wakeup_spec s slot t Hwf) as (res & s' & Hset & Hwf' & _ & Hres).
  exists res, s'. split; [done|]. split; [done|]. destruct res as [o|[]]; [|tauto..].
  destruct Hres as (? & ? & Hrev & _ & Hw & Ho). rewrite Hrev. do 3 (split; [done|]). split; [|split].
  - rewrite <-Hrev. destruct o; simpl in *; [split; [done|]|split; [done|done]].
    destruct Ho as [-> _]. by intros [].
  - destruct o; [by intros; apply Ho|]. destruct Ho as [? ->]. done.
  - intros Hlt k p Hk. destruct Hwf as [_ _ _ _ [_ Hall] _ _]. specialize (Hall k p Hk).
    unfold issued in Hall. simpl in *. lia.
Qed.

(** shutdown drains: it turns every delayed resume into immediate work, in
    deadline and FIFO order and stamped with the shutdown instant, drops all
    wakeups, and after one pop per retained resume the scheduler reports drained. *)
Theorem shutdown_drains_resumes s now t :
  sched_wf s → shutting_down s = false →
  ∃ s', run (begin_shutdown s now) (replicate (length (delayed_resumes s)) (OpPopDue t)) =
    Some ((λ r, OutPop (Some (ResumeData now (data r)))) <$> delayed_resumes s, s')
  ∧ is_drained s' = true.
Proof.
  intros Hwf Hsd. destruct (begin_shutdown_spec s now Hwf) as (Hwf' & _ & Hdr & Hw & Hd).
  destruct Hwf as [_ _ _ _ _ _ Hph]. rewrite Hsd in Hph. rewrite Hph in Hd. simpl in Hd.
  destruct (pop_all_due_now _ t Hwf' Hdr Hw) as (s' & Hrun & Hdrained).
  rewrite Hd, length_fmap in Hrun. rewrite <-list_fmap_compose in Hrun. eauto.
Qed.

End scheduler.

(** ** Witnesses *)

Definition zero_metrics : NodeLocalWakeupSchedulerMetrics :=
  mkMetrics 0 0 0 0 0 0 0 0 0 0 0.

Definition sample_ops : list (Op (PData:=Z)) :=
  [OpRequeue 30 7; OpSetWakeup 1 20; OpRequeue 20 8; OpSetWakeup 2 40; OpSetWakeup 1 25;
   OpRequeue 20 9].

Definition sample_scheduler : NodeLocalScheduler (PData:=Z) :=
  match run (new_with_metrics 4 2 (Some zero_metrics)) sample_ops with
  | Some (_, s) => s
  | None => new_with_metrics 4 2 None
  end.

Lemma sample_scheduler_wf : sched_wf sample_scheduler.
Proof.
  destruct (run_spec (new_with_metrics 4 2 (Some zero_metrics)) sample_ops)
    as (outs & s & Hrun & Hwf & _); [by apply new_sched_wf|].
  unfold sample_scheduler. by rewrite Hrun.
Qed.

Lemma scheduler_runs_safely_witness :
  ∃ outs s, run (new_with_metrics 4 2 (Some zero_metrics)) sample_ops = Some (outs, s) ∧ sched_wf s.
Proof. apply (scheduler_runs_safely 4 2); lia. Defined.

Lemma payloads_conserved_witness :
  match run (new_with_metrics 4 2 (Some zero_metrics))
          (sample_ops ++ [OpPopDue 22; OpBeginShutdown 23; OpPopDue 23]) with
  | Some (outs, s) => delivered_all outs = [8; 9] ∧ pending s = [7] ∧
      accepted_all (sample_ops ++ [OpPopDue 22; OpBeginShutdown 23; OpPopDue 23]) outs
        ≡ₚ delivered_all outs ++ pending s
  | None => False
  end.
Proof.
  destruct (run _ _) as [[outs s]|] eqn:Hrun; [|vm_compute in Hrun; discriminate].
  split; [vm_compute in Hrun; injection Hrun as <- <-; reflexivity|].
  split; [vm_compute in Hrun; injection Hrun as <- <-; reflexivity|].
  apply (payloads_conserved 4 2 (Some zero_metrics)); [lia|lia|exact Hrun].
Defined.

Lemma pop_due_in_deadline_order_witness :
  ∃ m s', pop_due sample_scheduler 22 = Some (m, s') ∧ pop_due_post sample_scheduler 22 m s'.
Proof. apply (pop_due_in_deadline_order sample_scheduler 22), sample_scheduler_wf. Defined.

End Scheduler.
