(* ===== verification/SlotOwners.v ===== *)
(** * Waiter slots and the futures that own them

    The local MPSC channel and the control channel both park blocked send futures
    in keyed waiter slots: a key is an index into the slot array and a generation
    that tells reuses of the slot apart.  This file states once what it means that
    the slots in use are exactly the ones owned by futures, one future each, and how
    the relation changes when a future registers, finishes or is dropped.

    A [shape] abstracts a slot array to what ownership depends on: whether slot [i]
    exists, whether it is in use, and its generation. *)
From S2P Require Import Prelude.

Set Default Goal Selector "!".
Local Open Scope Z_scope.

Module SlotOwners.

Section owners.
Context {F K : Type} (waiter_key : F → option K) (index : K → nat) (key_generation : K → Z).

Implicit Types (sh : nat → option (bool * Z)) (ft : gmap nat F).

(** Ownership after the key [ko], if any, is given up. *)
Definition shape_without (ko : option K) (sh : nat → option (bool * Z)) (i : nat) : option (bool * Z) :=
  match ko with
  | Some k => if decide (i = index k) then Some (false, key_generation k) else sh i
  | None => sh i
  end.

(** Ownership after the key [k] is taken. *)
Definition shape_with (k : K) (sh : nat → option (bool * Z)) (i : nat) : option (bool * Z) :=
  if decide (i = index k) then Some (true, key_generation k) else sh i.

Record owns (sh : nat → option (bool * Z)) (ft : gmap nat F) : Prop := {
  ow_key : ∀ f fu k, ft !! f = Some fu → waiter_key fu = Some k →
    sh (index k) = Some (true, key_generation k);
  ow_inj : ∀ f1 f2 fu1 fu2 k1 k2, ft !! f1 = Some fu1 → ft !! f2 = Some fu2 →
    waiter_key fu1 = Some k1 → waiter_key fu2 = Some k2 → index k1 = index k2 → f1 = f2;
  ow_all : ∀ i g, sh i = Some (true, g) →
    ∃ f fu k, ft !! f = Some fu ∧ waiter_key fu = Some k ∧ index k = i ∧ key_generation k = g;
}.

Lemma owns_ext sh sh' ft : (∀ i, sh' i = sh i) → owns sh ft → owns sh' ft.
Proof.
  intros Heq [H1 H2 H3]. split.
  - intros. rewrite Heq. eauto.
  - done.
  - intros i g. rewrite Heq. apply H3.
Qed.

(** A future that completes or is dropped releases its key. *)
Lemma owns_delete sh sh' ft f fu :
  owns sh ft → ft !! f = Some fu →
  (∀ i, sh' i = shape_without (waiter_key fu) sh i) → owns sh' (delete f ft).
Proof.
  intros [H1 H2 H3] Hf Hsh. split.
  - intros f1 fu1 k1 [Hne Hf1]%lookup_delete_Some Hk1. rewrite Hsh. unfold shape_without.
    destruct (waiter_key fu) as [k|] eqn:Hk; [|eauto]. case_decide as Hi; [|eauto].
    destruct Hne. symmetry. by eapply H2.
  - intros f1 f2 fu1 fu2 k1 k2 [_ Hf1]%lookup_delete_Some [_ Hf2]%lookup_delete_Some. eauto.
  - intros i g. rewrite Hsh. intros Hi. unfold shape_without in Hi.
    assert (sh i = Some (true, g) ∧ ∀ k, waiter_key fu = Some k → i ≠ index k) as [Hi' Hne].
    { destruct (waiter_key fu) as [k|]; [|done]. case_decide; [done|]. split; [done|]. by intros ? [= <-]. }
    destruct (H3 i g Hi') as (f1 & fu1 & k1 & Hf1 & Hk1 & Hx & ?). exists f1, fu1, k1. split_and!; try done.
    apply lookup_delete_Some. split; [|done]. intros <-. simplify_eq. by destruct (Hne _ Hk1).
Qed.

(** A future that has not registered owns nothing. *)
Lemma owns_insert_new sh ft f fu :
  ft !! f = None → waiter_key fu = None → owns sh ft → owns sh (<[f:=fu]> ft).
Proof.
  intros Hf Hfu [H1 H2 H3]. split.
  - intros f1 fu1 k1 Hf1 Hk1. apply lookup_insert_Some in Hf1 as [[<- <-]|[_ ?]]; [congruence|eauto].
  - intros f1 f2 fu1 fu2 k1 k2 Hf1 Hf2 Hk1 Hk2.
    apply lookup_insert_Some in Hf1 as [[<- <-]|[_ ?]]; [congruence|].
    apply lookup_insert_Some in Hf2 as [[<- <-]|[_ ?]]; [congruence|eauto].
  - intros i g Hi. destruct (H3 i g Hi) as (f1 & fu1 & k1 & Hf1 & Hk1 & ? & ?). exists f1, fu1, k1. split_and!; try done.
    apply lookup_insert_Some. right. split; [congruence|done].
Qed.

(** A blocked future keeps its key or registers under a fresh one. *)
Lemma owns_refresh sh sh' ft f fu fu' k :
  owns sh ft → ft !! f = Some fu → waiter_key fu' = Some k →
  (∀ i, sh' i = shape_with k sh i) →
  match waiter_key fu with Some k0 => k = k0 | None => ∀ g, sh (index k) ≠ Some (true, g) end →
  owns sh' (<[f:=fu']> ft).
Proof.
  intros [H1 H2 H3] Hf Hk' Hsh Hk.
  assert (∀ f1 fu1 k1, ft !! f1 = Some fu1 → waiter_key fu1 = Some k1 → index k1 = index k → f1 = f) as Huniq.
  { intros f1 fu1 k1 Hf1 Hk1 Hi. destruct (waiter_key fu) as [k0|] eqn:Hk0.
    - subst k0. eauto.
    - destruct (Hk (key_generation k1)). rewrite <-Hi. eauto. }
  split.
  - intros f1 fu1 k1 Hf1 Hk1. rewrite Hsh. unfold shape_with.
    apply lookup_insert_Some in Hf1 as [[<- <-]|[Hne Hf1]].
    + simplify_eq. by rewrite decide_True.
    + case_decide as Hi; [|eauto]. destruct Hne. symmetry. eauto.
  - intros f1 f2 fu1 fu2 k1 k2 Hf1 Hf2 Hk1 Hk2 Hi.
    apply lookup_insert_Some in Hf1 as [[<- <-]|[Hne1 Hf1]];
      apply lookup_insert_Some in Hf2 as [[<- <-]|[Hne2 Hf2]]; simplify_eq; eauto.
    symmetry. eauto.
  - intros i g. rewrite Hsh. unfold shape_with. case_decide as Hi; intros Hs.
    + subst i. simplify_eq. exists f, fu', k. split_and!; try done. apply lookup_insert_eq.
    + destruct (H3 i g Hs) as (f1 & fu1 & k1 & Hf1 & Hk1 & Hx & ?). exists f1, fu1, k1. split_and!; try done.
      apply lookup_insert_Some. right. split; [|done]. intros <-. simplify_eq.
      destruct (waiter_key fu) as [k0|] eqn:Hk0; simplify_eq.
Qed.

Lemma owns_empty sh ft : owns sh ft → size ft = 0%nat → ∀ i g, sh i ≠ Some (true, g).
Proof.
  intros [_ _ H3] Hsz i g Hi. destruct (H3 i g Hi) as (f & fu & k & Hf & _).
  apply map_size_empty_inv in Hsz. subst. done.
Qed.

End owners.
End SlotOwners.
