(* ===== verification/Mpsc.v ===== *)
(** * The local MPSC channel

    Models [crates/channel/src/mpsc.rs] and [crates/channel/src/error.rs]: the
    bounded single-threaded channel whose blocked senders wait in keyed slots and
    receive FIFO reservations before they are woken.

    A waker is an identity [W]; [Waker::will_wake] is equality of identities and
    waking appends to the list of woken identities an operation returns.  Send
    futures live in a table of the system state, so that polling, completing and
    dropping them in any order are steps of the system.  [Vec]s used as stacks
    ([free_slots]) have their top at the head. *)
From S2P Require Import Prelude SlotOwners.

Set Default Goal Selector "!".
Local Open Scope Z_scope.

Module Mpsc.

Section mpsc.
Context {W T : Type} `{EqDecision W}.

Inductive SendError :=
  | Full (v : T)
  | SendClosed (v : T).

Inductive RecvError :=
  | RecvClosed
  | Empty.

(** [SendError::inner]. *)
Definition send_error_inner (e : SendError) : T :=
  match e with Full v | SendClosed v => v end.

Record SenderWaiterKey := mkKey { index : nat; key_generation : Z }.

Record SenderWaiterSlot := mkSlot {
  generation : Z;
  waker : option W;
  in_use : bool;
  queued : bool;
  reserved : bool;
}.

Definition vacant : SenderWaiterSlot := mkSlot 0 None false false false.

Record SenderWaiters := mkWaiters {
  queue : list SenderWaiterKey;
  slots : list SenderWaiterSlot;
  free_slots : list nat;
  next_generation : Z;
}.

Definition waiters_new : SenderWaiters := mkWaiters [] [] [] 0.

(** The slot a queue entry refers to, unless the entry is stale. *)
Definition live_slot (sl : list SenderWaiterSlot) (k : SenderWaiterKey) : option SenderWaiterSlot :=
  match sl !! index k with
  | None => None
  | Some slot =>
    if negb (in_use slot) || negb (generation slot =? key_generation k) || negb (queued slot)
    then None else Some slot
  end.

(** [while let Some(key) = self.queue.pop_front()] of [reserve_one]. *)
Fixpoint reserve_loop (q : list SenderWaiterKey) (sl : list SenderWaiterSlot) :
    option W * list SenderWaiterKey * list SenderWaiterSlot :=
  match q with
  | [] => (None, [], sl)
  | k :: q =>
    match live_slot sl k with
    | None => reserve_loop q sl
    | Some slot =>
      let slot := slot <| queued := false |> in
      match waker slot with
      | Some w =>
        (Some w, q, <[index k := slot <| waker := None |> <| reserved := true |>]> sl)
      | None => reserve_loop q (<[index k := slot]> sl)
      end
    end
  end.

Definition reserve_one (ws : SenderWaiters) : option W * SenderWaiters :=
  let '(w, q, sl) := reserve_loop (queue ws) (slots ws) in
  (w, ws <| queue := q |> <| slots := sl |>).

Fixpoint wake_loop (q : list SenderWaiterKey) (sl : list SenderWaiterSlot) :
    list W * list SenderWaiterSlot :=
  match q with
  | [] => ([], sl)
  | k :: q =>
    match live_slot sl k with
    | None => wake_loop q sl
    | Some slot =>
      let '(ws, sl') := wake_loop q (<[index k := slot <| queued := false |> <| waker := None |>]> sl) in
      (option_list (waker slot) ++ ws, sl')
    end
  end.

Definition wake_all (ws : SenderWaiters) : list W * SenderWaiters :=
  let '(woken, sl) := wake_loop (queue ws) (slots ws) in
  (woken, ws <| queue := [] |> <| slots := sl |>).

(** The slot a waiter key still owns. *)
Definition owned_slot (ws : SenderWaiters) (k : SenderWaiterKey) : option SenderWaiterSlot :=
  match slots ws !! index k with
  | None => None
  | Some slot =>
    if in_use slot && (generation slot =? key_generation k) then Some slot else None
  end.

Definition refresh_waiter (ws : SenderWaiters) (k : SenderWaiterKey) (slot : SenderWaiterSlot) (w : W) :
    SenderWaiters :=
  let slot :=
    match waker slot with
    | Some w' => if decide (w' = w) then slot else slot <| waker := Some w |>
    | None => slot <| waker := Some w |>
    end in
  if queued slot then ws <| slots := <[index k := slot]> (slots ws) |>
  else ws <| slots := <[index k := slot <| queued := true |>]> (slots ws) |>
          <| queue := queue ws ++ [k] |>.

Definition register_waiter (ws : SenderWaiters) (w : W) : SenderWaiterKey * SenderWaiters :=
  let '(i, free, sl) :=
    match free_slots ws with
    | i :: free => (i, free, slots ws)
    | [] => (length (slots ws), [], slots ws ++ [vacant])
    end in
  let g := next_generation ws in
  let k := mkKey i g in
  (k, mkWaiters (queue ws ++ [k]) (<[i := mkSlot g (Some w) true true false]> sl) free
        (wrapping_add 64 g 1)).

Definition register_or_refresh (ws : SenderWaiters) (ko : option SenderWaiterKey) (w : W) :
    option SenderWaiterKey * SenderWaiters :=
  match ko with
  | Some k =>
    match owned_slot ws k with
    | Some slot => (Some k, refresh_waiter ws k slot w)
    | None => let '(k', ws') := register_waiter ws w in (Some k', ws')
    end
  | None => let '(k', ws') := register_waiter ws w in (Some k', ws')
  end.

Definition waiters_consume_reservation (ws : SenderWaiters) (k : SenderWaiterKey) :
    bool * SenderWaiters :=
  match owned_slot ws k with
  | None => (false, ws)
  | Some slot => (reserved slot, ws <| slots := <[index k := slot <| reserved := false |>]> (slots ws) |>)
  end.

(** Returns whether cancellation released an unused reservation. *)
Definition unregister (ws : SenderWaiters) (k : SenderWaiterKey) : bool * SenderWaiters :=
  match owned_slot ws k with
  | None => (false, ws)
  | Some slot =>
    (reserved slot,
     ws <| slots := <[index k := mkSlot (generation slot) None false false false]> (slots ws) |>
        <| free_slots := index k :: free_slots ws |>)
  end.

Record ChannelState := mkChannel {
  buffer : list T;
  capacity : Z;
  reserved_slots : Z;
  is_closed : bool;
  senders : Z;
  has_receiver : bool;
  receiver_waker : option W;
  sender_waiters : option SenderWaiters;
}.

Implicit Types (c : ChannelState) (ws : SenderWaiters).

Definition channel_new (cap : Z) : ChannelState := mkChannel [] cap 0 false 1 true None None.

Definition grant_one_sender_waiter (c : ChannelState) : ChannelState * list W :=
  if is_closed c || (capacity c <=? zlen (buffer c) + reserved_slots c) then (c, [])
  else
    match sender_waiters c with
    | None => (c, [])
    | Some ws =>
      let '(w, ws') := reserve_one ws in
      let c := c <| sender_waiters := Some ws' |> in
      match w with
      | Some w => (c <| reserved_slots := reserved_slots c + 1 |>, [w])
      | None => (c, [])
      end
    end.

Definition wake_all_sender_waiters (c : ChannelState) : ChannelState * list W :=
  match sender_waiters c with
  | None => (c, [])
  | Some ws => let '(woken, ws') := wake_all ws in (c <| sender_waiters := Some ws' |>, woken)
  end.

Definition register_or_refresh_sender_waiter (c : ChannelState) (ko : option SenderWaiterKey) (w : W) :
    option SenderWaiterKey * ChannelState :=
  let '(k, ws) := register_or_refresh (default waiters_new (sender_waiters c)) ko w in
  (k, c <| sender_waiters := Some ws |>).

Definition unregister_sender_waiter (c : ChannelState) (k : SenderWaiterKey) :
    ChannelState * list W :=
  match sender_waiters c with
  | None => (c, [])
  | Some ws =>
    let '(released, ws') := unregister ws k in
    let c := c <| sender_waiters := Some ws' |> in
    if (released : bool)
    then grant_one_sender_waiter (c <| reserved_slots := reserved_slots c - 1 |>)
    else (c, [])
  end.

Definition consume_reservation (c : ChannelState) (k : SenderWaiterKey) : bool * ChannelState :=
  match sender_waiters c with
  | None => (false, c)
  | Some ws =>
    let '(owned, ws') := waiters_consume_reservation ws k in
    let c := c <| sender_waiters := Some ws' |> in
    if (owned : bool) then (true, c <| reserved_slots := reserved_slots c - 1 |>) else (false, c)
  end.

(** [if let Some(waker) = state.receiver_waker.take() { waker.wake() }]. *)
Definition wake_receiver (c : ChannelState) : ChannelState * list W :=
  (c <| receiver_waker := None |>, option_list (receiver_waker c)).

Definition clone_sender (c : ChannelState) : ChannelState := c <| senders := senders c + 1 |>.

Definition drop_sender (c : ChannelState) : ChannelState * list W :=
  let c := c <| senders := senders c - 1 |> in
  if senders c =? 0 then wake_receiver (c <| is_closed := true |>) else (c, []).

Definition drop_receiver (c : ChannelState) : ChannelState * list W :=
  wake_all_sender_waiters (c <| has_receiver := false |> <| is_closed := true |>).

(** [Sender::send]. *)
Definition send (c : ChannelState) (v : T) : result unit SendError * ChannelState * list W :=
  if is_closed c || negb (has_receiver c) then (Err (SendClosed v), c, [])
  else if capacity c <=? zlen (buffer c) + reserved_slots c then (Err (Full v), c, [])
  else
    let '(c, woken) := wake_receiver (c <| buffer := buffer c ++ [v] |>) in
    (Ok tt, c, woken).

Definition close (c : ChannelState) : ChannelState * list W :=
  let '(c, w1) := wake_receiver (c <| is_closed := true |>) in
  let '(c, w2) := wake_all_sender_waiters c in
  (c, w1 ++ w2).

Definition try_recv (c : ChannelState) : result T RecvError * ChannelState * list W :=
  match buffer c with
  | v :: rest =>
    let c := c <| buffer := rest |> in
    let '(c, woken) :=
      if (zlen rest =? capacity c - 1) || bool_decide (rest = [])
      then grant_one_sender_waiter c else (c, []) in
    (Ok v, c, woken)
  | [] => if is_closed c then (Err RecvClosed, c, []) else (Err Empty, c, [])
  end.

Inductive Poll (R : Type) :=
  | Ready (r : R)
  | Pending.

(** [SendFuture::poll], with the future's value and waiter key; the key left in
    the future is returned. *)
Definition poll_send (c : ChannelState) (v : T) (ko : option SenderWaiterKey) (w : W) :
    Poll (result unit SendError) * option SenderWaiterKey * ChannelState * list W :=
  if is_closed c || negb (has_receiver c) then
    let '(c, woken) :=
      match ko with Some k => unregister_sender_waiter c k | None => (c, []) end in
    (Ready _ (Err (SendClosed v)), None, c, woken)
  else
    let '(owns_slot, c) :=
      match ko with Some k => consume_reservation c k | None => (false, c) end in
    if negb owns_slot && (capacity c <=? zlen (buffer c) + reserved_slots c) then
      let '(ko', c) := register_or_refresh_sender_waiter c ko w in
      (Pending _, ko', c, [])
    else
      let c := c <| buffer := buffer c ++ [v] |> in
      let '(c, w1) :=
        match ko with Some k => unregister_sender_waiter c k | None => (c, []) end in
      let '(c, w2) :=
        if reserved_slots c =? 0 then grant_one_sender_waiter c else (c, []) in
      let '(c, w3) := wake_receiver c in
      (Ready _ (Ok tt), None, c, w1 ++ w2 ++ w3).

(** [RecvFuture::poll]. *)
Definition poll_recv (c : ChannelState) (w : W) :
    Poll (result T RecvError) * ChannelState * list W :=
  match try_recv c with
  | (Err Empty, c, woken) =>
    let c :=
      match receiver_waker c with
      | Some w' => if decide (w' = w) then c else c <| receiver_waker := Some w |>
      | None => c <| receiver_waker := Some w |>
      end in
    (Pending _, c, woken)
  | (r, c, woken) => (Ready _ r, c, woken)
  end.

(** [Receiver::is_empty]. *)
Definition is_empty (c : ChannelState) : bool := bool_decide (buffer c = []).

(** [SendFuture], without the sender handle it carries, which the [senders] counter
    of the channel accounts for. *)
Record SendFuture := mkFuture { value : T; waiter_key : option SenderWaiterKey }.

(** [SendFuture::drop] followed by the drop of its sender handle. *)
Definition drop_send_future (c : ChannelState) (fu : SendFuture) : ChannelState * list W :=
  let '(c, w1) :=
    match waiter_key fu with Some k => unregister_sender_waiter c k | None => (c, []) end in
  let '(c, w2) := drop_sender c in
  (c, w1 ++ w2).

(** [Sender::send_async] up to its first suspension: the fast path, or a future
    holding a cloned sender. *)
Definition send_async (c : ChannelState) (v : T) :
    (result unit SendError + SendFuture) * ChannelState * list W :=
  match send c v with
  | (Err (Full v), c, woken) => (inr (mkFuture v None), clone_sender c, woken)
  | (r, c, woken) => (inl r, c, woken)
  end.

(** ** The channel with its users

    User handles and pending send futures around one channel.  [accepted] and
    [delivered] record, in order, the values whose send returned [Ok] and the
    values received. *)
Record System := mkSystem {
  chan : ChannelState;
  futures : gmap nat SendFuture;
  handles : nat;
  accepted : list T;
  delivered : list T;
}.

Definition system_new (cap : Z) : System := mkSystem (channel_new cap) ∅ 1 [] [].

Inductive Op :=
  | OpSend (v : T)
  | OpSendAsync (f : nat) (v : T)
  | OpPollSend (f : nat) (w : W)
  | OpDropFuture (f : nat)
  | OpTryRecv
  | OpPollRecv (w : W)
  | OpClose
  | OpClone
  | OpDropSender
  | OpDropReceiver.

Definition log_recv (y : System) (r : result T RecvError) (c : ChannelState) : System :=
  let y := y <| chan := c |> in
  match r with Ok v => y <| delivered ::= (λ l, l ++ [v]) |> | Err _ => y end.

Definition poll_send_op (y : System) (f : nat) (w : W) (fu : SendFuture) : System * list W :=
  match poll_send (chan y) (value fu) (waiter_key fu) w with
  | (Pending _, ko, c, woken) =>
    (y <| chan := c |> <| futures := <[f := mkFuture (value fu) ko]> (futures y) |>, woken)
  | (Ready _ r, ko, c, woken) =>
    let '(c, woken') := drop_send_future c (mkFuture (value fu) ko) in
    let y := y <| chan := c |> <| futures := delete f (futures y) |> in
    (match r with Ok _ => y <| accepted ::= (λ l, l ++ [value fu]) |> | Err _ => y end,
     woken ++ woken')
  end.

(** One operation by some user of the channel, with the wakers it wakes; an
    operation no user can perform (no handle, no receiver, no such future) leaves
    the system unchanged. *)
Definition step (y : System) (op : Op) : System * list W :=
  match op with
  | OpSend v =>
    if (handles y =? 0)%nat then (y, []) else
    match send (chan y) v with
    | (Ok _, c, woken) => (y <| chan := c |> <| accepted ::= (λ l, l ++ [v]) |>, woken)
    | (Err _, c, woken) => (y <| chan := c |>, woken)
    end
  | OpSendAsync f v =>
    if (handles y =? 0)%nat || bool_decide (is_Some (futures y !! f)) then (y, []) else
    match send_async (chan y) v with
    | (inl (Ok _), c, woken) => (y <| chan := c |> <| accepted ::= (λ l, l ++ [v]) |>, woken)
    | (inl (Err _), c, woken) => (y <| chan := c |>, woken)
    | (inr fu, c, woken) => (y <| chan := c |> <| futures := <[f := fu]> (futures y) |>, woken)
    end
  | OpPollSend f w =>
    match futures y !! f with
    | None => (y, [])
    | Some fu => poll_send_op y f w fu
    end
  | OpDropFuture f =>
    match futures y !! f with
    | None => (y, [])
    | Some fu =>
      let '(c, woken) := drop_send_future (chan y) fu in
      (y <| chan := c |> <| futures := delete f (futures y) |>, woken)
    end
  | OpTryRecv =>
    if has_receiver (chan y) then
      let '(r, c, woken) := try_recv (chan y) in (log_recv y r c, woken)
    else (y, [])
  | OpPollRecv w =>
    if has_receiver (chan y) then
      match poll_recv (chan y) w with
      | (Ready _ r, c, woken) => (log_recv y r c, woken)
      | (Pending _, c, woken) => (y <| chan := c |>, woken)
      end
    else (y, [])
  | OpClose =>
    if (handles y =? 0)%nat then (y, []) else
    let '(c, woken) := close (chan y) in (y <| chan := c |>, woken)
  | OpClone =>
    if (handles y =? 0)%nat then (y, []) else
    (y <| chan ::= clone_sender |> <| handles ::= S |>, [])
  | OpDropSender =>
    if (handles y =? 0)%nat then (y, []) else
    let '(c, woken) := drop_sender (chan y) in
    (y <| chan := c |> <| handles ::= pred |>, woken)
  | OpDropReceiver =>
    if has_receiver (chan y) then
      let '(c, woken) := drop_receiver (chan y) in (y <| chan := c |>, woken)
    else (y, [])
  end.

Fixpoint run (y : System) (ops : list Op) : System :=
  match ops with
  | [] => y
  | op :: ops => run (step y op).1 ops
  end.

(** ** Waiter slots *)

(** Flags of one slot: a queued slot is in use and has a waker; a reserved slot is
    in use and no longer queued. *)
Definition slot_ok (s : SenderWaiterSlot) : Prop :=
  (queued s = true → in_use s = true ∧ is_Some (waker s)) ∧
  (reserved s = true → in_use s = true ∧ queued s = false).

Abbreviation reserved_count sl := (count_if reserved sl).

Record waiters_wf (ws : SenderWaiters) : Prop := {
  ww_slots : ∀ i s, slots ws !! i = Some s → slot_ok s;
  ww_free_nodup : NoDup (free_slots ws);
  ww_free : ∀ i, i ∈ free_slots ws ↔ ∃ s, slots ws !! i = Some s ∧ in_use s = false;
  ww_queued : ∀ i s, slots ws !! i = Some s → queued s = true →
    mkKey i (generation s) ∈ queue ws;
}.

(** What the ownership of slots depends on. *)
Definition shape (sl : list SenderWaiterSlot) (i : nat) : option (bool * Z) :=
  (λ s, (in_use s, generation s)) <$> sl !! i.

Lemma shape_insert sl i s s' j :
  sl !! i = Some s → in_use s' = in_use s → generation s' = generation s →
  shape (<[i:=s']> sl) j = shape sl j.
Proof.
  intros Hs Hu Hg. unfold shape. destruct (decide (i = j)) as [<-|].
  - rewrite list_lookup_insert_eq, Hs by (by eapply lookup_lt_Some). simpl. by rewrite Hu, Hg.
  - by rewrite list_lookup_insert_ne.
Qed.

Lemma live_slot_Some sl k s :
  live_slot sl k = Some s ↔
  sl !! index k = Some s ∧ in_use s = true ∧ generation s = key_generation k ∧ queued s = true.
Proof.
  unfold live_slot. destruct (sl !! index k) as [s'|]; [|split; [done|by intros (? & _)]].
  destruct (in_use s') eqn:Hu, (Z.eqb_spec (generation s') (key_generation k)),
    (queued s') eqn:Hq; simpl; split; try done; intros Hs.
  all: try (destruct Hs as (? & ? & ? & ?)); simplify_eq; congruence || auto.
Qed.

Lemma owned_slot_Some ws k s :
  owned_slot ws k = Some s ↔
  slots ws !! index k = Some s ∧ in_use s = true ∧ generation s = key_generation k.
Proof.
  unfold owned_slot. destruct (slots ws !! index k) as [s'|]; [|split; [done|by intros (? & _)]].
  destruct (in_use s') eqn:Hu, (Z.eqb_spec (generation s') (key_generation k)); simpl; split; try done; intros Hs.
  all: try (destruct Hs as (? & ? & ?)); simplify_eq; congruence || auto.
Qed.

(** *** Reserving: the first live queue entry gets the reservation *)

Lemma reserve_loop_spec q sl :
  (∀ i s, sl !! i = Some s → slot_ok s) →
  match reserve_loop q sl with
  | (None, q', sl') => q' = [] ∧ sl' = sl ∧ ∀ k, k ∈ q → live_slot sl k = None
  | (Some w, q', sl') => ∃ pre k s, q = pre ++ k :: q' ∧ live_slot sl k = Some s ∧
      waker s = Some w ∧ (∀ k', k' ∈ pre → live_slot sl k' = None) ∧
      sl' = <[index k := mkSlot (generation s) None true false true]> sl
  end.
Proof.
  intros Hok. induction q as [|k q IH]; simpl.
  { split; [done|]. split; [done|]. intros k Hk. by apply not_elem_of_nil in Hk. }
  destruct (live_slot sl k) as [s|] eqn:Hlive.
  - apply live_slot_Some in Hlive as Hs. destruct Hs as (Hs & Hu & Hg & Hq).
    destruct (Hok _ _ Hs) as [Hqd _]. destruct (Hqd Hq) as [_ [w Hw]].
    destruct s as [g wk u qd r]; simpl in *. subst.
    exists [], k, (mkSlot (key_generation k) (Some w) true true r). repeat split; try done.
    intros k' Hk'. by apply not_elem_of_nil in Hk'.
  - destruct (reserve_loop q sl) as [[[w|] q'] sl'].
    + destruct IH as (pre & k0 & s & -> & ? & ? & Hpre & ?).
      exists (k :: pre), k0, s. repeat split; try done.
      intros k' [->|Hk']%elem_of_cons; auto.
    + destruct IH as (-> & -> & Hall). repeat split; try done.
      intros k' [->|Hk']%elem_of_cons; auto.
Qed.

(** *** Waking everybody *)

Lemma wake_loop_spec q sl :
  let '(woken, sl') := wake_loop q sl in
  (∀ i, shape sl' i = shape sl i) ∧ reserved_count sl' = reserved_count sl ∧
  (∀ i s', sl' !! i = Some s' → ∃ s, sl !! i = Some s ∧ reserved s' = reserved s ∧
     (s' = s ∨ (queued s' = false ∧ waker s' = None))) ∧
  (∀ i s', sl' !! i = Some s' → queued s' = true →
     ∀ k, k ∈ q → index k = i → live_slot sl k = None) ∧
  (∀ k s w, k ∈ q → live_slot sl k = Some s → waker s = Some w → w ∈ woken).
Proof.
  revert sl. induction q as [|k q IH]; intros sl; simpl.
  { repeat split; try done; [by eauto| |].
    - intros i s' _ _ k Hk. by apply not_elem_of_nil in Hk.
    - intros k s w Hk. by apply not_elem_of_nil in Hk. }
  destruct (live_slot sl k) as [s|] eqn:Hlive; cycle 1.
  { specialize (IH sl). destruct (wake_loop q sl) as [woken sl'].
    destruct IH as (? & ? & ? & Hq & Hw). repeat split; try done.
    - intros i s' Hs' Hqd k' [->|Hk']%elem_of_cons; [done|eauto].
    - intros k' s w [->|Hk']%elem_of_cons; [congruence|eauto]. }
  apply live_slot_Some in Hlive as Hs. destruct Hs as (Hs & Hu & Hg & Hqd).
  set (s0 := s <| queued := false |> <| waker := None |>).
  assert (in_use s0 = in_use s ∧ generation s0 = generation s ∧ reserved s0 = reserved s ∧
          queued s0 = false ∧ waker s0 = None) as (E1 & E2 & E3 & E4 & E5) by (by destruct s).
  assert (∀ k', live_slot (<[index k:=s0]> sl) k' =
    if decide (index k = index k') then None else live_slot sl k') as Hlive'.
  { intros k'. case_decide as Hi; unfold live_slot.
    - rewrite <-Hi, list_lookup_insert_eq by (by eapply lookup_lt_Some).
      rewrite E4. by rewrite !orb_true_r.
    - by rewrite list_lookup_insert_ne. }
  specialize (IH (<[index k:=s0]> sl)). destruct (wake_loop q _) as [woken sl'].
  destruct IH as (Hsh & Hc & Hst & Hq & Hw). repeat split.
  - intros i. rewrite Hsh. by eapply shape_insert.
  - rewrite Hc. rewrite (count_if_insert reserved _ _ s) by done. rewrite E3. lia.
  - intros i s' Hs'. destruct (Hst i s' Hs') as (s1 & Hs1 & Hr & Hor).
    destruct (decide (index k = i)) as [<-|].
    + rewrite list_lookup_insert_eq in Hs1 by (by eapply lookup_lt_Some). simplify_eq.
      exists s. split; [done|]. split; [congruence|]. right. destruct Hor as [->|]; done.
    + rewrite list_lookup_insert_ne in Hs1 by done. eauto.
  - intros i s' Hs' Hqd' k' Hk' Hi. destruct (decide (index k = i)) as [Hki|Hki].
    + destruct (Hst i s' Hs') as (s1 & Hs1 & _ & Hor). rewrite <-Hki in Hs1.
      rewrite list_lookup_insert_eq in Hs1 by (by eapply lookup_lt_Some). simplify_eq.
      destruct Hor as [->|[? _]]; congruence.
    + apply elem_of_cons in Hk' as [->|Hk']; [done|].
      pose proof (Hq i s' Hs' Hqd' k' Hk' Hi) as Hn. rewrite Hlive', decide_False in Hn by congruence. done.
  - intros k' s1 w Hk' Hl Hw1. apply elem_of_app.
    destruct (decide (index k = index k')) as [Hi|Hi].
    + left. apply live_slot_Some in Hl as (Hl & _). rewrite <-Hi, Hs in Hl. simplify_eq.
      rewrite Hw1. left.
    + right. apply elem_of_cons in Hk' as [->|Hk']; [done|].
      eapply Hw; [done| |done]. by rewrite Hlive', decide_False.
Qed.

(** *** The operations of the waiter table *)

(** Some sender is waiting in the queue without a reservation. *)
Definition has_queued (ws : SenderWaiters) : Prop :=
  ∃ i s, slots ws !! i = Some s ∧ queued s = true.

(** Slot [i] holds a reservation. *)
Definition granted (ws : SenderWaiters) (i : nat) : Prop :=
  ∃ s, slots ws !! i = Some s ∧ reserved s = true.

Lemma waiters_new_wf : waiters_wf waiters_new.
Proof.
  split; simpl; try done; [constructor|]. intros i. split.
  - intros Hi. by apply not_elem_of_nil in Hi.
  - by intros (? & ? & _).
Qed.

Lemma waiters_wf_update ws i s s' q' :
  waiters_wf ws → slots ws !! i = Some s → slot_ok s' → in_use s' = in_use s →
  (∀ j t, j ≠ i → slots ws !! j = Some t → queued t = true → mkKey j (generation t) ∈ q') →
  (queued s' = true → mkKey i (generation s') ∈ q') →
  waiters_wf (mkWaiters q' (<[i:=s']> (slots ws)) (free_slots ws) (next_generation ws)).
Proof.
  intros Hwf Hs Hok Hu Hq Hqi. pose proof (lookup_lt_Some _ _ _ Hs). split; simpl.
  - intros j t Hj. destruct (decide (j = i)) as [->|].
    + rewrite list_lookup_insert_eq in Hj by done. by simplify_eq.
    + rewrite list_lookup_insert_ne in Hj by done. by eapply ww_slots.
  - by apply ww_free_nodup.
  - intros j. rewrite ww_free by done. destruct (decide (j = i)) as [->|].
    + rewrite list_lookup_insert_eq, Hs by done. split; intros (? & ? & ?); simplify_eq; eexists; split; congruence || done.
    + by rewrite list_lookup_insert_ne.
  - intros j t Hj Hqd. destruct (decide (j = i)) as [->|].
    + rewrite list_lookup_insert_eq in Hj by done. simplify_eq. auto.
    + rewrite list_lookup_insert_ne in Hj by done. eauto.
Qed.

Lemma granted_insert ws q f g i s' j :
  granted ws j → j ≠ i → granted (mkWaiters q (<[i:=s']> (slots ws)) f g) j.
Proof. intros (t & Ht & Hr) Hne. exists t. simpl. by rewrite list_lookup_insert_ne. Qed.

Lemma reserve_one_spec ws :
  waiters_wf ws →
  match reserve_one ws with
  | (None, ws') => waiters_wf ws' ∧ slots ws' = slots ws ∧ ¬ has_queued ws
  | (Some w, ws') => waiters_wf ws' ∧ (∀ i, shape (slots ws') i = shape (slots ws) i) ∧
      reserved_count (slots ws') = reserved_count (slots ws) + 1 ∧
      (∀ i, granted ws i → granted ws' i)
  end.
Proof.
  intros Hwf. unfold reserve_one.
  pose proof (reserve_loop_spec (queue ws) (slots ws) (ww_slots _ Hwf)) as Hspec.
  destruct (reserve_loop _ _) as [[[w|] q'] sl'].
  - destruct Hspec as (pre & k & s & Hq & Hlive & Hw & Hpre & ->).
    apply live_slot_Some in Hlive as (Hs & Hu & Hg & Hqd). destruct ws as [q sl fr ng]; simpl in *.
    assert (reserved s = false) as Hr.
    { destruct (reserved s) eqn:Hr; [|done]. destruct (ww_slots _ Hwf _ _ Hs) as [_ Hx].
      destruct (Hx Hr). congruence. }
    split; [|split; [|split]].
    + eapply (waiters_wf_update (mkWaiters q sl fr ng)); try done.
      intros j t Hne Hj Hqt. pose proof (ww_queued _ Hwf _ _ Hj Hqt) as Hin. simpl in Hin.
      rewrite Hq in Hin. apply elem_of_app in Hin as [Hin|[Hk|Hin]%elem_of_cons]; [| |done].
      * pose proof (Hpre _ Hin) as Hn. destruct (ww_slots _ Hwf _ _ Hj) as [Hx _]. destruct (Hx Hqt).
        assert (live_slot sl (mkKey j (generation t)) = Some t) by (by apply live_slot_Some).
        congruence.
      * subst k. done.
    + intros i. by eapply shape_insert.
    + rewrite (count_if_insert reserved _ _ s), Hr by done. simpl. lia.
    + intros i Hi. destruct (decide (i = index k)) as [->|].
      * eexists. simpl. by rewrite list_lookup_insert_eq by (by eapply lookup_lt_Some).
      * by eapply (granted_insert (mkWaiters q sl fr ng)).
  - destruct Hspec as (-> & -> & Hnone). assert (¬ has_queued ws) as Hnq.
    { intros (i & s & Hs & Hqd). pose proof (Hnone _ (ww_queued _ Hwf _ _ Hs Hqd)) as Hn.
      destruct (ww_slots _ Hwf _ _ Hs) as [Hx _]. destruct (Hx Hqd).
      assert (live_slot (slots ws) (mkKey i (generation s)) = Some s) by (by apply live_slot_Some).
      congruence. }
    destruct ws as [q sl fr ng], Hwf; simpl in *. split; [|done]. split; simpl in *; try done.
    intros i s Hs Hqd. destruct Hnq. by exists i, s.
Qed.

Lemma wake_all_spec ws :
  waiters_wf ws →
  let '(woken, ws') := wake_all ws in
  waiters_wf ws' ∧ (∀ i, shape (slots ws') i = shape (slots ws) i) ∧
  reserved_count (slots ws') = reserved_count (slots ws) ∧
  (∀ i, granted ws i → granted ws' i) ∧ ¬ has_queued ws' ∧
  (∀ i s w, slots ws !! i = Some s → queued s = true → waker s = Some w → w ∈ woken).
Proof.
  intros Hwf. unfold wake_all. pose proof (wake_loop_spec (queue ws) (slots ws)) as Hspec.
  destruct (wake_loop _ _) as [woken sl']. destruct Hspec as (Hsh & Hrc & Hst & Hqd & Hwk).
  destruct ws as [q sl fr ng]; simpl in *.
  assert (∀ i s, sl !! i = Some s → queued s = true → live_slot sl (mkKey i (generation s)) = Some s) as Hlv.
  { intros i s Hs Hq. apply live_slot_Some. destruct (ww_slots _ Hwf _ _ Hs) as [Hx _]. by destruct (Hx Hq). }
  assert (∀ i s', sl' !! i = Some s' → queued s' = false) as Hnone.
  { intros i s' Hs'. destruct (queued s') eqn:Hq; [|done].
    destruct (Hst _ _ Hs') as (s & Hs & _ & [->|[? _]]); [|congruence].
    pose proof (Hqd _ _ Hs' Hq _ (ww_queued _ Hwf _ _ Hs Hq) eq_refl). rewrite (Hlv i s) in * by done. done. }
  split; [split; simpl|].
  - intros i s' Hs'. pose proof (Hnone _ _ Hs'). split; [congruence|]. intros Hr.
    destruct (Hst _ _ Hs') as (s & Hs & Hr' & _). pose proof (Hsh i) as Hi. unfold shape in Hi.
    rewrite Hs', Hs in Hi. simpl in Hi. destruct (ww_slots _ Hwf _ _ Hs) as [_ Hx].
    destruct Hx; [congruence|]. split; congruence.
  - by apply (ww_free_nodup _ Hwf).
  - intros i. rewrite (ww_free _ Hwf). simpl. pose proof (Hsh i) as Hi. unfold shape in Hi.
    destruct (sl' !! i), (sl !! i); simpl in Hi; simplify_eq; [|done].
    split; intros (? & ? & ?); eexists; split; congruence || done.
  - intros i s' Hs' Hq. by rewrite (Hnone _ _ Hs') in Hq.
  - repeat split; try done.
    + intros i (s & Hs & Hr). simpl in *. pose proof (Hsh i) as Hi. unfold shape in Hi. rewrite Hs in Hi.
      destruct (sl' !! i) as [s'|] eqn:Hs'; [|done]. destruct (Hst _ _ Hs') as (s1 & Hs1 & Hr1 & _).
      exists s'. split; [done|]. congruence.
    + intros (i & s & Hs & Hq). simpl in Hs. by rewrite (Hnone _ _ Hs) in Hq.
    + intros i s w Hs Hq Hw. eapply Hwk; [by eapply (ww_queued _ Hwf)|by apply Hlv|done].
Qed.

Lemma register_waiter_spec ws w :
  waiters_wf ws →
  let '(k, ws') := register_waiter ws w in
  waiters_wf ws' ∧
  (∀ g, shape (slots ws) (index k) ≠ Some (true, g)) ∧
  (∀ i, shape (slots ws') i =
     if decide (i = index k) then Some (true, key_generation k) else shape (slots ws) i) ∧
  reserved_count (slots ws') = reserved_count (slots ws) ∧
  (∀ i, granted ws i → granted ws' i) ∧ has_queued ws'.
Proof.
  intros Hwf. unfold register_waiter.
  set (pick := match free_slots ws with
    | i :: free => (i, free, slots ws) | [] => (length (slots ws), [], slots ws ++ [vacant]) end).
  assert (∃ i free sl s, pick = (i, free, sl) ∧ sl !! i = Some s ∧ in_use s = false ∧ reserved s = false ∧
    NoDup free ∧ reserved_count sl = reserved_count (slots ws) ∧
    (∀ j, j ≠ i → sl !! j = slots ws !! j) ∧ (∀ t, slots ws !! i = Some t → t = s) ∧
    (∀ j, j ∈ free ↔ j ≠ i ∧ ∃ t, slots ws !! j = Some t ∧ in_use t = false))
    as (i & free & sl & s & -> & Hs & Hu & Hr & Hnd & Hrc & Hne & Heq & Hfree).
  { pose proof (ww_free _ Hwf) as Hf. pose proof (ww_free_nodup _ Hwf) as Hnd. subst pick.
    destruct (free_slots ws) as [|i free].
    - exists (length (slots ws)), [], (slots ws ++ [vacant]), vacant.
      split_and!; try done.
      + by apply list_lookup_middle.
      + rewrite count_if_app. simpl. lia.
      + intros j Hj. destruct (decide (j < length (slots ws))%nat).
        * by rewrite lookup_app_l.
        * rewrite !lookup_ge_None_2; rewrite ?length_app; simpl; lia || done.
      + intros t Ht. apply lookup_lt_Some in Ht. lia.
      + intros j. split; [intros Hj; by apply not_elem_of_nil in Hj|].
        intros [_ Hj]. by apply Hf in Hj.
    - apply NoDup_cons in Hnd as [Hni Hnd]. destruct (proj1 (Hf i)) as (s & Hs & Hu); [left|].
      exists i, free, (slots ws), s. destruct (ww_slots _ Hwf _ _ Hs) as [_ Hx].
      split_and!; try done.
      + destruct (reserved s); [|done]. destruct Hx; congruence.
      + congruence.
      + intros j. split; [intros Hj; split; [by intros ->|apply Hf; by right]|].
        intros [Hji Hj]. apply Hf in Hj as [?|?]%elem_of_cons; done. }
  pose proof (lookup_lt_Some _ _ _ Hs) as Hlt. simpl.
  set (s' := mkSlot (next_generation ws) (Some w) true true false).
  assert (∀ j t, <[i:=s']> sl !! j = Some t → (j = i ∧ t = s') ∨ (j ≠ i ∧ slots ws !! j = Some t)) as Hlk.
  { intros j t Hj. destruct (decide (j = i)) as [->|Hji].
    - rewrite list_lookup_insert_eq in Hj by done. left. by simplify_eq.
    - rewrite list_lookup_insert_ne, Hne in Hj by done. auto. }
  split; [split; simpl|].
  - intros j t [[-> ->]|[_ Hj]]%Hlk; [|by eapply ww_slots]. split; simpl; [by eauto|done].
  - done.
  - intros j. rewrite Hfree. destruct (decide (j = i)) as [->|Hji].
    + rewrite list_lookup_insert_eq by done. split; [by intros [? _]|]. intros (? & ? & ?). by simplify_eq.
    + rewrite list_lookup_insert_ne, Hne by done. by split; [intros [_ ?]|].
  - intros j t [[-> ->]|[_ Hj]]%Hlk Hq; apply elem_of_app; [right; left|left].
    by eapply ww_queued.
  - split_and!; simpl.
    + intros g Hg. unfold shape in Hg. destruct (slots ws !! i) as [t|] eqn:Ht; [|done].
      rewrite (Heq t) in Hg by done. simpl in Hg. congruence.
    + intros j. unfold shape. case_decide as Hj; [subst j; by rewrite list_lookup_insert_eq|].
      by rewrite list_lookup_insert_ne, Hne.
    + rewrite (count_if_insert reserved _ _ s), Hr, Hrc by done. simpl. lia.
    + intros j (t & Ht & Hrt). exists t. simpl. split; [|done].
      destruct (decide (j = i)) as [->|]; [rewrite (Heq t) in Hrt by done; congruence|].
      by rewrite list_lookup_insert_ne, Hne.
    + exists i, s'. split; [by apply list_lookup_insert_eq|done].
Qed.

Lemma refresh_waiter_spec ws k s w :
  waiters_wf ws → owned_slot ws k = Some s → reserved s = false →
  waiters_wf (refresh_waiter ws k s w) ∧
  (∀ i, shape (slots (refresh_waiter ws k s w)) i = shape (slots ws) i) ∧
  reserved_count (slots (refresh_waiter ws k s w)) = reserved_count (slots ws) ∧
  (∀ i, granted ws i → granted (refresh_waiter ws k s w) i).
Proof.
  intros Hwf (Hs & Hu & Hg)%owned_slot_Some Hr. destruct k as [i g]; simpl in *.
  assert (∃ q', refresh_waiter ws (mkKey i g) s w =
      mkWaiters q' (<[i:=mkSlot g (Some w) true true false]> (slots ws)) (free_slots ws) (next_generation ws) ∧
      (∀ k', k' ∈ queue ws → k' ∈ q') ∧ mkKey i g ∈ q') as (q' & -> & Hq & Hk).
  { pose proof (ww_queued _ Hwf _ _ Hs) as Hin. unfold refresh_waiter.
    destruct ws as [q sl fr ng], s as [g' wk u qd r]; simpl in *. subst.
    destruct wk as [w'|]; [destruct (decide (w' = w)) as [->|]|]; destruct qd; simpl; eexists.
    all: split; [done|]; set_solver. }
  split; [|split; [|split]]; simpl.
  - eapply waiters_wf_update; try done.
    intros j t _ Hj Hqt. apply Hq. by eapply ww_queued.
  - intros j. by eapply shape_insert.
  - rewrite (count_if_insert reserved _ _ s), Hr by done. simpl. lia.
  - intros j Hj. eapply granted_insert; [done|]. intros ->. destruct Hj as (t & Ht & ?). congruence.
Qed.

Lemma waiters_consume_reservation_spec ws k s :
  waiters_wf ws → owned_slot ws k = Some s →
  ∃ s' ws', waiters_consume_reservation ws k = (reserved s, ws') ∧ waiters_wf ws' ∧
  owned_slot ws' k = Some s' ∧ reserved s' = false ∧
  (∀ i, shape (slots ws') i = shape (slots ws) i) ∧
  reserved_count (slots ws') = reserved_count (slots ws) - Z.b2z (reserved s) ∧
  (∀ i, i ≠ index k → granted ws i → granted ws' i) ∧
  (has_queued ws' → has_queued ws).
Proof.
  intros Hwf Hown. unfold waiters_consume_reservation. rewrite Hown.
  apply owned_slot_Some in Hown as (Hs & Hu & Hg). pose proof (lookup_lt_Some _ _ _ Hs).
  destruct ws as [q sl fr ng]; simpl in *. exists (s <| reserved := false |>). eexists. split; [done|].
  destruct (ww_slots _ Hwf _ _ Hs) as [Hx _]. assert (slot_ok (s <| reserved := false |>)) as Hok.
  { destruct s; simpl in *. split; simpl; [done|done]. }
  split; [|split; [|split; [|split; [|split; [|split]]]]]; simpl.
  - eapply (waiters_wf_update (mkWaiters q sl fr ng)); try done.
    + intros j t _ Hj Hqt. by eapply (ww_queued _ Hwf).
    + intros Hqs. destruct s; simpl in *. by eapply (ww_queued _ Hwf _ _ Hs).
  - apply owned_slot_Some. simpl. rewrite list_lookup_insert_eq by done. by destruct s.
  - by destruct s.
  - intros j. by eapply shape_insert; destruct s.
  - rewrite (count_if_insert reserved _ _ s) by done. destruct s; simpl. lia.
  - intros j Hj Hgr. by eapply (granted_insert (mkWaiters q sl fr ng)).
  - intros (j & t & Hj & Hqt). simpl in Hj. destruct (decide (j = index k)) as [->|].
    + rewrite list_lookup_insert_eq in Hj by done. exists (index k), s. split; [done|].
      simplify_eq. by destruct s.
    + rewrite list_lookup_insert_ne in Hj by done. by exists j, t.
Qed.

Lemma unregister_spec ws k s :
  waiters_wf ws → owned_slot ws k = Some s →
  ∃ ws', unregister ws k = (reserved s, ws') ∧ waiters_wf ws' ∧
  (∀ i, shape (slots ws') i =
     if decide (i = index k) then Some (false, key_generation k) else shape (slots ws) i) ∧
  reserved_count (slots ws') = reserved_count (slots ws) - Z.b2z (reserved s) ∧
  (∀ i, i ≠ index k → granted ws i → granted ws' i) ∧
  (has_queued ws' → has_queued ws).
Proof.
  intros Hwf Hown. unfold unregister. rewrite Hown.
  apply owned_slot_Some in Hown as (Hs & Hu & Hg). pose proof (lookup_lt_Some _ _ _ Hs).
  destruct ws as [q sl fr ng]; simpl in *. eexists. split; [done|].
  set (s' := mkSlot _ _ _ _ _).
  assert (∀ j t, <[index k:=s']> sl !! j = Some t → (j = index k ∧ t = s') ∨ (j ≠ index k ∧ sl !! j = Some t)) as Hlk.
  { intros j t Hj. destruct (decide (j = index k)) as [->|Hji].
    - rewrite list_lookup_insert_eq in Hj by done. left. by simplify_eq.
    - rewrite list_lookup_insert_ne in Hj by done. auto. }
  split; [split; simpl|].
  - intros j t [[-> ->]|[_ Hj]]%Hlk; [done|by eapply (ww_slots _ Hwf)].
  - apply NoDup_cons. split; [|by apply (ww_free_nodup _ Hwf)].
    rewrite (ww_free _ Hwf). simpl. intros (? & ? & ?). congruence.
  - intros j. rewrite elem_of_cons, (ww_free _ Hwf). simpl. destruct (decide (j = index k)) as [->|Hji].
    + rewrite list_lookup_insert_eq by done. split; [by eauto|auto].
    + rewrite list_lookup_insert_ne by done. split; [by intros [?|?]|auto].
  - intros j t [[-> ->]|[_ Hj]]%Hlk Hq; [done|by eapply (ww_queued _ Hwf)].
  - split; [|split; [|split]]; simpl.
    + intros j. unfold shape. case_decide as Hj; [subst j; rewrite list_lookup_insert_eq by done; simpl; by rewrite Hg|].
      by rewrite list_lookup_insert_ne.
    + rewrite (count_if_insert reserved _ _ s) by done. simpl. lia.
    + intros j Hj Hgr. by eapply (granted_insert (mkWaiters q sl fr ng)).
    + intros (j & t & [[-> ->]|[_ Hj]]%Hlk & Hqt); [done|by exists j, t].
Qed.

(** ** The channel *)

Definition ws_of (c : ChannelState) : SenderWaiters := default waiters_new (sender_waiters c).
Arguments ws_of !c /.

Record chan_ok (c : ChannelState) : Prop := {
  co_waiters : waiters_wf (ws_of c);
  co_reserved : reserved_slots c = reserved_count (slots (ws_of c));
  co_capacity : zlen (buffer c) + reserved_slots c ≤ capacity c;
  co_receiver : has_receiver c = false → is_closed c = true;
  co_closed : is_closed c = true → ¬ has_queued (ws_of c);
}.

(** A sender that waits without a reservation is owed a wake-up: there is a value
    to receive, or a reservation whose holder will hand over. *)
Definition no_stranded_sender (c : ChannelState) : Prop :=
  0 < capacity c → is_closed c = false → has_queued (ws_of c) →
  buffer c ≠ [] ∨ 0 < reserved_slots c.

Record same_frame (c c' : ChannelState) : Prop := {
  sf_capacity : capacity c' = capacity c;
  sf_closed : is_closed c' = is_closed c;
  sf_senders : senders c' = senders c;
  sf_receiver : has_receiver c' = has_receiver c;
}.

Definition keeps_grants (ko : option SenderWaiterKey) (c c' : ChannelState) : Prop :=
  ∀ i, index <$> ko ≠ Some i → granted (ws_of c) i → granted (ws_of c') i.

Lemma keeps_grants_refl ko c : keeps_grants ko c c.
Proof. by intros i _. Qed.

Lemma keeps_grants_trans ko c1 c2 c3 :
  keeps_grants ko c1 c2 → keeps_grants ko c2 c3 → keeps_grants ko c1 c3.
Proof. intros H1 H2 i Hi Hg. by apply H2, H1. Qed.

Lemma keeps_grants_None ko c c' : keeps_grants None c c' → keeps_grants ko c c'.
Proof. intros Hk i _. by apply Hk. Qed.

Lemma same_frame_trans c1 c2 c3 : same_frame c1 c2 → same_frame c2 c3 → same_frame c1 c3.
Proof. intros [] []. split; congruence. Qed.

Lemma no_stranded_nonempty c : buffer c ≠ [] → no_stranded_sender c.
Proof. intros ? ? ? ?. by left. Qed.

Lemma grant_spec c :
  chan_ok c →
  let '(c', woken) := grant_one_sender_waiter c in
  chan_ok c' ∧ no_stranded_sender c' ∧ same_frame c c' ∧ buffer c' = buffer c ∧
  (∀ i, shape (slots (ws_of c')) i = shape (slots (ws_of c)) i) ∧ keeps_grants None c c'.
Proof.
  intros Hok. unfold grant_one_sender_waiter. destruct (is_closed c) eqn:Hcl; simpl.
  { split_and!; try done; [|apply keeps_grants_refl]. intros ? Hop. congruence. }
  destruct (Z.leb_spec (capacity c) (zlen (buffer c) + reserved_slots c)) as [Hfull|Hroom].
  { split_and!; try done; [|apply keeps_grants_refl]. intros Hc _ _.
    destruct (buffer c); [right|by left]. unfold zlen in *. simpl in *. lia. }
  destruct c as [b cap rs cl sn hr rw sw]; simpl in *.
  destruct sw as [ws|]; simpl; cycle 1.
  { split_and!; try done; [|apply keeps_grants_refl]. by intros _ _ (i & s & Hs & _). }
  pose proof (reserve_one_spec ws (co_waiters _ Hok)) as Hspec.
  destruct Hok as [Hw Hr Hc Hrv Hq]; simpl in *.
  destruct (reserve_one ws) as [[w|] ws'].
  - destruct Hspec as (Hw' & Hsh & Hrc & Hg). split_and!; try done.
    + split; simpl; try done; (congruence || lia).
    + intros _ _ _. right. simpl. pose proof (count_if_nonneg reserved (slots ws)). lia.
    + intros i _. by apply Hg.
  - destruct Hspec as (Hw' & Hsl & Hnq). unfold ws_of; simpl. split_and!; try done.
    + split; simpl; try done; [by rewrite Hsl|congruence].
    + intros _ _ (i & s & Hs & Hqd). simpl in Hs. rewrite Hsl in Hs. destruct Hnq. by exists i, s.
    + by rewrite Hsl.
    + intros i _ (s & Hs & Hr'). exists s. simpl in *. by rewrite Hsl.
Qed.

Lemma owned_slot_waiters c k s :
  owned_slot (ws_of c) k = Some s → sender_waiters c = Some (ws_of c).
Proof. unfold ws_of. by destruct (sender_waiters c). Qed.

Lemma unregister_sender_waiter_spec c k s :
  chan_ok c → no_stranded_sender c → owned_slot (ws_of c) k = Some s →
  let '(c', woken) := unregister_sender_waiter c k in
  chan_ok c' ∧ no_stranded_sender c' ∧ same_frame c c' ∧ buffer c' = buffer c ∧
  (∀ i, shape (slots (ws_of c')) i = SlotOwners.shape_without index key_generation (Some k) (shape (slots (ws_of c))) i) ∧
  keeps_grants (Some k) c c' ∧ (reserved s = false → woken = []).
Proof.
  intros Hok Hns Hown. unfold unregister_sender_waiter.
  rewrite (owned_slot_waiters _ _ _ Hown).
  destruct (unregister_spec _ _ _ (co_waiters _ Hok) Hown) as (ws' & -> & Hw' & Hsh & Hrc & Hg & Hq').
  set (c0 := c <| sender_waiters := Some ws' |> <| reserved_slots := reserved_slots c - Z.b2z (reserved s) |>).
  assert (chan_ok c0 ∧ same_frame c c0 ∧ buffer c0 = buffer c ∧ ws_of c0 = ws' ∧
    reserved_slots c0 = reserved_slots c - Z.b2z (reserved s)) as (Hok0 & Hf0 & Hb0 & Hws0 & Hrs0).
  { destruct c as [b cap rs cl sn hr rw sw], Hok as [Hw Hr Hc Hrv Hq]; simpl in *.
    split_and!; try done. split; simpl; try done; [lia| |].
    - destruct (reserved s); simpl; lia.
    - intros Hcl Hqd. destruct (Hq Hcl). auto. }
  assert (keeps_grants (Some k) c c0) as Hk0.
  { intros i Hi Hgi. rewrite Hws0. apply Hg; [|done]. simpl in Hi. congruence. }
  destruct (reserved s) eqn:Hres.
  - replace (_ <| reserved_slots := _ |>) with c0 by (by subst c0; destruct c).
    pose proof (grant_spec c0 Hok0) as Hgr. destruct (grant_one_sender_waiter c0) as [c' woken].
    destruct Hgr as (? & ? & ? & ? & Hsh' & ?). split_and!; try done.
    + by eapply same_frame_trans.
    + intros i. by rewrite Hsh', Hws0, Hsh.
    + eapply keeps_grants_trans; [done|]. by apply keeps_grants_None.
  - replace (c <| sender_waiters := Some ws' |>) with c0
      by (subst c0; destruct c; simpl; f_equal; lia).
    split_and!; try done.
    intros Hc Hcl Hqd. destruct Hf0 as [Ec Ecl _ _]. rewrite Hb0, Hrs0. simpl. rewrite Z.sub_0_r.
    apply Hns; [congruence|congruence|]. apply Hq'. by rewrite <-Hws0.
Qed.

Lemma consume_reservation_spec c k s :
  chan_ok c → owned_slot (ws_of c) k = Some s →
  ∃ s' c', consume_reservation c k = (reserved s, c') ∧ chan_ok c' ∧ same_frame c c' ∧
  buffer c' = buffer c ∧ owned_slot (ws_of c') k = Some s' ∧ reserved s' = false ∧
  reserved_slots c' = reserved_slots c - Z.b2z (reserved s) ∧
  (∀ i, shape (slots (ws_of c')) i = shape (slots (ws_of c)) i) ∧
  keeps_grants (Some k) c c' ∧ (reserved s = false → keeps_grants None c c') ∧
  (has_queued (ws_of c') → has_queued (ws_of c)).
Proof.
  intros Hok Hown. unfold consume_reservation. rewrite (owned_slot_waiters _ _ _ Hown).
  destruct (waiters_consume_reservation_spec _ _ _ (co_waiters _ Hok) Hown)
    as (s' & ws' & -> & Hw' & Hown' & Hr' & Hsh & Hrc & Hg & Hq').
  set (c0 := c <| sender_waiters := Some ws' |> <| reserved_slots := reserved_slots c - Z.b2z (reserved s) |>).
  exists s', c0. destruct c as [b cap rs cl sn hr rw sw], Hok as [Hw Hr Hc Hrv Hq]; simpl in *.
  split_and!; try done.
  - destruct (reserved s); simpl; [done|]. subst c0. simpl. by rewrite Z.sub_0_r.
  - split; simpl; try done; [lia| |].
    + destruct (reserved s); simpl; lia.
    + intros Hcl Hqd. destruct (Hq Hcl). auto.
  - intros i Hi Hgi. apply Hg; [|done]. simpl in Hi. congruence.
  - intros Hres i _ Hgi. destruct (decide (i = index k)) as [->|]; [|by apply Hg].
    destruct Hgi as (t & Ht & Hrt). simpl in Ht. apply owned_slot_Some in Hown as (Hs & _). congruence.
Qed.

Lemma shape_owned ws k s : owned_slot ws k = Some s → shape (slots ws) (index k) = Some (true, key_generation k).
Proof. intros (Hs & Hu & Hg)%owned_slot_Some. unfold shape. rewrite Hs. simpl. by rewrite Hu, Hg. Qed.

Lemma owned_shape ws k :
  shape (slots ws) (index k) = Some (true, key_generation k) → ∃ s, owned_slot ws k = Some s.
Proof.
  unfold shape. intros Hk. destruct (slots ws !! index k) as [s|] eqn:Hs; [|done].
  simpl in Hk. exists s. apply owned_slot_Some. split; [done|]. by simplify_eq.
Qed.

Lemma full_not_stranded c : capacity c ≤ zlen (buffer c) + reserved_slots c → no_stranded_sender c.
Proof. intros Hfull Hc _ _. destruct (buffer c); [right|by left]. unfold zlen in *. simpl in *. lia. Qed.

(** The keys a future may present: none, or one whose slot it still owns. *)
Definition key_owned (c : ChannelState) (ko : option SenderWaiterKey) : Prop :=
  ∀ k, ko = Some k → ∃ s, owned_slot (ws_of c) k = Some s.

Lemma register_or_refresh_sender_waiter_spec c ko w :
  chan_ok c → is_closed c = false → capacity c ≤ zlen (buffer c) + reserved_slots c →
  (∀ k, ko = Some k → ∃ s, owned_slot (ws_of c) k = Some s ∧ reserved s = false) →
  ∃ k c', register_or_refresh_sender_waiter c ko w = (Some k, c') ∧
  chan_ok c' ∧ no_stranded_sender c' ∧ same_frame c c' ∧ buffer c' = buffer c ∧
  (∀ i, shape (slots (ws_of c')) i = SlotOwners.shape_with index key_generation k (shape (slots (ws_of c))) i) ∧
  match ko with Some k0 => k = k0 | None => ∀ g, shape (slots (ws_of c)) (index k) ≠ Some (true, g) end ∧
  keeps_grants None c c'.
Proof.
  intros Hok Hop Hfull Hko. unfold register_or_refresh_sender_waiter, register_or_refresh.
  destruct Hok as [Hw Hr Hc Hrv Hq]. fold (ws_of c).
  assert (∀ ws', waiters_wf ws' → reserved_count (slots ws') = reserved_count (slots (ws_of c)) →
    (∀ i, granted (ws_of c) i → granted ws' i) →
    let c' := c <| sender_waiters := Some ws' |> in
    chan_ok c' ∧ no_stranded_sender c' ∧ same_frame c c' ∧ buffer c' = buffer c ∧
    ws_of c' = ws' ∧ keeps_grants None c c') as Hcommon.
  { intros ws' Hw' Hrc Hg. destruct c as [b cap rs cl sn hr rw sw]; simpl in *. split_and!; try done.
    - split; simpl; try done; [congruence|congruence].
    - by apply full_not_stranded.
    - intros i _ Hi. by apply Hg. }
  destruct ko as [k|].
  - destruct (Hko k eq_refl) as (s & Hown & Hres). rewrite Hown.
    destruct (refresh_waiter_spec _ _ _ w Hw Hown Hres) as (Hw' & Hsh & Hrc & Hg).
    destruct (Hcommon _ Hw' Hrc Hg) as (? & ? & ? & ? & Hws & ?).
    exists k. eexists. split; [done|]. split_and!; try done.
    intros i. rewrite Hws, Hsh. unfold SlotOwners.shape_with. case_decide; [subst i|done]. by eapply shape_owned.
  - pose proof (register_waiter_spec (ws_of c) w Hw) as Hspec.
    destruct (register_waiter (ws_of c) w) as [k ws']. destruct Hspec as (Hw' & Hfr & Hsh & Hrc & Hg & _).
    destruct (Hcommon _ Hw' Hrc Hg) as (? & ? & ? & ? & Hws & ?).
    exists k. eexists. by split_and!.
Qed.

(** Effects every operation on behalf of a future with key [ko] has in common. *)
Record future_effect (ko : option SenderWaiterKey) (c c' : ChannelState) : Prop := {
  fe_ok : chan_ok c';
  fe_stranded : no_stranded_sender c';
  fe_frame : same_frame c c';
  fe_shape : ∀ i, shape (slots (ws_of c')) i = SlotOwners.shape_without index key_generation ko (shape (slots (ws_of c))) i;
  fe_grants : keeps_grants ko c c';
}.

Lemma unregister_key_spec c ko :
  chan_ok c → no_stranded_sender c → key_owned c ko →
  let '(c', woken) :=
    match ko with Some k => unregister_sender_waiter c k | None => (c, []) end in
  future_effect ko c c' ∧ buffer c' = buffer c.
Proof.
  intros Hok Hns Hown. destruct ko as [k|].
  - destruct (Hown k eq_refl) as [s Hs].
    pose proof (unregister_sender_waiter_spec c k s Hok Hns Hs) as Hspec.
    destruct (unregister_sender_waiter c k) as [c' woken].
    destruct Hspec as (? & ? & ? & ? & ? & ? & _). done.
  - split; [|done]. split; try done. apply keeps_grants_refl.
Qed.

(** Adding a value while holding a place for it. *)
Lemma push_ok c v :
  chan_ok c → zlen (buffer c) + reserved_slots c < capacity c →
  chan_ok (c <| buffer := buffer c ++ [v] |>).
Proof.
  intros [Hw Hr Hc Hrv Hq] Hroom. destruct c; simpl in *. split; simpl; try done.
  rewrite zlen_app. unfold zlen in *. simpl in *. lia.
Qed.

Lemma clear_waker_ok c : chan_ok c → chan_ok (c <| receiver_waker := None |>).
Proof. intros [Hw Hr Hc Hrv Hq]. by destruct c. Qed.

(** A successful send on behalf of key [ko], from the push to the last wake-up. *)
Definition complete_send (c : ChannelState) (v : T) (ko : option SenderWaiterKey) :
    ChannelState * list W :=
  let c := c <| buffer := buffer c ++ [v] |> in
  let '(c, w1) :=
    match ko with Some k => unregister_sender_waiter c k | None => (c, []) end in
  let '(c, w2) :=
    if reserved_slots c =? 0 then grant_one_sender_waiter c else (c, []) in
  let '(c, w3) := wake_receiver c in
  (c, w1 ++ w2 ++ w3).

Lemma complete_send_spec c v ko :
  chan_ok c → zlen (buffer c) + reserved_slots c < capacity c → key_owned c ko →
  let '(c', woken) := complete_send c v ko in
  future_effect ko c c' ∧ buffer c' = buffer c ++ [v] ∧ receiver_waker c' = None.
Proof.
  intros Hok Hroom Hown. unfold complete_send, wake_receiver.
  set (c0 := c <| buffer := buffer c ++ [v] |>).
  assert (ws_of c0 = ws_of c ∧ same_frame c c0 ∧ buffer c0 = buffer c ++ [v]) as (Hws & Hf & Hb) by (by destruct c).
  pose proof (push_ok c v Hok Hroom) as Hok0. fold c0 in Hok0.
  assert (no_stranded_sender c0) as Hns0.
  { apply no_stranded_nonempty. rewrite Hb. by destruct (buffer c). }
  assert (key_owned c0 ko) as Hown0 by (intros k Hk; rewrite Hws; auto).
  pose proof (unregister_key_spec c0 ko Hok0 Hns0 Hown0) as H1.
  destruct (match ko with Some k => _ | None => _ end) as [c1 w1]. destruct H1 as [[Ok1 _ Hf1 Hsh1 Hg1] Hb1].
  assert (∃ c2 w2, (if reserved_slots c1 =? 0 then grant_one_sender_waiter c1 else (c1, [])) = (c2, w2) ∧
    chan_ok c2 ∧ same_frame c1 c2 ∧ buffer c2 = buffer c1 ∧
    (∀ i, shape (slots (ws_of c2)) i = shape (slots (ws_of c1)) i) ∧ keeps_grants None c1 c2)
    as (c2 & w2 & -> & Ok2 & Hf2 & Hb2 & Hsh2 & Hg2).
  { pose proof (grant_spec c1 Ok1) as Hgr. destruct (reserved_slots c1 =? 0).
    - destruct (grant_one_sender_waiter c1) as [c2 w2]. destruct Hgr as (? & _ & ? & ? & ? & ?). by exists c2, w2.
    - exists c1, []. split_and!; try done. apply keeps_grants_refl. }
  assert (ws_of (c2 <| receiver_waker := None |>) = ws_of c2 ∧ same_frame c2 (c2 <| receiver_waker := None |>) ∧
    buffer (c2 <| receiver_waker := None |>) = buffer c2 ∧ receiver_waker (c2 <| receiver_waker := None |>) = None)
    as (Hws3 & Hf3 & Hb3 & Hw3) by (by destruct c2).
  split; [split|split; [congruence|done]].
  - by apply clear_waker_ok.
  - apply no_stranded_nonempty. rewrite Hb3, Hb2, Hb1, Hb. by destruct (buffer c).
  - eapply same_frame_trans; [|done]. eapply same_frame_trans; [|done]. by eapply same_frame_trans.
  - intros i. rewrite Hws3, Hsh2, Hsh1. unfold SlotOwners.shape_without. by rewrite Hws.
  - intros i Hi Hgi. rewrite Hws3. apply Hg2; [done|]. apply Hg1; [done|]. by rewrite Hws.
Qed.

Lemma poll_send_spec c v ko w :
  chan_ok c → no_stranded_sender c → key_owned c ko →
  match poll_send c v ko w with
  | (Ready _ (Ok _), ko', c', _) => ko' = None ∧ is_closed c = false ∧
      future_effect ko c c' ∧ buffer c' = buffer c ++ [v]
  | (Ready _ (Err e), ko', c', _) => ko' = None ∧ is_closed c = true ∧ e = SendClosed v ∧
      future_effect ko c c' ∧ buffer c' = buffer c
  | (Pending _, ko', c', _) => is_closed c = false ∧ ∃ k, ko' = Some k ∧
      chan_ok c' ∧ no_stranded_sender c' ∧ same_frame c c' ∧ buffer c' = buffer c ∧
      (∀ i, shape (slots (ws_of c')) i = SlotOwners.shape_with index key_generation k (shape (slots (ws_of c))) i) ∧
      match ko with Some k0 => k = k0 | None => ∀ g, shape (slots (ws_of c)) (index k) ≠ Some (true, g) end ∧
      keeps_grants None c c' ∧ (∀ k0, ko = Some k0 → ¬ granted (ws_of c) (index k0))
  end.
Proof.
  intros Hok Hns Hown. unfold poll_send.
  destruct (is_closed c || negb (has_receiver c)) eqn:Hcl.
  { assert (is_closed c = true) as Hcl'.
    { apply orb_true_iff in Hcl as [?|Hr%negb_true_iff]; [done|by apply (co_receiver _ Hok)]. }
    pose proof (unregister_key_spec c ko Hok Hns Hown) as Hspec.
    destruct (match ko with Some k => _ | None => _ end) as [c1 w1]. by destruct Hspec. }
  apply orb_false_iff in Hcl as [Hop _].
  assert (∃ r c1, match ko with Some k => consume_reservation c k | None => (false, c) end = (r, c1) ∧
    chan_ok c1 ∧ same_frame c c1 ∧ buffer c1 = buffer c ∧
    reserved_slots c1 = reserved_slots c - Z.b2z r ∧
    (∀ k, ko = Some k → ∃ s, owned_slot (ws_of c1) k = Some s ∧ reserved s = false) ∧
    (∀ i, shape (slots (ws_of c1)) i = shape (slots (ws_of c)) i) ∧
    keeps_grants ko c c1 ∧
    (r = false → keeps_grants None c c1 ∧ ∀ k0, ko = Some k0 → ¬ granted (ws_of c) (index k0)))
    as (r & c1 & -> & Ok1 & Hf1 & Hb1 & Hr1 & Hown1 & Hsh1 & Hg1 & Hfalse).
  { destruct ko as [k|].
    - destruct (Hown k eq_refl) as [s Hs].
      destruct (consume_reservation_spec c k s Hok Hs) as (s' & c1 & ? & ? & ? & ? & ? & ? & ? & ? & ? & Hk & _).
      exists (reserved s), c1. split_and!; try done.
      + intros k0 [= <-]. eauto.
      + intros Hres. split; [by apply Hk|]. intros k0 [= <-] (t & Ht & Hrt).
        apply owned_slot_Some in Hs as (Hs & _). congruence.
    - exists false, c. split_and!; try done; [simpl; lia|apply keeps_grants_refl|].
      intros _. split; [apply keeps_grants_refl|done]. }
  destruct (negb r && (capacity c1 <=? zlen (buffer c1) + reserved_slots c1)) eqn:Hfull.
  - apply andb_true_iff in Hfull as [->%negb_true_iff Hfull%Z.leb_le].
    destruct (Hfalse eq_refl) as [Hg1' Hng].
    destruct (register_or_refresh_sender_waiter_spec c1 ko w Ok1) as
      (k & c2 & -> & ? & ? & ? & ? & Hsh2 & Hfr & Hg2); [by rewrite (sf_closed _ _ Hf1)|done..|].
    split; [done|]. exists k. split_and!; try done.
    + by eapply same_frame_trans.
    + congruence.
    + intros i. rewrite Hsh2. unfold SlotOwners.shape_with. by rewrite Hsh1.
    + destruct ko; [done|]. intros g. rewrite <-Hsh1. apply Hfr.
    + by eapply keeps_grants_trans.
  - assert (zlen (buffer c1) + reserved_slots c1 < capacity c1) as Hroom.
    { destruct r; simpl in *.
      - pose proof (co_capacity _ Hok). rewrite Hb1, Hr1, (sf_capacity _ _ Hf1). lia.
      - apply Z.leb_gt in Hfull. done. }
    pose proof (complete_send_spec c1 v ko Ok1 Hroom) as Hspec. unfold complete_send in Hspec.
    destruct (match ko with Some k => _ | None => _ end) as [c2 w1].
    destruct (if reserved_slots c2 =? 0 then _ else _) as [c3 w2].
    destruct (wake_receiver c3) as [c4 w3].
    destruct Hspec as ([Ok4 Ns4 Hf4 Hsh4 Hg4] & Hb4 & _).
    { intros k Hk. destruct (Hown1 k Hk) as (s & ? & _). eauto. }
    split_and!; try done; [split; try done|congruence].
    + by eapply same_frame_trans.
    + intros i. rewrite Hsh4. unfold SlotOwners.shape_without. by rewrite Hsh1.
    + by eapply keeps_grants_trans.
Qed.

(** Effects of an operation that gives up no key. *)
Lemma try_recv_spec c :
  chan_ok c → no_stranded_sender c →
  let '(r, c', woken) := try_recv c in
  future_effect None c c' ∧
  match r with
  | Ok v => buffer c = v :: buffer c'
  | Err RecvClosed => buffer c = [] ∧ is_closed c = true ∧ c' = c
  | Err Empty => buffer c = [] ∧ is_closed c = false ∧ c' = c
  end.
Proof.
  intros Hok Hns. unfold try_recv. destruct (buffer c) as [|v rest] eqn:Hb.
  { destruct (is_closed c) eqn:Hcl; (split; [split; try done; apply keeps_grants_refl|by split_and!]). }
  set (c0 := c <| buffer := rest |>).
  assert (ws_of c0 = ws_of c ∧ same_frame c c0 ∧ buffer c0 = rest) as (Hws & Hf & Hb0) by (by destruct c).
  assert (chan_ok c0) as Ok0.
  { destruct Hok as [Hw Hr Hc Hrv Hq]. subst c0. destruct c; simpl in *. split; simpl; try done.
    subst. rewrite zlen_cons in Hc. lia. }
  assert (keeps_grants None c c0) as Hg0 by (intros i _; by rewrite Hws).
  destruct ((zlen rest =? capacity c0 - 1) || bool_decide (rest = [])) eqn:Hg.
  - pose proof (grant_spec c0 Ok0) as Hgr. destruct (grant_one_sender_waiter c0) as [c' woken].
    destruct Hgr as (? & ? & ? & Hb' & Hsh & ?). split; [split; try done|congruence].
    by eapply same_frame_trans.
  - apply orb_false_iff in Hg as [_ Hne%bool_decide_eq_false]. split; [split; try done|congruence].
    apply no_stranded_nonempty. congruence.
Qed.

Lemma wake_all_sender_waiters_spec c :
  waiters_wf (ws_of c) →
  let '(c', woken) := wake_all_sender_waiters c in
  waiters_wf (ws_of c') ∧ same_frame c c' ∧ buffer c' = buffer c ∧ reserved_slots c' = reserved_slots c ∧
  reserved_count (slots (ws_of c')) = reserved_count (slots (ws_of c)) ∧
  (∀ i, shape (slots (ws_of c')) i = shape (slots (ws_of c)) i) ∧ keeps_grants None c c' ∧
  ¬ has_queued (ws_of c') ∧
  (∀ i s w, slots (ws_of c) !! i = Some s → queued s = true → waker s = Some w → w ∈ woken).
Proof.
  intros Hw. unfold wake_all_sender_waiters. destruct c as [b cap rs cl sn hr rw [ws|]]; simpl in *.
  - pose proof (wake_all_spec ws Hw) as Hspec. destruct (wake_all ws) as [woken ws'].
    destruct Hspec as (? & ? & ? & Hg & ? & ?). split_and!; try done. intros i _. apply Hg.
  - split_and!; try done; [apply keeps_grants_refl|]. by intros (i & s & ? & _).
Qed.

Lemma close_spec c (woken : list W) c' :
  chan_ok c → (close c = (c', woken) ∨ drop_receiver c = (c', woken)) →
  chan_ok c' ∧ is_closed c' = true ∧ capacity c' = capacity c ∧ senders c' = senders c ∧
  buffer c' = buffer c ∧
  (∀ i, shape (slots (ws_of c')) i = shape (slots (ws_of c)) i) ∧ keeps_grants None c c' ∧
  (∀ i s w, slots (ws_of c) !! i = Some s → queued s = true → waker s = Some w → w ∈ woken).
Proof.
  intros [Hw Hr Hc Hrv Hq] Hcl.
  assert (∃ c0 w0, (let '(c1, w1) := wake_all_sender_waiters c0 in (c1, w0 ++ w1)) = (c', woken) ∧
    ws_of c0 = ws_of c ∧ is_closed c0 = true ∧ capacity c0 = capacity c ∧ senders c0 = senders c ∧
    buffer c0 = buffer c ∧ reserved_slots c0 = reserved_slots c) as
    (c0 & w0 & E & Hws & Hcl0 & Hcap & Hsn & Hb & Hrs).
  { destruct Hcl as [E|E]; unfold close, drop_receiver, wake_receiver in E.
    - eexists _, _. split; [exact E|]. by destruct c.
    - exists (c <| has_receiver := false |> <| is_closed := true |>), [].
      destruct (wake_all_sender_waiters _). simplify_eq. split; [done|]. by destruct c. }
  pose proof (wake_all_sender_waiters_spec c0) as Hspec. rewrite Hws in Hspec. specialize (Hspec Hw).
  destruct (wake_all_sender_waiters c0) as [c1 w1]. simplify_eq E; intros <- <-.
  destruct Hspec as (Hw1 & [E1 E2 E3 E4] & Hb1 & Hr1 & Hrc & Hsh & Hg & Hnq & Hwk).
  split_and!; try congruence; try done.
  - split; try done; [congruence| |].
    + rewrite Hb1, Hr1, E1, Hb, Hrs, Hcap. done.
    + congruence.
  - intros i Hi Hgi. apply Hg; [done|]. by rewrite Hws.
  - intros i s w Hs Hqd Hwkr. apply elem_of_app. right. by eapply Hwk.
Qed.

Lemma drop_sender_spec c :
  chan_ok c → no_stranded_sender c → (senders c = 1 → ¬ has_queued (ws_of c)) →
  let '(c', woken) := drop_sender c in
  chan_ok c' ∧ no_stranded_sender c' ∧ ws_of c' = ws_of c ∧ buffer c' = buffer c ∧
  capacity c' = capacity c ∧ senders c' = senders c - 1 ∧ has_receiver c' = has_receiver c ∧
  is_closed c' = is_closed c || (senders c =? 1).
Proof.
  intros [Hw Hr Hc Hrv Hq] Hns Hlast. unfold drop_sender, wake_receiver.
  destruct c as [b cap rs cl sn hr rw sw]; simpl in *.
  destruct (Z.eqb_spec (sn - 1) 0), (Z.eqb_spec sn 1); try lia; split_and!; try done.
  - split; simpl; try done. intros _. apply Hlast. lia.
  - simpl. by rewrite orb_true_r.
  - simpl. by rewrite orb_false_r.
Qed.

(** ** Futures and the slots they own *)

Abbreviation owned_by c ft := (SlotOwners.owns waiter_key index key_generation (shape (slots (ws_of c))) ft).

Lemma owned_by_empty c ft : owned_by c ft → chan_ok c → size ft = 0%nat → ¬ has_queued (ws_of c).
Proof.
  intros Hown Hok Hsz (i & s & Hs & Hq).
  destruct (ww_slots _ (co_waiters _ Hok) _ _ Hs) as [Hx _]. destruct (Hx Hq) as [Hu _].
  apply (SlotOwners.owns_empty _ _ _ _ _ Hown Hsz i (generation s)).
  unfold shape. rewrite Hs. simpl. by rewrite Hu.
Qed.

(** ** The system invariant *)

Record sys_wf (y : System) : Prop := {
  sw_chan : chan_ok (chan y);
  sw_stranded : no_stranded_sender (chan y);
  sw_owns : owned_by (chan y) (futures y);
  sw_senders : senders (chan y) = Z.of_nat (handles y) + Z.of_nat (size (futures y));
  sw_fifo : accepted y = delivered y ++ buffer (chan y);
}.

(** The future [f] has been granted a place in the buffer. *)
Definition holds_grant (y : System) (f : nat) : Prop :=
  ∃ fu k, futures y !! f = Some fu ∧ waiter_key fu = Some k ∧ granted (ws_of (chan y)) (index k).

(** The future an operation polls or drops. *)
Definition op_future (op : Op) : option nat :=
  match op with
  | OpSendAsync f _ | OpPollSend f _ | OpDropFuture f => Some f
  | _ => None
  end.

(** What every step guarantees: the invariant, and that futures other than [fo]
    stay as they are and keep their grants. *)
Record step_ok (fo : option nat) (y y' : System) : Prop := {
  so_wf : sys_wf y';
  so_capacity : capacity (chan y') = capacity (chan y);
  so_closed : is_closed (chan y) = true → is_closed (chan y') = true;
  so_others : ∀ f, fo ≠ Some f → futures y' !! f = futures y !! f;
  so_grants : ∀ f, fo ≠ Some f → holds_grant y f → holds_grant y' f;
}.

Lemma step_ok_refl fo y : sys_wf y → step_ok fo y y.
Proof. intros Hwf. by split. Qed.

Lemma holds_grant_keep fo y y' ko f :
  keeps_grants ko (chan y) (chan y') → fo ≠ Some f →
  futures y' !! f = futures y !! f → owned_by (chan y) (futures y) →
  (∀ k, ko = Some k → ∃ f0 fu0, fo = Some f0 ∧ futures y !! f0 = Some fu0 ∧ waiter_key fu0 = Some k) →
  holds_grant y f → holds_grant y' f.
Proof.
  intros Hkg Hne Hfe Hown Hko (fu & k & Hf & Hk & Hg). exists fu, k. split_and!; [congruence|done|].
  apply Hkg; [|done]. destruct ko as [k0|]; [|done]. simpl. intros [= Hi].
  destruct (Hko k0 eq_refl) as (f0 & fu0 & -> & Hf0 & Hk0). destruct Hne. f_equal.
  by eapply (SlotOwners.ow_inj _ _ _ _ _ Hown).
Qed.

(** Operations that leave the futures and handles alone. *)
Lemma step_ok_chan fo y c' acc del :
  sys_wf y → chan_ok c' → no_stranded_sender c' → senders c' = senders (chan y) →
  capacity c' = capacity (chan y) → (is_closed (chan y) = true → is_closed c' = true) →
  (∀ i, shape (slots (ws_of c')) i = shape (slots (ws_of (chan y))) i) → keeps_grants None (chan y) c' →
  acc = del ++ buffer c' →
  step_ok fo y (mkSystem c' (futures y) (handles y) acc del).
Proof.
  intros Hwf Hok Hns Hsn Hcap Hcl Hsh Hkg Hfifo. destruct Hwf as [H1 H2 H3 H4 H5]. split; try done.
  - split; simpl; try done; [|congruence]. by eapply SlotOwners.owns_ext.
  - intros f Hf. by eapply holds_grant_keep.
Qed.

(** A future that completes or is dropped gives its key and its sender back. *)
Lemma step_ok_finish y f fu c1 c2 woken acc :
  sys_wf y → futures y !! f = Some fu → future_effect (waiter_key fu) (chan y) c1 →
  drop_sender c1 = (c2, woken) → acc = delivered y ++ buffer c1 →
  step_ok (Some f) y (mkSystem c2 (delete f (futures y)) (handles y) acc (delivered y)).
Proof.
  intros [H1 H2 H3 H4 H5] Hf [Ok1 Ns1 Hf1 Hsh1 Hg1] Hdrop Hacc.
  pose proof (SlotOwners.owns_delete _ _ _ _ _ _ _ _ H3 Hf Hsh1) as Hown.
  assert (size (delete f (futures y)) + 1 = size (futures y))%nat as Hsz.
  { pose proof (map_size_delete f (futures y)) as Hd. rewrite Hf in Hd. unfold id in Hd.
    assert (size (futures y) ≠ 0%nat); [|lia].
    intros E. apply map_size_empty_inv in E. rewrite E in Hf. done. }
  pose proof (drop_sender_spec c1 Ok1 Ns1) as Hspec. rewrite Hdrop in Hspec.
  destruct Hspec as (Ok2 & Ns2 & Hws & Hb & Hcap & Hsn & _ & Hcl).
  { intros Hone. pose proof (sf_senders _ _ Hf1). eapply owned_by_empty; [exact Hown|done|lia]. }
  pose proof (sf_senders _ _ Hf1). pose proof (sf_capacity _ _ Hf1). split; simpl.
  - split; simpl; try done; [by rewrite Hws|lia|congruence].
  - congruence.
  - intros Hc. by rewrite Hcl, (sf_closed _ _ Hf1), Hc.
  - intros f0 Hne. apply lookup_delete_ne. congruence.
  - intros f0 Hne. eapply holds_grant_keep; simpl; try done.
    + intros i Hi Hgi. simpl. rewrite Hws. by apply Hg1.
    + apply lookup_delete_ne. congruence.
    + intros k Hk. by exists f, fu.
Qed.

Lemma future_key_owned y f fu :
  sys_wf y → futures y !! f = Some fu → key_owned (chan y) (waiter_key fu).
Proof. intros Hwf Hf k Hk. apply owned_shape. by eapply (SlotOwners.ow_key _ _ _ _ _ (sw_owns _ Hwf)). Qed.

Lemma poll_send_op_ok y f w fu :
  sys_wf y → futures y !! f = Some fu → step_ok (Some f) y (poll_send_op y f w fu).1.
Proof.
  intros Hwf Hf. unfold poll_send_op.
  pose proof (poll_send_spec (chan y) (value fu) (waiter_key fu) w (sw_chan _ Hwf) (sw_stranded _ Hwf)
    (future_key_owned _ _ _ Hwf Hf)) as Hspec.
  destruct (poll_send _ _ _ _) as [[[[r|] ko] c] woken].
  - assert (ko = None ∧ future_effect (waiter_key fu) (chan y) c ∧
      buffer c = buffer (chan y) ++ (if is_ok r then [value fu] else [])) as (-> & He & Hb).
    { destruct r; destruct Hspec as (-> & _ & Hx); [by destruct Hx|].
      destruct Hx as (_ & ? & ?). by rewrite app_nil_r. }
    unfold drop_send_future. simpl. destruct (drop_sender c) as [c2 w2] eqn:Hd.
    pose proof (sw_fifo _ Hwf) as Hfifo. destruct y as [ch ft hd acc del]; simpl in *.
    destruct r; simpl in *; eapply (step_ok_finish (mkSystem ch ft hd acc del)); try done; simpl;
      rewrite Hb, Hfifo, ?app_nil_r; by rewrite ?app_assoc.
  - destruct Hspec as (Hop & k & -> & Ok & Ns & Hfr & Hb & Hsh & Hk & Hg & _).
    destruct Hwf as [H1 H2 H3 H4 H5], Hfr as [E1 E2 E3 E4], y as [ch ft hd acc del]; simpl in *.
    split; simpl.
    + split; simpl; try done; [| |congruence].
      * by eapply SlotOwners.owns_refresh.
      * rewrite E3, H4, map_size_insert, Hf. simpl. unfold id. lia.
    + done.
    + congruence.
    + intros f0 Hne. apply lookup_insert_ne. congruence.
    + intros f0 Hne. eapply holds_grant_keep; simpl; try done. apply lookup_insert_ne. congruence.
Qed.

Lemma send_spec c v :
  chan_ok c →
  match send c v with
  | (Ok _, c', woken) => future_effect None c c' ∧ buffer c' = buffer c ++ [v] ∧
      is_closed c = false ∧ zlen (buffer c) + reserved_slots c < capacity c
  | (Err (Full v'), c', woken) => c' = c ∧ v' = v ∧ is_closed c = false ∧
      zlen (buffer c) + reserved_slots c = capacity c
  | (Err (SendClosed v'), c', woken) => c' = c ∧ v' = v ∧ is_closed c = true
  end.
Proof.
  intros Hok. unfold send. destruct (is_closed c || negb (has_receiver c)) eqn:Hcl.
  { split_and!; try done. apply orb_true_iff in Hcl as [?|Hr%negb_true_iff]; [done|by apply (co_receiver _ Hok)]. }
  apply orb_false_iff in Hcl as [Hop _].
  destruct (Z.leb_spec (capacity c) (zlen (buffer c) + reserved_slots c)) as [Hfull|Hroom].
  { pose proof (co_capacity _ Hok). split_and!; try done. lia. }
  unfold wake_receiver. pose proof (push_ok c v Hok Hroom) as Hp. pose proof (clear_waker_ok _ Hp).
  destruct c as [b cap rs cl sn hr rw sw]; simpl in *. split_and!; try done.
  split; try done; [|by intros i _]. apply no_stranded_nonempty. simpl. by destruct b.
Qed.

Lemma step_ok_recv y r c fo :
  sys_wf y → future_effect None (chan y) c →
  match r with Ok v => buffer (chan y) = v :: buffer c | Err _ => c = chan y end →
  step_ok fo y (log_recv y r c).
Proof.
  intros Hwf [Ok Ns [E1 E2 E3 E4] Hsh Hg] Hr. pose proof (sw_fifo _ Hwf) as Hfifo.
  unfold log_recv. destruct y as [ch ft hd acc del]; simpl in *.
  destruct r as [v|e]; (eapply (step_ok_chan fo (mkSystem ch ft hd acc del)); try done); simpl.
  - congruence.
  - by rewrite Hfifo, Hr, <-app_assoc.
  - congruence.
  - congruence.
Qed.

Lemma poll_recv_ok y w fo :
  sys_wf y →
  step_ok fo y match poll_recv (chan y) w with
    | (Ready _ r, c, woken) => log_recv y r c
    | (Pending _, c, woken) => y <| chan := c |>
    end.
Proof.
  intros Hwf. unfold poll_recv.
  pose proof (try_recv_spec (chan y) (sw_chan _ Hwf) (sw_stranded _ Hwf)) as Hspec.
  destruct (try_recv (chan y)) as [[r c] woken]. destruct Hspec as [He Hr].
  destruct r as [v|[|]].
  - by apply step_ok_recv.
  - destruct Hr as (_ & _ & ->). by apply step_ok_recv.
  - destruct Hr as (_ & _ & ->). set (c' := match receiver_waker _ with Some w' => _ | None => _ end).
    assert (∃ rw, c' = (chan y) <| receiver_waker := rw |>) as [rw Hc'].
    { subst c'. destruct (chan y) as [b cap rs cl sn hr [w'|] sw]; simpl; [case_decide|]; by eexists. }
    rewrite Hc'. clear c' Hc'.
    pose proof (sw_chan _ Hwf) as [C1 C2 C3 C4 C5]. pose proof (sw_stranded _ Hwf) as Hns.
    pose proof (sw_fifo _ Hwf).
    destruct y as [ch ft hd acc del]; simpl in *.
    apply (step_ok_chan fo (mkSystem ch ft hd acc del)); destruct ch; simpl in *; try done.
    by intros i _.
Qed.

Lemma drop_sender_step_ok y c' woken :
  sys_wf y → handles y ≠ 0%nat → drop_sender (chan y) = (c', woken) →
  step_ok None y (y <| chan := c' |> <| handles ::= pred |>).
Proof.
  intros Hwf Hh Hd. pose proof (drop_sender_spec _ (sw_chan _ Hwf) (sw_stranded _ Hwf)) as Hspec.
  rewrite Hd in Hspec. pose proof (sw_senders _ Hwf) as Hsn.
  destruct Hspec as (Ok & Ns & Hws & Hb & Hcap & Hsn' & _ & Hcl).
  { intros Hone. eapply owned_by_empty; [by apply sw_owns|by apply sw_chan|lia]. }
  pose proof (sw_owns _ Hwf). pose proof (sw_fifo _ Hwf).
  destruct y as [ch ft hd acc del]; simpl in *. split; simpl; try done.
  - split; simpl; try done; [by rewrite Hws|lia|congruence].
  - intros Hc. by rewrite Hcl, Hc.
  - intros f Hf. eapply (holds_grant_keep None _ _ None); simpl; try done. intros i _. simpl. by rewrite Hws.
Qed.

Lemma clone_step_ok y : sys_wf y → step_ok None y (y <| chan ::= clone_sender |> <| handles ::= S |>).
Proof.
  intros [[C1 C2 C3 C4 C5] Hns Hown Hsn Hf]. destruct y as [ch ft hd acc del]; simpl in *.
  split; simpl; try done. split; simpl; destruct ch; simpl in *; try done. lia.
Qed.

Lemma close_step_ok y c' woken :
  sys_wf y → (close (chan y) = (c', woken) ∨ drop_receiver (chan y) = (c', woken)) →
  step_ok None y (y <| chan := c' |>).
Proof.
  intros Hwf Hcl. destruct (close_spec _ _ _ (sw_chan _ Hwf) Hcl) as (Ok & Hc & Hcap & Hsn & Hb & Hsh & Hg & _).
  pose proof (sw_fifo _ Hwf). destruct y as [ch ft hd acc del]; simpl in *.
  apply (step_ok_chan None (mkSystem ch ft hd acc del)); simpl; try done; [|congruence].
  intros _ Hop. congruence.
Qed.

Lemma send_step_ok fo y v c woken :
  sys_wf y → send (chan y) v = (Ok tt, c, woken) →
  step_ok fo y (y <| chan := c |> <| accepted ::= (λ l, l ++ [v]) |>).
Proof.
  intros Hwf Hs. pose proof (send_spec _ v (sw_chan _ Hwf)) as Hspec. rewrite Hs in Hspec.
  destruct Hspec as ([Ok Ns [E1 E2 E3 E4] Hsh Hg] & Hb & _). pose proof (sw_fifo _ Hwf) as Hf.
  destruct y as [ch ft hd acc del]; simpl in *.
  apply (step_ok_chan fo (mkSystem ch ft hd acc del)); simpl; try done; [congruence|].
  by rewrite Hf, Hb, app_assoc.
Qed.

Lemma send_async_future_ok f y v :
  sys_wf y → futures y !! f = None →
  step_ok (Some f) y (y <| chan ::= clone_sender |> <| futures := <[f := mkFuture v None]> (futures y) |>).
Proof.
  intros [[C1 C2 C3 C4 C5] Hns Hown Hsn Hfi] Hf. destruct y as [ch ft hd acc del]; simpl in *.
  split; simpl; [|by destruct ch|by destruct ch| |].
  - split; simpl; destruct ch; simpl in *; try done; [by apply SlotOwners.owns_insert_new|].
    rewrite map_size_insert, Hf. lia.
  - intros f0 Hne. apply lookup_insert_ne. congruence.
  - intros f0 Hne. eapply (holds_grant_keep (Some f) _ _ None); simpl; try done.
    + intros i _. by destruct ch.
    + apply lookup_insert_ne. congruence.
Qed.

Lemma channel_step_spec y op : sys_wf y → step_ok (op_future op) y (step y op).1.
Proof.
  intros Hwf. destruct op as [v|f v|f w|f| |w| | | |]; simpl.
  - destruct (Nat.eqb_spec (handles y) 0); [by apply step_ok_refl|].
    pose proof (send_spec _ v (sw_chan _ Hwf)) as Hspec.
    destruct (send (chan y) v) as [[[[]|e] c] woken] eqn:Hs; [by eapply send_step_ok|].
    destruct e; destruct Hspec as (-> & _); simpl; destruct y; by apply step_ok_refl.
  - destruct (Nat.eqb_spec (handles y) 0); [by apply step_ok_refl|]. simpl.
    case_bool_decide as Hf; [by apply step_ok_refl|]. apply eq_None_not_Some in Hf.
    unfold send_async. pose proof (send_spec _ v (sw_chan _ Hwf)) as Hspec.
    destruct (send (chan y) v) as [[[[]|e] c] woken] eqn:Hs; [by eapply send_step_ok|].
    destruct e; destruct Hspec as (-> & -> & _); simpl.
    + pose proof (send_async_future_ok f y v Hwf Hf) as Ho. by destruct y.
    + destruct y. by apply step_ok_refl.
  - destruct (futures y !! f) as [fu|] eqn:Hf; [|by apply step_ok_refl]. by apply poll_send_op_ok.
  - destruct (futures y !! f) as [fu|] eqn:Hf; [|by apply step_ok_refl].
    unfold drop_send_future.
    pose proof (unregister_key_spec _ _ (sw_chan _ Hwf) (sw_stranded _ Hwf) (future_key_owned _ _ _ Hwf Hf)) as Hspec.
    destruct (match waiter_key fu with Some k => _ | None => _ end) as [c1 w1]. destruct Hspec as [He Hb].
    destruct (drop_sender c1) as [c2 w2] eqn:Hd. pose proof (sw_fifo _ Hwf) as Hfi.
    destruct y as [ch ft hd acc del]; simpl in *.
    eapply (step_ok_finish (mkSystem ch ft hd acc del)); try done. simpl. congruence.
  - destruct (has_receiver (chan y)); [|by apply step_ok_refl].
    pose proof (try_recv_spec _ (sw_chan _ Hwf) (sw_stranded _ Hwf)) as Hspec.
    destruct (try_recv (chan y)) as [[r c] woken]. destruct Hspec as [He Hr]. simpl.
    apply step_ok_recv; try done. destruct r as [|[|]]; [done|by destruct Hr as (_ & _ & ?)..].
  - destruct (has_receiver (chan y)); [|by apply step_ok_refl].
    pose proof (poll_recv_ok y w None Hwf) as Hp.
    by destruct (poll_recv (chan y) w) as [[[r|] c] woken].
  - destruct (Nat.eqb_spec (handles y) 0); [by apply step_ok_refl|].
    destruct (close (chan y)) as [c woken] eqn:Hc. simpl. eapply close_step_ok; eauto.
  - destruct (Nat.eqb_spec (handles y) 0); [by apply step_ok_refl|]. by apply clone_step_ok.
  - destruct (Nat.eqb_spec (handles y) 0); [by apply step_ok_refl|].
    destruct (drop_sender (chan y)) as [c woken] eqn:Hd. simpl. by eapply drop_sender_step_ok.
  - destruct (has_receiver (chan y)); [|by apply step_ok_refl].
    destruct (drop_receiver (chan y)) as [c woken] eqn:Hc. simpl. eapply close_step_ok; eauto.
Qed.

Lemma system_new_wf cap : 0 ≤ cap → sys_wf (system_new cap).
Proof.
  intros Hcap. split; simpl; try done.
  - split; simpl; try done. apply waiters_new_wf.
  - by intros ? ? (i & s & ? & _).
Qed.

Lemma channel_run_spec ops y :
  sys_wf y → sys_wf (run y ops) ∧ capacity (chan (run y ops)) = capacity (chan y) ∧
  (is_closed (chan y) = true → is_closed (chan (run y ops)) = true) ∧
  ∀ f, (∀ op, op ∈ ops → op_future op ≠ Some f) →
    futures (run y ops) !! f = futures y !! f ∧ (holds_grant y f → holds_grant (run y ops) f).
Proof.
  revert y. induction ops as [|op ops IH]; intros y Hwf; simpl; [done|].
  destruct (channel_step_spec y op Hwf) as [Hwf' Hcap Hcl Hoth Hgr].
  destruct (IH _ Hwf') as (? & Hcap' & Hcl' & Hf). split_and!; [done|congruence|auto|].
  intros f Hops. assert (op_future op ≠ Some f) by (apply Hops; left).
  destruct (Hf f) as [Hfut Hg]; [intros op' Hop; apply Hops; by right|].
  split; [rewrite Hfut; auto|auto].
Qed.

Lemma reachable_wf cap ops : 0 ≤ cap → sys_wf (run (system_new cap) ops).
Proof. intros Hcap. by apply channel_run_spec, system_new_wf. Qed.

Lemma granted_poll_succeeds y f fu w :
  sys_wf y → futures y !! f = Some fu → holds_grant y f → is_closed (chan y) = false →
  ∃ c woken, poll_send (chan y) (value fu) (waiter_key fu) w = (Ready _ (Ok tt), None, c, woken) ∧
    buffer c = buffer (chan y) ++ [value fu].
Proof.
  intros Hwf Hf (fu' & k & Hf' & Hk & Hg) Hop. simplify_eq.
  pose proof (poll_send_spec (chan y) (value fu) (waiter_key fu) w (sw_chan _ Hwf) (sw_stranded _ Hwf)
    (future_key_owned _ _ _ Hwf Hf)) as Hspec.
  destruct (poll_send _ _ _ _) as [[[[[[]|e]|] ko] c] woken].
  - destruct Hspec as (-> & _ & _ & ?). by eexists _, _.
  - destruct Hspec as (_ & ? & _). congruence.
  - destruct Hspec as (_ & k' & _ & _ & _ & _ & _ & _ & _ & _ & Hng). by destruct (Hng k).
Qed.

(** ** Properties *)

(** C11: for every interleaving of sends, asynchronous sends, polls, cancellations,
    receives, closes and handle drops on a fresh channel, the values accepted are
    exactly the values delivered followed by the buffer, in order; buffered and
    reserved places together never exceed the capacity; and the reservation counter
    equals the number of slots holding a reservation. *)
Theorem channel_fifo_bounded cap ops :
  0 ≤ cap →
  let y := run (system_new cap) ops in
  accepted y = delivered y ++ buffer (chan y) ∧
  zlen (buffer (chan y)) + reserved_slots (chan y) ≤ cap ∧
  0 ≤ reserved_slots (chan y) ∧
  reserved_slots (chan y) = reserved_count (slots (ws_of (chan y))) ∧
  senders (chan y) = Z.of_nat (handles y) + Z.of_nat (size (futures y)).
Proof.
  intros Hcap y. pose proof (reachable_wf cap ops Hcap) as [[C1 C2 C3 C4 C5] _ _ Hs Hf].
  destruct (channel_run_spec ops (system_new cap)) as (_ & Hc & _); [by apply system_new_wf|].
  fold y in Hs, Hf, C1, C2, C3, Hc. rewrite Hc in C3. split_and!; try done.
  rewrite C2. apply count_if_nonneg.
Qed.

(** C10: no lost wake-up: on a channel of positive capacity that is open, when some
    sender waits in the queue there is a buffered value, whose receipt can grant it
    a place, or a future that holds a grant, whose poll or drop hands over; in no
    reachable state is a waiting sender left with neither. *)
Theorem no_sender_stranded cap ops :
  0 < cap →
  let y := run (system_new cap) ops in
  is_closed (chan y) = false → has_queued (ws_of (chan y)) →
  buffer (chan y) ≠ [] ∨ ∃ f, holds_grant y f.
Proof.
  intros Hcap y Hop Hq. pose proof (reachable_wf cap ops ltac:(lia)) as Hwf. fold y in Hwf.
  destruct (channel_run_spec ops (system_new cap)) as (_ & Hc & _); [apply system_new_wf; lia|].
  fold y in Hc. simpl in Hc. destruct (sw_stranded _ Hwf) as [?|Hr]; [lia|done..|by left|right].
  rewrite (co_reserved _ (sw_chan _ Hwf)) in Hr. apply count_if_pos in Hr as (i & s & Hs & Hr).
  destruct (ww_slots _ (co_waiters _ (sw_chan _ Hwf)) _ _ Hs) as [_ Hx]. destruct (Hx Hr) as [Hu _].
  destruct (SlotOwners.ow_all _ _ _ _ _ (sw_owns _ Hwf) i (generation s)) as (f & fu & k & Hf & Hk & <- & _).
  { unfold shape. rewrite Hs. simpl. by rewrite Hu. }
  exists f, fu, k. split_and!; try done. by exists s.
Qed.

(** C30: a grant cannot be stolen: once a future holds a grant, whatever other users do
    (competing sends, other futures, receives), as long as the channel stays open
    its next poll completes with [Ok] and appends its value, however full the
    channel has become. *)
Theorem grant_honoured cap ops1 ops2 f fu w :
  0 ≤ cap →
  let y := run (system_new cap) ops1 in
  let z := run y ops2 in
  futures y !! f = Some fu → holds_grant y f →
  (∀ op, op ∈ ops2 → op_future op ≠ Some f) → is_closed (chan z) = false →
  ∃ c woken, poll_send (chan z) (value fu) (waiter_key fu) w = (Ready _ (Ok tt), None, c, woken) ∧
    buffer c = buffer (chan z) ++ [value fu].
Proof.
  intros Hcap y z Hf Hg Hops Hop. pose proof (reachable_wf cap ops1 Hcap) as Hwf.
  destruct (channel_run_spec ops2 y Hwf) as (Hwfz & _ & _ & Hkeep). destruct (Hkeep f Hops) as [Hfz Hgz].
  eapply granted_poll_succeeds; [done| |by apply Hgz|done]. unfold z. by rewrite Hfz.
Qed.

(** closing releases every blocked sender: [close] and the drop of the receiver
    wake the waker of every queued sender and leave nobody queued, the channel
    stays closed whatever happens next, and any future polled from then on
    completes at once with [Closed] and its value back, leaving the buffer as it
    is. *)
Theorem close_releases_senders cap ops1 op ops2 :
  0 ≤ cap →
  let y := run (system_new cap) ops1 in
  let woken := (step y op).2 in
  let z := run (step y op).1 ops2 in
  op = OpClose ∧ handles y ≠ 0%nat ∨ op = OpDropReceiver ∧ has_receiver (chan y) = true →
  (∀ i s, slots (ws_of (chan y)) !! i = Some s → queued s = true → ∃ w, waker s = Some w ∧ w ∈ woken) ∧
  is_closed (chan z) = true ∧ ¬ has_queued (ws_of (chan z)) ∧
  (∀ f fu w, futures z !! f = Some fu → ∃ c woken',
     poll_send (chan z) (value fu) (waiter_key fu) w =
       (Ready _ (Err (SendClosed (value fu))), None, c, woken') ∧ buffer c = buffer (chan z)).
Proof.
  intros Hcap y woken z Hop. pose proof (reachable_wf cap ops1 Hcap) as Hwf. fold y in Hwf.
  pose proof (channel_step_spec y op Hwf) as [Hwf' _ _ _ _]. subst woken.
  destruct (step y op) as [y' woken] eqn:Hstep. simpl in *. assert (close (chan y) = (chan y', woken) ∨ drop_receiver (chan y) = (chan y', woken)) as Hcl.
  { destruct Hop as [[-> Hh]|[-> Hh]]; simpl in Hstep.
    - destruct (Nat.eqb_spec (handles y) 0); [done|]. destruct (close (chan y)); simplify_eq. left. by destruct y.
    - rewrite Hh in Hstep. destruct (drop_receiver (chan y)); simplify_eq. right. by destruct y. }
  destruct (close_spec _ _ _ (sw_chan _ Hwf) Hcl) as (_ & Hc & _ & _ & _ & _ & _ & Hwk).
  destruct (channel_run_spec ops2 y' Hwf') as (Hwfz & _ & Hclz & _). specialize (Hclz Hc). fold z in Hclz, Hwfz.
  split_and!; [|done|by apply (co_closed _ (sw_chan _ Hwfz))|].
  - intros i s Hs Hq. destruct (ww_slots _ (co_waiters _ (sw_chan _ Hwf)) _ _ Hs) as [Hx _].
    destruct (Hx Hq) as [_ [w Hw]]. exists w. split; [done|]. by eapply Hwk.
  - intros f fu w Hf.
    pose proof (poll_send_spec (chan z) (value fu) (waiter_key fu) w (sw_chan _ Hwfz) (sw_stranded _ Hwfz)
      (future_key_owned _ _ _ Hwfz Hf)) as Hspec.
    destruct (poll_send _ _ _ _) as [[[[[[]|e]|] ko] c] w'].
    + destruct Hspec as (_ & ? & _). congruence.
    + destruct Hspec as (-> & _ & -> & _ & ?). by exists c, w'.
    + destruct Hspec as (? & _). congruence.
Qed.

End mpsc.

(** A channel of capacity 1: a value is buffered, the sends of futures 0 and 1 wait,
    a receive grants future 0 its place. *)
Definition demo_ops : list (@Op nat nat) :=
  [OpSend 7%nat; OpSendAsync 0 8%nat; OpPollSend 0 10%nat; OpSendAsync 1 9%nat; OpPollSend 1 11%nat; OpTryRecv].

Lemma channel_fifo_bounded_witness :
  let y := run (system_new 1) (demo_ops ++ [OpPollSend 0 10%nat; OpTryRecv]) in
  delivered y = [7; 8]%nat ∧ accepted y = delivered y ++ buffer (chan y).
Proof.
  split; [by vm_compute|].
  apply (channel_fifo_bounded 1 (demo_ops ++ [OpPollSend 0 10%nat; OpTryRecv])). lia.
Defined.

Lemma no_sender_stranded_witness :
  let y := run (system_new 1) demo_ops in
  buffer (chan y) ≠ [] ∨ ∃ f, holds_grant y f.
Proof.
  apply (no_sender_stranded 1 demo_ops); [lia|by vm_compute|].
  exists 1%nat, (mkSlot 1 (Some 11%nat) true true false). split; by vm_compute.
Defined.

Lemma grant_honoured_witness :
  let z := run (run (system_new 1) demo_ops) [OpSend 5%nat; OpPollSend 1 11%nat] in
  ∃ c woken, poll_send (chan z) 8%nat (Some (mkKey 0 0)) 10%nat = (Ready _ (Ok tt), None, c, woken) ∧
    buffer c = buffer (chan z) ++ [8%nat].
Proof.
  apply (grant_honoured 1 demo_ops [OpSend 5%nat; OpPollSend 1 11%nat] 0 (mkFuture 8%nat (Some (mkKey 0 0))) 10%nat).
  - lia.
  - by vm_compute.
  - exists (mkFuture 8%nat (Some (mkKey 0 0))), (mkKey 0 0). split; [by vm_compute|]. split; [done|].
    exists (mkSlot 0 None true false true). by vm_compute.
  - intros op [->|[->|Hop]%elem_of_cons]%elem_of_cons; [done|done|]. by apply not_elem_of_nil in Hop.
  - by vm_compute.
Defined.

End Mpsc.
