(* ===== verification/ControlCore.v ===== *)
(** * Queue core of the control channel

    Models [crates/control-channel/src/core.rs] and the types of
    [crates/control-channel/src/types.rs]: the state machine that admits lifecycle
    tokens, completion messages and coalesced normal control work, and decides the
    order in which they are delivered.

    [Instant::now()] is the argument [now] of the operations that read the clock;
    the configuration payload ([serde_json::Value]) and the payload and metadata of
    completions are type parameters.  An operation that can panic returns an
    option. *)
From Stdlib Require Import Strings.String.
From S2P Require Import Prelude.

Set Default Goal Selector "!".
Local Open Scope Z_scope.

Module ControlCore.

Inductive Phase := Normal | IngressDrainRecorded | ShutdownRecorded.
#[export] Instance Phase_eq_dec : EqDecision Phase.
Proof. solve_decision. Defined.

Inductive AdmissionClass := Backpressured | BestEffort.

Record ControlChannelConfig := mkConfig {
  completion_msg_capacity : Z;
  completion_batch_max : Z;
  completion_burst_limit : Z;
}.

Definition default_config : ControlChannelConfig := mkConfig 256 32 32.

Inductive ConfigError :=
  | ZeroCompletionMsgCapacity
  | ZeroCompletionBatchMax
  | CompletionBatchMaxExceedsCapacity
  | ZeroCompletionBurstLimit.

Definition validate (c : ControlChannelConfig) : result unit ConfigError :=
  if completion_msg_capacity c =? 0 then Err ZeroCompletionMsgCapacity
  else if completion_batch_max c =? 0 then Err ZeroCompletionBatchMax
  else if completion_msg_capacity c <? completion_batch_max c then Err CompletionBatchMaxExceedsCapacity
  else if completion_burst_limit c =? 0 then Err ZeroCompletionBurstLimit
  else Ok tt.

Record DrainIngressMsg := mkDrainIngress { drain_deadline : Z; drain_reason : string }.
Record ShutdownMsg := mkShutdown { deadline : Z; reason : string }.

Inductive NormalEventClass := ClassConfig | ClassTimerTick | ClassCollectTelemetry.
#[export] Instance NormalEventClass_eq_dec : EqDecision NormalEventClass.
Proof. solve_decision. Defined.

(** [NormalEventClass::next]. *)
Definition next_class (k : NormalEventClass) : NormalEventClass :=
  match k with
  | ClassConfig => ClassTimerTick
  | ClassTimerTick => ClassCollectTelemetry
  | ClassCollectTelemetry => ClassConfig
  end.

Inductive SendOutcome := Accepted | Coalesced | Replaced | DroppedDuringDrain.
Inductive LifecycleSendResult := LAccepted | LAlreadyAccepted | LClosed.

Section core.
Context {PData Meta Json : Type}.

Record AckMsg := mkAck { accepted : PData; ack_meta : Meta }.
Record NackMsg := mkNack {
  nack_reason : string;
  refused : PData;
  nack_meta : Meta;
  permanent : bool;
}.

Inductive CompletionMsg :=
  | CAck (a : AckMsg)
  | CNack (n : NackMsg).

Inductive ControlCmd :=
  | CmdAck (a : AckMsg)
  | CmdNack (n : NackMsg)
  | CmdConfig (j : Json)
  | CmdTimerTick
  | CmdCollectTelemetry.

Inductive CoreControlEvent :=
  | EvDrainIngress (m : DrainIngressMsg)
  | EvCompletionBatch (b : list CompletionMsg)
  | EvConfig (j : Json)
  | EvTimerTick
  | EvCollectTelemetry
  | EvShutdown (m : ShutdownMsg).

Inductive NodeControlEvent :=
  | NodeCompletionBatch (b : list CompletionMsg)
  | NodeConfig (j : Json)
  | NodeTimerTick
  | NodeCollectTelemetry
  | NodeShutdown (m : ShutdownMsg).

(** [NodeControlEvent::from_core]: panics on a drain token. *)
Definition node_from_core (e : CoreControlEvent) : option NodeControlEvent :=
  match e with
  | EvDrainIngress _ => None
  | EvCompletionBatch b => Some (NodeCompletionBatch b)
  | EvConfig j => Some (NodeConfig j)
  | EvTimerTick => Some NodeTimerTick
  | EvCollectTelemetry => Some NodeCollectTelemetry
  | EvShutdown m => Some (NodeShutdown m)
  end.

Inductive TrySendError :=
  | TSClosed (cmd : ControlCmd)
  | TSFull (admission_class : AdmissionClass) (cmd : ControlCmd).

Record Inner := mkInner {
  config : ControlChannelConfig;
  phase : Phase;
  closed : bool;
  version : Z;
  drain_ingress : option DrainIngressMsg;
  shutdown : option ShutdownMsg;
  shutdown_deadline : option Z;
  drain_ingress_recorded : bool;
  shutdown_recorded : bool;
  shutdown_forced : bool;
  completion : list CompletionMsg;
  latest_config : option Json;
  pending_timer_tick : bool;
  pending_collect_telemetry : bool;
  completion_burst_len : Z;
  completion_batch_emitted_total : Z;
  completion_message_emitted_total : Z;
  config_replaced_total : Z;
  timer_tick_coalesced_total : Z;
  collect_telemetry_coalesced_total : Z;
  normal_event_dropped_during_drain_total : Z;
  completion_abandoned_on_forced_shutdown_total : Z;
  next_normal_event : NormalEventClass;
}.

Implicit Types q : Inner.

Definition new (c : ControlChannelConfig) : Inner :=
  mkInner c Normal false 0 None None None false false false [] None false false
    0 0 0 0 0 0 0 0 ClassConfig.

Record ControlChannelStats := mkStats {
  st_phase : Phase;
  st_drain_ingress_recorded : bool;
  st_shutdown_recorded : bool;
  st_has_pending_drain_ingress : bool;
  st_has_pending_shutdown : bool;
  st_completion_len : Z;
  st_has_pending_config : bool;
  st_has_pending_timer_tick : bool;
  st_has_pending_collect_telemetry : bool;
  st_completion_burst_len : Z;
  st_completion_batch_emitted_total : Z;
  st_completion_message_emitted_total : Z;
  st_config_replaced_total : Z;
  st_timer_tick_coalesced_total : Z;
  st_collect_telemetry_coalesced_total : Z;
  st_normal_event_dropped_during_drain_total : Z;
  st_completion_abandoned_on_forced_shutdown_total : Z;
  st_shutdown_forced : bool;
  st_closed : bool;
}.

Definition is_some {A} (o : option A) : bool := match o with Some _ => true | None => false end.

Definition stats (q : Inner) : ControlChannelStats := {|
  st_phase := phase q;
  st_drain_ingress_recorded := drain_ingress_recorded q;
  st_shutdown_recorded := shutdown_recorded q;
  st_has_pending_drain_ingress := is_some (drain_ingress q);
  st_has_pending_shutdown := is_some (shutdown q);
  st_completion_len := zlen (completion q);
  st_has_pending_config := is_some (latest_config q);
  st_has_pending_timer_tick := pending_timer_tick q;
  st_has_pending_collect_telemetry := pending_collect_telemetry q;
  st_completion_burst_len := completion_burst_len q;
  st_completion_batch_emitted_total := completion_batch_emitted_total q;
  st_completion_message_emitted_total := completion_message_emitted_total q;
  st_config_replaced_total := config_replaced_total q;
  st_timer_tick_coalesced_total := timer_tick_coalesced_total q;
  st_collect_telemetry_coalesced_total := collect_telemetry_coalesced_total q;
  st_normal_event_dropped_during_drain_total := normal_event_dropped_during_drain_total q;
  st_completion_abandoned_on_forced_shutdown_total := completion_abandoned_on_forced_shutdown_total q;
  st_shutdown_forced := shutdown_forced q;
  st_closed := closed q;
|}.

Definition bump_version (q : Inner) : Inner := q <| version ::= (λ v, wrapping_add 64 v 1) |>.

Definition close (q : Inner) : bool * Inner :=
  if closed q then (false, q) else (true, bump_version (q <| closed := true |>)).

Definition next_deadline (q : Inner) : option Z :=
  if closed q || shutdown_forced q then None
  else if bool_decide (phase q = ShutdownRecorded) then shutdown_deadline q
  else None.

Definition refresh_shutdown_force (q : Inner) (now : Z) : Inner :=
  if shutdown_forced q || negb (bool_decide (phase q = ShutdownRecorded)) then q
  else
    match shutdown_deadline q with
    | Some d => if d <=? now then bump_version (q <| shutdown_forced := true |>) else q
    | None => q
    end.

(** [if self.phase == Phase::ShutdownRecorded { self.refresh_shutdown_force(Instant::now()) }]. *)
Definition refresh_in_shutdown (q : Inner) (now : Z) : Inner :=
  if bool_decide (phase q = ShutdownRecorded) then refresh_shutdown_force q now else q.

Definition push_completion (q : Inner) (msg : CompletionMsg) : SendOutcome * Inner :=
  (Accepted, bump_version (q <| completion ::= (λ l, l ++ [msg]) |>)).

Definition drop_during_drain (q : Inner) : SendOutcome * Inner :=
  (DroppedDuringDrain,
   q <| normal_event_dropped_during_drain_total ::= (λ n, saturating_add u64_max n 1) |>).

Definition send_config (q : Inner) (j : Json) : SendOutcome * Inner :=
  if negb (bool_decide (phase q = Normal)) then drop_during_drain q
  else
    let '(outcome, q) :=
      if is_some (latest_config q)
      then (Replaced, q <| config_replaced_total ::= (λ n, saturating_add u64_max n 1) |>)
      else (Accepted, q) in
    (outcome, bump_version (q <| latest_config := Some j |>)).

Definition send_timer_tick (q : Inner) : SendOutcome * Inner :=
  if negb (bool_decide (phase q = Normal)) then drop_during_drain q
  else if pending_timer_tick q
  then (Coalesced, q <| timer_tick_coalesced_total ::= (λ n, saturating_add u64_max n 1) |>)
  else (Accepted, bump_version (q <| pending_timer_tick := true |>)).

Definition send_telemetry_tick (q : Inner) : SendOutcome * Inner :=
  if negb (bool_decide (phase q = Normal)) then drop_during_drain q
  else if pending_collect_telemetry q
  then (Coalesced, q <| collect_telemetry_coalesced_total ::= (λ n, saturating_add u64_max n 1) |>)
  else (Accepted, bump_version (q <| pending_collect_telemetry := true |>)).

Definition ok_send (r : SendOutcome * Inner) : result SendOutcome TrySendError * Inner :=
  (Ok r.1, r.2).

Definition try_send (q : Inner) (cmd : ControlCmd) (now : Z) : result SendOutcome TrySendError * Inner :=
  let q := refresh_in_shutdown q now in
  if closed q || shutdown_forced q then (Err (TSClosed cmd), q)
  else
    match cmd with
    | CmdAck a =>
      if completion_msg_capacity (config q) <=? zlen (completion q)
      then (Err (TSFull Backpressured (CmdAck a)), q)
      else ok_send (push_completion q (CAck a))
    | CmdNack n =>
      if completion_msg_capacity (config q) <=? zlen (completion q)
      then (Err (TSFull Backpressured (CmdNack n)), q)
      else ok_send (push_completion q (CNack n))
    | CmdConfig j => ok_send (send_config q j)
    | CmdTimerTick => ok_send (send_timer_tick q)
    | CmdCollectTelemetry => ok_send (send_telemetry_tick q)
    end.

Definition clear_normal_pending (q : Inner) : Inner :=
  q <| latest_config := None |> <| pending_timer_tick := false |>
    <| pending_collect_telemetry := false |> <| completion_burst_len := 0 |>.

Definition has_pending_normal_event (q : Inner) : bool :=
  is_some (latest_config q) || pending_timer_tick q || pending_collect_telemetry q.

Definition record_drain_ingress (q : Inner) (msg : DrainIngressMsg) (now : Z) :
    LifecycleSendResult * Inner :=
  let q := refresh_in_shutdown q now in
  if closed q then (LClosed, q)
  else if drain_ingress_recorded q then (LAlreadyAccepted, q)
  else if shutdown_forced q then (LClosed, q)
  else
    let q := clear_normal_pending q <| drain_ingress := Some msg |> <| drain_ingress_recorded := true |> in
    let q := if bool_decide (phase q = Normal) then q <| phase := IngressDrainRecorded |> else q in
    (LAccepted, bump_version q).

Definition record_shutdown (q : Inner) (msg : ShutdownMsg) (now : Z) : LifecycleSendResult * Inner :=
  if closed q then (LClosed, q)
  else if shutdown_recorded q then (LAlreadyAccepted, q)
  else
    let q := clear_normal_pending q <| shutdown_deadline := Some (deadline msg) |>
               <| shutdown := Some msg |> <| shutdown_recorded := true |>
               <| phase := ShutdownRecorded |> in
    (LAccepted, bump_version (refresh_shutdown_force q now)).

(** The event of one class of normal work, if pending, which is taken. *)
Definition take_class (q : Inner) (k : NormalEventClass) : option (CoreControlEvent * Inner) :=
  match k with
  | ClassConfig =>
    match latest_config q with
    | Some j => Some (EvConfig j, q <| latest_config := None |>)
    | None => None
    end
  | ClassTimerTick =>
    if pending_timer_tick q then Some (EvTimerTick, q <| pending_timer_tick := false |>) else None
  | ClassCollectTelemetry =>
    if pending_collect_telemetry q
    then Some (EvCollectTelemetry, q <| pending_collect_telemetry := false |>) else None
  end.

(** The loop of [take_next_normal_event], [n] rounds to go. *)
Fixpoint take_normal_loop (n : nat) (q : Inner) : option CoreControlEvent * Inner :=
  match n with
  | O => (None, q)
  | S n =>
    let candidate := next_normal_event q in
    let q := q <| next_normal_event := next_class candidate |> in
    match take_class q candidate with
    | Some (event, q) => (Some event, bump_version (q <| completion_burst_len := 0 |>))
    | None => take_normal_loop n q
    end
  end.

Definition take_next_normal_event (q : Inner) : option CoreControlEvent * Inner := take_normal_loop 3 q.

(** [pop_front().expect(..)] [n] times. *)
Fixpoint pop_batch (n : nat) (l : list CompletionMsg) : option (list CompletionMsg * list CompletionMsg) :=
  match n with
  | O => Some ([], l)
  | S n =>
    match l with
    | [] => None
    | msg :: l => '(batch, rest) ← pop_batch n l; Some (msg :: batch, rest)
    end
  end.

Definition take_completion_batch (q : Inner) (fairness_budget : option Z) :
    option (CoreControlEvent * Inner) :=
  let batch_len := Z.min (zlen (completion q)) (completion_batch_max (config q)) in
  let batch_len :=
    match fairness_budget with
    | Some limit => Z.min batch_len (Z.max limit 1)
    | None => batch_len
    end in
  '(batch, rest) ← pop_batch (Z.to_nat batch_len) (completion q);
  Some (EvCompletionBatch batch,
        bump_version
          (q <| completion := rest |>
             <| completion_burst_len ::= (λ n, saturating_add usize_max n batch_len) |>
             <| completion_batch_emitted_total ::= (λ n, saturating_add u64_max n 1) |>
             <| completion_message_emitted_total ::= (λ n, saturating_add u64_max n batch_len) |>)).

Definition finalize_shutdown (q : Inner) (forced : bool) : option CoreControlEvent * Inner :=
  match shutdown q with
  | None => (None, q)
  | Some msg =>
    let q := q <| shutdown := None |> in
    let q :=
      if forced
      then q <| completion_abandoned_on_forced_shutdown_total ::=
                  (λ n, saturating_add u64_max n (zlen (completion q))) |>
             <| completion := [] |>
      else q in
    (Some (EvShutdown msg),
     bump_version (clear_normal_pending q <| shutdown_deadline := None |> <| closed := true |>))
  end.

Definition is_nil {A} (l : list A) : bool := match l with [] => true | _ => false end.

(** [pop_event]; the outer option is [None] on panic. *)
Definition pop_event (q : Inner) (now : Z) : option (option CoreControlEvent * Inner) :=
  let q := refresh_in_shutdown q now in
  let batch budget := '(e, q) ← take_completion_batch q budget; Some (Some e, q) in
  match drain_ingress q with
  | Some msg =>
    Some (Some (EvDrainIngress msg),
          bump_version (q <| drain_ingress := None |> <| completion_burst_len := 0 |>))
  | None =>
    match phase q with
    | ShutdownRecorded =>
      if shutdown_forced q then Some (finalize_shutdown q true)
      else if negb (is_nil (completion q)) then batch None
      else Some (finalize_shutdown q false)
    | IngressDrainRecorded =>
      if negb (is_nil (completion q)) then batch None else Some (None, q)
    | Normal =>
      if negb (has_pending_normal_event q) then
        if negb (is_nil (completion q)) then batch None else Some (None, q)
      else
        let '(forced_event, q') :=
          if completion_burst_limit (config q) <=? completion_burst_len q
          then take_next_normal_event q else (None, q) in
        match forced_event with
        | Some event => Some (Some event, q')
        | None =>
          if negb (is_nil (completion q')) then
            '(e, q'') ← take_completion_batch q'
              (Some (saturating_sub (completion_burst_limit (config q')) (completion_burst_len q')));
            Some (Some e, q'')
          else Some (take_next_normal_event q')
        end
    end
  end.

(** ** Runs of the core

    [sent] records the completion messages whose send was accepted, [events] the
    events delivered, in order. *)
Inductive Op :=
  | OpTrySend (cmd : ControlCmd) (now : Z)
  | OpRecordDrain (m : DrainIngressMsg) (now : Z)
  | OpRecordShutdown (m : ShutdownMsg) (now : Z)
  | OpPop (now : Z)
  | OpClose.

Record History := mkHistory {
  core : Inner;
  sent : list CompletionMsg;
  events : list CoreControlEvent;
}.

Definition completion_of (cmd : ControlCmd) : list CompletionMsg :=
  match cmd with CmdAck a => [CAck a] | CmdNack n => [CNack n] | _ => [] end.

Definition step (h : History) (op : Op) : option History :=
  match op with
  | OpTrySend cmd now =>
    let '(r, q) := try_send (core h) cmd now in
    Some (mkHistory q (sent h ++ if is_ok r then completion_of cmd else []) (events h))
  | OpRecordDrain m now => Some (h <| core := (record_drain_ingress (core h) m now).2 |>)
  | OpRecordShutdown m now => Some (h <| core := (record_shutdown (core h) m now).2 |>)
  | OpPop now =>
    '(e, q) ← pop_event (core h) now;
    Some (mkHistory q (sent h) (events h ++ option_list e))
  | OpClose => Some (h <| core := (close (core h)).2 |>)
  end.

Fixpoint run (h : History) (ops : list Op) : option History :=
  match ops with
  | [] => Some h
  | op :: ops => h' ← step h op; run h' ops
  end.

Definition start (c : ControlChannelConfig) : History := mkHistory (new c) [] [].

Definition batch_of (e : CoreControlEvent) : list CompletionMsg :=
  match e with EvCompletionBatch b => b | _ => [] end.

Definition is_normal (e : CoreControlEvent) : bool :=
  match e with EvConfig _ | EvTimerTick | EvCollectTelemetry => true | _ => false end.

(** ** Invariant *)

Definition config_ok (c : ControlChannelConfig) : Prop :=
  validate c = Ok tt ∧
  0 ≤ completion_msg_capacity c ≤ usize_max ∧ 0 ≤ completion_batch_max c ≤ usize_max ∧
  0 ≤ completion_burst_limit c ≤ usize_max.

Lemma config_ok_bounds c :
  config_ok c → 1 ≤ completion_msg_capacity c ∧ 1 ≤ completion_batch_max c ≤ completion_msg_capacity c ∧
  1 ≤ completion_burst_limit c.
Proof.
  unfold config_ok, validate. intros (Hv & ? & ? & ?).
  destruct (Z.eqb_spec (completion_msg_capacity c) 0); [done|].
  destruct (Z.eqb_spec (completion_batch_max c) 0); [done|].
  destruct (Z.ltb_spec (completion_msg_capacity c) (completion_batch_max c)); [done|].
  destruct (Z.eqb_spec (completion_burst_limit c) 0); [done|]. lia.
Qed.

Record core_wf (q : Inner) : Prop := {
  cw_config : config_ok (config q);
  cw_capacity : zlen (completion q) ≤ completion_msg_capacity (config q);
  cw_burst : 0 ≤ completion_burst_len q ≤ usize_max;
  cw_normal : phase q ≠ Normal → has_pending_normal_event q = false;
  cw_phase_normal : phase q = Normal ↔ drain_ingress_recorded q = false ∧ shutdown_recorded q = false;
  cw_phase_shutdown : phase q = ShutdownRecorded ↔ shutdown_recorded q = true;
  cw_drain : is_Some (drain_ingress q) → drain_ingress_recorded q = true;
  cw_shutdown : is_Some (shutdown q) → shutdown_recorded q = true;
  cw_deadline : ∀ m, shutdown q = Some m → shutdown_deadline q = Some (deadline m);
  cw_delivered : shutdown_recorded q = true → shutdown q = None → closed q = true;
  cw_forced : shutdown_forced q = true → shutdown_recorded q = true;
}.

Lemma new_core_wf c : config_ok c → core_wf (new c).
Proof.
  intros Hc. pose proof (config_ok_bounds c Hc). split; simpl; try done; unfold zlen, usize_max; simpl; try lia.
  all: by intros [? ?].
Qed.

(** Refreshing the force flag touches nothing else but the version. *)
Lemma refresh_in_shutdown_eq q now :
  ∃ v, refresh_in_shutdown q now =
    q <| version := v |>
      <| shutdown_forced := shutdown_forced q ||
           (bool_decide (phase q = ShutdownRecorded) &&
            match shutdown_deadline q with Some d => d <=? now | None => false end) |>.
Proof.
  unfold refresh_in_shutdown, refresh_shutdown_force, bump_version.
  destruct q as [cf ph cl v di sd dl dr sr sf]; simpl. destruct ph, sf, dl as [d|]; simpl.
  all: try (destruct (d <=? now)); simpl; by eexists.
Qed.

Lemma refresh_wf q now : core_wf q → core_wf (refresh_in_shutdown q now).
Proof.
  intros Hwf. destruct (refresh_in_shutdown_eq q now) as [v ->].
  destruct q as [cf ph cl v0 di sd dl dr sr sf], Hwf; simpl in *.
  split; simpl; try done. intros Hf. destruct sf; simpl in *; [auto|].
  apply andb_true_iff in Hf as [Hf _]. apply bool_decide_eq_true in Hf. by apply cw_phase_shutdown0.
Qed.

Lemma bump_wf q : core_wf q → core_wf (bump_version q).
Proof. intros []. by destruct q. Qed.

Lemma pop_batch_take n l : (n ≤ length l)%nat → pop_batch n l = Some (take n l, drop n l).
Proof.
  revert l. induction n as [|n IH]; intros [|x l] Hn; simpl in *; try done; try lia.
  rewrite IH by lia. done.
Qed.

Definition batch_size (q : Inner) (budget : option Z) : Z :=
  let n := Z.min (zlen (completion q)) (completion_batch_max (config q)) in
  match budget with Some limit => Z.min n (Z.max limit 1) | None => n end.

Lemma batch_size_bounds q budget :
  core_wf q → completion q ≠ [] →
  1 ≤ batch_size q budget ≤ zlen (completion q) ∧
  (∀ l, budget = Some l → batch_size q budget ≤ Z.max l 1).
Proof.
  intros Hwf Hne. destruct (config_ok_bounds _ (cw_config _ Hwf)) as (_ & ? & _).
  assert (1 ≤ zlen (completion q)) by (destruct (completion q); [done|rewrite zlen_cons; pose proof (zlen_nonneg l); lia]).
  unfold batch_size. destruct budget as [l|].
  - split; [lia|]. intros ? [= <-]. lia.
  - split; [lia|done].
Qed.

(** A batch is a non-empty prefix of the backlog, taken without panicking. *)
Lemma take_completion_batch_spec q budget :
  core_wf q → completion q ≠ [] →
  ∃ b rest v t1 t2, completion q = b ++ rest ∧ zlen b = batch_size q budget ∧
  take_completion_batch q budget = Some (EvCompletionBatch b,
    q <| completion := rest |>
      <| completion_burst_len := saturating_add usize_max (completion_burst_len q) (batch_size q budget) |>
      <| completion_batch_emitted_total := t1 |> <| completion_message_emitted_total := t2 |>
      <| version := v |>).
Proof.
  intros Hwf Hne. destruct (batch_size_bounds q budget Hwf Hne) as [Hb _].
  exists (take (Z.to_nat (batch_size q budget)) (completion q)), (drop (Z.to_nat (batch_size q budget)) (completion q)).
  eexists _, _, _. split; [by rewrite take_drop|]. split.
  - unfold zlen in *. rewrite length_take. lia.
  - unfold take_completion_batch. fold (batch_size q budget).
    rewrite pop_batch_take by (unfold zlen in *; lia). by destruct q.
Qed.

(** *** Normal events *)

Definition pending (q : Inner) (k : NormalEventClass) : bool :=
  match k with
  | ClassConfig => is_some (latest_config q)
  | ClassTimerTick => pending_timer_tick q
  | ClassCollectTelemetry => pending_collect_telemetry q
  end.

Definition class_of (e : CoreControlEvent) : option NormalEventClass :=
  match e with
  | EvConfig _ => Some ClassConfig
  | EvTimerTick => Some ClassTimerTick
  | EvCollectTelemetry => Some ClassCollectTelemetry
  | _ => None
  end.

(** Rounds the cursor [c] needs to reach class [k]. *)
Definition distance (c k : NormalEventClass) : Z :=
  if bool_decide (k = c) then 0 else if bool_decide (k = next_class c) then 1 else 2.

Record same_base (q q' : Inner) : Prop := {
  sb_config : config q' = config q;
  sb_phase : phase q' = phase q;
  sb_closed : closed q' = closed q;
  sb_drain : drain_ingress q' = drain_ingress q;
  sb_shutdown : shutdown q' = shutdown q;
  sb_deadline : shutdown_deadline q' = shutdown_deadline q;
  sb_drain_recorded : drain_ingress_recorded q' = drain_ingress_recorded q;
  sb_shutdown_recorded : shutdown_recorded q' = shutdown_recorded q;
  sb_forced : shutdown_forced q' = shutdown_forced q;
  sb_completion : completion q' = completion q;
  sb_abandoned : completion_abandoned_on_forced_shutdown_total q' =
    completion_abandoned_on_forced_shutdown_total q;
}.

Lemma same_base_wf q q' :
  same_base q q' → 0 ≤ completion_burst_len q' ≤ usize_max →
  (phase q' ≠ Normal → has_pending_normal_event q' = false) → core_wf q → core_wf q'.
Proof.
  intros [H1 H2 H3 H4 H5 H6 H7 H8 H9 H10 H11] Hb Hn []. split; try done.
  all: rewrite ?H1, ?H2, ?H3, ?H4, ?H5, ?H6, ?H7, ?H8, ?H9, ?H10; done.
Qed.

Lemma has_pending_spec q : has_pending_normal_event q = true ↔ ∃ k, pending q k = true.
Proof.
  unfold has_pending_normal_event. split.
  - intros [[H|H]%orb_true_iff|H]%orb_true_iff;
      [by exists ClassConfig|by exists ClassTimerTick|by exists ClassCollectTelemetry].
  - intros [[] Hk]; simpl in Hk; rewrite Hk; by rewrite ?orb_true_r.
Qed.

(** The first pending class from the cursor on is taken, and the cursor moves past
    it, hence closer to every class still pending. *)
Lemma take_next_normal_event_spec q :
  has_pending_normal_event q = true →
  ∃ e k q', take_next_normal_event q = (Some e, q') ∧ class_of e = Some k ∧
  same_base q q' ∧ completion_burst_len q' = 0 ∧
  pending q k = true ∧ (∀ k', pending q' k' = pending q k' && negb (bool_decide (k' = k))) ∧
  (∀ k', pending q' k' = true →
     distance (next_normal_event q') k' < distance (next_normal_event q) k').
Proof.
  destruct q as [cf ph cl v di sd dl dr sr sf cm lc tt ct bl b1 b2 b3 b4 b5 b6 b7 nx].
  unfold has_pending_normal_event, take_next_normal_event. simpl.
  intros Hp. destruct nx, lc as [j|], tt, ct; simpl in *; try done.
  all: eexists _, _, _; split; [done|]; split; [done|]; split_and!; try done.
  all: intros []; simpl; try done; try lia; compute; done.
Qed.

(** *** Delivery *)

Inductive pop_case (r : Inner) : option CoreControlEvent → Inner → Prop :=
  | pop_drain m v :
      drain_ingress r = Some m →
      pop_case r (Some (EvDrainIngress m))
        (r <| drain_ingress := None |> <| completion_burst_len := 0 |> <| version := v |>)
  | pop_completions budget b rest v t1 t2 :
      drain_ingress r = None → completion r = b ++ rest → b ≠ [] → zlen b = batch_size r budget →
      (phase r = ShutdownRecorded → shutdown_forced r = false) →
      (budget = None ∧ (phase r = Normal → has_pending_normal_event r = false) ∨
       phase r = Normal ∧ has_pending_normal_event r = true ∧
       completion_burst_len r < completion_burst_limit (config r) ∧
       budget = Some (completion_burst_limit (config r) - completion_burst_len r)) →
      pop_case r (Some (EvCompletionBatch b))
        (r <| completion := rest |>
           <| completion_burst_len := saturating_add usize_max (completion_burst_len r) (batch_size r budget) |>
           <| completion_batch_emitted_total := t1 |> <| completion_message_emitted_total := t2 |>
           <| version := v |>)
  | pop_shutdown m :
      drain_ingress r = None → phase r = ShutdownRecorded → shutdown r = Some m →
      (shutdown_forced r = true ∨ completion r = []) →
      pop_case r (Some (EvShutdown m)) (finalize_shutdown r (shutdown_forced r)).2
  | pop_normal e q' :
      drain_ingress r = None → phase r = Normal → has_pending_normal_event r = true →
      (completion_burst_limit (config r) ≤ completion_burst_len r ∨ completion r = []) →
      take_next_normal_event r = (Some e, q') →
      pop_case r (Some e) q'
  | pop_nothing :
      drain_ingress r = None →
      (phase r = ShutdownRecorded → shutdown r = None ∧ (shutdown_forced r = true ∨ completion r = [])) →
      (phase r ≠ ShutdownRecorded → completion r = []) →
      (phase r = Normal → has_pending_normal_event r = false) →
      pop_case r None r.

Lemma batch_event r budget :
  core_wf r → completion r ≠ [] → drain_ingress r = None →
  (phase r = ShutdownRecorded → shutdown_forced r = false) →
  (budget = None ∧ (phase r = Normal → has_pending_normal_event r = false) ∨
   phase r = Normal ∧ has_pending_normal_event r = true ∧
   completion_burst_len r < completion_burst_limit (config r) ∧
   budget = Some (completion_burst_limit (config r) - completion_burst_len r)) →
  ∃ e q', ('(e, q) ← take_completion_batch r budget; Some (Some e, q)) = Some (e, q') ∧ pop_case r e q'.
Proof.
  intros Hwf Hne Hd Hf Hb.
  destruct (take_completion_batch_spec r budget Hwf Hne) as (b & rest & v & t1 & t2 & Hc & Hz & ->).
  destruct (batch_size_bounds r budget Hwf Hne) as [? _].
  eexists _, _. split; [done|]. apply pop_completions; try done. intros ->. rewrite zlen_nil in Hz. lia.
Qed.

Lemma finalize_shutdown_Some r f m :
  shutdown r = Some m → finalize_shutdown r f = (Some (EvShutdown m), (finalize_shutdown r f).2).
Proof. intros Hs. unfold finalize_shutdown. by rewrite Hs. Qed.

Lemma is_nil_spec {A} (l : list A) : is_nil l = false ↔ l ≠ [].
Proof. by destruct l. Qed.

Lemma pop_event_cases q now :
  core_wf q →
  ∃ e q', pop_event q now = Some (e, q') ∧ pop_case (refresh_in_shutdown q now) e q'.
Proof.
  intros Hwf%(refresh_wf _ now). unfold pop_event. set (r := refresh_in_shutdown q now) in *. clearbody r.
  destruct (drain_ingress r) as [m|] eqn:Hd.
  { eexists _, _. split; [done|]. unfold bump_version.
    pose proof (pop_drain r m (wrapping_add 64 (version r) 1) Hd) as Hp. by destruct r. }
  destruct (phase r) eqn:Hph.
  - destruct (has_pending_normal_event r) eqn:Hpend; simpl; cycle 1.
    { destruct (is_nil (completion r)) eqn:Hn; simpl.
      - destruct (completion r) eqn:Hc; [|done]. eexists _, _. split; [done|]. by apply pop_nothing; rewrite ?Hph.
      - apply is_nil_spec in Hn. apply batch_event; rewrite ?Hph; try done; auto. }
    pose proof (take_next_normal_event_spec r Hpend) as (e & k & q' & Ht & _).
    destruct (Z.leb_spec (completion_burst_limit (config r)) (completion_burst_len r)).
    { rewrite Ht. eexists _, _. split; [done|]. apply pop_normal; auto. }
    destruct (is_nil (completion r)) eqn:Hn; simpl.
    + destruct (completion r) eqn:Hc; [|done]. rewrite Ht. eexists _, _. split; [done|]. apply pop_normal; auto.
    + apply is_nil_spec in Hn.
      replace (saturating_sub _ _) with (completion_burst_limit (config r) - completion_burst_len r)
        by (unfold saturating_sub; lia).
      apply batch_event; rewrite ?Hph; try done; auto.
  - destruct (is_nil (completion r)) eqn:Hn; simpl.
    + destruct (completion r) eqn:Hc; [|done]. eexists _, _. split; [done|]. by apply pop_nothing; rewrite ?Hph.
    + apply is_nil_spec in Hn. apply batch_event; rewrite ?Hph; try done. by left.
  - assert (shutdown_forced r = true ∨ completion r = [] →
      ∃ e q', finalize_shutdown r (shutdown_forced r) = (e, q') ∧ pop_case r e q') as Hfin.
    { intros Hor. destruct (shutdown r) as [m|] eqn:Hs.
      - eexists _, _. split; [by apply finalize_shutdown_Some|]. by apply pop_shutdown.
      - eexists _, _. split; [unfold finalize_shutdown; by rewrite Hs|]. by apply pop_nothing; rewrite ?Hph. }
    destruct (shutdown_forced r) eqn:Hf.
    { destruct Hfin as (e & q' & -> & ?); eauto. }
    destruct (is_nil (completion r)) eqn:Hn; simpl.
    + destruct (completion r) eqn:Hc; [|done]. destruct Hfin as (e & q' & -> & ?); eauto.
    + apply is_nil_spec in Hn. apply batch_event; rewrite ?Hph; try done. by left.
Qed.

(** *** Admission *)

(** Lifecycle state an ordinary send leaves alone; the force flag may be raised. *)
Record same_life (q q' : Inner) : Prop := {
  sl_config : config q' = config q;
  sl_phase : phase q' = phase q;
  sl_closed : closed q' = closed q;
  sl_drain : drain_ingress q' = drain_ingress q;
  sl_shutdown : shutdown q' = shutdown q;
  sl_deadline : shutdown_deadline q' = shutdown_deadline q;
  sl_drain_recorded : drain_ingress_recorded q' = drain_ingress_recorded q;
  sl_shutdown_recorded : shutdown_recorded q' = shutdown_recorded q;
  sl_forced : shutdown_forced q = true → shutdown_forced q' = true;
  sl_cursor : next_normal_event q' = next_normal_event q;
  sl_burst : completion_burst_len q' = completion_burst_len q;
  sl_pending : ∀ k, pending q k = true → pending q' k = true;
  sl_abandoned : completion_abandoned_on_forced_shutdown_total q' =
    completion_abandoned_on_forced_shutdown_total q;
}.

Lemma same_life_refl q : same_life q q.
Proof. by split. Qed.

Lemma same_life_trans q1 q2 q3 : same_life q1 q2 → same_life q2 q3 → same_life q1 q3.
Proof. intros [] []. split; try congruence; auto. Qed.

Lemma refresh_same_life q now :
  same_life q (refresh_in_shutdown q now) ∧ completion (refresh_in_shutdown q now) = completion q.
Proof.
  destruct (refresh_in_shutdown_eq q now) as [v ->]. destruct q; simpl. split; [|done].
  split; simpl; try done. by intros ->.
Qed.

Ltac core_fields := split; simpl in *; try done; try (by intros []).

Lemma push_completion_spec q msg :
  core_wf q → zlen (completion q) < completion_msg_capacity (config q) →
  let q' := (push_completion q msg).2 in
  core_wf q' ∧ same_life q q' ∧ completion q' = completion q ++ [msg].
Proof.
  intros [] Hroom. destruct q; simpl in *. split; [|split; [|done]].
  - split; simpl in *; try done. rewrite zlen_app. unfold zlen in *. simpl. lia.
  - core_fields.
Qed.

Definition normal_cmd (cmd : ControlCmd) : option NormalEventClass :=
  match cmd with
  | CmdConfig _ => Some ClassConfig
  | CmdTimerTick => Some ClassTimerTick
  | CmdCollectTelemetry => Some ClassCollectTelemetry
  | _ => None
  end.

(** Admission of normal work: dropped once drain or shutdown has begun, otherwise
    pending afterwards, coalesced or replacing what was pending. *)
Lemma normal_send_spec q cmd k (r : SendOutcome * Inner) :
  core_wf q → normal_cmd cmd = Some k →
  r = match cmd with
      | CmdConfig j => send_config q j
      | CmdTimerTick => send_timer_tick q
      | _ => send_telemetry_tick q
      end →
  core_wf r.2 ∧ same_life q r.2 ∧ completion r.2 = completion q ∧
  shutdown_forced r.2 = shutdown_forced q ∧
  (phase q ≠ Normal → r.1 = DroppedDuringDrain) ∧
  (phase q = Normal → pending r.2 k = true ∧
     r.1 = if pending q k then match k with ClassConfig => Replaced | _ => Coalesced end else Accepted).
Proof.
  intros Hwf Hk ->. assert (phase q ≠ Normal → ∀ k, pending q k = false) as Hnp.
  { intros Hph k'. apply (cw_normal _ Hwf) in Hph. destruct (pending q k') eqn:Hp; [|done].
    assert (has_pending_normal_event q = true) by (apply has_pending_spec; eauto). congruence. }
  destruct Hwf. destruct q as [cf ph cl v di sd dl dr sr sf cm lc tk ct bl b1 b2 b3 b4 b5 b6 b7 nx]; simpl in *.
  unfold has_pending_normal_event in *; simpl in *.
  destruct cmd as [a|n|j| |]; simpl in Hk; simplify_eq;
    unfold send_config, send_timer_tick, send_telemetry_tick, drop_during_drain; simpl.
  all: case_bool_decide as Hph; simpl.
  all: repeat match goal with |- context [if is_some ?x then _ else _] => destruct x eqn:?; simpl
       | |- context [if ?b then _ else _] => destruct b eqn:?; simpl end; subst.
  all: split_and!; try done; try (split; simpl in *; done); try core_fields.
Qed.

Lemma try_send_spec q cmd now :
  core_wf q →
  let '(r, q') := try_send q cmd now in
  core_wf q' ∧ same_life q q' ∧
  match r with
  | Ok _ => completion q' = completion q ++ completion_of cmd ∧
      closed q = false ∧ shutdown_forced q' = false
  | Err (TSClosed cmd') => completion q' = completion q ∧ cmd' = cmd ∧
      (closed q = true ∨ shutdown_forced q' = true)
  | Err (TSFull a cmd') => completion q' = completion q ∧ cmd' = cmd ∧ a = Backpressured ∧
      zlen (completion q) = completion_msg_capacity (config q) ∧ completion_of cmd ≠ [] ∧
      closed q = false
  end.
Proof.
  intros Hwf. unfold try_send. destruct (refresh_same_life q now) as [Hl Hc].
  pose proof (refresh_wf q now Hwf) as Hr. set (r := refresh_in_shutdown q now) in *. clearbody r.
  destruct (closed r) eqn:Hcl; simpl.
  { split_and!; try done. left. by rewrite <-(sl_closed _ _ Hl). }
  destruct (shutdown_forced r) eqn:Hf; simpl; [by split_and!; try done; right|].
  assert (closed q = false) as Hclq by (by rewrite <-(sl_closed _ _ Hl)).
  pose proof (cw_capacity _ Hwf) as Hcap.
  assert (∀ x : SendOutcome * Inner, core_wf x.2 → same_life r x.2 → completion x.2 = completion r ++ completion_of cmd →
    shutdown_forced x.2 = false →
    core_wf (ok_send x).2 ∧ same_life q (ok_send x).2 ∧
    completion (ok_send x).2 = completion q ++ completion_of cmd ∧ closed q = false ∧
    shutdown_forced (ok_send x).2 = false) as Hgood.
  { intros x ? ? ? ?. split_and!; try done; [by eapply same_life_trans|]. simpl. by rewrite <-Hc. }
  destruct cmd as [a|n|j| |].
  1,2: destruct (Z.leb_spec (completion_msg_capacity (config r)) (zlen (completion r)));
    [rewrite Hc, (sl_config _ _ Hl) in *; split_and!; try done; lia|].
  1,2: apply Hgood; [by apply push_completion_spec..|done].
  - edestruct (normal_send_spec r (CmdConfig j)) as (? & ? & ? & ? & _); [done..|].
    apply Hgood; try done; [simpl; by rewrite app_nil_r|congruence].
  - edestruct (normal_send_spec r CmdTimerTick) as (? & ? & ? & ? & _); [done..|].
    apply Hgood; try done; [simpl; by rewrite app_nil_r|congruence].
  - edestruct (normal_send_spec r CmdCollectTelemetry) as (? & ? & ? & ? & _); [done..|].
    apply Hgood; try done; [simpl; by rewrite app_nil_r|congruence].
Qed.

(** Once the shutdown deadline has passed every send is refused. *)
Lemma try_send_after_deadline q cmd now d :
  phase q = ShutdownRecorded → shutdown_deadline q = Some d → d ≤ now →
  ∃ q', try_send q cmd now = (Err (TSClosed cmd), q') ∧ shutdown_forced q' = true.
Proof.
  intros Hph Hd Hnow. unfold try_send. destruct (refresh_in_shutdown_eq q now) as [v ->].
  destruct q; simpl in *. subst. rewrite (proj2 (Z.leb_le _ _) Hnow). simpl.
  rewrite !orb_true_r. by eexists.
Qed.

(** *** Lifecycle tokens *)

Lemma record_drain_ingress_spec q m now :
  core_wf q →
  let '(r, q') := record_drain_ingress q m now in
  core_wf q' ∧ completion q' = completion q ∧ config q' = config q ∧ closed q' = closed q ∧
  shutdown q' = shutdown q ∧ shutdown_recorded q' = shutdown_recorded q ∧
  completion_abandoned_on_forced_shutdown_total q' = completion_abandoned_on_forced_shutdown_total q ∧
  (shutdown_forced q = true → shutdown_forced q' = true) ∧
  match r with
  | LAccepted => closed q = false ∧ drain_ingress_recorded q = false ∧
      drain_ingress q' = Some m ∧ drain_ingress_recorded q' = true ∧ has_pending_normal_event q' = false
  | LAlreadyAccepted => closed q = false ∧ drain_ingress_recorded q = true ∧ same_life q q'
  | LClosed => (closed q = true ∨ drain_ingress_recorded q = false ∧ shutdown_forced q' = true) ∧ same_life q q'
  end.
Proof.
  intros Hwf. unfold record_drain_ingress. destruct (refresh_same_life q now) as [Hl Hc].
  pose proof (refresh_wf q now Hwf) as Hr. set (r := refresh_in_shutdown q now) in *. clearbody r.
  pose proof Hl as [E1 E2 E3 E4 E5 E6 E7 E8 E9 E10 E11 E12 E13].
  destruct (closed r) eqn:Hcl; [split_and!; try done; try congruence; left; congruence|].
  destruct (drain_ingress_recorded r) eqn:Hdr; [split_and!; try done; congruence|].
  destruct (shutdown_forced r) eqn:Hsf; [split_and!; try done; try congruence; by right|].
  destruct Hr, r as [cf ph cl v di sd dl dr sr sf]; simpl in *. subst.
  case_bool_decide as Hph; simpl; split_and!; try done; split; simpl; try done.
  all: unfold usize_max; try lia.
  - split; [done|by intros [? ?]].
  - destruct cw_phase_normal0 as [Hx _]. destruct (Hx Hph) as [_ ->]. by split.
  - split; [done|by intros [? ?]].
Qed.

Lemma record_shutdown_spec q m now :
  core_wf q →
  let '(r, q') := record_shutdown q m now in
  core_wf q' ∧ completion q' = completion q ∧ config q' = config q ∧ closed q' = closed q ∧
  drain_ingress q' = drain_ingress q ∧ drain_ingress_recorded q' = drain_ingress_recorded q ∧
  completion_abandoned_on_forced_shutdown_total q' = completion_abandoned_on_forced_shutdown_total q ∧
  (shutdown_forced q = true → shutdown_forced q' = true) ∧
  match r with
  | LAccepted => closed q = false ∧ shutdown_recorded q = false ∧ shutdown q' = Some m ∧
      phase q' = ShutdownRecorded ∧ shutdown_recorded q' = true ∧ shutdown_forced q' = (deadline m <=? now)
  | LAlreadyAccepted => closed q = false ∧ shutdown_recorded q = true ∧ q' = q
  | LClosed => closed q = true ∧ q' = q
  end.
Proof.
  intros Hwf. unfold record_shutdown. destruct (closed q) eqn:Hcl; [split_and!; done|].
  destruct (shutdown_recorded q) eqn:Hsr; [split_and!; done|].
  destruct Hwf, q as [cf ph cl v di sd dl dr sr sf]; simpl in *. subst.
  unfold refresh_shutdown_force; simpl. destruct sf; [by specialize (cw_forced0 eq_refl)|]. simpl.
  destruct (deadline m <=? now) eqn:Hdl; split_and!; try done; split; simpl; try done.
  all: try (unfold usize_max; lia); try (by split; [|intros [? ?]]).
  all: by intros ? [= <-].
Qed.

Lemma finalize_shutdown_spec r m :
  core_wf r → phase r = ShutdownRecorded → shutdown r = Some m →
  let q' := (finalize_shutdown r (shutdown_forced r)).2 in
  core_wf q' ∧ closed q' = true ∧ shutdown q' = None ∧ config q' = config r ∧
  shutdown_recorded q' = true ∧ drain_ingress q' = drain_ingress r ∧
  shutdown_forced q' = shutdown_forced r ∧
  completion q' = (if shutdown_forced r then [] else completion r) ∧
  completion_abandoned_on_forced_shutdown_total q' =
    if shutdown_forced r
    then saturating_add u64_max (completion_abandoned_on_forced_shutdown_total r) (zlen (completion r))
    else completion_abandoned_on_forced_shutdown_total r.
Proof.
  intros Hwf Hph Hs. unfold finalize_shutdown. rewrite Hs.
  destruct (config_ok_bounds _ (cw_config _ Hwf)) as (? & _).
  destruct Hwf, r as [cf ph cl v di sd dl dr sr sf]; simpl in *. subst.
  destruct cw_phase_shutdown0 as [Hsr _]. specialize (Hsr eq_refl). subst sr.
  destruct sf; simpl; split_and!; try done; split; simpl; try done.
  all: unfold usize_max; try lia. all: try (unfold zlen; simpl; lia).
Qed.

Lemma pop_case_wf r e q' : core_wf r → pop_case r e q' → core_wf q' ∧ config q' = config r.
Proof.
  intros Hwf Hp. destruct Hp as [m v Hd|budget b rest v t1 t2 Hd Hc Hb Hz Hf Hbud|m Hd Hph Hs Hor|e q' Hd Hph Hpd Hor Ht|Hd Hs Hc Hn].
  - destruct Hwf, r; simpl in *. split; [|done]. split; simpl; done.
  - destruct Hwf, r; simpl in *. split; [|done]. subst.
    split; simpl; try done.
    + rewrite zlen_app in *. pose proof (zlen_nonneg b). lia.
    + pose proof (zlen_nonneg b). unfold saturating_add. lia.
  - edestruct finalize_shutdown_spec as (? & _ & _ & ? & _); try done.
  - destruct (take_next_normal_event_spec r Hpd) as (e' & k & q'' & Ht' & _ & Hb & Hbl & _).
    rewrite Ht in Ht'. simplify_eq. split; [|by apply sb_config].
    eapply same_base_wf; try done.
    + rewrite Hbl. done.
    + by rewrite (sb_phase _ _ Hb), Hph.
  - done.
Qed.

Lemma pop_case_forced r e q' : core_wf r → pop_case r e q' → shutdown_forced q' = shutdown_forced r.
Proof.
  intros Hwf Hp. destruct Hp as [m v Hd|budget b rest v t1 t2 Hd Hc Hb Hz Hf Hbud|m Hd Hph Hs Hor|e q' Hd Hph Hpd Hor Ht|].
  - by destruct r.
  - by destruct r.
  - by apply (finalize_shutdown_spec r m Hwf Hph Hs).
  - destruct (take_next_normal_event_spec r Hpd) as (e' & k & q'' & Ht' & _ & Hb & _).
    rewrite Ht in Ht'. simplify_eq. apply (sb_forced _ _ Hb).
  - done.
Qed.

(** ** Order of delivery

    The automaton of legal event sequences: a drain token at most once, no normal
    event after it, and nothing after the shutdown token. *)
Inductive Progress := Serving | Draining | Terminated.

Definition advance (st : Progress) (e : CoreControlEvent) : option Progress :=
  match st, e with
  | Terminated, _ => None
  | _, EvShutdown _ => Some Terminated
  | Serving, EvDrainIngress _ => Some Draining
  | Serving, _ => Some Serving
  | Draining, EvCompletionBatch _ => Some Draining
  | Draining, _ => None
  end.

Fixpoint progress_from (st : Progress) (es : list CoreControlEvent) : option Progress :=
  match es with
  | [] => Some st
  | e :: es => st' ← advance st e; progress_from st' es
  end.

Definition progress (es : list CoreControlEvent) : option Progress := progress_from Serving es.

Lemma progress_from_snoc st es e :
  progress_from st (es ++ [e]) = st' ← progress_from st es; advance st' e.
Proof.
  revert st. induction es as [|x es IH]; intros st; simpl.
  - by destruct (advance st e).
  - destruct (advance st x) as [st'|]; [apply IH|done].
Qed.

(** The state of the core that goes with each stage of delivery. *)
Definition progress_ok (st : Progress) (q : Inner) : Prop :=
  match st with
  | Serving => (drain_ingress_recorded q = true → is_Some (drain_ingress q)) ∧
      (shutdown_recorded q = true → is_Some (shutdown q))
  | Draining => drain_ingress_recorded q = true ∧ drain_ingress q = None ∧
      (shutdown_recorded q = true → is_Some (shutdown q))
  | Terminated => closed q = true ∧ shutdown_recorded q = true ∧ shutdown q = None ∧
      drain_ingress q = None ∧ completion q = []
  end.

Definition delivered (es : list CoreControlEvent) : list CompletionMsg := concat (batch_of <$> es).

Lemma delivered_snoc es e : delivered (es ++ [e]) = delivered es ++ batch_of e.
Proof. unfold delivered. rewrite fmap_app, concat_app. simpl. by rewrite app_nil_r. Qed.

Record hist_ok (h : History) (st : Progress) (lost : list CompletionMsg) : Prop := {
  ho_wf : core_wf (core h);
  ho_progress : progress (events h) = Some st;
  ho_stage : progress_ok st (core h);
  ho_log : sent h = delivered (events h) ++ lost ++ completion (core h);
  ho_lost : lost ≠ [] → st = Terminated ∧ shutdown_forced (core h) = true;
  ho_abandoned : completion_abandoned_on_forced_shutdown_total (core h) = Z.min u64_max (zlen lost);
}.

Lemma same_life_progress st q q' :
  same_life q q' → (closed q = true → completion q' = completion q) → progress_ok st q → progress_ok st q'.
Proof.
  intros [E1 E2 E3 E4 E5 E6 E7 E8 _ _ _ _ _] Hc. destruct st; simpl; rewrite ?E3, ?E4, ?E5, ?E7, ?E8; try done.
  intros (Hcl & ? & ? & ? & ?). rewrite Hc by done. done.
Qed.

Lemma hist_ok_start c : config_ok c → hist_ok (start c) Serving [].
Proof. intros Hc. split; simpl; try done. by apply new_core_wf. Qed.

(** One delivery. *)
Lemma hist_ok_pop h st lost now e q' :
  hist_ok h st lost → pop_case (refresh_in_shutdown (core h) now) e q' →
  ∃ st' lost', hist_ok (mkHistory q' (sent h) (events h ++ option_list e)) st' lost'.
Proof.
  intros [Hwf Hp Hst Hlog Hlost Hab] Hpop.
  destruct (refresh_same_life (core h) now) as [Hl Hc].
  apply (same_life_progress _ _ _ Hl) in Hst; [|done]. apply (refresh_wf _ now) in Hwf.
  assert (lost ≠ [] → st = Terminated ∧ shutdown_forced (refresh_in_shutdown (core h) now) = true) as Hlost'.
  { intros Hne. destruct (Hlost Hne) as [-> Hf]. split; [done|]. by apply (sl_forced _ _ Hl). }
  rewrite <-(sl_abandoned _ _ Hl) in Hab. rewrite <-Hc in Hlog. clear Hlost Hl Hc.
  set (r := refresh_in_shutdown (core h) now) in *. clearbody r.
  destruct (pop_case_wf r e q' Hwf Hpop) as [Hwf' _].
  destruct Hpop as [m v Hd|budget b rest v t1 t2 Hd Hc Hb Hz Hf Hbud|m Hd Hph Hs Hor|e q' Hd Hph Hpd Hor Ht|Hd Hs Hc Hn]; simpl.
  - (* drain token *)
    exists Draining, lost. destruct st; simpl in Hst.
    2,3: destruct Hst; rewrite Hd in *; intuition congruence.
    pose proof (cw_drain _ Hwf ltac:(by rewrite Hd)). split; simpl; try done.
    + unfold progress in *. rewrite progress_from_snoc, Hp. done.
    + destruct Hst, r; simpl in *. done.
    + rewrite delivered_snoc. simpl. rewrite app_nil_r. by destruct r.
    + intros Hne. by destruct (Hlost' Hne).
  - (* completion batch *)
    exists st, lost. assert (st ≠ Terminated) as Hnt.
    { intros ->. destruct Hst as (_ & _ & _ & _ & Hnil). rewrite Hc in Hnil. by destruct b. }
    assert (lost = []) as ->.
    { destruct lost; [done|]. by destruct Hlost'. }
    split; simpl; try done.
    + unfold progress in *. rewrite progress_from_snoc, Hp. by destruct st.
    + destruct st, r; simpl in *; done.
    + rewrite Hlog, Hc, delivered_snoc. simpl. rewrite <-app_assoc. by destruct r.
  - (* shutdown token *)
    destruct (finalize_shutdown_spec r m Hwf Hph Hs) as (_ & H1 & H2 & _ & H3 & H4 & H5 & H6 & H7).
    exists Terminated, (if shutdown_forced r then completion r else []).
    assert (st ≠ Terminated) as Hnt.
    { intros ->. destruct Hst as (_ & _ & Hx & _). congruence. }
    assert (lost = []) as ->.
    { destruct lost; [done|]. by destruct Hlost'. }
    split; simpl; try done.
    + unfold progress in *. rewrite progress_from_snoc, Hp. by destruct st.
    + split_and!; try done; [congruence|]. rewrite H6. destruct Hor as [->|Hx]; [done|]. rewrite Hx. by destruct (shutdown_forced r).
    + rewrite H6, Hlog, delivered_snoc. simpl. rewrite app_nil_r.
      destruct (shutdown_forced r); [by rewrite app_nil_r|done].
    + intros Hne. split; [done|]. destruct (shutdown_forced r) eqn:Hsf; [congruence|done].
    + rewrite H7, Hab. destruct (shutdown_forced r); [|done]. unfold saturating_add.
      pose proof (zlen_nonneg (completion r)). change (zlen []) with 0. unfold u64_max. lia.
  - (* normal event *)
    destruct (take_next_normal_event_spec r Hpd) as (e' & k & q'' & Ht' & Hk & [E1 E2 E3 E4 E5 E6 E7 E8 E9 E10 E11] & _).
    rewrite Ht in Ht'. simplify_eq. exists st, lost.
    destruct (proj1 (cw_phase_normal _ Hwf) Hph) as [Hdr Hsr].
    destruct st; simpl in Hst; [|intuition congruence..].
    split; simpl; try done; rewrite ?E4, ?E5, ?E7, ?E8, ?E9, ?E10, ?E11; try done.
    + unfold progress in *. rewrite progress_from_snoc, Hp. by destruct e'.
    + rewrite delivered_snoc. destruct e'; simpl in *; try done; by rewrite app_nil_r.
  - exists st, lost. rewrite app_nil_r. by split.
Qed.

(** Operations that deliver nothing and accept no completion. *)
Lemma hist_ok_core h st lost q' :
  hist_ok h st lost → core_wf q' → progress_ok st q' → completion q' = completion (core h) →
  (shutdown_forced (core h) = true → shutdown_forced q' = true) →
  completion_abandoned_on_forced_shutdown_total q' =
    completion_abandoned_on_forced_shutdown_total (core h) →
  hist_ok (h <| core := q' |>) st lost.
Proof.
  intros [Hwf Hp Hst Hlog Hlost Hab] Hwf' Hst' Hc Hf Ha. destruct h; simpl in *.
  split; simpl; try done; [congruence| |congruence]. intros Hne. destruct (Hlost Hne). auto.
Qed.

Lemma hist_ok_step h st lost op :
  hist_ok h st lost →
  ∃ h' st' lost', step h op = Some h' ∧ hist_ok h' st' lost' ∧ config (core h') = config (core h).
Proof.
  intros Hok. pose proof (ho_wf _ _ _ Hok) as Hwf. pose proof (ho_stage _ _ _ Hok) as Hst.
  destruct op as [cmd now|m now|m now|now|]; simpl.
  - pose proof (try_send_spec (core h) cmd now Hwf) as Hspec.
    destruct (try_send (core h) cmd now) as [r q']. destruct Hspec as (Hwf' & Hl & Hr).
    eexists _, st, lost. split; [done|]. split; [|apply (sl_config _ _ Hl)].
    assert (completion q' = completion (core h) ++ (if is_ok r then completion_of cmd else []) ∧
      (closed (core h) = true → completion q' = completion (core h))) as [Hc Hcl].
    { destruct r as [?|[|]]; simpl; rewrite ?app_nil_r; [|by destruct Hr..].
      destruct Hr as (? & ? & _). split; [done|congruence]. }
    destruct Hok as [_ Hp _ Hlog Hlost Hab]. split; simpl; try done.
    + by eapply same_life_progress.
    + by rewrite Hlog, Hc, <-!app_assoc.
    + intros Hne. destruct (Hlost Hne). split; [done|]. by apply (sl_forced _ _ Hl).
    + by rewrite (sl_abandoned _ _ Hl).
  - pose proof (record_drain_ingress_spec (core h) m now Hwf) as Hspec.
    destruct (record_drain_ingress (core h) m now) as [r q']. destruct Hspec as (? & Hc & Hcf & ? & Hsd & Hsr & ? & ? & Hr).
    eexists _, st, lost. split; [done|]. split; [|by destruct h]. apply hist_ok_core; try done.
    destruct r.
    + destruct Hr as (Hcl & Hnr & Hd & Hdr & _). destruct st; simpl in *; rewrite ?Hsd, ?Hsr, ?Hd; try done.
      * by destruct Hst.
      * destruct Hst. congruence.
      * destruct Hst. congruence.
    + destruct Hr as (_ & _ & Hl). by eapply same_life_progress.
    + destruct Hr as (_ & Hl). by eapply same_life_progress.
  - pose proof (record_shutdown_spec (core h) m now Hwf) as Hspec.
    destruct (record_shutdown (core h) m now) as [r q']. destruct Hspec as (? & Hc & Hcf & ? & Hd & Hdr & ? & ? & Hr).
    eexists _, st, lost. split; [done|]. split; [|by destruct h]. apply hist_ok_core; try done.
    destruct r; [|by destruct Hr as (_ & _ & ->)|by destruct Hr as (_ & ->)].
    destruct Hr as (Hcl & Hnr & Hs & _). destruct st; simpl in *; rewrite ?Hd, ?Hdr, ?Hs.
    + by destruct Hst.
    + by destruct Hst as (? & ? & _).
    + destruct Hst. congruence.
  - destruct (pop_event_cases (core h) now Hwf) as (e & q' & -> & Hpop).
    destruct (hist_ok_pop _ _ _ _ _ _ Hok Hpop) as (st' & lost' & ?).
    eexists _, st', lost'. split; [done|]. split; [done|]. simpl.
    destruct (pop_case_wf _ _ _ (refresh_wf _ now Hwf) Hpop) as [_ ->].
    by destruct (refresh_same_life (core h) now) as [[] _].
  - eexists _, st, lost. split; [done|]. split; [|unfold close; destruct h as [[] ? ?]; simpl; by case_match].
    unfold close. destruct (closed (core h)) eqn:Hcl; simpl.
    + apply hist_ok_core; done.
    + apply hist_ok_core; try done.
      * destruct Hwf, (core h); simpl in *. split; simpl; done.
      * destruct st, (core h); simpl in *; intuition congruence.
Qed.

Lemma hist_ok_run ops h st lost :
  hist_ok h st lost →
  ∃ h' st' lost', run h ops = Some h' ∧ hist_ok h' st' lost' ∧ config (core h') = config (core h).
Proof.
  revert h st lost. induction ops as [|op ops IH]; intros h st lost Hok; simpl; [eauto 10|].
  destruct (hist_ok_step h st lost op Hok) as (h1 & st1 & lost1 & -> & Hok1 & Hc1). simpl.
  destruct (IH _ _ _ Hok1) as (h2 & st2 & lost2 & ? & ? & ?). exists h2, st2, lost2. split_and!; congruence.
Qed.

(** ** Fairness *)

(** Bound on the deliveries that can precede class [k]. *)
Definition rank (q : Inner) (k : NormalEventClass) : Z :=
  let limit := completion_burst_limit (config q) in
  distance (next_normal_event q) k * (limit + 1) + (limit - Z.min (completion_burst_len q) limit).

Lemma distance_bounds c k : 0 ≤ distance c k ≤ 2.
Proof. by destruct c, k. Qed.

Lemma rank_bounds q k : core_wf q → 0 ≤ rank q k < 3 * (completion_burst_limit (config q) + 1).
Proof.
  intros Hwf. destruct (config_ok_bounds _ (cw_config _ Hwf)) as (_ & _ & ?).
  pose proof (cw_burst _ Hwf). pose proof (distance_bounds (next_normal_event q) k). unfold rank. nia.
Qed.

Lemma rank_same_life q q' k : same_life q q' → rank q' k = rank q k.
Proof. intros []. unfold rank. congruence. Qed.

Lemma pop_serves q now k :
  core_wf q → phase q = Normal → pending q k = true →
  ∃ e q', pop_event q now = Some (Some e, q') ∧
  (class_of e = Some k ∨ phase q' = Normal ∧ pending q' k = true ∧ rank q' k < rank q k).
Proof.
  intros Hwf Hph Hk. destruct (pop_event_cases q now Hwf) as (e & q' & Hpop & Hcase). rewrite Hpop.
  destruct (refresh_same_life q now) as [Hl _]. pose proof (refresh_wf q now Hwf) as Hr.
  rewrite <-(rank_same_life _ _ k Hl), <-(sl_phase _ _ Hl) in *. apply (sl_pending _ _ Hl) in Hk.
  set (r := refresh_in_shutdown q now) in *. clearbody r. clear Hl Hpop.
  destruct (proj1 (cw_phase_normal _ Hr) Hph) as [Hdr _].
  assert (has_pending_normal_event r = true) as Hp by (apply has_pending_spec; eauto).
  destruct Hcase as [m v Hd|budget b rest v t1 t2 Hd Hc Hb Hz Hf Hbud|m Hd Hph' Hs Hor|e q' Hd _ _ Hor Ht|Hd Hs Hc Hn].
  - pose proof (cw_drain _ Hr ltac:(by rewrite Hd)). congruence.
  - eexists _, _. split; [done|]. right.
    destruct Hbud as [[-> Hn]|(_ & _ & Hlt & ->)]; [rewrite Hn in Hp by done; done|].
    assert (completion r ≠ []) as Hne by (rewrite Hc; by destruct b).
    destruct (batch_size_bounds r (Some (completion_burst_limit (config r) - completion_burst_len r)) Hr Hne) as [Hsz _].
    pose proof (cw_burst _ Hr) as Hbu. destruct (cw_config _ Hr) as (_ & _ & _ & Hlim).
    destruct r; simpl in *. split_and!; try done. unfold rank; simpl. unfold saturating_add. lia.
  - congruence.
  - destruct (take_next_normal_event_spec r Hp) as (e' & k' & q'' & Ht' & Hk' & Hb & Hbl & _ & Hpd & Hdist).
    rewrite Ht in Ht'. simplify_eq. eexists _, _. split; [done|].
    destruct (decide (k = k')) as [->|Hne]; [by left|right].
    assert (pending q'' k = true) as Hpk by (rewrite Hpd, Hk; by rewrite bool_decide_eq_false_2).
    split_and!; [by rewrite (sb_phase _ _ Hb)|done|]. specialize (Hdist k Hpk).
    destruct (config_ok_bounds _ (cw_config _ Hr)) as (_ & _ & ?). pose proof (cw_burst _ Hr).
    pose proof (distance_bounds (next_normal_event q'') k).
    unfold rank. rewrite (sb_config _ _ Hb), Hbl. nia.
  - rewrite Hn in Hp by done. done.
Qed.

Definition is_pop (op : Op) : bool := match op with OpPop _ => true | _ => false end.
Definition is_lifecycle (op : Op) : bool :=
  match op with OpRecordDrain _ _ | OpRecordShutdown _ _ => true | _ => false end.
Definition pops (ops : list Op) : Z := zlen (filter (λ op, is_pop op = true) ops).

Lemma step_events h op h' : step h op = Some h' → ∃ new, events h' = events h ++ new.
Proof.
  destruct op as [cmd now|m now|m now|now|]; simpl; intros E.
  - destruct (try_send _ _ _). simplify_eq. exists []. by rewrite app_nil_r.
  - simplify_eq. exists []. rewrite app_nil_r. by destruct h.
  - simplify_eq. exists []. rewrite app_nil_r. by destruct h.
  - destruct (pop_event (core h) now) as [[e q]|]; simplify_eq/=. eauto.
  - simplify_eq. exists []. rewrite app_nil_r. by destruct h.
Qed.

Lemma run_events ops h h' : run h ops = Some h' → ∃ new, events h' = events h ++ new.
Proof.
  revert h. induction ops as [|op ops IH]; intros h; simpl.
  - intros [= <-]. exists []. by rewrite app_nil_r.
  - destruct (step h op) as [h1|] eqn:Hs; [|done]. simpl. intros Hr.
    destruct (step_events _ _ _ Hs) as [n1 E1]. destruct (IH _ Hr) as [n2 E2].
    exists (n1 ++ n2). by rewrite E2, E1, app_assoc.
Qed.

(** A step other than a lifecycle one either serves class [k] or keeps it pending,
    and a delivery lowers its rank. *)
Lemma step_serves h st lost op k :
  hist_ok h st lost → phase (core h) = Normal → pending (core h) k = true → is_lifecycle op = false →
  ∃ h', step h op = Some h' ∧
  ((∃ e, events h' = events h ++ [e] ∧ class_of e = Some k) ∨
   phase (core h') = Normal ∧ pending (core h') k = true ∧
   rank (core h') k + Z.b2z (is_pop op) ≤ rank (core h) k).
Proof.
  intros Hok Hph Hk Hop. pose proof (ho_wf _ _ _ Hok) as Hwf. destruct op as [cmd now|m now|m now|now|]; try done; simpl.
  - pose proof (try_send_spec (core h) cmd now Hwf) as Hspec.
    destruct (try_send (core h) cmd now) as [r q']. destruct Hspec as (_ & Hl & _).
    eexists. split; [done|]. right. simpl. rewrite (rank_same_life _ _ k Hl), (sl_phase _ _ Hl).
    split_and!; [done|by apply (sl_pending _ _ Hl)|lia].
  - destruct (pop_serves (core h) now k Hwf Hph Hk) as (e & q' & -> & He). simpl.
    eexists. split; [done|]. simpl. destruct He as [He|(? & ? & ?)]; [left; eauto|right; split_and!; try done; lia].
  - eexists. split; [done|]. right. unfold close. destruct h as [q sn ev]; simpl in *.
    destruct (closed q); simpl; [split_and!; try done; lia|]. destruct q; simpl in *. split_and!; try done. unfold rank; simpl. lia.
Qed.

Lemma fair_run ops h st lost k :
  hist_ok h st lost → phase (core h) = Normal → pending (core h) k = true →
  Forall (λ op, is_lifecycle op = false) ops → rank (core h) k < pops ops →
  ∃ h' new e, run h ops = Some h' ∧ events h' = events h ++ new ∧ e ∈ new ∧ class_of e = Some k.
Proof.
  revert h st lost. induction ops as [|op ops IH]; intros h st lost Hok Hph Hk Hops Hrank.
  { pose proof (rank_bounds (core h) k (ho_wf _ _ _ Hok)). change (pops []) with 0 in Hrank. lia. }
  apply Forall_cons in Hops as [Hop Hops]. simpl.
  destruct (step_serves h st lost op k Hok Hph Hk Hop) as (h1 & Hs & Hcase).
  destruct (hist_ok_step h st lost op Hok) as (h1' & st1 & lost1 & Hs' & Hok1 & _).
  rewrite Hs in Hs'. simplify_eq. rewrite Hs. simpl.
  destruct Hcase as [(e & He & Hek)|(Hph1 & Hk1 & Hr1)].
  - destruct (hist_ok_run ops h1' st1 lost1 Hok1) as (h2 & _ & _ & Hrun & _).
    destruct (run_events _ _ _ Hrun) as [n2 E2]. exists h2, ([e] ++ n2), e.
    split_and!; [done|by rewrite E2, He, app_assoc|by left|done].
  - assert (pops (op :: ops) = pops ops + Z.b2z (is_pop op)) as Hpops.
    { unfold pops. rewrite filter_cons. destruct (is_pop op); simpl; rewrite ?zlen_cons; lia. }
    destruct (IH h1' st1 lost1) as (h2 & n2 & e & ? & E2 & ? & ?); try done; [lia|].
    destruct (step_events _ _ _ Hs) as [n1 E1]. exists h2, (n1 ++ n2), e.
    split_and!; try done; [by rewrite E2, E1, app_assoc|]. apply elem_of_app. by right.
Qed.

(** ** Shutdown *)

Lemma terminated_silent h lost ops :
  hist_ok h Terminated lost → ∃ h', run h ops = Some h' ∧ events h' = events h.
Proof.
  intros Hok. destruct (hist_ok_run ops h _ _ Hok) as (h' & st' & lost' & Hr & Hok' & _).
  exists h'. split; [done|]. destruct (run_events _ _ _ Hr) as [new Hn]. rewrite Hn.
  destruct new as [|e new]; [by rewrite app_nil_r|].
  pose proof (ho_progress _ _ _ Hok') as Hp. pose proof (ho_progress _ _ _ Hok) as Hp0.
  rewrite Hn in Hp. unfold progress in *. exfalso. revert Hp Hp0. generalize Serving, (events h).
  intros st es. revert st. induction es as [|x es IH]; intros st; simpl.
  - by intros Hx [= ->].
  - destruct (advance st x); [apply IH|done].
Qed.

Lemma pops_terminate ts h st lost m :
  hist_ok h st lost → shutdown (core h) = Some m → drain_ingress (core h) = None →
  (length (completion (core h)) < length ts)%nat →
  ∃ h' bs, run h (OpPop <$> ts) = Some h' ∧
    events h' = events h ++ (EvCompletionBatch <$> bs) ++ [EvShutdown m] ∧
    concat bs `prefix_of` completion (core h) ∧
    (shutdown_forced (core h) = false → Forall (λ t, t < deadline m) ts → concat bs = completion (core h)).
Proof.
  revert h st lost. induction ts as [|t ts IH]; intros h st lost Hok Hs Hd Hlen; [simpl in Hlen; lia|].
  simpl. pose proof (ho_wf _ _ _ Hok) as Hwf.
  destruct (pop_event_cases (core h) t Hwf) as (e & q' & -> & Hcase). simpl.
  destruct (hist_ok_pop _ _ _ _ _ _ Hok Hcase) as (st1 & lost1 & Hok1).
  destruct (refresh_same_life (core h) t) as [Hl Hc]. destruct (refresh_in_shutdown_eq (core h) t) as [v0 Hfr].
  assert (phase (core h) = ShutdownRecorded) as Hph.
  { apply (cw_phase_shutdown _ Hwf), (cw_shutdown _ Hwf). by rewrite Hs. }
  assert (shutdown_forced (core h) = false → t < deadline m →
    shutdown_forced (refresh_in_shutdown (core h) t) = false) as Hnf.
  { intros Hf Ht. rewrite Hfr. pose proof (cw_deadline _ Hwf m Hs) as Hdl.
    destruct (core h); simpl in *. subst. simpl. by apply Z.leb_gt. }
  rewrite <-(sl_shutdown _ _ Hl) in Hs. rewrite <-(sl_drain _ _ Hl) in Hd. rewrite <-(sl_phase _ _ Hl) in Hph.
  rewrite <-Hc in *. clear Hfr Hl Hc. set (r := refresh_in_shutdown (core h) t) in *. clearbody r.
  destruct Hcase as [m' v Hd'|budget b rest v t1 t2 _ Hc Hb Hz Hf Hbud|m' _ _ Hs' Hor|e q' _ Hph' _ _ _|_ Hs' _ _].
  - congruence.
  - destruct (IH _ _ _ Hok1) as (h' & bs & Hr & He & Hpre & Hall); simpl; try by destruct r.
    { destruct r; simpl in *; subst. rewrite length_app in Hlen. destruct b; [done|]. simpl in Hlen. lia. }
    exists h', (b :: bs). simpl in *. split_and!; [done| | |].
    + by rewrite He, <-!app_assoc.
    + rewrite Hc. apply prefix_app. by destruct r.
    + intros Hf0 [Ht Hts]%Forall_cons. rewrite Hc. f_equal. replace rest with (completion (r <| completion := rest |>)) by (by destruct r).
      destruct r; simpl in *. apply Hall; auto.
  - simplify_eq. assert (st1 = Terminated) as ->.
    { pose proof (ho_progress _ _ _ Hok1) as Hp. unfold progress in Hp. simpl in Hp.
      rewrite progress_from_snoc in Hp. fold (progress (events h)) in Hp.
      rewrite (ho_progress _ _ _ Hok) in Hp. destruct st; by simplify_eq/=. }
    destruct (terminated_silent _ _ (OpPop <$> ts) Hok1) as (h' & Hr & He).
    exists h', []. simpl in *. split_and!; [done|done|apply prefix_nil|].
    intros Hf0 [Ht _]%Forall_cons. destruct Hor as [Hor|Hor]; [|done]. rewrite Hnf in Hor by done. done.
  - congruence.
  - destruct (Hs' Hph). congruence.
Qed.

Lemma drain_kept h st lost op m :
  hist_ok h st lost → drain_ingress (core h) = Some m → is_pop op = false →
  ∃ h' st' lost', step h op = Some h' ∧ hist_ok h' st' lost' ∧
  drain_ingress (core h') = Some m ∧ events h' = events h.
Proof.
  intros Hok Hd Hop. destruct (hist_ok_step h st lost op Hok) as (h' & st' & lost' & Hs & Hok' & _).
  exists h', st', lost'. split; [done|]. split; [done|]. pose proof (ho_wf _ _ _ Hok) as Hwf.
  destruct op as [cmd now|m' now|m' now|now|]; try done; simpl in Hs.
  - pose proof (try_send_spec (core h) cmd now Hwf) as Hspec. destruct (try_send _ _ _) as [r q'].
    simplify_eq. simpl. destruct Hspec as (_ & Hl & _). by rewrite (sl_drain _ _ Hl).
  - pose proof (record_drain_ingress_spec (core h) m' now Hwf) as Hspec.
    destruct (record_drain_ingress _ _ _) as [r q']. simplify_eq.
    destruct Hspec as (_ & _ & _ & _ & _ & _ & _ & _ & Hr). destruct h; simpl in *. split; [|done].
    pose proof (cw_drain _ Hwf ltac:(by rewrite Hd)). destruct r.
    + destruct Hr as (_ & ? & _). congruence.
    + destruct Hr as (_ & _ & Hl). by rewrite (sl_drain _ _ Hl).
    + destruct Hr as (_ & Hl). by rewrite (sl_drain _ _ Hl).
  - pose proof (record_shutdown_spec (core h) m' now Hwf) as Hspec.
    destruct (record_shutdown _ _ _) as [r q']. simplify_eq.
    destruct Hspec as (_ & _ & _ & _ & Hdr & _). destruct h; simpl in *. split; [congruence|done].
  - simplify_eq. unfold close. destruct h as [q ? ?]; simpl in *. split; [|done].
    destruct (closed q); [done|]. by destruct q.
Qed.

Lemma drain_first ops now h st lost m :
  hist_ok h st lost → drain_ingress (core h) = Some m → Forall (λ op, is_pop op = false) ops →
  ∃ h', run h (ops ++ [OpPop now]) = Some h' ∧ events h' = events h ++ [EvDrainIngress m].
Proof.
  revert h st lost. induction ops as [|op ops IH]; intros h st lost Hok Hd Hops; simpl.
  - pose proof (ho_wf _ _ _ Hok) as Hwf. destruct (pop_event_cases (core h) now Hwf) as (e & q' & -> & Hcase).
    simpl. eexists. split; [done|]. simpl. destruct (refresh_same_life (core h) now) as [Hl _].
    rewrite <-(sl_drain _ _ Hl) in Hd. by destruct Hcase; simplify_eq.
  - apply Forall_cons in Hops as [Hop Hops].
    destruct (drain_kept h st lost op m Hok Hd Hop) as (h1 & st1 & lost1 & -> & Hok1 & Hd1 & He1). simpl.
    destruct (IH _ _ _ Hok1 Hd1 Hops) as (h2 & ? & E). exists h2. split; [done|]. congruence.
Qed.

Lemma terminated_shutdown_event st es :
  progress_from st es = Some Terminated → st ≠ Terminated → ∃ m, EvShutdown m ∈ es.
Proof.
  revert st. induction es as [|e es IH]; intros st; simpl; [congruence|].
  destruct (advance st e) as [st'|] eqn:Ha; [|done]. simpl. intros Hp Hne.
  destruct st' eqn:Hst'; cycle 2.
  - destruct st, e as [| | | | |m]; simplify_eq/=; exists m; left.
  - destruct (IH _ Hp) as [m Hm]; [done|exists m; by right].
  - destruct (IH _ Hp) as [m Hm]; [done|exists m; by right].
Qed.

(** ** Properties *)

(** C12: completions are bounded and lossless: whatever is sent, recorded, popped and
    closed, in any order and at any instants, no operation panics; the accepted
    completion messages are exactly those delivered, in order, followed by those
    abandoned and those still queued; messages are abandoned only by the delivery
    of a forced shutdown, and the abandonment counter counts them; the queue never
    exceeds its capacity. *)
Theorem completions_lossless_bounded c ops :
  config_ok c →
  ∃ h lost, run (start c) ops = Some h ∧
    sent h = delivered (events h) ++ lost ++ completion (core h) ∧
    zlen (completion (core h)) ≤ completion_msg_capacity c ∧
    (lost ≠ [] → shutdown_forced (core h) = true ∧ ∃ m, EvShutdown m ∈ events h) ∧
    completion_abandoned_on_forced_shutdown_total (core h) = Z.min u64_max (zlen lost).
Proof.
  intros Hc. destruct (hist_ok_run ops _ _ _ (hist_ok_start c Hc)) as (h & st & lost & Hr & Hok & Hcf).
  exists h, lost. destruct Hok as [Hwf Hp Hst Hlog Hlost Hab]. split_and!; try done.
  - pose proof (cw_capacity _ Hwf) as Hx. by rewrite Hcf in Hx.
  - intros Hne. destruct (Hlost Hne) as [-> Hf]. split; [done|]. by eapply terminated_shutdown_event.
Qed.

(** C27: every sequence of delivered events is legal: at most one drain token, no
    configuration, timer or telemetry event after it, at most one shutdown token,
    and nothing at all after the shutdown token. *)
Theorem deliveries_ordered c ops h :
  config_ok c → run (start c) ops = Some h → is_Some (progress (events h)).
Proof.
  intros Hc Hr. destruct (hist_ok_run ops _ _ _ (hist_ok_start c Hc)) as (h' & st & lost & Hr' & Hok & _).
  rewrite Hr in Hr'. simplify_eq. exists st. apply (ho_progress _ _ _ Hok).
Qed.

(** C28: bounded waiting: while no lifecycle token is recorded, a pending configuration,
    timer tick or telemetry request is delivered within [3 * (burst_limit + 1)]
    deliveries, however many completions keep arriving in between. *)
Theorem normal_work_served c ops0 ops h k :
  config_ok c → run (start c) ops0 = Some h →
  phase (core h) = Normal → pending (core h) k = true →
  Forall (λ op, is_lifecycle op = false) ops →
  3 * (completion_burst_limit c + 1) ≤ pops ops →
  ∃ h' new e, run h ops = Some h' ∧ events h' = events h ++ new ∧ e ∈ new ∧ class_of e = Some k.
Proof.
  intros Hc Hr Hph Hk Hops Hn.
  destruct (hist_ok_run ops0 _ _ _ (hist_ok_start c Hc)) as (h' & st & lost & Hr' & Hok & Hcf).
  rewrite Hr in Hr'. simplify_eq. eapply fair_run; try done.
  pose proof (rank_bounds (core h') k (ho_wf _ _ _ Hok)) as Hb. rewrite Hcf in Hb. simpl in Hb. lia.
Qed.

(** an accepted drain token is the very next event delivered, whatever is sent,
    recorded or closed before the next delivery and however full the completion
    queue is. *)
Theorem drain_delivered_next c ops0 h m now ops now' q' :
  config_ok c → run (start c) ops0 = Some h →
  record_drain_ingress (core h) m now = (LAccepted, q') →
  Forall (λ op, is_pop op = false) ops →
  ∃ h', run h (OpRecordDrain m now :: ops ++ [OpPop now']) = Some h' ∧
    events h' = events h ++ [EvDrainIngress m].
Proof.
  intros Hc Hr Hrec Hops.
  destruct (hist_ok_run ops0 _ _ _ (hist_ok_start c Hc)) as (h0 & st & lost & Hr' & Hok & _).
  rewrite Hr in Hr'. simplify_eq. simpl. rewrite Hrec. simpl.
  destruct (hist_ok_step h0 st lost (OpRecordDrain m now) Hok) as (h1 & st1 & lost1 & Hs & Hok1 & _).
  simpl in Hs. rewrite Hrec in Hs. simplify_eq/=.
  pose proof (record_drain_ingress_spec (core h0) m now (ho_wf _ _ _ Hok)) as Hspec. rewrite Hrec in Hspec.
  destruct Hspec as (_ & _ & _ & _ & _ & _ & _ & _ & _ & _ & Hd & _).
  destruct (drain_first ops now' _ _ _ m Hok1) as (h' & ? & E); [by destruct h0|done|].
  exists h'. split; [done|]. rewrite E. by destruct h0.
Qed.

(** C29: once shutdown is recorded it terminates: as many deliveries as there are queued
    completions, plus one (plus one more for a pending drain token), end with the
    shutdown token; the batches before it are a prefix of the queue in order, and
    the whole queue when every delivery happens before the deadline. *)
Theorem shutdown_terminates c ops0 h m ts :
  config_ok c → run (start c) ops0 = Some h → shutdown (core h) = Some m →
  (length (completion (core h)) + length (option_list (drain_ingress (core h))) < length ts)%nat →
  ∃ h' bs, run h (OpPop <$> ts) = Some h' ∧
    events h' = events h ++ (EvDrainIngress <$> option_list (drain_ingress (core h))) ++
                (EvCompletionBatch <$> bs) ++ [EvShutdown m] ∧
    concat bs `prefix_of` completion (core h) ∧
    (shutdown_forced (core h) = false → Forall (λ t, t < deadline m) ts → concat bs = completion (core h)).
Proof.
  intros Hc Hr Hs Hlen.
  destruct (hist_ok_run ops0 _ _ _ (hist_ok_start c Hc)) as (h0 & st & lost & Hr' & Hok & _).
  rewrite Hr in Hr'. simplify_eq. destruct (drain_ingress (core h0)) as [d|] eqn:Hd; simpl in *.
  2: { eapply pops_terminate; try done. lia. }
  destruct ts as [|t ts]; [simpl in Hlen; lia|]. simpl in *.
  pose proof (ho_wf _ _ _ Hok) as Hwf.
  destruct (pop_event_cases (core h0) t Hwf) as (e & q' & Hpop & Hcase). rewrite Hpop. simpl.
  destruct (hist_ok_pop _ _ _ _ _ _ Hok Hcase) as (st1 & lost1 & Hok1).
  destruct (refresh_same_life (core h0) t) as [Hl Hcm]. destruct (refresh_in_shutdown_eq (core h0) t) as [v0 Hfr].
  pose proof (cw_deadline _ Hwf m Hs) as Hdl. rewrite <-(sl_drain _ _ Hl) in Hd.
  destruct Hcase as [d' v Hd'| | | |]; simplify_eq.
  destruct (pops_terminate ts _ _ _ m Hok1) as (h' & bs & ? & E & Hpre & Hall); simpl in *.
  - rewrite Hfr. by destruct (core h0).
  - by destruct (refresh_in_shutdown (core h0) t).
  - rewrite Hfr. destruct (core h0); simpl in *. lia.
  - rewrite Hfr in Hpre, Hall. exists h', bs. split_and!; [done|by rewrite E, <-!app_assoc|by destruct (core h0)|].
    intros Hf [Ht Hts]%Forall_cons. destruct (core h0); simpl in *; subst. apply Hall; [|done].
    simpl. rewrite (proj2 (Z.leb_gt _ _)) by done. apply andb_false_r.
Qed.

End core.

(** A small channel: capacity 4, batches of 2, bursts of 2. *)
Definition demo_config : ControlChannelConfig := mkConfig 4 2 2.

Lemma demo_config_ok : config_ok demo_config.
Proof. by vm_compute. Qed.

Definition demo_ack (n : nat) (now : Z) : @Op nat unit nat := OpTrySend (CmdAck (mkAck n tt)) now.

(** Three acknowledgements and a timer tick. *)
Definition demo_traffic : list (@Op nat unit nat) :=
  [demo_ack 1 0; demo_ack 2 0; demo_ack 3 0; OpTrySend CmdTimerTick 0].

Lemma completions_lossless_bounded_witness :
  ∃ h lost, run (start demo_config)
      (demo_traffic ++ [OpPop 1; OpRecordShutdown (mkShutdown 5 EmptyString) 2; OpPop 9]) = Some h ∧
    sent h = delivered (events h) ++ lost ++ completion (core h).
Proof.
  destruct (completions_lossless_bounded demo_config
    (demo_traffic ++ [OpPop 1; OpRecordShutdown (mkShutdown 5 EmptyString) 2; OpPop 9]) demo_config_ok)
    as (h & lost & Hr & Hs & _).
  by exists h, lost.
Defined.

Lemma deliveries_ordered_witness :
  match run (start demo_config) (demo_traffic ++ [OpPop 1; OpPop 1; OpRecordDrain (mkDrainIngress 5 EmptyString) 2; OpPop 3]) with
  | Some h => is_Some (progress (events h))
  | None => False
  end.
Proof.
  destruct (run (start demo_config) _) as [h|] eqn:E; [|by vm_compute in E].
  exact (deliveries_ordered demo_config _ h demo_config_ok E).
Defined.

Lemma normal_work_served_witness :
  match run (start demo_config) demo_traffic with
  | Some h => ∃ h' new e, run h (replicate 9 (OpPop 1)) = Some h' ∧ events h' = events h ++ new ∧
      e ∈ new ∧ class_of e = Some ClassTimerTick
  | None => False
  end.
Proof.
  destruct (run (start demo_config) demo_traffic) as [h|] eqn:E; [|by vm_compute in E].
  apply (normal_work_served demo_config demo_traffic (replicate 9 (OpPop 1)) h ClassTimerTick demo_config_ok E).
  - vm_compute in E. by injection E as <-.
  - vm_compute in E. by injection E as <-.
  - by apply Forall_replicate.
  - by vm_compute.
Defined.

Lemma shutdown_terminates_witness :
  match run (start demo_config) (demo_traffic ++ [OpRecordShutdown (mkShutdown 5 EmptyString) 2]) with
  | Some h => ∃ h' bs, run h (OpPop <$> [3; 3; 3; 3]) = Some h' ∧
      concat bs = completion (core h)
  | None => False
  end.
Proof.
  destruct (run (start demo_config) _) as [h|] eqn:E; [|by vm_compute in E].
  destruct (shutdown_terminates demo_config _ h (mkShutdown 5 EmptyString) [3; 3; 3; 3] demo_config_ok E)
    as (h' & bs & Hr & _ & _ & Hall).
  - vm_compute in E. by injection E as <-.
  - vm_compute in E. injection E as <-. simpl. lia.
  - exists h', bs. split; [done|]. apply Hall; [vm_compute in E; by injection E as <-|by repeat constructor].
Defined.

End ControlCore.
