(* ===== verification/ControlChannel.v ===== *)
(** * The control channel around its queue core

    Models [crates/control-channel/src/channel.rs]: blocked completion senders in
    keyed waiter slots with tombstone accounting and queue compaction, the send
    future's retry loop, wake routing on delivery, and the drops of senders,
    receiver and futures.

    Wakers are identities [W].  Calls on tokio's [Notify] are recorded as effects.
    The sleep a blocked sender arms is tokio's: each round of the poll loop is
    given the clock reading of its [try_send] and whether its sleep has elapsed.
    Overflow checks and debug assertions are on, as in a debug build: an operation
    that would trip one returns [None]. *)
From S2P Require Import Prelude SlotOwners ControlCore.

Set Default Goal Selector "!".
Local Open Scope Z_scope.

Module ControlChannel.
Import ControlCore.

Section channel.
Context {PData Meta Json W : Type} `{EqDecision W}.

Record SenderWaiterKey := mkKey { index : nat; key_generation : Z }.
#[export] Instance SenderWaiterKey_eq_dec : EqDecision SenderWaiterKey.
Proof. solve_decision. Defined.

Record SenderWaiterSlot := mkSlot {
  generation : Z;
  waker : option W;
  in_use : bool;
  queued : bool;
}.

Definition vacant : SenderWaiterSlot := mkSlot 0 None false false.

Definition SENDER_WAITER_COMPACT_MIN_QUEUE_LEN : Z := 64.

Record SenderWaiters := mkWaiters {
  queue : list SenderWaiterKey;
  slots : list SenderWaiterSlot;
  free_slots : list nat;
  queued_live : Z;
  queued_stale : Z;
  next_generation : Z;
}.

Implicit Types ws : SenderWaiters.

Definition waiters_new : SenderWaiters := mkWaiters [] [] [] 0 0 0.

(** [usize] subtraction with overflow checks. *)
Definition checked_sub (a b : Z) : option Z := if a <? b then None else Some (a - b).

(** The queue entry refers to a slot that is in use, of its generation and queued. *)
Definition is_live (sl : list SenderWaiterSlot) (k : SenderWaiterKey) : bool :=
  match sl !! index k with
  | None => false
  | Some slot => in_use slot && (generation slot =? key_generation k) && queued slot
  end.

(** A stale queue entry is skipped: [debug_assert!] and saturating decrement. *)
Definition skip_stale (ws : SenderWaiters) : option SenderWaiters :=
  if 0 <? queued_stale ws
  then Some (ws <| queued_stale := saturating_sub (queued_stale ws) 1 |>)
  else None.

(** A live entry is dequeued; its waker, if any, is taken. *)
Definition dequeue (ws : SenderWaiters) (k : SenderWaiterKey) : option (option W * SenderWaiters) :=
  slot ← slots ws !! index k;
  live ← checked_sub (queued_live ws) 1;
  Some (waker slot,
        ws <| slots := <[index k := slot <| queued := false |> <| waker := None |>]> (slots ws) |>
           <| queued_live := live |>).

(** [wake_n], with the queue still to be visited. *)
Fixpoint wake_n_loop (count : Z) (q : list SenderWaiterKey) (ws : SenderWaiters) :
    option (list W * SenderWaiters) :=
  if count <=? 0 then Some ([], ws <| queue := q |>)
  else
    match q with
    | [] => Some ([], ws <| queue := [] |>)
    | k :: q =>
      if is_live (slots ws) k then
        '(w, ws) ← dequeue ws k;
        match w with
        | Some w => '(woken, ws) ← wake_n_loop (count - 1) q ws; Some (w :: woken, ws)
        | None => wake_n_loop count q ws
        end
      else
        ws ← skip_stale ws;
        wake_n_loop count q ws
    end.

Definition wake_n (ws : SenderWaiters) (count : Z) : option (list W * SenderWaiters) :=
  wake_n_loop count (queue ws) ws.

Fixpoint wake_all_loop (q : list SenderWaiterKey) (ws : SenderWaiters) :
    option (list W * SenderWaiters) :=
  match q with
  | [] => Some ([], ws <| queue := [] |>)
  | k :: q =>
    if is_live (slots ws) k then
      '(w, ws) ← dequeue ws k;
      '(woken, ws) ← wake_all_loop q ws;
      Some (option_list w ++ woken, ws)
    else
      ws ← skip_stale ws;
      wake_all_loop q ws
  end.

Definition wake_all (ws : SenderWaiters) : option (list W * SenderWaiters) :=
  wake_all_loop (queue ws) ws.

(** The slot a waiter key still owns. *)
Definition owned_slot (ws : SenderWaiters) (k : SenderWaiterKey) : option SenderWaiterSlot :=
  match slots ws !! index k with
  | None => None
  | Some slot => if in_use slot && (generation slot =? key_generation k) then Some slot else None
  end.

Definition refresh_waiter (ws : SenderWaiters) (k : SenderWaiterKey) (slot : SenderWaiterSlot) (w : W) :
    SenderWaiters :=
  let slot :=
    match waker slot with
    | Some w' => if decide (w' = w) then slot else slot <| waker := Some w |>
    | None => slot <| waker := Some w |>
    end in
  if queued slot then ws <| slots := <[index k := slot]> (slots ws) |>
  else ws <| slots := <[index k := slot <| queued := true |>]> (slots ws) |>
          <| queue := queue ws ++ [k] |>
          <| queued_live := queued_live ws + 1 |>.

Definition register_waiter (ws : SenderWaiters) (w : W) : SenderWaiterKey * SenderWaiters :=
  let '(i, free, sl) :=
    match free_slots ws with
    | i :: free => (i, free, slots ws)
    | [] => (length (slots ws), [], slots ws ++ [vacant])
    end in
  let g := next_generation ws in
  let k := mkKey i g in
  (k, mkWaiters (queue ws ++ [k]) (<[i := mkSlot g (Some w) true true]> sl) free
        (queued_live ws + 1) (queued_stale ws) (wrapping_add 64 g 1)).

Definition register_or_refresh (ws : SenderWaiters) (ko : option SenderWaiterKey) (w : W) :
    SenderWaiterKey * SenderWaiters :=
  match ko with
  | Some k =>
    match owned_slot ws k with
    | Some slot => (k, refresh_waiter ws k slot w)
    | None => register_waiter ws w
    end
  | None => register_waiter ws w
  end.

Definition compact_queue (ws : SenderWaiters) : SenderWaiters :=
  let q := filter (λ k, is_live (slots ws) k = true) (queue ws) in
  ws <| queue := q |> <| queued_live := zlen q |> <| queued_stale := 0 |>.

Definition maybe_compact_queue (ws : SenderWaiters) : SenderWaiters :=
  if zlen (queue ws) <? SENDER_WAITER_COMPACT_MIN_QUEUE_LEN then ws
  else if queued_stale ws * 2 <? zlen (queue ws) then ws
  else compact_queue ws.

Definition unregister (ws : SenderWaiters) (k : SenderWaiterKey) : option SenderWaiters :=
  match owned_slot ws k with
  | None => Some ws
  | Some slot =>
    ws ← (if queued slot then
            live ← checked_sub (queued_live ws) 1;
            Some (ws <| queued_live := live |> <| queued_stale := queued_stale ws + 1 |>)
          else Some ws);
    Some (maybe_compact_queue
      (ws <| slots := <[index k := mkSlot (generation slot) None false false]> (slots ws) |>
          <| free_slots := index k :: free_slots ws |>))
  end.

(** ** Channel state *)

(** Wake-ups an operation issues: a sender's waker, [Notify::notify_one] and
    [Notify::notify_waiters]. *)
Inductive Effect :=
  | WakeSender (w : W)
  | NotifyOne
  | NotifyWaiters.

Record State := mkState {
  inner : @Inner PData Meta Json;
  sender_count : Z;
  sender_waiters : option SenderWaiters;
}.

Implicit Types st : State.

Definition channel_state (c : ControlChannelConfig) : result State ConfigError :=
  match validate c with
  | Err e => Err e
  | Ok _ => Ok (mkState (ControlCore.new c) 1 None)
  end.

Definition register_or_refresh_sender_waiter (st : State) (ko : option SenderWaiterKey) (w : W) :
    SenderWaiterKey * State :=
  let '(k, ws) := register_or_refresh (default waiters_new (sender_waiters st)) ko w in
  (k, st <| sender_waiters := Some ws |>).

Definition unregister_sender_waiter (st : State) (k : SenderWaiterKey) : option State :=
  match sender_waiters st with
  | None => Some st
  | Some ws => ws ← unregister ws k; Some (st <| sender_waiters := Some ws |>)
  end.

Definition wake_completion_waiters (st : State) (slots_freed : Z) : option (State * list Effect) :=
  if slots_freed =? 0 then Some (st, [])
  else
    match sender_waiters st with
    | None => Some (st, [])
    | Some ws =>
      '(woken, ws) ← wake_n ws slots_freed;
      Some (st <| sender_waiters := Some ws |>, map WakeSender woken)
    end.

Definition wake_all_sender_waiters (st : State) : option (State * list Effect) :=
  match sender_waiters st with
  | None => Some (st, [])
  | Some ws =>
    '(woken, ws) ← wake_all ws;
    Some (st <| sender_waiters := Some ws |>, map WakeSender woken)
  end.

(** [ControlSenderCore::clone] and [::drop], [ControlReceiverCore::drop]. *)
Definition clone_sender (st : State) : State :=
  st <| sender_count := saturating_add usize_max (sender_count st) 1 |>.

Definition drop_sender (st : State) : State * list Effect :=
  let next := saturating_sub (sender_count st) 1 in
  let st := st <| sender_count := next |> in
  if next =? 0 then
    let '(was_open, q) := ControlCore.close (inner st) in
    (st <| inner := q |>, if (was_open : bool) then [NotifyWaiters] else [])
  else (st, []).

(** [ControlSenderCore::close], and the same closing sequence on receiver drop. *)
Definition close_channel (st : State) : option (State * list Effect) :=
  let '(was_open, q) := ControlCore.close (inner st) in
  let st := st <| inner := q |> in
  if (was_open : bool) then
    '(st, woken) ← wake_all_sender_waiters st;
    Some (st, woken ++ [NotifyWaiters])
  else Some (st, []).

Definition accept_drain_ingress (st : State) (m : DrainIngressMsg) (now : Z) :
    LifecycleSendResult * State * list Effect :=
  let '(r, q) := record_drain_ingress (inner st) m now in
  (r, st <| inner := q |>, match r with LAccepted => [NotifyWaiters] | _ => [] end).

Definition accept_shutdown (st : State) (m : ShutdownMsg) (now : Z) :
    option (LifecycleSendResult * State * list Effect) :=
  let '(r, q) := record_shutdown (inner st) m now in
  let st := st <| inner := q |> in
  match r with
  | LAccepted =>
    '(st, woken) ← wake_all_sender_waiters st;
    Some (r, st, woken ++ [NotifyWaiters])
  | _ => Some (r, st, [])
  end.

Definition try_send (st : State) (cmd : ControlCmd) (now : Z) :
    result SendOutcome TrySendError * State * list Effect :=
  let '(r, q) := ControlCore.try_send (inner st) cmd now in
  (r, st <| inner := q |>,
   match r with Ok Accepted | Ok Replaced => [NotifyOne] | _ => [] end).

(** ** The send future *)

Inductive SendError := Closed (cmd : @ControlCmd PData Meta Json).

Record SendFuture := mkFuture {
  pending_cmd : option (@ControlCmd PData Meta Json);
  waiter_key : option SenderWaiterKey;
  deadline_sleep : option Z;
}.

Inductive Poll (R : Type) :=
  | Ready (r : R)
  | Pending.

(** [if let Some(waiter_key) = this.waiter_key.take() { .. unregister .. }], also the
    body of [SendFuture::drop]. *)
Definition release_key (st : State) (ko : option SenderWaiterKey) : option State :=
  match ko with
  | Some k => unregister_sender_waiter st k
  | None => Some st
  end.

(** [SendFuture::poll]: one element of [obs] per round of the loop, the clock read by
    [try_send] and whether the sleep has elapsed. *)
Fixpoint poll_send (obs : list (Z * bool)) (st : State) (fu : SendFuture) (w : W) :
    option (Poll (result SendOutcome SendError) * SendFuture * State * list Effect) :=
  match obs with
  | [] => None
  | (now, elapsed) :: obs =>
    cmd ← pending_cmd fu;
    let '(r, st, eff) := try_send st cmd now in
    match r with
    | Ok outcome =>
      st ← release_key st (waiter_key fu);
      Some (Ready _ (Ok outcome), mkFuture None None None, st, eff)
    | Err (TSClosed cmd) =>
      st ← release_key st (waiter_key fu);
      Some (Ready _ (Err (Closed cmd)), mkFuture None None None, st, eff)
    | Err (TSFull _ cmd) =>
      let '(k, st) := register_or_refresh_sender_waiter st (waiter_key fu) w in
      match next_deadline (inner st) with
      | Some d =>
        if (elapsed : bool) then
          st ← release_key st (Some k);
          poll_send obs st (mkFuture (Some cmd) None None) w
        else Some (Pending _, mkFuture (Some cmd) (Some k) (Some d), st, eff)
      | None => Some (Pending _, mkFuture (Some cmd) (Some k) None, st, eff)
      end
    end
  end.

(** ** The receiver *)

Definition notify_after_pop (st : State) (e : @CoreControlEvent PData Meta Json) :
    option (State * list Effect) :=
  match e with
  | EvCompletionBatch batch => wake_completion_waiters st (zlen batch)
  | EvShutdown _ =>
    '(st, woken) ← wake_all_sender_waiters st;
    Some (st, woken ++ [NotifyWaiters])
  | _ => Some (st, [])
  end.

(** [try_recv_internal]. *)
Definition try_recv (st : State) (now : Z) :
    option (option (@CoreControlEvent PData Meta Json) * State * list Effect) :=
  '(e, q) ← pop_event (inner st) now;
  let st := st <| inner := q |> in
  match e with
  | Some ev => '(st, eff) ← notify_after_pop st ev; Some (e, st, eff)
  | None => Some (None, st, [])
  end.

Inductive RecvStep :=
  | Return (e : option (@CoreControlEvent PData Meta Json))
  | Wait (d : option Z).

(** One round of [recv_internal]: an event, the end of a closed channel, or waiting
    for a notification and for the deadline, if one is armed. *)
Definition recv_round (st : State) (now : Z) : option (RecvStep * State * list Effect) :=
  '(e, q) ← pop_event (inner st) now;
  let st := st <| inner := q |> in
  match e with
  | Some ev => '(st, eff) ← notify_after_pop st ev; Some (Return (Some ev), st, eff)
  | None => Some (if closed q then Return None else Wait (next_deadline q), st, [])
  end.

(** ** The channel with its users

    One receiver, sender handles and pending send futures.  A future borrows a
    sender handle, so the last handle outlives the futures. *)
Record System := mkSystem {
  chan : State;
  futures : gmap nat SendFuture;
  has_receiver : bool;
}.

Inductive ChannelOp :=
  | ChTrySend (cmd : @ControlCmd PData Meta Json) (now : Z)
  | ChSend (f : nat) (cmd : @ControlCmd PData Meta Json)
  | ChPoll (f : nat) (w : W) (obs : list (Z * bool))
  | ChDropFuture (f : nat)
  | ChTryRecv (now : Z)
  | ChRecv (now : Z)
  | ChAcceptDrain (m : DrainIngressMsg) (now : Z)
  | ChAcceptShutdown (m : ShutdownMsg) (now : Z)
  | ChClose
  | ChCloneSender
  | ChDropSender
  | ChDropReceiver.

(** The observations of one poll are possible: a sleep that has elapsed means the
    next clock reading is not before the deadline, and the loop has its rounds. *)
Definition obs_accurate (dl : option Z) (obs : list (Z * bool)) : bool :=
  match obs with
  | [] => false
  | (_, false) :: _ => true
  | (_, true) :: rest =>
    match dl with
    | None => true
    | Some d => match rest with [] => false | (now, _) :: _ => d <=? now end
    end
  end.

Definition poll_op (y : System) (f : nat) (w : W) (obs : list (Z * bool)) (fu : SendFuture) :
    option (System * list Effect) :=
  '(r, fu, st, eff) ← poll_send obs (chan y) fu w;
  Some (y <| chan := st |>
          <| futures := match r with
                        | Ready _ _ => delete f (futures y)
                        | Pending _ => <[f := fu]> (futures y)
                        end |>, eff).

(** One operation of some user; an operation nobody can perform changes nothing. *)
Definition channel_step (y : System) (op : ChannelOp) : option (System * list Effect) :=
  let no_sender := sender_count (chan y) =? 0 in
  match op with
  | ChTrySend cmd now =>
    if no_sender then Some (y, []) else
    let '(_, st, eff) := try_send (chan y) cmd now in Some (y <| chan := st |>, eff)
  | ChSend f cmd =>
    if no_sender || bool_decide (is_Some (futures y !! f)) then Some (y, []) else
    Some (y <| futures := <[f := mkFuture (Some cmd) None None]> (futures y) |>, [])
  | ChPoll f w obs =>
    match futures y !! f with
    | None => Some (y, [])
    | Some fu =>
      if obs_accurate (shutdown_deadline (inner (chan y))) obs then poll_op y f w obs fu
      else Some (y, [])
    end
  | ChDropFuture f =>
    match futures y !! f with
    | None => Some (y, [])
    | Some fu =>
      st ← release_key (chan y) (waiter_key fu);
      Some (y <| chan := st |> <| futures := delete f (futures y) |>, [])
    end
  | ChTryRecv now =>
    if has_receiver y then '(_, st, eff) ← try_recv (chan y) now; Some (y <| chan := st |>, eff)
    else Some (y, [])
  | ChRecv now =>
    if has_receiver y then '(_, st, eff) ← recv_round (chan y) now; Some (y <| chan := st |>, eff)
    else Some (y, [])
  | ChAcceptDrain m now =>
    if no_sender then Some (y, []) else
    let '(_, st, eff) := accept_drain_ingress (chan y) m now in Some (y <| chan := st |>, eff)
  | ChAcceptShutdown m now =>
    if no_sender then Some (y, []) else
    '(_, st, eff) ← accept_shutdown (chan y) m now; Some (y <| chan := st |>, eff)
  | ChClose =>
    if no_sender then Some (y, []) else
    '(st, eff) ← close_channel (chan y); Some (y <| chan := st |>, eff)
  | ChCloneSender =>
    if no_sender then Some (y, []) else Some (y <| chan := clone_sender (chan y) |>, [])
  | ChDropSender =>
    if no_sender || (sender_count (chan y) =? 1) && negb (bool_decide (futures y = ∅)) then Some (y, [])
    else let '(st, eff) := drop_sender (chan y) in Some (y <| chan := st |>, eff)
  | ChDropReceiver =>
    if has_receiver y then
      '(st, eff) ← close_channel (chan y); Some (y <| chan := st |> <| has_receiver := false |>, eff)
    else Some (y, [])
  end.

Fixpoint channel_run (y : System) (ops : list ChannelOp) : option System :=
  match ops with
  | [] => Some y
  | op :: ops => '(y, _) ← channel_step y op; channel_run y ops
  end.

Definition system_new (c : ControlChannelConfig) : System :=
  mkSystem (mkState (ControlCore.new c) 1 None) ∅ true.

(** ** Waiter table *)

(** Wakers of the live entries of a queue, in order. *)
Definition live_waker (sl : list SenderWaiterSlot) (k : SenderWaiterKey) : option W :=
  if is_live sl k then s ← sl !! index k; waker s else None.
Definition live_wakers (sl : list SenderWaiterSlot) (q : list SenderWaiterKey) : list W :=
  omap (live_waker sl) q.

(** Senders that were woken and have not been polled since. *)
Definition is_woken (s : SenderWaiterSlot) : bool := in_use s && negb (queued s).

Record waiters_ok (ws : SenderWaiters) : Prop := {
  wo_slot : ∀ i s, slots ws !! i = Some s →
    (queued s = true → in_use s = true ∧ is_Some (waker s)) ∧
    (in_use s = true → generation s < next_generation ws);
  wo_free_nodup : NoDup (free_slots ws);
  wo_free : ∀ i, i ∈ free_slots ws ↔ ∃ s, slots ws !! i = Some s ∧ in_use s = false;
  wo_nodup : NoDup (queue ws);
  wo_entry : ∀ k, k ∈ queue ws → key_generation k < next_generation ws ∧
    ∀ s, slots ws !! index k = Some s → in_use s = true → generation s = key_generation k → queued s = true;
  wo_queued : ∀ i s, slots ws !! i = Some s → queued s = true → mkKey i (generation s) ∈ queue ws;
  wo_live : queued_live ws = count_if (is_live (slots ws)) (queue ws);
  wo_live_slots : queued_live ws = count_if queued (slots ws);
  wo_stale : zlen (queue ws) = queued_live ws + queued_stale ws;
  wo_next : 0 ≤ next_generation ws;
}.

Lemma is_live_true sl k :
  is_live sl k = true ↔ ∃ s, sl !! index k = Some s ∧ in_use s = true ∧
    generation s = key_generation k ∧ queued s = true.
Proof.
  unfold is_live. destruct (sl !! index k) as [s|]; [|by split; [|intros (? & ? & _)]].
  rewrite !andb_true_iff, Z.eqb_eq. split.
  - intros [[? ?] ?]. by exists s.
  - by intros (? & [= <-] & ? & ? & ?).
Qed.

Lemma is_live_insert_ne sl i s k : index k ≠ i → is_live (<[i:=s]> sl) k = is_live sl k.
Proof. intros Hne. unfold is_live. by rewrite list_lookup_insert_ne. Qed.

Lemma live_waker_insert_ne sl i s k : index k ≠ i → live_waker (<[i:=s]> sl) k = live_waker sl k.
Proof. intros Hne. unfold live_waker. rewrite is_live_insert_ne by done. by rewrite list_lookup_insert_ne. Qed.

Lemma live_wakers_ext sl sl' q :
  (∀ k, k ∈ q → live_waker sl' k = live_waker sl k) → live_wakers sl' q = live_wakers sl q.
Proof.
  intros Hq. induction q as [|k q IH]; [done|]. simpl. rewrite (Hq k) by left.
  destruct (live_waker sl k); [f_equal|]; apply IH; intros k' Hk'; apply Hq; by right.
Qed.

(** Entries of the rest of a queue whose head is a live entry have other slots, or
    are stale before and after the head is dequeued. *)
Lemma dequeue_others sl (s s' : SenderWaiterSlot) k q k' :
  NoDup (k :: q) → sl !! index k = Some s → generation s = key_generation k →
  generation s' = generation s → queued s' = false → k' ∈ q →
  is_live (<[index k:=s']> sl) k' = is_live sl k' ∧
  live_waker (<[index k:=s']> sl) k' = live_waker sl k'.
Proof.
  intros Hnd Hs Hg Hg' Hq' Hk'. destruct (decide (index k' = index k)) as [Hi|Hi].
  - assert (is_live sl k' = false ∧ is_live (<[index k:=s']> sl) k' = false) as [E1 E2].
    { unfold is_live. rewrite Hi, Hs, list_lookup_insert_eq by (by eapply lookup_lt_Some).
      rewrite Hq', !andb_false_r. split; [|done].
      destruct (Z.eqb_spec (generation s) (key_generation k')); [|by rewrite andb_false_r].
      apply NoDup_cons in Hnd as [Hni _]. destruct Hni.
      replace k with k' by (destruct k, k'; simpl in *; congruence). done. }
    unfold live_waker. by rewrite E1, E2.
  - split; [by apply is_live_insert_ne|by apply live_waker_insert_ne].
Qed.

Definition shape (sl : list SenderWaiterSlot) (i : nat) : option (bool * Z) :=
  (λ s, (in_use s, generation s)) <$> sl !! i.

Lemma shape_slot_insert sl i s s' j :
  sl !! i = Some s → in_use s' = in_use s → generation s' = generation s →
  shape (<[i:=s']> sl) j = shape sl j.
Proof.
  intros Hs Hu Hg. unfold shape. destruct (decide (i = j)) as [<-|].
  - rewrite list_lookup_insert_eq, Hs by (by eapply lookup_lt_Some). simpl. by rewrite Hu, Hg.
  - by rewrite list_lookup_insert_ne.
Qed.

(** Dequeuing the live head of the queue. *)
Lemma dequeue_spec ws k q :
  waiters_ok (ws <| queue := k :: q |>) → is_live (slots ws) k = true →
  ∃ w ws', dequeue ws k = Some (Some w, ws') ∧ waiters_ok (ws' <| queue := q |>) ∧
  live_waker (slots ws) k = Some w ∧
  (∀ i, shape (slots ws') i = shape (slots ws) i) ∧
  live_wakers (slots ws') q = live_wakers (slots ws) q ∧
  queued_live ws' = queued_live ws - 1 ∧
  count_if is_woken (slots ws') = count_if is_woken (slots ws) + 1 ∧
  next_generation ws' = next_generation ws.
Proof.
  intros [Hsl Hfn Hf Hnd He Hq Hl Hls Hst Hn] Hlive. destruct ws as [q0 sl fr lv st ng]; simpl in *.
  pose proof Hlive as Hlive'. apply is_live_true in Hlive as (s & Hs & Hu & Hg & Hqd).
  destruct (Hsl _ _ Hs) as [Hx Hgen]. destruct (Hx Hqd) as [_ [w Hw]].
  pose proof (count_if_nonneg (is_live sl) q). rewrite Hlive' in Hl. simpl in Hl.
  unfold dequeue. simpl. rewrite Hs. simpl. unfold checked_sub.
  destruct (Z.ltb_spec lv 1); [lia|]. simpl.
  set (s' := mkSlot _ None _ false).
  assert (in_use s' = in_use s ∧ generation s' = generation s ∧ queued s' = false) as (E1 & E2 & E3) by (by destruct s).
  clearbody s'. pose proof (lookup_lt_Some _ _ _ Hs) as Hlt.
  assert (∀ k', k' ∈ q → is_live (<[index k:=s']> sl) k' = is_live sl k' ∧
    live_waker (<[index k:=s']> sl) k' = live_waker sl k') as Hoth.
  { intros k' Hk'. by eapply dequeue_others. }
  exists w. eexists. rewrite Hw. split; [done|]. simpl.
  assert (∀ j t, <[index k:=s']> sl !! j = Some t → (j = index k ∧ t = s') ∨ (j ≠ index k ∧ sl !! j = Some t)) as Hlk.
  { intros j t Hj. destruct (decide (j = index k)) as [->|Hji].
    - rewrite list_lookup_insert_eq in Hj by done. left. by simplify_eq.
    - rewrite list_lookup_insert_ne in Hj by done. auto. }
  apply NoDup_cons in Hnd as [Hni Hnd].
  split; [split; simpl|].
  - intros j t [[-> ->]|[_ Hj]]%Hlk; [|by apply (Hsl _ _ Hj)]. rewrite E1, E2, E3. by split.
  - done.
  - intros j. rewrite Hf. destruct (decide (j = index k)) as [->|].
    + rewrite list_lookup_insert_eq, Hs by done. split; intros (t & [= <-] & Ht); congruence.
    + by rewrite list_lookup_insert_ne.
  - done.
  - intros k' Hk'. destruct (He k' ltac:(by right)) as [Hg' Hent]. split; [done|].
    intros t [[Hi ->]|[_ Hj]]%Hlk Hut Hgt; [|by eapply Hent]. exfalso. apply Hni.
    replace k with k' by (destruct k, k'; simpl in *; congruence). done.
  - intros j t [[-> ->]|[Hji Hj]]%Hlk Hqt; [congruence|].
    pose proof (Hq _ _ Hj Hqt) as [Hk|?]%elem_of_cons; [|done]. by destruct k; simplify_eq.
  - rewrite (count_if_ext (is_live sl)); [lia|]. intros k' Hk'. by apply Hoth.
  - rewrite (count_if_insert _ _ _ s), Hqd, E3 by done. simpl. lia.
  - rewrite zlen_cons in Hst. lia.
  - done.
  - split_and!; try done.
    + unfold live_waker. rewrite Hlive', Hs. done.
    + intros j. by eapply shape_slot_insert.
    + apply live_wakers_ext. intros k' Hk'. by apply Hoth.
    + rewrite (count_if_insert _ _ _ s) by done. unfold is_woken. rewrite E1, E3, Hu, Hqd. simpl. lia.
Qed.

Lemma skip_stale_spec ws k q :
  waiters_ok (ws <| queue := k :: q |>) → is_live (slots ws) k = false →
  ∃ ws', skip_stale ws = Some ws' ∧ waiters_ok (ws' <| queue := q |>) ∧ slots ws' = slots ws ∧
  queued_live ws' = queued_live ws ∧ next_generation ws' = next_generation ws.
Proof.
  intros [Hsl Hfn Hf Hnd He Hq Hl Hls Hst Hn] Hlive. destruct ws as [q0 sl fr lv st ng]; simpl in *.
  rewrite Hlive in Hl. simpl in Hl. rewrite zlen_cons in Hst. pose proof (count_if_le (is_live sl) q).
  unfold skip_stale. simpl. destruct (Z.ltb_spec 0 st); [|lia]. eexists. split; [done|].
  apply NoDup_cons in Hnd as [Hni Hnd]. split; [|done]. split; simpl; try done.
  - intros k' Hk'. apply He. by right.
  - intros j t Hj Hqt. pose proof (Hq _ _ Hj Hqt) as [<-|?]%elem_of_cons; [|done].
    exfalso. destruct (Hsl _ _ Hj) as [Hx _]. destruct (Hx Hqt).
    assert (is_live sl (mkKey j (generation t)) = true) by (apply is_live_true; by exists t). congruence.
  - unfold saturating_sub. lia.
Qed.

Lemma live_wakers_cons sl k q :
  live_wakers sl (k :: q) = option_list (live_waker sl k) ++ live_wakers sl q.
Proof. unfold live_wakers. simpl. by destruct (live_waker sl k). Qed.

(** [wake_n] wakes the first [count] live waiters, in queue order. *)
Lemma wake_n_loop_spec count q ws :
  0 ≤ count → waiters_ok (ws <| queue := q |>) →
  ∃ ws', wake_n_loop count q ws = Some (take (Z.to_nat count) (live_wakers (slots ws) q), ws') ∧
  waiters_ok ws' ∧ (∀ i, shape (slots ws') i = shape (slots ws) i) ∧
  queued_live ws' = queued_live ws - Z.min count (queued_live ws) ∧
  count_if is_woken (slots ws') = count_if is_woken (slots ws) + Z.min count (queued_live ws) ∧
  next_generation ws' = next_generation ws.
Proof.
  revert count ws. induction q as [|k q IH]; intros count ws Hcount Hok; simpl.
  - assert (queued_live ws = 0) as Hz by (rewrite (wo_live _ Hok : queued_live ws = _); by destruct ws).
    exists (ws <| queue := [] |>). rewrite Hz. destruct ws; simpl in *.
    destruct (count <=? 0); rewrite ?take_nil; split_and!; try done; try lia.
  - assert (0 ≤ queued_live ws) as Hnn.
    { rewrite (wo_live _ Hok : queued_live ws = _). apply count_if_nonneg. }
    destruct (Z.leb_spec count 0) as [H0|Hpos].
    { assert (count = 0) as -> by lia. exists (ws <| queue := k :: q |>). simpl. rewrite Z.min_l by lia.
      destruct ws; simpl. split_and!; try done; try lia. }
    destruct (is_live (slots ws) k) eqn:Hlive.
    + destruct (dequeue_spec ws k q Hok Hlive) as (w & ws1 & -> & Hok1 & Hw & Hsh & Hlw & Hl1 & Hc1 & Hn1). simpl.
      destruct (IH (count - 1) ws1) as (ws2 & -> & Hok2 & Hsh2 & Hl2 & Hc2 & Hn2); [lia|done|]. simpl.
      assert (1 ≤ queued_live ws).
      { rewrite (wo_live _ Hok : queued_live ws = _). destruct ws; simpl in *. rewrite Hlive.
        pose proof (count_if_nonneg (is_live slots0) q). simpl. lia. }
      exists ws2. split_and!; try done; try lia; [|by intros i; rewrite Hsh2].
      rewrite Hw, Hlw. simpl. replace (Z.to_nat count) with (S (Z.to_nat (count - 1))) by lia. done.
    + destruct (skip_stale_spec ws k q Hok Hlive) as (ws1 & -> & Hok1 & Hsl1 & Hl1 & Hn1). simpl.
      destruct (IH count ws1) as (ws2 & -> & Hok2 & Hsh2 & Hl2 & Hc2 & Hn2); [lia|done|].
      exists ws2. rewrite Hsl1 in *. split_and!; try done; try congruence.
      unfold live_wakers, live_waker. simpl. by rewrite Hlive.
Qed.

Lemma wake_all_loop_eq q ws count :
  waiters_ok (ws <| queue := q |>) → zlen q < count → wake_all_loop q ws = wake_n_loop count q ws.
Proof.
  revert ws count. induction q as [|k q IH]; intros ws count Hok Hcount; simpl.
  - by destruct (count <=? 0).
  - rewrite zlen_cons in Hcount. pose proof (zlen_nonneg q). destruct (Z.leb_spec count 0); [lia|].
    destruct (is_live (slots ws) k) eqn:Hlive.
    + destruct (dequeue_spec ws k q Hok Hlive) as (w & ws1 & -> & Hok1 & _). simpl.
      rewrite (IH ws1 (count - 1)) by (done || lia). by destruct (wake_n_loop (count - 1) q ws1) as [[? ?]|].
    + destruct (skip_stale_spec ws k q Hok Hlive) as (ws1 & -> & Hok1 & _). simpl. apply IH; [done|lia].
Qed.

Lemma waiters_new_ok : waiters_ok waiters_new.
Proof.
  split; simpl; try done; [constructor| |constructor|].
  - intros i. split; [intros Hi; by apply not_elem_of_nil in Hi|by intros (? & ? & _)].
  - intros k Hk. by apply not_elem_of_nil in Hk.
Qed.

Lemma owned_slot_spec ws k s :
  owned_slot ws k = Some s ↔
  slots ws !! index k = Some s ∧ in_use s = true ∧ generation s = key_generation k.
Proof.
  unfold owned_slot. destruct (slots ws !! index k) as [s'|]; [|split; [done|by intros (? & _)]].
  destruct (in_use s') eqn:Hu, (Z.eqb_spec (generation s') (key_generation k)); simpl; split; try done; intros Hs.
  all: try (destruct Hs as (? & ? & ?)); simplify_eq; congruence || auto.
Qed.

(** A slot (re)enters the queue at the back with key [k]. *)
Lemma enqueue_ok ws sl fr ng k s s' :
  waiters_ok ws → sl !! index k = Some s → queued s = false →
  (∀ j, j ≠ index k → sl !! j = slots ws !! j) →
  (∀ t, slots ws !! index k = Some t → t = s) →
  s' = mkSlot (key_generation k) (waker s') true true →
  is_Some (waker s') → next_generation ws ≤ ng → key_generation k < ng →
  count_if queued sl = count_if queued (slots ws) →
  k ∉ queue ws → (∀ k', k' ∈ queue ws → index k' = index k → is_live (slots ws) k' = false) →
  NoDup fr → (∀ i, i ∈ fr ↔ i ≠ index k ∧ ∃ t, slots ws !! i = Some t ∧ in_use t = false) →
  waiters_ok (mkWaiters (queue ws ++ [k]) (<[index k:=s']> sl) fr (queued_live ws + 1) (queued_stale ws) ng).
Proof.
  intros [Hsl Hfn Hf Hnd He Hq Hl Hls Hst Hn] Hs Hqs Hoth Hsame Hs' [w Hw] Hng Hkg Hcnt Hnk Hstale Hfr Hfree.
  pose proof (lookup_lt_Some _ _ _ Hs) as Hlt.
  assert (∀ j t, <[index k:=s']> sl !! j = Some t → (j = index k ∧ t = s') ∨ (j ≠ index k ∧ slots ws !! j = Some t)) as Hlk.
  { intros j t Hj. destruct (decide (j = index k)) as [->|Hji].
    - rewrite list_lookup_insert_eq in Hj by done. left. by simplify_eq.
    - rewrite list_lookup_insert_ne, Hoth in Hj by done. auto. }
  assert (in_use s' = true ∧ generation s' = key_generation k ∧ queued s' = true) as (E1 & E2 & E3)
    by (rewrite Hs'; done). clear Hs'.
  assert (∀ k', k' ∈ queue ws → is_live (<[index k:=s']> sl) k' = is_live (slots ws) k') as Hlive.
  { intros k' Hk'. destruct (decide (index k' = index k)) as [Hi|Hi].
    - rewrite Hstale by done. unfold is_live. rewrite Hi, list_lookup_insert_eq by done.
      destruct (Z.eqb_spec (generation s') (key_generation k')); [|by rewrite andb_false_r].
      destruct Hnk. replace k with k' by (destruct k, k'; simpl in *; congruence). done.
    - rewrite is_live_insert_ne by done. unfold is_live. by rewrite Hoth. }
  split; simpl.
  - intros j t [[-> ->]|[_ Hj]]%Hlk; [split; [by eauto|intros; lia]|].
    destruct (Hsl _ _ Hj) as [Hx Hg]. split; [done|]. intros Hu. specialize (Hg Hu). lia.
  - done.
  - intros j. rewrite Hfree. destruct (decide (j = index k)) as [->|Hji].
    + rewrite list_lookup_insert_eq by done. split; [by intros [? _]|]. intros (t & [= <-] & ?). congruence.
    + rewrite list_lookup_insert_ne, Hoth by done. by split; [intros [_ ?]|].
  - apply NoDup_app. split_and!; [done| |apply NoDup_singleton].
    intros k' Hk' Hk. apply list_elem_of_singleton in Hk. by subst.
  - intros k' [Hk'|Hk'%list_elem_of_singleton]%elem_of_app; [|subst k'].
    + destruct (He k' Hk') as [Hg Hent]. split; [lia|].
      intros t [[Hi ->]|[_ Hj]]%Hlk Hu Hgt; [done|by eapply Hent].
    + split; [done|]. rewrite list_lookup_insert_eq by done. by intros t [= <-].
  - intros j t [[-> ->]|[_ Hj]]%Hlk Hqt; apply elem_of_app; [right|left; by apply Hq].
    apply list_elem_of_singleton. destruct k; simpl in *. congruence.
  - rewrite count_if_app, (count_if_ext (is_live (slots ws))), Hl by done. simpl.
    assert (is_live (<[index k:=s']> sl) k = true) as ->; [|simpl; lia].
    apply is_live_true. exists s'. by rewrite list_lookup_insert_eq.
  - rewrite (count_if_insert _ _ _ s), Hqs, E3, Hcnt, Hls by done. simpl. lia.
  - rewrite zlen_app. unfold zlen in *. simpl. lia.
  - lia.
Qed.

Lemma wrapping_succ g : 0 ≤ g < u64_max → wrapping_add 64 g 1 = g + 1.
Proof. intros Hg. unfold wrapping_add. rewrite Z.mod_small; unfold u64_max in *; lia. Qed.

Lemma register_spec ws w :
  waiters_ok ws → next_generation ws < u64_max →
  let '(k, ws') := register_waiter ws w in
  waiters_ok ws' ∧ (∀ g, shape (slots ws) (index k) ≠ Some (true, g)) ∧
  (∀ i, shape (slots ws') i =
     if decide (i = index k) then Some (true, key_generation k) else shape (slots ws) i) ∧
  queued_live ws' = queued_live ws + 1 ∧
  count_if is_woken (slots ws') = count_if is_woken (slots ws) ∧
  next_generation ws' = next_generation ws + 1.
Proof.
  intros Hwf Hmax. pose proof (wo_next _ Hwf) as Hn. unfold register_waiter.
  set (pick := match free_slots ws with
    | i :: free => (i, free, slots ws) | [] => (length (slots ws), [], slots ws ++ [vacant]) end).
  assert (∃ i free sl s, pick = (i, free, sl) ∧ sl !! i = Some s ∧ in_use s = false ∧ queued s = false ∧
    NoDup free ∧ count_if queued sl = count_if queued (slots ws) ∧
    count_if is_woken sl = count_if is_woken (slots ws) ∧
    (∀ j, j ≠ i → sl !! j = slots ws !! j) ∧ (∀ t, slots ws !! i = Some t → t = s) ∧
    (∀ j, j ∈ free ↔ j ≠ i ∧ ∃ t, slots ws !! j = Some t ∧ in_use t = false))
    as (i & free & sl & s & -> & Hs & Hu & Hqs & Hnd & Hcq & Hcw & Hne & Heq & Hfree).
  { pose proof (wo_free _ Hwf) as Hf. pose proof (wo_free_nodup _ Hwf) as Hnd. subst pick.
    destruct (free_slots ws) as [|i free].
    - exists (length (slots ws)), [], (slots ws ++ [vacant]), vacant. split_and!; try done.
      + by apply list_lookup_middle.
      + rewrite count_if_app. simpl. lia.
      + rewrite count_if_app. simpl. lia.
      + intros j Hj. destruct (decide (j < length (slots ws))%nat).
        * by rewrite lookup_app_l.
        * rewrite !lookup_ge_None_2; rewrite ?length_app; simpl; lia || done.
      + intros t Ht. apply lookup_lt_Some in Ht. lia.
      + intros j. split; [intros Hj; by apply not_elem_of_nil in Hj|]. intros [_ Hj]. by apply Hf in Hj.
    - apply NoDup_cons in Hnd as [Hni Hnd]. destruct (proj1 (Hf i)) as (s & Hs & Hu); [left|].
      exists i, free, (slots ws), s. destruct (wo_slot _ Hwf _ _ Hs) as [Hx _]. split_and!; try done.
      + destruct (queued s); [|done]. destruct Hx; congruence.
      + congruence.
      + intros j. split; [intros Hj; split; [by intros ->|apply Hf; by right]|].
        intros [Hji Hj]. apply Hf in Hj as [?|?]%elem_of_cons; done. }
  pose proof (lookup_lt_Some _ _ _ Hs) as Hlt. rewrite wrapping_succ by lia. simpl. split_and!; simpl.
  - eapply (enqueue_ok ws sl free _ (mkKey i (next_generation ws)) s); simpl; try done; try lia.
    + intros Hin. destruct (wo_entry _ Hwf _ Hin) as [Hg _]. simpl in Hg. lia.
    + intros k' _ Hi. unfold is_live. rewrite Hi. destruct (slots ws !! i) as [t|] eqn:Ht; [|done].
      rewrite (Heq t) by done. by rewrite Hu.
  - intros g Hg. unfold shape in Hg. destruct (slots ws !! i) as [t|] eqn:Ht; [|done].
    rewrite (Heq t) in Hg by done. simpl in Hg. congruence.
  - intros j. unfold shape. case_decide as Hj; [subst j; by rewrite list_lookup_insert_eq|].
    by rewrite list_lookup_insert_ne, Hne.
  - done.
  - rewrite (count_if_insert _ _ _ s), Hcw by done. unfold is_woken. rewrite Hu. simpl. lia.
  - done.
Qed.

Lemma set_waker_ok ws k s w :
  waiters_ok ws → owned_slot ws k = Some s → queued s = true →
  waiters_ok (ws <| slots := <[index k := mkSlot (generation s) (Some w) true true]> (slots ws) |>).
Proof.
  intros [Hsl Hfn Hf Hnd He Hq Hl Hls Hst Hn] (Hs & Hu & Hg)%owned_slot_spec Hqs.
  destruct ws as [q sl fr lv st ng]; simpl in *. pose proof (lookup_lt_Some _ _ _ Hs) as Hlt.
  set (s' := mkSlot (generation s) (Some w) true true).
  assert (∀ j t, <[index k:=s']> sl !! j = Some t → (j = index k ∧ t = s') ∨ (j ≠ index k ∧ sl !! j = Some t)) as Hlk.
  { intros j t Hj. destruct (decide (j = index k)) as [->|Hji].
    - rewrite list_lookup_insert_eq in Hj by done. left. by simplify_eq.
    - rewrite list_lookup_insert_ne in Hj by done. auto. }
  destruct (Hsl _ _ Hs) as [_ Hgen]. specialize (Hgen Hu).
  split; simpl; try done.
  - intros j t [[-> ->]|[_ Hj]]%Hlk; [simpl; eauto|by apply (Hsl _ _ Hj)].
  - intros j. rewrite Hf. destruct (decide (j = index k)) as [->|].
    + rewrite list_lookup_insert_eq, Hs by done. split; intros (t & [= <-] & Ht); simpl in *; congruence.
    + by rewrite list_lookup_insert_ne.
  - intros k' Hk'. destruct (He k' Hk') as [? Hent]. split; [done|].
    intros t [[_ ->]|[_ Hj]]%Hlk; [done|by eapply Hent].
  - intros j t [[-> ->]|[_ Hj]]%Hlk Hqt; [|by apply Hq]. simpl. by apply (Hq _ _ Hs).
  - rewrite Hl. symmetry. apply count_if_ext. intros k' Hk'.
    destruct (decide (index k' = index k)) as [Hi|Hi]; [|by apply is_live_insert_ne].
    unfold is_live. rewrite Hi, list_lookup_insert_eq, Hs by done. simpl. by rewrite Hu, Hqs.
  - rewrite (count_if_insert _ _ _ s), Hqs by done. simpl. lia.
Qed.

Lemma refresh_spec ws k s w :
  waiters_ok ws → owned_slot ws k = Some s →
  let ws' := refresh_waiter ws k s w in
  waiters_ok ws' ∧ (∀ i, shape (slots ws') i = shape (slots ws) i) ∧
  queued_live ws' = queued_live ws + Z.b2z (negb (queued s)) ∧
  count_if is_woken (slots ws') = count_if is_woken (slots ws) - Z.b2z (negb (queued s)) ∧
  next_generation ws' = next_generation ws.
Proof.
  intros Hok Hown. pose proof Hown as (Hs & Hu & Hg)%owned_slot_spec.
  pose proof (lookup_lt_Some _ _ _ Hs) as Hlt. destruct (wo_slot _ Hok _ _ Hs) as [_ Hgen]. specialize (Hgen Hu).
  assert (refresh_waiter ws k s w =
    let sl := <[index k := mkSlot (generation s) (Some w) true true]> (slots ws) in
    if queued s then ws <| slots := sl |>
    else mkWaiters (queue ws ++ [k]) sl (free_slots ws) (queued_live ws + 1) (queued_stale ws) (next_generation ws)) as ->.
  { unfold refresh_waiter. destruct ws, s as [g wk u qd]; simpl in *. subst.
    destruct wk as [w'|]; [destruct (decide (w' = w)) as [->|]|]; by destruct qd. }
  destruct (queued s) eqn:Hqs; simpl.
  - pose proof (set_waker_ok ws k s w Hok Hown Hqs). destruct ws; simpl in *. split_and!; try done; try lia.
    + intros j. by eapply shape_slot_insert.
    + rewrite (count_if_insert _ _ _ s) by done. unfold is_woken. rewrite Hu, Hqs. simpl. lia.
  - split_and!; simpl; try lia.
    + eapply (enqueue_ok ws (slots ws) _ _ k s); simpl; try done; try lia.
      * congruence.
      * by rewrite Hg.
      * intros Hin. destruct (wo_entry _ Hok _ Hin) as [_ He]. rewrite (He s) in Hqs; congruence.
      * intros k' Hk' Hi. unfold is_live. by rewrite Hi, Hs, Hqs, andb_false_r.
      * by apply (wo_free_nodup _ Hok).
      * intros j. rewrite (wo_free _ Hok). split; [|by intros [_ ?]]. intros (t & Ht & Hut).
        split; [|eauto]. intros ->. congruence.
    + intros j. by eapply shape_slot_insert.
    + rewrite (count_if_insert _ _ _ s) by done. unfold is_woken. rewrite Hu, Hqs. simpl. lia.
Qed.

(** Compaction drops the tombstones and nothing else. *)
Lemma compact_queue_spec ws :
  waiters_ok ws →
  waiters_ok (compact_queue ws) ∧ slots (compact_queue ws) = slots ws ∧
  queued_live (compact_queue ws) = queued_live ws ∧
  next_generation (compact_queue ws) = next_generation ws ∧
  live_wakers (slots ws) (queue (compact_queue ws)) = live_wakers (slots ws) (queue ws).
Proof.
  intros [Hsl Hfn Hf Hnd He Hq Hl Hls Hst Hn]. unfold compact_queue. destruct ws as [q sl fr lv st ng]; simpl in *.
  rewrite count_if_filter, <-Hl. split_and!; try done.
  - split; simpl; try done.
    + by apply NoDup_filter.
    + intros k [_ Hk]%list_elem_of_filter. by apply He.
    + intros i s Hs Hqs. apply list_elem_of_filter. split; [|by apply Hq].
      apply is_live_true. exists s. destruct (Hsl _ _ Hs) as [Hx _]. by destruct (Hx Hqs).
    + rewrite Hl. clear. induction q as [|k q IH]; [done|]. rewrite filter_cons. simpl.
      destruct (is_live sl k) eqn:Hk; simpl; rewrite ?Hk; simpl; lia.
    + rewrite count_if_filter, <-Hl. lia.
  - clear. induction q as [|k q IH]; [done|].
    assert (is_live sl k = false → live_waker sl k = None) as Hn by (unfold live_waker; by intros ->).
    rewrite filter_cons, live_wakers_cons. case_decide as Hk.
    + by rewrite live_wakers_cons, IH.
    + by rewrite Hn by (by apply not_true_iff_false).
Qed.

Lemma maybe_compact_queue_spec ws :
  waiters_ok ws →
  let ws' := maybe_compact_queue ws in
  waiters_ok ws' ∧ slots ws' = slots ws ∧ queued_live ws' = queued_live ws ∧
  next_generation ws' = next_generation ws ∧
  live_wakers (slots ws) (queue ws') = live_wakers (slots ws) (queue ws) ∧
  (zlen (queue ws') < SENDER_WAITER_COMPACT_MIN_QUEUE_LEN ∨
   zlen (queue ws') = queued_live ws' ∨ queued_stale ws' * 2 < zlen (queue ws')).
Proof.
  intros Hok. unfold maybe_compact_queue. destruct (Z.ltb_spec (zlen (queue ws)) SENDER_WAITER_COMPACT_MIN_QUEUE_LEN).
  { split_and!; auto. }
  destruct (Z.ltb_spec (queued_stale ws * 2) (zlen (queue ws))); [split_and!; auto|].
  destruct (compact_queue_spec ws Hok) as (Hok' & ? & ? & ? & ?). split_and!; try done.
  right. left. pose proof (wo_stale _ Hok') as Hs. unfold compact_queue in *. destruct ws; simpl in *. lia.
Qed.

(** Freeing an owned slot turns its queue entry, if any, into a tombstone. *)
Lemma count_live_remove sl sl' q k :
  NoDup q → (∀ k', k' ∈ q → k' ≠ k → is_live sl' k' = is_live sl k') → is_live sl' k = false →
  count_if (is_live sl') q = count_if (is_live sl) q - (if decide (k ∈ q) then Z.b2z (is_live sl k) else 0).
Proof.
  intros Hnd Hoth Hk. induction q as [|k0 q IH].
  { destruct (decide (k ∈ [])) as [Hin|]; [by apply not_elem_of_nil in Hin|done]. }
  apply NoDup_cons in Hnd as [Hni Hnd]. simpl. destruct (decide (k0 = k)) as [->|Hne].
  - rewrite decide_True by left. rewrite Hk.
    rewrite (count_if_ext (is_live sl)); [simpl; lia|].
    intros k' Hk'. apply Hoth; [by right|]. by intros ->.
  - rewrite IH; [|done|intros; apply Hoth; [by right|done]]. rewrite (Hoth k0) by (done || left).
    destruct (decide (k ∈ q)) as [Hin|Hin].
    + rewrite decide_True by (by right). lia.
    + rewrite decide_False by (intros [?|?]%elem_of_cons; congruence). lia.
Qed.

Lemma free_slot_ok ws k s :
  waiters_ok ws → owned_slot ws k = Some s →
  waiters_ok (mkWaiters (queue ws) (<[index k := mkSlot (generation s) None false false]> (slots ws))
    (index k :: free_slots ws) (queued_live ws - Z.b2z (queued s)) (queued_stale ws + Z.b2z (queued s))
    (next_generation ws)).
Proof.
  intros [Hsl Hfn Hf Hnd He Hq Hl Hls Hst Hn] (Hs & Hu & Hg)%owned_slot_spec.
  pose proof (lookup_lt_Some _ _ _ Hs) as Hlt. set (s' := mkSlot (generation s) None false false).
  assert (∀ j t, <[index k:=s']> (slots ws) !! j = Some t →
    (j = index k ∧ t = s') ∨ (j ≠ index k ∧ slots ws !! j = Some t)) as Hlk.
  { intros j t Hj. destruct (decide (j = index k)) as [->|Hji].
    - rewrite list_lookup_insert_eq in Hj by done. left. by simplify_eq.
    - rewrite list_lookup_insert_ne in Hj by done. auto. }
  split; simpl; try done.
  - intros j t [[-> ->]|[_ Hj]]%Hlk; [done|by apply (Hsl _ _ Hj)].
  - apply NoDup_cons. split; [|done]. rewrite Hf. intros (? & ? & ?). congruence.
  - intros j. rewrite elem_of_cons, Hf. destruct (decide (j = index k)) as [->|Hji].
    + rewrite list_lookup_insert_eq by done. split; [by eauto|auto].
    + rewrite list_lookup_insert_ne by done. split; [by intros [?|?]|auto].
  - intros k' Hk'. destruct (He k' Hk') as [? Hent]. split; [done|].
    intros t [[_ ->]|[_ Hj]]%Hlk; [done|by eapply Hent].
  - intros j t [[-> ->]|[_ Hj]]%Hlk Hqt; [done|by apply Hq].
  - rewrite (count_live_remove (slots ws) _ _ k), <-Hl.
    + f_equal. assert (is_live (slots ws) k = queued s) as Hlv.
      { unfold is_live. by rewrite Hs, Hu, (proj2 (Z.eqb_eq _ _) Hg). }
      destruct (decide (k ∈ queue ws)) as [|Hni]; [by rewrite Hlv|].
      destruct (queued s) eqn:Hqs; [|done]. destruct Hni. replace k with (mkKey (index k) (generation s)); [by apply Hq|].
      destruct k; simpl in *. congruence.
    + done.
    + intros k' Hk' Hne. destruct (decide (index k' = index k)) as [Hi|Hi]; [|by apply is_live_insert_ne].
      unfold is_live. rewrite Hi, list_lookup_insert_eq, Hs by done. simpl.
      destruct (Z.eqb_spec (generation s) (key_generation k')); [|by rewrite andb_false_r].
      destruct Hne. destruct k, k'; simpl in *; congruence.
    + unfold is_live. by rewrite list_lookup_insert_eq.
  - rewrite (count_if_insert _ _ _ s) by done. simpl. lia.
  - lia.
Qed.

Lemma unregister_ok ws k s :
  waiters_ok ws → owned_slot ws k = Some s →
  ∃ ws', unregister ws k = Some ws' ∧ waiters_ok ws' ∧
  (∀ i, shape (slots ws') i =
     if decide (i = index k) then Some (false, key_generation k) else shape (slots ws) i) ∧
  queued_live ws' = queued_live ws - Z.b2z (queued s) ∧
  count_if is_woken (slots ws') = count_if is_woken (slots ws) - Z.b2z (negb (queued s)) ∧
  next_generation ws' = next_generation ws ∧
  (zlen (queue ws') < SENDER_WAITER_COMPACT_MIN_QUEUE_LEN ∨
   zlen (queue ws') = queued_live ws' ∨ queued_stale ws' * 2 < zlen (queue ws')).
Proof.
  intros Hok Hown. pose proof (free_slot_ok ws k s Hok Hown) as Hok2.
  match type of Hok2 with waiters_ok ?x => exists (maybe_compact_queue x) end.
  destruct (maybe_compact_queue_spec _ Hok2) as (Hok3 & Hsl3 & Hl3 & Hn3 & _ & Hlen). simpl in *.
  pose proof Hown as (Hs & Hu & Hg)%owned_slot_spec. pose proof (lookup_lt_Some _ _ _ Hs) as Hlt.
  split.
  { unfold unregister. rewrite Hown. destruct (queued s) eqn:Hqs; simpl.
    - assert (1 ≤ queued_live ws).
      { rewrite (wo_live_slots _ Hok). pose proof (count_if_insert queued (slots ws) _ _ vacant Hs) as Hc.
        rewrite Hqs in Hc. simpl in Hc. pose proof (count_if_nonneg queued (<[index k:=vacant]> (slots ws))). lia. }
      unfold checked_sub. destruct (Z.ltb_spec (queued_live ws) 1); [lia|]. by destruct ws.
    - destruct ws; simpl. by rewrite Z.sub_0_r, Z.add_0_r. }
  split_and!; try done.
  - intros j. rewrite Hsl3. unfold shape. case_decide as Hj; [subst j; rewrite list_lookup_insert_eq by done; simpl; by rewrite Hg|].
    by rewrite list_lookup_insert_ne.
  - rewrite Hsl3, (count_if_insert _ _ _ s) by done. unfold is_woken. rewrite Hu. simpl. lia.
Qed.

(** ** Channel operations on the waiter table *)

Definition ws_of (st : State) : SenderWaiters := default waiters_new (sender_waiters st).
Arguments ws_of !st /.

Abbreviation live st := (queued_live (ws_of st)).
Abbreviation woken st := (count_if is_woken (slots (ws_of st))).

Lemma live_nonneg st : waiters_ok (ws_of st) → 0 ≤ live st.
Proof. intros Hok. rewrite (wo_live _ Hok). apply count_if_nonneg. Qed.

(** [d] queued senders become woken ones; nothing else changes. *)
Record wakes (st st' : State) (d : Z) : Prop := {
  wk_ok : waiters_ok (ws_of st');
  wk_inner : inner st' = inner st;
  wk_count : sender_count st' = sender_count st;
  wk_shape : ∀ i, shape (slots (ws_of st')) i = shape (slots (ws_of st)) i;
  wk_live : live st' = live st - d;
  wk_woken : woken st' = woken st + d;
  wk_next : next_generation (ws_of st') = next_generation (ws_of st);
}.

Lemma wakes_refl st : waiters_ok (ws_of st) → wakes st st 0.
Proof. intros Hok. split; try done; lia. Qed.

Lemma wake_completion_waiters_spec st n :
  waiters_ok (ws_of st) → 0 ≤ n →
  ∃ st' eff, wake_completion_waiters st n = Some (st', eff) ∧ wakes st st' (Z.min n (live st)).
Proof.
  intros Hok Hn. pose proof (live_nonneg st Hok) as Hl. unfold wake_completion_waiters.
  destruct (Z.eqb_spec n 0) as [->|Hne].
  { eexists _, _. split; [done|]. rewrite Z.min_l by lia. by apply wakes_refl. }
  destruct st as [q sc [ws|]]; simpl in *.
  - destruct (wake_n_loop_spec n (queue ws) ws) as (ws' & Hw & ? & ? & ? & ? & ?); [done|by destruct ws|].
    unfold wake_n. rewrite Hw. simpl. eexists _, _. split; [done|]. by split.
  - eexists _, _. split; [done|]. rewrite Z.min_r by lia. by apply wakes_refl.
Qed.

Lemma wake_all_waiters_ok st :
  waiters_ok (ws_of st) →
  ∃ st' eff, wake_all_sender_waiters st = Some (st', eff) ∧ wakes st st' (live st).
Proof.
  intros Hok. pose proof (live_nonneg st Hok) as Hl. unfold wake_all_sender_waiters.
  destruct st as [q sc [ws|]]; simpl in *.
  - pose proof (wo_live _ Hok) as Hlive. pose proof (count_if_le (is_live (slots ws)) (queue ws)).
    pose proof (zlen_nonneg (queue ws)).
    unfold wake_all. rewrite (wake_all_loop_eq _ _ (zlen (queue ws) + 1)) by (first [lia|by destruct ws]).
    destruct (wake_n_loop_spec (zlen (queue ws) + 1) (queue ws) ws) as (ws' & -> & ? & ? & Hl' & Hw' & ?);
      [lia|by destruct ws|]. simpl. rewrite Z.min_r in Hl', Hw' by lia. eexists _, _. split; [done|]. by split.
  - eexists _, _. split; [done|]. by apply wakes_refl.
Qed.

(** The keys a future may present. *)
Definition key_owned (st : State) (ko : option SenderWaiterKey) : Prop :=
  ∀ k, ko = Some k → ∃ s, owned_slot (ws_of st) k = Some s.

(** Whether the key's slot still waits in the queue. *)
Definition key_queued (st : State) (ko : option SenderWaiterKey) : bool :=
  match ko with
  | Some k => match owned_slot (ws_of st) k with Some s => queued s | None => false end
  | None => false
  end.

Definition key_woken (st : State) (ko : option SenderWaiterKey) : bool :=
  match ko with
  | Some k => match owned_slot (ws_of st) k with Some s => negb (queued s) | None => false end
  | None => false
  end.

Lemma release_key_spec st ko :
  waiters_ok (ws_of st) → key_owned st ko →
  ∃ st', release_key st ko = Some st' ∧ waiters_ok (ws_of st') ∧ inner st' = inner st ∧
  sender_count st' = sender_count st ∧
  (∀ i, shape (slots (ws_of st')) i =
     match ko with
     | Some k => if decide (i = index k) then Some (false, key_generation k) else shape (slots (ws_of st)) i
     | None => shape (slots (ws_of st)) i
     end) ∧
  live st' = live st - Z.b2z (key_queued st ko) ∧
  woken st' = woken st - Z.b2z (key_woken st ko) ∧
  next_generation (ws_of st') = next_generation (ws_of st).
Proof.
  intros Hok Hown. destruct ko as [k|]; simpl.
  - destruct (Hown k eq_refl) as [s Hs]. rewrite Hs.
    destruct st as [q sc [ws|]]; simpl in *; [|by destruct k as [[] ?]].
    destruct (unregister_ok ws k s Hok Hs) as (ws' & Hu & ? & ? & ? & ? & ? & _).
    unfold unregister_sender_waiter. simpl. rewrite Hu. simpl. eexists. split; [done|]. by split_and!.
  - eexists. split; [done|]. split_and!; try done; lia.
Qed.

Lemma register_or_refresh_spec st ko w :
  waiters_ok (ws_of st) → key_owned st ko → next_generation (ws_of st) < u64_max →
  ∃ k st', register_or_refresh_sender_waiter st ko w = (k, st') ∧ waiters_ok (ws_of st') ∧
  inner st' = inner st ∧ sender_count st' = sender_count st ∧
  (∀ i, shape (slots (ws_of st')) i =
     if decide (i = index k) then Some (true, key_generation k) else shape (slots (ws_of st)) i) ∧
  match ko with Some k0 => k = k0 | None => ∀ g, shape (slots (ws_of st)) (index k) ≠ Some (true, g) end ∧
  live st' = live st + Z.b2z (negb (key_queued st ko)) ∧
  woken st' = woken st - Z.b2z (key_woken st ko) ∧
  next_generation (ws_of st') ≤ next_generation (ws_of st) + 1.
Proof.
  intros Hok Hown Hmax. unfold register_or_refresh_sender_waiter, register_or_refresh. fold (ws_of st).
  destruct ko as [k|]; simpl.
  - destruct (Hown k eq_refl) as [s Hs]. rewrite Hs.
    destruct (refresh_spec _ k s w Hok Hs) as (? & Hsh & ? & ? & ?).
    eexists _, _. split; [done|]. destruct st; simpl in *. split_and!; try done; [|lia].
    intros i. rewrite Hsh. case_decide; [subst i|done].
    apply owned_slot_spec in Hs as (Hs & Hu & Hg). unfold shape. rewrite Hs. simpl. by rewrite Hu, Hg.
  - pose proof (register_spec (ws_of st) w Hok Hmax) as Hspec.
    destruct (register_waiter (ws_of st) w) as [k ws']. destruct Hspec as (? & ? & ? & ? & ? & ?).
    eexists _, _. split; [done|]. destruct st; simpl in *. split_and!; try done; lia.
Qed.

(** ** The queue core inside the channel *)

(** [q] is a state the queue core reaches from its initial state. *)
Definition reach (c : ControlChannelConfig) (q : @Inner PData Meta Json) : Prop :=
  ∃ ops h, run (start c) ops = Some h ∧ core h = q.

Lemma run_snoc (h : @History PData Meta Json) ops op :
  run h (ops ++ [op]) = h' ← run h ops; step h' op.
Proof.
  revert h. induction ops as [|o ops IH]; intros h; simpl.
  - by destruct (step h op).
  - destruct (step h o) as [h'|]; simpl; [apply IH|done].
Qed.

Lemma reach_step c q q' op :
  reach c q → (∀ h, core h = q → ∃ h', step h op = Some h' ∧ core h' = q') → reach c q'.
Proof.
  intros (ops & h & Hr & Hq) Hs. destruct (Hs h Hq) as (h' & ? & ?).
  exists (ops ++ [op]), h'. split; [|done]. by rewrite run_snoc, Hr.
Qed.

Lemma reach_wf c q : config_ok c → reach c q → core_wf q ∧ config q = c.
Proof.
  intros Hc (ops & h & Hr & <-).
  destruct (hist_ok_run ops _ _ _ (hist_ok_start c Hc)) as (h' & st & lost & Hr' & Hok & Hcf).
  rewrite Hr in Hr'. simplify_eq. split; [apply (ho_wf _ _ _ Hok)|by rewrite Hcf].
Qed.

Lemma reach_new c : reach c (ControlCore.new c).
Proof. by exists [], (start c). Qed.

Lemma reach_try_send c q cmd now : reach c q → reach c (ControlCore.try_send q cmd now).2.
Proof.
  intros Hr. apply (reach_step _ _ _ (OpTrySend cmd now) Hr). intros h <-. simpl.
  destruct (ControlCore.try_send (core h) cmd now) as [r q']. by eexists.
Qed.

Lemma reach_record_drain c q m now : reach c q → reach c (record_drain_ingress q m now).2.
Proof.
  intros Hr. apply (reach_step _ _ _ (OpRecordDrain m now) Hr). intros h <-. simpl. eexists. split; [done|]. by destruct h.
Qed.

Lemma reach_record_shutdown c q m now : reach c q → reach c (record_shutdown q m now).2.
Proof.
  intros Hr. apply (reach_step _ _ _ (OpRecordShutdown m now) Hr). intros h <-. simpl. eexists. split; [done|]. by destruct h.
Qed.

Lemma reach_close c q : reach c q → reach c (ControlCore.close q).2.
Proof.
  intros Hr. apply (reach_step _ _ _ OpClose Hr). intros h <-. simpl. eexists. split; [done|]. by destruct h.
Qed.

Lemma reach_pop c q now e q' : reach c q → pop_event q now = Some (e, q') → reach c q'.
Proof.
  intros Hr Hp. apply (reach_step _ _ _ (OpPop now) Hr). intros h <-. simpl. rewrite Hp. by eexists.
Qed.

(** What a delivery frees. *)
Lemma pop_event_frees (q : @Inner PData Meta Json) now :
  core_wf q →
  ∃ e q', pop_event q now = Some (e, q') ∧
  match e with
  | Some (EvCompletionBatch b) => closed q' = closed q ∧ completion q = b ++ completion q'
  | Some (EvShutdown _) => closed q' = true
  | _ => closed q' = closed q ∧ completion q' = completion q
  end ∧ (shutdown_forced q = true → shutdown_forced q' = true).
Proof.
  intros Hwf. destruct (pop_event_cases q now Hwf) as (e & q' & Hpop & Hcase).
  destruct (refresh_same_life q now) as [Hl Hc]. apply (refresh_wf _ now) in Hwf.
  exists e, q'. split; [done|]. split; cycle 1.
  { intros Hf. rewrite (pop_case_forced _ _ _ Hwf Hcase). by apply (sl_forced _ _ Hl). }
  rewrite <-(sl_closed _ _ Hl), <-Hc.
  set (r := refresh_in_shutdown q now) in *. clearbody r.
  destruct Hcase as [m v Hd|budget b rest v t1 t2 Hd Hcm Hb Hz Hf Hbud|m Hd Hph Hs Hor|e q' Hd Hph Hpd Hor Ht|Hd Hs Hcm Hn].
  - by destruct r.
  - by destruct r.
  - by apply (finalize_shutdown_spec r m Hwf Hph Hs).
  - destruct (take_next_normal_event_spec r Hpd) as (e' & k & q'' & Ht' & Hk & Hb & _).
    rewrite Ht in Ht'. simplify_eq. pose proof (sb_closed _ _ Hb). pose proof (sb_completion _ _ Hb).
    by destruct e'.
  - done.
Qed.

(** ** Futures and slots *)

Abbreviation owned_by st ft := (SlotOwners.owns waiter_key index key_generation (shape (slots (ws_of st))) ft).

Record sys_ok (c : ControlChannelConfig) (n : Z) (y : System) : Prop := {
  so_reach : reach c (inner (chan y));
  so_waiters : waiters_ok (ws_of (chan y));
  so_generation : next_generation (ws_of (chan y)) ≤ n;
  so_owns : owned_by (chan y) (futures y);
  so_pending : ∀ f fu, futures y !! f = Some fu → ∃ cmd, pending_cmd fu = Some cmd ∧
    (is_Some (waiter_key fu) → completion_of cmd ≠ []);
  so_count : 0 ≤ sender_count (chan y);
  so_handles : sender_count (chan y) = 0 → futures y = ∅;
  so_closed : closed (inner (chan y)) = true → live (chan y) = 0;
}.

(** Every free completion place has been announced to a waiting sender. *)
Definition announced (y : System) : Prop :=
  0 < live (chan y) → closed (inner (chan y)) = false → shutdown_forced (inner (chan y)) = false →
  completion_msg_capacity (config (inner (chan y))) - zlen (completion (inner (chan y))) ≤ woken (chan y).

(** The operation does not drop a future between its wake-up and its next poll. *)
Definition keeps_wakeups (y : System) (op : ChannelOp) : bool :=
  match op with
  | ChDropFuture f =>
    match futures y !! f with Some fu => negb (key_woken (chan y) (waiter_key fu)) | None => true end
  | _ => true
  end.

Record step_keeps (c : ControlChannelConfig) (n : Z) (op : ChannelOp) (y y' : System) : Prop := {
  sk_ok : sys_ok c n y';
  sk_announced : announced y → keeps_wakeups y op = true → announced y';
}.

(** Operations on the core that free no completion place. *)
Lemma sys_ok_core c n op y q' sc hr :
  config_ok c → sys_ok c n y → reach c q' → 0 ≤ sc → (sc = 0 → futures y = ∅) →
  (closed q' = true → closed (inner (chan y)) = true ∨ futures y = ∅) →
  (shutdown_forced (inner (chan y)) = true → shutdown_forced q' = true) →
  zlen (completion (inner (chan y))) ≤ zlen (completion q') →
  step_keeps c n op y
    (mkSystem (mkState q' sc (sender_waiters (chan y))) (futures y) hr).
Proof.
  intros Hc [H1 H2 H3 H4 H5 H6 H7 H8] Hr Hsc Hsc0 Hcl Hfo Hlen.
  destruct (reach_wf c _ Hc H1) as [_ Hc1]. destruct (reach_wf c _ Hc Hr) as [_ Hc2].
  destruct y as [[q sc0 sw] ft hr0]; simpl in *. split.
  - split; simpl; try done. intros Hclosed. destruct (Hcl Hclosed) as [?|He]; [auto|].
    rewrite (wo_live_slots _ H2). rewrite (count_if_ext (λ _, false)).
    { clear. induction (slots (default waiters_new sw)) as [|s l IH]; simpl; [done|lia]. }
    intros s (i & Hs)%list_elem_of_lookup. destruct (queued s) eqn:Hq; [|done].
    destruct (wo_slot _ H2 _ _ Hs) as [Hx _]. destruct (Hx Hq) as [Hu _].
    destruct (SlotOwners.owns_empty _ _ _ _ _ H4 ltac:(by rewrite He) i (generation s)).
    unfold shape. rewrite Hs. simpl. by rewrite Hu.
  - unfold announced. simpl. intros Ha _ Hl Hop Hnf. rewrite Hc2. rewrite Hc1 in Ha.
    destruct (closed q) eqn:Hq; [rewrite H8 in Hl by done; lia|].
    destruct (shutdown_forced q) eqn:Hf; [rewrite Hfo in Hnf; done|]. specialize (Ha Hl eq_refl eq_refl). lia.
Qed.

(** Waking [d] queued senders while freeing at most [d] places, or all of them. *)
Lemma sys_ok_wakes c n op y q' st' d hr :
  config_ok c → sys_ok c n y → reach c q' →
  wakes ((chan y) <| inner := q' |>) st' d → 0 ≤ d ≤ live (chan y) →
  (shutdown_forced (inner (chan y)) = true → shutdown_forced q' = true) →
  (d = live (chan y) ∨ closed q' = false ∧ closed (inner (chan y)) = false ∧
     zlen (completion (inner (chan y))) - zlen (completion q') ≤ d) →
  step_keeps c n op y (mkSystem st' (futures y) hr).
Proof.
  intros Hc [H1 H2 H3 H4 H5 H6 H7 H8] Hr [W1 W2 W3 W4 W5 W6 W7] Hd Hfo Hor.
  destruct (reach_wf c _ Hc H1) as [_ Hc1]. destruct (reach_wf c _ Hc Hr) as [_ Hc2].
  destruct y as [[q sc0 sw] ft hr0]; simpl in *. split.
  - split; simpl; try done; try congruence; try lia.
    + by eapply SlotOwners.owns_ext.
    + rewrite W3. auto.
    + intros He. destruct Hor as [->|(? & _)]; [lia|congruence].
  - unfold announced. simpl. intros Ha _ Hl Hop Hnf. rewrite W2 in *. rewrite Hc2, W6. destruct Hor as [->|(_ & Hop' & Hlen)]; [lia|].
    rewrite Hc1 in Ha. assert (0 < queued_live (default waiters_new sw)) as Hl' by lia.
    destruct (shutdown_forced q) eqn:Hf; [rewrite Hfo in Hnf; done|]. specialize (Ha Hl' Hop' eq_refl). lia.
Qed.

Lemma sender_key_owned c n y f fu :
  sys_ok c n y → futures y !! f = Some fu → key_owned (chan y) (waiter_key fu).
Proof.
  intros Hok Hf k Hk. pose proof (SlotOwners.ow_key _ _ _ _ _ (so_owns _ _ _ Hok) _ _ _ Hf Hk) as Hsh.
  unfold shape in Hsh. destruct (slots (ws_of (chan y)) !! index k) as [s|] eqn:Hs; [|done].
  simpl in Hsh. exists s. apply owned_slot_spec. split; [done|]. by simplify_eq.
Qed.

Lemma woken_nonneg st : 0 ≤ woken st.
Proof. apply count_if_nonneg. Qed.

(** A future leaves with its key, whatever became of the queue core. *)
Lemma sys_ok_release c n op y f fu q' st' :
  config_ok c → sys_ok c n y → futures y !! f = Some fu → reach c q' →
  closed q' = closed (inner (chan y)) →
  (shutdown_forced (inner (chan y)) = true → shutdown_forced q' = true) →
  release_key ((chan y) <| inner := q' |>) (waiter_key fu) = Some st' →
  (keeps_wakeups y op = true →
     key_woken (chan y) (waiter_key fu) = true → closed q' = false → shutdown_forced q' = false →
     zlen (completion (inner (chan y))) + 1 ≤ zlen (completion q')) →
  zlen (completion (inner (chan y))) ≤ zlen (completion q') →
  step_keeps c n op y (mkSystem st' (delete f (futures y)) (has_receiver y)).
Proof.
  intros Hc Hok Hf Hr Hcl Hfo Hrel Hkw Hlen. pose proof (sender_key_owned _ _ _ _ _ Hok Hf) as Hown.
  destruct Hok as [H1 H2 H3 H4 H5 H6 H7 H8].
  destruct (reach_wf c _ Hc H1) as [_ Hc1]. destruct (reach_wf c _ Hc Hr) as [_ Hc2].
  destruct (release_key_spec ((chan y) <| inner := q' |>) (waiter_key fu))
    as (st0 & Hrel' & R1 & R2 & R3 & R4 & R5 & R6 & R7); [by destruct (chan y)|by destruct (chan y)|].
  rewrite Hrel in Hrel'. injection Hrel' as <-.
  assert (key_woken ((chan y) <| inner := q' |>) (waiter_key fu) = key_woken (chan y) (waiter_key fu)) as Ekw
    by (by destruct (chan y)). rewrite Ekw in R6.
  pose proof (live_nonneg st' R1) as Hnn. destruct y as [[q sc sw] ft hr]; simpl in *.
  split.
  - split; simpl; try congruence; try lia.
    + eapply SlotOwners.owns_delete; try done.
    + intros f' fu' [_ Hf']%lookup_delete_Some. eauto.
    + intros Hsc. rewrite H7 in Hf by congruence. done.
    + rewrite R2, Hcl. intros Hx. specialize (H8 Hx). destruct (key_queued _ _); simpl in *; lia.
  - unfold announced. simpl. intros Ha Hk Hl Hop Hnf. rewrite R2 in *. rewrite Hc2, R6.
    rewrite Hc1 in Ha. assert (0 < queued_live (default waiters_new sw)) as Hl' by (destruct (key_queued _ _); simpl in *; lia).
    destruct (shutdown_forced q) eqn:Hfq; [rewrite Hfo in Hnf; done|]. specialize (Ha Hl' ltac:(congruence) eq_refl).
    destruct (key_woken _ _) eqn:Hkw'; simpl; [specialize (Hkw Hk eq_refl Hop Hnf)|]; lia.
Qed.

(** A future stays blocked on a full queue. *)
Lemma sys_ok_blocked c n op y f fu fu' q' st' k cmd w :
  config_ok c → sys_ok c n y → n < u64_max → futures y !! f = Some fu → reach c q' →
  closed q' = false → closed (inner (chan y)) = false →
  zlen (completion q') = completion_msg_capacity c →
  register_or_refresh_sender_waiter ((chan y) <| inner := q' |>) (waiter_key fu) w = (k, st') →
  waiter_key fu' = Some k → pending_cmd fu' = Some cmd → completion_of cmd ≠ [] →
  step_keeps c (n + 1) op y (mkSystem st' (<[f := fu']> (futures y)) (has_receiver y)) ∧
  inner st' = q'.
Proof.
  intros Hc Hok Hn Hf Hr Hcl Hcl0 Hfull Hreg Hk Hcmd Hcomp. pose proof (sender_key_owned _ _ _ _ _ Hok Hf) as Hown.
  destruct Hok as [H1 H2 H3 H4 H5 H6 H7 H8].
  destruct (reach_wf c _ Hc Hr) as [_ Hc2].
  destruct (register_or_refresh_spec ((chan y) <| inner := q' |>) (waiter_key fu) w)
    as (k' & st0 & Hreg' & R1 & R2 & R3 & R4 & R5 & R6 & R7 & R8);
    [by destruct (chan y)|by destruct (chan y)|destruct (chan y); simpl in *; lia|].
  rewrite Hreg in Hreg'. injection Hreg' as <- <-. pose proof (woken_nonneg st').
  destruct y as [[q sc sw] ft hr]; simpl in *. split; [|done]. split.
  - split; simpl; try congruence; try lia.
    + by eapply SlotOwners.owns_refresh.
    + intros f' fu0 [[<- <-]|[_ Hf']]%lookup_insert_Some; eauto.
    + intros Hsc. rewrite H7 in Hf by congruence. done.
  - unfold announced. simpl. intros _ _ _ _ _. rewrite R2, Hc2. lia.
Qed.

Lemma next_deadline_Some (q : @Inner PData Meta Json) d :
  next_deadline q = Some d → phase q = ShutdownRecorded ∧ shutdown_deadline q = Some d ∧
  closed q = false ∧ shutdown_forced q = false.
Proof.
  unfold next_deadline. destruct (closed q), (shutdown_forced q); simpl; try done.
  by case_bool_decide.
Qed.

Lemma step_keeps_trans c n1 n2 op op2 y1 y2 y3 :
  step_keeps c n1 op y1 y2 → step_keeps c n2 op2 y2 y3 → keeps_wakeups y2 op2 = true → step_keeps c n2 op y1 y3.
Proof. intros [? H1] [? H2] Hk. split; [done|]. auto. Qed.

Lemma release_key_inner st ko q :
  release_key (st <| inner := q |>) ko = (λ s, s <| inner := q |>) <$> release_key st ko.
Proof.
  destruct ko as [k|]; [|done]. destruct st as [q0 sc [ws|]]; simpl; [|done].
  unfold unregister_sender_waiter. simpl. by destruct (unregister ws k).
Qed.

(** The round after the sleep elapsed: the future has given up its key and the send
    is refused. *)
Lemma poll_expired_ok c n y1 f k cmd d now e obs w :
  config_ok c → sys_ok c n y1 → futures y1 !! f = Some (mkFuture (Some cmd) (Some k) None) →
  next_deadline (inner (chan y1)) = Some d → d ≤ now →
  ∃ st2 st3, release_key (chan y1) (Some k) = Some st2 ∧
  poll_send ((now, e) :: obs) st2 (mkFuture (Some cmd) None None) w =
    Some (Ready _ (Err (Closed cmd)), mkFuture None None None, st3, []) ∧
  step_keeps c n ChClose y1 (mkSystem st3 (delete f (futures y1)) (has_receiver y1)).
Proof.
  intros Hc Hok Hf (Hph & Hdl & _ & _)%next_deadline_Some Hnow.
  destruct (try_send_after_deadline _ cmd now d Hph Hdl Hnow) as (q2 & Hq2 & Hf2).
  pose proof (reach_try_send _ _ cmd now (so_reach _ _ _ Hok)) as Hr2. rewrite Hq2 in Hr2.
  pose proof (try_send_spec _ cmd now (proj1 (reach_wf _ _ Hc (so_reach _ _ _ Hok)))) as Hs2. rewrite Hq2 in Hs2.
  destruct Hs2 as (_ & Hl2 & Hcm2 & _). simpl in Hr2.
  pose proof (sender_key_owned _ _ _ _ _ Hok Hf) as Hown. simpl in Hown.
  destruct (release_key_spec (chan y1) (Some k) (so_waiters _ _ _ Hok) Hown) as (st2 & Hst2 & _ & Hin2 & _).
  exists st2, (st2 <| inner := q2 |>). split; [done|]. split.
  { simpl. unfold try_send. by rewrite Hin2, Hq2. }
  eapply (sys_ok_release c n ChClose y1 f); try done.
  - apply (sl_closed _ _ Hl2).
  - pose proof (release_key_inner (chan y1) (Some k) q2) as Hx. by rewrite Hst2 in Hx.
  - congruence.
  - rewrite Hcm2. lia.
Qed.

Lemma poll_op_ok c n y f w obs fu :
  config_ok c → sys_ok c n y → n < u64_max → futures y !! f = Some fu →
  obs_accurate (shutdown_deadline (inner (chan y))) obs = true →
  ∃ y' eff, poll_op y f w obs fu = Some (y', eff) ∧ step_keeps c (n + 1) (ChPoll f w obs) y y'.
Proof.
  intros Hc Hok Hn Hf Hobs. destruct obs as [|[now elapsed] obs]; [done|].
  destruct (so_pending _ _ _ Hok _ _ Hf) as (cmd & Hcmd & Hkc).
  pose proof (reach_try_send _ _ cmd now (so_reach _ _ _ Hok)) as Hr.
  destruct (reach_wf _ _ Hc (so_reach _ _ _ Hok)) as [Hwf Hcf].
  pose proof (try_send_spec (inner (chan y)) cmd now Hwf) as Hspec.
  pose proof (sender_key_owned _ _ _ _ _ Hok Hf) as Hown.
  assert (∀ q', ∃ st', release_key ((chan y) <| inner := q' |>) (waiter_key fu) = Some st') as Hrel.
  { intros q'. destruct (release_key_spec ((chan y) <| inner := q' |>) (waiter_key fu)) as (st' & ? & _); eauto;
      pose proof (so_waiters _ _ _ Hok); by destruct (chan y). }
  assert (sys_ok c (n + 1) y) as Hok1 by (destruct Hok; split; try done; lia).
  unfold poll_op. cbn [poll_send]. rewrite Hcmd. cbn [mbind option_bind]. unfold try_send at 1.
  destruct (ControlCore.try_send (inner (chan y)) cmd now) as [r q']. simpl in *.
  destruct Hspec as (_ & Hl & Hres). destruct (Hrel q') as [st' Hst'].
  destruct r as [o|[cmd'|a cmd']].
  - destruct Hres as (Hcm & Hcl & Hnf). rewrite Hst'. simpl. eexists _, _. split; [done|].
    pose proof (sys_ok_release c (n + 1) (ChPoll f w ((now, elapsed) :: obs)) y f fu q' st' Hc Hok1 Hf Hr
      (sl_closed _ _ Hl) (sl_forced _ _ Hl) Hst') as Hgoal.
    rewrite Hcm, zlen_app in Hgoal. pose proof (zlen_nonneg (completion_of cmd)).
    destruct y; simpl in *. apply Hgoal; [|lia]. intros _ Hk _ _. destruct (waiter_key fu) as [k|]; [|done].
    specialize (Hkc ltac:(by eexists)). destruct (completion_of cmd); [done|]. rewrite zlen_cons.
    pose proof (zlen_nonneg l). lia.
  - destruct Hres as (Hcm & -> & Hor). rewrite Hst'. simpl. eexists _, _. split; [done|].
    pose proof (sys_ok_release c (n + 1) (ChPoll f w ((now, elapsed) :: obs)) y f fu q' st' Hc Hok1 Hf Hr
      (sl_closed _ _ Hl) (sl_forced _ _ Hl) Hst') as Hgoal. rewrite Hcm in Hgoal.
    destruct y; simpl in *. apply Hgoal; [|lia]. intros _ _ Hopen Hnf. rewrite (sl_closed _ _ Hl) in Hopen.
    destruct Hor; congruence.
  - destruct Hres as (Hcm & -> & _ & Hfull & Hcomp & Hop). rewrite Hcf in Hfull. rewrite <-Hcm in Hfull.
    destruct (register_or_refresh_sender_waiter _ (waiter_key fu) w) as [k st1] eqn:Hreg.
    assert (closed q' = false) as Hop' by (by rewrite (sl_closed _ _ Hl)).
    assert (∀ ds op, step_keeps c (n + 1) op y
      (mkSystem st1 (<[f := mkFuture (Some cmd) (Some k) ds]> (futures y)) (has_receiver y)) ∧ inner st1 = q') as Hblock.
    { intros ds op. by eapply sys_ok_blocked. }
    destruct (Hblock None (ChPoll f w ((now, elapsed) :: obs))) as [Hkeep Hin]. rewrite Hin.
    destruct (next_deadline q') as [d|] eqn:Hnd; simpl; cycle 1.
    { eexists _, _. split; [done|]. by destruct y. }
    destruct elapsed; simpl; cycle 1.
    { eexists _, _. split; [done|]. destruct y; simpl in *. by apply Hblock. }
    pose proof (next_deadline_Some _ _ Hnd) as (_ & Hdl & _). rewrite <-(sl_deadline _ _ Hl), Hdl in Hobs.
    destruct obs as [|[now2 e2] obs]; [done|]. apply Z.leb_le in Hobs.
    clear Hblock. set (y1 := mkSystem _ _ _) in Hkeep.
    destruct (poll_expired_ok c (n + 1) y1 f k cmd d now2 e2 obs w Hc (sk_ok _ _ _ _ _ Hkeep))
      as (st2 & st3 & Hst2 & Hp2 & Hk2); [apply lookup_insert_eq|by simpl; rewrite Hin|done|].
    simpl in Hst2. rewrite Hst2. cbn [mbind option_bind]. rewrite Hp2. simpl. eexists _, _. split; [done|].
    eapply (step_keeps_trans c (n + 1) (n + 1) _ ChClose y y1); [exact Hkeep| |done].
    unfold y1 at 2 3 in Hk2. simpl in Hk2. rewrite delete_insert_eq in Hk2. by destruct y.
Qed.

Lemma close_core (q : @Inner PData Meta Json) :
  ControlCore.close q = (negb (closed q), (ControlCore.close q).2) ∧ closed (ControlCore.close q).2 = true ∧
  completion (ControlCore.close q).2 = completion q ∧ shutdown_forced (ControlCore.close q).2 = shutdown_forced q.
Proof. unfold ControlCore.close. destruct q as [? ? cl]; simpl. by destruct cl. Qed.

Lemma sys_ok_succ c n y : sys_ok c n y → sys_ok c (n + 1) y.
Proof. intros []. split; try done; lia. Qed.

Lemma step_keeps_refl c n op y : sys_ok c n y → step_keeps c (n + 1) op y y.
Proof. intros Hok. split; [by apply sys_ok_succ|done]. Qed.

(** [close_channel] by a sender or the dropped receiver. *)
Lemma close_channel_ok c n op y hr :
  config_ok c → sys_ok c n y →
  ∃ st' eff, close_channel (chan y) = Some (st', eff) ∧ step_keeps c n op y (mkSystem st' (futures y) hr).
Proof.
  intros Hc Hok. destruct (close_core (inner (chan y))) as (E & Hcl & Hcm & Hf).
  pose proof (reach_close _ _ (so_reach _ _ _ Hok)) as Hr. unfold close_channel. rewrite E.
  set (q' := (ControlCore.close (inner (chan y))).2) in *.
  destruct (closed (inner (chan y))) eqn:Hcl0; simpl.
  - eexists _, _. split; [done|].
    pose proof (sys_ok_core c n op y q' (sender_count (chan y)) hr Hc Hok Hr (so_count _ _ _ Hok) (so_handles _ _ _ Hok)) as Hg.
    destruct y as [[]]; simpl in *. apply Hg; [by left|congruence|rewrite Hcm; lia].
  - destruct (wake_all_waiters_ok ((chan y) <| inner := q' |>)) as (st' & eff & Hw & Hwk).
    { pose proof (so_waiters _ _ _ Hok). by destruct (chan y). }
    assert (live ((chan y) <| inner := q' |>) = live (chan y)) as El by (by destruct (chan y)). rewrite El in Hwk.
    simpl in Hw. rewrite Hw. simpl. eexists _, _. split; [done|].
    pose proof (live_nonneg _ (so_waiters _ _ _ Hok)).
    eapply sys_ok_wakes; [done|done|exact Hr|exact Hwk|lia|congruence|by left].
Qed.

(** Delivery, by [try_recv] or by a round of [recv]. *)
Lemma receive_ok c n op y now :
  config_ok c → sys_ok c n y →
  ∃ e q' st' eff, pop_event (inner (chan y)) now = Some (e, q') ∧
  match e with
  | Some ev => notify_after_pop ((chan y) <| inner := q' |>) ev
  | None => Some ((chan y) <| inner := q' |>, [])
  end = Some (st', eff) ∧
  step_keeps c n op y (mkSystem st' (futures y) (has_receiver y)).
Proof.
  intros Hc Hok. destruct (reach_wf _ _ Hc (so_reach _ _ _ Hok)) as [Hwf _].
  destruct (pop_event_frees (inner (chan y)) now Hwf) as (e & q' & Hpop & Hfree & Hfo).
  pose proof (reach_pop _ _ _ _ _ (so_reach _ _ _ Hok) Hpop) as Hr. exists e, q'.
  pose proof (so_waiters _ _ _ Hok) as Hws. pose proof (live_nonneg _ Hws) as Hnn.
  assert (closed q' = closed (inner (chan y)) → completion q' = completion (inner (chan y)) →
    step_keeps c n op y (mkSystem ((chan y) <| inner := q' |>) (futures y) (has_receiver y))) as Hplain.
  { intros Hcl Hcm.
    pose proof (sys_ok_core c n op y q' (sender_count (chan y)) (has_receiver y) Hc Hok Hr (so_count _ _ _ Hok) (so_handles _ _ _ Hok)) as Hg.
    destruct y as [[]]; simpl in *. apply Hg; [left; congruence|done|rewrite Hcm; lia]. }
  assert (waiters_ok (ws_of ((chan y) <| inner := q' |>)) ∧ live ((chan y) <| inner := q' |>) = live (chan y)) as [Hws' El]
    by (by destruct (chan y)).
  destruct e as [[m|b|j| | |m]|]; simpl; try (destruct Hfree; eexists _, _; split_and!; [done|done|by apply Hplain]).
  - destruct Hfree as [Hcl Hcm]. pose proof (zlen_nonneg b).
    destruct (wake_completion_waiters_spec _ (zlen b) Hws') as (st' & eff & Hw & Hwk); [done|]. rewrite El in Hwk.
    eexists st', eff. split_and!; [done|done|]. eapply sys_ok_wakes; [done|done|exact Hr|exact Hwk|lia|done|].
    destruct (closed (inner (chan y))) eqn:Hcl0.
    + left. rewrite (so_closed _ _ _ Hok) by done. lia.
    + destruct (decide (live (chan y) ≤ zlen b)); [left; lia|right]. split_and!; try done.
      rewrite Hcm, zlen_app. lia.
  - destruct (wake_all_waiters_ok _ Hws') as (st' & eff & Hw & Hwk). rewrite El in Hwk.
    simpl in Hw. rewrite Hw. simpl. eexists st', _. split_and!; [done|done|].
    eapply sys_ok_wakes; [done|done|exact Hr|exact Hwk|lia|done|by left].
Qed.

(** The operation cannot be performed: nothing changes. *)
Ltac stay := eexists _, _; split; [done|by apply step_keeps_refl].

(** [op] is a step that keeps the invariant. *)
Definition step_fine (c : ControlChannelConfig) (n : Z) (y : System) (op : ChannelOp) : Prop :=
  ∃ y' eff, channel_step y op = Some (y', eff) ∧ step_keeps c (n + 1) op y y'.

Section steps.
Context (c : ControlChannelConfig) (n : Z) (y : System).
Context (Hc : config_ok c) (Hok : sys_ok c n y) (Hn : n < u64_max).

Lemma try_send_step_fine cmd now : step_fine c n y (ChTrySend cmd now).
Proof using Hc Hok.
  unfold step_fine, channel_step. destruct (sender_count (chan y) =? 0); [stay|].
  destruct (reach_wf _ _ Hc (so_reach _ _ _ Hok)) as [Hwf _].
  pose proof (reach_try_send _ _ cmd now (so_reach _ _ _ Hok)) as Hr.
  pose proof (try_send_spec _ cmd now Hwf) as Hspec.
  unfold try_send. destruct (ControlCore.try_send _ cmd now) as [r q']. destruct Hspec as (_ & Hl & Hres).
  eexists _, _. split; [done|].
  pose proof (sys_ok_core c (n + 1) (ChTrySend cmd now) y q' (sender_count (chan y)) (has_receiver y) Hc
    (sys_ok_succ _ _ _ Hok) Hr (so_count _ _ _ Hok) (so_handles _ _ _ Hok)) as Hg.
  destruct y as [[]]; simpl in *. apply Hg; [rewrite (sl_closed _ _ Hl); auto|apply (sl_forced _ _ Hl)|].
  pose proof (zlen_nonneg (completion_of cmd)).
  destruct r as [|[|]]; destruct Hres as (-> & _); rewrite ?zlen_app; lia.
Qed.

Lemma send_step_fine f cmd : step_fine c n y (ChSend f cmd).
Proof using Hc Hok.
  unfold step_fine, channel_step. destruct (Z.eqb_spec (sender_count (chan y)) 0); simpl; [stay|].
  case_bool_decide as Hf; [stay|]. apply eq_None_not_Some in Hf. eexists _, _. split; [done|].
  pose proof (sys_ok_succ _ _ _ Hok) as [H1 H2 H3 H4 H5 H6 H7 H8]. destruct y; simpl in *. split; [|done].
  split; simpl; try done; [by apply SlotOwners.owns_insert_new|].
  intros f' fu' [[<- <-]|[_ ?]]%lookup_insert_Some; [|eauto]. eexists. split; [done|]. by intros [? ?].
Qed.

Lemma poll_step_fine f w obs : step_fine c n y (ChPoll f w obs).
Proof using Hc Hok Hn.
  unfold step_fine, channel_step. destruct (futures y !! f) as [fu|] eqn:Hf; [|stay].
  destruct (obs_accurate _ _) eqn:Hobs; [|stay]. by apply poll_op_ok.
Qed.

Lemma drop_future_step_fine f : step_fine c n y (ChDropFuture f).
Proof using Hc Hok.
  unfold step_fine, channel_step. destruct (futures y !! f) as [fu|] eqn:Hf; [|stay].
  pose proof (release_key_inner (chan y) (waiter_key fu) (inner (chan y))) as Hrk.
  destruct (release_key_spec _ _ (so_waiters _ _ _ Hok) (sender_key_owned _ _ _ _ _ Hok Hf))
    as (st' & Hst & _ & Hin & _).
  rewrite Hst in Hrk |- *. simpl in *. eexists _, _. split; [done|].
  pose proof (sys_ok_release c (n + 1) (ChDropFuture f) y f fu (inner (chan y)) st' Hc (sys_ok_succ _ _ _ Hok)
    Hf (so_reach _ _ _ Hok) eq_refl) as Hg.
  destruct y as [st ft hr]; simpl in *. apply Hg; try done; [|rewrite Hf; intros Hk Hw; by rewrite Hw in Hk].
  rewrite Hrk. destruct st'; simpl in *. by rewrite Hin.
Qed.

Lemma receive_step_fine now : step_fine c n y (ChTryRecv now) ∧ step_fine c n y (ChRecv now).
Proof using Hc Hok.
  pose proof (receive_ok c (n + 1) (ChTryRecv now) y now Hc (sys_ok_succ _ _ _ Hok)) as H1.
  pose proof (receive_ok c (n + 1) (ChRecv now) y now Hc (sys_ok_succ _ _ _ Hok)) as H2.
  unfold step_fine, channel_step, try_recv, recv_round.
  destruct (has_receiver y) eqn:Hr; [|split; stay].
  destruct H1 as (e & q' & st' & eff & Hp & Hnt & Hk), H2 as (e2 & q2 & st2 & eff2 & Hp2 & Hnt2 & Hk2).
  rewrite Hp in Hp2. simplify_eq. rewrite Hp. simpl.
  destruct e2 as [ev|]; simpl in Hnt; [rewrite Hnt; simpl|simplify_eq/=].
  all: split; eexists _, _; (split; [done|]); destruct y; simpl in *; by subst.
Qed.

Lemma drain_step_fine m now : step_fine c n y (ChAcceptDrain m now).
Proof using Hc Hok.
  unfold step_fine, channel_step. destruct (sender_count (chan y) =? 0); [stay|].
  destruct (reach_wf _ _ Hc (so_reach _ _ _ Hok)) as [Hwf _].
  pose proof (reach_record_drain _ _ m now (so_reach _ _ _ Hok)) as Hr.
  pose proof (record_drain_ingress_spec _ m now Hwf) as Hspec.
  unfold accept_drain_ingress. destruct (record_drain_ingress _ m now) as [r q'].
  destruct Hspec as (_ & Hcm & _ & Hcl & _ & _ & _ & Hfo & _). eexists _, _. split; [done|].
  pose proof (sys_ok_core c (n + 1) (ChAcceptDrain m now) y q' (sender_count (chan y)) (has_receiver y) Hc
    (sys_ok_succ _ _ _ Hok) Hr (so_count _ _ _ Hok) (so_handles _ _ _ Hok)) as Hg.
  destruct y as [[]]; simpl in *. apply Hg; [rewrite Hcl; auto|done|rewrite Hcm; lia].
Qed.

Lemma shutdown_step_fine m now : step_fine c n y (ChAcceptShutdown m now).
Proof using Hc Hok.
  unfold step_fine, channel_step. destruct (sender_count (chan y) =? 0); [stay|].
  destruct (reach_wf _ _ Hc (so_reach _ _ _ Hok)) as [Hwf _].
  pose proof (reach_record_shutdown _ _ m now (so_reach _ _ _ Hok)) as Hr.
  pose proof (record_shutdown_spec _ m now Hwf) as Hspec.
  unfold accept_shutdown. destruct (record_shutdown _ m now) as [r q']. simpl in Hr.
  destruct Hspec as (_ & Hcm & _ & Hcl & _ & _ & _ & Hfo & _).
  pose proof (sys_ok_core c (n + 1) (ChAcceptShutdown m now) y q' (sender_count (chan y)) (has_receiver y) Hc
    (sys_ok_succ _ _ _ Hok) Hr (so_count _ _ _ Hok) (so_handles _ _ _ Hok)) as Hg.
  assert (waiters_ok (ws_of ((chan y) <| inner := q' |>)) ∧ live ((chan y) <| inner := q' |>) = live (chan y)) as [Hws' El].
  { pose proof (so_waiters _ _ _ Hok). by destruct (chan y). }
  pose proof (live_nonneg _ (so_waiters _ _ _ Hok)) as Hnn.
  destruct r; [|eexists _, _; split; [done|]; destruct y as [[]]; simpl in *;
    (apply Hg; [rewrite Hcl; auto|done|rewrite Hcm; lia])..].
  destruct (wake_all_waiters_ok _ Hws') as (st' & eff & Hw & Hwk). rewrite El in Hwk.
  rewrite Hw. simpl. eexists _, _. split; [done|].
  pose proof (sys_ok_wakes c (n + 1) (ChAcceptShutdown m now) y q' st' _ (has_receiver y) Hc
    (sys_ok_succ _ _ _ Hok) Hr Hwk) as Hgoal.
  destruct y; simpl in *. apply Hgoal; [lia|done|by left].
Qed.

Lemma close_step_fine : step_fine c n y ChClose ∧ step_fine c n y ChDropReceiver.
Proof using Hc Hok.
  destruct (close_channel_ok c (n + 1) ChClose y (has_receiver y) Hc (sys_ok_succ _ _ _ Hok)) as (st1 & eff1 & E1 & Hk1).
  destruct (close_channel_ok c (n + 1) ChDropReceiver y false Hc (sys_ok_succ _ _ _ Hok)) as (st2 & eff2 & E2 & Hk2).
  unfold step_fine, channel_step. split.
  - destruct (sender_count (chan y) =? 0); [stay|]. rewrite E1. simpl. eexists _, _. split; [done|]. by destruct y.
  - destruct (has_receiver y); [|stay]. rewrite E2. simpl. eexists _, _. split; [done|]. by destruct y.
Qed.

Lemma clone_step_fine : step_fine c n y ChCloneSender.
Proof using Hc Hok.
  unfold step_fine, channel_step. destruct (Z.eqb_spec (sender_count (chan y)) 0) as [|Hne]; [stay|].
  eexists _, _. split; [done|]. pose proof (so_count _ _ _ Hok) as Hsc. unfold clone_sender.
  pose proof (sys_ok_core c (n + 1) ChCloneSender y (inner (chan y))
    (saturating_add usize_max (sender_count (chan y)) 1) (has_receiver y) Hc
    (sys_ok_succ _ _ _ Hok) (so_reach _ _ _ Hok)) as Hg.
  assert (0 < saturating_add usize_max (sender_count (chan y)) 1)
    by (unfold saturating_add, usize_max, u64_max; lia).
  destruct y as [[]]; simpl in *. apply Hg; [lia|lia|auto|done|lia].
Qed.

Lemma drop_sender_step_fine : step_fine c n y ChDropSender.
Proof using Hc Hok.
  unfold step_fine, channel_step. pose proof (so_count _ _ _ Hok) as Hsc.
  destruct (Z.eqb_spec (sender_count (chan y)) 0) as [|Hne]; [stay|]. simpl.
  destruct ((sender_count (chan y) =? 1) && negb (bool_decide (futures y = ∅))) eqn:Hlast; [stay|].
  assert (sender_count (chan y) = 1 → futures y = ∅) as Hempty.
  { intros E. rewrite E in Hlast. simpl in Hlast. apply negb_false_iff in Hlast. by apply bool_decide_eq_true in Hlast. }
  unfold drop_sender. destruct (close_core (inner (chan y))) as (Ec & _ & Hcm & Hf).
  pose proof (reach_close _ _ (so_reach _ _ _ Hok)) as Hr. rewrite ?Ec.
  set (sc := saturating_sub (sender_count (chan y)) 1).
  assert (sc = sender_count (chan y) - 1) as Esc by (unfold sc, saturating_sub; lia). clearbody sc.
  destruct (Z.eqb_spec sc 0) as [E0|E0].
  - destruct y as [[q sc0 sw] ft hr]; simpl in *. rewrite Ec. simpl. eexists _, _. split; [done|].
    apply (sys_ok_core c (n + 1) ChDropSender (mkSystem (mkState q sc0 sw) ft hr) (ControlCore.close q).2 sc hr);
      simpl; try done; [by apply sys_ok_succ|lia| | | |].
    + intros _. apply Hempty. lia.
    + intros _. right. apply Hempty. lia.
    + congruence.
    + rewrite Hcm. lia.
  - eexists _, _. split; [done|]. destruct y as [[q sc0 sw] ft hr]; simpl in *.
    apply (sys_ok_core c (n + 1) ChDropSender (mkSystem (mkState q sc0 sw) ft hr) q sc hr);
      simpl; try done; [by apply sys_ok_succ|apply (so_reach _ _ _ Hok)|lia|auto].
Qed.

End steps.

Lemma channel_step_ok c n y op :
  config_ok c → sys_ok c n y → n < u64_max → step_fine c n y op.
Proof.
  intros Hc Hok Hn. destruct op.
  - by apply try_send_step_fine.
  - by apply send_step_fine.
  - by apply poll_step_fine.
  - by apply drop_future_step_fine.
  - by apply receive_step_fine.
  - by apply receive_step_fine.
  - by apply drain_step_fine.
  - by apply shutdown_step_fine.
  - by apply close_step_fine.
  - by apply clone_step_fine.
  - by apply drop_sender_step_fine.
  - by apply close_step_fine.
Qed.

Lemma system_new_ok c : config_ok c → sys_ok c 0 (system_new c).
Proof.
  intros Hc. split; simpl; try done; [apply reach_new|apply waiters_new_ok].
Qed.

Lemma channel_run_ok c ops n y :
  config_ok c → sys_ok c n y → n + zlen ops ≤ u64_max →
  ∃ y', channel_run y ops = Some y' ∧ sys_ok c (n + zlen ops) y'.
Proof.
  intros Hc. revert n y. induction ops as [|op ops IH]; intros n y Hok Hlen; simpl.
  - exists y. split; [done|]. change (zlen []) with 0. by rewrite Z.add_0_r.
  - rewrite zlen_cons in Hlen. pose proof (zlen_nonneg ops).
    destruct (channel_step_ok c n y op Hc Hok) as (y1 & eff & -> & Hk); [lia|]. simpl.
    destruct (IH (n + 1) y1 (sk_ok _ _ _ _ _ Hk)) as (y2 & ? & ?); [lia|].
    exists y2. rewrite zlen_cons. split; [done|]. by replace (n + (zlen ops + 1)) with (n + 1 + zlen ops) by lia.
Qed.

(** No step of the run drops a future between its wake-up and its next poll. *)
Fixpoint run_keeps_wakeups (y : System) (ops : list ChannelOp) : bool :=
  match ops with
  | [] => true
  | op :: ops =>
    keeps_wakeups y op &&
    match channel_step y op with Some (y', _) => run_keeps_wakeups y' ops | None => false end
  end.

Lemma channel_run_announced c ops n y y' :
  config_ok c → sys_ok c n y → n + zlen ops ≤ u64_max → announced y →
  run_keeps_wakeups y ops = true → channel_run y ops = Some y' → announced y'.
Proof.
  intros Hc. revert n y. induction ops as [|op ops IH]; intros n y Hok Hlen Ha Hk Hr; simpl in *.
  - by simplify_eq.
  - rewrite zlen_cons in Hlen. pose proof (zlen_nonneg ops). apply andb_true_iff in Hk as [Hk1 Hk2].
    destruct (channel_step_ok c n y op Hc Hok) as (y1 & eff & E & [Hok1 Ha1]); [lia|]. rewrite E in Hr, Hk2. simpl in *.
    eapply (IH (n + 1) y1); auto. lia.
Qed.

(** What one poll of a blocked send returns. *)
Lemma poll_send_outcome c n y f w obs fu cmd :
  config_ok c → sys_ok c n y → n < u64_max → futures y !! f = Some fu → pending_cmd fu = Some cmd →
  obs_accurate (shutdown_deadline (inner (chan y))) obs = true →
  ∃ r fu' st' eff, poll_send obs (chan y) fu w = Some (r, fu', st', eff) ∧
  match r with
  | Ready _ (Ok _) => completion (inner st') = completion (inner (chan y)) ++ completion_of cmd ∧
      closed (inner (chan y)) = false
  | Ready _ (Err (Closed cmd')) => cmd' = cmd ∧ completion (inner st') = completion (inner (chan y)) ∧
      (closed (inner (chan y)) = true ∨ shutdown_forced (inner st') = true)
  | Pending _ => pending_cmd fu' = Some cmd ∧ is_Some (waiter_key fu') ∧
      completion (inner st') = completion (inner (chan y)) ∧
      zlen (completion (inner st')) = completion_msg_capacity c ∧ closed (inner st') = false ∧
      deadline_sleep fu' = next_deadline (inner st')
  end.
Proof.
  intros Hc Hok Hn Hf Hcmd Hobs. destruct (poll_op_ok c n y f w obs fu Hc Hok Hn Hf Hobs) as (y' & eff & Hp & _).
  unfold poll_op in Hp. destruct (poll_send obs (chan y) fu w) as [[[[r fu'] st'] eff']|] eqn:Hpoll; [|done].
  clear Hp. exists r, fu', st', eff'. split; [done|].
  destruct (reach_wf _ _ Hc (so_reach _ _ _ Hok)) as [Hwf Hcf].
  assert (∀ st ko st', release_key st ko = Some st' → inner st' = inner st) as Hrel.
  { intros [q sc [ws|]] [k|] st0; simpl; try (by intros [= <-]).
    unfold unregister_sender_waiter. simpl. destruct (unregister ws k); intros [= <-]. done. }
  destruct obs as [|[now elapsed] obs]; [done|]. simpl in Hpoll. rewrite Hcmd in Hpoll. simpl in Hpoll.
  pose proof (try_send_spec (inner (chan y)) cmd now Hwf) as Hspec.
  pose proof (reach_try_send _ _ cmd now (so_reach _ _ _ Hok)) as Hr.
  unfold try_send at 1 in Hpoll. destruct (ControlCore.try_send (inner (chan y)) cmd now) as [res q'].
  destruct Hspec as (_ & Hl & Hres). simpl in Hpoll, Hr. set (st0 := mkState q' _ _) in Hpoll.
  destruct res as [o|[cmd'|a cmd']].
  - destruct (release_key st0 (waiter_key fu)) as [st1|] eqn:Hk; simplify_eq/=.
    rewrite (Hrel _ _ _ Hk). simpl. by destruct Hres as (? & ? & _).
  - destruct (release_key st0 (waiter_key fu)) as [st1|] eqn:Hk; simplify_eq/=.
    rewrite (Hrel _ _ _ Hk). simpl. by destruct Hres as (? & ? & ?).
  - destruct Hres as (Hcm & -> & _ & Hfull & Hcomp & Hop).
    destruct (register_or_refresh_sender_waiter st0 (waiter_key fu) w) as [k st1] eqn:Hreg.
    assert (inner st1 = q') as Hin.
    { unfold register_or_refresh_sender_waiter in Hreg. destruct (register_or_refresh _ _ _). by simplify_eq/=. }
    rewrite Hin in Hpoll. destruct (next_deadline q') as [d|] eqn:Hnd.
    + destruct elapsed; cycle 1.
      { simplify_eq/=. rewrite Hcm, (sl_closed _ _ Hl), Hnd. split_and!; done. }
      apply next_deadline_Some in Hnd as (Hph & Hdl & Hcl' & _). simpl in Hobs. rewrite <-(sl_deadline _ _ Hl), Hdl in Hobs.
      destruct obs as [|[now2 e2] obs]; [done|]. apply Z.leb_le in Hobs.
      destruct (release_key st1 (Some k)) as [st2|] eqn:Hk; simpl in Hk; rewrite Hk in Hpoll; [|done]. simpl in Hpoll.
      destruct (try_send_after_deadline q' cmd now2 d Hph Hdl Hobs) as (q2 & Hq2 & Hf2).
      pose proof (try_send_spec q' cmd now2 (proj1 (reach_wf _ _ Hc Hr))) as Hs2. rewrite Hq2 in Hs2.
      unfold try_send in Hpoll. rewrite (Hrel st1 (Some k) st2 Hk), Hin, Hq2 in Hpoll. simplify_eq/=.
      destruct Hs2 as (_ & _ & Hcm2 & _). split_and!; [done|congruence|by right].
    + simplify_eq/=. rewrite Hcm, (sl_closed _ _ Hl), Hnd. split_and!; done.
Qed.

(** ** Properties *)

(** C25: the channel implements its queue core: in every run of fewer than 2^64
    operations no operation panics, trips a debug assertion or underflows a
    counter, the core inside the channel is in a state the core alone reaches by
    some sequence of its own operations (so every property of the core holds of the
    channel), and the waiter queue consists of exactly [queued_live] live entries,
    one per queued slot, and [queued_stale] tombstones. *)
Theorem channel_refines_core c ops :
  config_ok c → zlen ops ≤ u64_max →
  ∃ y core_ops h, channel_run (system_new c) ops = Some y ∧
    run (start c) core_ops = Some h ∧ core h = inner (chan y) ∧
    queued_live (ws_of (chan y)) = count_if (is_live (slots (ws_of (chan y)))) (queue (ws_of (chan y))) ∧
    queued_live (ws_of (chan y)) = count_if queued (slots (ws_of (chan y))) ∧
    zlen (queue (ws_of (chan y))) = queued_live (ws_of (chan y)) + queued_stale (ws_of (chan y)).
Proof.
  intros Hc Hlen. destruct (channel_run_ok c ops 0 _ Hc (system_new_ok c Hc) Hlen) as (y & Hr & Hok).
  destruct (so_reach _ _ _ Hok) as (core_ops & h & ? & ?). exists y, core_ops, h.
  destruct (so_waiters _ _ _ Hok). by split_and!.
Qed.

(** C13: freed capacity is announced: in a run that drops no future between its
    wake-up and its next poll, whenever senders still wait in the queue and the
    shutdown deadline has not been forced, the channel is open and its free
    completion places are no more than the senders already woken to take them. *)
Theorem freed_capacity_announced c ops y :
  config_ok c → zlen ops ≤ u64_max →
  channel_run (system_new c) ops = Some y → run_keeps_wakeups (system_new c) ops = true →
  0 < queued_live (ws_of (chan y)) → shutdown_forced (inner (chan y)) = false →
  closed (inner (chan y)) = false ∧
  completion_msg_capacity c - zlen (completion (inner (chan y))) ≤ count_if is_woken (slots (ws_of (chan y))).
Proof.
  intros Hc Hlen Hr Hk Hl Hnf.
  destruct (channel_run_ok c ops 0 _ Hc (system_new_ok c Hc) Hlen) as (y' & Hr' & Hok).
  rewrite Hr in Hr'. injection Hr' as <-. destruct (reach_wf _ _ Hc (so_reach _ _ _ Hok)) as [_ Hcf].
  destruct (closed (inner (chan y))) eqn:Hop; [rewrite (so_closed _ _ _ Hok Hop) in Hl; lia|]. split; [done|].
  pose proof (channel_run_announced c ops 0 _ y Hc (system_new_ok c Hc) Hlen ltac:(by intros ?) Hk Hr Hl Hop Hnf) as Ha.
  by rewrite Hcf in Ha.
Qed.

(** C39: a wake-up can be lost: in any state the channel reaches, dropping a future
    that was woken and has not been polled since frees its slot and does nothing
    else: no other sender is woken, the queue core and the queued senders are as
    before, and one woken sender less is left to take the free places.  If it was
    the only one, the senders that still wait in the queue do so with nobody woken,
    however many places are free, and a receive that finds no event wakes none of
    them either. *)
Theorem cancelled_wake_strands_sender c ops y f fu :
  config_ok c → zlen ops ≤ u64_max → channel_run (system_new c) ops = Some y →
  futures y !! f = Some fu → key_woken (chan y) (waiter_key fu) = true →
  ∃ y', channel_step y (ChDropFuture f) = Some (y', []) ∧ futures y' = delete f (futures y) ∧
    inner (chan y') = inner (chan y) ∧ queued_live (ws_of (chan y')) = queued_live (ws_of (chan y)) ∧
    count_if is_woken (slots (ws_of (chan y'))) = count_if is_woken (slots (ws_of (chan y))) - 1 ∧
    ∀ now q op, pop_event (inner (chan y)) now = Some (None, q) → op = ChTryRecv now ∨ op = ChRecv now →
      ∃ y2, channel_step y' op = Some (y2, []) ∧ futures y2 = futures y' ∧ ws_of (chan y2) = ws_of (chan y').
Proof.
  intros Hc Hlen Hr Hf Hw. destruct (channel_run_ok c ops 0 _ Hc (system_new_ok c Hc) Hlen) as (y0 & Hr0 & Hok).
  rewrite Hr in Hr0. injection Hr0 as <-.
  destruct (release_key_spec _ _ (so_waiters _ _ _ Hok) (sender_key_owned _ _ _ _ _ Hok Hf))
    as (st' & Hst & _ & Hin & _ & _ & Hlive & Hwoken & _).
  assert (key_queued (chan y) (waiter_key fu) = false) as Hq.
  { unfold key_woken, key_queued in *. destruct (waiter_key fu); [|done]. destruct (owned_slot _ _) as [sl|]; [|done]. by destruct (queued sl). }
  rewrite Hq in Hlive. rewrite Hw in Hwoken. cbn [Z.b2z] in Hlive, Hwoken.
  exists (y <| chan := st' |> <| futures := delete f (futures y) |>). split; [cbn [channel_step]; by rewrite Hf, Hst|].
  destruct y as [st ft hr]. cbn in *. split_and!; [done|done|lia|lia|]. intros now q op Hpop Hop. rewrite <-Hin in Hpop.
  destruct Hop as [-> | ->]; cbn [channel_step has_receiver chan futures]; destruct hr; [|by eexists|..|by eexists].
  - unfold try_recv. cbn. rewrite Hpop. cbn. eexists. split; [done|]. by destruct st'.
  - unfold recv_round. cbn. rewrite Hpop. cbn. eexists. split; [done|]. by destruct st'.
Qed.

(** one poll of a send future, with an accurate timer, always returns: [Ok] only
    after the command entered the open channel, [Closed] with the command back and
    only when the channel is closed or its shutdown deadline has forced it, and
    [Pending] only with the command kept, the future registered, the deadline armed
    and the completion queue of an open channel full. *)
Theorem blocked_send_outcome c ops y f w obs fu cmd :
  config_ok c → zlen ops < u64_max → channel_run (system_new c) ops = Some y →
  futures y !! f = Some fu → pending_cmd fu = Some cmd →
  obs_accurate (shutdown_deadline (inner (chan y))) obs = true →
  ∃ r fu' st' eff, poll_send obs (chan y) fu w = Some (r, fu', st', eff) ∧
  match r with
  | Ready _ (Ok _) => completion (inner st') = completion (inner (chan y)) ++ completion_of cmd ∧
      closed (inner (chan y)) = false
  | Ready _ (Err (Closed cmd')) => cmd' = cmd ∧ completion (inner st') = completion (inner (chan y)) ∧
      (closed (inner (chan y)) = true ∨ shutdown_forced (inner st') = true)
  | Pending _ => pending_cmd fu' = Some cmd ∧ is_Some (waiter_key fu') ∧
      completion (inner st') = completion (inner (chan y)) ∧
      zlen (completion (inner st')) = completion_msg_capacity c ∧ closed (inner st') = false ∧
      deadline_sleep fu' = next_deadline (inner st')
  end.
Proof.
  intros Hc Hlen Hr Hf Hcmd Hobs.
  destruct (channel_run_ok c ops 0 _ Hc (system_new_ok c Hc)) as (y' & Hr' & Hok); [lia|].
  rewrite Hr in Hr'. injection Hr' as <-. by eapply (poll_send_outcome c _ y f).
Qed.

End channel.

(** A channel for one completion; futures 0 and 1 block on it. *)
Definition tiny_config : ControlChannelConfig := mkConfig 1 1 1.

Lemma tiny_config_ok : config_ok tiny_config.
Proof. by vm_compute. Qed.

Definition ack_cmd (n : nat) : @ControlCmd nat unit nat := CmdAck (mkAck n tt).

Definition blocked_ops : list (@ChannelOp nat unit nat nat) :=
  [ChTrySend (ack_cmd 1) 0; ChSend 0 (ack_cmd 2); ChPoll 0 10%nat [(0, false)];
   ChSend 1 (ack_cmd 3); ChPoll 1 11%nat [(0, false)]; ChTryRecv 1].

Definition blocked_state : @System nat unit nat nat :=
  default (system_new tiny_config) (channel_run (system_new tiny_config) blocked_ops).

Lemma channel_refines_core_witness :
  ∃ y core_ops h, channel_run (system_new tiny_config) blocked_ops = Some y ∧
    run (start tiny_config) core_ops = Some h ∧ core h = inner (chan y).
Proof.
  destruct (channel_refines_core tiny_config blocked_ops tiny_config_ok) as (y & cops & h & ? & ? & ? & _); [done|].
  by exists y, cops, h.
Defined.

Lemma freed_capacity_announced_witness :
  closed (inner (chan blocked_state)) = false ∧
  1 - zlen (completion (inner (chan blocked_state))) ≤ count_if is_woken (slots (ws_of (chan blocked_state))).
Proof.
  apply (freed_capacity_announced tiny_config blocked_ops blocked_state tiny_config_ok); by vm_compute.
Defined.

(** Future 0 is woken for the only place and dropped: the channel is open, empty and
    in normal operation, nobody is woken, and future 1 waits. *)
Lemma cancelled_wake_strands_sender_witness :
  ∃ y, channel_step blocked_state (ChDropFuture 0) = Some (y, []) ∧
    is_Some (futures y !! 1%nat) ∧ queued_live (ws_of (chan y)) = 1 ∧
    count_if is_woken (slots (ws_of (chan y))) = 0 ∧
    completion (inner (chan y)) = [] ∧ closed (inner (chan y)) = false ∧
    phase (inner (chan y)) = Normal ∧ has_pending_normal_event (inner (chan y)) = false.
Proof.
  destruct (cancelled_wake_strands_sender tiny_config blocked_ops blocked_state 0
              (default (mkFuture None None None) (futures blocked_state !! 0%nat)) tiny_config_ok)
    as (y & Hstep & Hfut & Hin & Hlive & Hwoken & _); [by vm_compute..|].
  exists y. split; [exact Hstep|]. rewrite Hfut, Hin, Hlive, Hwoken. split; [by eexists; vm_compute|]. by split_and!.
Defined.

End ControlChannel.
