(* ===== verification/Bytes.v ===== *)
(** * Bytes, machine words and bitmaps

    What the storage components use of the integers of the standard library:
    little-endian encodings ([to_le_bytes], [from_le_bytes]), the bit counts of
    [u64] ([count_ones], [trailing_zeros], [!]), and vectors of [u64] words read
    as bitmaps.  A byte is an integer of [Z] below 256. *)
From S2P Require Import Prelude.

Local Open Scope Z_scope.

(** ** Little-endian encodings *)

Definition byte_ok (b : Z) : Prop := 0 ≤ b < 256.

Fixpoint to_le_bytes (n : nat) (x : Z) : list Z :=
  match n with
  | O => []
  | S n' => x mod 256 :: to_le_bytes n' (x / 256)
  end.

Fixpoint from_le_bytes (l : list Z) : Z :=
  match l with
  | [] => 0
  | b :: l' => b + 256 * from_le_bytes l'
  end.

Lemma to_le_bytes_length n x : length (to_le_bytes n x) = n.
Proof. revert x. induction n; intros x; simpl; [done|by f_equal]. Qed.

Lemma to_le_bytes_ok n x : Forall byte_ok (to_le_bytes n x).
Proof.
  revert x. induction n; intros x; simpl; constructor; [|done].
  apply Z.mod_pos_bound. lia.
Qed.

Lemma pow_succ_byte n : 2 ^ (8 * Z.of_nat (S n)) = 256 * 2 ^ (8 * Z.of_nat n).
Proof. replace (8 * Z.of_nat (S n)) with (8 + 8 * Z.of_nat n) by lia. rewrite Z.pow_add_r; lia. Qed.

Lemma from_to_le_bytes n x : 0 ≤ x < 2 ^ (8 * Z.of_nat n) → from_le_bytes (to_le_bytes n x) = x.
Proof.
  revert x. induction n as [|n IH]; intros x Hx; [simpl in *; lia|].
  rewrite pow_succ_byte in Hx. cbn [to_le_bytes from_le_bytes]. rewrite IH.
  - pose proof (Z.div_mod x 256). lia.
  - split; [apply Z.div_pos; lia|]. apply Z.div_lt_upper_bound; lia.
Qed.

Lemma from_le_bytes_bound l : Forall byte_ok l → 0 ≤ from_le_bytes l < 2 ^ (8 * Z.of_nat (length l)).
Proof.
  induction 1 as [|b l Hb Hl IH]; [simpl; lia|]. cbn [length from_le_bytes].
  rewrite pow_succ_byte. unfold byte_ok in Hb. lia.
Qed.

(** ** Words *)

Definition u64_ok (w : Z) : Prop := 0 ≤ w < 2 ^ 64.

Definition u32_ok (x : Z) : Prop := 0 ≤ x < 2 ^ 32.

(** [!w] *)
Definition u64_not (w : Z) : Z := Z.lxor w u64_max.

Definition count_ones (w : Z) : Z := count_if (Z.testbit w) (seqZ 0 64).

Fixpoint trailing_zeros_from (n : nat) (i w : Z) : Z :=
  match n with
  | O => i
  | S n' => if Z.testbit w i then i else trailing_zeros_from n' (i + 1) w
  end.

Definition trailing_zeros (w : Z) : Z := trailing_zeros_from 64 0 w.

Lemma u64_max_ones : u64_max = Z.ones 64.
Proof. reflexivity. Qed.

Lemma u64_not_testbit w i : 0 ≤ i < 64 → Z.testbit (u64_not w) i = negb (Z.testbit w i).
Proof.
  intros Hi. unfold u64_not. rewrite Z.lxor_spec, u64_max_ones, Z.ones_spec_low by lia.
  by destruct (Z.testbit w i).
Qed.

Lemma u64_high_bits w i : u64_ok w → 64 ≤ i → Z.testbit w i = false.
Proof.
  intros [Hw0 Hw] Hi. destruct (decide (w = 0)) as [->|]; [apply Z.bits_0|].
  apply Z.bits_above_log2; [done|]. assert (Z.log2 w < 64); [|lia].
  apply Z.log2_lt_pow2; lia.
Qed.

Lemma u64_eq_testbit w w' :
  u64_ok w → u64_ok w' → (∀ i, 0 ≤ i < 64 → Z.testbit w i = Z.testbit w' i) → w = w'.
Proof.
  intros Hw Hw' H. apply Z.bits_inj'. intros i Hi. destruct (decide (i < 64)).
  - apply H. lia.
  - rewrite !u64_high_bits by (done || lia). done.
Qed.

Lemma u64_max_ok : u64_ok u64_max.
Proof. done. Qed.

(** A word differs from [u64::MAX] exactly when one of its bits is clear. *)
Lemma u64_max_bits w : u64_ok w → (w = u64_max ↔ ∀ i, 0 ≤ i < 64 → Z.testbit w i = true).
Proof.
  intros Hw. split.
  - intros -> i Hi. rewrite u64_max_ones. by apply Z.ones_spec_low.
  - intros H. apply u64_eq_testbit; [done|apply u64_max_ok|]. intros i Hi.
    rewrite u64_max_ones, Z.ones_spec_low by done. by apply H.
Qed.

Lemma trailing_zeros_from_spec n i w :
  let r := trailing_zeros_from n i w in
  i ≤ r ≤ i + Z.of_nat n ∧
  (∀ j, i ≤ j < r → Z.testbit w j = false) ∧
  (r < i + Z.of_nat n → Z.testbit w r = true).
Proof.
  revert i. induction n as [|n IH]; intros i; cbn [trailing_zeros_from].
  - split_and!; intros; lia.
  - destruct (Z.testbit w i) eqn:E.
    + split_and!; intros; [lia..|lia|done].
    + destruct (IH (i + 1)) as (? & Hlo & Hhi). cbn zeta in *. split_and!; [lia|lia| |].
      * intros j Hj. destruct (decide (j = i)) as [->|]; [done|]. apply Hlo. lia.
      * intros. apply Hhi. lia.
Qed.

(** [trailing_zeros] is the position of the lowest set bit. *)
Lemma trailing_zeros_spec w :
  0 ≤ trailing_zeros w ≤ 64 ∧
  (∀ j, 0 ≤ j < trailing_zeros w → Z.testbit w j = false) ∧
  (trailing_zeros w < 64 → Z.testbit w (trailing_zeros w) = true).
Proof. destruct (trailing_zeros_from_spec 64 0 w) as (? & ? & ?). done. Qed.

(** Setting the bit [1 << b] of a word. *)
Lemma set_bit_testbit w b i :
  0 ≤ b → Z.testbit (Z.lor w (Z.shiftl 1 b)) i = Z.testbit w i || bool_decide (i = b).
Proof.
  intros Hb. rewrite Z.lor_spec, Z.shiftl_1_l. case_bool_decide as Hib.
  - subst. rewrite Z.pow2_bits_true by done. by rewrite !orb_true_r.
  - destruct (decide (i < 0)); [by rewrite !Z.testbit_neg_r|].
    rewrite Z.pow2_bits_false; [done|congruence].
Qed.

Lemma set_bit_ok w b : u64_ok w → 0 ≤ b < 64 → u64_ok (Z.lor w (Z.shiftl 1 b)).
Proof.
  intros [Hw0 Hw] Hb. assert (0 ≤ Z.lor w (Z.shiftl 1 b)).
  { apply Z.lor_nonneg. split; [done|]. rewrite Z.shiftl_1_l. apply Z.pow_nonneg. lia. }
  split; [done|]. destruct (decide (Z.lor w (Z.shiftl 1 b) = 0)); [lia|].
  apply Z.log2_lt_pow2; [lia|]. rewrite Z.log2_lor by (rewrite ?Z.shiftl_1_l; try apply Z.pow_nonneg; lia).
  rewrite Z.shiftl_1_l, Z.log2_pow2 by lia. apply Z.max_lub_lt; [|lia].
  destruct (decide (w = 0)) as [->|]; [done|]. apply Z.log2_lt_pow2; lia.
Qed.

(** Testing a bit with [w & mask != 0] and with [(w >> b) & 1 == 1]. *)
Lemma mask_testbit w b :
  0 ≤ b → negb (Z.land w (Z.shiftl 1 b) =? 0) = Z.testbit w b.
Proof.
  intros Hb. rewrite Z.shiftl_1_l. destruct (Z.testbit w b) eqn:E.
  - apply negb_true_iff, Z.eqb_neq. intros H0.
    assert (Z.testbit (Z.land w (2 ^ b)) b = true) as Ht.
    { by rewrite Z.land_spec, E, Z.pow2_bits_true. }
    by rewrite H0, Z.bits_0 in Ht.
  - apply negb_false_iff, Z.eqb_eq. apply Z.bits_inj'. intros i Hi. rewrite Z.land_spec, Z.bits_0.
    destruct (decide (i = b)) as [->|]; [by rewrite E|].
    rewrite Z.pow2_bits_false by congruence. apply andb_false_r.
Qed.

Lemma shift_testbit w b : 0 ≤ b → (Z.land (Z.shiftr w b) 1 =? 1) = Z.testbit w b.
Proof.
  intros Hb. change 1 with (Z.ones 1) at 1. rewrite Z.land_ones by lia.
  rewrite Z.shiftr_div_pow2 by done. change (2 ^ 1) with 2. rewrite <- (Z.testbit_spec' w b) by done.
  by destruct (Z.testbit w b).
Qed.

(** ** Bitmaps

    A [Vec<u64>] read as a bitmap: bit [i] is bit [i % 64] of word [i / 64]. *)

(** [n.div_ceil(64)] *)
Definition div_ceil64 (n : Z) : Z := (n + 63) / 64.

Definition bitmap_get (words : list Z) (i : Z) : bool :=
  match words !! Z.to_nat (i / 64) with
  | Some w => Z.testbit w (i mod 64)
  | None => false
  end.

Definition bitmap_set (words : list Z) (i : Z) : list Z :=
  alter (λ w, Z.lor w (Z.shiftl 1 (i mod 64))) (Z.to_nat (i / 64)) words.

(** A bitmap of [n] bits: the words the count needs, each of 64 bits, and no
    bit set at or above [n]. *)
Record bitmap_ok (n : Z) (words : list Z) : Prop := {
  bitmap_len : zlen words = div_ceil64 n;
  bitmap_words : Forall u64_ok words;
  bitmap_high : ∀ i, n ≤ i → bitmap_get words i = false;
}.

Lemma mod64_bound i : 0 ≤ i mod 64 < 64.
Proof. apply Z.mod_pos_bound. lia. Qed.

Lemma bitmap_word_bound n i : 0 ≤ i < n → 0 ≤ i / 64 < div_ceil64 n.
Proof.
  unfold div_ceil64. intros Hi. split; [apply Z.div_pos; lia|].
  apply Z.div_lt_upper_bound; [lia|]. pose proof (Z.div_mod (n + 63) 64).
  pose proof (Z.mod_pos_bound (n + 63) 64). lia.
Qed.

Lemma bitmap_word_lookup n (words : list Z) i :
  zlen words = div_ceil64 n → 0 ≤ i < n → is_Some (words !! Z.to_nat (i / 64)).
Proof.
  intros Hlen Hi. apply lookup_lt_is_Some. apply bitmap_word_bound in Hi.
  unfold zlen in Hlen. lia.
Qed.

(** Reading a word and writing it back with the bit set. *)
Lemma bitmap_set_insert words i w :
  words !! Z.to_nat (i / 64) = Some w →
  <[Z.to_nat (i / 64) := Z.lor w (Z.shiftl 1 (i mod 64))]> words = bitmap_set words i.
Proof.
  unfold bitmap_set. generalize (Z.to_nat (i / 64)). intros k.
  revert k. induction words as [|x words IH]; intros [|k] Hw; simplify_eq/=; [done|].
  f_equal. by apply IH.
Qed.

Lemma bitmap_set_length words i : zlen (bitmap_set words i) = zlen words.
Proof. unfold zlen, bitmap_set. by rewrite length_alter. Qed.

Lemma bitmap_set_words words i : Forall u64_ok words → Forall u64_ok (bitmap_set words i).
Proof.
  intros H. unfold bitmap_set. apply Forall_alter; [done|]. intros w _ Hw.
  apply set_bit_ok; [done|apply mod64_bound].
Qed.

Lemma same_bit_index i j : i / 64 = j / 64 → i mod 64 = j mod 64 → i = j.
Proof. pose proof (Z.div_mod i 64). pose proof (Z.div_mod j 64). lia. Qed.

Lemma bitmap_get_set (words : list Z) i j :
  is_Some (words !! Z.to_nat (i / 64)) → 0 ≤ i → 0 ≤ j →
  bitmap_get (bitmap_set words i) j = bitmap_get words j || bool_decide (j = i).
Proof.
  intros [w Hw] Hi Hj. unfold bitmap_get, bitmap_set.
  pose proof (mod64_bound i) as Hmi. pose proof (mod64_bound j) as Hmj.
  assert (0 ≤ i / 64 ∧ 0 ≤ j / 64) as [Hdi Hdj] by (split; apply Z.div_pos; lia).
  destruct (decide (j / 64 = i / 64)) as [Heq|Hne].
  - rewrite Heq, list_lookup_alter_eq, Hw. cbn. rewrite set_bit_testbit by lia. f_equal.
    apply bool_decide_ext. split; [|congruence]. intros. by apply same_bit_index.
  - rewrite list_lookup_alter_ne by lia. rewrite (bool_decide_eq_false_2 (j = i)) by congruence.
    by rewrite orb_false_r.
Qed.

Lemma bitmap_set_ok n words i :
  bitmap_ok n words → 0 ≤ i < n → bitmap_ok n (bitmap_set words i).
Proof.
  intros [Hlen Hw Hhigh] Hi. split.
  - by rewrite bitmap_set_length.
  - by apply bitmap_set_words.
  - intros j Hj. rewrite bitmap_get_set by (lia || by eapply bitmap_word_lookup).
    rewrite Hhigh by done. apply bool_decide_eq_false_2. lia.
Qed.

Lemma bitmap_new_ok n : 0 ≤ n → bitmap_ok n (replicate (Z.to_nat (div_ceil64 n)) 0).
Proof.
  intros Hn. split.
  - unfold zlen. rewrite length_replicate. assert (0 ≤ div_ceil64 n); [|lia].
    apply Z.div_pos; lia.
  - by apply Forall_replicate.
  - intros i Hi. unfold bitmap_get. destruct (_ !! _) eqn:E; [|done].
    apply lookup_replicate in E as [-> _]. apply Z.bits_0.
Qed.

Lemma bitmap_new_get n i : bitmap_get (replicate n 0) i = false.
Proof.
  unfold bitmap_get. destruct (_ !! _) eqn:E; [|done].
  apply lookup_replicate in E as [-> _]. apply Z.bits_0.
Qed.

(** [words.iter().map(count_ones).sum()] *)
Definition bitmap_count (words : list Z) : Z := foldr (λ w n, count_ones w + n) 0 words.

Lemma count_if_false {A} (p : A → bool) l : (∀ x, x ∈ l → p x = false) → count_if p l = 0.
Proof.
  induction l as [|x l IH]; [done|]. intros H. simpl. rewrite (H x), IH; [done| |by left].
  intros y Hy. apply H. by right.
Qed.

Lemma count_if_fmap {A B} (p : B → bool) (f : A → B) l :
  count_if p (f <$> l) = count_if (λ x, p (f x)) l.
Proof. induction l as [|x l IH]; [done|]. rewrite fmap_cons. cbn. unfold count_if in IH. by rewrite IH. Qed.

Lemma count_if_true {A} (p : A → bool) l : count_if p l = zlen l ↔ ∀ x, x ∈ l → p x = true.
Proof.
  induction l as [|x l IH]; simpl; [by split; [intros _ y ?%elem_of_nil|]|].
  rewrite zlen_cons. pose proof (count_if_le p l) as Hle. split.
  - intros H y [->|Hy]%elem_of_cons.
    + destruct (p x); [done|]. simpl in H. lia.
    + apply IH; [|done]. destruct (p x); simpl in H; lia.
  - intros H. rewrite (H x) by left. assert (count_if p l = zlen l); [|simpl; lia].
    apply IH. intros y Hy. apply H. by right.
Qed.

Lemma zlen_seqZ m n : 0 ≤ n → zlen (seqZ m n) = n.
Proof. intros. unfold zlen. rewrite length_seqZ. lia. Qed.

Lemma div_mod_word k i : 0 ≤ i < 64 → (64 * k + i) / 64 = k ∧ (64 * k + i) mod 64 = i.
Proof.
  intros Hi. split.
  - rewrite Z.mul_comm, Z.div_add_l by lia. rewrite Z.div_small by lia. lia.
  - rewrite Z.add_comm, Z.mul_comm, Z.mod_add by lia. by apply Z.mod_small.
Qed.

Lemma bitmap_count_prefix words k :
  (k ≤ length words)%nat →
  count_if (bitmap_get words) (seqZ 0 (64 * Z.of_nat k)) = bitmap_count (take k words).
Proof.
  induction k as [|k IH]; intros Hk; [done|].
  destruct (lookup_lt_is_Some_2 words k) as [w Hw]; [lia|].
  rewrite (take_S_r _ _ w) by done. unfold bitmap_count. rewrite foldr_app.
  replace (64 * Z.of_nat (S k)) with (64 * Z.of_nat k + 64) by lia.
  rewrite (seqZ_app 0 (64 * Z.of_nat k) 64), count_if_app, IH by lia.
  rewrite (Z.add_comm 0 (64 * Z.of_nat k)), <- (fmap_add_seqZ (64 * Z.of_nat k) 0 64), count_if_fmap.
  rewrite (count_if_ext (Z.testbit w)).
  - unfold bitmap_count. cbn [foldr]. fold (count_ones w).
    generalize (take k words). intros l. induction l as [|x l IHl]; simpl; lia.
  - intros i Hi. apply elem_of_seqZ in Hi. unfold bitmap_get.
    destruct (div_mod_word (Z.of_nat k) i) as [-> ->]; [lia|]. by rewrite Nat2Z.id, Hw.
Qed.

Lemma div_ceil64_spec n : 0 ≤ n → n ≤ 64 * div_ceil64 n < n + 64.
Proof.
  intros Hn. unfold div_ceil64. pose proof (Z.div_mod (n + 63) 64).
  pose proof (Z.mod_pos_bound (n + 63) 64). lia.
Qed.

(** On a well-formed bitmap the population count is the number of indexes
    below [n] whose bit is set. *)
Lemma bitmap_count_spec n words :
  0 ≤ n → bitmap_ok n words → bitmap_count words = count_if (bitmap_get words) (seqZ 0 n).
Proof.
  intros Hn [Hlen _ Hhigh]. pose proof (div_ceil64_spec n Hn) as Hb.
  pose proof (bitmap_count_prefix words (length words)) as Hp.
  rewrite take_ge in Hp by lia. rewrite <- Hp by lia. unfold zlen in Hlen. rewrite Hlen.
  replace (64 * div_ceil64 n) with (n + (64 * div_ceil64 n - n)) by lia.
  rewrite seqZ_app, count_if_app by lia.
  rewrite (count_if_false _ (seqZ (0 + n) _)); [lia|].
  intros i Hi. apply elem_of_seqZ in Hi. apply Hhigh. lia.
Qed.

(** Two well-formed bitmaps with the same bits are equal. *)
Lemma bitmap_ext n words words' :
  bitmap_ok n words → bitmap_ok n words' →
  (∀ i, 0 ≤ i < n → bitmap_get words i = bitmap_get words' i) → words = words'.
Proof.
  intros [Hl Hw Hh] [Hl' Hw' Hh'] Heq. apply list_eq_same_length with (length words); [|done|].
  { unfold zlen in *. lia. }
  intros k w w' Hk Hkw Hkw'. apply u64_eq_testbit.
  - by eapply Forall_lookup in Hw.
  - by eapply Forall_lookup in Hw'.
  - intros i Hi. assert (bitmap_get words (64 * Z.of_nat k + i) = bitmap_get words' (64 * Z.of_nat k + i)) as H.
    { destruct (decide (64 * Z.of_nat k + i < n)); [apply Heq; lia|]. rewrite Hh, Hh' by lia. done. }
    unfold bitmap_get in H. destruct (div_mod_word (Z.of_nat k) i) as [E1 E2]; [lia|].
    rewrite E1, E2, Nat2Z.id, Hkw, Hkw' in H. done.
Qed.

Lemma count_if_seqZ_flip (f g : Z → bool) n i :
  0 ≤ i < n → f i = false → g i = true → (∀ j, j ≠ i → g j = f j) →
  count_if g (seqZ 0 n) = count_if f (seqZ 0 n) + 1.
Proof.
  intros Hi Hf Hg Hne. assert (seqZ 0 n !! Z.to_nat i = Some i) as Hl by (apply lookup_seqZ; lia).
  assert (∀ l : list Z, NoDup l → i ∈ l → count_if g l = count_if f l + 1) as H.
  { induction l as [|x l IH]; [by intros _ ?%elem_of_nil|].
    intros [Hx Hd]%NoDup_cons [<-|Hin]%elem_of_cons; simpl.
    - rewrite Hf, Hg, (count_if_ext f g l); [simpl; lia|]. intros y Hy. apply Hne. congruence.
    - rewrite IH, Hne by (done || congruence). lia. }
  apply H; [apply NoDup_seqZ|]. apply elem_of_seqZ. lia.
Qed.

(** Setting a clear bit of a word increases its number of ones. *)
Lemma count_ones_set_bit w b :
  0 ≤ b < 64 → Z.testbit w b = false → count_ones (Z.lor w (Z.shiftl 1 b)) = count_ones w + 1.
Proof.
  intros Hb Hw. apply (count_if_seqZ_flip _ _ _ b); [lia|done| |].
  - rewrite set_bit_testbit by lia. by rewrite bool_decide_eq_true_2, orb_true_r.
  - intros j Hj. rewrite set_bit_testbit by lia. by rewrite bool_decide_eq_false_2, orb_false_r.
Qed.
