(* ===== verification/Files.v ===== *)
(** * Byte buffers and files

    What the storage components use of slices, strings, readers and the file
    system: a directory maps file names to contents, and the result of the I/O
    calls of an atomic replacement (write a temporary file, sync it, rename it)
    is an observation ([io_fault]). *)
From Stdlib Require Export Ascii.
From stdpp Require Export strings.
From S2P Require Import Prelude Bytes.

Local Open Scope Z_scope.

(** ** Slices *)

(** [buf[off..off + bytes.len()].copy_from_slice(bytes)] *)
Definition copy_from_slice (off : nat) (bytes buf : list Z) : list Z :=
  take off buf ++ bytes ++ drop (off + length bytes) buf.

(** [data[a..b]] *)
Definition slice (a b : nat) (data : list Z) : list Z := take (b - a) (drop a data).

(** [reader.read_exact(&mut [0u8; n])] on a cursor: the bytes read and the rest. *)
Definition read_exact (n : nat) (reader : list Z) : option (list Z * list Z) :=
  if (n <=? length reader)%nat then Some (take n reader, drop n reader) else None.

Lemma read_exact_app n a r : length a = n → read_exact n (a ++ r) = Some (a, r).
Proof.
  intros <-. unfold read_exact. rewrite length_app, (proj2 (Nat.leb_le _ _)) by lia.
  by rewrite take_app_length, drop_app_length.
Qed.

Lemma slice_bound a b data :
  Forall byte_ok data → 0 ≤ from_le_bytes (slice a b data) < 2 ^ (8 * Z.of_nat (length (slice a b data))).
Proof. intros. apply from_le_bytes_bound. by apply Forall_take, Forall_drop. Qed.

(** ** Strings *)

(** [str::strip_prefix] *)
Fixpoint strip_prefix (prefix s : string) : option string :=
  match prefix, s with
  | EmptyString, _ => Some s
  | String c prefix', String d s' => if Ascii.eqb c d then strip_prefix prefix' s' else None
  | String _ _, EmptyString => None
  end.

Lemma strip_prefix_app p s : strip_prefix p (p +:+ s) = Some s.
Proof. induction p as [|c p IH]; simpl; [done|]. by rewrite Ascii.eqb_refl. Qed.

Lemma strip_prefix_Some p s t : strip_prefix p s = Some t → s = (p +:+ t)%string.
Proof.
  revert s. induction p as [|c p IH]; intros s; simpl; [by intros [= ->]|].
  destruct s as [|d s]; [done|]. destruct (Ascii.eqb_spec c d) as [->|]; [|done].
  intros H. by rewrite (IH s).
Qed.

(** [format!("{n}")] of a [u64]. *)
Definition print_digit (d : Z) : ascii := ascii_of_nat (Z.to_nat (48 + d)).

Fixpoint print_digits (fuel : nat) (n : Z) (acc : string) : string :=
  match fuel with
  | O => acc
  | S fuel' =>
      let acc := String (print_digit (n mod 10)) acc in
      if n / 10 =? 0 then acc else print_digits fuel' (n / 10) acc
  end.

Definition print_u64 (n : Z) : string := print_digits 20 n EmptyString.

(** [s.parse::<u64>()] *)
Definition digit_value (c : ascii) : option Z :=
  let n := Z.of_nat (nat_of_ascii c) in
  if (48 <=? n) && (n <=? 57) then Some (n - 48) else None.

Fixpoint parse_digits (s : string) (acc : Z) : option Z :=
  match s with
  | EmptyString => Some acc
  | String c s' =>
      d ← digit_value c;
      let acc := acc * 10 + d in
      if u64_max <? acc then None else parse_digits s' acc
  end.

Definition parse_u64 (s : string) : option Z :=
  match s with
  | EmptyString => None
  | String "+" EmptyString => None
  | String "+" s' => parse_digits s' 0
  | _ => parse_digits s 0
  end.

Lemma digit_value_print d : 0 ≤ d < 10 → digit_value (print_digit d) = Some d.
Proof.
  intros Hd. unfold digit_value, print_digit. rewrite nat_ascii_embedding by lia.
  rewrite Z2Nat.id by lia. rewrite (proj2 (Z.leb_le _ _)), (proj2 (Z.leb_le _ _)) by lia. cbn. f_equal. lia.
Qed.

Lemma parse_print_digits fuel n acc :
  0 ≤ n < 10 ^ Z.of_nat fuel → n ≤ u64_max → parse_digits (print_digits fuel n acc) 0 = parse_digits acc n.
Proof.
  revert n acc. induction fuel as [|fuel IH]; intros n acc Hn Hmax.
  { cbn in Hn. replace n with 0 by lia. done. }
  rewrite Nat2Z.inj_succ, Z.pow_succ_r in Hn by lia. cbn [print_digits].
  pose proof (Z.div_mod n 10). pose proof (Z.mod_pos_bound n 10).
  assert (∀ a, a = n / 10 → parse_digits (String (print_digit (n mod 10)) acc) a = parse_digits acc n) as Hstep.
  { intros a ->. cbn [parse_digits]. rewrite digit_value_print by lia. cbn [mbind option_bind].
    replace (n / 10 * 10 + n mod 10) with n by lia. rewrite (proj2 (Z.ltb_ge _ _)) by lia. done. }
  destruct (Z.eqb_spec (n / 10) 0) as [Hz|]; [by apply Hstep|].
  rewrite IH; [by apply Hstep| |lia]. split; [lia|]. apply Z.div_lt_upper_bound; lia.
Qed.

Lemma print_digits_head fuel n acc :
  (0 < fuel)%nat → ∃ d s, print_digits fuel n acc = String (print_digit d) s ∧ 0 ≤ d < 10.
Proof.
  revert n acc. induction fuel as [|fuel IH]; intros n acc Hf; [lia|]. cbn [print_digits].
  pose proof (Z.mod_pos_bound n 10). destruct (n / 10 =? 0); [eexists _, _; split; [done|lia]|].
  destruct fuel as [|fuel]; [eexists _, _; split; [done|lia]|]. apply IH. lia.
Qed.

(** Parsing inverts printing. *)
Lemma parse_print_u64 n : u64_ok n → parse_u64 (print_u64 n) = Some n.
Proof.
  intros Hn. unfold print_u64.
  assert (parse_digits (print_digits 20 n EmptyString) 0 = Some n) as Hp.
  { change (u64_ok n) with (0 ≤ n < 18446744073709551616) in Hn.
    rewrite parse_print_digits; [done| |].
    - change (10 ^ Z.of_nat 20) with 100000000000000000000. lia.
    - change u64_max with 18446744073709551615. lia. }
  destruct (print_digits_head 20 n EmptyString) as (d & s & Hs & Hd); [lia|]. rewrite Hs in *.
  assert (d = 0 ∨ d = 1 ∨ d = 2 ∨ d = 3 ∨ d = 4 ∨ d = 5 ∨ d = 6 ∨ d = 7 ∨ d = 8 ∨ d = 9) as Hcases by lia.
  destruct Hcases as [->|[->|[->|[->|[->|[->|[->|[->|[->| ->]]]]]]]]]; exact Hp.
Qed.

(** ** Sorting *)

(** [sort_by_key], which is stable. *)
Fixpoint insert_by_key {A} (key : A → Z) (x : A) (l : list A) : list A :=
  match l with
  | [] => [x]
  | y :: l' => if key x <? key y then x :: y :: l' else y :: insert_by_key key x l'
  end.

Definition sort_by_key {A} (key : A → Z) (l : list A) : list A :=
  foldl (λ acc x, insert_by_key key x acc) [] l.

Section sort_by_key.
Context {A : Type} (key : A → Z).

Lemma insert_by_key_perm x l : insert_by_key key x l ≡ₚ x :: l.
Proof.
  induction l as [|y l IH]; cbn; [done|]. destruct (key x <? key y); [done|]. rewrite IH. apply perm_swap.
Qed.

Lemma insert_by_key_sorted x l :
  StronglySorted (λ a b, key a ≤ key b) l → StronglySorted (λ a b, key a ≤ key b) (insert_by_key key x l).
Proof.
  induction l as [|y l IH]; intros Hl; cbn; [by repeat constructor|].
  apply StronglySorted_inv in Hl as Hl'. destruct Hl' as [Hl' Hy].
  destruct (Z.ltb_spec (key x) (key y)).
  - constructor; [done|]. constructor; [lia|]. eapply Forall_impl; [done|]. intros z Hz. simpl in *. lia.
  - constructor; [by apply IH|]. rewrite insert_by_key_perm. by constructor.
Qed.

Lemma sort_by_key_spec l :
  sort_by_key key l ≡ₚ l ∧ StronglySorted (λ a b, key a ≤ key b) (sort_by_key key l).
Proof.
  unfold sort_by_key.
  assert (∀ acc, StronglySorted (λ a b, key a ≤ key b) acc →
    foldl (λ acc x, insert_by_key key x acc) acc l ≡ₚ acc ++ l ∧
    StronglySorted (λ a b, key a ≤ key b) (foldl (λ acc x, insert_by_key key x acc) acc l)) as H; [|by apply (H []); constructor].
  induction l as [|x l IH]; intros acc Hacc; cbn [foldl]; [by rewrite app_nil_r|].
  destruct (IH (insert_by_key key x acc)) as [Hp Hs]; [by apply insert_by_key_sorted|]. split; [|done].
  rewrite Hp, insert_by_key_perm. by rewrite <- Permutation_middle.
Qed.

(** A list with distinct keys has one sorted arrangement. *)
Lemma sort_by_key_unique l l' :
  l ≡ₚ l' → StronglySorted (λ a b, key a < key b) l' → sort_by_key key l = l'.
Proof.
  intros Hp Hs. destruct (sort_by_key_spec l) as [Hp' Hs']. revert Hp' Hs'. generalize (sort_by_key key l) as k.
  intros k Hk Hks. assert (k ≡ₚ l') as Hkl by (by rewrite Hk). clear Hp Hk l.
  revert k Hkl Hks. induction Hs as [|y l' Hl' IH Hy]; intros k Hkl Hks; [by apply Permutation_nil_r in Hkl|].
  destruct k as [|x k]; [by apply Permutation_nil_cons in Hkl|].
  apply StronglySorted_inv in Hks as [Hks Hx].
  assert (x = y) as ->.
  { assert (x ∈ y :: l') as [->|Hxin]%elem_of_cons by (rewrite <- Hkl; by left); [done|].
    assert (y ∈ x :: k) as [->|Hyin]%elem_of_cons by (rewrite Hkl; by left); [done|].
    rewrite Forall_forall in Hx, Hy. specialize (Hx y Hyin). specialize (Hy x Hxin). lia. }
  f_equal. apply IH; [|done]. by apply Permutation_cons_inv in Hkl.
Qed.

End sort_by_key.

(** ** File system *)

(** The [io::Error]s that the model distinguishes. *)
Inductive IoError := NotFoundIo | UnexpectedEof | OtherIo.

(** A directory: file names and contents. *)
Abbreviation Dir := (gmap string (list Z)).

(** Which I/O call fails, if any; a failing [write_all] has written a prefix. *)
Inductive io_fault :=
  | NoFault
  | OpenFails
  | WriteFails (written : nat)
  | FlushFails
  | SyncFails
  | RenameFails.

#[global] Instance io_fault_eq_dec : EqDecision io_fault.
Proof. solve_decision. Defined.

(** A checksum to instantiate the parameter with: the sum of the bytes. *)
Definition sum32 (l : list Z) : Z := foldr Z.add 0 l mod 2 ^ 32.

Lemma sum32_u32 l : u32_ok (sum32 l).
Proof. apply Z.mod_pos_bound. lia. Qed.
