(* ===== verification/BTreeMap.v ===== *)
(** * [std::collections::BTreeMap] with integer keys

    The ordered map of the standard library, by its contract: a list of
    key-value pairs in strictly increasing order of keys, which is the order of
    iteration.  [insert] returns the updated map; [get_mut] followed by a write
    is [insert] of the changed value. *)
From S2P Require Import Prelude.

Local Open Scope Z_scope.

Module BTreeMap.
Section btree_map.
Context {V : Type}.
Implicit Types (m : list (Z * V)) (k : Z) (v : V).

Fixpoint get k m : option V :=
  match m with
  | [] => None
  | (k', v) :: m' => if k =? k' then Some v else get k m'
  end.

Definition contains_key k m : bool := match get k m with Some _ => true | None => false end.

Fixpoint insert k v m : list (Z * V) :=
  match m with
  | [] => [(k, v)]
  | (k', v') :: m' =>
      if k <? k' then (k, v) :: m
      else if k =? k' then (k, v) :: m'
      else (k', v') :: insert k v m'
  end.

(** [entry(k).or_insert_with(f)] *)
Definition or_insert k v m : list (Z * V) :=
  match get k m with Some _ => m | None => insert k v m end.

Definition retain (p : Z → V → bool) m : list (Z * V) :=
  List.filter (λ kv, p kv.1 kv.2) m.

(** [keys().next_back()] *)
Definition last_key m : option Z := last m.*1.

Definition sorted m : Prop := StronglySorted Z.lt m.*1.

Lemma sorted_nil : sorted [].
Proof. constructor. Qed.

Lemma sorted_cons k v m : sorted ((k, v) :: m) ↔ Forall (λ kv, k < kv.1) m ∧ sorted m.
Proof.
  unfold sorted. rewrite fmap_cons. cbn. rewrite StronglySorted_cons, Forall_fmap. tauto.
Qed.

Lemma get_elem k v m : get k m = Some v → (k, v) ∈ m.
Proof.
  induction m as [|[k' v'] m IH]; simpl; [done|].
  destruct (Z.eqb_spec k k') as [->|]; [intros [= ->]; left|]. intros. right. by apply IH.
Qed.

Lemma elem_get k v m : sorted m → (k, v) ∈ m → get k m = Some v.
Proof.
  induction m as [|[k' v'] m IH]; [by intros _ ?%elem_of_nil|].
  intros [Hall Hs]%sorted_cons [Heq|Hin]%elem_of_cons; simpl.
  - injection Heq as -> ->. by rewrite Z.eqb_refl.
  - rewrite Forall_forall in Hall. specialize (Hall _ Hin). simpl in Hall.
    rewrite (proj2 (Z.eqb_neq k k')) by lia. by apply IH.
Qed.

Lemma elem_of_get k v m : sorted m → (k, v) ∈ m ↔ get k m = Some v.
Proof. intros. split; [by apply elem_get|apply get_elem]. Qed.

Lemma get_insert_eq k v m : get k (insert k v m) = Some v.
Proof.
  induction m as [|[k' v'] m IH]; simpl; [by rewrite Z.eqb_refl|].
  destruct (Z.ltb_spec k k'); simpl; [by rewrite Z.eqb_refl|].
  destruct (Z.eqb_spec k k'); simpl; [by rewrite Z.eqb_refl|].
  by rewrite (proj2 (Z.eqb_neq k k')).
Qed.

Lemma get_insert_ne k k2 v m : k2 ≠ k → get k2 (insert k v m) = get k2 m.
Proof.
  intros Hne. induction m as [|[k' v'] m IH]; simpl.
  - by rewrite (proj2 (Z.eqb_neq k2 k)).
  - destruct (Z.ltb_spec k k'); simpl; [by rewrite (proj2 (Z.eqb_neq k2 k))|].
    destruct (Z.eqb_spec k k') as [->|]; simpl; [by rewrite (proj2 (Z.eqb_neq k2 k'))|].
    destruct (k2 =? k'); [done|]. apply IH.
Qed.

Lemma insert_fst_elem k v m kv : kv ∈ insert k v m → kv = (k, v) ∨ kv ∈ m.
Proof.
  induction m as [|[k' v'] m IH]; simpl.
  - intros ->%list_elem_of_singleton. by left.
  - destruct (Z.ltb_spec k k'); [by intros [->|?]%elem_of_cons; [left|right]|].
    destruct (Z.eqb_spec k k').
    + intros [->|?]%elem_of_cons; [by left|]. right. by right.
    + intros [->|[->|?]%IH]%elem_of_cons; [right; left|by left|right; by right].
Qed.

Lemma insert_sorted k v m : sorted m → sorted (insert k v m).
Proof.
  induction m as [|[k' v'] m IH]; simpl; intros Hs.
  - apply sorted_cons. split; [constructor|apply sorted_nil].
  - apply sorted_cons in Hs as Hs'. destruct Hs' as [Hall Hs'].
    destruct (Z.ltb_spec k k').
    { apply sorted_cons. split; [|done]. constructor; [done|].
      eapply Forall_impl; [exact Hall|]. simpl. lia. }
    destruct (Z.eqb_spec k k') as [->|]; [by apply sorted_cons|].
    apply sorted_cons. split; [|by apply IH]. apply Forall_forall. intros kv Hin.
    apply insert_fst_elem in Hin as [->|Hin]; [simpl; lia|].
    rewrite Forall_forall in Hall. by apply Hall.
Qed.

Lemma or_insert_sorted k v m : sorted m → sorted (or_insert k v m).
Proof. unfold or_insert. destruct (get k m); [done|]. apply insert_sorted. Qed.

Lemma get_or_insert k k2 v m :
  get k2 (or_insert k v m) =
  match get k2 m with Some v' => Some v' | None => if k2 =? k then Some v else None end.
Proof.
  unfold or_insert. destruct (Z.eqb_spec k2 k) as [->|].
  - destruct (get k m) eqn:E; [by rewrite E|]. by rewrite get_insert_eq.
  - destruct (get k m); [|rewrite get_insert_ne by done]; by destruct (get k2 m).
Qed.

Lemma retain_elem p m kv : kv ∈ retain p m ↔ kv ∈ m ∧ p kv.1 kv.2 = true.
Proof. unfold retain. rewrite !list_elem_of_In. apply filter_In. Qed.

Lemma retain_sorted p m : sorted m → sorted (retain p m).
Proof.
  induction m as [|[k v] m IH]; [done|]. intros [Hall Hs]%sorted_cons. simpl.
  destruct (p k v); [|by apply IH]. apply sorted_cons. split; [|by apply IH].
  apply Forall_forall. intros kv [Hin _]%retain_elem. rewrite Forall_forall in Hall. by apply Hall.
Qed.

Lemma get_retain p k m :
  sorted m →
  get k (retain p m) = match get k m with Some v => if p k v then Some v else None | None => None end.
Proof.
  intros Hs. destruct (get k m) as [v|] eqn:E.
  - destruct (p k v) eqn:Hp.
    + apply elem_get; [by apply retain_sorted|]. apply retain_elem. split; [by apply get_elem|done].
    + destruct (get k (retain p m)) as [v'|] eqn:E'; [|done].
      apply get_elem, retain_elem in E' as [Hin Hp']. apply elem_get in Hin; [|done]. simpl in *. congruence.
  - destruct (get k (retain p m)) as [v'|] eqn:E'; [|done].
    apply get_elem, retain_elem in E' as [Hin Hp']. apply elem_get in Hin; [|done]. simpl in *. congruence.
Qed.

Lemma get_None k m : get k m = None ↔ k ∉ m.*1.
Proof.
  induction m as [|[k' v] m IH].
  - simpl. split; [intros _ []%elem_of_nil|done].
  - rewrite fmap_cons. cbn [get fst]. rewrite not_elem_of_cons.
    destruct (Z.eqb_spec k k'); [split; [done|tauto]|]. rewrite IH. tauto.
Qed.

(** The last key is the greatest. *)
Lemma last_key_max m k : sorted m → last_key m = Some k → is_Some (get k m) ∧ ∀ k', is_Some (get k' m) → k' ≤ k.
Proof.
  unfold last_key. intros Hs Hl. apply last_Some in Hl as [l' Hl]. split.
  - destruct (get k m) eqn:E; [done|]. apply get_None in E. rewrite Hl in E. set_solver.
  - intros k' Hk'. assert (k' ∈ m.*1) as Hin.
    { destruct (decide (k' ∈ m.*1)) as [|Hn]; [done|]. apply get_None in Hn. destruct Hk'. congruence. }
    unfold sorted in Hs. rewrite Hl in Hs, Hin.
    apply elem_of_app in Hin as [Hin|Hin%list_elem_of_singleton]; [|lia].
    assert (k' < k); [|lia]. clear Hl Hk'. induction l' as [|x l' IH]; [by apply elem_of_nil in Hin|].
    simpl in Hs. apply StronglySorted_inv in Hs as [Hs Hall].
    apply elem_of_cons in Hin as [->|Hin]; [|by apply IH].
    rewrite Forall_forall in Hall. apply Hall. set_solver.
Qed.

(** Sorted maps with the same bindings are equal. *)
Lemma sorted_ext m m' : sorted m → sorted m' → (∀ k, get k m = get k m') → m = m'.
Proof.
  revert m'. induction m as [|[k v] m IH]; intros m' Hs Hs' Heq.
  - destruct m' as [|[k' v'] m']; [done|]. specialize (Heq k'). simpl in Heq. by rewrite Z.eqb_refl in Heq.
  - destruct m' as [|[k' v'] m'].
    { specialize (Heq k). simpl in Heq. by rewrite Z.eqb_refl in Heq. }
    apply sorted_cons in Hs as [Ha Hs]. apply sorted_cons in Hs' as [Ha' Hs'].
    assert (∀ j, j ≤ k → get j m = None) as Hm.
    { intros j Hj. apply get_None. intros ([j' u] & Hju & Hin)%list_elem_of_fmap. simpl in Hju. subst.
      rewrite Forall_forall in Ha. specialize (Ha _ Hin). simpl in Ha. lia. }
    assert (∀ j, j ≤ k' → get j m' = None) as Hm'.
    { intros j Hj. apply get_None. intros ([j' u] & Hju & Hin)%list_elem_of_fmap. simpl in Hju. subst.
      rewrite Forall_forall in Ha'. specialize (Ha' _ Hin). simpl in Ha'. lia. }
    pose proof (Heq k) as H1. pose proof (Heq k') as H2. simpl in H1, H2. rewrite Z.eqb_refl in H1, H2.
    destruct (Z.eqb_spec k k') as [->|Hne].
    + rewrite Z.eqb_refl in H2. injection H1 as ->. f_equal. apply IH; [done..|]. intros j.
      specialize (Heq j). simpl in Heq. destruct (Z.eqb_spec j k'); [|done]. by rewrite Hm, Hm' by lia.
    + rewrite (proj2 (Z.eqb_neq k' k)) in H2 by congruence.
      destruct (decide (k ≤ k')); [rewrite Hm' in H1 by lia; done|rewrite Hm in H2 by lia; done].
Qed.

End btree_map.
End BTreeMap.
