(* ===== verification/SubscriberTypes.v ===== *)
(** * Subscriber vocabulary of the storage engine

    Model of [crates/quiver/src/subscriber/types.rs] and [error.rs]: subscriber
    identifiers and their validation, references to bundles and their order,
    acknowledgement outcomes and the error type.  A [String] is the string of
    its UTF-8 bytes; [SegmentSeq] is its raw [u64], [BundleIndex] its raw
    [u32].  Formatted error messages are represented by the reason and the
    numbers they print. *)
From Stdlib Require Export Ascii.
From stdpp Require Export strings.
From S2P Require Export Prelude Files.

Module SubscriberTypes.

(** ** Subscriber identifiers *)

Definition MAX_SUBSCRIBER_ID_LEN : nat := 64.

Abbreviation SubscriberId := string.

Inductive InvalidSubscriberId :=
  | Empty
  | TooLong (len max : nat)
  | InvalidCharacters.

Definition in_range (lo hi c : Ascii.ascii) : bool :=
  (Ascii.nat_of_ascii lo <=? Ascii.nat_of_ascii c) && (Ascii.nat_of_ascii c <=? Ascii.nat_of_ascii hi).

(** [char::is_ascii_alphanumeric] *)
Definition is_ascii_alphanumeric (c : Ascii.ascii) : bool :=
  in_range "0"%char "9"%char c || in_range "A"%char "Z"%char c || in_range "a"%char "z"%char c.

Definition valid_char (c : Ascii.ascii) : bool :=
  is_ascii_alphanumeric c || Ascii.eqb c "-"%char || Ascii.eqb c "_"%char.

(** Every byte of a character outside ASCII is at least 128, so a test that
    only ASCII characters pass can be made byte by byte. *)
Fixpoint all_chars (p : Ascii.ascii → bool) (s : string) : bool :=
  match s with
  | EmptyString => true
  | String c s' => p c && all_chars p s'
  end.

Definition SubscriberId_new (id : string) : result SubscriberId InvalidSubscriberId :=
  if String.eqb id EmptyString then Err Empty
  else if MAX_SUBSCRIBER_ID_LEN <? String.length id
  then Err (TooLong (String.length id) MAX_SUBSCRIBER_ID_LEN)
  else if negb (all_chars valid_char id) then Err InvalidCharacters
  else Ok id.

(** The identifiers that [SubscriberId::new] produces. *)
Definition valid_id (id : SubscriberId) : Prop := SubscriberId_new id = Ok id.

Lemma SubscriberId_new_Ok s id : SubscriberId_new s = Ok id → id = s.
Proof. unfold SubscriberId_new. repeat case_match; congruence. Qed.

Lemma SubscriberId_new_valid s id : SubscriberId_new s = Ok id → valid_id id.
Proof. intros H. apply SubscriberId_new_Ok in H as Heq. subst. exact H. Qed.

Lemma valid_id_chars id : valid_id id → all_chars valid_char id = true.
Proof.
  unfold valid_id, SubscriberId_new. do 2 (case_match; [done|]).
  by destruct (all_chars valid_char id).
Qed.

(** ** Bundles *)

Record BundleRef := mkBundleRef {
  segment_seq : Z;
  bundle_index : Z;
}.

#[global] Instance BundleRef_eq_dec : EqDecision BundleRef.
Proof. solve_decision. Defined.

#[global] Instance BundleRef_countable : Countable BundleRef.
Proof.
  refine (inj_countable' (λ r, (segment_seq r, bundle_index r)) (λ p, mkBundleRef p.1 p.2) _).
  by intros [].
Defined.

(** [BundleIndex::next] saturates. *)
Definition bundle_index_next (i : Z) : Z := saturating_add u32_max i 1.

(** Bundles are ordered by segment, then by index. *)
#[global] Instance BundleRef_ord : Ord BundleRef := λ a b,
  then_with (cmp (segment_seq a) (segment_seq b)) (cmp (bundle_index a) (bundle_index b)).

(** [bundle_lt a b]: [a] comes strictly before [b]. *)
Definition bundle_lt (a b : BundleRef) : Prop := cmp a b = Lt.

Lemma bundle_lt_spec a b :
  bundle_lt a b ↔
  (segment_seq a < segment_seq b)%Z ∨
  segment_seq a = segment_seq b ∧ (bundle_index a < bundle_index b)%Z.
Proof.
  unfold bundle_lt, cmp, BundleRef_ord, cmp, Z_ord, then_with.
  destruct (Z.compare_spec (segment_seq a) (segment_seq b)),
    (Z.compare_spec (bundle_index a) (bundle_index b)); split; (done || lia).
Qed.

#[global] Instance BundleRef_ord_laws : OrdLaws BundleRef.
Proof.
  split; unfold cmp, BundleRef_ord, cmp, Z_ord, then_with.
  - intros a. by rewrite !Z.compare_refl.
  - intros a b. rewrite (Z.compare_antisym (segment_seq a)), (Z.compare_antisym (bundle_index a)).
    by destruct (segment_seq a ?= segment_seq b)%Z.
  - intros a b c.
    destruct (Z.compare_spec (segment_seq a) (segment_seq b)),
      (Z.compare_spec (segment_seq b) (segment_seq c)),
      (Z.compare_spec (segment_seq a) (segment_seq c)),
      (Z.compare_spec (bundle_index a) (bundle_index b)),
      (Z.compare_spec (bundle_index b) (bundle_index c)),
      (Z.compare_spec (bundle_index a) (bundle_index c)); (done || lia).
Qed.

(** ** Outcomes *)

Inductive AckOutcome := Acked | Dropped.

Definition as_byte (o : AckOutcome) : Z := match o with Acked => 1 | Dropped => 2 end.

Definition from_byte (b : Z) : option AckOutcome :=
  if (b =? 1)%Z then Some Acked else if (b =? 2)%Z then Some Dropped else None.

Lemma from_as_byte o : from_byte (as_byte o) = Some o.
Proof. by destruct o. Qed.

(** ** Errors *)

(** The messages of [progress_corrupted]. *)
Inductive Corruption :=
  | HeaderTooShort (len : Z)
  | InvalidMagic
  | UnsupportedVersion (version : Z)
  | InvalidHeaderSize (header_size : Z)
  | EntryCountTooLarge (entry_count : Z)
  | BitmapWordsTooLarge (bitmap_words : Z)
  | BitmapWordsMismatch (got expected bundle_count : Z)
  | FileTooShort (len : Z)
  | CrcMismatch (stored computed : Z)
  | HeaderExceedsBody (header_size body : Z).

(** The messages of [bundle_not_available]. *)
Inductive Unavailable := AlreadyResolved | AlreadyClaimed | ClaimFailed | IndexOutOfRange.

Inductive SubscriberError :=
  | InvalidId (source : InvalidSubscriberId)
  | NotFound (id : string)
  | AlreadyExists (id : string)
  | BundleNotAvailable (message : Unavailable)
  | SegmentNotFound (segment_seq : Z)
  | SegmentIo (path : string) (source : IoError)
  | ShuttingDown
  | Cancelled
  | ProgressIo (path : string) (source : IoError)
  | ProgressCorrupted (path : string) (message : Corruption).

Definition is_cancelled (e : SubscriberError) : bool :=
  match e with Cancelled => true | _ => false end.

End SubscriberTypes.
