(* ===== verification/Progress.v ===== *)
(** * Progress files

    Model of [crates/quiver/src/subscriber/progress.rs]: the header and the
    entries of a subscriber's progress file, their encodings, the reader with
    all its checks, and the atomic writer.  The CRC-32 of the [crc32fast] crate
    is the parameter [crc32] of the model.  The data directory is a map from
    file names to contents; the result of each I/O call of the writer is an
    observation ([io_fault]). *)
From S2P Require Import Prelude Bytes Files SubscriberTypes.

Import SubscriberTypes.
Local Open Scope Z_scope.

Module Progress.

(** ** Constants *)

(** [b"QUIVSUB\0"] *)
Definition PROGRESS_MAGIC : list Z := [81; 85; 73; 86; 83; 85; 66; 0].

Definition PROGRESS_VERSION : Z := 1.

Definition HEADER_V1_SIZE : nat := 32.

Definition HEADER_MIN_SIZE : nat := 32.

Definition FOOTER_SIZE : nat := 4.

Definition MAX_ENTRY_COUNT : Z := 1000000.

Definition MAX_BITMAP_WORDS : Z := 1024.

(** ** Header *)

Record ProgressHeader := mkHeader {
  version : Z;
  header_size : Z;
  flags : Z;
  oldest_incomplete_seg : Z;
  entry_count : Z;
}.

Definition header_new (oldest_incomplete_seg entry_count : Z) : ProgressHeader :=
  mkHeader PROGRESS_VERSION (Z.of_nat HEADER_V1_SIZE) 0 oldest_incomplete_seg entry_count.

Definition header_serialize (h : ProgressHeader) : list Z :=
  let buf := replicate HEADER_V1_SIZE 0 in
  let buf := copy_from_slice 0 PROGRESS_MAGIC buf in
  let buf := copy_from_slice 8 (to_le_bytes 2 (version h)) buf in
  let buf := copy_from_slice 10 (to_le_bytes 2 (header_size h)) buf in
  let buf := copy_from_slice 12 (to_le_bytes 2 (flags h)) buf in
  let buf := copy_from_slice 14 (to_le_bytes 8 (oldest_incomplete_seg h)) buf in
  let buf := copy_from_slice 22 (to_le_bytes 4 (entry_count h)) buf in
  buf.

Definition header_deserialize (data : list Z) (path : string) : result ProgressHeader SubscriberError :=
  if (length data <? HEADER_MIN_SIZE)%nat
  then Err (ProgressCorrupted path (HeaderTooShort (zlen data)))
  else if negb (bool_decide (slice 0 8 data = PROGRESS_MAGIC))
  then Err (ProgressCorrupted path InvalidMagic)
  else
    let version := from_le_bytes (slice 8 10 data) in
    if negb (version =? PROGRESS_VERSION)
    then Err (ProgressCorrupted path (UnsupportedVersion version))
    else
      let header_size := from_le_bytes (slice 10 12 data) in
      if header_size <? Z.of_nat HEADER_MIN_SIZE
      then Err (ProgressCorrupted path (InvalidHeaderSize header_size))
      else
        let flags := from_le_bytes (slice 12 14 data) in
        let oldest_incomplete_seg := from_le_bytes (slice 14 22 data) in
        let entry_count := from_le_bytes (slice 22 26 data) in
        if MAX_ENTRY_COUNT <? entry_count
        then Err (ProgressCorrupted path (EntryCountTooLarge entry_count))
        else Ok (mkHeader version header_size flags oldest_incomplete_seg entry_count).

(** ** Entries *)

Record SegmentProgressEntry := mkEntry {
  seg_seq : Z;
  bundle_count : Z;
  acked_bitmap : list Z;
}.

Definition words_needed (bundle_count : Z) : Z := div_ceil64 bundle_count.

Definition entry_new (seg_seq bundle_count : Z) : SegmentProgressEntry :=
  mkEntry seg_seq bundle_count (replicate (Z.to_nat (words_needed bundle_count)) 0).

Definition from_bitmap (seg_seq bundle_count : Z) (bitmap : list Z) : SegmentProgressEntry :=
  mkEntry seg_seq bundle_count bitmap.

(** [None]: the assertion fails or the word index is out of range (a panic). *)
Definition mark_acked (e : SegmentProgressEntry) (bundle_index : Z) : option SegmentProgressEntry :=
  if bundle_index <? bundle_count e then
    let word_idx := Z.to_nat (bundle_index / 64) in
    let bit_idx := bundle_index mod 64 in
    w ← acked_bitmap e !! word_idx;
    Some (mkEntry (seg_seq e) (bundle_count e)
                  (<[word_idx := Z.lor w (Z.shiftl 1 bit_idx)]> (acked_bitmap e)))
  else None.

(** [None]: the word index is out of range (a panic). *)
Definition is_acked (e : SegmentProgressEntry) (bundle_index : Z) : option bool :=
  if bundle_count e <=? bundle_index then Some false
  else
    let word_idx := Z.to_nat (bundle_index / 64) in
    let bit_idx := bundle_index mod 64 in
    w ← acked_bitmap e !! word_idx;
    Some (Z.land (Z.shiftr w bit_idx) 1 =? 1).

Definition acked_count (e : SegmentProgressEntry) : Z := bitmap_count (acked_bitmap e).

Definition entry_is_complete (e : SegmentProgressEntry) : bool := acked_count e =? bundle_count e.

(** [acked_bitmap.len() as u16] truncates. *)
Definition entry_serialize (e : SegmentProgressEntry) : list Z :=
  let bitmap_words := zlen (acked_bitmap e) mod 2 ^ 16 in
  to_le_bytes 8 (seg_seq e) ++
  to_le_bytes 4 (bundle_count e) ++
  to_le_bytes 2 bitmap_words ++
  concat (to_le_bytes 8 <$> acked_bitmap e).

(** The loop that reads [n] words. *)
Fixpoint read_words (n : nat) (reader : list Z) (path : string)
    : result (list Z * list Z) SubscriberError :=
  match n with
  | O => Ok ([], reader)
  | S n' =>
      match read_exact 8 reader with
      | None => Err (ProgressIo path UnexpectedEof)
      | Some (buf, reader) =>
          match read_words n' reader path with
          | Err e => Err e
          | Ok (words, reader) => Ok (from_le_bytes buf :: words, reader)
          end
      end
  end.

Definition entry_deserialize (reader : list Z) (path : string)
    : result (SegmentProgressEntry * list Z) SubscriberError :=
  match read_exact 14 reader with
  | None => Err (ProgressIo path UnexpectedEof)
  | Some (fixed, reader) =>
      let seg_seq := from_le_bytes (slice 0 8 fixed) in
      let bundle_count := from_le_bytes (slice 8 12 fixed) in
      let bitmap_words := from_le_bytes (slice 12 14 fixed) in
      if MAX_BITMAP_WORDS <? bitmap_words
      then Err (ProgressCorrupted path (BitmapWordsTooLarge bitmap_words))
      else
        let expected_words := words_needed bundle_count mod 2 ^ 16 in
        if negb (bitmap_words =? expected_words)
        then Err (ProgressCorrupted path (BitmapWordsMismatch bitmap_words expected_words bundle_count))
        else
          match read_words (Z.to_nat bitmap_words) reader path with
          | Err e => Err e
          | Ok (bitmap, reader) => Ok (mkEntry seg_seq bundle_count bitmap, reader)
          end
  end.

(** ** Files *)

Definition progress_file_path (subscriber_id : SubscriberId) : string :=
  ("quiver.sub." +:+ subscriber_id)%string.

Definition temp_progress_file_path (subscriber_id : SubscriberId) : string :=
  ("quiver.sub." +:+ subscriber_id +:+ ".tmp")%string.

(** The loop that parses [n] entries. *)
Fixpoint read_entries (n : nat) (reader : list Z) (path : string)
    : result (list SegmentProgressEntry) SubscriberError :=
  match n with
  | O => Ok []
  | S n' =>
      match entry_deserialize reader path with
      | Err e => Err e
      | Ok (entry, reader) =>
          match read_entries n' reader path with
          | Err e => Err e
          | Ok entries => Ok (entry :: entries)
          end
      end
  end.

Section files.
Context (crc32 : list Z → Z).

Definition parse_progress (path : string) (data : list Z)
    : result (Z * list SegmentProgressEntry) SubscriberError :=
  if (length data <? HEADER_V1_SIZE + FOOTER_SIZE)%nat
  then Err (ProgressCorrupted path (FileTooShort (zlen data)))
  else
    let crc_offset := (length data - FOOTER_SIZE)%nat in
    let stored_crc := from_le_bytes (drop crc_offset data) in
    let computed_crc := crc32 (take crc_offset data) in
    if negb (stored_crc =? computed_crc)
    then Err (ProgressCorrupted path (CrcMismatch stored_crc computed_crc))
    else
      match header_deserialize (take HEADER_V1_SIZE data) path with
      | Err e => Err e
      | Ok header =>
          let header_size := Z.to_nat (header_size header) in
          if (crc_offset <? header_size)%nat
          then Err (ProgressCorrupted path
                      (HeaderExceedsBody (Z.of_nat header_size) (Z.of_nat crc_offset)))
          else
            let body_data := slice header_size crc_offset data in
            match read_entries (Z.to_nat (entry_count header)) body_data path with
            | Err e => Err e
            | Ok entries => Ok (oldest_incomplete_seg header, entries)
            end
      end.

Definition read_progress_file (dir : Dir) (path : string)
    : result (Z * list SegmentProgressEntry) SubscriberError :=
  match dir !! path with
  | None => Err (ProgressIo path NotFoundIo)
  | Some data => parse_progress path data
  end.

(** The bytes that [write_progress_file] assembles. *)
Definition progress_content (oldest_incomplete_seg : Z) (entries : list SegmentProgressEntry) : list Z :=
  let header := header_new oldest_incomplete_seg (zlen entries mod 2 ^ 32) in
  let content := header_serialize header ++ concat (entry_serialize <$> entries) in
  content ++ to_le_bytes 4 (crc32 content).

(** Write the temporary file, sync it, rename it over the progress file. *)
Definition write_progress_file (fault : io_fault) (dir : Dir) (subscriber_id : SubscriberId)
    (oldest_incomplete_seg : Z) (entries : list SegmentProgressEntry)
    : Dir * result unit SubscriberError :=
  let final_path := progress_file_path subscriber_id in
  let temp_path := temp_progress_file_path subscriber_id in
  let content := progress_content oldest_incomplete_seg entries in
  match fault with
  | OpenFails => (dir, Err (ProgressIo temp_path OtherIo))
  | WriteFails n => (<[temp_path := take n content]> dir, Err (ProgressIo temp_path OtherIo))
  | FlushFails | SyncFails => (<[temp_path := content]> dir, Err (ProgressIo temp_path OtherIo))
  | RenameFails => (<[temp_path := content]> dir, Err (ProgressIo final_path OtherIo))
  | NoFault => (<[final_path := content]> (delete temp_path dir), Ok tt)
  end.

(** Deleting: a file that does not exist is not an error. *)
Definition delete_progress_file (fails : bool) (dir : Dir) (subscriber_id : SubscriberId)
    : Dir * result unit SubscriberError :=
  let path := progress_file_path subscriber_id in
  match dir !! path with
  | None => (dir, Ok tt)
  | Some _ => if fails then (dir, Err (ProgressIo path OtherIo)) else (delete path dir, Ok tt)
  end.

End files.

(** [str::ends_with] *)
Definition ends_with (s suffix : string) : bool :=
  (String.length suffix <=? String.length s)%nat &&
  String.eqb (String.substring (String.length s - String.length suffix) (String.length suffix) s) suffix.

(** The identifiers of the progress files among the names that [read_dir] yields. *)
Definition scan_progress_files (names : list string) : list SubscriberId :=
  omap (λ name,
    match strip_prefix "quiver.sub." name with
    | Some id_str =>
        if ends_with id_str ".tmp" then None
        else match SubscriberId_new id_str with Ok id => Some id | Err _ => None end
    | None => None
    end) names.

(** ** Encodings *)

(** An entry that the code builds from a segment of at most 65,536 bundles. *)
Record entry_ok (e : SegmentProgressEntry) : Prop := {
  entry_seq_ok : u64_ok (seg_seq e);
  entry_count_ok : u32_ok (bundle_count e);
  entry_len_ok : zlen (acked_bitmap e) = words_needed (bundle_count e);
  entry_small : words_needed (bundle_count e) ≤ MAX_BITMAP_WORDS;
  entry_words_ok : Forall u64_ok (acked_bitmap e);
}.

Lemma read_words_concat ws r path :
  Forall u64_ok ws →
  read_words (length ws) (concat (to_le_bytes 8 <$> ws) ++ r) path = Ok (ws, r).
Proof.
  induction 1 as [|w ws Hw Hws IH]; [done|]. rewrite fmap_cons. cbn [length read_words concat].
  rewrite <- app_assoc. rewrite read_exact_app by apply to_le_bytes_length.
  rewrite IH. by rewrite from_to_le_bytes.
Qed.

Lemma header_serialize_eq h :
  header_serialize h =
  PROGRESS_MAGIC ++ to_le_bytes 2 (version h) ++ to_le_bytes 2 (header_size h) ++
  to_le_bytes 2 (flags h) ++ to_le_bytes 8 (oldest_incomplete_seg h) ++
  to_le_bytes 4 (entry_count h) ++ replicate 6 0.
Proof. reflexivity. Qed.

Lemma header_serialize_length h : length (header_serialize h) = HEADER_V1_SIZE.
Proof. reflexivity. Qed.

(** The fields at their offsets in a serialized header. *)
Lemma header_fields h :
  let data := header_serialize h in
  slice 0 8 data = PROGRESS_MAGIC ∧
  slice 8 10 data = to_le_bytes 2 (version h) ∧
  slice 10 12 data = to_le_bytes 2 (header_size h) ∧
  slice 12 14 data = to_le_bytes 2 (flags h) ∧
  slice 14 22 data = to_le_bytes 8 (oldest_incomplete_seg h) ∧
  slice 22 26 data = to_le_bytes 4 (entry_count h).
Proof. by split_and!. Qed.

Lemma header_roundtrip oldest n path :
  u64_ok oldest → 0 ≤ n ≤ MAX_ENTRY_COUNT →
  header_deserialize (header_serialize (header_new oldest n)) path = Ok (header_new oldest n).
Proof.
  intros Ho Hn. unfold header_deserialize. rewrite header_serialize_length.
  destruct (header_fields (header_new oldest n)) as (-> & -> & -> & -> & -> & ->).
  cbn [version header_size flags oldest_incomplete_seg entry_count header_new].
  unfold MAX_ENTRY_COUNT in *.
  rewrite (from_to_le_bytes 8 oldest), (from_to_le_bytes 4 n) by (unfold u64_ok in *; simpl; lia).
  rewrite bool_decide_eq_true_2 by done. rewrite (proj2 (Z.ltb_ge 1000000 n)) by lia. done.
Qed.

Lemma entry_serialize_app e :
  entry_serialize e =
  (to_le_bytes 8 (seg_seq e) ++ to_le_bytes 4 (bundle_count e) ++
   to_le_bytes 2 (zlen (acked_bitmap e) mod 2 ^ 16)) ++ concat (to_le_bytes 8 <$> acked_bitmap e).
Proof. unfold entry_serialize. by rewrite <- !app_assoc. Qed.

(** Reading the fixed fields of a serialized entry leaves the decision to the
    checks on the number of words. *)
Lemma entry_deserialize_fixed e r path :
  u64_ok (seg_seq e) → u32_ok (bundle_count e) →
  let words := zlen (acked_bitmap e) mod 2 ^ 16 in
  entry_deserialize (entry_serialize e ++ r) path =
  if MAX_BITMAP_WORDS <? words then Err (ProgressCorrupted path (BitmapWordsTooLarge words))
  else if negb (words =? words_needed (bundle_count e) mod 2 ^ 16)
  then Err (ProgressCorrupted path
              (BitmapWordsMismatch words (words_needed (bundle_count e) mod 2 ^ 16) (bundle_count e)))
  else match read_words (Z.to_nat words) (concat (to_le_bytes 8 <$> acked_bitmap e) ++ r) path with
       | Err e => Err e
       | Ok (bitmap, reader) => Ok (mkEntry (seg_seq e) (bundle_count e) bitmap, reader)
       end.
Proof.
  intros Hs Hc words. assert (0 ≤ words < 2 ^ 16) as Hw by (apply Z.mod_pos_bound; lia).
  unfold entry_deserialize. rewrite entry_serialize_app, <- app_assoc.
  rewrite read_exact_app by (rewrite !length_app, !to_le_bytes_length; done).
  replace (slice 0 8 _) with (to_le_bytes 8 (seg_seq e)) by reflexivity.
  replace (slice 8 12 _) with (to_le_bytes 4 (bundle_count e)) by reflexivity.
  replace (slice 12 14 _) with (to_le_bytes 2 words) by reflexivity.
  rewrite !from_to_le_bytes by (unfold u64_ok, u32_ok in *; simpl; lia). done.
Qed.

Lemma entry_roundtrip e r path :
  entry_ok e → entry_deserialize (entry_serialize e ++ r) path = Ok (e, r).
Proof.
  intros [Hs Hc Hlen Hsmall Hw]. rewrite entry_deserialize_fixed by done.
  unfold MAX_BITMAP_WORDS in *. pose proof (zlen_nonneg (acked_bitmap e)).
  rewrite Z.mod_small by lia. rewrite (proj2 (Z.ltb_ge _ _)) by lia.
  rewrite Z.mod_small by lia. rewrite Hlen, Z.eqb_refl. cbn [negb].
  rewrite <- Hlen. unfold zlen. rewrite Nat2Z.id, read_words_concat by done. by destruct e.
Qed.

Lemma entries_roundtrip es r path :
  Forall entry_ok es →
  read_entries (length es) (concat (entry_serialize <$> es) ++ r) path = Ok es.
Proof.
  induction 1 as [|e es He Hes IH]; [done|]. rewrite fmap_cons. cbn [length read_entries concat].
  rewrite <- app_assoc, entry_roundtrip by done. by rewrite IH.
Qed.

(** ** File names *)

Lemma all_chars_app p s t : all_chars p (s +:+ t) = all_chars p s && all_chars p t.
Proof. induction s as [|c s IH]; simpl; [done|]. by rewrite IH, andb_assoc. Qed.

Lemma all_chars_substring p n k s : all_chars p s = true → all_chars p (String.substring n k s) = true.
Proof.
  revert n k. induction s as [|c s IH]; intros n k; simpl; [by destruct n, k|].
  intros [Hc Hs]%andb_true_iff. destruct n; [destruct k; simpl; [done|]|by apply IH].
  rewrite Hc. by apply IH.
Qed.

Lemma progress_file_path_inj id id' : progress_file_path id = progress_file_path id' → id = id'.
Proof.
  unfold progress_file_path. intros H. apply (f_equal (strip_prefix "quiver.sub.")) in H.
  rewrite !strip_prefix_app in H. by simplify_eq.
Qed.

(** No progress file of a valid identifier has the name of a temporary file. *)
Lemma temp_path_ne id id' : valid_id id' → progress_file_path id' ≠ temp_progress_file_path id.
Proof.
  unfold progress_file_path, temp_progress_file_path. intros Hv H.
  apply (f_equal (strip_prefix "quiver.sub.")) in H. rewrite !strip_prefix_app in H. simplify_eq.
  apply valid_id_chars in Hv. rewrite all_chars_app in Hv.
  apply andb_true_iff in Hv as [_ Hv]. discriminate Hv.
Qed.

Lemma valid_id_not_tmp id : valid_id id → ends_with id ".tmp" = false.
Proof.
  intros Hv. unfold ends_with. apply andb_false_iff. right. apply String.eqb_neq. intros H.
  apply valid_id_chars in Hv.
  apply (all_chars_substring _ (String.length id - String.length ".tmp") (String.length ".tmp")) in Hv.
  rewrite H in Hv. discriminate Hv.
Qed.

(** The scan finds exactly the valid identifiers that have a progress file. *)
Lemma scan_progress_files_spec names id :
  id ∈ scan_progress_files names ↔ valid_id id ∧ progress_file_path id ∈ names.
Proof.
  unfold scan_progress_files. rewrite list_elem_of_omap. split.
  - intros (name & Hin & H). destruct (strip_prefix "quiver.sub." name) as [s|] eqn:Hs; [|done].
    apply strip_prefix_Some in Hs. case_match; [done|].
    destruct (SubscriberId_new s) as [id'|] eqn:Hid; [|done]. injection H as ->.
    split; [by eapply SubscriberId_new_valid|]. apply SubscriberId_new_Ok in Hid as ->.
    unfold progress_file_path. by rewrite <- Hs.
  - intros [Hv Hin]. exists (progress_file_path id). split; [done|].
    unfold progress_file_path. rewrite strip_prefix_app, valid_id_not_tmp by done. by rewrite Hv.
Qed.

(** ** What the reader accepts *)

Lemma read_exact_Some n reader buf rest :
  read_exact n reader = Some (buf, rest) → reader = buf ++ rest ∧ length buf = n.
Proof.
  unfold read_exact. destruct (Nat.leb_spec n (length reader)); [|done].
  intros [= <- <-]. split; [by rewrite take_drop|]. rewrite length_take. lia.
Qed.

Lemma read_words_Ok n reader path words rest :
  Forall byte_ok reader → read_words n reader path = Ok (words, rest) →
  length words = n ∧ Forall u64_ok words ∧ Forall byte_ok rest.
Proof.
  revert reader words. induction n as [|n IH]; intros reader words Hb; cbn [read_words].
  - intros [= <- <-]. by split_and!.
  - destruct (read_exact 8 reader) as [[buf rest']|] eqn:Hr; [|done].
    apply read_exact_Some in Hr as [-> Hlen]. apply Forall_app in Hb as [Hbuf Hrest].
    destruct (read_words n rest' path) as [[ws rest'']|] eqn:Hw; [|done].
    intros [= <- <-]. apply IH in Hw as (Hl & Hws & Hr); [|done].
    split_and!; [by simpl; f_equal| |done]. constructor; [|done].
    apply from_le_bytes_bound in Hbuf. by rewrite Hlen in Hbuf.
Qed.

(** The form of an accepted entry: everything [entry_ok] asks for, except that
    the number of words is the needed one modulo 2^16. *)
Record entry_accepted (e : SegmentProgressEntry) : Prop := {
  accepted_seq : u64_ok (seg_seq e);
  accepted_count : u32_ok (bundle_count e);
  accepted_len : zlen (acked_bitmap e) = words_needed (bundle_count e) mod 2 ^ 16;
  accepted_small : zlen (acked_bitmap e) ≤ MAX_BITMAP_WORDS;
  accepted_words : Forall u64_ok (acked_bitmap e);
}.

Lemma entry_deserialize_Ok reader path e rest :
  Forall byte_ok reader → entry_deserialize reader path = Ok (e, rest) →
  entry_accepted e ∧ Forall byte_ok rest.
Proof.
  unfold entry_deserialize. intros Hb.
  destruct (read_exact 14 reader) as [[fixed rest']|] eqn:Hr; [|done].
  apply read_exact_Some in Hr as [-> Hlen]. apply Forall_app in Hb as [Hf Hrest].
  assert (∀ a b, length (slice a b fixed) = Nat.min (b - a) (14 - a)) as Hsl.
  { intros. unfold slice. rewrite length_take, length_drop. lia. }
  pose proof (slice_bound 0 8 fixed Hf) as H1. pose proof (slice_bound 8 12 fixed Hf) as H2.
  pose proof (slice_bound 12 14 fixed Hf) as H3. rewrite Hsl in H1, H2, H3. simpl in H1, H2, H3.
  destruct (Z.ltb_spec MAX_BITMAP_WORDS (from_le_bytes (slice 12 14 fixed))); [done|].
  destruct (Z.eqb_spec (from_le_bytes (slice 12 14 fixed)) (words_needed (from_le_bytes (slice 8 12 fixed)) mod 2 ^ 16)) as [Heq|]; [|done].
  cbn [negb]. destruct (read_words _ rest' path) as [[ws rest'']|] eqn:Hw; [|done].
  intros [= <- <-]. apply read_words_Ok in Hw as (Hl & Hws & Hr); [|done].
  split; [|done]. split; cbn [seg_seq bundle_count acked_bitmap]; [done..| | |done]; unfold zlen; lia.
Qed.

Lemma read_entries_Ok n reader path es :
  Forall byte_ok reader → read_entries n reader path = Ok es →
  length es = n ∧ Forall entry_accepted es.
Proof.
  revert reader es. induction n as [|n IH]; intros reader es Hb; cbn [read_entries].
  - intros [= <-]. by split.
  - destruct (entry_deserialize reader path) as [[e rest]|] eqn:He; [|done].
    apply entry_deserialize_Ok in He as [He Hrest]; [|done].
    destruct (read_entries n rest path) as [es'|] eqn:Hes; [|done].
    intros [= <-]. apply IH in Hes as [Hl Hall]; [|done]. split; [by simpl; f_equal|by constructor].
Qed.

Lemma entry_accepted_ok e : entry_accepted e → bundle_count e ≤ 64 * u16_max → entry_ok e.
Proof.
  intros [Hs Hc Hl Hsm Hw] Hb. unfold u32_ok in Hc.
  pose proof (div_ceil64_spec (bundle_count e)) as Hd. unfold words_needed in *.
  rewrite Z.mod_small in Hl by (unfold u16_max in Hb; lia). split; unfold words_needed; try done. lia.
Qed.

Lemma header_deserialize_Ok data path h :
  Forall byte_ok data → header_deserialize data path = Ok h →
  u64_ok (oldest_incomplete_seg h) ∧ 0 ≤ entry_count h ≤ MAX_ENTRY_COUNT.
Proof.
  intros Hb. unfold header_deserialize. destruct (Nat.ltb_spec (length data) HEADER_MIN_SIZE) as [|Hl]; [done|].
  do 3 (case_match; [done|]). destruct (Z.ltb_spec MAX_ENTRY_COUNT (from_le_bytes (slice 22 26 data))); [done|].
  intros [= <-]. cbn. split; [|split; [apply (slice_bound 22 26 data Hb)|done]].
  pose proof (slice_bound 14 22 data Hb) as H8. replace (length (slice 14 22 data)) with 8%nat in H8; [done|].
  unfold slice, HEADER_MIN_SIZE in *. rewrite length_take, length_drop. lia.
Qed.

(** Reading a bit of a well-formed entry never panics. *)
Lemma is_acked_spec e i :
  zlen (acked_bitmap e) = words_needed (bundle_count e) → 0 ≤ i →
  is_acked e i = Some (bool_decide (i < bundle_count e) && bitmap_get (acked_bitmap e) i).
Proof.
  intros Hlen Hi. unfold is_acked. destruct (Z.leb_spec (bundle_count e) i).
  - by rewrite bool_decide_eq_false_2 by lia.
  - rewrite bool_decide_eq_true_2 by lia.
    destruct (bitmap_word_lookup (bundle_count e) (acked_bitmap e) i) as [w Hw]; [done|lia|].
    rewrite Hw. cbn. unfold bitmap_get. rewrite Hw, shift_testbit; [done|apply mod64_bound].
Qed.

Section file_lemmas.
Context (crc32 : list Z → Z).
Context (crc32_u32 : ∀ l, u32_ok (crc32 l)).

(** A file the writer produced passes the reader's checks up to the entries. *)
Lemma parse_progress_content path oldest es :
  u64_ok oldest → zlen es ≤ MAX_ENTRY_COUNT →
  parse_progress crc32 path (progress_content crc32 oldest es) =
  match read_entries (length es) (concat (entry_serialize <$> es)) path with
  | Err e => Err e
  | Ok entries => Ok (oldest, entries)
  end.
Proof.
  intros Ho Hn. pose proof (zlen_nonneg es). unfold MAX_ENTRY_COUNT in *.
  unfold progress_content. rewrite Z.mod_small by lia.
  set (h := header_new oldest (zlen es)). set (body := concat (entry_serialize <$> es)).
  set (crc := to_le_bytes 4 _). assert (length crc = FOOTER_SIZE) as Hcrc by apply to_le_bytes_length.
  pose proof (header_serialize_length h) as Hh.
  unfold parse_progress. rewrite !length_app, Hcrc, Hh.
  rewrite (proj2 (Nat.ltb_ge _ _)) by lia.
  replace (HEADER_V1_SIZE + length body + FOOTER_SIZE - FOOTER_SIZE)%nat
    with (length (header_serialize h ++ body)) by (rewrite length_app; lia).
  rewrite drop_app_length, take_app_length. unfold crc.
  rewrite from_to_le_bytes by apply crc32_u32. rewrite Z.eqb_refl. cbn [negb].
  rewrite <- app_assoc, take_app_le, take_ge by (rewrite Hh; done).
  unfold h at 1. rewrite header_roundtrip by (done || unfold MAX_ENTRY_COUNT; lia).
  cbn [header_size entry_count oldest_incomplete_seg header_new]. rewrite Nat2Z.id.
  rewrite length_app, Hh. rewrite (proj2 (Nat.ltb_ge _ _)) by lia. unfold slice.
  replace (HEADER_V1_SIZE + length body - HEADER_V1_SIZE)%nat with (length body) by lia.
  rewrite <- Hh, drop_app_length, take_app_length. unfold zlen. by rewrite Nat2Z.id.
Qed.

Lemma progress_content_roundtrip path oldest es :
  u64_ok oldest → zlen es ≤ MAX_ENTRY_COUNT → Forall entry_ok es →
  parse_progress crc32 path (progress_content crc32 oldest es) = Ok (oldest, es).
Proof.
  intros Ho Hn Hes. rewrite parse_progress_content by done.
  rewrite <- (app_nil_r (concat _)). by rewrite entries_roundtrip.
Qed.

(** The progress files after a write. *)
Lemma write_progress_file_lookup fault dir id oldest es id' :
  valid_id id' →
  let res := write_progress_file crc32 fault dir id oldest es in
  res.1 !! progress_file_path id' =
    if is_ok res.2 && bool_decide (id' = id) then Some (progress_content crc32 oldest es)
    else dir !! progress_file_path id'.
Proof.
  intros Hv. pose proof (temp_path_ne id id' Hv) as Hne.
  destruct fault; cbn; rewrite ?lookup_insert_ne by congruence; try done.
  case_bool_decide as Hid; [subst; by rewrite lookup_insert_eq|].
  rewrite lookup_insert_ne by (intros ?%progress_file_path_inj; congruence).
  by rewrite lookup_delete_ne.
Qed.

Lemma write_progress_file_ok fault dir id oldest es :
  (write_progress_file crc32 fault dir id oldest es).2 = Ok tt ↔ fault = NoFault.
Proof. by destruct fault. Qed.

(** Entries of the writer are read one by one up to the first one rejected. *)
Lemma read_entries_prefix es es' path :
  Forall entry_ok es →
  read_entries (length (es ++ es')) (concat (entry_serialize <$> (es ++ es'))) path =
  match read_entries (length es') (concat (entry_serialize <$> es')) path with
  | Err e => Err e
  | Ok entries => Ok (es ++ entries)
  end.
Proof.
  induction 1 as [|e es He Hes IH].
  - simpl. by destruct (read_entries _ _ _).
  - rewrite <- app_comm_cons, fmap_cons. cbn [length read_entries concat].
    rewrite entry_roundtrip by done. rewrite IH. by destruct (read_entries (length es') _ path).
Qed.

End file_lemmas.

(** ** Properties *)

Section properties.
Context (crc32 : list Z → Z).
Context (crc32_u32 : ∀ l, u32_ok (crc32 l)).

(** C9: Replacing a progress file is atomic and lossless.  Whichever I/O call
    of the writer fails, a later read of the subscriber's file gives what it
    gave before; when the writer succeeds, the read gives exactly the boundary
    and the entries that were written.  Files of other subscribers are read as
    before in every case, and the scan of the directory finds the same
    subscribers, plus the one whose file was written. *)
Theorem progress_write_atomic fault dir id oldest es dir' r names' :
  valid_id id → u64_ok oldest → zlen es ≤ MAX_ENTRY_COUNT → Forall entry_ok es →
  write_progress_file crc32 fault dir id oldest es = (dir', r) →
  names' ≡ₚ (map_to_list dir').*1 →
  let read d id := read_progress_file crc32 d (progress_file_path id) in
  (r = Ok tt ↔ fault = NoFault) ∧
  read dir' id = (if is_ok r then Ok (oldest, es) else read dir id) ∧
  (∀ id', valid_id id' → id' ≠ id → read dir' id' = read dir id') ∧
  (∀ id', id' ∈ scan_progress_files names' ↔
     valid_id id' ∧ (is_Some (dir !! progress_file_path id') ∨ r = Ok tt ∧ id' = id)).
Proof.
  intros Hv Ho Hn Hes Hw Hnames read.
  pose proof (λ id', write_progress_file_lookup crc32 fault dir id oldest es id') as Hfile. rewrite Hw in Hfile.
  cbn [fst snd] in Hfile.
  split_and!.
  - destruct fault; simplify_eq/=; naive_solver.
  - unfold read, read_progress_file. rewrite Hfile, bool_decide_eq_true_2, andb_true_r by done.
    destruct (is_ok r); [|done]. by apply progress_content_roundtrip.
  - intros id' Hv' Hne. unfold read, read_progress_file.
    by rewrite Hfile, bool_decide_eq_false_2, andb_false_r by done.
  - intros id'. rewrite scan_progress_files_spec. split; intros [Hv' Hin]; (split; [done|]).
    + rewrite Hnames in Hin. apply list_elem_of_fmap in Hin as ([k c] & Hk & Hin%elem_of_map_to_list).
      simpl in Hk. subst k. rewrite Hfile in Hin by done. destruct r as [[]|]; simpl in Hin; [|by left].
      case_bool_decide; [by right|by left].
    + rewrite Hnames. assert (is_Some (dir' !! progress_file_path id')) as [c Hc].
      { rewrite Hfile by done. destruct Hin as [Hin|[-> ->]]; [by case_match|].
        by rewrite bool_decide_eq_true_2. }
      apply list_elem_of_fmap. exists (progress_file_path id', c). split; [done|].
      by apply elem_of_map_to_list.
Qed.

(** Whatever bytes a progress file contains, when the reader accepts it
    every entry of at most 4,194,240 bundles is well formed: its bitmap has
    the words its count needs, within the limit, and every query of its bits
    succeeds and answers the bit. *)
Theorem accepted_entries_well_formed path data oldest es :
  Forall byte_ok data → parse_progress crc32 path data = Ok (oldest, es) →
  u64_ok oldest ∧ zlen es ≤ MAX_ENTRY_COUNT ∧
  ∀ e, e ∈ es → bundle_count e ≤ 64 * u16_max →
    entry_ok e ∧
    ∀ i, 0 ≤ i →
      is_acked e i = Some (bool_decide (i < bundle_count e) && bitmap_get (acked_bitmap e) i).
Proof.
  intros Hb. unfold parse_progress. case_match; [done|]. case_match; [done|].
  destruct (header_deserialize _ _) as [h|] eqn:Hh; [|done]. case_match; [done|].
  destruct (read_entries _ _ _) as [es'|] eqn:Hes; [|done]. intros [= <- <-].
  apply read_entries_Ok in Hes as [Hlen Hacc]; [|by apply Forall_take, Forall_drop].
  apply header_deserialize_Ok in Hh as [Ho Hc]; [|by apply Forall_take].
  split; [done|]. split; [unfold zlen; lia|]. intros e He Hle.
  rewrite Forall_forall in Hacc. specialize (Hacc e He).
  apply entry_accepted_ok in Hacc; [|done]. split; [done|]. intros i Hi.
  apply is_acked_spec; [apply Hacc|done].
Qed.


End properties.

Definition example_entries : list SegmentProgressEntry := [mkEntry 1 2 [1]; mkEntry 4 70 [3; 0]].

Lemma example_entries_ok : Forall entry_ok example_entries.
Proof. repeat constructor; done. Qed.

Lemma progress_write_atomic_witness :
  let dir' := (write_progress_file sum32 NoFault ∅ "exporter"%string 1 example_entries).1 in
  read_progress_file sum32 dir' (progress_file_path "exporter") = Ok (1, example_entries) ∧
  scan_progress_files (map_to_list dir').*1 = ["exporter"%string].
Proof.
  split; [|vm_compute; reflexivity].
  destruct (progress_write_atomic sum32 sum32_u32 NoFault ∅ "exporter" 1 example_entries
    (write_progress_file sum32 NoFault ∅ "exporter"%string 1 example_entries).1 (Ok tt)
    (map_to_list (write_progress_file sum32 NoFault ∅ "exporter"%string 1 example_entries).1).*1)
    as (_ & H & _); [reflexivity|done|done|apply example_entries_ok|reflexivity|reflexivity|exact H].
Defined.

Lemma entry_new_len seq n : 0 ≤ n → zlen (acked_bitmap (entry_new seq n)) = words_needed n.
Proof.
  intros Hn. pose proof (div_ceil64_spec n Hn). unfold zlen, words_needed. cbn.
  rewrite length_replicate. apply Z2Nat.id. unfold words_needed. lia.
Qed.

End Progress.
