(* ===== verification/SubscriberState.v ===== *)
(** * Per-subscriber state

    Model of [crates/quiver/src/subscriber/state.rs]: the bitmap of resolved
    bundles of one segment ([SegmentProgress]) and the state of one subscriber
    ([SubscriberState]): its ordered map of segments, its claims, and every
    operation on them.  An operation returns [None] where the code would panic
    on an index out of range. *)
From S2P Require Import Prelude Bytes Files BTreeMap SubscriberTypes Progress.

Import SubscriberTypes.
Local Open Scope Z_scope.

Module SubscriberState.

(** ** [SegmentProgress] *)

Record SegmentProgress := mkProgress {
  bundle_count : Z;
  resolved : list Z;
  resolved_count : Z;
}.

Definition progress_new (bundle_count : Z) : SegmentProgress :=
  let word_count := div_ceil64 bundle_count in
  mkProgress bundle_count (replicate (Z.to_nat word_count) 0) 0.

(** Whether the resolution is new, and the updated progress. *)
Definition mark_resolved (p : SegmentProgress) (index : Z) : option (bool * SegmentProgress) :=
  if bundle_count p <=? index then Some (false, p)
  else
    let word_idx := Z.to_nat (index / 64) in
    let bit_idx := index mod 64 in
    let mask := Z.shiftl 1 bit_idx in
    w ← resolved p !! word_idx;
    if negb (Z.land w mask =? 0) then Some (false, p)
    else Some (true, mkProgress (bundle_count p)
                       (<[word_idx := Z.lor w mask]> (resolved p))
                       (wrapping_add 32 (resolved_count p) 1)).

Definition progress_is_resolved (p : SegmentProgress) (index : Z) : option bool :=
  if bundle_count p <=? index then Some false
  else
    let word_idx := Z.to_nat (index / 64) in
    let bit_idx := index mod 64 in
    w ← resolved p !! word_idx;
    Some (negb (Z.land w (Z.shiftl 1 bit_idx) =? 0)).

Definition progress_is_complete (p : SegmentProgress) : bool := resolved_count p =? bundle_count p.

(** The loop over the words, the first one having index [word_idx]. *)
Fixpoint next_unresolved_from (words : list Z) (word_idx count : Z) : option Z :=
  match words with
  | [] => None
  | word :: words' =>
      if word =? u64_max then next_unresolved_from words' (word_idx + 1) count
      else
        let bit_idx := trailing_zeros (u64_not word) in
        let bundle_idx := word_idx * 64 + bit_idx in
        if bundle_idx <? count then Some bundle_idx
        else next_unresolved_from words' (word_idx + 1) count
  end.

Definition next_unresolved (p : SegmentProgress) : option Z :=
  next_unresolved_from (resolved p) 0 (bundle_count p).

(** ** [SubscriberState] *)

Record State := mkState {
  id : SubscriberId;
  segments : list (Z * SegmentProgress);
  claimed : gset BundleRef;
  active : bool;
}.

Definition state_new (id : SubscriberId) : State := mkState id [] ∅ false.

Definition activate (s : State) : State := s <| active := true |>.

Definition deactivate (s : State) : State := s <| active := false |>.

Definition add_segment (s : State) (segment_seq bundle_count : Z) : State :=
  s <| segments ::= BTreeMap.or_insert segment_seq (progress_new bundle_count) |>.

Definition record_outcome (s : State) (br : BundleRef) (outcome : AckOutcome) : option (bool * State) :=
  let s := s <| claimed ::= λ c, c ∖ {[br]} |> in
  match BTreeMap.get (segment_seq br) (segments s) with
  | Some progress =>
      '(new, progress) ← mark_resolved progress (bundle_index br);
      Some (new, s <| segments ::= BTreeMap.insert (segment_seq br) progress |>)
  | None => Some (false, s)
  end.

Definition is_resolved (s : State) (br : BundleRef) : option bool :=
  match BTreeMap.get (segment_seq br) (segments s) with
  | Some p => progress_is_resolved p (bundle_index br)
  | None => Some false
  end.

Definition is_claimed (s : State) (br : BundleRef) : bool := bool_decide (br ∈ claimed s).

Definition claim (s : State) (br : BundleRef) : option (bool * State) :=
  already ← is_resolved s br;
  if (already : bool) then Some (false, s)
  else Some (negb (is_claimed s br), s <| claimed ::= λ c, {[br]} ∪ c |>).

Definition release (s : State) (br : BundleRef) : State := s <| claimed ::= λ c, c ∖ {[br]} |>.

Definition oldest_incomplete_segment (s : State) : option Z :=
  fst <$> List.find (λ kv, negb (progress_is_complete kv.2)) (segments s).

Definition highest_tracked_segment (s : State) : option Z := BTreeMap.last_key (segments s).

(** The inner loop of [next_pending] over the given indexes. *)
Fixpoint scan_segment (s : State) (seq : Z) (progress : SegmentProgress) (idxs : list Z)
    : option (option BundleRef) :=
  match idxs with
  | [] => Some None
  | idx :: idxs' =>
      r ← progress_is_resolved progress idx;
      if (r : bool) then scan_segment s seq progress idxs'
      else if is_claimed s (mkBundleRef seq idx) then scan_segment s seq progress idxs'
      else Some (Some (mkBundleRef seq idx))
  end.

(** The outer loop of [next_pending] over the given segments. *)
Fixpoint scan_segments (s : State) (segs : list (Z * SegmentProgress)) : option (option BundleRef) :=
  match segs with
  | [] => Some None
  | (seq, progress) :: segs' =>
      match next_unresolved progress with
      | None => scan_segments s segs'
      | Some bundle_index =>
          if negb (is_claimed s (mkBundleRef seq bundle_index))
          then Some (Some (mkBundleRef seq bundle_index))
          else
            found ← scan_segment s seq progress
                      (seqZ (bundle_index + 1) (bundle_count progress - (bundle_index + 1)));
            match found with
            | Some br => Some (Some br)
            | None => scan_segments s segs'
            end
      end
  end.

Definition next_pending (s : State) : option (option BundleRef) := scan_segments s (segments s).

Definition remove_completed_segments_before (s : State) (before : Z) : State :=
  s <| segments ::= BTreeMap.retain (λ seq progress, (before <=? seq) || negb (progress_is_complete progress)) |>.

Definition pending_count (s : State) : Z :=
  foldr (λ kv n, (bundle_count kv.2 - resolved_count kv.2) mod 2 ^ 32 + n) 0 (segments s).

Definition has_claimed_in_segment (s : State) (seq : Z) : bool :=
  existsb (λ br, segment_seq br =? seq) (elements (claimed s)).

(** The loop of [force_complete_segment] over the given indexes. *)
Fixpoint mark_all (p : SegmentProgress) (idxs : list Z) : option SegmentProgress :=
  match idxs with
  | [] => Some p
  | i :: idxs' => '(_, p) ← mark_resolved p i; mark_all p idxs'
  end.

Definition force_complete_segment (s : State) (seq : Z) : option (bool * State) :=
  let s := s <| claimed ::= filter (λ br, segment_seq br ≠ seq) |> in
  match BTreeMap.get seq (segments s) with
  | Some progress =>
      progress ← mark_all progress (seqZ 0 (bundle_count progress));
      Some (true, s <| segments ::= BTreeMap.insert seq progress |>)
  | None => Some (false, s)
  end.

Definition to_progress_entries (s : State) : list Progress.SegmentProgressEntry :=
  (λ kv, Progress.from_bitmap kv.1 (bundle_count kv.2) (resolved kv.2)) <$> segments s.

(** ** Bitmap of a segment *)

(** Number of resolved indexes. *)
Abbreviation resolved_below p := (count_if (bitmap_get (resolved p)) (seqZ 0 (bundle_count p))).

Record progress_ok (p : SegmentProgress) : Prop := {
  progress_count : u32_ok (bundle_count p);
  progress_bits : bitmap_ok (bundle_count p) (resolved p);
  progress_counted : resolved_count p = resolved_below p;
}.

Lemma progress_new_ok n : u32_ok n → progress_ok (progress_new n).
Proof.
  intros Hn. unfold u32_ok in Hn. split; cbn [bundle_count resolved resolved_count progress_new]; [done|apply bitmap_new_ok; lia|].
  symmetry. apply count_if_false. intros. apply bitmap_new_get.
Qed.

Lemma progress_is_resolved_spec p i :
  progress_ok p → 0 ≤ i → progress_is_resolved p i = Some (bitmap_get (resolved p) i).
Proof.
  intros [Hc [Hlen Hw Hhigh] _] Hi. unfold progress_is_resolved. destruct (Z.leb_spec (bundle_count p) i).
  - by rewrite Hhigh.
  - destruct (bitmap_word_lookup (bundle_count p) (resolved p) i) as [w Hwi]; [done|lia|].
    rewrite Hwi. cbn. unfold bitmap_get. rewrite Hwi, mask_testbit; [done|apply mod64_bound].
Qed.

Lemma resolved_below_bound p : progress_ok p → 0 ≤ resolved_below p ≤ bundle_count p.
Proof.
  intros [[Hc _] _ _]. split; [apply count_if_nonneg|].
  etrans; [apply count_if_le|]. by rewrite zlen_seqZ.
Qed.

(** Marking: nothing changes for an index that is resolved or out of range;
    otherwise exactly that bit is set and counted. *)
Lemma mark_resolved_spec p i :
  progress_ok p → 0 ≤ i →
  ∃ p', mark_resolved p i = Some (bool_decide (i < bundle_count p) && negb (bitmap_get (resolved p) i), p') ∧
    progress_ok p' ∧ bundle_count p' = bundle_count p ∧
    ∀ j, 0 ≤ j → bitmap_get (resolved p') j =
      bitmap_get (resolved p) j || (bool_decide (i < bundle_count p) && bool_decide (j = i)).
Proof.
  intros Hp Hi. pose proof Hp as [Hc Hb Hcnt]. unfold mark_resolved.
  destruct (Z.leb_spec (bundle_count p) i).
  { rewrite bool_decide_eq_false_2 by lia. exists p. split_and!; [done..|]. intros. by rewrite orb_false_r. }
  rewrite bool_decide_eq_true_2 by lia.
  destruct (bitmap_word_lookup (bundle_count p) (resolved p) i) as [w Hw]; [apply Hb|lia|].
  assert (bitmap_get (resolved p) i = Z.testbit w (i mod 64)) as Hget by (unfold bitmap_get; by rewrite Hw).
  rewrite Hw. cbn [mbind option_bind]. rewrite mask_testbit by apply mod64_bound. rewrite <- Hget.
  destruct (bitmap_get (resolved p) i) eqn:Hbit; cbn [andb negb].
  { exists p. split_and!; [done..|]. intros j Hj. case_bool_decide; [subst; by rewrite Hbit|by rewrite orb_false_r]. }
  rewrite (bitmap_set_insert _ _ w) by done.
  assert (∀ j, 0 ≤ j → bitmap_get (bitmap_set (resolved p) i) j = bitmap_get (resolved p) j || bool_decide (j = i)) as Hset.
  { intros. by apply bitmap_get_set. }
  assert (resolved_count p + 1 = count_if (bitmap_get (bitmap_set (resolved p) i)) (seqZ 0 (bundle_count p))) as Hcount.
  { rewrite Hcnt. symmetry. rewrite (count_if_ext (λ j, bitmap_get (resolved p) j || bool_decide (j = i))).
    - apply (count_if_seqZ_flip _ _ _ i); [lia|done|by rewrite bool_decide_eq_true_2, orb_true_r|].
      intros j Hj. by rewrite bool_decide_eq_false_2, orb_false_r.
    - intros j Hj%elem_of_seqZ. apply Hset. lia. }
  eexists. split; [done|]. split_and!; [|done|exact Hset]. split; cbn; [done|by apply bitmap_set_ok|].
  unfold wrapping_add. rewrite <- Hcount. apply Z.mod_small. unfold u32_ok in Hc.
  pose proof (count_if_nonneg (bitmap_get (resolved p)) (seqZ 0 (bundle_count p))).
  pose proof (count_if_le (bitmap_get (bitmap_set (resolved p) i)) (seqZ 0 (bundle_count p))).
  rewrite zlen_seqZ in * by lia. lia.
Qed.

Lemma progress_is_complete_spec p :
  progress_ok p →
  progress_is_complete p = true ↔ ∀ i, 0 ≤ i < bundle_count p → bitmap_get (resolved p) i = true.
Proof.
  intros [[Hc _] _ Hcnt]. unfold progress_is_complete. rewrite Z.eqb_eq, Hcnt.
  rewrite <- (zlen_seqZ 0 (bundle_count p)) at 2 by done. rewrite count_if_true.
  split; intros H i Hi; apply H; [apply elem_of_seqZ; lia|apply elem_of_seqZ in Hi; lia].
Qed.

(** A segment that is not complete has an unresolved bundle. *)
Lemma incomplete_unresolved p :
  progress_ok p → progress_is_complete p = false →
  ∃ i, 0 ≤ i < bundle_count p ∧ bitmap_get (resolved p) i = false.
Proof.
  intros Hp Hc. destruct (decide (Exists (λ i, bitmap_get (resolved p) i = false) (seqZ 0 (bundle_count p)))) as [He|Hn].
  - apply Exists_exists in He as (i & Hi%elem_of_seqZ & Hb). exists i. split; [lia|done].
  - apply not_Exists_Forall in Hn; [|apply _]. exfalso. apply not_true_iff_false in Hc. apply Hc.
    apply progress_is_complete_spec; [done|]. intros i Hi. rewrite Forall_forall in Hn.
    apply not_false_iff_true, Hn, elem_of_seqZ. lia.
Qed.

Lemma bitmap_get_cons w ws j :
  0 ≤ j → bitmap_get (w :: ws) j = if j <? 64 then Z.testbit w j else bitmap_get ws (j - 64).
Proof.
  intros Hj. unfold bitmap_get. destruct (Z.ltb_spec j 64).
  - rewrite Z.div_small, Z.mod_small by lia. done.
  - assert (0 ≤ (j - 64) / 64) by (apply Z.div_pos; lia).
    assert (j / 64 = (j - 64) / 64 + 1 ∧ j mod 64 = (j - 64) mod 64) as [-> ->].
    { pose proof (Z.div_add (j - 64) 1 64) as H1. pose proof (Z.mod_add (j - 64) 1 64) as H2.
      replace (j - 64 + 1 * 64) with j in * by lia. lia. }
    by rewrite Z2Nat.inj_add, Nat.add_1_r by lia.
Qed.

(** The bit that [!word] and [trailing_zeros] point at. *)
Lemma first_zero_bit w :
  u64_ok w → w ≠ u64_max →
  0 ≤ trailing_zeros (u64_not w) < 64 ∧ Z.testbit w (trailing_zeros (u64_not w)) = false ∧
  ∀ j, 0 ≤ j < trailing_zeros (u64_not w) → Z.testbit w j = true.
Proof.
  intros Hw Hne. destruct (trailing_zeros_spec (u64_not w)) as (Hb & Hlo & Hhi).
  assert (∀ j, 0 ≤ j < trailing_zeros (u64_not w) → Z.testbit w j = true) as Hones.
  { intros j Hj. specialize (Hlo j Hj). rewrite u64_not_testbit in Hlo by lia. by apply negb_false_iff. }
  assert (trailing_zeros (u64_not w) ≠ 64) as Hlt.
  { intros Heq. apply Hne, u64_max_bits; [done|]. intros i Hi. apply Hones. lia. }
  split_and!; [lia..| |done]. apply negb_true_iff. rewrite <- u64_not_testbit by lia. apply Hhi. lia.
Qed.

Lemma next_unresolved_from_spec words k count :
  Forall u64_ok words →
  match next_unresolved_from words k count with
  | Some i => 64 * k ≤ i < count ∧ bitmap_get words (i - 64 * k) = false ∧
      ∀ j, 0 ≤ j < i - 64 * k → bitmap_get words j = true
  | None => ∀ j, 0 ≤ j < 64 * zlen words → 64 * k + j < count → bitmap_get words j = true
  end.
Proof.
  intros Hw. revert k. induction Hw as [|w ws Hw Hws IH]; intros k; cbn [next_unresolved_from].
  { intros j Hj. unfold zlen in Hj. simpl in Hj. lia. }
  specialize (IH (k + 1)). destruct (Z.eqb_spec w u64_max) as [->|Hne].
  - assert (∀ j, 0 ≤ j < 64 → Z.testbit u64_max j = true) as Hmax by (by apply u64_max_bits).
    destruct (next_unresolved_from ws (k + 1) count) as [i|].
    + destruct IH as (Hi & Hbit & Hlow). split_and!; [lia..| |].
      * rewrite bitmap_get_cons by lia. rewrite (proj2 (Z.ltb_ge _ _)) by lia.
        by replace (i - 64 * k - 64) with (i - 64 * (k + 1)) by lia.
      * intros j Hj. rewrite bitmap_get_cons by lia. destruct (Z.ltb_spec j 64); [apply Hmax; lia|].
        apply Hlow. lia.
    + intros j Hj Hlt. rewrite zlen_cons in Hj. rewrite bitmap_get_cons by lia.
      destruct (Z.ltb_spec j 64); [apply Hmax; lia|]. apply IH; lia.
  - destruct (first_zero_bit w Hw Hne) as (Hb & Hzero & Hones).
    set (b := trailing_zeros (u64_not w)) in *. destruct (Z.ltb_spec (k * 64 + b) count) as [Hlt|Hge].
    + replace (k * 64 + b - 64 * k) with b by lia. split_and!; [lia..| |].
      * rewrite bitmap_get_cons by lia. by rewrite (proj2 (Z.ltb_lt _ _)) by lia.
      * intros j Hj. rewrite bitmap_get_cons by lia. rewrite (proj2 (Z.ltb_lt _ _)) by lia. by apply Hones.
    + destruct (next_unresolved_from ws (k + 1) count) as [i|]; [lia|].
      intros j Hj Hlt. rewrite bitmap_get_cons by lia. rewrite (proj2 (Z.ltb_lt _ _)) by lia. apply Hones. lia.
Qed.

(** [next_unresolved] is the least unresolved index. *)
Lemma next_unresolved_spec p :
  progress_ok p →
  match next_unresolved p with
  | Some i => 0 ≤ i < bundle_count p ∧ bitmap_get (resolved p) i = false ∧
      ∀ j, 0 ≤ j < i → bitmap_get (resolved p) j = true
  | None => ∀ j, 0 ≤ j < bundle_count p → bitmap_get (resolved p) j = true
  end.
Proof.
  intros [[Hc _] [Hlen Hw _] _]. unfold next_unresolved.
  pose proof (next_unresolved_from_spec (resolved p) 0 (bundle_count p) Hw) as H.
  destruct (next_unresolved_from _ _ _) as [i|].
  - destruct H as (Hi & Hbit & Hlow). rewrite Z.sub_0_r in *. split_and!; [lia..|done|].
    intros j Hj. apply Hlow. lia.
  - intros j Hj. pose proof (div_ceil64_spec (bundle_count p) Hc). apply H; lia.
Qed.

(** Marking every index completes the segment. *)
Lemma mark_all_spec p l :
  progress_ok p → Forall (λ i, 0 ≤ i) l →
  ∃ p', mark_all p l = Some p' ∧ progress_ok p' ∧ bundle_count p' = bundle_count p ∧
    ∀ j, 0 ≤ j → bitmap_get (resolved p') j =
      bitmap_get (resolved p) j || (bool_decide (j < bundle_count p) && bool_decide (j ∈ l)).
Proof.
  intros Hp Hl. revert p Hp. induction Hl as [|i l Hi Hl IH]; intros p Hp; cbn [mark_all].
  - exists p. split_and!; [done..|]. intros j Hj. rewrite (bool_decide_eq_false_2 (j ∈ [])) by (apply not_elem_of_nil).
    by rewrite andb_false_r, orb_false_r.
  - destruct (mark_resolved_spec p i Hp Hi) as (p1 & -> & Hp1 & Hc1 & Hbits1). cbn.
    destruct (IH p1 Hp1) as (p2 & -> & Hp2 & Hc2 & Hbits2). exists p2.
    split_and!; [done..|congruence|]. intros j Hj. rewrite Hbits2, Hbits1, Hc1 by done.
    repeat case_bool_decide; rewrite ?elem_of_cons in *; simplify_eq; try tauto; try lia;
      by destruct (bitmap_get (resolved p) _).
Qed.

(** ** Invariant of a subscriber's state *)

Definition ref_ok (br : BundleRef) : Prop := u64_ok (segment_seq br) ∧ u32_ok (bundle_index br).

Definition count_of (s : State) (seq : Z) : option Z := bundle_count <$> BTreeMap.get seq (segments s).

(** The bundle is one of a segment the subscriber tracks. *)
Definition tracked (s : State) (br : BundleRef) : Prop :=
  ∃ n, count_of s (segment_seq br) = Some n ∧ 0 ≤ bundle_index br < n.

Definition resolved_in (s : State) (br : BundleRef) : bool :=
  match BTreeMap.get (segment_seq br) (segments s) with
  | Some p => bitmap_get (resolved p) (bundle_index br)
  | None => false
  end.

Definition deliverable (s : State) (br : BundleRef) : Prop :=
  tracked s br ∧ resolved_in s br = false ∧ br ∉ claimed s.

(** The segments are in order with well-formed bitmaps, and no claimed bundle
    is resolved. *)
Record state_ok (s : State) : Prop := {
  state_sorted : BTreeMap.sorted (segments s);
  state_segments : ∀ seq p, BTreeMap.get seq (segments s) = Some p → u64_ok seq ∧ progress_ok p;
  state_claims : ∀ br, br ∈ claimed s → ref_ok br ∧ resolved_in s br = false;
}.

#[global] Instance tracked_dec s br : Decision (tracked s br).
Proof.
  refine (match count_of s (segment_seq br) as o
    return (count_of s (segment_seq br) = o → Decision (tracked s br)) with
  | Some n => λ H, cast_if (decide (0 ≤ bundle_index br < n))
  | None => λ H, right _ end eq_refl).
  - by exists n.
  - abstract (intros (n' & Hn' & ?); congruence).
  - abstract (intros (n' & Hn' & ?); congruence).
Defined.

Lemma tracked_get s br :
  tracked s br ↔ ∃ p, BTreeMap.get (segment_seq br) (segments s) = Some p ∧ 0 ≤ bundle_index br < bundle_count p.
Proof.
  unfold tracked, count_of. split.
  - intros (n & Hn & Hi). apply fmap_Some in Hn as (p & Hp & ->). by exists p.
  - intros (p & Hp & Hi). exists (bundle_count p). by rewrite Hp.
Qed.

(** Only tracked bundles are resolved. *)
Lemma resolved_tracked s br : state_ok s → ref_ok br → resolved_in s br = true → tracked s br.
Proof.
  intros [_ Hsegs _] [_ [Hi _]] H. apply tracked_get. unfold resolved_in in H.
  destruct (BTreeMap.get (segment_seq br) (segments s)) as [p|] eqn:Hp; [|done].
  exists p. split; [done|]. destruct (Hsegs _ _ Hp) as [_ [_ [_ _ Hhigh] _]].
  destruct (decide (bundle_index br < bundle_count p)); [done|]. rewrite Hhigh in H by lia. done.
Qed.

Lemma is_resolved_spec s br : state_ok s → ref_ok br → is_resolved s br = Some (resolved_in s br).
Proof.
  intros [_ Hsegs _] [_ [Hi _]]. unfold is_resolved, resolved_in.
  destruct (BTreeMap.get (segment_seq br) (segments s)) as [p|] eqn:Hp; [|done].
  destruct (Hsegs _ _ Hp). by apply progress_is_resolved_spec.
Qed.

Lemma state_new_ok i : state_ok (state_new i).
Proof. split; [apply BTreeMap.sorted_nil|done|]. intros br Hbr. by apply not_elem_of_empty in Hbr. Qed.

(** Changes of the flags and of the claims alone. *)
Lemma state_ok_claims s c a :
  state_ok s → (∀ br, br ∈ c → ref_ok br ∧ resolved_in s br = false) →
  state_ok (mkState (id s) (segments s) c a).
Proof. intros [Hs Hsegs _] Hc. by split. Qed.

Lemma activate_ok s : state_ok s → state_ok (activate s).
Proof. intros Hs. destruct s. by apply (state_ok_claims _ _ true Hs), Hs. Qed.

Lemma deactivate_ok s : state_ok s → state_ok (deactivate s).
Proof. intros Hs. destruct s. by apply (state_ok_claims _ _ false Hs), Hs. Qed.

Lemma release_ok s br : state_ok s → state_ok (release s br).
Proof.
  intros Hs. destruct s as [i segs c a]. apply (state_ok_claims _ _ a Hs).
  intros br' [Hbr' _]%elem_of_difference. by apply Hs.
Qed.

Lemma add_segment_get s seq n seq' :
  BTreeMap.get seq' (segments (add_segment s seq n)) =
  match BTreeMap.get seq' (segments s) with
  | Some p => Some p
  | None => if seq' =? seq then Some (progress_new n) else None
  end.
Proof. destruct s. apply BTreeMap.get_or_insert. Qed.

Lemma add_segment_resolved s seq n br : resolved_in (add_segment s seq n) br = resolved_in s br.
Proof.
  unfold resolved_in. rewrite add_segment_get.
  destruct (BTreeMap.get (segment_seq br) (segments s)); [done|].
  destruct (segment_seq br =? seq); [|done]. apply bitmap_new_get.
Qed.

Lemma add_segment_ok s seq n : state_ok s → u64_ok seq → u32_ok n → state_ok (add_segment s seq n).
Proof.
  intros [Hs Hsegs Hc] Hseq Hn. split.
  - destruct s. by apply BTreeMap.or_insert_sorted.
  - intros seq' p. rewrite add_segment_get.
    destruct (BTreeMap.get seq' (segments s)) as [p'|] eqn:Hp; [intros [= <-]; by apply Hsegs|].
    destruct (Z.eqb_spec seq' seq) as [->|]; [|done]. intros [= <-]. split; [done|by apply progress_new_ok].
  - intros br Hbr. rewrite add_segment_resolved. apply Hc. by destruct s.
Qed.

(** Claiming succeeds exactly when the bundle is neither resolved nor claimed. *)
Lemma claim_spec s br :
  state_ok s → ref_ok br →
  ∃ s', claim s br = Some (negb (resolved_in s br) && bool_decide (br ∉ claimed s), s') ∧ state_ok s' ∧
    id s' = id s ∧ active s' = active s ∧ segments s' = segments s ∧
    claimed s' = if resolved_in s br then claimed s else {[br]} ∪ claimed s.
Proof.
  intros Hs Hr. unfold claim. rewrite is_resolved_spec by done. cbn.
  destruct (resolved_in s br) eqn:Hres; [by exists s|]. cbn.
  replace (negb (is_claimed s br)) with (bool_decide (br ∉ claimed s)).
  2: { unfold is_claimed. by rewrite bool_decide_not. }
  eexists. split; [done|]. destruct s as [i segs c a]. split_and!; [|done..].
  apply (state_ok_claims _ _ a Hs). intros br' [->%elem_of_singleton|Hin]%elem_of_union; [done|].
  by apply Hs.
Qed.

(** Replacing the progress of one segment. *)
Lemma update_segment_ok s seq p p' c a :
  state_ok s → BTreeMap.get seq (segments s) = Some p → progress_ok p' →
  (∀ br, br ∈ c → br ∈ claimed s) →
  (∀ br, br ∈ c → segment_seq br = seq → bitmap_get (resolved p') (bundle_index br) = false) →
  state_ok (mkState (id s) (BTreeMap.insert seq p' (segments s)) c a).
Proof.
  intros [Hs Hsegs Hc] Hp Hp' Hsub Hnew. split; cbn [segments claimed].
  - by apply BTreeMap.insert_sorted.
  - intros seq' q. destruct (decide (seq' = seq)) as [->|].
    + rewrite BTreeMap.get_insert_eq. intros [= <-]. split; [by apply (Hsegs _ p)|done].
    + rewrite BTreeMap.get_insert_ne by done. apply Hsegs.
  - intros br Hbr. split; [by apply Hc, Hsub|]. unfold resolved_in. cbn [segments].
    destruct (decide (segment_seq br = seq)) as [<-|].
    + rewrite BTreeMap.get_insert_eq. by apply Hnew.
    + rewrite BTreeMap.get_insert_ne by done. by apply Hc, Hsub.
Qed.

Lemma update_segment_counts s seq p p' c a seq' :
  BTreeMap.get seq (segments s) = Some p → bundle_count p' = bundle_count p →
  count_of (mkState (id s) (BTreeMap.insert seq p' (segments s)) c a) seq' = count_of s seq'.
Proof.
  intros Hp Hc. unfold count_of. cbn [segments]. destruct (decide (seq' = seq)) as [->|].
  - rewrite BTreeMap.get_insert_eq, Hp. cbn. by rewrite Hc.
  - by rewrite BTreeMap.get_insert_ne.
Qed.

Lemma update_segment_resolved s seq p' c a br :
  resolved_in (mkState (id s) (BTreeMap.insert seq p' (segments s)) c a) br =
  if segment_seq br =? seq then bitmap_get (resolved p') (bundle_index br) else resolved_in s br.
Proof.
  unfold resolved_in. cbn [segments]. destruct (Z.eqb_spec (segment_seq br) seq) as [->|].
  - by rewrite BTreeMap.get_insert_eq.
  - by rewrite BTreeMap.get_insert_ne.
Qed.

Lemma record_outcome_eq s br o :
  record_outcome s br o =
  match BTreeMap.get (segment_seq br) (segments s) with
  | Some p =>
      '(new, p') ← mark_resolved p (bundle_index br);
      Some (new, mkState (id s) (BTreeMap.insert (segment_seq br) p' (segments s)) (claimed s ∖ {[br]}) (active s))
  | None => Some (false, mkState (id s) (segments s) (claimed s ∖ {[br]}) (active s))
  end.
Proof. by destruct s. Qed.

Lemma bundle_ref_eq br br' :
  segment_seq br' = segment_seq br → bundle_index br' = bundle_index br ↔ br' = br.
Proof. destruct br, br'. cbn. intros ->. split; congruence. Qed.

Lemma tracked_in_progress s br p :
  BTreeMap.get (segment_seq br) (segments s) = Some p → 0 ≤ bundle_index br →
  tracked s br ↔ bundle_index br < bundle_count p.
Proof.
  intros Hp Hi. rewrite tracked_get. split.
  - intros (q & Hq & ?). replace q with p in * by congruence. lia.
  - intros. exists p. split; [done|lia].
Qed.

Lemma resolved_in_progress s br p :
  BTreeMap.get (segment_seq br) (segments s) = Some p →
  resolved_in s br = bitmap_get (resolved p) (bundle_index br).
Proof. intros Hp. unfold resolved_in. by rewrite Hp. Qed.

(** Recording an outcome drops the claim and resolves the bundle if it is
    tracked; the answer says whether it was unresolved. *)
Lemma record_outcome_spec s br o :
  state_ok s → ref_ok br →
  ∃ s', record_outcome s br o = Some (bool_decide (tracked s br) && negb (resolved_in s br), s') ∧ state_ok s' ∧
    id s' = id s ∧ active s' = active s ∧ claimed s' = claimed s ∖ {[br]} ∧
    (∀ seq, count_of s' seq = count_of s seq) ∧
    (∀ br', ref_ok br' → resolved_in s' br' =
      resolved_in s br' || (bool_decide (tracked s br) && bool_decide (br' = br))).
Proof.
  intros Hs Hr. rewrite record_outcome_eq.
  destruct (BTreeMap.get (segment_seq br) (segments s)) as [p|] eqn:Hp.
  - destruct (mark_resolved_spec p (bundle_index br)) as (p' & -> & Hp' & Hcnt & Hbits);
      [by apply (state_segments s Hs _ _ Hp)|apply Hr|].
    rewrite (bool_decide_ext _ _ (tracked_in_progress s br p Hp (proj1 (proj2 Hr)))), (resolved_in_progress s br p Hp).
    eexists. split; [done|]. split_and!; [|done..| |].
    + apply (update_segment_ok s _ p); [done..| |].
      * intros br' [? _]%elem_of_difference. done.
      * intros br' [Hin Hne%not_elem_of_singleton]%elem_of_difference Hseq.
        destruct (state_claims s Hs br' Hin) as [Hr' Hbit]. rewrite Hbits by apply Hr'.
        rewrite (resolved_in_progress s br' p) in Hbit by (by rewrite Hseq). rewrite Hbit.
        apply andb_false_intro2, bool_decide_eq_false_2. by rewrite bundle_ref_eq.
    + intros seq. by apply (update_segment_counts s _ p).
    + intros br' Hr'. rewrite update_segment_resolved.
      destruct (Z.eqb_spec (segment_seq br') (segment_seq br)) as [Hseq|Hne].
      * rewrite Hbits by apply Hr'. rewrite (resolved_in_progress s br' p) by (by rewrite Hseq).
        by rewrite (bool_decide_ext _ _ (bundle_ref_eq br br' Hseq)).
      * rewrite (bool_decide_eq_false_2 (br' = br)) by congruence. by rewrite andb_false_r, orb_false_r.
  - rewrite bool_decide_eq_false_2 by (rewrite tracked_get; intros (p & Hp' & _); congruence).
    eexists. split; [done|]. split_and!; [|done..|].
    + apply (state_ok_claims s _ _ Hs). intros br' [? _]%elem_of_difference. by apply Hs.
    + intros br' _. by rewrite orb_false_r.
Qed.

Lemma force_complete_segment_eq s seq :
  force_complete_segment s seq =
  let c := filter (λ br, segment_seq br ≠ seq) (claimed s) in
  match BTreeMap.get seq (segments s) with
  | Some p =>
      p' ← mark_all p (seqZ 0 (bundle_count p));
      Some (true, mkState (id s) (BTreeMap.insert seq p' (segments s)) c (active s))
  | None => Some (false, mkState (id s) (segments s) c (active s))
  end.
Proof. by destruct s. Qed.

(** Forcing a segment drops its claims and resolves all its bundles. *)
Lemma force_complete_spec s seq :
  state_ok s →
  ∃ s', force_complete_segment s seq = Some (BTreeMap.contains_key seq (segments s), s') ∧ state_ok s' ∧
    id s' = id s ∧ active s' = active s ∧
    (∀ br, br ∈ claimed s' ↔ br ∈ claimed s ∧ segment_seq br ≠ seq) ∧
    (∀ seq', count_of s' seq' = count_of s seq') ∧
    (∀ br, ref_ok br → resolved_in s' br =
      resolved_in s br || bool_decide (segment_seq br = seq ∧ tracked s br)).
Proof.
  intros Hs. rewrite force_complete_segment_eq. cbn zeta. unfold BTreeMap.contains_key.
  assert (∀ br, br ∈ filter (λ br, segment_seq br ≠ seq) (claimed s) ↔ br ∈ claimed s ∧ segment_seq br ≠ seq) as Hf.
  { intros br. rewrite elem_of_filter. tauto. }
  destruct (BTreeMap.get seq (segments s)) as [p|] eqn:Hp.
  - destruct (mark_all_spec p (seqZ 0 (bundle_count p))) as (p' & -> & Hp' & Hcnt & Hbits);
      [by apply (state_segments s Hs _ _ Hp)|apply Forall_forall; intros i ?%elem_of_seqZ; lia|].
    eexists. split; [done|]. split_and!; [|done..|exact Hf| |].
    + apply (update_segment_ok s _ p); [done..| |]; intros br Hbr%Hf; [apply Hbr|]. intros. tauto.
    + intros seq'. by apply (update_segment_counts s _ p).
    + intros br [_ [Hi _]]. rewrite update_segment_resolved. destruct (Z.eqb_spec (segment_seq br) seq) as [<-|Hne].
      * rewrite Hbits, (resolved_in_progress s br p) by done. f_equal.
        rewrite <- bool_decide_and. apply bool_decide_ext.
        rewrite (tracked_in_progress s br p), elem_of_seqZ by done. lia.
      * rewrite bool_decide_eq_false_2 by tauto. by rewrite orb_false_r.
  - eexists. split; [done|]. split_and!; [|done..|exact Hf|done|].
    + apply (state_ok_claims s _ _ Hs). intros br [? _]%Hf. by apply Hs.
    + intros br _. rewrite bool_decide_eq_false_2; [by rewrite orb_false_r|].
      intros [<- (q & Hq & _)%tracked_get]. congruence.
Qed.

Lemma cleanup_get s before seq :
  state_ok s →
  BTreeMap.get seq (segments (remove_completed_segments_before s before)) =
  match BTreeMap.get seq (segments s) with
  | Some p => if (before <=? seq) || negb (progress_is_complete p) then Some p else None
  | None => None
  end.
Proof. intros [Hs _ _]. destruct s. by apply BTreeMap.get_retain. Qed.

(** Cleaning up forgets only complete segments older than the boundary. *)
Lemma cleanup_ok s before :
  state_ok s → state_ok (remove_completed_segments_before s before).
Proof.
  intros Hs. split.
  - destruct Hs as [Hs _ _]. destruct s. by apply BTreeMap.retain_sorted.
  - intros seq p. rewrite cleanup_get by done. destruct (BTreeMap.get seq (segments s)) as [q|] eqn:Hq; [|done].
    case_match; [|done]. intros [= <-]. by apply Hs.
  - intros br Hbr. assert (br ∈ claimed s) as Hin by (by destruct s). apply Hs in Hin as [Hr Hbit].
    split; [done|]. unfold resolved_in in *. rewrite cleanup_get by done.
    destruct (BTreeMap.get (segment_seq br) (segments s)); [|done]. by destruct ((before <=? segment_seq br) || _).
Qed.

Lemma cleanup_keeps s before br :
  state_ok s → before ≤ segment_seq br →
  let s' := remove_completed_segments_before s before in
  (tracked s' br ↔ tracked s br) ∧ resolved_in s' br = resolved_in s br ∧ claimed s' = claimed s.
Proof.
  intros Hs Hb s'. assert (BTreeMap.get (segment_seq br) (segments s') = BTreeMap.get (segment_seq br) (segments s)) as Hg.
  { unfold s'. rewrite cleanup_get by done. rewrite (proj2 (Z.leb_le _ _)) by done.
    by destruct (BTreeMap.get (segment_seq br) (segments s)). }
  unfold resolved_in. rewrite !tracked_get, Hg. split_and!; [done..|]. unfold s'. by destruct s.
Qed.

(** ** The next pending bundle *)

(** Index [j] of the segment can be delivered. *)
Definition open_at (s : State) (seq : Z) (p : SegmentProgress) (j : Z) : Prop :=
  bitmap_get (resolved p) j = false ∧ mkBundleRef seq j ∉ claimed s.

(** [r] is the least deliverable bundle with an index in [a, b). *)
Definition least_open (s : State) (seq : Z) (p : SegmentProgress) (a b : Z) (r : option BundleRef) : Prop :=
  match r with
  | Some br => segment_seq br = seq ∧ a ≤ bundle_index br < b ∧ open_at s seq p (bundle_index br) ∧
      ∀ j, a ≤ j < bundle_index br → ¬ open_at s seq p j
  | None => ∀ j, a ≤ j < b → ¬ open_at s seq p j
  end.

Lemma least_open_skip s seq p a b r :
  ¬ open_at s seq p a → least_open s seq p (a + 1) b r → least_open s seq p a b r.
Proof.
  intros Hn. destruct r as [br|]; cbn.
  - intros (Hseq & Hb & Ho & Hmin). split_and!; [done|lia|lia|done|..]. intros j Hj.
    destruct (decide (j = a)) as [->|]; [done|]. apply Hmin. lia.
  - intros Hmin j Hj. destruct (decide (j = a)) as [->|]; [done|]. apply Hmin. lia.
Qed.

Lemma scan_segment_spec s seq p n a :
  progress_ok p → 0 ≤ a →
  ∃ r, scan_segment s seq p (seqZ a (Z.of_nat n)) = Some r ∧ least_open s seq p a (a + Z.of_nat n) r.
Proof.
  intros Hp. revert a. induction n as [|n IH]; intros a Ha.
  - exists None. split; [done|]. intros j Hj. lia.
  - replace (seqZ a (Z.of_nat (S n))) with (a :: seqZ (a + 1) (Z.of_nat n)).
    2: { rewrite (seqZ_cons a (Z.of_nat (S n))) by lia. f_equal. f_equal; lia. }
    destruct (IH (a + 1)) as (r & Hr & Hl); [lia|].
    replace (a + 1 + Z.of_nat n) with (a + Z.of_nat (S n)) in Hl by lia.
    cbn [scan_segment]. rewrite progress_is_resolved_spec by done. cbn [mbind option_bind]. rewrite Hr.
    destruct (bitmap_get (resolved p) a) eqn:Hbit.
    { exists r. split; [done|]. apply least_open_skip; [|done]. intros [? _]. congruence. }
    unfold is_claimed. case_bool_decide as Hc.
    { exists r. split; [done|]. apply least_open_skip; [|done]. by intros [_ ?]. }
    eexists. split; [done|]. cbn. split_and!; [done|lia|lia|done|]. intros j Hj. lia.
Qed.

(** What the scan of one segment finds. *)
Lemma scan_one_segment s seq p :
  progress_ok p →
  ∃ r, least_open s seq p 0 (bundle_count p) r ∧
    ∀ segs, scan_segments s ((seq, p) :: segs) =
      match r with Some br => Some (Some br) | None => scan_segments s segs end.
Proof.
  intros Hp. cbn [scan_segments]. pose proof (next_unresolved_spec p Hp) as Hn.
  destruct (next_unresolved p) as [i|].
  2: { exists None. split; [|done]. intros j Hj [Hb _]. rewrite Hn in Hb by done. done. }
  destruct Hn as (Hi & Hbit & Hlow). unfold is_claimed. case_bool_decide as Hc; cbn [negb].
  - destruct (scan_segment_spec s seq p (Z.to_nat (bundle_count p - (i + 1))) (i + 1)) as (r & Hr & Hl); [done|lia|].
    rewrite Z2Nat.id in Hr, Hl by lia. rewrite Hr. exists r. split; [|by destruct r].
    replace (i + 1 + (bundle_count p - (i + 1))) with (bundle_count p) in Hl by lia.
    assert (∀ j, 0 ≤ j < i + 1 → ¬ open_at s seq p j) as Hbelow.
    { intros j Hj [Hb Hnc]. destruct (decide (j = i)) as [->|]; [done|]. rewrite Hlow in Hb by lia. done. }
    destruct r as [br|]; cbn in *.
    + destruct Hl as (? & ? & ? & Hmin). split_and!; [done|lia|lia|done|..]. intros j Hj.
      destruct (decide (j < i + 1)); [apply Hbelow; lia|apply Hmin; lia].
    + intros j Hj. destruct (decide (j < i + 1)); [apply Hbelow; lia|apply Hl; lia].
  - exists (Some (mkBundleRef seq i)). split; [|done]. cbn. split_and!; [done|lia|lia|done|].
    intros j Hj [Hb _]. rewrite Hlow in Hb by done. done.
Qed.

(** [br] is deliverable from one of the given segments. *)
Definition deliverable_from (s : State) (segs : list (Z * SegmentProgress)) (br : BundleRef) : Prop :=
  ∃ p, (segment_seq br, p) ∈ segs ∧ 0 ≤ bundle_index br < bundle_count p ∧ open_at s (segment_seq br) p (bundle_index br).

Lemma scan_segments_spec s segs :
  BTreeMap.sorted segs → Forall (λ kv, progress_ok kv.2) segs →
  ∃ r, scan_segments s segs = Some r ∧
    match r with
    | Some br => deliverable_from s segs br ∧ ∀ br', deliverable_from s segs br' → ¬ bundle_lt br' br
    | None => ∀ br, ¬ deliverable_from s segs br
    end.
Proof.
  intros Hsort Hok. induction Hok as [|[seq p] segs Hp Hsegs IH].
  { exists None. split; [done|]. by intros br (p & ?%elem_of_nil & _). }
  apply BTreeMap.sorted_cons in Hsort as [Hall Hsort]. rewrite Forall_forall in Hall.
  destruct (scan_one_segment s seq p Hp) as (r & Hl & Heq). rewrite Heq. destruct r as [br|].
  - exists (Some br). split; [done|]. destruct Hl as (<- & Hb & Ho & Hmin). split.
    + exists p. split; [left|done].
    + intros br' (p' & Hin & Hb' & Ho') Hlt%bundle_lt_spec.
      apply elem_of_cons in Hin as [[= Hseq ->]|Hin].
      * apply (Hmin (bundle_index br')); [lia|]. by rewrite <- Hseq.
      * specialize (Hall _ Hin). simpl in Hall. lia.
  - destruct (IH Hsort) as (r & -> & Hr). exists r. split; [done|].
    assert (∀ br, deliverable_from s ((seq, p) :: segs) br ↔ deliverable_from s segs br) as Hiff.
    { intros br. split.
      - intros (p' & [[= -> ->]|Hin]%elem_of_cons & Hb & Ho); [by destruct (Hl _ Hb)|by exists p'].
      - intros (p' & Hin & Hb & Ho). exists p'. split; [by right|done]. }
    destruct r as [br|].
    + destruct Hr as [Hd Hmin]. split; [by apply Hiff|]. intros br' Hbr'. by apply Hmin, Hiff.
    + intros br Hbr. by apply (Hr br), Hiff.
Qed.

Lemma deliverable_segments s br : state_ok s → deliverable_from s (segments s) br ↔ deliverable s br.
Proof.
  intros [Hs _ _]. unfold deliverable_from, deliverable. rewrite tracked_get. split.
  - intros (p & Hin & Hb & Ho1 & Ho2). apply BTreeMap.elem_get in Hin; [|done].
    rewrite (resolved_in_progress s br p) by done. destruct br. split_and!; [by exists p|done..].
  - intros ((p & Hp & Hb) & Hr & Hc). exists p. rewrite (resolved_in_progress s br p) in Hr by done.
    split; [by apply BTreeMap.get_elem|]. split; [done|]. by destruct br.
Qed.

(** [next_pending] is the least deliverable bundle. *)
Lemma next_pending_spec s :
  state_ok s →
  ∃ r, next_pending s = Some r ∧
    match r with
    | Some br => deliverable s br ∧ ∀ br', deliverable s br' → ¬ bundle_lt br' br
    | None => ∀ br, ¬ deliverable s br
    end.
Proof.
  intros Hs. destruct (scan_segments_spec s (segments s)) as (r & Hr & Hspec).
  - apply Hs.
  - apply Forall_forall. intros [seq p] Hin. apply BTreeMap.elem_get in Hin; [|apply Hs]. apply (state_segments s Hs) in Hin. apply Hin.
  - exists r. split; [done|]. destruct r as [br|].
    + destruct Hspec as [Hd Hmin]. split; [by apply deliverable_segments|].
      intros br' Hbr'. by apply Hmin, deliverable_segments.
    + intros br Hbr. by apply (Hspec br), deliverable_segments.
Qed.

(** ** Pending segments and counts *)

(** The segment has an unresolved bundle. *)
Definition pending_in (s : State) (seq : Z) : Prop :=
  ∃ br, segment_seq br = seq ∧ tracked s br ∧ resolved_in s br = false.

Lemma pending_in_get s seq :
  state_ok s →
  pending_in s seq ↔ ∃ p, BTreeMap.get seq (segments s) = Some p ∧ progress_is_complete p = false.
Proof.
  intros Hs. split.
  - intros (br & <- & (p & Hp & Hi)%tracked_get & Hr). exists p. split; [done|].
    rewrite (resolved_in_progress s br p Hp) in Hr. apply not_true_iff_false. intros Hc.
    rewrite progress_is_complete_spec in Hc by (by apply (state_segments s Hs _ _ Hp)).
    rewrite Hc in Hr by done. done.
  - intros (p & Hp & Hc). apply incomplete_unresolved in Hc as (i & Hi & Hb); [|by apply (state_segments s Hs _ _ Hp)].
    exists (mkBundleRef seq i). split_and!; [done| |].
    + apply tracked_get. by exists p.
    + by rewrite (resolved_in_progress s _ p).
Qed.

Definition incomplete_at (segs : list (Z * SegmentProgress)) (seq : Z) : Prop :=
  ∃ p, BTreeMap.get seq segs = Some p ∧ progress_is_complete p = false.

Lemma find_incomplete_spec segs :
  BTreeMap.sorted segs →
  match List.find (λ kv, negb (progress_is_complete kv.2)) segs with
  | Some kv => incomplete_at segs kv.1 ∧ ∀ seq, incomplete_at segs seq → kv.1 ≤ seq
  | None => ∀ seq, ¬ incomplete_at segs seq
  end.
Proof.
  induction segs as [|[seq p] segs IH]; cbn [List.find]; intros Hs; [by intros ? (? & ? & _)|].
  apply BTreeMap.sorted_cons in Hs as [Hall Hs]. rewrite Forall_forall in Hall. specialize (IH Hs).
  assert (∀ seq', is_Some (BTreeMap.get seq' segs) → seq < seq') as Hlt.
  { intros seq' [p' Hp'%BTreeMap.get_elem]. apply (Hall _ Hp'). }
  destruct (progress_is_complete p) eqn:Hc; cbn [snd negb]; rewrite Hc; cbn [negb].
  - assert (∀ seq', incomplete_at ((seq, p) :: segs) seq' ↔ incomplete_at segs seq') as Hin.
    { intros seq'. unfold incomplete_at. cbn. destruct (Z.eqb_spec seq' seq) as [->|]; [|done].
      split; intros (p' & Hp' & Hc'); [congruence|]. specialize (Hlt seq (mk_is_Some _ _ Hp')). lia. }
    destruct (List.find _ segs) as [kv|].
    + destruct IH as [H Hmin]. split; [by apply Hin|]. intros seq' H'%Hin. by apply Hmin.
    + intros seq' H'%Hin. by apply (IH seq').
  - split; [exists p; cbn; by rewrite Z.eqb_refl|]. intros seq' (p' & Hp' & _). cbn in *.
    destruct (Z.eqb_spec seq' seq); [lia|]. specialize (Hlt seq' (mk_is_Some _ _ Hp')). lia.
Qed.

(** [oldest_incomplete_segment] is the least segment with an unresolved bundle. *)
Lemma oldest_incomplete_spec s :
  state_ok s →
  match oldest_incomplete_segment s with
  | Some seq => pending_in s seq ∧ ∀ seq', pending_in s seq' → seq ≤ seq'
  | None => ∀ seq, ¬ pending_in s seq
  end.
Proof.
  intros Hs. pose proof (find_incomplete_spec (segments s) (state_sorted s Hs)) as H.
  unfold oldest_incomplete_segment. destruct (List.find _ _) as [kv|]; cbn.
  - destruct H as [H Hmin]. split; [by apply pending_in_get|]. intros seq' H'. by apply Hmin, pending_in_get.
  - intros seq H'. by apply (H seq), pending_in_get.
Qed.

(** Every bundle of the tracked segments, in order. *)
Definition bundles (s : State) : list BundleRef :=
  concat ((λ kv, mkBundleRef kv.1 <$> seqZ 0 (bundle_count kv.2)) <$> segments s).

Lemma count_if_negb {A} (f : A → bool) l : count_if (λ x, negb (f x)) l = zlen l - count_if f l.
Proof. induction l as [|x l IH]; [done|]. rewrite zlen_cons. cbn. unfold count_if in IH. rewrite IH. destruct (f x); simpl; lia. Qed.

(** [pending_count] counts the unresolved bundles. *)
Lemma pending_count_spec s :
  state_ok s → pending_count s = count_if (λ br, negb (resolved_in s br)) (bundles s).
Proof.
  intros Hs. unfold pending_count, bundles.
  assert (∀ kv, kv ∈ segments s → BTreeMap.get kv.1 (segments s) = Some kv.2 ∧ progress_ok kv.2) as Hin.
  { intros [seq p] Hin. apply BTreeMap.elem_get in Hin; [|apply Hs]. split; [done|]. by apply (state_segments s Hs _ _ Hin). }
  revert Hin. generalize (segments s) at 1 3 4. intros segs. induction segs as [|[seq p] segs IH]; intros Hin; [done|].
  rewrite fmap_cons. cbn [foldr concat fst snd]. rewrite count_if_app, IH by (intros; apply Hin; by right).
  f_equal. destruct (Hin (seq, p)) as [Hget Hp]; [left|]. simpl in Hget, Hp.
  pose proof (resolved_below_bound p Hp) as Hb. pose proof Hp as [[Hc0 Hc1] _ Hcnt]. rewrite Hcnt, Z.mod_small by lia.
  rewrite count_if_fmap, count_if_negb, zlen_seqZ by done. f_equal. symmetry. apply count_if_ext.
  intros i _. unfold resolved_in. cbn. by rewrite Hget.
Qed.

(** ** Sequences of operations

    What the registry does to one subscriber: a poll delivers the next pending
    bundle and claims it, a claim delivers the bundle it asks for. *)

Inductive op :=
  | Activate
  | Deactivate
  | AddSegment (seq count : Z)
  | Poll
  | Claim (br : BundleRef)
  | Record_ (br : BundleRef) (outcome : AckOutcome)
  | Release (br : BundleRef)
  | Cleanup (before : Z)
  | ForceComplete (seq : Z).

Inductive event :=
  | Delivered (br : BundleRef)
  | Resolved (br : BundleRef).

#[global] Instance event_eq_dec : EqDecision event.
Proof. solve_decision. Defined.

Definition step (s : State) (o : op) : option (State * list event) :=
  match o with
  | Activate => Some (activate s, [])
  | Deactivate => Some (deactivate s, [])
  | AddSegment seq n => Some (add_segment s seq n, [])
  | Poll =>
      r ← next_pending s;
      match r with
      | Some br => '(_, s') ← claim s br; Some (s', [Delivered br])
      | None => Some (s, [])
      end
  | Claim br => '(won, s') ← claim s br; Some (s', if (won : bool) then [Delivered br] else [])
  | Record_ br outcome =>
      '(new, s') ← record_outcome s br outcome; Some (s', if (new : bool) then [Resolved br] else [])
  | Release br => Some (release s br, [])
  | Cleanup before => Some (remove_completed_segments_before s before, [])
  | ForceComplete seq => '(_, s') ← force_complete_segment s seq; Some (s', [])
  end.

Fixpoint run (s : State) (ops : list op) : option (State * list event) :=
  match ops with
  | [] => Some (s, [])
  | o :: ops' =>
      '(s1, ev1) ← step s o;
      '(s2, ev2) ← run s1 ops';
      Some (s2, ev1 ++ ev2)
  end.

(** Machine-width arguments. *)
Definition op_ok (o : op) : Prop :=
  match o with
  | AddSegment seq n => u64_ok seq ∧ u32_ok n
  | Claim br | Record_ br _ | Release br => ref_ok br
  | Cleanup seq | ForceComplete seq => u64_ok seq
  | Activate | Deactivate | Poll => True
  end.

(** The operation does not clean up segment [seq]. *)
Definition op_keeps (seq : Z) (o : op) : Prop :=
  match o with Cleanup before => before ≤ seq | _ => True end.

Definition releases (br : BundleRef) (o : op) : bool :=
  match o with Release br' => bool_decide (br' = br) | _ => false end.

#[global] Instance deliverable_dec s br : Decision (deliverable s br).
Proof. unfold deliverable. apply _. Defined.

(** One when the bundle can be delivered, one when it can be resolved. *)
Definition to_deliver (s : State) (br : BundleRef) : Z := Z.b2z (bool_decide (deliverable s br)).

Definition to_resolve (s : State) (br : BundleRef) : Z := Z.b2z (negb (resolved_in s br)).

Definition occurrences (e : event) (ev : list event) : Z := count_if (λ e', bool_decide (e' = e)) ev.

(** Each delivery of a bundle uses up its deliverability, which only a release
    of an unresolved bundle restores; each resolution is the only one. *)
Record step_bounds (br : BundleRef) (s s' : State) (ev : list event) (released : bool) : Prop := {
  bound_tracked : tracked s' br;
  bound_deliver : occurrences (Delivered br) ev + to_deliver s' br ≤
    to_deliver s br + Z.b2z (released && negb (resolved_in s br));
  bound_resolve : occurrences (Resolved br) ev + to_resolve s' br ≤ to_resolve s br;
}.

Lemma b2z_decide_impl (P Q : Prop) `{Decision P, Decision Q} :
  (P → Q) → Z.b2z (bool_decide P) ≤ Z.b2z (bool_decide Q).
Proof. intros. repeat case_bool_decide; simpl; tauto || lia. Qed.

(** An operation that neither delivers nor resolves the bundle, and keeps its
    claim unless it is resolved. *)
Lemma step_bounds_quiet br s s' ev released :
  tracked s br → tracked s' br → (resolved_in s br = true → resolved_in s' br = true) →
  (br ∈ claimed s → br ∈ claimed s' ∨ resolved_in s' br = true) →
  occurrences (Delivered br) ev = 0 → occurrences (Resolved br) ev = 0 →
  step_bounds br s s' ev released.
Proof.
  intros Ht Ht' Hr Hc Hd Hres. split; [done|..].
  - rewrite Hd. assert (to_deliver s' br ≤ to_deliver s br); [|by destruct (released && _); simpl; lia].
    apply b2z_decide_impl. intros (_ & Hr' & Hc'). split_and!; [done| |].
    + destruct (resolved_in s br); [|done]. rewrite Hr in Hr' by done. done.
    + intros [|?]%Hc; congruence.
  - rewrite Hres. unfold to_resolve. destruct (resolved_in s br); [by rewrite Hr|].
    by destruct (resolved_in s' br).
Qed.

Lemma step_bounds_delivered br s s' released :
  deliverable s br → segments s' = segments s → br ∈ claimed s' →
  step_bounds br s s' [Delivered br] released.
Proof.
  intros Hd Hseg Hc. assert (resolved_in s' br = resolved_in s br) as Hr by (unfold resolved_in; by rewrite Hseg).
  pose proof Hd as (Ht & Hres & _). split.
  - unfold tracked, count_of in *. by rewrite Hseg.
  - unfold occurrences, to_deliver. rewrite (bool_decide_eq_false_2 (deliverable s' br)) by (intros (_ & _ & ?); done).
    rewrite (bool_decide_eq_true_2 (deliverable s br)) by done. cbn. rewrite bool_decide_eq_true_2 by done.
    destruct (released && _); simpl; lia.
  - unfold to_resolve. by rewrite Hr.
Qed.

Lemma step_bounds_record br s s' released :
  tracked s br → tracked s' br → resolved_in s br = false → resolved_in s' br = true →
  step_bounds br s s' [Resolved br] released.
Proof.
  intros Ht Ht' Hr Hr'. split; [done|..].
  - unfold occurrences, to_deliver. rewrite (bool_decide_eq_false_2 (deliverable s' br)) by (intros (_ & ? & _); congruence).
    cbn. rewrite bool_decide_eq_false_2 by done. destruct (bool_decide _), (released && _); simpl; lia.
  - unfold to_resolve, occurrences. rewrite Hr, Hr'. cbn. by rewrite bool_decide_eq_true_2.
Qed.

Lemma occurrences_other e e' : e' ≠ e → occurrences e [e'] = 0.
Proof. intros. unfold occurrences. cbn. by rewrite bool_decide_eq_false_2. Qed.

Lemma claim_bounds s s' br br' released :
  tracked s br → segments s' = segments s →
  claimed s' = (if resolved_in s br' then claimed s else {[br']} ∪ claimed s) →
  step_bounds br s s'
    (if negb (resolved_in s br') && bool_decide (br' ∉ claimed s) then [Delivered br'] else []) released.
Proof.
  intros Ht Hseg Hc. assert (tracked s' br) as Ht' by (unfold tracked, count_of in *; by rewrite Hseg).
  assert (resolved_in s' br = resolved_in s br) as Hr by (unfold resolved_in; by rewrite Hseg).
  assert (br ∈ claimed s → br ∈ claimed s') as Hkeep by (rewrite Hc; clear; destruct (resolved_in s br'); set_solver).
  destruct (resolved_in s br') eqn:Hres; cbn [negb andb].
  { apply step_bounds_quiet; try done; [congruence|]. intros. left. by apply Hkeep. }
  case_bool_decide as Hnc.
  2: { apply step_bounds_quiet; try done; [congruence|]. intros. left. by apply Hkeep. }
  destruct (decide (br' = br)) as [->|Hne].
  - apply step_bounds_delivered; [by split_and!|done|]. rewrite Hc. clear. set_solver.
  - apply step_bounds_quiet; try done; [congruence| |].
    + intros. left. by apply Hkeep.
    + apply occurrences_other. congruence.
Qed.

Lemma count_of_tracked s s' br :
  (∀ seq, count_of s' seq = count_of s seq) → tracked s br → tracked s' br.
Proof. intros Hc. unfold tracked. by rewrite Hc. Qed.

Lemma tracked_ref_ok s br : state_ok s → tracked s br → ref_ok br.
Proof.
  intros Hs (p & Hp & Hi)%tracked_get. destruct (state_segments s Hs _ _ Hp) as [? [Hc _ _]].
  unfold ref_ok, u32_ok in *. split; [done|lia].
Qed.

Lemma record_bounds s s' br br' released :
  state_ok s → tracked s br → (∀ seq, count_of s' seq = count_of s seq) →
  claimed s' = claimed s ∖ {[br']} →
  resolved_in s' br = resolved_in s br || (bool_decide (tracked s br') && bool_decide (br = br')) →
  step_bounds br s s'
    (if bool_decide (tracked s br') && negb (resolved_in s br') then [Resolved br'] else []) released.
Proof.
  intros Hs Ht Hcnt Hc Hr. pose proof (count_of_tracked s s' br Hcnt Ht) as Ht'.
  destruct (decide (br = br')) as [<-|Hne].
  - rewrite (bool_decide_eq_true_2 (tracked s br)) in * by done. rewrite bool_decide_eq_true_2, orb_true_r in Hr by done.
    cbn [andb]. destruct (resolved_in s br) eqn:Hres; cbn [negb].
    + apply step_bounds_quiet; try done. intros. by right.
    + by apply step_bounds_record.
  - rewrite (bool_decide_eq_false_2 (br = br')), andb_false_r, orb_false_r in Hr by done.
    apply step_bounds_quiet; try done; [congruence|..].
    + intros Hin. left. rewrite Hc. apply elem_of_difference. split; [done|]. by apply not_elem_of_singleton.
    + by destruct (_ && _).
    + destruct (_ && _); [|done]. apply occurrences_other. congruence.
Qed.

Lemma release_bounds s br br' :
  tracked s br → step_bounds br s (release s br') [] (bool_decide (br' = br)).
Proof.
  intros Ht. destruct s as [i segs c a]. case_bool_decide as Hb.
  - subst. split; [done| |done]. unfold occurrences, to_deliver. cbn [count_if foldr].
    change (resolved_in (release _ br) br) with (resolved_in (mkState i segs c a) br).
    case_bool_decide as Hd.
    + destruct Hd as (_ & Hres & _). change (resolved_in (mkState i segs c a) br = false) in Hres.
      rewrite Hres. destruct (bool_decide _); simpl; lia.
    + destruct (bool_decide _), (_ && _); simpl; lia.
  - apply step_bounds_quiet; try done. intros Hin. left. apply elem_of_difference. split; [done|].
    apply not_elem_of_singleton. congruence.
Qed.

(** Every operation succeeds, keeps the invariant and respects the bounds. *)
Lemma step_ok s o :
  state_ok s → op_ok o →
  ∃ s' ev, step s o = Some (s', ev) ∧ state_ok s' ∧
    ∀ br, tracked s br → op_keeps (segment_seq br) o → step_bounds br s s' ev (releases br o).
Proof.
  intros Hs Ho. destruct o as [| |seq n| |br'|br' oc|br'|before|seq]; cbn [step releases].
  - eexists _, _. split; [done|]. split; [by apply activate_ok|]. intros br Ht _.
    destruct s. apply step_bounds_quiet; try done. by left.
  - eexists _, _. split; [done|]. split; [by apply deactivate_ok|]. intros br Ht _.
    destruct s. apply step_bounds_quiet; try done. by left.
  - destruct Ho. eexists _, _. split; [done|]. split; [by apply add_segment_ok|]. intros br Ht _.
    apply step_bounds_quiet; try done; [|by rewrite add_segment_resolved|destruct s; by left].
    apply tracked_get in Ht as (p & Hp & Hi). apply tracked_get. exists p. by rewrite add_segment_get, Hp.
  - destruct (next_pending_spec s Hs) as (r & -> & Hr). cbn. destruct r as [br'|].
    2: { eexists _, _. split; [done|]. split; [done|]. intros br Ht _. apply step_bounds_quiet; try done. by left. }
    destruct Hr as [(Ht' & Hres & Hc) _].
    destruct (claim_spec s br') as (s' & -> & Hs' & _ & _ & Hseg & Hcl); [done|by apply (tracked_ref_ok s)|].
    cbn. eexists _, _. split; [done|]. split; [done|]. intros br Ht _.
    pose proof (claim_bounds s s' br br' false Ht Hseg Hcl) as Hb.
    by rewrite Hres, bool_decide_eq_true_2 in Hb.
  - destruct (claim_spec s br') as (s' & -> & Hs' & _ & _ & Hseg & Hcl); [done..|].
    cbn. eexists _, _. split; [done|]. split; [done|]. intros br Ht _. by apply claim_bounds.
  - destruct (record_outcome_spec s br' oc) as (s' & -> & Hs' & _ & _ & Hcl & Hcnt & Hres); [done..|].
    cbn. eexists _, _. split; [done|]. split; [done|]. intros br Ht _.
    apply record_bounds; try done. apply Hres. by apply (tracked_ref_ok s).
  - eexists _, _. split; [done|]. split; [by apply release_ok|]. intros br Ht _.
    by apply release_bounds.
  - eexists _, _. split; [done|]. split; [by apply cleanup_ok|]. intros br Ht Hk.
    destruct (cleanup_keeps s before br Hs Hk) as (Ht' & Hr & Hc).
    apply step_bounds_quiet; try done; [by apply Ht'|congruence|]. intros. left. by rewrite Hc.
  - destruct (force_complete_spec s seq Hs) as (s' & -> & Hs' & _ & _ & Hcl & Hcnt & Hres).
    cbn. eexists _, _. split; [done|]. split; [done|]. intros br Ht _.
    rewrite <- (orb_false_r false). apply step_bounds_quiet; try done.
    + by apply (count_of_tracked s).
    + intros Hr. rewrite Hres, Hr by (by apply (tracked_ref_ok s)). done.
    + intros Hin. destruct (decide (segment_seq br = seq)); [right|left; by apply Hcl].
      rewrite Hres by (by apply (tracked_ref_ok s)). rewrite bool_decide_eq_true_2 by done. apply orb_true_r.
Qed.

Lemma claim_id s br b s' : claim s br = Some (b, s') → id s' = id s.
Proof.
  unfold claim. destruct (is_resolved s br) as [[]|]; cbn; intros H; simplify_eq; [done|]. by destruct s.
Qed.

(** No operation changes the identifier. *)
Lemma step_id s o s' ev : step s o = Some (s', ev) → id s' = id s.
Proof.
  destruct o as [| |seq n| |br|br oc|br|before|seq]; cbn [step]; try (intros [= <- <-]; by destruct s).
  - destruct (next_pending s) as [[br|]|]; cbn; intros H; simplify_eq; [|done].
    destruct (claim s br) as [[b s1]|] eqn:Hc; cbn in H; simplify_eq. by eapply claim_id.
  - destruct (claim s br) as [[b s1]|] eqn:Hc; cbn; intros H; simplify_eq. by eapply claim_id.
  - rewrite record_outcome_eq. destruct (BTreeMap.get _ _); [|cbn; intros H; by simplify_eq].
    destruct (mark_resolved _ _) as [[]|]; cbn; intros H; by simplify_eq.
  - rewrite force_complete_segment_eq. cbn zeta. destruct (BTreeMap.get _ _); [|cbn; intros H; by simplify_eq].
    destruct (mark_all _ _); cbn; intros H; by simplify_eq.
Qed.

Lemma run_id s ops s' ev : run s ops = Some (s', ev) → id s' = id s.
Proof.
  revert s ev. induction ops as [|o ops IH]; intros s ev; cbn [run]; [by intros [= <- _]|].
  destruct (step s o) as [[s1 ev1]|] eqn:Hstep; [|done]. cbn.
  destruct (run s1 ops) as [[s2 ev2]|] eqn:Hrun; [|done]. cbn. intros [= <- _].
  rewrite (IH _ _ Hrun). by eapply step_id.
Qed.

Lemma occurrences_app e ev ev' : occurrences e (ev ++ ev') = occurrences e ev + occurrences e ev'.
Proof. apply count_if_app. Qed.

Lemma b2z_bound b : 0 ≤ Z.b2z b ≤ 1.
Proof. destruct b; simpl; lia. Qed.

(** Every sequence of operations succeeds; the bounds add up. *)
Lemma run_ok s ops :
  state_ok s → Forall op_ok ops →
  ∃ s' ev, run s ops = Some (s', ev) ∧ state_ok s' ∧
    ∀ br, tracked s br → Forall (op_keeps (segment_seq br)) ops →
      tracked s' br ∧
      occurrences (Delivered br) ev + to_deliver s' br ≤
        to_deliver s br + to_resolve s br * count_if (releases br) ops ∧
      occurrences (Resolved br) ev + to_resolve s' br ≤ to_resolve s br.
Proof.
  intros Hs Hops. revert s Hs. induction Hops as [|o ops Ho Hops IH]; intros s Hs; cbn [run].
  { eexists _, _. split; [done|]. split; [done|]. intros br Ht _. split; [done|]. unfold occurrences. cbn. lia. }
  destruct (step_ok s o Hs Ho) as (s1 & ev1 & -> & Hs1 & Hb1). cbn.
  destruct (IH s1 Hs1) as (s2 & ev2 & -> & Hs2 & Hb2). cbn. eexists _, _. split; [done|]. split; [done|].
  intros br Ht Hk. apply Forall_cons in Hk as [Hk Hks]. destruct (Hb1 br Ht Hk) as [Ht1 Hd1 Hr1].
  destruct (Hb2 br Ht1 Hks) as (Ht2 & Hd2 & Hr2). split; [done|]. rewrite !occurrences_app.
  fold (count_if (releases br) ops) in *. pose proof (count_if_nonneg (releases br) ops).
  pose proof (count_if_nonneg (λ e, bool_decide (e = Resolved br)) ev1) as Hn1. fold (occurrences (Resolved br) ev1) in Hn1.
  assert (to_resolve s1 br ≤ to_resolve s br) as Hmono by lia. split; [|lia].
  assert (Z.b2z (releases br o && negb (resolved_in s br)) = to_resolve s br * Z.b2z (releases br o)) as Hrel.
  { unfold to_resolve. by destruct (releases br o), (resolved_in s br). }
  nia.
Qed.

(** ** Properties *)

(** The indexes of a segment that are resolved. *)
Definition resolved_set (p : SegmentProgress) : gset Z :=
  list_to_set (filter (λ i, bitmap_get (resolved p) i = true) (seqZ 0 (bundle_count p))).

Lemma elem_of_resolved_set p i :
  progress_ok p → 0 ≤ i → i ∈ resolved_set p ↔ bitmap_get (resolved p) i = true.
Proof.
  intros [_ [_ _ Hhigh] _] Hi. unfold resolved_set. rewrite elem_of_list_to_set, list_elem_of_filter, elem_of_seqZ.
  split; [by intros [? _]|]. intros Hb. split; [done|].
  destruct (decide (i < bundle_count p)); [lia|]. rewrite Hhigh in Hb by lia. done.
Qed.

Lemma resolved_set_nonneg p i : i ∈ resolved_set p → 0 ≤ i < bundle_count p.
Proof. unfold resolved_set. rewrite elem_of_list_to_set, list_elem_of_filter, elem_of_seqZ. lia. Qed.

Lemma resolved_set_size p : progress_ok p → Z.of_nat (size (resolved_set p)) = resolved_count p.
Proof.
  intros [_ _ ->]. unfold resolved_set. rewrite size_list_to_set; [apply count_if_filter|].
  apply NoDup_filter, NoDup_seqZ.
Qed.

Lemma resolved_set_marked p p' i :
  progress_ok p → progress_ok p' → bundle_count p' = bundle_count p → 0 ≤ i →
  (∀ j, 0 ≤ j → bitmap_get (resolved p') j =
    bitmap_get (resolved p) j || (bool_decide (i < bundle_count p) && bool_decide (j = i))) →
  resolved_set p' = if decide (i < bundle_count p) then {[i]} ∪ resolved_set p else resolved_set p.
Proof.
  intros Hp Hp' Hc Hi Hbits. apply leibniz_equiv. intros j. destruct (decide (0 ≤ j)) as [Hj|Hj].
  - rewrite elem_of_resolved_set, Hbits, orb_true_iff, andb_true_iff, !bool_decide_eq_true by done.
    destruct (decide (i < bundle_count p)); [rewrite elem_of_union, elem_of_singleton|];
      rewrite elem_of_resolved_set by done; tauto.
  - split; intros H; exfalso; apply Hj.
    + apply (resolved_set_nonneg _ _ H).
    + destruct (decide (i < bundle_count p)); [apply elem_of_union in H as [->%elem_of_singleton|H]|];
        [done|apply (resolved_set_nonneg _ _ H)..].
Qed.

(** C24: A segment's bitmap implements the set of resolved indexes below the
    bundle count: a new one is empty, a query is membership, marking adds the
    index (out of range it changes nothing) and reports whether it was new, the
    counter is the size, completeness is being full, and the next unresolved
    index is the least that is missing.  No operation panics. *)
Theorem segment_progress_refines_set n p i :
  u32_ok n → progress_ok p → u32_ok i →
  (progress_ok (progress_new n) ∧ bundle_count (progress_new n) = n ∧ resolved_set (progress_new n) = ∅) ∧
  progress_is_resolved p i = Some (bool_decide (i ∈ resolved_set p)) ∧
  (∃ p', mark_resolved p i = Some (bool_decide (i < bundle_count p ∧ i ∉ resolved_set p), p') ∧
     progress_ok p' ∧ bundle_count p' = bundle_count p ∧
     resolved_set p' = (if decide (i < bundle_count p) then {[i]} ∪ resolved_set p else resolved_set p)) ∧
  resolved_count p = Z.of_nat (size (resolved_set p)) ∧
  (progress_is_complete p = true ↔ resolved_set p = list_to_set (seqZ 0 (bundle_count p))) ∧
  match next_unresolved p with
  | Some j => (0 ≤ j < bundle_count p) ∧ (j ∉ resolved_set p) ∧ ∀ k, 0 ≤ k < j → k ∈ resolved_set p
  | None => ∀ k, 0 ≤ k < bundle_count p → k ∈ resolved_set p
  end.
Proof.
  intros Hn Hp [Hi _]. split_and!.
  - by apply progress_new_ok.
  - done.
  - apply leibniz_equiv, equiv_empty. intros j Hj. pose proof (resolved_set_nonneg _ _ Hj).
    apply elem_of_resolved_set in Hj; [|by apply progress_new_ok|lia]. cbn in Hj. by rewrite bitmap_new_get in Hj.
  - rewrite progress_is_resolved_spec by done. f_equal. symmetry. destruct (bitmap_get (resolved p) i) eqn:Hb.
    + apply bool_decide_eq_true_2. by apply elem_of_resolved_set.
    + apply bool_decide_eq_false_2. rewrite elem_of_resolved_set by done. congruence.
  - destruct (mark_resolved_spec p i Hp Hi) as (p' & -> & Hp' & Hc & Hbits). exists p'. split_and!; [|done..|].
    + do 2 f_equal. rewrite bool_decide_and. f_equal. rewrite bool_decide_not. f_equal. symmetry.
      destruct (bitmap_get (resolved p) i) eqn:Hb; [apply bool_decide_eq_true_2|apply bool_decide_eq_false_2];
        rewrite elem_of_resolved_set by done; congruence.
    + by apply resolved_set_marked.
  - by rewrite resolved_set_size.
  - rewrite progress_is_complete_spec by done. split.
    + intros H. apply leibniz_equiv. intros j. rewrite elem_of_list_to_set, elem_of_seqZ. split.
      * intros Hj%resolved_set_nonneg. lia.
      * intros Hj. apply elem_of_resolved_set; [done|lia|]. apply H. lia.
    + intros H j Hj. apply elem_of_resolved_set; [done|lia|]. rewrite H, elem_of_list_to_set, elem_of_seqZ. lia.
  - pose proof (next_unresolved_spec p Hp) as H. destruct (next_unresolved p) as [j|].
    + destruct H as (Hj & Hb & Hlow). split; [done|]. rewrite elem_of_resolved_set by (done || lia).
      split; [congruence|]. intros k Hk. apply elem_of_resolved_set; [done|lia|]. by apply Hlow.
    + intros k Hk. apply elem_of_resolved_set; [done|lia|]. by apply H.
Qed.

(** The queries of a subscriber's state are exact.  The next pending
    bundle is the least bundle, in order of segment and index, that is tracked,
    unresolved and unclaimed, and there is none only if no bundle is; the
    pending count is the number of unresolved bundles; the oldest incomplete
    segment is the least one with an unresolved bundle. *)
Theorem state_queries_exact s :
  state_ok s →
  (∃ r, next_pending s = Some r ∧
    match r with
    | Some br => deliverable s br ∧ ∀ br', deliverable s br' → ¬ bundle_lt br' br
    | None => ∀ br, ¬ deliverable s br
    end) ∧
  pending_count s = count_if (λ br, negb (resolved_in s br)) (bundles s) ∧
  match oldest_incomplete_segment s with
  | Some seq => pending_in s seq ∧ ∀ seq', pending_in s seq' → seq ≤ seq'
  | None => ∀ seq, ¬ pending_in s seq
  end.
Proof.
  intros Hs. split_and!; [by apply next_pending_spec|by apply pending_count_spec|by apply oldest_incomplete_spec].
Qed.

Lemma occurrences_nonneg e ev : 0 ≤ occurrences e ev.
Proof. apply count_if_nonneg. Qed.

Lemma progress_check n words c :
  u32_ok n → zlen words = div_ceil64 n → Forall u64_ok words →
  Forall (λ i, bitmap_get words i = false) (seqZ n (64 * zlen words - n)) →
  c = count_if (bitmap_get words) (seqZ 0 n) → progress_ok (mkProgress n words c).
Proof.
  intros [Hn0 Hn] Hl Hw Hhigh ->. split; [done| |done]. split; [done..|]. intros i Hi. cbn in *.
  destruct (decide (i < 64 * zlen words)).
  - rewrite Forall_forall in Hhigh. apply Hhigh, elem_of_seqZ. lia.
  - unfold bitmap_get. rewrite lookup_ge_None_2; [done|]. unfold zlen in *.
    assert (Z.of_nat (length words) ≤ i / 64) by (apply Z.div_le_lower_bound; lia). lia.
Qed.

Lemma example_progress_ok p : p = mkProgress 2 [1] 1 ∨ p = mkProgress 70 [0; 0] 0 → progress_ok p.
Proof.
  intros [->| ->]; apply progress_check; try done; try (by repeat constructor);
    apply (bool_decide_unpack _); vm_compute; done.
Qed.

(** A subscriber with two segments, the first bundle of which is claimed. *)
Definition example_state : State :=
  mkState "exporter" [(3, mkProgress 2 [1] 1); (5, mkProgress 70 [0; 0] 0)] {[mkBundleRef 3 1]} true.

Lemma example_state_ok : state_ok example_state.
Proof.
  split.
  - repeat constructor.
  - intros seq p Hg. apply BTreeMap.get_elem in Hg. cbn in Hg.
    apply elem_of_cons in Hg as [[= -> ->]|[[= -> ->]|[]%elem_of_nil]%elem_of_cons];
      (split; [done|]); apply example_progress_ok; ((by left) || (by right)).
  - intros br Hbr. change (br ∈@{gset BundleRef} {[mkBundleRef 3 1]}) in Hbr.
    apply elem_of_singleton in Hbr as ->. done.
Qed.

Lemma segment_progress_refines_set_witness :
  progress_is_resolved (mkProgress 2 [1] 1) 1 = Some (bool_decide (1 ∈ resolved_set (mkProgress 2 [1] 1))).
Proof.
  refine (proj1 (proj2 (segment_progress_refines_set 70 (mkProgress 2 [1] 1) 1 _ _ _))); [done| |done].
  apply example_progress_ok. by left.
Defined.

End SubscriberState.
