(* ===== verification/Registry.v ===== *)
(** * Subscriber registry

    Model of [crates/quiver/src/subscriber/registry.rs] and [handle.rs], and of
    the clean-up of completed segments in [crates/quiver/src/engine.rs]: the
    registry of subscribers, opening it from the progress files of a directory,
    delivery of bundles through handles, flushing of progress, and the removal
    of segments.  The locks are held for the whole of each modelled step, so a
    step is a function of the registry.  The order in which a hash map or a
    hash set is iterated is an argument ([order]).  The segment store is the
    class [SegmentProvider]; an operation takes the store as it is when it is
    called.  [None] is a panic. *)
From S2P Require Import Prelude Bytes Files BTreeMap SubscriberTypes Progress SubscriberState.

Import SubscriberTypes.
Local Open Scope Z_scope.

Module Registry.
Import SubscriberState.

(** ** The segment store

    The methods of the trait that the registry calls; [Data] is the
    reconstructed bundle. *)
Class SegmentProvider (P Data : Type) := {
  provider_bundle_count : P → Z → result Z SubscriberError;
  bundle_item_count : P → BundleRef → result Z SubscriberError;
  read_bundle : P → BundleRef → result Data SubscriberError;
  available_segments : P → list Z;
}.

(** What the trait's types promise: sequence numbers are [u64], counts [u32]. *)
Class ProviderBounds (P Data : Type) `{SegmentProvider P Data} := {
  available_u64 : ∀ p seq, seq ∈ available_segments p → u64_ok seq;
  bundle_count_u32 : ∀ p seq n, provider_bundle_count p seq = Ok n → u32_ok n;
}.

(** ** State *)

Record Registry := mkRegistry {
  subscribers : gmap SubscriberId State;
  dirty_subscribers : gset SubscriberId;
  highest_progress_segment : option Z;
  notifications : nat;                     (** calls of [notify_waiters] *)
}.

Record BundleHandle (Data : Type) := mkHandle {
  handle_ref : BundleRef;
  subscriber_id : SubscriberId;
  data : Data;
  handle_resolved : bool;
  item_count : Z;
}.
Arguments mkHandle {Data}.
Arguments handle_ref {Data}.
Arguments subscriber_id {Data}.
Arguments handle_resolved {Data}.

Definition put_state (r : Registry) (id : SubscriberId) (s : State) : Registry :=
  r <| subscribers ::= <[id := s]> |>.

Definition mark_dirty (r : Registry) (id : SubscriberId) : Registry :=
  r <| dirty_subscribers ::= λ d, {[id]} ∪ d |>.

Definition max_option (a b : option Z) : option Z :=
  match a, b with
  | None, x | x, None => x
  | Some x, Some y => Some (Z.max x y)
  end.

Definition min_option (a b : option Z) : option Z :=
  match a, b with
  | None, x | x, None => x
  | Some x, Some y => Some (Z.min x y)
  end.

(** A [BTreeMap<SegmentSeq, BTreeSet<BundleIndex>>] *)
Abbreviation Unresolved := (list (Z * gset Z)).

(** [BTreeSet<SegmentSeq>] *)
Abbreviation SeqSet := (list (Z * unit)).

Section registry.
Context {P Data : Type} {HP : SegmentProvider P Data} (crc32 : list Z → Z).

(** ** Opening *)

(** The inner loop of the restoration of an entry. *)
Fixpoint restore_bits (s : State) (entry : Progress.SegmentProgressEntry) (idxs : list Z) : option State :=
  match idxs with
  | [] => Some s
  | idx :: idxs' =>
      acked ← Progress.is_acked entry idx;
      if (acked : bool) then
        '(_, s) ← record_outcome s (mkBundleRef (Progress.seg_seq entry) idx) Acked;
        restore_bits s entry idxs'
      else restore_bits s entry idxs'
  end.

Fixpoint restore_entries (s : State) (entries : list Progress.SegmentProgressEntry) : option State :=
  match entries with
  | [] => Some s
  | entry :: entries' =>
      let s := add_segment s (Progress.seg_seq entry) (Progress.bundle_count entry) in
      s ← restore_bits s entry (seqZ 0 (Progress.bundle_count entry));
      restore_entries s entries'
  end.

Definition highest_persisted (entries : list Progress.SegmentProgressEntry) : option Z :=
  foldr (λ e, max_option (Some (Progress.seg_seq e))) None entries.

Definition completed_before_snapshot (oldest_incomplete : Z) (highest : option Z) (seq : Z) : bool :=
  if oldest_incomplete =? 0
  then match highest with Some h => seq <=? h | None => false end
  else seq <? oldest_incomplete.

(** Segments finalized after the last flush are added as unresolved. *)
Fixpoint restore_available (s : State) (oldest_incomplete : Z) (highest : option Z)
    (available : list (Z * Z)) : State :=
  match available with
  | [] => s
  | (seq, n) :: available' =>
      let s :=
        if BTreeMap.contains_key seq (segments s) then s
        else if completed_before_snapshot oldest_incomplete highest seq then s
        else add_segment s seq n in
      restore_available s oldest_incomplete highest available'
  end.

(** [available_segments().map(bundle_count).collect::<Result<Vec<_>>>()] *)
Fixpoint collect_counts (p : P) (seqs : list Z) : result (list (Z * Z)) SubscriberError :=
  match seqs with
  | [] => Ok []
  | seq :: seqs' =>
      match provider_bundle_count p seq with
      | Err e => Err e
      | Ok n => match collect_counts p seqs' with Err e => Err e | Ok l => Ok ((seq, n) :: l) end
      end
  end.

(** One subscriber of the loop of [open]: its restored state, or nothing when
    its file cannot be read. *)
Definition restore_subscriber (dir : Dir) (available : list (Z * Z)) (id : SubscriberId)
    : option (option (State * option Z)) :=
  match Progress.read_progress_file crc32 dir (Progress.progress_file_path id) with
  | Err _ => Some None
  | Ok (oldest_incomplete, entries) =>
      let highest := highest_persisted entries in
      let header_floor := if oldest_incomplete =? 0 then None else Some oldest_incomplete in
      s ← restore_entries (state_new id) entries;
      let s := restore_available s oldest_incomplete highest available in
      Some (Some (s, max_option highest header_floor))
  end.

Fixpoint restore_all (dir : Dir) (available : list (Z * Z)) (ids : list SubscriberId)
    (r : Registry) : option Registry :=
  match ids with
  | [] => Some r
  | id :: ids' =>
      restored ← restore_subscriber dir available id;
      match restored with
      | None => restore_all dir available ids' r
      | Some (s, floor) =>
          restore_all dir available ids'
            ((put_state r id s) <| highest_progress_segment ::= λ h, max_option h floor |>)
      end
  end.

Definition empty_registry : Registry := mkRegistry ∅ ∅ None 0.

(** [dir]: the data directory, if it exists; [names]: what [read_dir] yields. *)
Definition open (dir : option Dir) (names : list string) (p : P)
    : option (result Registry SubscriberError) :=
  match dir with
  | None => Some (Ok empty_registry)
  | Some dir =>
      let subscriber_ids := Progress.scan_progress_files names in
      let available :=
        match subscriber_ids with [] => Ok [] | _ => collect_counts p (available_segments p) end in
      match available with
      | Err e => Some (Err e)
      | Ok available => r ← restore_all dir available subscriber_ids empty_registry; Some (Ok r)
      end
  end.

(** ** Lifecycle *)

Definition register (r : Registry) (id : SubscriberId) : Registry :=
  match subscribers r !! id with
  | Some _ => r
  | None => put_state r id (state_new id)
  end.

(** The loop of [activate]; a failing count leaves what was added before. *)
Fixpoint add_available (p : P) (s : State) (seqs : list Z) : State * result unit SubscriberError :=
  match seqs with
  | [] => (s, Ok tt)
  | seq :: seqs' =>
      match provider_bundle_count p seq with
      | Err e => (s, Err e)
      | Ok n => add_available p (add_segment s seq n) seqs'
      end
  end.

Definition activate (p : P) (r : Registry) (id : SubscriberId) : Registry * result unit SubscriberError :=
  match subscribers r !! id with
  | None => (r, Err (NotFound id))
  | Some s =>
      if active s then (r, Ok tt)
      else
        match add_available p s (available_segments p) with
        | (s, Err e) => (put_state r id s, Err e)
        | (s, Ok _) => (put_state r id (SubscriberState.activate s), Ok tt)
        end
  end.

Definition deactivate (r : Registry) (id : SubscriberId) : Registry * result unit SubscriberError :=
  match subscribers r !! id with
  | None => (r, Err (NotFound id))
  | Some s => (put_state r id (SubscriberState.deactivate s), Ok tt)
  end.

Definition unregister (fails : bool) (r : Registry) (dir : Dir) (id : SubscriberId)
    : Registry * Dir * result unit SubscriberError :=
  match subscribers r !! id with
  | None => (r, dir, Err (NotFound id))
  | Some _ =>
      let r := r <| subscribers ::= delete id |> in
      let r := r <| dirty_subscribers ::= λ d, d ∖ {[id]} |> in
      let '(dir, res) := Progress.delete_progress_file fails dir id in
      (r, dir, res)
  end.

Definition on_segment_finalized (r : Registry) (seq n : Z) : Registry :=
  let r := r <| subscribers ::= fmap (λ s, if active s then add_segment s seq n else s) |> in
  r <| notifications ::= S |>.

(** ** Delivery *)

(** Reading the claimed bundle outside the locks. *)
Definition read_claimed (p : P) (id : SubscriberId) (br : BundleRef)
    : result (BundleHandle Data) SubscriberError :=
  match read_bundle p br with
  | Err e => Err e
  | Ok data =>
      let item_count := match bundle_item_count p br with Ok n => n | Err _ => 0 end in
      Ok (mkHandle br id data false item_count)
  end.

Definition poll_next_bundle (p : P) (r : Registry) (id : SubscriberId)
    : option (Registry * result (option (BundleHandle Data)) SubscriberError) :=
  match subscribers r !! id with
  | None => Some (r, Err (NotFound id))
  | Some s =>
      if negb (active s) then Some (r, Err (NotFound id))
      else
        next ← next_pending s;
        match next with
        | None => Some (r, Ok None)
        | Some br =>
            '(_, s) ← claim s br;
            let r := put_state r id s in
            match read_claimed p id br with
            | Err e => Some (r, Err e)
            | Ok h => Some (r, Ok (Some h))
            end
        end
  end.

Definition claim_bundle (p : P) (r : Registry) (id : SubscriberId) (br : BundleRef)
    : option (Registry * result (BundleHandle Data) SubscriberError) :=
  match subscribers r !! id with
  | None => Some (r, Err (NotFound id))
  | Some s =>
      already ← is_resolved s br;
      if (already : bool) then Some (r, Err (BundleNotAvailable AlreadyResolved))
      else if is_claimed s br then Some (r, Err (BundleNotAvailable AlreadyClaimed))
      else
        '(won, s) ← claim s br;
        if negb won then Some (put_state r id s, Err (BundleNotAvailable ClaimFailed))
        else Some (put_state r id s, read_claimed p id br)
  end.

(** ** Resolution *)

Definition record_resolution (r : Registry) (id : SubscriberId) (br : BundleRef) (outcome : AckOutcome)
    : option Registry :=
  r ← match subscribers r !! id with
      | Some s => '(_, s) ← record_outcome s br outcome; Some (put_state r id s)
      | None => Some r
      end;
  Some (mark_dirty r id).

Definition release_bundle (r : Registry) (id : SubscriberId) (br : BundleRef) : Registry :=
  match subscribers r !! id with
  | Some s => put_state r id (release s br)
  | None => r
  end.

(** [RegistryCallback] *)
Definition on_resolved := record_resolution.

Definition on_deferred := release_bundle.

(** [Drop for BundleHandle]: an unresolved handle defers its bundle. *)
Definition drop_handle (r : Registry) (h : BundleHandle Data) : Registry :=
  if handle_resolved h then r else on_deferred r (subscriber_id h) (handle_ref h).

Definition resolve_handle (h : BundleHandle Data) : BundleHandle Data :=
  mkHandle (handle_ref h) (subscriber_id h) (data _ h) true (item_count _ h).

Definition ack (r : Registry) (h : BundleHandle Data) : option Registry :=
  let h := resolve_handle h in
  r ← on_resolved r (subscriber_id h) (handle_ref h) Acked;
  Some (drop_handle r h).

Definition reject (r : Registry) (h : BundleHandle Data) : option Registry :=
  let h := resolve_handle h in
  r ← on_resolved r (subscriber_id h) (handle_ref h) Dropped;
  Some (drop_handle r h).

Definition defer (r : Registry) (h : BundleHandle Data) : Registry * BundleRef :=
  let h := resolve_handle h in
  let r := on_deferred r (subscriber_id h) (handle_ref h) in
  (drop_handle r h, handle_ref h).

(** ** Waiting for a bundle *)

(** A round of the loop of [next_bundle] returns, or waits for a notification
    sent after its registration. *)
Inductive NextRound :=
  | Return (res : result (option (BundleHandle Data)) SubscriberError)
  | Waiting (registered_at : nat).

(** [cancelled]: the state of the token, if one was given; [now]: the clock
    after the poll. *)
Definition next_bundle_round (p : P) (deadline : option Z) (cancelled : option bool) (now : Z)
    (r : Registry) (id : SubscriberId) : option (Registry * NextRound) :=
  match cancelled with
  | Some true => Some (r, Return (Err Cancelled))
  | _ =>
      let notified := notifications r in
      '(r, res) ← poll_next_bundle p r id;
      match res with
      | Err e => Some (r, Return (Err e))
      | Ok (Some handle) => Some (r, Return (Ok (Some handle)))
      | Ok None =>
          match deadline with
          | Some deadline => if deadline <=? now then Some (r, Return (Ok None)) else Some (r, Waiting notified)
          | None => Some (r, Waiting notified)
          end
      end
  end.

(** How a wait ends. *)
Inductive WakeReason := Notified | TimeoutElapsed | TokenCancelled.

(** Whether the loop returns after the wait, or goes around. *)
Definition next_bundle_wake (deadline : option Z) (with_token : bool) (reason : WakeReason)
    : option (result (option (BundleHandle Data)) SubscriberError) :=
  match deadline, with_token, reason with
  | _, true, TokenCancelled => Some (Err Cancelled)
  | Some _, true, _ => None
  | Some _, false, TimeoutElapsed => Some (Ok None)
  | _, _, _ => None
  end.

(** ** Queries *)

Definition subscriber_count (r : Registry) : Z := Z.of_nat (size (subscribers r)).

Definition registry_oldest_incomplete (r : Registry) : option Z :=
  map_fold (λ _ s, min_option (oldest_incomplete_segment s)) None (subscribers r).

Definition min_highest_tracked_segment (r : Registry) : option Z :=
  map_fold (λ _ s, min_option (if active s then highest_tracked_segment s else None)) None (subscribers r).

Definition cleanup_segments_before (r : Registry) (before : Z) : Registry :=
  r <| subscribers ::= fmap (λ s, remove_completed_segments_before s before) |>.

Definition is_registered (r : Registry) (id : SubscriberId) : bool :=
  match subscribers r !! id with Some _ => true | None => false end.

Definition is_active (r : Registry) (id : SubscriberId) : bool :=
  match subscribers r !! id with Some s => active s | None => false end.

Definition pending_segment_progress (r : Registry) (id : SubscriberId)
    : result (list (Z * SegmentProgress)) SubscriberError :=
  match subscribers r !! id with
  | None => Err (NotFound id)
  | Some s => Ok (segments s)
  end.

(** ** Flushing *)

Fixpoint flush_all (faults : SubscriberId → io_fault) (to_flush : list (SubscriberId * State))
    (r : Registry) (dir : Dir) (flushed : Z) (first_error : option SubscriberError)
    : Registry * Dir * result Z SubscriberError :=
  match to_flush with
  | [] => (r, dir, match first_error with Some e => Err e | None => Ok flushed end)
  | (id, s) :: to_flush' =>
      let entries := to_progress_entries s in
      let oldest := match oldest_incomplete_segment s with Some seq => seq | None => 0 end in
      match Progress.write_progress_file crc32 (faults id) dir id oldest entries with
      | (dir, Ok _) => flush_all faults to_flush' r dir (flushed + 1) first_error
      | (dir, Err e) =>
          flush_all faults to_flush' (mark_dirty r id) dir flushed
            (match first_error with Some e0 => Some e0 | None => Some e end)
      end
  end.

(** [order]: the order in which the dirty set is drained. *)
Definition flush_progress (faults : SubscriberId → io_fault) (order : list SubscriberId)
    (r : Registry) (dir : Dir) : Registry * Dir * result Z SubscriberError :=
  let r := r <| dirty_subscribers := ∅ |> in
  match order with
  | [] => (r, dir, Ok 0)
  | _ =>
      let to_flush := omap (λ id, (λ s, (id, s)) <$> subscribers r !! id) order in
      flush_all faults to_flush r dir 0 None
  end.

(** ** Forced completion *)

(** The unresolved indexes of a segment among the given ones. *)
Fixpoint collect_unresolved (progress : SegmentProgress) (idxs : list Z) (acc : gset Z) : option (gset Z) :=
  match idxs with
  | [] => Some acc
  | i :: idxs' =>
      r ← progress_is_resolved progress i;
      collect_unresolved progress idxs' (if (r : bool) then acc else {[i]} ∪ acc)
  end.

(** The loop over the segments for one subscriber: its state, the unresolved
    bundles found so far, and whether a segment was completed. *)
Fixpoint force_segments (s : State) (segs : list Z) (unresolved : Unresolved) (any : bool)
    : option (State * Unresolved * bool) :=
  match segs with
  | [] => Some (s, unresolved, any)
  | seq :: segs' =>
      unresolved ←
        match BTreeMap.get seq (segments s) with
        | Some progress =>
            acc ← BTreeMap.get seq unresolved;
            acc ← collect_unresolved progress (seqZ 0 (bundle_count progress)) acc;
            Some (BTreeMap.insert seq acc unresolved)
        | None => Some unresolved
        end;
      '(completed, s) ← force_complete_segment s seq;
      force_segments s segs' unresolved (any || completed)
  end.

(** The loop over the subscribers, in the order of iteration of the map. *)
Fixpoint force_subscribers (r : Registry) (order : list SubscriberId) (segs : list Z) (unresolved : Unresolved)
    : option (Registry * Unresolved) :=
  match order with
  | [] => Some (r, unresolved)
  | key :: order' =>
      match subscribers r !! key with
      | None => force_subscribers r order' segs unresolved
      | Some s =>
          '(s, unresolved, any) ← force_segments s segs unresolved false;
          let r := put_state r key s in
          let r := if (any : bool) then mark_dirty r (id s) else r in
          force_subscribers r order' segs unresolved
      end
  end.

Definition insert_incomplete (entries : list Progress.SegmentProgressEntry) (pending : SeqSet) : SeqSet :=
  foldl (λ pending e,
    if Progress.entry_is_complete e then pending else BTreeMap.insert (Progress.seg_seq e) tt pending)
    pending entries.

(** The pending segments seen so far and those of them with readers. *)
Fixpoint scan_readers (states : list State) (pending : SeqSet) (readers : gset Z) : SeqSet * gset Z :=
  match states with
  | [] => (pending, readers)
  | s :: states' =>
      let pending := insert_incomplete (to_progress_entries s) pending in
      let readers :=
        foldl (λ readers seq, if has_claimed_in_segment s seq then {[seq]} ∪ readers else readers)
          readers pending.*1 in
      scan_readers states' pending readers
  end.

Definition force_drop_oldest_pending_segments_with_unresolved (r : Registry) (order : list SubscriberId)
    : option (Registry * list Z * Unresolved) :=
  let '(pending, readers) := scan_readers (omap (λ id, subscribers r !! id) order) [] ∅ in
  let droppable := List.filter (λ seq, negb (bool_decide (seq ∈ readers))) pending.*1 in
  match droppable with
  | [] => Some (r, [], [])
  | oldest :: _ =>
      let to_drop := [oldest] in
      '(r, unresolved) ← force_subscribers r order to_drop [(oldest, ∅)];
      Some (r, to_drop, unresolved)
  end.

(** The first component of the result is the registry after the call. *)
Definition force_complete_segments_with_unresolved (r : Registry) (order : list SubscriberId) (segs : list Z)
    : option (Registry * option Unresolved) :=
  match segs with
  | [] => Some (r, Some [])
  | _ =>
      if bool_decide (subscribers r = ∅) then Some (r, None)
      else
        let unresolved := foldl (λ m seq, BTreeMap.insert seq ∅ m) [] segs in
        '(r, unresolved) ← force_subscribers r order segs unresolved;
        Some (r, Some unresolved)
  end.

(** ** Engine: deletion of completed segments

    [store]: the segments of the store; [fails]: whose deletion returns an
    error.  The segments deleted, and the registry after the clean-up. *)
Definition cleanup_completed_segments (store : list Z) (fails : Z → bool) (r : Registry)
    : Registry * list Z :=
  let boundary :=
    match registry_oldest_incomplete r with
    | Some seq => Some seq
    | None =>
        match min_highest_tracked_segment r with
        | Some highest => Some (saturating_add u64_max highest 1)
        | None => None
        end
    end in
  match boundary with
  | None => (r, [])
  | Some boundary =>
      let deleted := List.filter (λ seq, (seq <? boundary) && negb (fails seq)) store in
      (cleanup_segments_before r boundary, deleted)
  end.

End registry.

(** ** Invariant *)

Record reg_ok (r : Registry) : Prop := {
  reg_states : ∀ key s, subscribers r !! key = Some s → state_ok s ∧ id s = key;
}.

Lemma put_state_ok r key s : reg_ok r → state_ok s → id s = key → reg_ok (put_state r key s).
Proof.
  intros [Hr] Hs Hid. split. destruct r. cbn. intros key' s' [[<- <-]|[? ?]]%lookup_insert_Some; [done|].
  by apply Hr.
Qed.

Lemma subscribers_put r key s : subscribers (put_state r key s) = <[key := s]> (subscribers r).
Proof. by destruct r. Qed.

Lemma subscribers_dirty r key : subscribers (mark_dirty r key) = subscribers r.
Proof. by destruct r. Qed.

Lemma reg_ok_subscribers r r' : subscribers r' = subscribers r → reg_ok r → reg_ok r'.
Proof. intros Heq [Hr]. split. by rewrite Heq. Qed.

(** ** Steps of the registry as steps of its subscribers *)

(** [s'] results from [s] by operations on the subscriber that keep the
    segments in [keeps], release each bundle [rel] times and deliver it at
    least [del] times. *)
Definition acts_as (s s' : State) (keeps : Z → Prop) (rel del : BundleRef → Z) : Prop :=
  ∃ ops ev, run s ops = Some (s', ev) ∧ Forall op_ok ops ∧
    (∀ seq, keeps seq → Forall (op_keeps seq) ops) ∧
    (∀ br, count_if (releases br) ops = rel br) ∧
    (∀ br, del br ≤ occurrences (Delivered br) ev).

Lemma acts_as_refl s keeps : acts_as s s keeps (λ _, 0) (λ _, 0).
Proof. exists [], []. split_and!; try done. Qed.

Lemma run_app s ops ops' :
  run s (ops ++ ops') =
  '(s1, ev1) ← run s ops; '(s2, ev2) ← run s1 ops'; Some (s2, ev1 ++ ev2).
Proof.
  revert s. induction ops as [|o ops IH]; intros s; cbn [app run].
  - cbn. destruct (run s ops') as [[s2 ev2]|]; done.
  - destruct (step s o) as [[s1 ev1]|]; [|done]. cbn. rewrite IH.
    destruct (run s1 ops) as [[s2 ev2]|]; [|done]. cbn.
    destruct (run s2 ops') as [[s3 ev3]|]; [|done]. cbn. by rewrite app_assoc.
Qed.

Lemma acts_as_trans s s1 s2 keeps1 keeps2 rel1 rel2 del1 del2 :
  acts_as s s1 keeps1 rel1 del1 → acts_as s1 s2 keeps2 rel2 del2 →
  acts_as s s2 (λ seq, keeps1 seq ∧ keeps2 seq) (λ br, rel1 br + rel2 br) (λ br, del1 br + del2 br).
Proof.
  intros (ops1 & ev1 & H1 & Ho1 & Hk1 & Hr1 & Hd1) (ops2 & ev2 & H2 & Ho2 & Hk2 & Hr2 & Hd2).
  exists (ops1 ++ ops2), (ev1 ++ ev2). split_and!.
  - rewrite run_app, H1. cbn. by rewrite H2.
  - by apply Forall_app.
  - intros seq [? ?]. apply Forall_app. auto.
  - intros br. rewrite count_if_app, Hr1, Hr2. done.
  - intros br. rewrite occurrences_app. specialize (Hd1 br). specialize (Hd2 br). lia.
Qed.

Lemma acts_as_weaken s s' (keeps keeps' : Z → Prop) rel rel' del del' :
  acts_as s s' keeps rel del → (∀ seq, keeps' seq → keeps seq) → (∀ br, rel br = rel' br) →
  (∀ br, del' br ≤ del br) → acts_as s s' keeps' rel' del'.
Proof.
  intros (ops & ev & Hrun & Ho & Hk & Hr & Hd) Hk' Hr' Hd'. exists ops, ev. split_and!; auto.
  - intros br. by rewrite <- Hr'.
  - intros br. etrans; [apply Hd'|apply Hd].
Qed.

(** One operation. *)
Lemma acts_as_step s s' o ev keeps rel del :
  step s o = Some (s', ev) → op_ok o → (∀ seq, keeps seq → op_keeps seq o) →
  (∀ br, Z.b2z (releases br o) = rel br) → (∀ br, del br ≤ occurrences (Delivered br) ev) →
  acts_as s s' keeps rel del.
Proof.
  intros Hs Ho Hk Hr Hd. exists [o], ev. split_and!.
  - cbn. rewrite Hs. cbn. by rewrite app_nil_r.
  - by repeat constructor.
  - intros seq Hseq. constructor; [by apply Hk|constructor].
  - intros br. cbn. rewrite Hr. lia.
  - done.
Qed.

Lemma acts_as_ok s s' keeps rel del : state_ok s → acts_as s s' keeps rel del → state_ok s' ∧ id s' = id s.
Proof.
  intros Hs (ops & ev & Hrun & Ho & _). split; [|by eapply run_id].
  destruct (run_ok s ops Hs Ho) as (s1 & ev1 & Hrun1 & Hs1 & _). congruence.
Qed.

(** The bounds of the sequence of operations carry over. *)
Lemma acts_as_bounds s s' keeps rel del br :
  state_ok s → acts_as s s' keeps rel del → tracked s br → keeps (segment_seq br) →
  tracked s' br ∧
  del br + to_deliver s' br ≤ to_deliver s br + to_resolve s br * rel br ∧
  to_resolve s' br ≤ to_resolve s br.
Proof.
  intros Hs (ops & ev & Hrun & Ho & Hk & Hr & Hd) Ht Hkeep.
  destruct (run_ok s ops Hs Ho) as (s1 & ev1 & Hrun1 & Hs1 & Hb). rewrite Hrun in Hrun1.
  injection Hrun1 as <- <-. destruct (Hb br Ht (Hk _ Hkeep)) as [Ht1 [Hb1 Hb2]]. rewrite Hr in Hb1.
  specialize (Hd br). pose proof (occurrences_nonneg (Resolved br) ev). split_and!; [done|lia|lia].
Qed.

(** ** Forced completion *)

(** The unresolved indexes of a segment. *)
Definition unresolved_set (s : State) (seq : Z) : gset Z :=
  match BTreeMap.get seq (segments s) with
  | Some p => list_to_set (filter (λ i, bitmap_get (resolved p) i = false) (seqZ 0 (bundle_count p)))
  | None => ∅
  end.

Lemma elem_of_unresolved_set s seq i :
  i ∈ unresolved_set s seq ↔ tracked s (mkBundleRef seq i) ∧ resolved_in s (mkBundleRef seq i) = false.
Proof.
  unfold unresolved_set, resolved_in. rewrite tracked_get. cbn.
  destruct (BTreeMap.get seq (segments s)) as [p|].
  - rewrite elem_of_list_to_set, list_elem_of_filter, elem_of_seqZ. split.
    + intros [Hb Hi]. split; [|done]. exists p. split; [done|lia].
    + intros [(q & [= <-] & Hi) Hb]. split; [done|lia].
  - rewrite elem_of_empty. split; [done|]. by intros [(? & ? & _) _].
Qed.

Lemma collect_unresolved_spec p idxs acc :
  progress_ok p → Forall (λ i, 0 ≤ i) idxs →
  collect_unresolved p idxs acc =
  Some (list_to_set (filter (λ i, bitmap_get (resolved p) i = false) idxs) ∪ acc).
Proof.
  intros Hp Hi. revert acc. induction Hi as [|i idxs Hi _ IH]; intros acc; cbn [collect_unresolved].
  - f_equal. rewrite filter_nil. cbn. clear. set_solver.
  - rewrite progress_is_resolved_spec by done. cbn [mbind option_bind]. rewrite IH, filter_cons. f_equal.
    destruct (bitmap_get (resolved p) i) eqn:Hb.
    + by rewrite decide_False by done.
    + rewrite decide_True by done. cbn. set_solver.
Qed.

(** Completeness and the map of segments after forcing. *)
Lemma forced_unresolved s s' seq :
  state_ok s → (∀ q, count_of s' q = count_of s q) →
  (∀ br, ref_ok br → resolved_in s' br = resolved_in s br || bool_decide (segment_seq br = seq ∧ tracked s br)) →
  unresolved_set s' seq = ∅.
Proof.
  intros Hs Hcnt Hres. apply leibniz_equiv, equiv_empty. intros i Hi%elem_of_unresolved_set.
  destruct Hi as [Ht Hb]. assert (tracked s (mkBundleRef seq i)) as Ht0.
  { by apply (count_of_tracked s'). }
  rewrite Hres, bool_decide_eq_true_2, orb_true_r in Hb by (done || by apply (tracked_ref_ok s)). done.
Qed.

Lemma other_unresolved s s' seq q :
  state_ok s → q ≠ seq → (∀ q, count_of s' q = count_of s q) →
  (∀ br, ref_ok br → resolved_in s' br = resolved_in s br || bool_decide (segment_seq br = seq ∧ tracked s br)) →
  unresolved_set s' q = unresolved_set s q.
Proof.
  intros Hs Hne Hcnt Hres. apply leibniz_equiv. intros i. rewrite !elem_of_unresolved_set.
  assert (tracked s' (mkBundleRef q i) ↔ tracked s (mkBundleRef q i)) as Ht by (unfold tracked; by rewrite Hcnt).
  rewrite Ht. split; intros [Ht' Hb]; (split; [done|]).
  - rewrite Hres in Hb by (by apply (tracked_ref_ok s)). apply orb_false_iff in Hb. tauto.
  - rewrite Hres by (by apply (tracked_ref_ok s)). rewrite Hb. apply bool_decide_eq_false_2. cbn. tauto.
Qed.

Lemma contains_key_true {V} seq (m : list (Z * V)) :
  BTreeMap.contains_key seq m = true ↔ is_Some (BTreeMap.get seq m).
Proof. unfold BTreeMap.contains_key. destruct (BTreeMap.get seq m); split; done. Qed.

Lemma count_of_is_Some s seq : is_Some (BTreeMap.get seq (segments s)) ↔ is_Some (count_of s seq).
Proof. unfold count_of. by rewrite fmap_is_Some. Qed.

Lemma force_any_iff s s1 (any : bool) seq segs :
  (∀ q, count_of s1 q = count_of s q) →
  (any = true ∨ BTreeMap.contains_key seq (segments s) = true) ∨
    (∃ q, q ∈ segs ∧ is_Some (BTreeMap.get q (segments s1))) ↔
  any = true ∨ ∃ q, q ∈ seq :: segs ∧ is_Some (BTreeMap.get q (segments s)).
Proof.
  intros Hcnt. rewrite contains_key_true.
  assert (∀ q, is_Some (BTreeMap.get q (segments s1)) ↔ is_Some (BTreeMap.get q (segments s))) as Hq.
  { intros q. by rewrite !count_of_is_Some, Hcnt. }
  setoid_rewrite Hq. setoid_rewrite elem_of_cons. naive_solver.
Qed.

Lemma force_segments_spec s segs u any :
  state_ok s → BTreeMap.sorted u → (∀ seq, seq ∈ segs → is_Some (BTreeMap.get seq u)) → Forall u64_ok segs →
  ∃ s' u' any', force_segments s segs u any = Some (s', u', any') ∧
    run s (ForceComplete <$> segs) = Some (s', []) ∧ state_ok s' ∧ id s' = id s ∧ BTreeMap.sorted u' ∧
    (any' = true ↔ any = true ∨ ∃ seq, seq ∈ segs ∧ is_Some (BTreeMap.get seq (segments s))) ∧
    (∀ q, BTreeMap.get q u' =
      (λ acc, if bool_decide (q ∈ segs) then unresolved_set s q ∪ acc else acc) <$> BTreeMap.get q u).
Proof.
  intros Hs Hu Hk Hsegs. revert s u any Hs Hu Hk.
  induction Hsegs as [|seq segs Hseq Hsegs IH]; intros s u any Hs Hu Hk.
  { exists s, u, any. split_and!; try done.
    - split; [by left|]. by intros [?|(? & ?%elem_of_nil & _)].
    - intros q. rewrite bool_decide_eq_false_2 by apply not_elem_of_nil. by destruct (BTreeMap.get q u). }
  cbn [force_segments]. destruct (Hk seq) as [acc Hacc]; [left|].
  set (u1 := BTreeMap.insert seq (unresolved_set s seq ∪ acc) u).
  assert (∃ u2, match BTreeMap.get seq (segments s) with
    | Some progress =>
        acc ← BTreeMap.get seq u;
        acc ← collect_unresolved progress (seqZ 0 (bundle_count progress)) acc;
        Some (BTreeMap.insert seq acc u)
    | None => Some u end = Some u2 ∧ BTreeMap.sorted u2 ∧ ∀ q, BTreeMap.get q u2 = BTreeMap.get q u1) as (u2 & -> & Hu2 & Hget).
  { destruct (BTreeMap.get seq (segments s)) as [p|] eqn:Hp.
    - rewrite Hacc. cbn [mbind option_bind]. rewrite collect_unresolved_spec.
      + cbn. eexists. split; [done|]. split; [by apply BTreeMap.insert_sorted|]. intros q.
        unfold u1, unresolved_set. by rewrite Hp.
      + by apply (state_segments s Hs _ _ Hp).
      + apply Forall_forall. intros i ?%elem_of_seqZ. lia.
    - exists u. split; [done|]. split; [done|]. intros q. unfold u1, unresolved_set. rewrite Hp, (left_id_L ∅ (∪)).
      destruct (decide (q = seq)) as [->|]; [by rewrite BTreeMap.get_insert_eq|by rewrite BTreeMap.get_insert_ne]. }
  cbn [mbind option_bind].
  destruct (force_complete_spec s seq Hs) as (s1 & Hf & Hs1 & Hid & _ & _ & Hcnt & Hres). rewrite Hf. cbn [mbind option_bind].
  destruct (IH s1 u2 (any || BTreeMap.contains_key seq (segments s)) Hs1 Hu2) as (s' & u' & any' & -> & Hrun & Hs' & Hid' & Hu' & Hany & Hget').
  { intros q Hq. rewrite Hget. unfold u1. destruct (decide (q = seq)) as [->|]; [by rewrite BTreeMap.get_insert_eq|].
    rewrite BTreeMap.get_insert_ne by done. apply Hk. by right. }
  exists s', u', any'. split; [done|]. split_and!; [|done|congruence|done| |].
  - rewrite fmap_cons. cbn. rewrite Hf. cbn. by rewrite Hrun.
  - rewrite Hany, orb_true_iff. by apply force_any_iff.
  - intros q. rewrite Hget', Hget. unfold u1. destruct (decide (q = seq)) as [->|Hne].
    + rewrite BTreeMap.get_insert_eq, Hacc. cbn. rewrite (bool_decide_eq_true_2 (seq ∈ seq :: segs)) by left. f_equal.
      case_bool_decide; [|done]. replace (unresolved_set s1 seq) with (∅ : gset Z); [by rewrite (left_id_L ∅ (∪))|].
      symmetry. by apply (forced_unresolved s).
    + rewrite BTreeMap.get_insert_ne by done. destruct (BTreeMap.get q u); [|done]. cbn. f_equal.
      replace (bool_decide (q ∈ seq :: segs)) with (bool_decide (q ∈ segs)).
      2: { apply bool_decide_ext. rewrite elem_of_cons. naive_solver. }
      case_bool_decide; [|done]. f_equal. by apply (other_unresolved s s1 seq).
Qed.

(** What the loop over the subscribers does to the subscriber [key]. *)
Definition forced (order : list SubscriberId) (segs : list Z) (key : SubscriberId) (o o' : option State) : Prop :=
  match o with
  | None => o' = None
  | Some s => ∃ s', o' = Some s' ∧
      if bool_decide (key ∈ order) then run s (ForceComplete <$> segs) = Some (s', []) else s' = s
  end.

(** The subscriber tracks one of the segments. *)
Definition tracks_any (r : Registry) (segs : list Z) (key : SubscriberId) : Prop :=
  ∃ s seq, subscribers r !! key = Some s ∧ seq ∈ segs ∧ is_Some (BTreeMap.get seq (segments s)).

(** The loop resolves the segments for every subscriber, unites their
    unresolved bundles, and marks those that track one of them as dirty. *)
Record force_result (r r' : Registry) (order : list SubscriberId) (segs : list Z) (u u' : Unresolved) : Prop := {
  force_reg_ok : reg_ok r';
  force_sorted : BTreeMap.sorted u';
  force_forced : ∀ key, forced order segs key (subscribers r !! key) (subscribers r' !! key);
  force_unresolved : ∀ q acc, BTreeMap.get q u = Some acc →
    ∃ acc', BTreeMap.get q u' = Some acc' ∧
      ∀ i, i ∈ acc' ↔ i ∈ acc ∨
        q ∈ segs ∧ ∃ key s, key ∈ order ∧ subscribers r !! key = Some s ∧ i ∈ unresolved_set s q;
  force_dirty : ∀ key, key ∈ dirty_subscribers r' ↔
    key ∈ dirty_subscribers r ∨ key ∈ order ∧ tracks_any r segs key;
}.

Lemma force_result_skip r r' key order segs u u' :
  subscribers r !! key = None → force_result r r' order segs u u' → force_result r r' (key :: order) segs u u'.
Proof.
  intros Hnone [H1 H2 H3 H4 H5]. split; [done|done|..].
  - intros key'. specialize (H3 key'). unfold forced in *.
    destruct (subscribers r !! key') as [s|] eqn:Hs; [|done]. destruct H3 as (s' & Hs' & H3). exists s'. split; [done|].
    replace (bool_decide (key' ∈ key :: order)) with (bool_decide (key' ∈ order)); [done|].
    apply bool_decide_ext. rewrite elem_of_cons. split; [by right|]. intros [->|]; [congruence|done].
  - intros q acc Hacc. destruct (H4 q acc Hacc) as (acc' & Hacc' & Hi). exists acc'. split; [done|].
    intros i. rewrite Hi. setoid_rewrite elem_of_cons. split; [naive_solver|].
    intros [?|(? & k & s & [->|?] & ? & ?)]; [by left|congruence|naive_solver].
  - intros key'. rewrite H5, elem_of_cons. split; [naive_solver|].
    intros [?|[[->|?] Ht]]; [by left| |by right]. destruct Ht as (s & q & ? & _). congruence.
Qed.

Lemma force_result_cons r r1 r' key s s1 order segs u u1 u' (any : bool) :
  key ∉ order → subscribers r !! key = Some s → subscribers r1 = <[key := s1]> (subscribers r) →
  run s (ForceComplete <$> segs) = Some (s1, []) →
  dirty_subscribers r1 = (if any then {[key]} ∪ dirty_subscribers r else dirty_subscribers r) →
  (any = true ↔ false = true ∨ ∃ seq, seq ∈ segs ∧ is_Some (BTreeMap.get seq (segments s))) →
  (∀ q, BTreeMap.get q u1 =
    (λ acc, if bool_decide (q ∈ segs) then unresolved_set s q ∪ acc else acc) <$> BTreeMap.get q u) →
  force_result r1 r' order segs u1 u' → force_result r r' (key :: order) segs u u'.
Proof.
  intros Hkey Hs Hsubs Hrun Hdirty Hany Hget [H1 H2 H3 H4 H5].
  assert (∀ k, k ∈ order → subscribers r1 !! k = subscribers r !! k) as Hother.
  { intros k Hk. rewrite Hsubs. apply lookup_insert_ne. congruence. }
  split; [done|done|..].
  - intros k. specialize (H3 k). rewrite Hsubs in H3. unfold forced in *.
    destruct (decide (k = key)) as [->|Hne].
    + rewrite lookup_insert_eq in H3. rewrite Hs. destruct H3 as (s' & Hs' & H3).
      rewrite bool_decide_eq_false_2 in H3 by done. subst s'. exists s1. split; [done|].
      by rewrite bool_decide_eq_true_2 by left.
    + rewrite lookup_insert_ne in H3 by done. destruct (subscribers r !! k); [|done].
      replace (bool_decide (k ∈ key :: order)) with (bool_decide (k ∈ order)); [done|].
      apply bool_decide_ext. rewrite elem_of_cons. naive_solver.
  - intros q acc Hacc. destruct (H4 q _ ltac:(by rewrite Hget, Hacc)) as (acc' & Hacc' & Hi).
    exists acc'. split; [done|]. intros i. rewrite Hi. setoid_rewrite elem_of_cons. split.
    + intros [Hin|(Hq & k & s' & Hk & Hs' & Hin)].
      * case_bool_decide; [|by left]. apply elem_of_union in Hin as [Hin|]; [|by left].
        right. split; [done|]. exists key, s. split_and!; [by left|done..].
      * right. split; [done|]. exists k, s'. rewrite Hother in Hs' by done. split_and!; [by right|done..].
    + intros [Hin|(Hq & k & s' & [->|Hk] & Hs' & Hin)].
      * left. case_bool_decide; [|done]. apply elem_of_union. by right.
      * left. rewrite bool_decide_eq_true_2 by done. apply elem_of_union. left. by simplify_eq.
      * right. split; [done|]. exists k, s'. by rewrite Hother.
  - intros k. rewrite H5, Hdirty. unfold tracks_any. split.
    + intros [Hd|[Hk (s' & q & Hs' & Hq)]].
      * destruct any; [|by left]. apply elem_of_union in Hd as [->%elem_of_singleton|?]; [|by left].
        right. split; [left|]. destruct (proj1 Hany eq_refl) as [?|(q & Hq & Ht)]; [done|]. by exists s, q.
      * right. split; [by right|]. exists s', q. by rewrite <- Hother.
    + intros [Hd|[[->|Hk]%elem_of_cons (s' & q & Hs' & Hq & Ht)]].
      * left. destruct any; [|done]. apply elem_of_union. by right.
      * left. rewrite (proj2 Hany); [apply elem_of_union; left; by apply elem_of_singleton|].
        right. exists q. simplify_eq. done.
      * right. split; [done|]. exists s', q. by rewrite Hother.
Qed.

Lemma force_subscribers_spec r order segs u :
  reg_ok r → NoDup order → BTreeMap.sorted u → (∀ seq, seq ∈ segs → is_Some (BTreeMap.get seq u)) →
  Forall u64_ok segs →
  ∃ r' u', force_subscribers r order segs u = Some (r', u') ∧ force_result r r' order segs u u'.
Proof.
  intros Hr Hnd Hu Hk Hsegs. revert r u Hr Hu Hk.
  induction Hnd as [|key order Hkey Hnd IH]; intros r u Hr Hu Hk; cbn [force_subscribers].
  { exists r, u. split; [done|]. split; [done|done|..].
    - intros key. unfold forced. destruct (subscribers r !! key) as [s|]; [|done]. exists s. split; [done|].
      by rewrite bool_decide_eq_false_2 by apply not_elem_of_nil.
    - intros q acc Hacc. exists acc. split; [done|]. intros i. split; [by left|].
      intros [?|(_ & ? & ? & ?%elem_of_nil & _)]; done.
    - intros key. split; [by left|]. by intros [?|[?%elem_of_nil _]]. }
  destruct (subscribers r !! key) as [s|] eqn:Hs.
  2: { destruct (IH r u Hr Hu Hk) as (r' & u' & Hf & Hres). exists r', u'. split; [done|]. by apply force_result_skip. }
  destruct (reg_states r Hr key s Hs) as [Hsok Hid].
  destruct (force_segments_spec s segs u false Hsok Hu Hk Hsegs) as (s1 & u1 & any & -> & Hrun & Hs1 & Hid1 & Hu1 & Hany & Hget1).
  cbn [mbind option_bind]. set (r1 := if any then mark_dirty (put_state r key s1) (id s1) else put_state r key s1).
  assert (subscribers r1 = <[key := s1]> (subscribers r)) as Hsubs.
  { unfold r1. destruct any; rewrite ?subscribers_dirty; apply subscribers_put. }
  destruct (IH r1 u1) as (r' & u' & -> & Hres).
  { apply (reg_ok_subscribers (put_state r key s1)); [by rewrite Hsubs, subscribers_put|].
    apply put_state_ok; [done|done|congruence]. }
  { done. }
  { intros seq Hseq. rewrite Hget1. destruct (Hk seq Hseq) as [acc ->]. done. }
  exists r', u'. split; [done|]. apply (force_result_cons r r1 r' key s s1 order segs u u1 u' any); try done.
  - unfold r1. rewrite Hid1, Hid. by destruct any, r.
Qed.

(** ** Selection of the segment to drop *)

(** Every claim is on a bundle of a tracked segment. *)
Definition claims_tracked (s : State) : Prop := ∀ br, br ∈ claimed s → tracked s br.

Definition claimed_in (s : State) (seq : Z) : Prop := ∃ br, br ∈ claimed s ∧ segment_seq br = seq.

Lemma has_claimed_spec s seq : has_claimed_in_segment s seq = true ↔ claimed_in s seq.
Proof.
  unfold has_claimed_in_segment, claimed_in. rewrite existsb_exists. split.
  - intros (br & Hin & Heq%Z.eqb_eq). exists br. split; [|done]. by apply elem_of_elements, list_elem_of_In.
  - intros (br & Hin & <-). exists br. split; [|apply Z.eqb_refl]. by apply list_elem_of_In, elem_of_elements.
Qed.

(** A segment with a tracked claim is pending: the claimed bundle is unresolved. *)
Lemma claimed_pending s seq : state_ok s → claims_tracked s → claimed_in s seq → pending_in s seq.
Proof.
  intros Hs Hc (br & Hin & <-). exists br. split_and!; [done|by apply Hc|]. by apply (state_claims s Hs).
Qed.

(** The entry written for a segment is complete when the segment is. *)
Lemma entry_complete_spec seq p :
  progress_ok p →
  Progress.entry_is_complete (Progress.from_bitmap seq (bundle_count p) (resolved p)) = progress_is_complete p.
Proof.
  intros [[Hc0 Hc] Hb Hcnt]. unfold Progress.entry_is_complete, Progress.acked_count, progress_is_complete. cbn.
  by rewrite (bitmap_count_spec (bundle_count p)), Hcnt.
Qed.

Definition in_keys (q : Z) (m : SeqSet) : Prop := is_Some (BTreeMap.get q m).

Lemma in_keys_elem q (m : SeqSet) : in_keys q m ↔ q ∈ m.*1.
Proof.
  unfold in_keys. destruct (BTreeMap.get q m) eqn:E.
  - split; [intros _|done]. apply list_elem_of_fmap. exists (q, u). split; [done|]. by apply BTreeMap.get_elem.
  - apply BTreeMap.get_None in E. split; [by intros []|done].
Qed.

Lemma insert_incomplete_spec s pending :
  state_ok s → BTreeMap.sorted pending →
  let pending' := insert_incomplete (to_progress_entries s) pending in
  BTreeMap.sorted pending' ∧ ∀ q, in_keys q pending' ↔ in_keys q pending ∨ pending_in s q.
Proof.
  intros Hs Hp. cbn zeta.
  assert (∀ segs pending, BTreeMap.sorted pending → Forall (λ kv, progress_ok kv.2) segs →
    let pending' := insert_incomplete ((λ kv, Progress.from_bitmap kv.1 (bundle_count kv.2) (resolved kv.2)) <$> segs) pending in
    BTreeMap.sorted pending' ∧
    ∀ q, in_keys q pending' ↔ in_keys q pending ∨ ∃ p, (q, p) ∈ segs ∧ progress_is_complete p = false) as Hgen.
  { clear. induction segs as [|[seq p] segs IH]; intros pending Hp Hsegs; cbn zeta.
    - split; [done|]. intros q. split; [by left|]. by intros [?|(? & ?%elem_of_nil & _)].
    - apply Forall_cons in Hsegs as [Hpok Hsegs]. rewrite fmap_cons. unfold insert_incomplete. cbn [foldl].
      fold (insert_incomplete ((λ kv, Progress.from_bitmap kv.1 (bundle_count kv.2) (resolved kv.2)) <$> segs)).
      cbn [fst snd]. rewrite entry_complete_spec by done. destruct (progress_is_complete p) eqn:Hc.
      + destruct (IH pending Hp Hsegs) as [Hs' Hiff]. split; [done|]. intros q. rewrite Hiff.
        setoid_rewrite elem_of_cons. split; [naive_solver|]. intros [?|(p' & [[= -> ->]|?] & ?)]; [by left|congruence|naive_solver].
      + destruct (IH (BTreeMap.insert seq tt pending)) as [Hs' Hiff]; [by apply BTreeMap.insert_sorted|done|].
        split; [done|]. intros q. cbn [Progress.seg_seq Progress.from_bitmap] in *. rewrite Hiff. unfold in_keys.
        setoid_rewrite elem_of_cons. destruct (decide (q = seq)) as [->|Hne].
        * rewrite BTreeMap.get_insert_eq. split; [|by left; eexists]. intros _. right. exists p. by split; [left|].
        * rewrite BTreeMap.get_insert_ne by done. split; [naive_solver|].
          intros [?|(p' & [[= -> ->]|?] & ?)]; [by left|done|naive_solver]. }
  destruct (Hgen (segments s) pending Hp) as [Hs' Hiff].
  { apply Forall_forall. intros [seq p] Hin. apply BTreeMap.elem_get in Hin; [|apply Hs]. by apply (state_segments s Hs _ _ Hin). }
  split; [done|]. intros q. rewrite (Hiff q), pending_in_get by done.
  setoid_rewrite BTreeMap.elem_of_get; [done|apply Hs].
Qed.

Lemma fold_readers_spec s (seqs : list Z) (readers : gset Z) q :
  q ∈ foldl (λ readers seq, if has_claimed_in_segment s seq then {[seq]} ∪ readers else readers) readers seqs ↔
  q ∈ readers ∨ q ∈ seqs ∧ claimed_in s q.
Proof.
  revert readers. induction seqs as [|seq seqs IH]; intros readers; cbn [foldl].
  - split; [by left|]. by intros [?|[?%elem_of_nil _]].
  - rewrite IH, elem_of_cons. destruct (has_claimed_in_segment s seq) eqn:Hc.
    + apply has_claimed_spec in Hc. rewrite elem_of_union, elem_of_singleton. naive_solver.
    + apply not_true_iff_false in Hc. rewrite has_claimed_spec in Hc. naive_solver.
Qed.

(** With tracked claims the scan finds exactly the pending segments and,
    among them, those that some subscriber has claimed. *)
Lemma scan_readers_spec states pending readers :
  Forall state_ok states → BTreeMap.sorted pending →
  let res := scan_readers states pending readers in
  BTreeMap.sorted res.1 ∧
  (∀ q, in_keys q res.1 ↔ in_keys q pending ∨ ∃ s, s ∈ states ∧ pending_in s q) ∧
  (Forall claims_tracked states → ∀ q, q ∈ res.2 ↔ q ∈ readers ∨ ∃ s, s ∈ states ∧ claimed_in s q).
Proof.
  intros Hok. revert pending readers. induction Hok as [|s states Hs Hok IH]; intros pending readers Hp; cbn [scan_readers].
  { cbn. split_and!; [done|intros q|intros _ q]; (split; [by left|]); by intros [?|(? & ?%elem_of_nil & _)]. }
  destruct (insert_incomplete_spec s pending Hs Hp) as [Hp1 Hiff1].
  set (pending1 := insert_incomplete (to_progress_entries s) pending) in *.
  destruct (IH pending1 (foldl (λ readers seq, if has_claimed_in_segment s seq then {[seq]} ∪ readers else readers)
    readers pending1.*1) Hp1) as (H1 & H2 & H3). cbn zeta in *.
  split_and!; [done|..].
  - intros q. rewrite H2, Hiff1. setoid_rewrite elem_of_cons. naive_solver.
  - intros [Hc Hcs]%Forall_cons q. rewrite H3, fold_readers_spec, <- in_keys_elem, Hiff1 by done. setoid_rewrite elem_of_cons. split; [naive_solver|].
    intros [?|(s' & [->|?] & Hcl)]; [by left; left| |naive_solver].
    left. right. split; [|done]. right. by apply claimed_pending.
Qed.

Lemma filter_head_least (f : Z → bool) l x rest :
  StronglySorted Z.lt l → List.filter f l = x :: rest →
  x ∈ l ∧ f x = true ∧ ∀ y, y ∈ l → f y = true → x ≤ y.
Proof.
  induction l as [|z l IH]; cbn; [done|]. intros [Hs Hall]%StronglySorted_inv Heq.
  rewrite Forall_forall in Hall. destruct (f z) eqn:Hf.
  - injection Heq as -> _. split_and!; [left|done|]. intros y [->|Hy]%elem_of_cons _; [done|].
    specialize (Hall y Hy). lia.
  - destruct (IH Hs Heq) as (Hx & Hfx & Hmin). split_and!; [by right|done|].
    intros y [->|Hy]%elem_of_cons Hfy; [congruence|]. by apply Hmin.
Qed.

Lemma filter_nil_none (f : Z → bool) l : List.filter f l = [] → ∀ y, y ∈ l → f y = false.
Proof.
  induction l as [|z l IH]; cbn; intros Heq y; [by intros ?%elem_of_nil|].
  destruct (f z) eqn:Hf; [done|]. intros [->|Hy]%elem_of_cons; [done|by apply IH].
Qed.

Definition key_order (r : Registry) (order : list SubscriberId) : Prop :=
  order ≡ₚ (map_to_list (subscribers r)).*1.

Lemma key_order_elem r order key :
  key_order r order → key ∈ order ↔ is_Some (subscribers r !! key).
Proof.
  unfold key_order. intros ->. rewrite list_elem_of_fmap. split.
  - intros ([k s] & -> & Hin%elem_of_map_to_list). by exists s.
  - intros [s Hs]. exists (key, s). split; [done|]. by apply elem_of_map_to_list.
Qed.

Lemma key_order_NoDup r order : key_order r order → NoDup order.
Proof. unfold key_order. intros ->. apply NoDup_fst_map_to_list. Qed.

Lemma omap_states r order s :
  key_order r order → s ∈ omap (λ key, subscribers r !! key) order ↔ ∃ key, subscribers r !! key = Some s.
Proof.
  intros Ho. rewrite list_elem_of_omap. split.
  - intros (key & _ & Hs). by exists key.
  - intros [key Hs]. exists key. split; [|done]. by apply (key_order_elem r order).
Qed.

(** Some subscriber has an unresolved bundle, or a claim, in the segment. *)
Definition needed (r : Registry) (seq : Z) : Prop :=
  ∃ key s, subscribers r !! key = Some s ∧ pending_in s seq.

Definition has_reader (r : Registry) (seq : Z) : Prop :=
  ∃ key s, subscribers r !! key = Some s ∧ claimed_in s seq.

(** A subscriber before and after the segment [seq] is dropped. *)
Record dropped_from (seq : Z) (s s' : State) : Prop := {
  dropped_ok : state_ok s';
  dropped_same : id s' = id s ∧ active s' = active s;
  dropped_claims : claimed s' = claimed s;
  dropped_counts : ∀ q, count_of s' q = count_of s q;
  dropped_bits : ∀ br, ref_ok br →
    resolved_in s' br = resolved_in s br || bool_decide (segment_seq br = seq ∧ tracked s br);
}.

Lemma run_force_one s seq s' :
  state_ok s → ¬ claimed_in s seq → run s (ForceComplete <$> [seq]) = Some (s', []) → dropped_from seq s s'.
Proof.
  intros Hs Hc. destruct (force_complete_spec s seq Hs) as (s1 & Hf & Hs1 & Hid & Hact & Hcl & Hcnt & Hres).
  cbn. rewrite Hf. cbn. intros [= <-]. split; try done. apply leibniz_equiv. intros br. rewrite Hcl. split; [tauto|].
  intros Hin. split; [done|]. intros Hseq. apply Hc. by exists br.
Qed.

Lemma dropped_not_pending seq s s' : state_ok s → dropped_from seq s s' → ¬ pending_in s' seq.
Proof.
  intros Hs [_ _ _ Hcnt Hres] (br & Hseq & Ht & Hb).
  assert (tracked s br) as Ht0 by (by apply (count_of_tracked s')).
  rewrite Hres, bool_decide_eq_true_2, orb_true_r in Hb by (done || by apply (tracked_ref_ok s)). done.
Qed.

(** Forcing one segment that nobody reads. *)
Lemma force_one_segment r order q :
  reg_ok r → key_order r order → needed r q → ¬ has_reader r q →
  ∃ r' u, force_subscribers r order [q] [(q, ∅)] = Some (r', u) ∧ reg_ok r' ∧ ¬ needed r' q ∧
    (∀ key, match subscribers r !! key with
      | Some s => ∃ s', subscribers r' !! key = Some s' ∧ dropped_from q s s'
      | None => subscribers r' !! key = None
      end) ∧
    (∀ key, key ∈ dirty_subscribers r' ↔ key ∈ dirty_subscribers r ∨ tracks_any r [q] key) ∧
    ∃ lost, BTreeMap.get q u = Some lost ∧
      ∀ i, i ∈ lost ↔ ∃ key s, subscribers r !! key = Some s ∧ i ∈ unresolved_set s q.
Proof.
  intros Hr Ho (key0 & s0 & Hs0 & Hq) Hnr.
  assert (u64_ok q) as Hq64.
  { destruct (reg_states r Hr _ _ Hs0) as [Hs0ok _]. apply pending_in_get in Hq as (p & Hp & _); [|done].
    by apply (state_segments s0 Hs0ok _ _ Hp). }
  destruct (force_subscribers_spec r order [q] [(q, ∅)] Hr) as (r' & u & Hf & [Hr' _ Hforced Hunres Hdirty]).
  { by eapply key_order_NoDup. }
  { apply BTreeMap.sorted_cons. split; [constructor|apply BTreeMap.sorted_nil]. }
  { intros q' ->%list_elem_of_singleton. cbn. by rewrite Z.eqb_refl. }
  { by apply Forall_singleton. }
  assert (∀ key, match subscribers r !! key with
      | Some s => ∃ s', subscribers r' !! key = Some s' ∧ dropped_from q s s'
      | None => subscribers r' !! key = None end) as Hdrop.
  { intros key. specialize (Hforced key). unfold forced in Hforced.
    destruct (subscribers r !! key) as [s|] eqn:Hs; [|done]. destruct Hforced as (s' & Hs' & Hrun).
    rewrite bool_decide_eq_true_2 in Hrun by (apply (key_order_elem r); [done|by exists s]).
    exists s'. split; [done|]. apply run_force_one; [by apply (reg_states r Hr key)| |done].
    intros Hc. apply Hnr. by exists key, s. }
  exists r', u. split_and!; [done|done| |done| |].
  - intros (key & s' & Hs' & Hpend). specialize (Hdrop key).
    destruct (subscribers r !! key) as [s|] eqn:Hs; [|congruence]. destruct Hdrop as (s'' & Hs'' & Hd).
    replace s'' with s' in * by congruence. apply (dropped_not_pending q s s'); [by apply (reg_states r Hr key)|done..].
  - intros key. rewrite Hdirty. split; [naive_solver|]. intros [?|Ht]; [by left|]. right. split; [|done].
    destruct Ht as (s & q' & Hs & _). apply (key_order_elem r); [done|by exists s].
  - destruct (Hunres q ∅) as (lost & Hlost & Hi); [cbn; by rewrite Z.eqb_refl|]. exists lost. split; [done|].
    intros i. rewrite Hi. split.
    + intros [?%elem_of_empty|(_ & key & s & _ & Hs & Hin)]; [done|by exists key, s].
    + intros (key & s & Hs & Hin). right. split; [left|]. exists key, s. split_and!; [|done..].
      apply (key_order_elem r); [done|by exists s].
Qed.

(** C23: Dropping the oldest pending segment is safe for readers.  When every
    claim is on a tracked bundle, the call chooses, whatever the order of
    iteration, the least segment that some subscriber still needs and none has
    claimed, and nothing when every needed segment has a reader.  It resolves
    exactly that segment for every subscriber, keeps every claim, marks the
    subscribers that track it as dirty, and returns the union of the bundles
    that were unresolved. *)
Theorem force_drop_oldest_safe r order :
  reg_ok r → key_order r order →
  (∀ key s, subscribers r !! key = Some s → claims_tracked s) →
  ∃ r' dropped u,
    force_drop_oldest_pending_segments_with_unresolved r order = Some (r', dropped, u) ∧ reg_ok r' ∧
    match dropped with
    | [] => r' = r ∧ u = [] ∧ ∀ q, needed r q → has_reader r q
    | q :: rest =>
        rest = [] ∧ needed r q ∧ ¬ has_reader r q ∧
        (∀ q', needed r q' → ¬ has_reader r q' → q ≤ q') ∧ ¬ needed r' q ∧
        (∀ key, match subscribers r !! key with
          | Some s => ∃ s', subscribers r' !! key = Some s' ∧ dropped_from q s s'
          | None => subscribers r' !! key = None
          end) ∧
        (∀ key, key ∈ dirty_subscribers r' ↔ key ∈ dirty_subscribers r ∨ tracks_any r [q] key) ∧
        ∃ lost, BTreeMap.get q u = Some lost ∧
          ∀ i, i ∈ lost ↔ ∃ key s, subscribers r !! key = Some s ∧ i ∈ unresolved_set s q
    end.
Proof.
  intros Hr Ho Hct. unfold force_drop_oldest_pending_segments_with_unresolved.
  set (states := omap (λ id, subscribers r !! id) order).
  destruct (scan_readers_spec states [] ∅) as (Hsort & Hpend & Hread).
  { apply Forall_forall. intros s Hs. apply (omap_states r order) in Hs as [key Hs]; [|done].
    by apply (reg_states r Hr key). }
  { apply BTreeMap.sorted_nil. }
  specialize (Hread ltac:(apply Forall_forall; intros s Hs; apply (omap_states r order) in Hs as [key Hs];
    [by apply (Hct key)|done])).
  destruct (scan_readers states [] ∅) as [pending readers]. cbn [fst snd] in *.
  assert (∀ q, q ∈ pending.*1 ↔ needed r q) as Hneed.
  { intros q. rewrite <- in_keys_elem, Hpend. unfold needed, in_keys. cbn. split.
    - intros [[? ?]|(s & [key Hs]%(omap_states r order) & Hq)]; [done| |done]. by exists key, s.
    - intros (key & s & Hs & Hq). right. exists s. split; [|done]. apply (omap_states r order); [done|by exists key]. }
  assert (∀ q, q ∈ readers ↔ has_reader r q) as Hrd.
  { intros q. rewrite Hread. unfold has_reader. split.
    - intros [?%elem_of_empty|(s & [key Hs]%(omap_states r order) & Hq)]; [done| |done]. by exists key, s.
    - intros (key & s & Hs & Hq). right. exists s. split; [|done]. apply (omap_states r order); [done|by exists key]. }
  assert (∀ q, negb (bool_decide (q ∈ readers)) = true ↔ ¬ has_reader r q) as Hnrd.
  { intros q. by rewrite negb_true_iff, bool_decide_eq_false, Hrd. }
  destruct (List.filter _ pending.*1) as [|q rest] eqn:Hfil.
  - exists r, [], []. split_and!; try done. intros q Hq%Hneed.
    pose proof (filter_nil_none _ _ Hfil q Hq) as Hf. cbn in Hf. apply Hrd.
    by apply negb_false_iff, bool_decide_eq_true in Hf.
  - apply filter_head_least in Hfil as (Hq%Hneed & Hnr%Hnrd & Hmin); [|done].
    destruct (force_one_segment r order q Hr Ho Hq Hnr) as (r' & u & Hf & Hr' & Hnn & Hrest).
    rewrite Hf. cbn. exists r', [q], u. split; [done|]. split; [done|]. split_and!; try done.
    + intros q' Hq' Hn'. apply Hmin; [by apply Hneed|by apply Hnrd].
    + apply Hrest.
    + apply Hrest.
    + apply Hrest.
Qed.

(** ** Deletion of completed segments *)

Lemma oldest_incomplete_least r :
  reg_ok r →
  match registry_oldest_incomplete r with
  | Some q => needed r q ∧ ∀ q', needed r q' → q ≤ q'
  | None => ∀ q, ¬ needed r q
  end.
Proof.
  intros [Hr]. unfold registry_oldest_incomplete, needed. revert Hr. generalize (subscribers r). intros m.
  apply (map_fold_weak_ind (λ (b : option Z) (m : gmap SubscriberId State),
    (∀ key s, m !! key = Some s → state_ok s ∧ id s = key) →
    match b with
    | Some q => (∃ key s, m !! key = Some s ∧ pending_in s q) ∧
        ∀ q', (∃ key s, m !! key = Some s ∧ pending_in s q') → q ≤ q'
    | None => ∀ q, ¬ ∃ key s, m !! key = Some s ∧ pending_in s q
    end)).
  { by intros _ q (key & s & ? & _). }
  clear r m. intros key s m b Hnone IH Hr.
  assert (∀ q, (∃ k x, <[key := s]> m !! k = Some x ∧ pending_in x q) ↔
    pending_in s q ∨ ∃ k x, m !! k = Some x ∧ pending_in x q) as Hiff.
  { intros q. split.
    - intros (k & x & [[<- <-]|[? ?]]%lookup_insert_Some & Hq); [by left|]. right. by exists k, x.
    - intros [Hq|(k & x & Hx & Hq)]; [exists key, s; by rewrite lookup_insert_eq|].
      exists k, x. rewrite lookup_insert_ne; [done|]. congruence. }
  assert (∀ k x, m !! k = Some x → state_ok x ∧ id x = k) as Hm.
  { intros k x Hx. apply Hr. rewrite lookup_insert_ne; [done|]. congruence. }
  specialize (IH Hm).
  destruct (Hr key s) as [Hs _]; [by rewrite lookup_insert_eq|].
  pose proof (oldest_incomplete_spec s Hs) as Hold.
  destruct (oldest_incomplete_segment s) as [q1|], b as [q2|]; cbn [min_option].
  - destruct Hold as [Hq1 Hm1], IH as [Hq2 Hm2]. split.
    + apply Hiff. destruct (Z.min_spec q1 q2) as [[_ ->]|[_ ->]]; [by left|by right].
    + intros q' [Hq'|Hq']%Hiff; [specialize (Hm1 q' Hq')|specialize (Hm2 q' Hq')]; lia.
  - destruct Hold as [Hq1 Hm1]. split; [apply Hiff; by left|].
    intros q' [Hq'|Hq']%Hiff; [by apply Hm1|by destruct (IH q')].
  - destruct IH as [Hq2 Hm2]. split; [apply Hiff; by right|].
    intros q' [Hq'|Hq']%Hiff; [by destruct (Hold q')|by apply Hm2].
  - intros q [Hq|Hq]%Hiff; [by apply (Hold q)|by apply (IH q)].
Qed.

Lemma subscribers_cleanup r before key :
  subscribers (cleanup_segments_before r before) !! key =
  (λ s, remove_completed_segments_before s before) <$> subscribers r !! key.
Proof. destruct r. apply lookup_fmap. Qed.

(** Cleaning up keeps every unresolved bundle. *)
Lemma cleanup_deliverable s before br :
  state_ok s → deliverable (remove_completed_segments_before s before) br ↔ deliverable s br.
Proof.
  intros Hs. assert (claimed (remove_completed_segments_before s before) = claimed s) as Hc by (by destruct s).
  unfold deliverable. rewrite Hc, !tracked_get. unfold resolved_in. rewrite cleanup_get by done.
  destruct (BTreeMap.get (segment_seq br) (segments s)) as [p|] eqn:Hp.
  2: { split; by intros ((? & ? & _) & _). }
  destruct (state_segments s Hs _ _ Hp) as [_ Hpok].
  destruct ((before <=? segment_seq br) || negb (progress_is_complete p)) eqn:Hkeep; [done|].
  apply orb_false_iff in Hkeep as [_ Hcomp%negb_false_iff]. rewrite progress_is_complete_spec in Hcomp by done.
  split; [by intros ((? & ? & _) & _)|]. intros ((q & [= <-] & Hi) & Hb & _). rewrite Hcomp in Hb by done. done.
Qed.

(** The segments deleted are needed by nobody. *)
Lemma cleanup_completed_spec store fails r r' deleted :
  reg_ok r → cleanup_completed_segments store fails r = (r', deleted) →
  ((∃ before, r' = cleanup_segments_before r before) ∨ r' = r) ∧
  ∀ seq, seq ∈ deleted → seq ∈ store ∧ ¬ needed r seq.
Proof.
  intros Hr. unfold cleanup_completed_segments. pose proof (oldest_incomplete_least r Hr) as Hold.
  set (boundary := match registry_oldest_incomplete r with Some seq => Some seq | None => _ end).
  assert (match boundary with Some b => ∀ seq, seq < b → ¬ needed r seq | None => True end) as Hb.
  { unfold boundary. destruct (registry_oldest_incomplete r) as [q|].
    - intros seq Hlt Hn. apply Hold in Hn. lia.
    - destruct (min_highest_tracked_segment r); [|done]. intros seq _. apply Hold. }
  destruct boundary as [b|]; intros [= <- <-]; [|split; [by right|by intros ? ?%elem_of_nil]].
  split; [left; by exists b|]. intros seq Hin. apply list_elem_of_In, filter_In in Hin as [Hin [Hlt _]%andb_true_iff].
  split; [by apply list_elem_of_In|]. apply Hb. lia.
Qed.

(** C34: The engine deletes only completed segments.  Every segment it deletes
    has no unresolved bundle for any subscriber, active or not; and forgetting
    the completed segments afterwards changes neither what can be delivered to
    a subscriber nor its claims. *)
Theorem cleanup_deletes_only_completed store fails r r' deleted :
  reg_ok r → cleanup_completed_segments store fails r = (r', deleted) →
  reg_ok r' ∧
  (∀ seq, seq ∈ deleted → seq ∈ store ∧ ¬ needed r seq) ∧
  (∀ key, match subscribers r !! key with
    | Some s => ∃ s', subscribers r' !! key = Some s' ∧ claimed s' = claimed s ∧ active s' = active s ∧
        ∀ br, deliverable s' br ↔ deliverable s br
    | None => subscribers r' !! key = None
    end).
Proof.
  intros Hr Hc. destruct (cleanup_completed_spec _ _ _ _ _ Hr Hc) as [[[b ->]| ->] Hdel].
  2: { split_and!; [done..|]. intros key. destruct (subscribers r !! key) as [s|]; [|done]. by exists s. }
  split_and!; [|done|].
  - split. intros key s' Hs'. rewrite subscribers_cleanup in Hs'. apply fmap_Some in Hs' as (s & Hs & ->).
    destruct (reg_states r Hr key s Hs) as [Hsok Hid]. split; [by apply cleanup_ok|]. by destruct s.
  - intros key. rewrite subscribers_cleanup. destruct (subscribers r !! key) as [s|] eqn:Hs; [|done]. cbn.
    eexists. split; [done|]. destruct (reg_states r Hr key s Hs) as [Hsok _].
    split_and!; [by destruct s|by destruct s|]. intros br. by apply cleanup_deliverable.
Qed.

(** One subscriber, which reads segment 3 and has not begun segment 5. *)
Definition example_registry : Registry := mkRegistry {["exporter"%string := example_state]} ∅ None 0.

Lemma example_registry_ok : reg_ok example_registry.
Proof.
  split. intros key s Hs. change (({["exporter"%string := example_state]} : gmap SubscriberId State) !! key = Some s) in Hs.
  apply lookup_singleton_Some in Hs as [<- <-]. split; [apply example_state_ok|done].
Qed.

Lemma example_claims_tracked : claims_tracked example_state.
Proof.
  intros br Hbr. change (br ∈@{gset BundleRef} {[mkBundleRef 3 1]}) in Hbr.
  apply elem_of_singleton in Hbr as ->. by exists 2.
Qed.

Lemma force_drop_oldest_safe_witness :
  (∃ r' u, force_drop_oldest_pending_segments_with_unresolved example_registry ["exporter"%string] = Some (r', [5], u)) ∧
  ∃ r' dropped u,
    force_drop_oldest_pending_segments_with_unresolved example_registry ["exporter"%string] = Some (r', dropped, u) ∧
    reg_ok r'.
Proof.
  split; [eexists _, _; vm_compute; reflexivity|].
  destruct (force_drop_oldest_safe example_registry ["exporter"%string]) as (r' & dropped & u & Hf & Hr' & _).
  - apply example_registry_ok.
  - unfold key_order. apply reflexive_eq. vm_compute. reflexivity.
  - intros key s Hs. change (({["exporter"%string := example_state]} : gmap SubscriberId State) !! key = Some s) in Hs.
    apply lookup_singleton_Some in Hs as [<- <-]. apply example_claims_tracked.
  - exists r', dropped, u. split; [exact Hf|exact Hr'].
Defined.

Lemma cleanup_deletes_only_completed_witness :
  (cleanup_completed_segments [1; 3; 5] (λ _, false) example_registry).2 = [1] ∧ ¬ needed example_registry 1.
Proof.
  split; [vm_compute; reflexivity|].
  destruct (cleanup_deletes_only_completed [1; 3; 5] (λ _, false) example_registry
    (cleanup_completed_segments [1; 3; 5] (λ _, false) example_registry).1 [1]) as (_ & H & _).
  - apply example_registry_ok.
  - apply injective_projections; [reflexivity|vm_compute; reflexivity].
  - apply (H 1). left.
Defined.

End Registry.
