(* ===== verification/RegistryRuns.v ===== *)
(** * Runs of the registry

    Sequences of operations on the subscriber registry, over any segment store.
    Each operation acts on each subscriber as a sequence of operations of
    [SubscriberState], so the delivery guarantees of a subscriber hold in every
    run of the registry: a handle is given out again only after the bundle was
    released, and never once the bundle is resolved. *)
From S2P Require Import Prelude Bytes Files BTreeMap SubscriberTypes Progress SubscriberState Registry.

Import SubscriberTypes.
Local Open Scope Z_scope.

Module RegistryRuns.
Import SubscriberState.
Import Registry.

Section runs.
Context {P Data : Type} {HP : SegmentProvider P Data} {HB : ProviderBounds P Data}.
Context (crc32 : list Z → Z).

(** The calls of the registry's interface, each with the segment store at the
    time, the iteration orders and the outcomes of the I/O calls it observes. *)
Inductive rop :=
  | RRegister (key : SubscriberId)
  | RActivate (p : P) (key : SubscriberId)
  | RDeactivate (key : SubscriberId)
  | RUnregister (fails : bool) (key : SubscriberId)
  | RFinalized (seq count : Z)
  | RPoll (p : P) (key : SubscriberId)
  | RClaim (p : P) (key : SubscriberId) (br : BundleRef)
  | RAck (h : BundleHandle Data)
  | RReject (h : BundleHandle Data)
  | RDefer (h : BundleHandle Data)
  | RDrop (h : BundleHandle Data)
  | RCleanup (before : Z)
  | RForceDrop (order : list SubscriberId)
  | RForceComplete (order : list SubscriberId) (segs : list Z)
  | RFlush (faults : SubscriberId → io_fault) (order : list SubscriberId).

Record World := mkWorld {
  reg : Registry;
  dir : Dir;
}.

Definition handle_out (h : BundleHandle Data) : SubscriberId * BundleRef := (subscriber_id h, handle_ref h).

(** The world after a call and the handles it gives out. *)
Definition reg_step (w : World) (o : rop) : option (World * list (SubscriberId * BundleRef)) :=
  let r := reg w in
  let d := dir w in
  match o with
  | RRegister key => Some (mkWorld (register r key) d, [])
  | RActivate p key => Some (mkWorld (activate p r key).1 d, [])
  | RDeactivate key => Some (mkWorld (deactivate r key).1 d, [])
  | RUnregister fails key => let '(r', d', _) := unregister fails r d key in Some (mkWorld r' d', [])
  | RFinalized seq n => Some (mkWorld (on_segment_finalized r seq n) d, [])
  | RPoll p key =>
      '(r', res) ← poll_next_bundle p r key;
      Some (mkWorld r' d, match res with Ok (Some h) => [handle_out h] | _ => [] end)
  | RClaim p key br =>
      '(r', res) ← claim_bundle p r key br;
      Some (mkWorld r' d, match res with Ok h => [handle_out h] | Err _ => [] end)
  | RAck h => r' ← ack r h; Some (mkWorld r' d, [])
  | RReject h => r' ← reject r h; Some (mkWorld r' d, [])
  | RDefer h => Some (mkWorld (defer r h).1 d, [])
  | RDrop h => Some (mkWorld (drop_handle r h) d, [])
  | RCleanup before => Some (mkWorld (cleanup_segments_before r before) d, [])
  | RForceDrop order =>
      '(r', _, _) ← force_drop_oldest_pending_segments_with_unresolved r order; Some (mkWorld r' d, [])
  | RForceComplete order segs =>
      '(r', _) ← force_complete_segments_with_unresolved r order segs; Some (mkWorld r' d, [])
  | RFlush faults order => let '(r', d', _) := flush_progress crc32 faults order r d in Some (mkWorld r' d', [])
  end.

Fixpoint reg_run (w : World) (ops : list rop) : option (World * list (SubscriberId * BundleRef)) :=
  match ops with
  | [] => Some (w, [])
  | o :: ops' =>
      '(w1, hs1) ← reg_step w o;
      '(w2, hs2) ← reg_run w1 ops';
      Some (w2, hs1 ++ hs2)
  end.

(** Arguments of machine width; iteration orders without repetition. *)
Definition rop_ok (o : rop) : Prop :=
  match o with
  | RFinalized seq n => u64_ok seq ∧ u32_ok n
  | RClaim _ _ br => ref_ok br
  | RAck h | RReject h | RDefer h | RDrop h => ref_ok (handle_ref h)
  | RCleanup before => u64_ok before
  | RForceDrop order => NoDup order
  | RForceComplete order segs => NoDup order ∧ Forall u64_ok segs
  | _ => True
  end.

(** The call neither forgets the segment nor removes the subscriber. *)
Definition rop_keeps (key : SubscriberId) (seq : Z) (o : rop) : Prop :=
  match o with
  | RUnregister _ key' => key' ≠ key
  | RCleanup before => before ≤ seq
  | _ => True
  end.

(** The call releases the bundle without resolving it. *)
Definition rop_releases (key : SubscriberId) (br : BundleRef) (o : rop) : bool :=
  match o with
  | RDefer h => bool_decide (handle_out h = (key, br))
  | RDrop h => negb (handle_resolved h) && bool_decide (handle_out h = (key, br))
  | _ => false
  end.

Definition handed_out (key : SubscriberId) (br : BundleRef) (hs : list (SubscriberId * BundleRef)) : Z :=
  count_if (λ h, bool_decide (h = (key, br))) hs.

(** What a call does to the subscriber [key]. *)
Definition call_acts (w w' : World) (o : rop) (hs : list (SubscriberId * BundleRef)) (key : SubscriberId) : Prop :=
  ∀ s, subscribers (reg w) !! key = Some s → (∀ seq, ¬ rop_keeps key seq o) ∨
    ∃ s', subscribers (reg w') !! key = Some s' ∧
      acts_as s s' (λ seq, rop_keeps key seq o) (λ br, Z.b2z (rop_releases key br o))
        (λ br, handed_out key br hs).

(** A call that leaves the subscriber alone and gives it no handle. *)
Lemma call_acts_same w w' o hs key :
  subscribers (reg w') !! key = subscribers (reg w) !! key →
  (∀ br, rop_releases key br o = false) → (∀ br, handed_out key br hs = 0) → call_acts w w' o hs key.
Proof.
  intros Heq Hrel Hh s Hs. right. exists s. rewrite Heq. split; [done|].
  eapply acts_as_weaken; [apply (acts_as_refl s (λ _, True))|done|..].
  - intros br. by rewrite Hrel.
  - intros br. rewrite Hh. lia.
Qed.

Lemma handed_out_nil key br : handed_out key br [] = 0.
Proof. done. Qed.

Lemma acts_add_available p s seqs :
  (∀ seq, seq ∈ seqs → u64_ok seq) →
  acts_as s (add_available p s seqs).1 (λ _, True) (λ _, 0) (λ _, 0).
Proof.
  revert s. induction seqs as [|seq seqs IH]; intros s Hseqs; cbn [add_available]; [apply acts_as_refl|].
  destruct (provider_bundle_count p seq) as [n|e] eqn:Hn; [|apply acts_as_refl].
  eapply acts_as_weaken.
  - eapply acts_as_trans; [|apply IH; intros; apply Hseqs; by right].
    apply (acts_as_step _ _ (AddSegment seq n) [] (λ _, True) (λ _, 0) (λ _, 0)); try done.
    split; [apply Hseqs; left|by eapply bundle_count_u32].
  - done.
  - done.
  - done.
Qed.

(** A call that changes the state of one subscriber. *)
Lemma call_acts_put w w' o hs key s s' :
  reg_ok (reg w) → subscribers (reg w) !! key = Some s →
  subscribers (reg w') = <[key := s']> (subscribers (reg w)) →
  acts_as s s' (λ _, True) (λ br, Z.b2z (rop_releases key br o)) (λ br, handed_out key br hs) →
  (∀ key' br, key' ≠ key → rop_releases key' br o = false ∧ handed_out key' br hs = 0) →
  reg_ok (reg w') ∧ ∀ key', call_acts w w' o hs key'.
Proof.
  intros Hr Hs Hsubs Hact Hother. destruct (reg_states _ Hr key s Hs) as [Hsok Hid].
  destruct (acts_as_ok _ _ _ _ _ Hsok Hact) as [Hsok' Hid']. split.
  - apply (reg_ok_subscribers (put_state (reg w) key s')); [by rewrite Hsubs, subscribers_put|].
    apply put_state_ok; [done|done|congruence].
  - intros key'. destruct (decide (key' = key)) as [->|Hne].
    + intros s0 Hs0. right. exists s'. rewrite Hsubs, lookup_insert_eq. split; [done|].
      replace s0 with s by congruence. by eapply acts_as_weaken.
    + apply call_acts_same.
      * rewrite Hsubs. apply lookup_insert_ne. congruence.
      * intros br. by apply Hother.
      * intros br. by apply Hother.
Qed.

(** A call that does not change the subscribers. *)
Lemma call_acts_none w w' o :
  reg_ok (reg w) → subscribers (reg w') = subscribers (reg w) →
  (∀ key br, subscribers (reg w) !! key ≠ None → rop_releases key br o = false) →
  reg_ok (reg w') ∧ ∀ key, call_acts w w' o [] key.
Proof.
  intros Hr Hsubs Hrel. split; [by apply (reg_ok_subscribers (reg w))|]. intros key.
  destruct (subscribers (reg w) !! key) as [s|] eqn:Hs; [|intros s ?; congruence].
  apply call_acts_same; [by rewrite Hsubs| |done]. intros br. apply Hrel. by rewrite Hs.
Qed.

(** A call that does the same to every subscriber. *)
Lemma call_acts_fmap w w' o (f : State → State) :
  reg_ok (reg w) → subscribers (reg w') = f <$> subscribers (reg w) →
  (∀ key br, rop_releases key br o = false) →
  (∀ key s, subscribers (reg w) !! key = Some s → acts_as s (f s) (λ seq, rop_keeps key seq o) (λ _, 0) (λ _, 0)) →
  reg_ok (reg w') ∧ ∀ key, call_acts w w' o [] key.
Proof.
  intros Hr Hsubs Hrel Hact. split.
  - split. intros key s'. rewrite Hsubs, lookup_fmap. intros (s & Hs & ->)%fmap_Some.
    destruct (reg_states _ Hr key s Hs) as [Hsok Hid].
    destruct (acts_as_ok _ _ _ _ _ Hsok (Hact key s Hs)) as [? ?]. split; [done|congruence].
  - intros key s Hs. right. exists (f s). rewrite Hsubs, lookup_fmap, Hs. split; [done|].
    eapply acts_as_weaken; [by apply Hact|done|..]; intros br; [by rewrite Hrel|done].
Qed.

Lemma flush_all_subscribers faults l r d n e :
  subscribers (flush_all crc32 faults l r d n e).1.1 = subscribers r.
Proof.
  revert r d n e. induction l as [|[key s] l IH]; intros r d n e; cbn [flush_all]; [done|].
  destruct (Progress.write_progress_file _ _ _ _ _ _) as [d' [u|err]]; [by rewrite IH|].
  by rewrite IH, subscribers_dirty.
Qed.

Lemma acts_claim s br s' b del :
  claim s br = Some (b, s') → ref_ok br → (∀ br', del br' ≤ occurrences (Delivered br') (if b then [Delivered br] else [])) →
  acts_as s s' (λ _, True) (λ _, 0) del.
Proof.
  intros Hc Hr Hd. apply (acts_as_step _ _ (Claim br) (if b then [Delivered br] else [])); try done.
  cbn. by rewrite Hc.
Qed.

Lemma handed_out_one key br key' br' :
  handed_out key' br' [(key, br)] = Z.b2z (bool_decide (key' = key) && bool_decide (br' = br)).
Proof.
  unfold handed_out. cbn. rewrite Z.add_0_r. f_equal. rewrite <- bool_decide_and. apply bool_decide_ext.
  split; [by intros [= -> ->]|by intros [-> ->]].
Qed.

Lemma delivered_one br br' : occurrences (Delivered br') [Delivered br] = Z.b2z (bool_decide (br' = br)).
Proof.
  unfold occurrences. cbn. rewrite Z.add_0_r. f_equal. apply bool_decide_ext. split; [by intros [= ->]|by intros ->].
Qed.

(** The statement of one call. *)
Definition call_ok (w : World) (o : rop) : Prop :=
  ∃ w' hs, reg_step w o = Some (w', hs) ∧ reg_ok (reg w') ∧ ∀ key, call_acts w w' o hs key.

Lemma call_ok_intro w o w' hs :
  reg_step w o = Some (w', hs) → (reg_ok (reg w') ∧ ∀ key, call_acts w w' o hs key) → call_ok w o.
Proof. intros Hs [? ?]. by exists w', hs. Qed.

Lemma register_call w key : reg_ok (reg w) → call_ok w (RRegister key).
Proof.
  intros Hr. eapply call_ok_intro; [done|]. unfold register.
  destruct (subscribers (reg w) !! key) as [s|] eqn:Hs; [by apply call_acts_none|]. split.
  - apply put_state_ok; [done|apply state_new_ok|done].
  - intros key'. destruct (decide (key' = key)) as [->|]; [intros s ?; congruence|].
    apply call_acts_same; [|done..]. cbn [reg]. rewrite subscribers_put. by apply lookup_insert_ne.
Qed.

Lemma activate_call w p key : reg_ok (reg w) → call_ok w (RActivate p key).
Proof.
  intros Hr. eapply call_ok_intro; [done|]. unfold activate.
  destruct (subscribers (reg w) !! key) as [s|] eqn:Hs; [|by apply call_acts_none].
  destruct (active s); [by apply call_acts_none|].
  pose proof (acts_add_available p s (available_segments p) (available_u64 p)) as Hact.
  destruct (add_available p s (available_segments p)) as [s' [u|e]]; cbn [fst] in *.
  - eapply (call_acts_put _ _ _ _ key s); [done|done|apply subscribers_put| |done].
    assert (acts_as s' (SubscriberState.activate s') (λ _, True) (λ _, 0) (λ _, 0)) as Hact'.
    { by apply (acts_as_step _ _ Activate [] (λ _, True) (λ _, 0) (λ _, 0)). }
    by eapply acts_as_weaken; [exact (acts_as_trans _ _ _ _ _ _ _ _ _ Hact Hact')|..].
  - eapply (call_acts_put _ _ _ _ key s); [done|done|apply subscribers_put|exact Hact|done].
Qed.

Lemma deactivate_call w key : reg_ok (reg w) → call_ok w (RDeactivate key).
Proof.
  intros Hr. eapply call_ok_intro; [done|]. unfold deactivate.
  destruct (subscribers (reg w) !! key) as [s|] eqn:Hs; [|by apply call_acts_none].
  eapply (call_acts_put _ _ _ _ key s); [done|done|apply subscribers_put| |done].
  by apply (acts_as_step _ _ Deactivate [] (λ _, True) (λ _, 0) (λ _, 0)).
Qed.

Lemma unregister_call w fails key : reg_ok (reg w) → call_ok w (RUnregister fails key).
Proof.
  intros Hr. unfold call_ok, reg_step, unregister.
  destruct (subscribers (reg w) !! key) as [s|] eqn:Hs.
  2: { eexists _, _. split; [done|]. by apply call_acts_none. }
  destruct (Progress.delete_progress_file _ _ _) as [d' res]. eexists _, _. split; [done|].
  assert (∀ k, subscribers ((reg w) <| subscribers ::= delete key |> <| dirty_subscribers ::= λ d, d ∖ {[key]} |>) !! k
    = delete key (subscribers (reg w)) !! k) as Hsubs by (intros; by destruct (reg w)).
  split.
  - split. intros k s'. cbn [reg]. rewrite Hsubs. intros [_ Hk]%lookup_delete_Some. by apply Hr.
  - intros k. destruct (decide (k = key)) as [->|Hne].
    + intros s' _. left. intros seq Hk. by apply Hk.
    + apply call_acts_same; [|done..]. cbn [reg]. rewrite Hsubs. apply lookup_delete_ne. congruence.
Qed.

Lemma finalized_call w seq n : reg_ok (reg w) → u64_ok seq → u32_ok n → call_ok w (RFinalized seq n).
Proof.
  intros Hr Hseq Hn. eapply call_ok_intro; [done|].
  eapply (call_acts_fmap _ _ _ (λ s, if active s then add_segment s seq n else s)); [done|by destruct (reg w)|done|].
  intros key s _. destruct (active s); [|apply acts_as_refl].
  by apply (acts_as_step _ _ (AddSegment seq n) [] _ (λ _, 0) (λ _, 0)).
Qed.

Lemma cleanup_call w before : reg_ok (reg w) → u64_ok before → call_ok w (RCleanup before).
Proof.
  intros Hr Hb. eapply call_ok_intro; [done|].
  eapply (call_acts_fmap _ _ _ (λ s, remove_completed_segments_before s before)); [done|by destruct (reg w)|done|].
  intros key s _. by apply (acts_as_step _ _ (Cleanup before) [] _ (λ _, 0) (λ _, 0)).
Qed.

Lemma flush_call w faults order : reg_ok (reg w) → call_ok w (RFlush faults order).
Proof.
  intros Hr. unfold call_ok, reg_step.
  assert (subscribers (flush_progress crc32 faults order (reg w) (dir w)).1.1 = subscribers (reg w)) as Hsubs.
  { unfold flush_progress. destruct order as [|k order]; [by destruct (reg w)|].
    rewrite flush_all_subscribers. by destruct (reg w). }
  destruct (flush_progress crc32 faults order (reg w) (dir w)) as [[r' d'] res]. eexists _, _. split; [done|].
  by apply call_acts_none.
Qed.

Lemma read_claimed_out p key br h :
  read_claimed p key br = Ok h → handle_out h = (key, br).
Proof. unfold read_claimed. destruct (read_bundle p br); [|done]. by intros [= <-]. Qed.

Lemma poll_call w p key : reg_ok (reg w) → call_ok w (RPoll p key).
Proof.
  intros Hr. unfold call_ok, reg_step, poll_next_bundle.
  destruct (subscribers (reg w) !! key) as [s|] eqn:Hs; cbn [mbind option_bind].
  2: { eexists _, _. split; [done|]. by apply call_acts_none. }
  destruct (active s); cbn [negb].
  2: { eexists _, _. split; [done|]. by apply call_acts_none. }
  destruct (reg_states _ Hr key s Hs) as [Hsok _].
  destruct (next_pending_spec s Hsok) as (next & -> & Hnext). cbn [mbind option_bind].
  destruct next as [br|]; [|eexists _, _; split; [done|]; by apply call_acts_none].
  destruct Hnext as [(Ht & Hres & Hnc) _].
  destruct (claim_spec s br Hsok) as (s' & Hc & _); [by apply (tracked_ref_ok s)|].
  rewrite Hres, bool_decide_eq_true_2 in Hc by done.
  change (negb false && true) with true in Hc. rewrite Hc. cbn [mbind option_bind].
  assert (∀ del, (∀ br', del br' ≤ Z.b2z (bool_decide (br' = br))) → acts_as s s' (λ _, True) (λ _, 0) del) as Hact.
  { intros del Hd. eapply acts_claim; [done|by apply (tracked_ref_ok s)|]. intros br'. cbv iota.
    rewrite delivered_one. apply Hd. }
  destruct (read_claimed p key br) as [h|e] eqn:Hread; cbn [mbind option_bind]; eexists _, _; (split; [done|]).
  - apply read_claimed_out in Hread. rewrite Hread.
    apply (call_acts_put _ _ _ _ key s s'); [done|done|apply subscribers_put| |].
    + apply Hact. intros br'. by rewrite handed_out_one, bool_decide_eq_true_2.
    + intros key' br' Hne. by rewrite handed_out_one, bool_decide_eq_false_2.
  - apply (call_acts_put _ _ _ _ key s s'); [done|done|apply subscribers_put| |done].
    apply Hact. intros br'. cbn. by case_bool_decide.
Qed.

Lemma claim_call w p key br : reg_ok (reg w) → ref_ok br → call_ok w (RClaim p key br).
Proof.
  intros Hr Hbr. unfold call_ok, reg_step, claim_bundle.
  destruct (subscribers (reg w) !! key) as [s|] eqn:Hs; cbn [mbind option_bind].
  2: { eexists _, _. split; [done|]. by apply call_acts_none. }
  destruct (reg_states _ Hr key s Hs) as [Hsok _]. rewrite is_resolved_spec by done. cbn [mbind option_bind].
  destruct (resolved_in s br) eqn:Hres; cbn [mbind option_bind].
  { eexists _, _. split; [done|]. by apply call_acts_none. }
  unfold is_claimed. case_bool_decide as Hc; cbn [mbind option_bind].
  { eexists _, _. split; [done|]. by apply call_acts_none. }
  destruct (claim_spec s br Hsok Hbr) as (s' & Hcl & _). rewrite Hres, bool_decide_eq_true_2 in Hcl by done.
  change (negb false && true) with true in Hcl. rewrite Hcl. cbn [mbind option_bind negb].
  eexists _, _. split; [done|]. apply (call_acts_put _ _ _ _ key s s'); [done|done|apply subscribers_put|..].
  - eapply acts_claim; [done|done|]. intros br'. cbv iota. rewrite delivered_one.
    destruct (read_claimed p key br) as [h|e] eqn:Hread; [|cbn; by case_bool_decide].
    apply read_claimed_out in Hread. rewrite Hread. by rewrite handed_out_one, bool_decide_eq_true_2.
  - intros key' br' Hne. split; [done|]. destruct (read_claimed p key br) as [h|e] eqn:Hread; [|done].
    apply read_claimed_out in Hread. rewrite Hread. by rewrite handed_out_one, bool_decide_eq_false_2.
Qed.

(** Recording a resolution, whatever call it belongs to. *)
Lemma resolution_call w o key br outcome d :
  reg_ok (reg w) → ref_ok br → (∀ key' br', rop_releases key' br' o = false) →
  ∃ r', record_resolution (reg w) key br outcome = Some r' ∧ reg_ok r' ∧
    ∀ key', call_acts w (mkWorld r' d) o [] key'.
Proof.
  intros Hr Hbr Hrel. unfold record_resolution.
  destruct (subscribers (reg w) !! key) as [s|] eqn:Hs; cbn [mbind option_bind].
  2: { eexists. split; [done|].
       by apply (call_acts_none w (mkWorld (mark_dirty (reg w) key) d)); [|cbn [reg]; rewrite subscribers_dirty|]. }
  destruct (reg_states _ Hr key s Hs) as [Hsok _].
  destruct (record_outcome_spec s br outcome Hsok Hbr) as (s' & Hrec & _). rewrite Hrec. cbn [mbind option_bind].
  eexists. split; [done|].
  eapply (call_acts_put w (mkWorld (mark_dirty (put_state (reg w) key s') key) d) o [] key s s'); [done|done| |..].
  - cbn [reg]. by rewrite subscribers_dirty, subscribers_put.
  - eapply (acts_as_step _ _ (Record_ br outcome)); [cbn [step]; rewrite Hrec; done|done|done|..].
    + intros br'. by rewrite Hrel.
    + intros br'. apply occurrences_nonneg.
  - intros key' br' _. by rewrite Hrel.
Qed.

Lemma ack_call w h : reg_ok (reg w) → ref_ok (handle_ref h) → call_ok w (RAck h).
Proof.
  intros Hr Hbr. destruct (resolution_call w (RAck h) (subscriber_id h) (handle_ref h) Acked (dir w) Hr Hbr)
    as (r' & Hrec & Hr' & Hact); [done|].
  unfold call_ok, reg_step, ack, on_resolved. cbn [resolve_handle subscriber_id handle_ref]. rewrite Hrec.
  by eexists _, _.
Qed.

Lemma reject_call w h : reg_ok (reg w) → ref_ok (handle_ref h) → call_ok w (RReject h).
Proof.
  intros Hr Hbr. destruct (resolution_call w (RReject h) (subscriber_id h) (handle_ref h) Dropped (dir w) Hr Hbr)
    as (r' & Hrec & Hr' & Hact); [done|].
  unfold call_ok, reg_step, reject, on_resolved. cbn [resolve_handle subscriber_id handle_ref]. rewrite Hrec.
  by eexists _, _.
Qed.

(** Releasing a bundle, by deferring or dropping its handle. *)
Lemma release_call w o h d :
  reg_ok (reg w) → ref_ok (handle_ref h) →
  (∀ key br, rop_releases key br o = bool_decide (handle_out h = (key, br))) →
  let w' := mkWorld (release_bundle (reg w) (subscriber_id h) (handle_ref h)) d in
  reg_ok (reg w') ∧ ∀ key, call_acts w w' o [] key.
Proof.
  intros Hr Hbr Hrel w'. unfold w', release_bundle.
  destruct (subscribers (reg w) !! subscriber_id h) as [s|] eqn:Hs.
  - apply (call_acts_put _ _ _ _ (subscriber_id h) s (release s (handle_ref h))); [done|done|apply subscribers_put|..].
    + apply (acts_as_step _ _ (Release (handle_ref h)) []); try done. intros br. rewrite Hrel. cbn. f_equal.
      apply bool_decide_ext. unfold handle_out. split; [by intros ->|by intros [= ->]].
    + intros key br Hne. split; [|done]. rewrite Hrel. apply bool_decide_eq_false_2. unfold handle_out. congruence.
  - apply call_acts_none; [done|done|]. intros key br Hk. rewrite Hrel. apply bool_decide_eq_false_2.
    unfold handle_out. intros [= <- _]. done.
Qed.

Lemma defer_call w h : reg_ok (reg w) → ref_ok (handle_ref h) → call_ok w (RDefer h).
Proof. intros Hr Hbr. eapply call_ok_intro; [done|]. by apply release_call. Qed.

Lemma drop_call w h : reg_ok (reg w) → ref_ok (handle_ref h) → call_ok w (RDrop h).
Proof.
  intros Hr Hbr. eapply call_ok_intro; [done|]. unfold drop_handle. destruct (handle_resolved h) eqn:Hh.
  - apply call_acts_none; [done|done|]. intros. cbn. by rewrite Hh.
  - apply release_call; [done|done|]. intros. cbn. by rewrite Hh.
Qed.

(** Forced completion of segments. *)
Lemma force_call w o r' order segs u u' d :
  Forall u64_ok segs → (∀ key br, rop_releases key br o = false) → reg_ok (reg w) →
  force_result (reg w) r' order segs u u' →
  reg_ok r' ∧ ∀ key, call_acts w (mkWorld r' d) o [] key.
Proof.
  intros Hsegs Hrel Hr [Hr' _ Hforced _ _]. split; [done|]. intros key s Hs. right.
  specialize (Hforced key). rewrite Hs in Hforced. destruct Hforced as (s' & Hs' & Hrun). exists s'. split; [done|].
  case_bool_decide.
  - exists (ForceComplete <$> segs), []. split_and!.
    + done.
    + apply Forall_fmap. eapply Forall_impl; [exact Hsegs|done].
    + intros seq _. apply Forall_fmap, Forall_true. done.
    + intros br. rewrite Hrel. cbn. rewrite count_if_fmap. by apply count_if_false.
    + done.
  - subst. eapply acts_as_weaken; [apply (acts_as_refl s (λ _, True))|done|..]; intros br; [by rewrite Hrel|done].
Qed.

Lemma pending_in_u64 s seq : state_ok s → pending_in s seq → u64_ok seq.
Proof. intros Hs (p & Hp & _)%pending_in_get; [|done]. by apply (state_segments s Hs _ _ Hp). Qed.

Lemma force_drop_call w order : reg_ok (reg w) → NoDup order → call_ok w (RForceDrop order).
Proof.
  intros Hr Hnd. unfold call_ok, reg_step, force_drop_oldest_pending_segments_with_unresolved.
  set (states := omap (λ id, subscribers (reg w) !! id) order).
  assert (Forall state_ok states) as Hok.
  { apply Forall_forall. intros s (key & _ & Hs)%list_elem_of_omap. by apply (reg_states _ Hr key). }
  destruct (scan_readers_spec states [] ∅ Hok) as (Hsort & Hpend & _); [apply BTreeMap.sorted_nil|].
  destruct (scan_readers states [] ∅) as [pending readers]. cbn [fst snd] in *.
  destruct (List.filter _ pending.*1) as [|q rest] eqn:Hfil.
  { eexists _, _. split; [done|]. by apply call_acts_none. }
  apply filter_head_least in Hfil as (Hq & _ & _); [|done].
  apply in_keys_elem, Hpend in Hq as [[? ?]|(s & Hin & Hq)]; [done|].
  assert (u64_ok q) as Hq64.
  { rewrite Forall_forall in Hok. by apply (pending_in_u64 s); [apply Hok|]. }
  destruct (force_subscribers_spec (reg w) order [q] [(q, ∅)] Hr Hnd) as (r' & u & -> & Hres).
  { apply BTreeMap.sorted_cons. split; [constructor|apply BTreeMap.sorted_nil]. }
  { intros q' ->%list_elem_of_singleton. cbn. by rewrite Z.eqb_refl. }
  { by apply Forall_singleton. }
  cbn [mbind option_bind]. eexists _, _. split; [done|].
  eapply (force_call w (RForceDrop order) r' order [q]); [by apply Forall_singleton|done|done|exact Hres].
Qed.

(** The map of empty sets for the requested segments. *)
Lemma initial_unresolved segs (m : list (Z * gset Z)) :
  BTreeMap.sorted m →
  let u := foldl (λ m seq, BTreeMap.insert seq ∅ m) m segs in
  BTreeMap.sorted u ∧ ∀ seq, seq ∈ segs ∨ is_Some (BTreeMap.get seq m) → is_Some (BTreeMap.get seq u).
Proof.
  revert m. induction segs as [|q segs IH]; intros m Hm; cbn [foldl].
  - split; [done|]. by intros seq [?%elem_of_nil|?].
  - destruct (IH (BTreeMap.insert q ∅ m)) as [Hs Hg]; [by apply BTreeMap.insert_sorted|]. split; [done|].
    intros seq Hseq. apply Hg. destruct (decide (seq = q)) as [->|Hne].
    + right. by rewrite BTreeMap.get_insert_eq.
    + rewrite BTreeMap.get_insert_ne by done. rewrite elem_of_cons in Hseq. naive_solver.
Qed.

Lemma force_complete_call w order segs :
  reg_ok (reg w) → NoDup order → Forall u64_ok segs → call_ok w (RForceComplete order segs).
Proof.
  intros Hr Hnd Hsegs. unfold call_ok, reg_step, force_complete_segments_with_unresolved.
  destruct segs as [|seq segs'] eqn:Heq; [eexists _, _; split; [done|]; by apply call_acts_none|]. rewrite <- Heq in *.
  case_bool_decide; [eexists _, _; split; [done|]; by apply call_acts_none|].
  destruct (initial_unresolved segs [] (BTreeMap.sorted_nil)) as [Hu Hk].
  destruct (force_subscribers_spec (reg w) order segs _ Hr Hnd Hu) as (r' & u & -> & Hres); [intros; apply Hk; by left|done|].
  cbn [mbind option_bind]. eexists _, _. split; [done|].
  by eapply (force_call w (RForceComplete order segs) r' order segs).
Qed.

(** Every call succeeds and acts on each subscriber as its operations. *)
Lemma reg_step_ok w o : reg_ok (reg w) → rop_ok o → call_ok w o.
Proof.
  destruct o; intros Hr Ho.
  - by apply register_call.
  - by apply activate_call.
  - by apply deactivate_call.
  - by apply unregister_call.
  - destruct Ho. by apply finalized_call.
  - by apply poll_call.
  - by apply claim_call.
  - by apply ack_call.
  - by apply reject_call.
  - by apply defer_call.
  - by apply drop_call.
  - by apply cleanup_call.
  - by apply force_drop_call.
  - destruct Ho. by apply force_complete_call.
  - by apply flush_call.
Qed.

Lemma handed_out_app key br hs hs' : handed_out key br (hs ++ hs') = handed_out key br hs + handed_out key br hs'.
Proof. apply count_if_app. Qed.

Lemma reg_run_ok w ops :
  reg_ok (reg w) → Forall rop_ok ops →
  ∃ w' hs, reg_run w ops = Some (w', hs) ∧ reg_ok (reg w') ∧
    ∀ key br s, Forall (rop_keeps key (segment_seq br)) ops → subscribers (reg w) !! key = Some s → tracked s br →
      ∃ s', subscribers (reg w') !! key = Some s' ∧ tracked s' br ∧
        handed_out key br hs + to_deliver s' br ≤
          to_deliver s br + to_resolve s br * count_if (rop_releases key br) ops ∧
        to_resolve s' br ≤ to_resolve s br.
Proof.
  intros Hr Hops. revert w Hr. induction Hops as [|o ops Ho Hops IH]; intros w Hr; cbn [reg_run].
  { eexists _, _. split; [done|]. split; [done|]. intros key br s _ Hs Ht. exists s. split_and!; [done..|cbn; lia|lia]. }
  destruct (reg_step_ok w o Hr Ho) as (w1 & hs1 & -> & Hr1 & Hact). cbn [mbind option_bind].
  destruct (IH w1 Hr1) as (w2 & hs2 & -> & Hr2 & Hb2). cbn [mbind option_bind].
  eexists _, _. split; [done|]. split; [done|]. intros key br s [Hk Hks]%Forall_cons Hs Ht.
  destruct (Hact key s Hs) as [Hno|(s1 & Hs1 & Ha)]; [by destruct (Hno (segment_seq br))|].
  destruct (acts_as_bounds s s1 _ _ _ br (proj1 (reg_states _ Hr key s Hs)) Ha Ht Hk) as (Ht1 & Hd1 & Hr1').
  destruct (Hb2 key br s1 Hks Hs1 Ht1) as (s2 & Hs2 & Ht2 & Hd2 & Hr2'). exists s2. rewrite handed_out_app.
  pose proof (count_if_nonneg (rop_releases key br) ops) as Hn. cbn [count_if foldr].
  fold (count_if (rop_releases key br) ops) in *. split_and!; [done..| |lia].
  pose proof (b2z_bound (negb (resolved_in s1 br))) as B. fold (to_resolve s1 br) in B. nia.
Qed.

(** ** Properties *)


(** C37: A bundle whose data cannot be read once is stranded.  When the poll
    selects a bundle and the store fails to read it, the caller gets the error
    and no handle, but the claim stays.  Later calls do not panic, and none of
    them gives the subscriber a handle of the bundle, even if the store can read
    it again, as long as the calls do not unregister the subscriber, do not clean
    up past the segment, and do not defer or drop a handle of the bundle (there
    is none); deactivating and activating the subscriber does not help. *)
Theorem failed_read_strands_bundle w p key s br e ops :
  reg_ok (reg w) → subscribers (reg w) !! key = Some s → active s = true →
  next_pending s = Some (Some br) → read_bundle p br = Err e →
  Forall rop_ok ops → Forall (rop_keeps key (segment_seq br)) ops →
  Forall (λ o, rop_releases key br o = false) ops →
  ∃ r', poll_next_bundle p (reg w) key = Some (r', Err e) ∧
    ∃ w' hs, reg_run (mkWorld r' (dir w)) ops = Some (w', hs) ∧ handed_out key br hs = 0.
Proof.
  intros Hr Hs Hact Hnext Hread Hops Hk Hrel. destruct (reg_states _ Hr key s Hs) as [Hsok Hid].
  destruct (next_pending_spec s Hsok) as (next & Hn & Hspec). rewrite Hnext in Hn. injection Hn as <-.
  destruct Hspec as [(Ht & Hres & Hnc) _]. pose proof (tracked_ref_ok s br Hsok Ht) as Hbr.
  destruct (claim_spec s br Hsok Hbr) as (s' & Hc & Hsok' & Hid' & _ & Hseg & Hcl). rewrite Hres in Hcl.
  unfold poll_next_bundle. rewrite Hs, Hact, Hnext. cbn [negb mbind option_bind]. rewrite Hc. cbn [mbind option_bind].
  unfold read_claimed. rewrite Hread. eexists. split; [done|].
  destruct (reg_run_ok (mkWorld (put_state (reg w) key s') (dir w)) ops) as (w' & hs & Hrun & _ & Hb); [|done|].
  { apply put_state_ok; [done|done|congruence]. }
  exists w', hs. split; [done|]. destruct (Hb key br s' Hk) as (s2 & _ & _ & Hd & _).
  { cbn [reg]. by rewrite subscribers_put, lookup_insert_eq. }
  { unfold tracked, count_of in *. by rewrite Hseg. }
  assert (count_if (rop_releases key br) ops = 0) as E.
  { apply count_if_false. intros o Ho. rewrite Forall_forall in Hrel. by apply Hrel. }
  assert (to_deliver s' br = 0) as E'.
  { unfold to_deliver. rewrite bool_decide_eq_false_2; [done|]. intros (_ & _ & Hn). apply Hn. rewrite Hcl. set_solver. }
  rewrite E, E' in Hd. pose proof (b2z_bound (bool_decide (deliverable s2 br))) as B. fold (to_deliver s2 br) in B.
  pose proof (count_if_nonneg (λ h, bool_decide (h = (key, br))) hs) as Hn. fold (handed_out key br hs) in Hn. lia.
Qed.

End runs.

(** ** Waiting consumers *)

Section waiting.
Context {P Data : Type} {HP : SegmentProvider P Data} {HB : ProviderBounds P Data}.
Context (crc32 : list Z → Z).

(** The call announces a segment. *)
Definition rop_notifies (o : rop (P := P) (Data := Data)) : bool :=
  match o with RFinalized _ _ => true | _ => false end.

Lemma put_notifications r key s : notifications (put_state r key s) = notifications r.
Proof. by destruct r. Qed.

Lemma dirty_notifications r key : notifications (mark_dirty r key) = notifications r.
Proof. by destruct r. Qed.

Lemma flush_all_notifications faults l r d n e :
  notifications (flush_all crc32 faults l r d n e).1.1 = notifications r.
Proof.
  revert r d n e. induction l as [|[key s] l IH]; intros r d n e; cbn [flush_all]; [done|].
  destruct (Progress.write_progress_file _ _ _ _ _ _) as [d' [u|err]]; [by rewrite IH|].
  by rewrite IH, dirty_notifications.
Qed.

Lemma force_notifications order segs : ∀ r u r' u',
  force_subscribers r order segs u = Some (r', u') → notifications r' = notifications r.
Proof.
  induction order as [|key order IH]; intros r u r' u'; cbn [force_subscribers]; [by intros [= <- _]|].
  destruct (subscribers r !! key) as [s|]; [|apply IH].
  destruct (force_segments s segs u false) as [[[s' u1] any]|]; [|done]. cbn [mbind option_bind]. intros H%IH. rewrite H.
  destruct any; by rewrite ?dirty_notifications, put_notifications.
Qed.

Lemma resolution_notifications r key br o r' : record_resolution r key br o = Some r' → notifications r' = notifications r.
Proof.
  unfold record_resolution. destruct (subscribers r !! key) as [s|]; cbn [mbind option_bind].
  - destruct (record_outcome s br o) as [[b s']|]; [|done]. cbn [mbind option_bind]. intros [= <-].
    by rewrite dirty_notifications, put_notifications.
  - intros [= <-]. by rewrite dirty_notifications.
Qed.

Lemma release_notifications r key br : notifications (release_bundle r key br) = notifications r.
Proof. unfold release_bundle. destruct (subscribers r !! key); [|done]. by rewrite put_notifications. Qed.

Lemma poll_notifications (p : P) r key r' res : poll_next_bundle p r key = Some (r', res) → notifications r' = notifications r.
Proof.
  unfold poll_next_bundle. destruct (subscribers r !! key) as [s|]; [|by intros [= <- _]].
  destruct (negb (active s)); [by intros [= <- _]|]. destruct (next_pending s) as [[br|]|]; cbn [mbind option_bind]; [|by intros [= <- _]|done].
  destruct (claim s br) as [[b s']|]; [|done]. cbn [mbind option_bind].
  destruct (read_claimed p key br); intros [= <- _]; by rewrite put_notifications.
Qed.

Lemma claim_notifications (p : P) r key br r' res : claim_bundle p r key br = Some (r', res) → notifications r' = notifications r.
Proof.
  unfold claim_bundle. destruct (subscribers r !! key) as [s|]; [|by intros [= <- _]].
  destruct (is_resolved s br) as [[]|]; cbn [mbind option_bind]; [by intros [= <- _]| |done].
  destruct (is_claimed s br); [by intros [= <- _]|]. destruct (claim s br) as [[b s']|]; [|done]. cbn [mbind option_bind].
  destruct (negb b); intros [= <- _]; by rewrite put_notifications.
Qed.

Lemma step_notifications w o w' hs :
  reg_step crc32 w o = Some (w', hs) → notifications (reg w') = (Nat.b2n (rop_notifies o) + notifications (reg w))%nat.
Proof.
  destruct w as [r d]. destruct o; cbn [reg_step reg dir rop_notifies Nat.b2n plus].
  - intros [= <- _]; cbn [reg]. unfold register. destruct (subscribers r !! key); [done|by rewrite put_notifications].
  - intros [= <- _]; cbn [reg]. unfold activate. destruct (subscribers r !! key) as [s|]; [|done]. destruct (active s); [done|].
    destruct (add_available p s _) as [s' []]; apply put_notifications.
  - intros [= <- _]; cbn [reg]. unfold deactivate. destruct (subscribers r !! key); [apply put_notifications|done].
  - unfold unregister. destruct (subscribers r !! key); [|by intros [= <- _]].
    destruct (Progress.delete_progress_file _ _ _). intros [= <- _]; cbn [reg]. by destruct r.
  - intros [= <- _]; cbn [reg]. by destruct r.
  - destruct (poll_next_bundle p r key) as [[r' res]|] eqn:E; [|done]. intros [= <- _]; cbn [reg]. by apply poll_notifications in E.
  - destruct (claim_bundle p r key br) as [[r' res]|] eqn:E; [|done]. intros [= <- _]; cbn [reg]. by apply claim_notifications in E.
  - unfold ack. destruct (on_resolved _ _ _ _) as [r'|] eqn:E; [|done]. intros [= <- _]; cbn [reg]. by apply resolution_notifications in E.
  - unfold reject. destruct (on_resolved _ _ _ _) as [r'|] eqn:E; [|done]. intros [= <- _]; cbn [reg]. by apply resolution_notifications in E.
  - intros [= <- _]; cbn [reg]. apply release_notifications.
  - intros [= <- _]; cbn [reg]. cbn. unfold drop_handle. destruct (handle_resolved h); [done|apply release_notifications].
  - intros [= <- _]; cbn [reg]. by destruct r.
  - unfold force_drop_oldest_pending_segments_with_unresolved. destruct (scan_readers _ _ _) as [pending readers].
    destruct (List.filter _ _); [by intros [= <- _]|]. destruct (force_subscribers _ _ _ _) as [[r' u]|] eqn:E; [|done].
    intros [= <- _]; cbn [reg]. by apply force_notifications in E.
  - unfold force_complete_segments_with_unresolved. destruct segs; [by intros [= <- _]|]. case_bool_decide; [by intros [= <- _]|].
    destruct (force_subscribers _ _ _ _) as [[r' u]|] eqn:E; [|done]. intros [= <- _]; cbn [reg]. by apply force_notifications in E.
  - pose proof (flush_all_notifications faults) as H. unfold flush_progress. destruct order; [intros [= <- _]; by destruct r|].
    set (l := omap _ _). specialize (H l (r <| dirty_subscribers := ∅ |>) d 0 None). destruct (flush_all _ _ _ _ _ _ _) as [[r' d'] e].
    intros [= <- _]; cbn [reg]. cbn in *. rewrite H. by destruct r.
Qed.

(** Only finalizations notify. *)
Lemma run_notifications ops : ∀ w w' hs,
  reg_run crc32 w ops = Some (w', hs) →
  notifications (reg w') = (length (List.filter rop_notifies ops) + notifications (reg w))%nat.
Proof.
  induction ops as [|o ops IH]; intros w w' hs; cbn [reg_run List.filter]; [by intros [= <- _]|].
  destruct (reg_step crc32 w o) as [[w1 hs1]|] eqn:E; [|done]. cbn [mbind option_bind].
  destruct (reg_run crc32 w1 ops) as [[w2 hs2]|] eqn:E2; [|done]. intros [= <- _].
  apply step_notifications in E. apply IH in E2. rewrite E2, E. destruct (rop_notifies o); cbn; lia.
Qed.

(** The poll claims [br] and returns what reading it gives. *)
Definition poll_takes (p : P) (r : Registry) (key : SubscriberId) (br : BundleRef) : Prop :=
  ∃ r', poll_next_bundle p r key =
    Some (r', match read_claimed p key br with Ok h => Ok (Some h) | Err e => Err e end).

(** A round that waits has seen no deliverable bundle. *)
Lemma waiting_round p deadline cancelled now r key r1 n :
  reg_ok r → next_bundle_round (Data := Data) p deadline cancelled now r key = Some (r1, Waiting n) →
  r1 = r ∧ n = notifications r ∧
  ∃ s, subscribers r !! key = Some s ∧ active s = true ∧ ∀ br, ¬ deliverable s br.
Proof.
  intros Hr. unfold next_bundle_round, poll_next_bundle. destruct cancelled as [[|]|]; [done|..];
    (destruct (subscribers r !! key) as [s|] eqn:Hs; [|done]; destruct (active s) eqn:Hact; [|done];
     destruct (next_pending_spec s (proj1 (reg_states _ Hr key s Hs))) as (next & -> & Hnext);
     cbn [negb mbind option_bind]; destruct next as [br|];
     [destruct (claim s br) as [[? s']|]; cbn [mbind option_bind]; [|done]; by destruct (read_claimed p key br)|];
     destruct deadline as [dl|]; [destruct (dl <=? now); [done|]|]; intros [= <- <-]; split_and!; by eauto).
Qed.

Lemma add_segment_deliverable s seq count br :
  BTreeMap.get seq (segments s) = None →
  deliverable (add_segment s seq count) br ↔
  deliverable s br ∨ segment_seq br = seq ∧ 0 ≤ bundle_index br < count ∧ br ∉ claimed s.
Proof.
  intros Hnew. unfold deliverable. rewrite add_segment_resolved, !tracked_get, add_segment_get.
  replace (claimed (add_segment s seq count)) with (claimed s) by (by destruct s).
  unfold resolved_in. destruct (BTreeMap.get (segment_seq br) (segments s)) as [q|] eqn:Hq.
  - split; [tauto|]. intros [?|(Heq & _)]; [done|]. congruence.
  - destruct (Z.eqb_spec (segment_seq br) seq) as [->|]; [|naive_solver]. split.
    + intros ((q & [= <-] & Hi) & _ & ?). by right.
    + intros [((? & [=] & _) & _)|(_ & Hi & ?)]. split; [by eexists|done].
Qed.

(** After a segment was added a poll takes a bundle, the first of the segment if
    there was no other. *)
Lemma poll_new_segment p r key s seq count :
  state_ok s → active s = true → u64_ok seq → u32_ok count → 0 < count →
  BTreeMap.get seq (segments s) = None → mkBundleRef seq 0 ∉ claimed s →
  subscribers r !! key = Some (add_segment s seq count) →
  ∃ br, poll_takes p r key br ∧ (deliverable s br ∨ br = mkBundleRef seq 0).
Proof.
  intros Hs Hact Hseq Hcount Hpos Hnew Hclaim Hr. unfold poll_takes, poll_next_bundle. rewrite Hr.
  replace (active (add_segment s seq count)) with (active s) by (by destruct s). rewrite Hact. cbn [negb].
  pose proof (add_segment_ok s seq count Hs Hseq Hcount) as Hs'.
  assert (deliverable (add_segment s seq count) (mkBundleRef seq 0)) as Hfirst.
  { apply add_segment_deliverable; [done|]. right. split; [done|]. split; [cbn; lia|done]. }
  destruct (next_pending_spec _ Hs') as (next & -> & Hnext). cbn [mbind option_bind].
  destruct next as [br|]; [|by destruct (Hnext _ Hfirst)]. destruct Hnext as [Hd Hmin].
  destruct (claim_spec _ br Hs') as (s2 & -> & _); [by apply (tracked_ref_ok _ _ Hs'), Hd|].
  exists br. split; [cbn [mbind option_bind]; destruct (read_claimed p key br); by eexists|].
  apply add_segment_deliverable in Hd as [Hd|(Heq & Hi & _)]; [by left| |done]. right.
  specialize (Hmin _ Hfirst). rewrite bundle_lt_spec in Hmin. destruct br as [q i]. cbn in *. subst q.
  f_equal. destruct (decide (i = 0)); [done|]. destruct Hmin. right. split; [done|lia].
Qed.


End waiting.

(** ** A concrete store

    Segments 3 and 5; bundles of segment 5 cannot be read when the flag is
    set. *)
#[global] Instance example_provider : SegmentProvider bool Z := {|
  provider_bundle_count p seq := if seq =? 3 then Ok 2 else if seq =? 5 then Ok 70 else Err (SegmentNotFound seq);
  bundle_item_count p br := Ok 1;
  read_bundle p br := if p && (segment_seq br =? 5) then Err (SegmentIo EmptyString OtherIo) else Ok (bundle_index br);
  available_segments p := [3; 5];
|}.

#[global] Instance example_bounds : ProviderBounds bool Z.
Proof.
  split.
  - intros p seq Hin. apply elem_of_cons in Hin as [Heq|Heq%list_elem_of_singleton]; by subst.
  - intros p seq n. cbn. repeat case_match; intros [= <-]; done.
Qed.

Definition example_world : World := mkWorld example_registry ∅.

Definition example_handle : BundleHandle Z := mkHandle (mkBundleRef 3 1) "exporter"%string 1 false 1.

Lemma example_subscriber : subscribers (reg example_world) !! "exporter"%string = Some example_state.
Proof. reflexivity. Qed.


Lemma failed_read_strands_bundle_witness :
  ∃ r', poll_next_bundle true example_registry "exporter" = Some (r', Err (SegmentIo EmptyString OtherIo)) ∧
    ∃ w' hs, reg_run sum32 (mkWorld r' ∅) [RPoll false "exporter"%string] = Some (w', hs) ∧
      handed_out "exporter" (mkBundleRef 5 0) hs = 0.
Proof.
  refine (failed_read_strands_bundle sum32 example_world true "exporter" example_state (mkBundleRef 5 0)
    (SegmentIo EmptyString OtherIo) [RPoll false "exporter"%string] _ _ _ _ _ _ _ _).
  - apply example_registry_ok.
  - apply example_subscriber.
  - reflexivity.
  - vm_compute. reflexivity.
  - reflexivity.
  - by apply Forall_singleton.
  - by apply Forall_singleton.
  - by apply Forall_singleton.
Defined.

(** The subscriber has one bundle, which is claimed. *)
Definition waiting_registry : Registry :=
  mkRegistry {["exporter"%string := mkState "exporter" [(3, mkProgress 2 [1] 1)] {[mkBundleRef 3 1]} true]} ∅ None 0.

Lemma waiting_registry_ok : reg_ok waiting_registry.
Proof.
  split. intros key s Hs.
  change (({["exporter"%string := mkState "exporter" [(3, mkProgress 2 [1] 1)] {[mkBundleRef 3 1]} true]}
    : gmap SubscriberId State) !! key = Some s) in Hs.
  apply lookup_singleton_Some in Hs as [<- <-]. split; [|done]. split.
  - by repeat constructor.
  - intros seq p Hp. cbn in Hp. destruct (Z.eqb_spec seq 3) as [->|]; [|done]. injection Hp as <-.
    split; [done|]. apply example_progress_ok. by left.
  - intros br Hbr. change (br ∈@{gset BundleRef} {[mkBundleRef 3 1]}) in Hbr.
    apply elem_of_singleton in Hbr. by subst br.
Qed.


End RegistryRuns.
