(* ===== verification/Recovery.v ===== *)
(** * Restart

    Flushing the progress of the subscribers and opening the registry again:
    what [flush_progress] writes and what [open] restores from it.  The
    definitions are those of [Registry]. *)
From S2P Require Import Prelude Bytes Files BTreeMap SubscriberTypes Progress SubscriberState Registry RegistryRuns.

Import SubscriberTypes.
Local Open Scope Z_scope.

Module Recovery.
Import SubscriberState.
Import Registry.
Import RegistryRuns.

(** ** Restoring one subscriber *)

(** Progress is determined by its size and its bits. *)
Lemma progress_ext p p' :
  progress_ok p → progress_ok p' → bundle_count p' = bundle_count p →
  (∀ i, 0 ≤ i < bundle_count p → bitmap_get (resolved p') i = bitmap_get (resolved p) i) → p' = p.
Proof.
  intros [_ Hb Hc] [_ Hb' Hc'] Hn Hbits.
  assert (resolved p' = resolved p) as Hr.
  { apply (bitmap_ext (bundle_count p)); [by rewrite <- Hn|done|done]. }
  destruct p, p'. cbn in *. subst. done.
Qed.

(** Restoring bits never panics, and changes only the entry's segment. *)
Lemma restore_bits_ok e idxs s :
  state_ok s → Progress.entry_ok e → Forall u32_ok idxs →
  ∃ s', restore_bits s e idxs = Some s' ∧ state_ok s' ∧ id s' = id s ∧ active s' = active s ∧
    (claimed s = ∅ → claimed s' = ∅) ∧ (∀ q, count_of s' q = count_of s q) ∧
    (∀ br, ref_ok br → resolved_in s' br = resolved_in s br ||
      (bool_decide (segment_seq br = Progress.seg_seq e ∧ bundle_index br ∈ idxs ∧ tracked s br) &&
       (bool_decide (bundle_index br < Progress.bundle_count e) &&
        bitmap_get (Progress.acked_bitmap e) (bundle_index br)))).
Proof.
  intros Hs He Hidx. revert s Hs. induction Hidx as [|i idxs Hi Hidx IH]; intros s Hs; cbn [restore_bits].
  { exists s. split_and!; try done. intros br _. rewrite bool_decide_eq_false_2; [by rewrite orb_false_r|].
    intros (_ & []%elem_of_nil & _). }
  rewrite Progress.is_acked_spec by (apply He || apply Hi). cbn [mbind option_bind].
  set (bit := bool_decide (i < Progress.bundle_count e) && bitmap_get (Progress.acked_bitmap e) i).
  assert (∀ s1 br, (∀ q, count_of s1 q = count_of s q) → (tracked s1 br ↔ tracked s br)) as Htr.
  { intros s1 br Hc. unfold tracked. by rewrite Hc. }
  destruct bit eqn:Hbit.
  - destruct (record_outcome_spec s (mkBundleRef (Progress.seg_seq e) i) Acked Hs) as (s1 & -> & Hs1 & Hid1 & Ha1 & Hc1 & Hcnt1 & Hres1).
    { split; [apply He|done]. }
    cbn [mbind option_bind]. destruct (IH s1 Hs1) as (s2 & Hr & Hs2 & Hid2 & Ha2 & Hc2 & Hcnt2 & Hres2). rewrite Hr.
    exists s2. split_and!; [done|done|congruence|congruence| |intros; by rewrite Hcnt2|].
    + intros Hemp. apply Hc2. rewrite Hc1, Hemp. set_solver.
    + intros br Hbr. rewrite Hres2, Hres1 by done. rewrite <- orb_assoc. f_equal.
      pose proof (Htr s1 br Hcnt1) as Ht. destruct (decide (br = mkBundleRef (Progress.seg_seq e) i)) as [Heq|Hne].
      * rewrite (bool_decide_eq_true_2 (br = _)) by done. rewrite <- Heq. replace (bundle_index br) with i by (by rewrite Heq).
        fold bit. rewrite Hbit, !andb_true_r.
        assert (i ∈ i :: idxs) as Hin by left. assert (segment_seq br = Progress.seg_seq e) as Hseq by (by rewrite Heq).
        destruct (decide (tracked s br)) as [Hb|Hb].
        -- rewrite (bool_decide_eq_true_2 (tracked s br)) by done. cbn [orb]. symmetry. by apply bool_decide_eq_true_2.
        -- rewrite !bool_decide_eq_false_2 by tauto. done.
      * rewrite (bool_decide_eq_false_2 (br = _)), andb_false_r by done. cbn [orb]. f_equal. apply bool_decide_ext.
        rewrite elem_of_cons. split; [tauto|]. intros (Hseq & [Hidx'|Hin] & Hb); [|tauto].
        destruct Hne. destruct br. cbn in *. by subst.
  - destruct (IH s Hs) as (s2 & Hr & Hs2 & Hid2 & Ha2 & Hc2 & Hcnt2 & Hres2). exists s2. split_and!; try done.
    intros br Hbr. rewrite Hres2 by done. f_equal.
    destruct (decide (bundle_index br = i)) as [->|Hne].
    + fold bit. rewrite Hbit, !andb_false_r. done.
    + f_equal. apply bool_decide_ext. rewrite elem_of_cons. naive_solver.
Qed.

Lemma seqZ_u32 n : u32_ok n → Forall u32_ok (seqZ 0 n).
Proof. intros [? ?]. apply Forall_forall. intros i Hi%elem_of_seqZ. unfold u32_ok. lia. Qed.

(** Restoring entries never panics. *)
Lemma restore_entries_ok es s :
  state_ok s → Forall Progress.entry_ok es →
  ∃ s', restore_entries s es = Some s' ∧ state_ok s' ∧ id s' = id s.
Proof.
  intros Hs Hes. revert s Hs. induction Hes as [|e es He Hes IH]; intros s Hs; cbn [restore_entries]; [by exists s|].
  destruct (restore_bits_ok e (seqZ 0 (Progress.bundle_count e)) (add_segment s (Progress.seg_seq e) (Progress.bundle_count e)))
    as (s1 & Hr & Hs1 & Hid1 & _); [apply add_segment_ok; [done|apply He..]|done|apply seqZ_u32, He|].
  rewrite Hr. cbn [mbind option_bind]. destruct (IH s1 Hs1) as (s2 & Hr2 & Hs2 & Hid2). exists s2. split_and!; [done..|].
  rewrite Hid2, Hid1. by destruct s.
Qed.

(** A segment is determined by its count and its resolved bundles. *)
Lemma get_ext s s' q :
  state_ok s → state_ok s' → count_of s' q = count_of s q →
  (∀ i, ref_ok (mkBundleRef q i) → resolved_in s' (mkBundleRef q i) = resolved_in s (mkBundleRef q i)) →
  BTreeMap.get q (segments s') = BTreeMap.get q (segments s).
Proof.
  intros Hs Hs' Hcnt Hbits. unfold count_of, resolved_in in *. cbn in *.
  destruct (BTreeMap.get q (segments s)) as [p|] eqn:Hp, (BTreeMap.get q (segments s')) as [p'|] eqn:Hp'; try done.
  destruct (state_segments s Hs q p Hp) as [Hq Hpok]. destruct (state_segments s' Hs' q p' Hp') as [_ Hpok'].
  injection Hcnt as Hcnt. f_equal. apply progress_ext; [done..|]. intros i Hi. apply Hbits.
  split; [done|]. pose proof (progress_count p Hpok). unfold u32_ok in *. cbn. lia.
Qed.

(** The entry that [to_progress_entries] writes for a segment. *)
Definition entry_of (kv : Z * SegmentProgress) : Progress.SegmentProgressEntry :=
  Progress.from_bitmap kv.1 (bundle_count kv.2) (resolved kv.2).

(** A segment that a progress file can hold. *)
Definition storable (kv : Z * SegmentProgress) : Prop :=
  u64_ok kv.1 ∧ progress_ok kv.2 ∧ Progress.words_needed (bundle_count kv.2) ≤ Progress.MAX_BITMAP_WORDS.

Lemma entry_of_ok kv : storable kv → Progress.entry_ok (entry_of kv).
Proof.
  intros (Hq & [Hc [Hlen Hw _] _] & Hsmall). split; cbn; try done.
Qed.

(** One entry restores its segment and nothing else. *)
Lemma restore_entry_exact s q p :
  state_ok s → claimed s = ∅ → storable (q, p) → BTreeMap.get q (segments s) = None →
  ∃ s', restore_bits (add_segment s q (bundle_count p)) (entry_of (q, p)) (seqZ 0 (bundle_count p)) = Some s' ∧
    state_ok s' ∧ id s' = id s ∧ active s' = active s ∧ claimed s' = ∅ ∧
    ∀ q', BTreeMap.get q' (segments s') = if q' =? q then Some p else BTreeMap.get q' (segments s).
Proof.
  intros Hs Hc Hst Hnone. pose proof Hst as (Hq & Hp & _). set (s1 := add_segment s q (bundle_count p)).
  assert (state_ok s1) as Hs1 by (apply add_segment_ok; [done|done|apply Hp]).
  destruct (restore_bits_ok (entry_of (q, p)) (seqZ 0 (bundle_count p)) s1 Hs1) as (s' & Hr & Hs' & Hid & Ha & Hc' & Hcnt & Hres);
    [by apply entry_of_ok|apply seqZ_u32, Hp|].
  exists s'. split; [done|]. split_and!; [done|rewrite Hid; by destruct s|rewrite Ha; by destruct s|apply Hc'; by destruct s|].
  intros q'. destruct (Z.eqb_spec q' q) as [->|Hne].
  - assert (BTreeMap.get q (segments s1) = Some (progress_new (bundle_count p))) as Hg1.
    { unfold s1. by rewrite add_segment_get, Hnone, Z.eqb_refl. }
    specialize (Hcnt q). unfold count_of in Hcnt. rewrite Hg1 in Hcnt. apply fmap_Some in Hcnt as (p' & Hg' & Hn).
    cbn in Hn. rewrite Hg'. f_equal. destruct (state_segments s' Hs' q p' Hg') as [_ Hp'].
    apply progress_ext; [done..|congruence|]. intros i Hi. specialize (Hres (mkBundleRef q i)).
    rewrite (resolved_in_progress s' (mkBundleRef q i) p' Hg'), (resolved_in_progress s1 (mkBundleRef q i) _ Hg1) in Hres.
    cbn [segment_seq bundle_index resolved progress_new] in Hres. rewrite bitmap_new_get in Hres. rewrite Hres.
    + cbn. rewrite (bool_decide_eq_true_2 (i < _)) by lia. rewrite bool_decide_eq_true_2; [done|].
      split_and!; [done|apply elem_of_seqZ; lia|]. apply tracked_get. eexists. split; [exact Hg1|done].
    + pose proof (progress_count p Hp). unfold ref_ok, u32_ok in *. cbn. split; [done|lia].
  - rewrite (get_ext s1 s') by (try done; intros i Hi; rewrite Hres by done;
      rewrite bool_decide_eq_false_2 by (cbn; tauto); by rewrite orb_false_r).
    unfold s1. rewrite add_segment_get. rewrite (proj2 (Z.eqb_neq q' q)) by done. by destruct (BTreeMap.get q' (segments s)).
Qed.

Lemma restore_entries_exact segs s :
  Forall storable segs → NoDup segs.*1 → state_ok s → claimed s = ∅ →
  (∀ q, q ∈ segs.*1 → BTreeMap.get q (segments s) = None) →
  ∃ s', restore_entries s (entry_of <$> segs) = Some s' ∧ state_ok s' ∧ id s' = id s ∧ active s' = active s ∧
    claimed s' = ∅ ∧
    ∀ q, BTreeMap.get q (segments s') =
      match BTreeMap.get q segs with Some p => Some p | None => BTreeMap.get q (segments s) end.
Proof.
  intros Hst. revert s. induction Hst as [|[q p] segs Hqp Hst IH]; intros s Hnd Hs Hc Hnone.
  { by exists s. }
  rewrite fmap_cons in Hnd. apply NoDup_cons in Hnd as [Hq Hnd]. rewrite fmap_cons in Hnone. cbn [fst] in *.
  destruct (restore_entry_exact s q p Hs Hc Hqp) as (s1 & Hr1 & Hs1 & Hid1 & Ha1 & Hc1 & Hg1); [apply Hnone; left|].
  destruct (IH s1 Hnd Hs1 Hc1) as (s2 & Hr2 & Hs2 & Hid2 & Ha2 & Hc2 & Hg2).
  { intros q' Hq'. rewrite Hg1. rewrite (proj2 (Z.eqb_neq q' q)) by congruence. apply Hnone. by right. }
  exists s2. rewrite fmap_cons. cbn [restore_entries]. change (Progress.seg_seq (entry_of (q, p))) with q.
  change (Progress.bundle_count (entry_of (q, p))) with (bundle_count p). rewrite Hr1. cbn [mbind option_bind].
  split_and!; [done|done|congruence|congruence|done|]. intros q'. rewrite Hg2, Hg1. cbn [BTreeMap.get].
  destruct (Z.eqb_spec q' q) as [->|]; [|done]. by rewrite (proj2 (BTreeMap.get_None q segs) Hq).
Qed.

(** Segments of the store that the file does not mention. *)
Lemma restore_available_spec s oldest highest available :
  state_ok s → Forall (λ kv, u64_ok kv.1 ∧ u32_ok kv.2) available →
  let s' := restore_available s oldest highest available in
  state_ok s' ∧ id s' = id s ∧ active s' = active s ∧ claimed s' = claimed s ∧
  ∀ q, BTreeMap.get q (segments s') =
    match BTreeMap.get q (segments s) with
    | Some p => Some p
    | None =>
        match BTreeMap.get q available with
        | Some n => if completed_before_snapshot oldest highest q then None else Some (progress_new n)
        | None => None
        end
    end.
Proof.
  intros Hs Hav. revert s Hs. induction Hav as [|[q n] available [Hq Hn] Hav IH]; intros s Hs; cbn [restore_available].
  { split_and!; try done. intros q. by destruct (BTreeMap.get q (segments s)). }
  set (s1 := if BTreeMap.contains_key q (segments s) then s else _). cbn zeta.
  assert (state_ok s1 ∧ id s1 = id s ∧ active s1 = active s ∧ claimed s1 = claimed s ∧
    ∀ q', BTreeMap.get q' (segments s1) = match BTreeMap.get q' (segments s) with
      | Some p => Some p
      | None => if (q' =? q) && negb (completed_before_snapshot oldest highest q) then Some (progress_new n) else None
      end) as (Hs1 & Hid1 & Ha1 & Hc1 & Hg1).
  { unfold s1, BTreeMap.contains_key. destruct (BTreeMap.get q (segments s)) as [p|] eqn:Hp.
    - split_and!; try done. intros q'. destruct (Z.eqb_spec q' q) as [->|]; [by rewrite Hp|].
      by destruct (BTreeMap.get q' (segments s)).
    - destruct (completed_before_snapshot oldest highest q).
      + split_and!; try done. intros q'. rewrite andb_false_r. by destruct (BTreeMap.get q' (segments s)).
      + split_and!; [by apply add_segment_ok|by destruct s..|]. intros q'. rewrite add_segment_get, andb_true_r. done. }
  destruct (IH s1 Hs1) as (Hs2 & Hid2 & Ha2 & Hc2 & Hg2). split_and!; [done|congruence..|].
  intros q'. rewrite Hg2, Hg1. cbn [BTreeMap.get]. destruct (BTreeMap.get q' (segments s)) as [p|]; [done|].
  destruct (Z.eqb_spec q' q) as [->|]; cbn [andb]; [|done].
  destruct (completed_before_snapshot oldest highest q) eqn:Hcb; cbn [negb]; [|done].
  by destruct (BTreeMap.get q available).
Qed.

(** ** Files *)

(** [a] is not above [b]. *)
Definition le_option (a b : option Z) : Prop :=
  match a with None => True | Some x => ∃ y, b = Some y ∧ x ≤ y end.

Lemma le_option_max_l a b : le_option a (max_option a b).
Proof. destruct a, b; cbn; try done; eexists; split; try done; lia. Qed.

Lemma le_option_max_r a b : le_option b (max_option a b).
Proof. destruct a, b; cbn; try done; eexists; split; try done; lia. Qed.

Lemma le_option_trans a b c : le_option a b → le_option b c → le_option a c.
Proof.
  destruct a as [x|]; [|done]. intros (y & -> & Hxy) (z & -> & Hyz). cbn. exists z. split; [done|lia].
Qed.

Lemma highest_persisted_ge es e : e ∈ es → le_option (Some (Progress.seg_seq e)) (highest_persisted es).
Proof.
  induction es as [|e' es IH]; [by intros ?%elem_of_nil|]. unfold highest_persisted. cbn [foldr].
  intros [->|Hin]%elem_of_cons; [apply le_option_max_l|]. eapply le_option_trans; [by apply IH|apply le_option_max_r].
Qed.

Section restart.
Context {P Data : Type} {HP : SegmentProvider P Data} {HB : ProviderBounds P Data}.
Context (crc32 : list Z → Z) (crc32_u32 : ∀ l, u32_ok (crc32 l)).

(** Every progress file that the reader accepts has well-formed entries. *)
Definition dir_ok (d : Dir) : Prop :=
  ∀ key data oldest es, valid_id key → d !! Progress.progress_file_path key = Some data →
    Progress.parse_progress crc32 (Progress.progress_file_path key) data = Ok (oldest, es) →
    Forall Progress.entry_ok es.

(** A state that fits a progress file. *)
Definition state_storable (s : State) : Prop :=
  state_ok s ∧ zlen (segments s) ≤ Progress.MAX_ENTRY_COUNT ∧ Forall storable (segments s).

Definition header_boundary (s : State) : Z :=
  match oldest_incomplete_segment s with Some seq => seq | None => 0 end.

(** What the registry writes for a subscriber. *)
Definition state_content (s : State) : list Z :=
  Progress.progress_content crc32 (header_boundary s) (to_progress_entries s).

Lemma header_boundary_u64 s : state_ok s → u64_ok (header_boundary s).
Proof.
  intros Hs. unfold header_boundary. pose proof (oldest_incomplete_spec s Hs) as Hold.
  destruct (oldest_incomplete_segment s) as [q|]; [|done]. destruct Hold as [Hq _].
  apply pending_in_get in Hq as (p & Hp & _); [|done]. by apply (state_segments s Hs _ _ Hp).
Qed.

Lemma state_content_parse s path :
  state_storable s →
  Progress.parse_progress crc32 path (state_content s) = Ok (header_boundary s, entry_of <$> segments s).
Proof.
  intros (Hs & Hlen & Hst). unfold state_content, to_progress_entries. fold entry_of.
  apply Progress.progress_content_roundtrip; [done|by apply header_boundary_u64| |].
  - unfold zlen in *. by rewrite length_fmap.
  - apply Forall_fmap. eapply Forall_impl; [exact Hst|]. intros kv. apply entry_of_ok.
Qed.

(** The files after flushing the listed subscribers. *)
Lemma flush_all_lookup faults l r d n e key :
  Forall (λ kv, valid_id kv.1) l → NoDup l.*1 → valid_id key →
  (flush_all crc32 faults l r d n e).1.2 !! Progress.progress_file_path key =
  match (list_to_map l : gmap SubscriberId State) !! key with
  | Some s => if decide (faults key = NoFault) then Some (state_content s)
              else d !! Progress.progress_file_path key
  | None => d !! Progress.progress_file_path key
  end.
Proof.
  intros Hv Hnd Hkey. revert r d n e. induction Hv as [|[k s] l Hk Hl IH]; intros r d n e; cbn [flush_all].
  { cbn. done. }
  rewrite fmap_cons in Hnd. apply NoDup_cons in Hnd as [Hkl Hnd]. specialize (IH Hnd).
  fold (header_boundary s). cbn [list_to_map foldr].
  pose proof (Progress.write_progress_file_lookup crc32 (faults k) d k (header_boundary s) (to_progress_entries s) key Hkey) as Hw.
  pose proof (Progress.write_progress_file_ok crc32 (faults k) d k (header_boundary s) (to_progress_entries s)) as Hok.
  cbn zeta in Hw. fold (state_content s) in Hw.
  destruct (Progress.write_progress_file crc32 (faults k) d k _ _) as [d' [[]|err]]; cbn [fst snd is_ok andb] in *.
  - rewrite IH, Hw. cbn [list_to_map foldr fst snd]. destruct (decide (key = k)) as [->|Hne].
    + rewrite lookup_insert_eq, bool_decide_eq_true_2 by done.
      rewrite (not_elem_of_list_to_map_1 l k) by done. by rewrite decide_True by (by apply Hok).
    + rewrite lookup_insert_ne, bool_decide_eq_false_2 by congruence. done.
  - rewrite IH, Hw. cbn [list_to_map foldr fst snd]. destruct (decide (key = k)) as [->|Hne].
    + rewrite lookup_insert_eq. rewrite (not_elem_of_list_to_map_1 l k) by done.
      rewrite decide_False by (intros ?%Hok; done). done.
    + rewrite lookup_insert_ne by congruence. done.
Qed.

(** ** Opening *)

Definition available_ok (available : list (Z * Z)) : Prop := Forall (λ kv, u64_ok kv.1 ∧ u32_ok kv.2) available.

Lemma collect_counts_ok p seqs available :
  (∀ seq, seq ∈ seqs → u64_ok seq) → collect_counts p seqs = Ok available → available_ok available.
Proof.
  revert available. induction seqs as [|seq seqs IH]; intros available Hseqs; cbn [collect_counts].
  - intros [= <-]. constructor.
  - destruct (provider_bundle_count p seq) as [n|] eqn:Hn; [|done].
    destruct (collect_counts p seqs) as [l|] eqn:Hl; [|done]. intros [= <-]. constructor.
    + split; [apply Hseqs; left|by eapply bundle_count_u32].
    + apply IH; [|done]. intros. apply Hseqs. by right.
Qed.

Lemma restore_subscriber_ok d available key :
  dir_ok d → available_ok available → valid_id key →
  ∃ o, restore_subscriber crc32 d available key = Some o ∧
    ∀ s floor, o = Some (s, floor) → state_ok s ∧ id s = key.
Proof.
  intros Hd Hav Hkey. unfold restore_subscriber, Progress.read_progress_file.
  destruct (d !! Progress.progress_file_path key) as [data|] eqn:Hdata; [|by exists None].
  destruct (Progress.parse_progress _ _ _) as [[oldest es]|] eqn:Hparse; [|by exists None].
  destruct (restore_entries_ok es (state_new key) (state_new_ok key) (Hd _ _ _ _ Hkey Hdata Hparse)) as (s & Hr & Hs & Hid).
  rewrite Hr. cbn [mbind option_bind]. eexists. split; [done|]. intros s' floor [= <- _].
  destruct (restore_available_spec s oldest (highest_persisted es) available Hs Hav) as (? & Hid' & _).
  split; [done|]. by rewrite Hid', Hid.
Qed.

(** The state that a restart reconstructs from the file of [s]. *)
Definition restored_from (s s2 : State) (available : list (Z * Z)) : Prop :=
  claimed s2 = ∅ ∧ active s2 = false ∧
  ∀ q, BTreeMap.get q (segments s2) =
    match BTreeMap.get q (segments s) with
    | Some p => Some p
    | None =>
        match BTreeMap.get q available with
        | Some n =>
            if completed_before_snapshot (header_boundary s) (highest_persisted (to_progress_entries s)) q
            then None else Some (progress_new n)
        | None => None
        end
    end.

Lemma restore_subscriber_exact d available key s :
  available_ok available → state_storable s →
  d !! Progress.progress_file_path key = Some (state_content s) →
  ∃ s2 floor, restore_subscriber crc32 d available key = Some (Some (s2, floor)) ∧ restored_from s s2 available ∧
    ∀ q, is_Some (BTreeMap.get q (segments s)) → le_option (Some q) floor.
Proof.
  intros Hav Hst Hfile. pose proof Hst as (Hs & _ & Hseg). unfold restore_subscriber, Progress.read_progress_file.
  rewrite Hfile, state_content_parse by done.
  destruct (restore_entries_exact (segments s) (state_new key) Hseg) as (s1 & Hr & Hs1 & _ & Ha & Hc & Hg);
    [|apply state_new_ok|done|done|].
  { pose proof (state_sorted s Hs) as Hsort. unfold BTreeMap.sorted in Hsort. clear -Hsort.
    induction Hsort as [|x l _ IH Hall]; constructor; [|done]. intros Hin. rewrite Forall_forall in Hall.
    specialize (Hall x Hin). lia. }
  rewrite Hr. cbn [mbind option_bind]. eexists _, _. split; [done|]. split.
  - destruct (restore_available_spec s1 (header_boundary s) (highest_persisted (entry_of <$> segments s)) available Hs1 Hav)
      as (_ & _ & Ha' & Hc' & Hg'). split_and!; [congruence|by rewrite Ha', Ha|]. intros q. rewrite Hg', Hg. cbn [segments state_new BTreeMap.get].
    unfold to_progress_entries. fold entry_of. by destruct (BTreeMap.get q (segments s)).
  - intros q [p Hp]. eapply le_option_trans; [|apply le_option_max_l].
    apply (highest_persisted_ge _ (entry_of (q, p))). apply list_elem_of_fmap. exists (q, p). split; [done|].
    by apply BTreeMap.get_elem.
Qed.

(** The registry that the loop over the files builds. *)
Lemma restore_all_spec d available ids r :
  dir_ok d → available_ok available → Forall valid_id ids → reg_ok r →
  ∃ r', restore_all crc32 d available ids r = Some r' ∧ reg_ok r' ∧
    le_option (highest_progress_segment r) (highest_progress_segment r') ∧
    (∀ key, key ∈ ids → ∀ s floor, restore_subscriber crc32 d available key = Some (Some (s, floor)) →
      subscribers r' !! key = Some s ∧ le_option floor (highest_progress_segment r')) ∧
    (∀ key, key ∉ ids → subscribers r' !! key = subscribers r !! key).
Proof.
  intros Hd Hav Hids. revert r. induction Hids as [|key ids Hkey Hids IH]; intros r Hr; cbn [restore_all].
  { exists r. split_and!; try done; [by destruct (highest_progress_segment r); cbn; [eexists|]|].
    by intros key ?%elem_of_nil. }
  destruct (restore_subscriber_ok d available key Hd Hav Hkey) as (o & Ho & Hok). rewrite Ho. cbn [mbind option_bind].
  destruct o as [[s floor]|].
  - set (r1 := (put_state r key s) <| highest_progress_segment ::= λ h, max_option h floor |>).
    assert (subscribers r1 = <[key := s]> (subscribers r) ∧
      highest_progress_segment r1 = max_option (highest_progress_segment r) floor) as [Hsub Hhigh] by (by destruct r).
    destruct (Hok s floor eq_refl) as [Hs Hid].
    destruct (IH r1) as (r' & Hr' & Hok' & Hle & Hin & Hout).
    { apply (reg_ok_subscribers (put_state r key s)); [by rewrite Hsub, subscribers_put|by apply put_state_ok]. }
    exists r'. rewrite Hhigh in Hle. split_and!; [done|done|by eapply le_option_trans; [apply le_option_max_l|]|..].
    + intros k Hk s' floor' Hs'. destruct (decide (k ∈ ids)) as [Hki|Hki]; [by eapply Hin|].
      apply elem_of_cons in Hk as [->|]; [|done]. rewrite Ho in Hs'. injection Hs' as <- <-.
      rewrite Hout, Hsub, lookup_insert_eq by done. split; [done|]. by eapply le_option_trans; [apply le_option_max_r|].
    + intros k [Hne Hk]%not_elem_of_cons. rewrite Hout, Hsub by done. by apply lookup_insert_ne.
  - destruct (IH r Hr) as (r' & Hr' & Hok' & Hle & Hin & Hout). exists r'. split_and!; try done.
    + intros k [->|Hk]%elem_of_cons s' floor' Hs'; [congruence|by eapply Hin].
    + intros k [_ Hk]%not_elem_of_cons. by apply Hout.
Qed.

(** The subscribers to flush. *)
Definition to_flush (r : Registry) (order : list SubscriberId) : list (SubscriberId * State) :=
  omap (λ key, (λ s, (key, s)) <$> subscribers r !! key) order.

Lemma to_flush_elem r order key s :
  (key, s) ∈ to_flush r order ↔ key ∈ order ∧ subscribers r !! key = Some s.
Proof.
  unfold to_flush. rewrite list_elem_of_omap. split.
  - intros (k & Hk & (s' & Hs' & [= -> ->])%fmap_Some). done.
  - intros [Hk Hs]. exists key. by rewrite Hs.
Qed.

Lemma to_flush_NoDup r order : NoDup order → NoDup (to_flush r order).*1.
Proof.
  unfold to_flush. induction 1 as [|key order Hkey Hnd IH]; cbn; [constructor|].
  destruct (subscribers r !! key) as [s|] eqn:Hs; cbn; [|done]. constructor; [|done].
  intros ([k s'] & Hk & Hin)%list_elem_of_fmap. cbn in Hk. subst k.
  by apply (to_flush_elem r order) in Hin as [? _].
Qed.

Lemma to_flush_lookup r order key :
  NoDup order →
  (list_to_map (to_flush r order) : gmap SubscriberId State) !! key =
  if decide (key ∈ order) then subscribers r !! key else None.
Proof.
  intros Hnd. apply option_eq. intros s.
  rewrite <- elem_of_list_to_map by (by apply to_flush_NoDup). rewrite to_flush_elem.
  case_decide; naive_solver.
Qed.

(** Subscribers whose file could not be written are dirty again. *)
Lemma flush_all_dirty faults l r d n e key :
  (key ∈ dirty_subscribers r ∨ ∃ s, (key, s) ∈ l ∧ faults key ≠ NoFault) →
  key ∈ dirty_subscribers (flush_all crc32 faults l r d n e).1.1.
Proof.
  revert r d n e. induction l as [|[k s] l IH]; intros r d n e Hd; cbn [flush_all].
  { destruct Hd as [?|(? & ?%elem_of_nil & _)]; done. }
  pose proof (Progress.write_progress_file_ok crc32 (faults k) d k (header_boundary s) (to_progress_entries s)) as Hok.
  unfold header_boundary in Hok.
  destruct (Progress.write_progress_file crc32 (faults k) d k _ _) as [d' [[]|err]]; cbn [fst snd] in *; apply IH.
  - destruct Hd as [?|(s' & [[= -> ->]|Hin]%elem_of_cons & Hf)]; [by left| |right; by exists s'].
    destruct Hf. by apply Hok.
  - destruct Hd as [Hd|(s' & [[= -> ->]|Hin]%elem_of_cons & Hf)].
    + left. destruct r. cbn in *. apply elem_of_union. by right.
    + left. destruct r. cbn. apply elem_of_union. left. by apply elem_of_singleton.
    + right. by exists s'.
Qed.

Lemma flush_progress_eq faults order r d :
  flush_progress crc32 faults order r d =
  match order with
  | [] => (r <| dirty_subscribers := ∅ |>, d, Ok 0)
  | _ => flush_all crc32 faults (to_flush r order) (r <| dirty_subscribers := ∅ |>) d 0 None
  end.
Proof. unfold flush_progress, to_flush. destruct order; [done|]. by destruct r. Qed.

(** The files after a flush. *)
Lemma flush_progress_lookup faults order r d key :
  NoDup order → (∀ key s, subscribers r !! key = Some s → valid_id key) → valid_id key →
  (flush_progress crc32 faults order r d).1.2 !! Progress.progress_file_path key =
  match (if decide (key ∈ order) then subscribers r !! key else None) with
  | Some s => if decide (faults key = NoFault) then Some (state_content s)
              else d !! Progress.progress_file_path key
  | None => d !! Progress.progress_file_path key
  end.
Proof.
  intros Hnd Hval Hkey. rewrite flush_progress_eq. destruct order as [|k order'] eqn:Ho; [done|]. rewrite <- Ho in *.
  rewrite flush_all_lookup; [by rewrite to_flush_lookup| |by apply to_flush_NoDup|done].
  apply Forall_forall. intros [k' s] [_ Hs]%to_flush_elem. by apply (Hval _ s).
Qed.

Lemma flush_dir_ok faults order r d :
  NoDup order → (∀ key s, subscribers r !! key = Some s → valid_id key ∧ state_storable s) → dir_ok d →
  dir_ok (flush_progress crc32 faults order r d).1.2.
Proof.
  intros Hnd Hall Hd key data oldest es Hkey Hdata Hparse.
  rewrite flush_progress_lookup in Hdata by (try done; intros k s Hs; by apply (Hall k s)).
  destruct (decide (key ∈ order)); [|by eapply Hd].
  destruct (subscribers r !! key) as [s|] eqn:Hs; [|by eapply Hd].
  destruct (decide (faults key = NoFault)); [|by eapply Hd].
  injection Hdata as <-. destruct (Hall key s Hs) as [_ Hst]. rewrite state_content_parse in Hparse by done.
  injection Hparse as <- <-. apply Forall_fmap. eapply Forall_impl; [apply Hst|]. intros kv. apply entry_of_ok.
Qed.

(** Opening a well-formed directory. *)
Lemma open_spec d names p available :
  dir_ok d → names ≡ₚ (map_to_list d).*1 → collect_counts p (available_segments p) = Ok available →
  ∃ r, open crc32 (Some d) names p = Some (Ok r) ∧ reg_ok r ∧
    ∀ key s floor, valid_id key → is_Some (d !! Progress.progress_file_path key) →
      restore_subscriber crc32 d available key = Some (Some (s, floor)) →
      subscribers r !! key = Some s ∧ le_option floor (highest_progress_segment r).
Proof.
  intros Hd Hnames Hcount. unfold open.
  assert (∀ key, key ∈ Progress.scan_progress_files names ↔ valid_id key ∧ is_Some (d !! Progress.progress_file_path key)) as Hscan.
  { intros key. rewrite Progress.scan_progress_files_spec, Hnames, list_elem_of_fmap. split.
    - intros [Hv ([k c] & Hk & Hin%elem_of_map_to_list)]. cbn in Hk. subst k. by split.
    - intros [Hv [c Hc]]. split; [done|]. eexists (_, c). split; [done|]. by apply elem_of_map_to_list. }
  assert (reg_ok empty_registry) as Hempty.
  { split. intros key s Hs. change ((∅ : gmap SubscriberId State) !! key = Some s) in Hs. by rewrite lookup_empty in Hs. }
  destruct (Progress.scan_progress_files names) as [|k ids] eqn:Hids.
  { eexists. split; [done|]. split; [done|]. intros key s floor Hv Hf _. 
    pose proof (proj2 (Hscan key) (conj Hv Hf)) as Hin. by apply elem_of_nil in Hin. }
  rewrite Hcount. rewrite <- Hids in *.
  destruct (restore_all_spec d available (Progress.scan_progress_files names) empty_registry Hd) as (r & Hr & Hok & _ & Hin & _).
  { eapply collect_counts_ok; [|done]. apply available_u64. }
  { apply Forall_forall. intros key Hkey%Hscan. by destruct Hkey. }
  { done. }
  rewrite Hr. cbn [mbind option_bind]. eexists. split; [done|]. split; [done|]. intros key s floor Hv Hf Hrest.
  by apply (Hin key (proj2 (Hscan key) (conj Hv Hf)) s floor).
Qed.

Lemma add_available_get p s seqs available q :
  collect_counts p seqs = Ok available →
  (add_available p s seqs).2 = Ok tt ∧ claimed (add_available p s seqs).1 = claimed s ∧
  BTreeMap.get q (segments (add_available p s seqs).1) =
    match BTreeMap.get q (segments s) with
    | Some pr => Some pr
    | None => progress_new <$> BTreeMap.get q available
    end.
Proof.
  revert s available. induction seqs as [|seq seqs IH]; intros s available; cbn [collect_counts add_available].
  { intros [= <-]. split_and!; try done. cbn [fst]. by destruct (BTreeMap.get q (segments s)). }
  destruct (provider_bundle_count p seq) as [n|]; [|done].
  destruct (collect_counts p seqs) as [l|]; [|done]. intros [= <-].
  destruct (IH (add_segment s seq n) l eq_refl) as (Hok & Hc & Hg). split_and!; [done|rewrite Hc; by destruct s|].
  rewrite Hg, add_segment_get. cbn [BTreeMap.get].
  destruct (BTreeMap.get q (segments s)); [done|]. by destruct (q =? seq).
Qed.

(** What opening after a flush restores. *)
Lemma flush_then_open faults order r d r' d' res names p available :
  NoDup order → (∀ key s, subscribers r !! key = Some s → valid_id key ∧ state_storable s) → dir_ok d →
  flush_progress crc32 faults order r d = (r', d', res) →
  names ≡ₚ (map_to_list d').*1 → collect_counts p (available_segments p) = Ok available →
  ∃ r2, open crc32 (Some d') names p = Some (Ok r2) ∧ reg_ok r2 ∧
    ∀ key s, key ∈ order → subscribers r !! key = Some s → faults key = NoFault →
      ∃ s2, subscribers r2 !! key = Some s2 ∧ restored_from s s2 available ∧
        ∀ q, is_Some (BTreeMap.get q (segments s)) → le_option (Some q) (highest_progress_segment r2).
Proof.
  intros Hnd Hall Hd Hflush Hnames Hcount.
  assert (dir_ok d') as Hd' by (pose proof (flush_dir_ok faults order r d Hnd Hall Hd) as H; by rewrite Hflush in H).
  destruct (open_spec d' names p available Hd' Hnames Hcount) as (r2 & Hopen & Hr2 & Hrest).
  exists r2. split; [done|]. split; [done|]. intros key s Hkey Hs Hf. destruct (Hall key s Hs) as [Hv Hst].
  pose proof (flush_progress_lookup faults order r d key Hnd (λ k s Hs, proj1 (Hall k s Hs)) Hv) as Hfile.
  rewrite Hflush, decide_True, Hs in Hfile by done. cbn [fst snd] in Hfile. rewrite decide_True in Hfile by done.
  destruct (restore_subscriber_exact d' available key s) as (s2 & floor & Hres & Hfrom & Hfloor); [|done|done|].
  { eapply collect_counts_ok; [|done]. apply available_u64. }
  destruct (Hrest key s2 floor Hv ltac:(by rewrite Hfile) Hres) as [Hs2 Hle].
  exists s2. split; [done|]. split; [done|]. intros q Hq. eapply le_option_trans; [by apply Hfloor|done].
Qed.

Lemma cleanup_storable s before : state_storable s → state_storable (remove_completed_segments_before s before).
Proof.
  intros (Hs & Hlen & Hst). split; [by apply cleanup_ok|].
  assert (segments (remove_completed_segments_before s before) =
    BTreeMap.retain (λ seq progress, (before <=? seq) || negb (progress_is_complete progress)) (segments s)) as -> by (by destruct s).
  split.
  - unfold zlen, BTreeMap.retain in *. etrans; [|exact Hlen]. apply inj_le, List.filter_length_le.
  - rewrite Forall_forall in *. intros kv [Hkv _]%BTreeMap.retain_elem. by apply Hst.
Qed.

(** What lies below every unresolved and some other segment is taken as completed. *)
Lemma completed_before s q :
  state_ok s → 0 ≤ q → (∀ q', pending_in s q' → q < q') → (∃ q', q < q' ∧ is_Some (BTreeMap.get q' (segments s))) →
  completed_before_snapshot (header_boundary s) (highest_persisted (to_progress_entries s)) q = true.
Proof.
  intros Hs Hq Hpend (q' & Hlt & [sp Hsp]). unfold completed_before_snapshot, header_boundary.
  pose proof (oldest_incomplete_spec s Hs) as Hold. destruct (oldest_incomplete_segment s) as [x|].
  - destruct Hold as [Hx _]. apply Hpend in Hx. rewrite (proj2 (Z.eqb_neq x 0)) by lia. by apply Z.ltb_lt.
  - cbn. assert (entry_of (q', sp) ∈ to_progress_entries s) as Hin.
    { unfold to_progress_entries. fold entry_of. apply list_elem_of_fmap. exists (q', sp). split; [done|]. by apply BTreeMap.get_elem. }
    apply highest_persisted_ge in Hin as (h & -> & Hh). apply Z.leb_le. cbn in Hh. lia.
Qed.

(** Activation adds every stored segment that is not tracked. *)
Lemma activate_adds r2 key s2 p available q n :
  subscribers r2 !! key = Some s2 → claimed s2 = ∅ → active s2 = false →
  collect_counts p (available_segments p) = Ok available → BTreeMap.get q available = Some n →
  BTreeMap.get q (segments s2) = None ∨ BTreeMap.get q (segments s2) = Some (progress_new n) →
  (activate p r2 key).2 = Ok tt ∧
  ∃ s3, subscribers (activate p r2 key).1 !! key = Some s3 ∧ active s3 = true ∧
    ∀ i, 0 ≤ i < n → deliverable s3 (mkBundleRef q i).
Proof.
  intros Hs2 Hc Ha Hcount Hn Hq. unfold activate. rewrite Hs2, Ha.
  destruct (add_available_get p s2 (available_segments p) available q Hcount) as (Hok & Hc' & Hg').
  destruct (add_available p s2 (available_segments p)) as [s3 res]. cbn [fst snd] in *. rewrite Hok. split; [done|].
  exists (SubscriberState.activate s3). cbn [fst]. rewrite subscribers_put, lookup_insert_eq.
  split; [done|]. split; [by destruct s3|]. intros i Hi.
  assert (BTreeMap.get q (segments s3) = Some (progress_new n)) as Hg by (destruct Hq as [Hq|Hq]; by rewrite Hq, ?Hn in Hg').
  assert (segments (SubscriberState.activate s3) = segments s3 ∧ claimed (SubscriberState.activate s3) = claimed s3) as [Hseg Hcl]
    by (by destruct s3).
  split_and!.
  - apply tracked_get. rewrite Hseg. by eexists.
  - unfold resolved_in. rewrite Hseg. cbn. rewrite Hg. apply bitmap_new_get.
  - rewrite Hcl, Hc', Hc. apply not_elem_of_empty.
Qed.

(** ** Properties *)

(** C8: A restart restores flushed progress.  After a flush, during which the
    writes of some subscribers may fail, opening the registry from the
    directory succeeds, and every subscriber that was dirty and whose write
    succeeded comes back inactive, without claims, with exactly the progress of
    every segment it tracked; a segment of the store that it did not track is
    added as unresolved unless it lies below the persisted boundary, and new
    segments will be numbered above all segments it tracked.  A subscriber whose
    write failed keeps its old file and is dirty again. *)
Theorem restart_restores_progress faults order r d r' d' res names p available :
  reg_ok r → order ≡ₚ elements (dirty_subscribers r) →
  (∀ key s, subscribers r !! key = Some s → valid_id key ∧ state_storable s) → dir_ok d →
  flush_progress crc32 faults order r d = (r', d', res) →
  names ≡ₚ (map_to_list d').*1 → collect_counts p (available_segments p) = Ok available →
  ∃ r2, open crc32 (Some d') names p = Some (Ok r2) ∧ reg_ok r2 ∧
    ∀ key s, key ∈ dirty_subscribers r → subscribers r !! key = Some s →
      if decide (faults key = NoFault)
      then ∃ s2, subscribers r2 !! key = Some s2 ∧ restored_from s s2 available ∧
        ∀ q, is_Some (BTreeMap.get q (segments s)) → le_option (Some q) (highest_progress_segment r2)
      else key ∈ dirty_subscribers r' ∧
        d' !! Progress.progress_file_path key = d !! Progress.progress_file_path key.
Proof.
  intros Hr Ho Hall Hd Hflush Hnames Hcount.
  assert (NoDup order) as Hnd by (rewrite Ho; apply NoDup_elements).
  assert (∀ key, key ∈ order ↔ key ∈ dirty_subscribers r) as Hin by (intros; by rewrite Ho, elem_of_elements).
  destruct (flush_then_open faults order r d r' d' res names p available Hnd Hall Hd Hflush Hnames Hcount)
    as (r2 & Hopen & Hr2 & Hrest).
  exists r2. split; [done|]. split; [done|]. intros key s Hkey Hs. apply Hin in Hkey as Hko.
  destruct (decide (faults key = NoFault)) as [Hf|Hf]; [by apply Hrest|].
  destruct (Hall key s Hs) as [Hv Hst].
  pose proof (flush_progress_lookup faults order r d key Hnd (λ k s Hs, proj1 (Hall k s Hs)) Hv) as Hfile.
  rewrite Hflush, decide_True, Hs in Hfile by done. cbn [fst snd] in Hfile. rewrite decide_False in Hfile by done.
  split; [|done]. rewrite flush_progress_eq in Hflush.
  destruct order as [|k order'] eqn:Heq; [by apply elem_of_nil in Hko|]. rewrite <- Heq in *.
  pose proof (flush_all_dirty faults (to_flush r order) (r <| dirty_subscribers := ∅ |>) d 0 None key) as Hdirty.
  rewrite Hflush in Hdirty. apply Hdirty. right. exists s. split; [by apply to_flush_elem|done].
Qed.

(** C38: Activation after a restart redelivers completed segments.  A subscriber
    has completed a segment, the clean-up makes the registry forget it, its
    progress is flushed without a fault and the registry is opened again while the
    file of the segment is still in the store.  Opening recognises the segment as
    completed, if it lies below all unresolved segments and the subscriber tracks
    a later one, and does not track it; but activating the subscriber adds it as
    new in every case, and each of its bundles can be delivered again. *)
Theorem activation_redelivers_completed before faults order r0 d r' d' res names p available key s0 sp q n :
  order ≡ₚ elements (dirty_subscribers r0) →
  (∀ key s, subscribers r0 !! key = Some s → valid_id key ∧ state_storable s) → dir_ok d →
  key ∈ dirty_subscribers r0 → subscribers r0 !! key = Some s0 → faults key = NoFault →
  BTreeMap.get q (segments s0) = Some sp → progress_is_complete sp = true → q < before →
  flush_progress crc32 faults order (cleanup_segments_before r0 before) d = (r', d', res) →
  names ≡ₚ (map_to_list d').*1 → collect_counts p (available_segments p) = Ok available →
  BTreeMap.get q available = Some n →
  ∃ r2 s2, open crc32 (Some d') names p = Some (Ok r2) ∧ subscribers r2 !! key = Some s2 ∧
    ((∀ q', pending_in s0 q' → q < q') →
     (∃ q', before ≤ q' ∧ is_Some (BTreeMap.get q' (segments s0))) ∨ (∃ q', pending_in s0 q') →
     BTreeMap.get q (segments s2) = None) ∧
    (activate p r2 key).2 = Ok tt ∧
    ∃ s3, subscribers (activate p r2 key).1 !! key = Some s3 ∧ active s3 = true ∧
      ∀ i, 0 ≤ i < n → deliverable s3 (mkBundleRef q i).
Proof.
  intros Ho Hall Hd Hkey Hs0 Hf Hq Hcomp Hbefore Hflush Hnames Hcount Hn.
  destruct (Hall key s0 Hs0) as [_ Hst]. pose proof Hst as (Hok0 & _). set (s := remove_completed_segments_before s0 before).
  pose proof (cleanup_ok s0 before Hok0) as Hok. fold s in Hok.
  assert (BTreeMap.get q (segments s) = None) as Hnone.
  { unfold s. rewrite cleanup_get, Hq, Hcomp by done. by rewrite (proj2 (Z.leb_gt before q)). }
  destruct (flush_then_open faults order (cleanup_segments_before r0 before) d r' d' res names p available)
    as (r2 & Hopen & _ & Hrest); [rewrite Ho; apply NoDup_elements| |done..|].
  { intros k s1. rewrite subscribers_cleanup. intros (s1' & Hs1' & ->)%fmap_Some. destruct (Hall _ _ Hs1') as [Hv1 Hst1].
    split; [done|]. by apply cleanup_storable. }
  destruct (Hrest key s) as (s2 & Hs2 & (Hc & Ha & Hg) & _); [by rewrite Ho, elem_of_elements|by rewrite subscribers_cleanup, Hs0|done|].
  specialize (Hg q). rewrite Hnone, Hn in Hg. exists r2, s2. split; [done|]. split; [done|]. split.
  - intros Hpend Hlater. rewrite completed_before in Hg; [done|done|by apply (state_segments s0 Hok0 _ _ Hq)| |].
    + intros q' (p' & Hp' & Hinc)%pending_in_get; [|done]. apply Hpend, pending_in_get; [done|]. exists p'.
      unfold s in Hp'. rewrite cleanup_get in Hp' by done. destruct (BTreeMap.get q' (segments s0)) as [p1|]; [|done].
      case_match; [|done]. by simplify_eq.
    + unfold s. destruct Hlater as [(q' & Hle & [p' Hp'])|(q' & Hp)].
      * exists q'. split; [lia|]. rewrite cleanup_get, Hp' by done. by rewrite (proj2 (Z.leb_le before q') Hle).
      * exists q'. split; [by apply Hpend|]. apply pending_in_get in Hp as (p' & Hp' & Hinc); [|done].
        rewrite cleanup_get, Hp', Hinc by done. by rewrite orb_true_r.
  - apply (activate_adds r2 key s2 p available); [done..|]. destruct (completed_before_snapshot _ _ q); [by left|by right].
Qed.

End restart.

(** ** Concrete runs *)

Definition dirty_example : Registry := mkRegistry {["exporter"%string := example_state]} {["exporter"%string]} None 0.

Definition flushed_example : Registry * Dir * result Z SubscriberError :=
  flush_progress sum32 (λ _, NoFault) ["exporter"%string] dirty_example ∅.

Lemma example_storable : state_storable example_state.
Proof.
  split; [apply example_state_ok|]. split; [done|]. unfold example_state. cbn [segments].
  apply Forall_cons. split; [|apply Forall_singleton];
    (split; [done|]; split; [apply example_progress_ok; ((by left) || (by right))|done]).
Qed.

Lemma restart_restores_progress_witness :
  ∃ r2, open sum32 (Some flushed_example.1.2) (map_to_list flushed_example.1.2).*1 false = Some (Ok r2) ∧
    ∃ s2, subscribers r2 !! "exporter"%string = Some s2 ∧ restored_from example_state s2 [(3, 2); (5, 70)].
Proof.
  destruct (restart_restores_progress sum32 sum32_u32 (λ _, NoFault) ["exporter"%string]
    dirty_example ∅ flushed_example.1.1 flushed_example.1.2 flushed_example.2
    (map_to_list flushed_example.1.2).*1 false [(3, 2); (5, 70)]) as (r2 & Hopen & _ & Hkeys).
  - split. intros key s Hs. change (({["exporter"%string := example_state]} : gmap SubscriberId State) !! key = Some s) in Hs.
    apply lookup_singleton_Some in Hs as [<- <-]. split; [apply example_state_ok|done].
  - change (["exporter"%string] ≡ₚ elements ({["exporter"%string]} : gset string)). by rewrite elements_singleton.
  - intros key s Hs. change (({["exporter"%string := example_state]} : gmap SubscriberId State) !! key = Some s) in Hs.
    apply lookup_singleton_Some in Hs as [<- <-]. split; [done|apply example_storable].
  - intros key data oldest es _ Hdata. by rewrite lookup_empty in Hdata.
  - fold flushed_example. rewrite <- !surjective_pairing. reflexivity.
  - reflexivity.
  - reflexivity.
  - exists r2. split; [exact Hopen|]. specialize (Hkeys "exporter"%string example_state).
    assert ("exporter"%string ∈ dirty_subscribers dirty_example) as Hin.
    { change ("exporter"%string ∈@{gset string} {["exporter"%string]}). by apply elem_of_singleton. }
    destruct (Hkeys Hin ltac:(reflexivity)) as (s2 & Hs2 & Hfrom & _).
    exists s2. split; [exact Hs2|exact Hfrom].
Defined.

(** Segment 3 is complete; segment 5 is not begun. *)
Definition completed_state : State :=
  mkState "exporter" [(3, mkProgress 2 [3] 2); (5, mkProgress 70 [0; 0] 0)] ∅ true.

Definition completed_registry : Registry :=
  mkRegistry {["exporter"%string := completed_state]} {["exporter"%string]} None 0.

Lemma completed_storable : state_storable completed_state.
Proof.
  assert (progress_ok (mkProgress 2 [3] 2)) as Hp.
  { apply progress_check; try done; [by repeat constructor|]. apply (bool_decide_unpack _). vm_compute. done. }
  assert (progress_ok (mkProgress 70 [0; 0] 0)) as Hp' by (apply example_progress_ok; by right).
  split; [|split; [done|]].
  - split; [by repeat constructor| |by intros br ?%elem_of_empty].
    intros seq p Hg. apply BTreeMap.get_elem in Hg. cbn in Hg.
    by apply elem_of_cons in Hg as [[= -> ->]|[[= -> ->]|[]%elem_of_nil]%elem_of_cons].
  - apply Forall_cons. split; [|apply Forall_singleton]; done.
Qed.

Lemma completed_pending q : pending_in completed_state q → 3 < q.
Proof.
  intros (p & Hp & Hinc)%pending_in_get; [|apply completed_storable]. cbn in Hp.
  destruct (Z.eqb_spec q 3) as [->|]; [injection Hp as <-; discriminate Hinc|].
  destruct (Z.eqb_spec q 5) as [->|]; [lia|done].
Qed.

(** The clean-up forgets segment 3, whose file is still stored after the restart. *)
Definition forgetful_flush : Registry * Dir * result Z SubscriberError :=
  flush_progress sum32 (λ _, NoFault) ["exporter"%string] (cleanup_segments_before completed_registry 5) ∅.

Lemma activation_redelivers_completed_witness :
  ∃ r2 s2 s3, open sum32 (Some forgetful_flush.1.2) (map_to_list forgetful_flush.1.2).*1 false = Some (Ok r2) ∧
    subscribers r2 !! "exporter"%string = Some s2 ∧ BTreeMap.get 3 (segments s2) = None ∧
    subscribers (activate false r2 "exporter").1 !! "exporter"%string = Some s3 ∧ deliverable s3 (mkBundleRef 3 1).
Proof.
  pose proof completed_storable as Hst.
  destruct (activation_redelivers_completed sum32 sum32_u32 5 (λ _, NoFault) ["exporter"%string] completed_registry ∅
    forgetful_flush.1.1 forgetful_flush.1.2 forgetful_flush.2 (map_to_list forgetful_flush.1.2).*1 false [(3, 2); (5, 70)]
    "exporter"%string completed_state (mkProgress 2 [3] 2) 3 2) as (r2 & s2 & Hopen & Hs2 & Hnot & _ & s3 & Hs3 & _ & Hd).
  - change (["exporter"%string] ≡ₚ elements ({["exporter"%string]} : gset string)). by rewrite elements_singleton.
  - intros key s Hs. change (({["exporter"%string := completed_state]} : gmap SubscriberId State) !! key = Some s) in Hs.
    apply lookup_singleton_Some in Hs as [<- <-]. split; [done|exact Hst].
  - intros key data oldest es _ Hdata. by rewrite lookup_empty in Hdata.
  - change ("exporter"%string ∈@{gset string} {["exporter"%string]}). by apply elem_of_singleton.
  - reflexivity.
  - reflexivity.
  - reflexivity.
  - reflexivity.
  - lia.
  - fold forgetful_flush. rewrite <- !surjective_pairing. reflexivity.
  - reflexivity.
  - reflexivity.
  - reflexivity.
  - exists r2, s2, s3. split; [exact Hopen|]. split; [exact Hs2|]. split; [|split; [exact Hs3|apply Hd; lia]].
    apply Hnot; [exact completed_pending|left; exists 5; split; [lia|by eexists]].
Defined.

End Recovery.
