(* ===== verification/WalFormat.v ===== *)
(** * Formats of the write-ahead log

    Model of [crates/quiver/src/wal/mod.rs], [header.rs], [cursor_sidecar.rs]
    and the encodings of entries in [writer.rs] and [reader.rs]: the header of a
    log file, the sidecar file that holds the consumer's cursor, and the framed
    entries with their slots.  The CRC-32 of the [crc32fast] crate is the
    parameter [crc32]; a record batch and its Arrow stream encoding are the
    class [RecordBatch].  A [&'static str] of an error is a string. *)
From S2P Require Import Prelude Bytes Files.

Local Open Scope Z_scope.
Local Open Scope result_scope.

Module WalFormat.

(** ** Constants *)

(** [b"QUIVER\0WAL"] *)
Definition WAL_MAGIC : list Z := [81; 85; 73; 86; 69; 82; 0; 87; 65; 76].

(** The name of the active file, in the directory of the log. *)
Definition WAL_FILENAME : string := "quiver.wal".

Definition WAL_VERSION : Z := 1.

Definition WAL_HEADER_MIN_LEN : nat := 14.

Definition HEADER_V1_LEN : nat := 38.

Definition ENTRY_TYPE_RECORD_BUNDLE : Z := 0.

Definition SCHEMA_FINGERPRINT_LEN : nat := 32.

Definition ENTRY_HEADER_LEN : nat := 1 + 8 + 8 + 8.

Definition SLOT_HEADER_LEN : nat := 2 + SCHEMA_FINGERPRINT_LEN + 4 + 4.

Definition MAX_ROTATION_TARGET_BYTES : Z := 256 * 1024 * 1024.

Definition MAX_ENTRY_SIZE : Z := MAX_ROTATION_TARGET_BYTES.

(** ** Errors *)

Inductive WalError :=
  | Io (e : IoError)
  | InvalidHeader (msg : string)
  | SlotOutOfRange (slot : Z)
  | RowCountOverflow (rows : Z)
  | PayloadTooLarge (len : Z)
  | EntryTooLarge (len : Z)
  | InvalidTimestamp
  | UnexpectedEof (ctx : string)
  | CrcMismatch (stored computed : Z)
  | UnsupportedEntry (entry_type : Z)
  | InvalidEntry (msg : string)
  | SegmentConfigMismatch (expected found : list Z)
  | InvalidCursorSidecar (msg : string)
  | InvalidConsumerCursor (msg : string)
  | Arrow
  | WalAtCapacity (msg : string)
  | InvalidConfig (msg : string)
  | InternalError (msg : string).

Definition is_at_capacity (e : WalError) : bool :=
  match e with WalAtCapacity _ => true | _ => false end.

(** ** File header *)

Record WalHeader := mkHeader {
  segment_cfg_hash : list Z;
  wal_position_start : Z;
  header_size : Z;
}.

Definition header_new (hash : list Z) : WalHeader := mkHeader hash 0 (Z.of_nat HEADER_V1_LEN).

Definition with_base_offset (hash : list Z) (start : Z) : WalHeader :=
  mkHeader hash start (Z.of_nat HEADER_V1_LEN).

Definition encoded_len (h : WalHeader) : Z := header_size h.

Definition header_encode (h : WalHeader) : list Z :=
  let buf := replicate HEADER_V1_LEN 0 in
  let buf := copy_from_slice 0 WAL_MAGIC buf in
  let buf := copy_from_slice 10 (to_le_bytes 2 WAL_VERSION) buf in
  let buf := copy_from_slice 12 (to_le_bytes 2 (Z.of_nat HEADER_V1_LEN)) buf in
  let buf := copy_from_slice 14 (segment_cfg_hash h) buf in
  let buf := copy_from_slice 30 (to_le_bytes 8 (wal_position_start h)) buf in
  buf.

Definition header_decode (buf : list Z) : result WalHeader WalError :=
  if (length buf <? WAL_HEADER_MIN_LEN)%nat
  then Err (InvalidHeader "buffer too short for minimum header")
  else if negb (bool_decide (slice 0 10 buf = WAL_MAGIC))
  then Err (InvalidHeader "magic mismatch")
  else if negb (from_le_bytes (slice 10 12 buf) =? WAL_VERSION)
  then Err (InvalidHeader "unsupported version")
  else
    let header_size := from_le_bytes (slice 12 14 buf) in
    if header_size <? Z.of_nat WAL_HEADER_MIN_LEN
    then Err (InvalidHeader "header size too small")
    else if zlen buf <? header_size
    then Err (InvalidHeader "buffer shorter than declared header size")
    else if header_size <? 10 + 2 + 2 + 16 + 8
    then Err (InvalidHeader "header too small for required fields")
    else Ok (mkHeader (slice 14 30 buf) (from_le_bytes (slice 30 38 buf)) header_size).

(** [read_from_sync], [read_from] and [read_header_size] check the prefix of the
    file alike; the bytes of the prefix, the declared size and the rest. *)
Definition read_prefix (file : list Z) : result (list Z * Z * list Z) WalError :=
  match read_exact WAL_HEADER_MIN_LEN file with
  | None => Err (Io Files.UnexpectedEof)
  | Some (min_buf, rest) =>
      if negb (bool_decide (slice 0 10 min_buf = WAL_MAGIC))
      then Err (InvalidHeader "magic mismatch")
      else if negb (from_le_bytes (slice 10 12 min_buf) =? WAL_VERSION)
      then Err (InvalidHeader "unsupported version")
      else
        let header_size := from_le_bytes (slice 12 14 min_buf) in
        if header_size <? Z.of_nat WAL_HEADER_MIN_LEN
        then Err (InvalidHeader "header size too small")
        else Ok (min_buf, header_size, rest)
  end.

Definition read_header_size (file : list Z) : result Z WalError :=
  '(_, header_size, _) ←! read_prefix file;
  Ok header_size.

Definition header_read_from (file : list Z) : result WalHeader WalError :=
  '(min_buf, header_size, rest) ←! read_prefix file;
  match read_exact (Z.to_nat header_size - WAL_HEADER_MIN_LEN) rest with
  | None => Err (Io Files.UnexpectedEof)
  | Some (remaining_buf, _) => header_decode (min_buf ++ remaining_buf)
  end.

(** ** Entries *)

Record DecodedWalSlot := mkSlot {
  slot_id : Z;
  schema_fingerprint : list Z;
  row_count : Z;
  payload_len : Z;
  payload : list Z;
}.

Record WalOffset := mkOffset {
  position : Z;
  next_offset : Z;
  sequence : Z;
}.

Record WalRecordBundle := mkRecord {
  offset : WalOffset;
  record_next_offset : Z;
  ingestion_ts_nanos : Z;
  record_sequence : Z;
  slot_bitmap : Z;
  slots : list DecodedWalSlot;
}.

(** The bytes after the cursor stand for the body and the cursor into it. *)
Definition slice_bytes (len : nat) (ctx : string) (rest : list Z) : result (list Z * list Z) WalError :=
  match read_exact len rest with
  | None => Err (InvalidEntry ctx)
  | Some r => Ok r
  end.

(** [read_u16], [read_u32] and [read_u64] *)
Definition read_uint (len : nat) (ctx : string) (rest : list Z) : result (Z * list Z) WalError :=
  '(bytes, rest) ←! slice_bytes len ctx rest;
  Ok (from_le_bytes bytes, rest).

Definition read_i64 (ctx : string) (rest : list Z) : result (Z * list Z) WalError :=
  '(x, rest) ←! read_uint 8 ctx rest;
  Ok (if x <? 2 ^ 63 then x else x - 2 ^ 64, rest).

Fixpoint decode_slots (n : nat) (rest : list Z) : result (list DecodedWalSlot * list Z) WalError :=
  match n with
  | O => Ok ([], rest)
  | S n' =>
      if (length rest <? SLOT_HEADER_LEN)%nat then Err (InvalidEntry "slot header truncated")
      else
        '(slot_id, rest) ←! read_uint 2 "slot id" rest;
        '(fingerprint, rest) ←! slice_bytes SCHEMA_FINGERPRINT_LEN "schema fingerprint" rest;
        '(row_count, rest) ←! read_uint 4 "row count" rest;
        '(payload_len, rest) ←! read_uint 4 "payload length" rest;
        '(payload, rest) ←! slice_bytes (Z.to_nat payload_len) "slot payload" rest;
        '(slots, rest) ←! decode_slots n' rest;
        Ok (mkSlot slot_id fingerprint row_count payload_len payload :: slots, rest)
  end.

Definition decode_entry (file_offset_start file_offset_end : Z) (body : list Z) (header_size start : Z)
    : result WalRecordBundle WalError :=
  if (length body <? ENTRY_HEADER_LEN)%nat then Err (InvalidEntry "body shorter than header")
  else
    let wal_position := saturating_add u64_max start (saturating_sub file_offset_start header_size) in
    let wal_next_position := saturating_add u64_max start (saturating_sub file_offset_end header_size) in
    '(entry_type, rest) ←! read_uint 1 "entry type" body;
    if negb (entry_type =? ENTRY_TYPE_RECORD_BUNDLE) then Err (UnsupportedEntry entry_type)
    else
      '(ts, rest) ←! read_i64 "ingestion timestamp" rest;
      '(sequence, rest) ←! read_uint 8 "sequence" rest;
      '(slot_bitmap, rest) ←! read_uint 8 "slot bitmap" rest;
      '(slots, rest) ←! decode_slots (Z.to_nat (count_ones slot_bitmap)) rest;
      match rest with
      | _ :: _ => Err (InvalidEntry "unexpected trailing bytes")
      | [] =>
          Ok (mkRecord (mkOffset wal_position wal_next_position sequence) wal_next_position ts sequence
                       slot_bitmap slots)
      end.

(** ** Encoding of a bundle *)

(** What the writer uses of an Arrow record batch: its number of rows and its
    encoding by [StreamWriter], which can fail. *)
Class RecordBatch (Batch : Type) := {
  num_rows : Batch → Z;
  stream_encode : Batch → option (list Z);
}.

Record PayloadRef (Batch : Type) := mkPayload {
  fingerprint : list Z;
  batch : Batch;
}.
Arguments mkPayload {Batch}.
Arguments fingerprint {Batch}.
Arguments batch {Batch}.

(** The methods of the trait that the writer calls; [ingestion_time] is in
    nanoseconds since the epoch. *)
Record RecordBundle (Batch : Type) := mkBundle {
  descriptor_slots : list Z;
  ingestion_time : Z;
  bundle_payload : Z → option (PayloadRef Batch);
}.
Arguments mkBundle {Batch}.
Arguments descriptor_slots {Batch}.
Arguments ingestion_time {Batch}.
Arguments bundle_payload {Batch}.

Definition system_time_to_nanos (ts : Z) : result Z WalError :=
  if (ts <? 0) || (2 ^ 63 <=? ts) then Err InvalidTimestamp else Ok ts.

Section encode.
Context {Batch : Type} {HB : RecordBatch Batch}.

(** The bytes that [encode_slot_into_buffer] appends to the buffer. *)
Definition encode_slot_into_buffer (slot_id : Z) (p : PayloadRef Batch) : result (list Z) WalError :=
  let rows := num_rows (batch p) in
  if u32_max <? rows then Err (RowCountOverflow rows)
  else
    match stream_encode (batch p) with
    | None => Err Arrow
    | Some bytes =>
        if u32_max <? zlen bytes then Err (PayloadTooLarge (zlen bytes))
        else Ok (to_le_bytes 2 slot_id ++ fingerprint p ++ to_le_bytes 4 rows ++
                 to_le_bytes 4 (zlen bytes) ++ bytes)
    end.

(** The loop over the slots of the descriptor: the bitmap and the buffer. *)
Fixpoint encode_slots (bundle : RecordBundle Batch) (ids : list Z) (bitmap : Z) (buffer : list Z)
    : result (Z * list Z) WalError :=
  match ids with
  | [] => Ok (bitmap, buffer)
  | id :: ids' =>
      if 64 <=? id then Err (SlotOutOfRange id)
      else
        match bundle_payload bundle id with
        | Some p =>
            bytes ←! encode_slot_into_buffer id p;
            encode_slots bundle ids' (Z.lor bitmap (Z.shiftl 1 id)) (buffer ++ bytes)
        | None => encode_slots bundle ids' bitmap buffer
        end
  end.

End encode.

Definition encode_entry_header (ts sequence bitmap : Z) : list Z :=
  let buf := replicate ENTRY_HEADER_LEN 0 in
  let buf := copy_from_slice 0 [ENTRY_TYPE_RECORD_BUNDLE] buf in
  let buf := copy_from_slice 1 (to_le_bytes 8 ts) buf in
  let buf := copy_from_slice 9 (to_le_bytes 8 sequence) buf in
  let buf := copy_from_slice 17 (to_le_bytes 8 bitmap) buf in
  buf.

(** The entry as [write_entry] assembles it. *)
Definition entry_bytes (entry_len : Z) (header payload : list Z) (crc : Z) : list Z :=
  to_le_bytes 4 entry_len ++ header ++ payload ++ to_le_bytes 4 crc.

(** ** Cursor sidecar *)

(** [b"QUIVER\0T"] *)
Definition CURSOR_SIDECAR_MAGIC : list Z := [81; 85; 73; 86; 69; 82; 0; 84].

Definition CURSOR_SIDECAR_VERSION : Z := 1.

Definition SIDECAR_MIN_LEN : nat := 12.

Definition SIDECAR_V1_LEN : nat := 24.

Definition CURSOR_SIDECAR_FILENAME : string := "quiver.wal.cursor".

(** Which I/O call of a write of the sidecar fails, if any. *)
Inductive sidecar_fault :=
  | Replacing (fault : io_fault)
  | DirSyncFails.

Section sidecar.
Context (crc32 : list Z → Z).

Definition sidecar_encode (wal_position : Z) : list Z :=
  let size := SIDECAR_V1_LEN in
  let buf := replicate size 0 in
  let buf := copy_from_slice 0 CURSOR_SIDECAR_MAGIC buf in
  let buf := copy_from_slice 8 (to_le_bytes 2 CURSOR_SIDECAR_VERSION) buf in
  let buf := copy_from_slice 10 (to_le_bytes 2 (Z.of_nat size)) buf in
  let buf := copy_from_slice 12 (to_le_bytes 8 wal_position) buf in
  let crc := crc32 (take 20 buf) in
  copy_from_slice 20 (to_le_bytes 4 crc) buf.

Definition sidecar_decode (buf : list Z) : result Z WalError :=
  if (length buf <? SIDECAR_MIN_LEN)%nat then Err (InvalidCursorSidecar "buffer too short")
  else if negb (bool_decide (slice 0 8 buf = CURSOR_SIDECAR_MAGIC))
  then Err (InvalidCursorSidecar "magic mismatch")
  else
    let version := from_le_bytes (slice 8 10 buf) in
    let size := from_le_bytes (slice 10 12 buf) in
    if zlen buf <? size then Err (InvalidCursorSidecar "buffer shorter than declared size")
    else
      _ ←! (if version =? CURSOR_SIDECAR_VERSION then
              if negb (size =? Z.of_nat SIDECAR_V1_LEN) then Err (InvalidCursorSidecar "invalid v1 size")
              else Ok tt
            else if CURSOR_SIDECAR_VERSION <? version then
              if size <? Z.of_nat SIDECAR_V1_LEN
              then Err (InvalidCursorSidecar "future version too small for v1 fields")
              else Ok tt
            else Err (InvalidCursorSidecar "unsupported version"));
      let wal_position := from_le_bytes (slice 12 20 buf) in
      let crc_offset := (Z.to_nat size - 4)%nat in
      let stored_crc := from_le_bytes (slice crc_offset (crc_offset + 4) buf) in
      if negb (stored_crc =? crc32 (take crc_offset buf))
      then Err (InvalidCursorSidecar "crc mismatch")
      else Ok wal_position.

Definition sidecar_read_size (file : list Z) : result Z WalError :=
  match read_exact SIDECAR_MIN_LEN file with
  | None => Err (Io Files.UnexpectedEof)
  | Some (prefix, _) =>
      if negb (bool_decide (slice 0 8 prefix = CURSOR_SIDECAR_MAGIC))
      then Err (InvalidCursorSidecar "magic mismatch")
      else
        let size := from_le_bytes (slice 10 12 prefix) in
        if size <? Z.of_nat SIDECAR_MIN_LEN then Err (InvalidCursorSidecar "size too small")
        else Ok size
  end.

Definition sidecar_read_from (dir : Dir) : result Z WalError :=
  match dir !! CURSOR_SIDECAR_FILENAME with
  | None => Err (Io NotFoundIo)
  | Some file =>
      size ←! sidecar_read_size file;
      match read_exact (Z.to_nat size) file with
      | None => Err (Io Files.UnexpectedEof)
      | Some (buf, _) => sidecar_decode buf
      end
  end.

Definition temporary_path (path : string) : string := (path +:+ ".tmp")%string.

(** Write the temporary file, sync it, rename it over the sidecar, sync the
    directory. *)
Definition sidecar_write_to (fault : sidecar_fault) (dir : Dir) (wal_position : Z)
    : Dir * result unit WalError :=
  let tmp_path := temporary_path CURSOR_SIDECAR_FILENAME in
  let content := sidecar_encode wal_position in
  match fault with
  | Replacing OpenFails => (dir, Err (Io OtherIo))
  | Replacing (WriteFails n) => (<[tmp_path := take n content]> dir, Err (Io OtherIo))
  | Replacing (FlushFails | SyncFails | RenameFails) => (<[tmp_path := content]> dir, Err (Io OtherIo))
  | Replacing NoFault => (<[CURSOR_SIDECAR_FILENAME := content]> (delete tmp_path dir), Ok tt)
  | DirSyncFails => (<[CURSOR_SIDECAR_FILENAME := content]> (delete tmp_path dir), Err (Io OtherIo))
  end.

Definition load_cursor_state (dir : Dir) : result Z WalError :=
  match sidecar_read_from dir with
  | Ok state => Ok state
  | Err (InvalidCursorSidecar _) => Ok 0
  | Err (Io NotFoundIo) | Err (Io Files.UnexpectedEof) => Ok 0
  | Err e => Err e
  end.

End sidecar.

(** ** Round trips *)

Lemma header_encode_eq h :
  length (segment_cfg_hash h) = 16%nat →
  header_encode h =
    WAL_MAGIC ++ to_le_bytes 2 WAL_VERSION ++ to_le_bytes 2 38 ++ segment_cfg_hash h ++
    to_le_bytes 8 (wal_position_start h).
Proof.
  destruct h as [hash start hs]. cbn [segment_cfg_hash wal_position_start]. intros Hl.
  do 16 (destruct hash as [|? hash]; [done|]). destruct hash; [|done]. reflexivity.
Qed.

Lemma header_encode_length h : length (segment_cfg_hash h) = 16%nat → length (header_encode h) = 38%nat.
Proof. intros Hl. rewrite header_encode_eq by done. rewrite !length_app, !to_le_bytes_length, Hl. done. Qed.

Lemma wal_prefix_roundtrip hash start rest :
  length hash = 16%nat →
  read_prefix (header_encode (with_base_offset hash start) ++ rest) =
    Ok (WAL_MAGIC ++ to_le_bytes 2 WAL_VERSION ++ to_le_bytes 2 38, 38, hash ++ to_le_bytes 8 start ++ rest).
Proof.
  intros Hl. unfold read_prefix. rewrite header_encode_eq by done.
  cbn [segment_cfg_hash wal_position_start with_base_offset].
  replace ((WAL_MAGIC ++ to_le_bytes 2 WAL_VERSION ++ to_le_bytes 2 38 ++ hash ++ to_le_bytes 8 start) ++ rest)
    with ((WAL_MAGIC ++ to_le_bytes 2 WAL_VERSION ++ to_le_bytes 2 38) ++ hash ++ to_le_bytes 8 start ++ rest)
    by (by rewrite <- !app_assoc).
  rewrite read_exact_app by done. reflexivity.
Qed.

Lemma wal_header_size_roundtrip hash start rest :
  length hash = 16%nat → read_header_size (header_encode (with_base_offset hash start) ++ rest) = Ok 38.
Proof. intros Hl. unfold read_header_size. by rewrite wal_prefix_roundtrip. Qed.

Lemma wal_header_roundtrip hash start rest :
  length hash = 16%nat → u64_ok start →
  header_read_from (header_encode (with_base_offset hash start) ++ rest) = Ok (with_base_offset hash start).
Proof.
  intros Hl Hs. unfold header_read_from. rewrite wal_prefix_roundtrip by done. cbn [result_bind].
  rewrite app_assoc, read_exact_app by (by rewrite length_app, to_le_bytes_length, Hl).
  do 16 (destruct hash as [|? hash]; [done|]). destruct hash; [|done].
  unfold with_base_offset. rewrite <- (from_to_le_bytes 8 start) at 2 by done.
  cbn [to_le_bytes]. reflexivity.
Qed.

Lemma sidecar_encode_eq crc32 pos :
  let buf := CURSOR_SIDECAR_MAGIC ++ to_le_bytes 2 CURSOR_SIDECAR_VERSION ++ to_le_bytes 2 24 ++ to_le_bytes 8 pos in
  sidecar_encode crc32 pos = buf ++ to_le_bytes 4 (crc32 buf).
Proof. reflexivity. Qed.

(** What was written to the sidecar is loaded. *)
Lemma sidecar_roundtrip crc32 dir pos :
  (∀ l, u32_ok (crc32 l)) → u64_ok pos → dir !! CURSOR_SIDECAR_FILENAME = Some (sidecar_encode crc32 pos) →
  load_cursor_state crc32 dir = Ok pos.
Proof.
  intros Hcrc Hpos Hdir. unfold load_cursor_state, sidecar_read_from. rewrite Hdir, sidecar_encode_eq.
  set (buf := CURSOR_SIDECAR_MAGIC ++ to_le_bytes 2 CURSOR_SIDECAR_VERSION ++ to_le_bytes 2 24 ++ to_le_bytes 8 pos).
  assert (∀ c, sidecar_read_size (buf ++ to_le_bytes 4 c) = Ok 24) as -> by reflexivity. cbn [result_bind].
  assert (∀ c, read_exact (Z.to_nat 24) (buf ++ to_le_bytes 4 c) = Some (buf ++ to_le_bytes 4 c, [])) as -> by reflexivity.
  assert (∀ c, sidecar_decode crc32 (buf ++ to_le_bytes 4 c) =
    if negb (from_le_bytes (to_le_bytes 4 c) =? crc32 buf) then Err (InvalidCursorSidecar "crc mismatch")
    else Ok (from_le_bytes (to_le_bytes 8 pos))) as -> by reflexivity.
  rewrite from_to_le_bytes by apply Hcrc. rewrite Z.eqb_refl. cbn [negb]. by rewrite from_to_le_bytes.
Qed.

(** *** Entries *)

(** An entry of the log: what a bundle is encoded to. *)
Record LogEntry := mkEntry {
  entry_ts : Z;
  entry_seq : Z;
  entry_bitmap : Z;
  entry_slots : list DecodedWalSlot;
}.

Definition slot_bytes (s : DecodedWalSlot) : list Z :=
  to_le_bytes 2 (slot_id s) ++ schema_fingerprint s ++ to_le_bytes 4 (row_count s) ++
  to_le_bytes 4 (payload_len s) ++ payload s.

Definition slots_bytes (l : list DecodedWalSlot) : list Z := concat (slot_bytes <$> l).

Record slot_ok (s : DecodedWalSlot) : Prop := {
  slot_id_ok : 0 ≤ slot_id s < 2 ^ 16;
  slot_fingerprint_ok : length (schema_fingerprint s) = SCHEMA_FINGERPRINT_LEN;
  slot_rows_ok : u32_ok (row_count s);
  slot_len_ok : u32_ok (payload_len s);
  slot_payload_ok : zlen (payload s) = payload_len s;
}.

Definition entry_body (e : LogEntry) : list Z :=
  encode_entry_header (entry_ts e) (entry_seq e) (entry_bitmap e) ++ slots_bytes (entry_slots e).

(** Every entry the writer produces, of a size that the reader accepts. *)
Record entry_ok (e : LogEntry) : Prop := {
  entry_ts_ok : 0 ≤ entry_ts e < 2 ^ 63;
  entry_seq_ok : u64_ok (entry_seq e);
  entry_bitmap_ok : u64_ok (entry_bitmap e);
  entry_slots_ok : Forall slot_ok (entry_slots e);
  entry_count_ok : count_ones (entry_bitmap e) = zlen (entry_slots e);
  entry_size_ok : zlen (entry_body e) ≤ MAX_ENTRY_SIZE;
}.

(** The number of bytes of the frame of an entry. *)
Definition frame_len (e : LogEntry) : Z := 8 + zlen (entry_body e).

(** The record that the reader returns for an entry at a position. *)
Definition record_at (pos : Z) (e : LogEntry) : WalRecordBundle :=
  mkRecord (mkOffset pos (pos + frame_len e) (entry_seq e)) (pos + frame_len e) (entry_ts e) (entry_seq e)
           (entry_bitmap e) (entry_slots e).

Lemma read_uint_app n ctx x rest :
  0 ≤ x < 2 ^ (8 * Z.of_nat n) → read_uint n ctx (to_le_bytes n x ++ rest) = Ok (x, rest).
Proof.
  intros Hx. unfold read_uint, slice_bytes. rewrite read_exact_app by apply to_le_bytes_length.
  cbn [result_bind]. by rewrite from_to_le_bytes.
Qed.

Lemma slice_bytes_app n ctx bytes rest : length bytes = n → slice_bytes n ctx (bytes ++ rest) = Ok (bytes, rest).
Proof. intros Hl. unfold slice_bytes. by rewrite read_exact_app. Qed.

Lemma slot_bytes_length s : slot_ok s → length (slot_bytes s) = (SLOT_HEADER_LEN + length (payload s))%nat.
Proof. intros [_ Hf _ _ _]. unfold slot_bytes. rewrite !length_app, !to_le_bytes_length, Hf. done. Qed.

Lemma wal_slots_roundtrip l rest :
  Forall slot_ok l → decode_slots (length l) (slots_bytes l ++ rest) = Ok (l, rest).
Proof.
  induction 1 as [|s l Hs Hl IH]; [done|]. unfold slots_bytes. rewrite fmap_cons. cbn [length decode_slots concat].
  rewrite <- app_assoc. fold (slots_bytes l). pose proof (slot_bytes_length s Hs) as Hlen.
  rewrite (proj2 (Nat.ltb_ge _ _)) by (rewrite length_app, Hlen; lia).
  destruct Hs as [Hid Hf Hr Hp Hpl]. unfold slot_bytes. rewrite <- !app_assoc.
  rewrite read_uint_app by (cbn; lia). cbn [result_bind]. rewrite slice_bytes_app by done. cbn [result_bind].
  rewrite !read_uint_app by (unfold u32_ok in *; cbn; lia). cbn [result_bind].
  rewrite read_uint_app by (unfold u32_ok in *; cbn; lia). cbn [result_bind].
  rewrite slice_bytes_app by (unfold zlen in Hpl; lia). cbn [result_bind].
  rewrite IH. cbn [result_bind]. by destruct s.
Qed.

Lemma encode_entry_header_eq ts seq bitmap :
  encode_entry_header ts seq bitmap =
    [ENTRY_TYPE_RECORD_BUNDLE] ++ to_le_bytes 8 ts ++ to_le_bytes 8 seq ++ to_le_bytes 8 bitmap.
Proof. reflexivity. Qed.

Lemma entry_body_eq e :
  entry_body e =
    [ENTRY_TYPE_RECORD_BUNDLE] ++ to_le_bytes 8 (entry_ts e) ++ to_le_bytes 8 (entry_seq e) ++
    to_le_bytes 8 (entry_bitmap e) ++ slots_bytes (entry_slots e).
Proof. unfold entry_body. rewrite encode_entry_header_eq. by rewrite <- !app_assoc. Qed.

Lemma entry_body_length e : length (entry_body e) = (ENTRY_HEADER_LEN + length (slots_bytes (entry_slots e)))%nat.
Proof. unfold entry_body. rewrite length_app. done. Qed.

Lemma wal_entry_roundtrip e a b hs start :
  entry_ok e → hs ≤ a ≤ b → 0 ≤ start → start + b - hs ≤ u64_max → b = a + frame_len e →
  decode_entry a b (entry_body e) hs start = Ok (record_at (start + a - hs) e).
Proof.
  intros [Hts Hseq Hbm Hsl Hcnt Hsize] Hab Hst Hmax Hb. unfold decode_entry.
  rewrite (proj2 (Nat.ltb_ge _ _)) by (rewrite entry_body_length; lia).
  rewrite entry_body_eq. change [ENTRY_TYPE_RECORD_BUNDLE] with (to_le_bytes 1 ENTRY_TYPE_RECORD_BUNDLE).
  rewrite read_uint_app by done. cbn [result_bind negb Z.eqb]. change (negb (_ =? _)) with false. cbv iota.
  unfold read_i64. rewrite read_uint_app by (change (8 * Z.of_nat 8) with 64; lia). cbn [result_bind].
  rewrite (proj2 (Z.ltb_lt _ _)) by lia.
  rewrite read_uint_app by exact Hseq. cbn [result_bind]. rewrite read_uint_app by exact Hbm. cbn [result_bind].
  rewrite Hcnt. unfold zlen at 1. rewrite Nat2Z.id. rewrite <- (app_nil_r (slots_bytes _)).
  rewrite wal_slots_roundtrip by done. cbn [result_bind]. unfold record_at, saturating_add, saturating_sub.
  replace (Z.min (start + Z.max (a - hs) 0) u64_max) with (start + a - hs) by lia.
  replace (Z.min (start + Z.max (b - hs) 0) u64_max) with (start + a - hs + frame_len e) by lia. done.
Qed.

(** *** Encoding of a bundle *)

Section bundle.
Context {Batch : Type} {HB : RecordBatch Batch}.

(** The slots that a bundle is encoded to. *)
Definition slot_of (bundle : RecordBundle Batch) (id : Z) : option DecodedWalSlot :=
  p ← bundle_payload bundle id;
  bytes ← stream_encode (batch p);
  Some (mkSlot id (fingerprint p) (num_rows (batch p)) (zlen bytes) bytes).

Definition bundle_slots (bundle : RecordBundle Batch) : list DecodedWalSlot :=
  omap (slot_of bundle) (descriptor_slots bundle).

Definition slots_bitmap (l : list DecodedWalSlot) : Z :=
  foldl (λ b s, Z.lor b (Z.shiftl 1 (slot_id s))) 0 l.

(** What the types of the source and the construction of bundles promise: the
    descriptor names each slot once, fingerprints have their length. *)
Record bundle_ok (bundle : RecordBundle Batch) : Prop := {
  bundle_ids : NoDup (descriptor_slots bundle) ∧ Forall (λ id, 0 ≤ id) (descriptor_slots bundle);
  bundle_payloads : ∀ id p, bundle_payload bundle id = Some p →
    length (fingerprint p) = SCHEMA_FINGERPRINT_LEN ∧ 0 ≤ num_rows (batch p);
  bundle_size : Z.of_nat ENTRY_HEADER_LEN + zlen (slots_bytes (bundle_slots bundle)) ≤ MAX_ENTRY_SIZE;
}.

Lemma encode_slots_spec bundle ids bitmap buffer bitmap' buffer' :
  (∀ id p, bundle_payload bundle id = Some p →
    length (fingerprint p) = SCHEMA_FINGERPRINT_LEN ∧ 0 ≤ num_rows (batch p)) →
  NoDup ids → Forall (λ id, 0 ≤ id) ids → u64_ok bitmap → (∀ id, id ∈ ids → Z.testbit bitmap id = false) →
  encode_slots bundle ids bitmap buffer = Ok (bitmap', buffer') →
  let l := omap (slot_of bundle) ids in
  buffer' = buffer ++ slots_bytes l ∧ Forall slot_ok l ∧ u64_ok bitmap' ∧
  bitmap' = foldl (λ b s, Z.lor b (Z.shiftl 1 (slot_id s))) bitmap l ∧
  count_ones bitmap' = count_ones bitmap + zlen l.
Proof.
  intros Hp. revert bitmap buffer. induction ids as [|id ids IH]; intros bitmap buffer Hnd Hpos Hbm Hclear.
  { intros [= <- <-]. cbn. rewrite app_nil_r. split_and!; [done..|]. unfold zlen. cbn. lia. }
  apply NoDup_cons in Hnd as [Hnin Hnd]. apply Forall_cons in Hpos as [Hid Hpos].
  cbn [encode_slots omap list_omap]. destruct (Z.leb_spec 64 id); [done|].
  destruct (bundle_payload bundle id) as [p|] eqn:Hpl.
  2: { replace (slot_of bundle id) with (@None DecodedWalSlot) by (unfold slot_of; by rewrite Hpl).
    intros Henc. apply IH; [done..|by intros id' ?; apply Hclear; right|done]. }
  unfold encode_slot_into_buffer. destruct (Z.ltb_spec u32_max (num_rows (batch p))); [done|].
  destruct (stream_encode (batch p)) as [bytes|] eqn:Henc; [|done].
  replace (slot_of bundle id) with (Some (mkSlot id (fingerprint p) (num_rows (batch p)) (zlen bytes) bytes))
    by (unfold slot_of; rewrite Hpl; cbn [mbind option_bind]; by rewrite Henc).
  destruct (Z.ltb_spec u32_max (zlen bytes)); [done|]. cbn [result_bind]. intros Hrest.
  destruct (Hp id p Hpl) as [Hfp Hrows]. pose proof (zlen_nonneg bytes).
  destruct (IH (Z.lor bitmap (Z.shiftl 1 id))
    (buffer ++ slot_bytes (mkSlot id (fingerprint p) (num_rows (batch p)) (zlen bytes) bytes)))
    as (-> & Hl & Hb' & -> & ->); [done|done|by apply set_bit_ok| |exact Hrest|].
  { intros id' Hin. rewrite set_bit_testbit by done. rewrite Hclear by (by right).
    rewrite bool_decide_eq_false_2; [done|]. intros ->. done. }
  split_and!; [| |done|done|].
  - unfold slots_bytes. rewrite fmap_cons. cbn [concat]. by rewrite app_assoc.
  - constructor; [|done]. change u32_max with 4294967295 in *.
    split; cbn; unfold u32_ok; [lia|done|lia|lia|done].
  - rewrite count_ones_set_bit, zlen_cons; [lia|lia|]. apply Hclear. by left.
Qed.

(** The entry that an accepted bundle is encoded to. *)
Definition bundle_entry (bundle : RecordBundle Batch) (seq : Z) : LogEntry :=
  mkEntry (ingestion_time bundle) seq (slots_bitmap (bundle_slots bundle)) (bundle_slots bundle).

Lemma encode_bundle_spec bundle seq bitmap buffer :
  bundle_ok bundle → u64_ok seq → system_time_to_nanos (ingestion_time bundle) = Ok (ingestion_time bundle) →
  encode_slots bundle (descriptor_slots bundle) 0 [] = Ok (bitmap, buffer) →
  bitmap = entry_bitmap (bundle_entry bundle seq) ∧ buffer = slots_bytes (bundle_slots bundle) ∧
  entry_ok (bundle_entry bundle seq).
Proof.
  intros [[Hnd Hpos] Hpay Hsize] Hseq Hts Henc.
  destruct (encode_slots_spec bundle (descriptor_slots bundle) 0 [] bitmap buffer)
    as (-> & Hl & Hb & -> & Hcnt); [done..|intros; apply Z.bits_0|done|].
  split; [done|]. split; [done|]. unfold system_time_to_nanos in Hts. split; try done.
  - cbn [bundle_entry entry_ts]. destruct (Z.ltb_spec (ingestion_time bundle) 0); [done|].
    destruct (Z.leb_spec (2 ^ 63) (ingestion_time bundle)); [done|]. lia.
  - unfold zlen. rewrite entry_body_length, Nat2Z.inj_add. exact Hsize.
Qed.

End bundle.
End WalFormat.
