(* ===== verification/WalReader.v ===== *)
(** * Reader of the write-ahead log

    Model of [crates/quiver/src/wal/reader.rs]: the reader of one log file, the
    discovery of rotated files, and the reader that goes through all files of
    the log.  A file is the list of its bytes; reads of existing files succeed.
    [names] is what [read_dir] yields for the directory of the log. *)
From S2P Require Import Prelude Bytes Files WalFormat.

Local Open Scope Z_scope.
Local Open Scope result_scope.

Module WalReader.
Import WalFormat.

Section reader.
Context (crc32 : list Z → Z).

(** ** One entry *)

(** The entry at an offset of a file, with the offset after it; [None] at the
    end of the file. *)
Definition entry_at (file : list Z) (file_len header_size start entry_start : Z)
    : option (result (WalRecordBundle * Z) WalError) :=
  match drop (Z.to_nat entry_start) file with
  | [] => None
  | bytes => Some (
      match read_exact 4 bytes with
      | None => Err (UnexpectedEof "entry length")
      | Some (len_buf, rest) =>
          let entry_len := from_le_bytes len_buf in
          if MAX_ENTRY_SIZE <? entry_len
          then Err (InvalidEntry "entry length exceeds maximum allowed size")
          else if saturating_sub file_len (entry_start + 4) <? entry_len
          then Err (InvalidEntry "entry length exceeds remaining file size")
          else
            match read_exact (Z.to_nat entry_len) rest with
            | None => Err (UnexpectedEof "entry body")
            | Some (body, rest) =>
                match read_exact 4 rest with
                | None => Err (UnexpectedEof "entry crc")
                | Some (crc_buf, _) =>
                    let stored_crc := from_le_bytes crc_buf in
                    let computed_crc := crc32 body in
                    if negb (stored_crc =? computed_crc)
                    then Err (CrcMismatch stored_crc computed_crc)
                    else
                      let next_offset :=
                        saturating_add u64_max
                          (saturating_add u64_max (saturating_add u64_max entry_start 4) entry_len) 4 in
                      entry ←! decode_entry entry_start next_offset body header_size start;
                      Ok (entry, next_offset)
                end
            end
      end)
  end.

(** ** One file *)

Record WalReader := mkReader {
  file : list Z;
  reader_hash : list Z;
  reader_header_size : Z;
  reader_start : Z;
  next_file_offset : Z;
  file_len : Z;
  finished : bool;
}.

Definition reader_open (content : option (list Z)) : result WalReader WalError :=
  match content with
  | None => Err (Io NotFoundIo)
  | Some bytes =>
      header ←! header_read_from bytes;
      Ok (mkReader bytes (segment_cfg_hash header) (header_size header) (wal_position_start header)
                   (header_size header) (zlen bytes) false)
  end.

Definition wal_position_end (r : WalReader) : Z :=
  let data_bytes := saturating_sub (file_len r) (reader_header_size r) in
  saturating_add u64_max (reader_start r) data_bytes.

(** The offset in the file of a position of the log. *)
Definition offset_of_position (r : WalReader) (wal_position : Z) : Z :=
  let position_in_file := saturating_sub wal_position (reader_start r) in
  let file_offset := saturating_add u64_max position_in_file (reader_header_size r) in
  Z.max file_offset (reader_header_size r).

Definition seek_to_position (r : WalReader) (wal_position : Z) : WalReader :=
  r <| next_file_offset := offset_of_position r wal_position |> <| finished := false |>.

Definition read_next_entry (r : WalReader) : WalReader * option (result WalRecordBundle WalError) :=
  if finished r then (r, None)
  else
    match entry_at (file r) (file_len r) (reader_header_size r) (reader_start r) (next_file_offset r) with
    | None => (r <| finished := true |>, None)
    | Some (Err e) => (r <| finished := true |>, Some (Err e))
    | Some (Ok (entry, next)) => (r <| next_file_offset := next |>, Some (Ok entry))
    end.

(** ** All files *)

Record WalFileInfo := mkInfo {
  info_path : string;
  rotation_id : option Z;
  info_start : Z;
  info_end : Z;
}.

(** The rotated files among the given names, by increasing identifier. *)
Definition discover_rotated_wal_files (names : list string) : list (Z * string) :=
  sort_by_key fst
    (omap (λ name,
      suffix ← strip_prefix (WAL_FILENAME +:+ ".") name;
      id ← parse_u64 suffix;
      Some (id, name)) names).

Definition file_info (dir : Dir) (path : string) (id : option Z) : result WalFileInfo WalError :=
  reader ←! reader_open (dir !! path);
  Ok (mkInfo path id (reader_start reader) (wal_position_end reader)).

(** Rotated files that cannot be opened are skipped; if nothing was opened,
    the error of the active file is returned. *)
Definition multi_open (dir : Dir) (names : list string) : result (list WalFileInfo) WalError :=
  let rotated :=
    omap (λ '(id, path), match file_info dir path (Some id) with Ok i => Some i | Err _ => None end)
      (discover_rotated_wal_files names) in
  files ←!
    (match dir !! WAL_FILENAME with
     | Some _ =>
         match file_info dir WAL_FILENAME None with
         | Ok i => Ok (rotated ++ [i])
         | Err e => match rotated with [] => Err e | _ => Ok rotated end
         end
     | None => match rotated with [] => Err (Io NotFoundIo) | _ => Ok rotated end
     end);
  Ok (sort_by_key info_start files).

Definition wal_end_position (files : list WalFileInfo) : Z :=
  match last files with Some f => info_end f | None => 0 end.

(** The iterator: the files not finished yet, the reader of the first of them
    once it is open, and the position to continue from. *)
Record MultiFileWalIter := mkIter {
  iter_files : list WalFileInfo;
  current_reader : option WalReader;
  start_position : Z;
}.

Fixpoint skip_until (pos : Z) (files : list WalFileInfo) : list WalFileInfo :=
  match files with
  | [] => []
  | f :: files' => if pos <? info_end f then files else skip_until pos files'
  end.

Definition multi_iter_from (files : list WalFileInfo) (wal_position : Z) : MultiFileWalIter :=
  mkIter (skip_until wal_position files) None wal_position.

Fixpoint multi_next_from (dir : Dir) (files : list WalFileInfo) (current : option WalReader) (pos : Z)
    : MultiFileWalIter * option (result WalRecordBundle WalError) :=
  match files with
  | [] => (mkIter [] current pos, None)
  | info :: files' =>
      match
        match current with
        | Some r => Some r
        | None =>
            match reader_open (dir !! info_path info) with
            | Ok r => Some (seek_to_position r (Z.max pos (info_start info)))
            | Err _ => None
            end
        end
      with
      | None => multi_next_from dir files' None pos
      | Some r =>
          match read_next_entry r with
          | (r, Some (Ok entry)) => (mkIter files (Some r) (record_next_offset entry), Some (Ok entry))
          | (r, Some (Err e)) => (mkIter files (Some r) pos, Some (Err e))
          | (_, None) => multi_next_from dir files' None pos
          end
      end
  end.

Definition multi_next (dir : Dir) (it : MultiFileWalIter)
    : MultiFileWalIter * option (result WalRecordBundle WalError) :=
  multi_next_from dir (iter_files it) (current_reader it) (start_position it).

(** The entries up to the end or the first error, as the replay of the engine
    consumes them. *)
Fixpoint collect (fuel : nat) (dir : Dir) (it : MultiFileWalIter) : list WalRecordBundle * option WalError :=
  match fuel with
  | O => ([], None)
  | S fuel' =>
      match multi_next dir it with
      | (_, None) => ([], None)
      | (_, Some (Err e)) => ([], Some e)
      | (it, Some (Ok entry)) => let '(l, e) := collect fuel' dir it in (entry :: l, e)
      end
  end.

(** ** Reading well-formed files *)

(** The frame of an entry, as the writer appends it. *)
Definition frame (e : LogEntry) : list Z :=
  entry_bytes (zlen (entry_body e)) (encode_entry_header (entry_ts e) (entry_seq e) (entry_bitmap e))
    (slots_bytes (entry_slots e)) (crc32 (entry_body e)).

Definition frames (es : list LogEntry) : list Z := concat (frame <$> es).

(** The bytes of a sequence of entries. *)
Definition size (es : list LogEntry) : Z := foldr (λ e n, frame_len e + n) 0 es.

(** The records of entries at consecutive positions. *)
Fixpoint place (pos : Z) (es : list LogEntry) : list WalRecordBundle :=
  match es with
  | [] => []
  | e :: es' => record_at pos e :: place (pos + frame_len e) es'
  end.

Context (crc32_ok : ∀ l, u32_ok (crc32 l)).

Lemma frame_eq e : frame e = to_le_bytes 4 (zlen (entry_body e)) ++ entry_body e ++ to_le_bytes 4 (crc32 (entry_body e)).
Proof. unfold frame, entry_bytes. unfold entry_body at 4. by rewrite <- app_assoc. Qed.

Lemma frame_length e : zlen (frame e) = frame_len e.
Proof. rewrite frame_eq, !zlen_app. unfold zlen. rewrite !to_le_bytes_length. unfold frame_len, zlen. lia. Qed.

Lemma frame_len_pos e : 8 < frame_len e.
Proof. unfold frame_len, zlen. rewrite entry_body_length. unfold ENTRY_HEADER_LEN. lia. Qed.

Lemma size_cons e es : size (e :: es) = frame_len e + size es.
Proof. done. Qed.

Lemma size_app es es' : size (es ++ es') = size es + size es'.
Proof. induction es as [|e es IH]; [done|]. rewrite <- app_comm_cons, !size_cons. lia. Qed.

Lemma size_nonneg es : 0 ≤ size es.
Proof. induction es as [|e es IH]; [done|]. rewrite size_cons. pose proof (frame_len_pos e). lia. Qed.

Lemma frames_cons e es : frames (e :: es) = frame e ++ frames es.
Proof. done. Qed.

Lemma frames_app es es' : frames (es ++ es') = frames es ++ frames es'.
Proof. unfold frames. by rewrite fmap_app, concat_app. Qed.

Lemma frames_length es : zlen (frames es) = size es.
Proof. induction es as [|e es IH]; [done|]. rewrite frames_cons, size_cons, zlen_app, frame_length. lia. Qed.

Lemma place_app pos es es' : place pos (es ++ es') = place pos es ++ place (pos + size es) es'.
Proof.
  revert pos. induction es as [|e es IH]; intros pos; [by rewrite Z.add_0_r|].
  rewrite size_cons. cbn [app place]. rewrite IH. by rewrite Z.add_assoc.
Qed.

Lemma place_length pos es : length (place pos es) = length es.
Proof. revert pos. induction es as [|e es IH]; intros pos; [done|]. cbn. by rewrite IH. Qed.

Lemma drop_zlen_app {A} (a b : list A) : drop (Z.to_nat (zlen a)) (a ++ b) = b.
Proof. unfold zlen. rewrite Nat2Z.id. apply drop_app_length. Qed.

(** An entry is read where it was written. *)
Lemma entry_at_frame pre e rest hs start :
  entry_ok e → 0 ≤ hs ≤ zlen pre → 0 ≤ start →
  start + zlen pre + frame_len e ≤ u64_max →
  entry_at (pre ++ frame e ++ rest) (zlen (pre ++ frame e ++ rest)) hs start (zlen pre) =
    Some (Ok (record_at (start + zlen pre - hs) e, zlen pre + frame_len e)).
Proof.
  intros He Hhs Hst Hmax. pose proof (frame_len_pos e) as Hpos. pose proof (zlen_nonneg rest).
  unfold entry_at. rewrite drop_zlen_app, !zlen_app, frame_length.
  pose proof (entry_size_ok e He) as Hsize. change MAX_ENTRY_SIZE with 268435456 in *.
  assert (zlen (entry_body e) = frame_len e - 8) as Hbody by (unfold frame_len; lia).
  destruct (frame e ++ rest) as [|x l] eqn:Hf.
  { apply (f_equal length) in Hf. rewrite length_app in Hf. pose proof (frame_length e). unfold zlen in *. cbn in Hf. lia. }
  rewrite <- Hf. clear x l Hf. rewrite frame_eq, <- !app_assoc. rewrite read_exact_app by apply to_le_bytes_length.
  rewrite from_to_le_bytes by (change (2 ^ (8 * Z.of_nat 4)) with 4294967296; lia).
  rewrite (proj2 (Z.ltb_ge _ _)) by lia. unfold saturating_sub. rewrite (proj2 (Z.ltb_ge _ _)) by lia.
  rewrite read_exact_app by (unfold zlen; lia). rewrite read_exact_app by apply to_le_bytes_length.
  rewrite from_to_le_bytes by apply crc32_ok. rewrite Z.eqb_refl. cbn [negb].
  replace (saturating_add _ _ 4) with (zlen pre + frame_len e) by (unfold saturating_add; lia).
  rewrite wal_entry_roundtrip by (done || lia). done.
Qed.

Lemma entry_at_end file hs start : entry_at file (zlen file) hs start (zlen file) = None.
Proof. unfold entry_at, zlen. by rewrite Nat2Z.id, drop_all. Qed.

(** A frame that was not written completely is recognised as damage. *)
Lemma entry_at_torn pre e n hs start :
  entry_ok e → (0 < n < length (frame e))%nat →
  ∃ err, entry_at (pre ++ take n (frame e)) (zlen (pre ++ take n (frame e))) hs start (zlen pre) = Some (Err err) ∧
    match err with UnexpectedEof _ | InvalidEntry _ => True | _ => False end.
Proof.
  intros He Hn. unfold entry_at. rewrite drop_zlen_app.
  assert (length (take n (frame e)) = n) as Hlen by (rewrite length_take; lia).
  destruct (take n (frame e)) as [|x l] eqn:Hf; [cbn in Hlen; lia|]. rewrite <- Hf in *. clear x l Hf.
  pose proof (frame_length e) as Hfl. pose proof (entry_size_ok e He) as Hsize. change MAX_ENTRY_SIZE with 268435456 in *.
  assert (zlen (entry_body e) = frame_len e - 8) as Hbody by (unfold frame_len; lia).
  pose proof (frame_len_pos e) as Hpos.
  destruct (decide (n < 4)%nat) as [Hn4|Hn4].
  { unfold read_exact. rewrite Hlen, (proj2 (Nat.leb_gt _ _)) by lia. by eexists. }
  rewrite zlen_app. replace (zlen (take n (frame e))) with (Z.of_nat n) by (unfold zlen; lia). rewrite frame_eq.
  rewrite take_app_ge by (rewrite to_le_bytes_length; lia). rewrite to_le_bytes_length.
  rewrite read_exact_app by apply to_le_bytes_length.
  rewrite from_to_le_bytes by (change (2 ^ (8 * Z.of_nat 4)) with 4294967296; lia).
  rewrite (proj2 (Z.ltb_ge 268435456 _)) by lia. unfold saturating_sub.
  destruct (Z.ltb_spec (Z.max (zlen pre + Z.of_nat n - (zlen pre + 4)) 0) (zlen (entry_body e))); [by eexists|].
  assert (length (entry_body e) ≤ n - 4)%nat by (unfold zlen in *; lia).
  rewrite take_app_ge by lia. rewrite read_exact_app by (unfold zlen; lia).
  unfold read_exact at 1. rewrite length_take, to_le_bytes_length.
  rewrite (proj2 (Nat.leb_gt _ _)) by (unfold zlen in *; lia). by eexists.
Qed.

End reader.
End WalReader.
