(* ===== verification/Budget.v ===== *)
(** * Disk budget

    Model of [crates/quiver/src/budget.rs]: the watermark accounting of the bytes
    on disk.  The atomic counter is an integer; each operation is one atomic
    step. *)
From S2P Require Import Prelude Bytes.

Local Open Scope Z_scope.

Module Budget.

Inductive RetentionPolicy := Backpressure | DropOldest.

Inductive DurabilityMode := DurabilityWal | SegmentOnly.

(** The fields of the configuration that the budget reads. *)
Record QuiverConfig := mkConfig {
  segment_target_size : Z;
  wal_max_size_bytes : Z;
  durability : DurabilityMode;
}.

Inductive BudgetConfigError :=
  | CapTooSmall (hard_cap minimum segment_target_size wal_max_size : Z).

Record DiskBudget := mkBudget {
  hard_cap : Z;
  soft_cap : Z;
  used : Z;
  policy : RetentionPolicy;
}.

Definition budget_new (hard_cap segment_headroom : Z) (policy : RetentionPolicy) : DiskBudget :=
  mkBudget hard_cap (saturating_sub hard_cap segment_headroom) 0 policy.

Definition unlimited : DiskBudget := budget_new u64_max 0 Backpressure.

Definition effective_wal_size (c : QuiverConfig) : Z :=
  match durability c with DurabilityWal => wal_max_size_bytes c | SegmentOnly => 0 end.

Definition minimum_hard_cap (segment_target_size wal_max_size : Z) : Z :=
  saturating_add u64_max wal_max_size (Z.min (2 * segment_target_size) u64_max).

Definition for_config (hard_cap : Z) (c : QuiverConfig) (policy : RetentionPolicy)
    : result DiskBudget BudgetConfigError :=
  let segment_target_size := segment_target_size c in
  let wal_max_size := effective_wal_size c in
  let minimum := minimum_hard_cap segment_target_size wal_max_size in
  if (hard_cap <? minimum) && negb (hard_cap =? u64_max)
  then Err (CapTooSmall hard_cap minimum segment_target_size wal_max_size)
  else Ok (budget_new hard_cap segment_target_size policy).

Definition soft_cap_headroom (b : DiskBudget) : Z := saturating_sub (soft_cap b) (used b).

Definition is_over_soft_cap (b : DiskBudget) : bool := soft_cap b <? used b.

Definition add (b : DiskBudget) (bytes : Z) : DiskBudget := b <| used ::= λ u, wrapping_add 64 u bytes |>.

Definition remove (b : DiskBudget) (bytes : Z) : DiskBudget := b <| used ::= λ u, saturating_sub u bytes |>.

Lemma used_add b n : 0 ≤ used b + n < 2 ^ 64 → used (add b n) = used b + n.
Proof. intros Hr. change (used (add b n)) with ((used b + n) mod 2 ^ 64). by rewrite Z.mod_small. Qed.

Lemma used_removed b n : used (remove b n) = Z.max (used b - n) 0.
Proof. by destruct b. Qed.

Lemma used_remove b n : n ≤ used b → used (remove b n) = used b - n.
Proof. rewrite used_removed. lia. Qed.

End Budget.
