(* ===== verification/WalWriter.v ===== *)
(** * Writer of the write-ahead log

    Model of [crates/quiver/src/wal/writer.rs]: appending bundles, rotation of
    the active file, the consumer cursor and its sidecar, purging of consumed
    files, and opening with recovery.  An operation is a computation over the
    writer and the directory of the log that can fail ([wal]); the outcome of
    each I/O call is an observation ([append_io], [cursor_io]).  The open handle
    of the active file follows the file when it is renamed ([active_path]).
    The adaptive sizing of the scratch buffers is not modelled. *)
From S2P Require Import Prelude Bytes Files WalFormat WalReader Budget.

Local Open Scope Z_scope.
Local Open Scope result_scope.

Module WalWriter.
Import WalFormat.
Import WalReader.
Import Budget.

(** ** State *)

Inductive FlushPolicy :=
  | Immediate
  | EveryNBytes (threshold : Z)
  | EveryDuration (interval : Z)
  | BytesOrDuration (bytes duration : Z).

Record WalWriterOptions := mkOptions {
  cfg_hash : list Z;
  flush_policy : FlushPolicy;
  max_wal_size : Z;
  max_rotated_files : Z;
  rotation_target_bytes : Z;
  buffer_decay_rate : Z * Z;
  enforce_file_readonly : bool;
}.

Definition DEFAULT_MAX_WAL_SIZE : Z := u64_max.

Definition DEFAULT_BUFFER_DECAY_RATE : Z * Z := (15, 16).

Definition DEFAULT_MAX_ROTATED_FILES : Z := 8.

Definition DEFAULT_ROTATION_TARGET_BYTES : Z := 64 * 1024 * 1024.

Definition options_new (hash : list Z) (policy : FlushPolicy) : WalWriterOptions :=
  mkOptions hash policy DEFAULT_MAX_WAL_SIZE DEFAULT_MAX_ROTATED_FILES DEFAULT_ROTATION_TARGET_BYTES
            DEFAULT_BUFFER_DECAY_RATE true.

Definition with_max_rotated_files (o : WalWriterOptions) (max_files : Z) : WalWriterOptions :=
  o <| max_rotated_files := Z.max max_files 1 |>.

Definition with_rotation_target (o : WalWriterOptions) (target_bytes : Z) : WalWriterOptions :=
  o <| rotation_target_bytes := Z.min (Z.max target_bytes 1) MAX_ROTATION_TARGET_BYTES |>.

Definition validate (o : WalWriterOptions) : result unit WalError :=
  let '(numerator, denominator) := buffer_decay_rate o in
  if denominator =? 0 then Err (InvalidConfig "buffer_decay_rate denominator must be positive")
  else if denominator <=? numerator
  then Err (InvalidConfig "buffer_decay_rate numerator must be less than denominator for decay")
  else Ok tt.

Record RotatedWalFile := mkRotated {
  rotated_path : string;
  rotated_id : Z;
  file_bytes : Z;
  rotated_end : Z;
}.

Record WalWriter := mkWriter {
  options : WalWriterOptions;
  budget : option DiskBudget;
  active_path : string;
  current_len : Z;
  unflushed_bytes : Z;
  next_sequence : Z;
  cursor_position : Z;
  aggregate_bytes : Z;
  cumulative_bytes_written : Z;
  rotated_files : list RotatedWalFile;
  active_start : Z;
  next_rotation_id : Z;
  active_header_size : Z;
  validated_boundary : Z;
  entry_boundaries : list Z;
  last_cursor_sequence : option Z;
  rotation_count : Z;
  purge_count : Z;
}.

Record WalConsumerCursor := mkCursor {
  safe_offset : Z;
  safe_sequence : Z;
}.

Definition cursor_default : WalConsumerCursor := mkCursor 0 0.

Definition cursor_from_offset (o : WalOffset) : WalConsumerCursor := mkCursor (next_offset o) (sequence o).

Definition cursor_after (b : WalRecordBundle) : WalConsumerCursor := cursor_from_offset (offset b).

Definition cursor_increment (c : WalConsumerCursor) (b : WalRecordBundle) : WalConsumerCursor :=
  mkCursor (record_next_offset b) (record_sequence b).

(** ** Computations *)

Definition wal (A : Type) : Type := WalWriter * Dir → WalWriter * Dir * result A WalError.

Definition ret {A} (a : A) : wal A := λ s, (s, Ok a).

Definition fail {A} (e : WalError) : wal A := λ s, (s, Err e).

Definition bind {A B} (m : wal A) (k : A → wal B) : wal B := λ s,
  match m s with
  | (s, Ok a) => k a s
  | (s, Err e) => (s, Err e)
  end.

Definition lift {A} (r : result A WalError) : wal A := λ s, (s, r).

Definition get_writer : wal WalWriter := λ s, (s, Ok s.1).

Definition get_dir : wal Dir := λ s, (s, Ok s.2).

Definition modify (f : WalWriter → WalWriter) : wal unit := λ s, ((f s.1, s.2), Ok tt).

Definition modify_dir (f : Dir → Dir) : wal unit := λ s, ((s.1, f s.2), Ok tt).

(** An I/O call without an effect on the model, and whether it succeeds. *)
Definition io_call (succeeds : bool) : wal unit := if succeeds then ret tt else fail (Io OtherIo).

Declare Scope wal_scope.
Delimit Scope wal_scope with wal.
Local Open Scope wal_scope.

Notation "x <- m ;; k" := (bind m (λ x, k)) (at level 100, m at next level, right associativity) : wal_scope.
Notation "m ;;; k" := (bind m (λ _, k)) (at level 100, right associativity) : wal_scope.

(** ** Coordinates *)

Definition active_wal_position_start (w : WalWriter) : Z :=
  match last (rotated_files w) with Some f => rotated_end f | None => active_start w end.

Definition to_wal_position (w : WalWriter) (file_offset : Z) : Z :=
  let data_offset := saturating_sub file_offset (active_header_size w) in
  saturating_add u64_max (active_wal_position_start w) data_offset.

Definition to_file_offset (w : WalWriter) (wal_position active_len : Z) : Z :=
  let active_data_len := saturating_sub active_len (active_header_size w) in
  let start := active_wal_position_start w in
  if wal_position <=? start then active_header_size w
  else
    let data_within_active := Z.min (saturating_sub wal_position start) active_data_len in
    saturating_add u64_max (active_header_size w) data_within_active.

Definition rotated_wal_path (id : Z) : string := (WAL_FILENAME +:+ "." +:+ print_u64 id)%string.

Definition budget_add (bytes : Z) (w : WalWriter) : WalWriter := w <| budget ::= fmap (λ b, add b bytes) |>.

Definition budget_remove (bytes : Z) (w : WalWriter) : WalWriter := w <| budget ::= fmap (λ b, remove b bytes) |>.

(** ** Appending *)

Record rotate_io := mkRotateIo {
  rotate_flush : bool;
  rename_ok : bool;
  permissions_ok : bool;
  dir_sync_ok : bool;
  reopen_ok : bool;               (** opening the new file *)
  header_written : option nat;    (** the bytes written when writing the header fails *)
  rotate_sidecar : sidecar_fault;
}.

Record append_io := mkAppendIo {
  written : option nat;           (** the bytes written when the write fails *)
  flush_ok : bool;
  elapsed : Z;                    (** since the last flush *)
  rotation : rotate_io;
}.

(** Every I/O call succeeds. *)
Definition rotate_fine : rotate_io := mkRotateIo true true true true true None (Replacing NoFault).

Definition append_fine (elapsed : Z) : append_io := mkAppendIo None true elapsed rotate_fine.

Section writer.
Context (crc32 : list Z → Z) {Batch : Type} {HB : RecordBatch Batch}.

(** [write_entry]: appends to the open file; a failing write leaves a prefix.  The
    file is a [tokio] file, which may report the error of a write only at the next
    operation on it; here the call that writes is the one that reports. *)
Definition write_entry (io : append_io) (entry_len : Z) (header payload : list Z) (crc : Z) : wal Z :=
  w <- get_writer ;;
  let entry_start := current_len w in
  let entry_buffer := entry_bytes entry_len header payload crc in
  match written io with
  | None =>
      modify_dir (alter (λ c, c ++ entry_buffer) (active_path w)) ;;;
      ret entry_start
  | Some n =>
      modify_dir (alter (λ c, c ++ take n entry_buffer) (active_path w)) ;;;
      fail (Io OtherIo)
  end.

Definition flush_now (ok : bool) : wal unit :=
  io_call ok ;;;
  modify (λ w, w <| unflushed_bytes := 0 |>).

Definition maybe_flush (io : append_io) (bytes_written : Z) : wal unit :=
  modify (λ w, w <| unflushed_bytes ::= λ n, saturating_add u64_max n bytes_written |>) ;;;
  w <- get_writer ;;
  match flush_policy (options w) with
  | Immediate => flush_now (flush_ok io)
  | EveryNBytes threshold =>
      if threshold <=? unflushed_bytes w then flush_now (flush_ok io) else ret tt
  | EveryDuration interval => if interval <=? elapsed io then flush_now (flush_ok io) else ret tt
  | BytesOrDuration bytes duration =>
      if (bytes <=? unflushed_bytes w) || (duration <=? elapsed io)
      then flush_now (flush_ok io) else ret tt
  end.

Definition record_append (entry_end_offset entry_total_bytes : Z) : wal unit :=
  modify (λ w, w <| aggregate_bytes ::= λ n, saturating_add u64_max n entry_total_bytes |>) ;;;
  modify (λ w, w <| cumulative_bytes_written ::= λ n, saturating_add u64_max n entry_total_bytes |>) ;;;
  modify (budget_add entry_total_bytes) ;;;
  modify (λ w, w <| entry_boundaries ::= λ l, l ++ [entry_end_offset] |>).

Definition preflight_append (entry_total_bytes : Z) : wal unit :=
  w <- get_writer ;;
  let will_rotate :=
    rotation_target_bytes (options w) <?
      saturating_sub (saturating_add u64_max (current_len w) entry_total_bytes) (active_header_size w) in
  if will_rotate && (max_rotated_files (options w) <=? zlen (rotated_files w))
  then fail (WalAtCapacity "rotated wal file cap reached; advance cursor before rotating")
  else
    let projected := saturating_add u64_max (aggregate_bytes w) entry_total_bytes in
    let projected :=
      if will_rotate
      then saturating_add u64_max projected (encoded_len (header_new (cfg_hash (options w))))
      else projected in
    if max_wal_size (options w) <? projected
    then fail (WalAtCapacity "wal size cap exceeded; advance cursor to reclaim space")
    else ret tt.

(** [reopen_wal_file]: a new active file with its header. *)
Definition reopen_wal_file (io : rotate_io) (start : Z) : wal unit :=
  w <- get_writer ;;
  let header := header_encode (with_base_offset (cfg_hash (options w)) start) in
  io_call (reopen_ok io) ;;;
  match header_written io with
  | None => modify_dir (<[WAL_FILENAME := header]>)
  | Some n => modify_dir (<[WAL_FILENAME := take n header]>) ;;; fail (Io OtherIo)
  end.

Definition write_sidecar (fault : sidecar_fault) : wal unit := λ s,
  let '(dir, res) := sidecar_write_to crc32 fault s.2 (cursor_position s.1) in ((s.1, dir), res).

(** [tokio::fs::rename] of the active file. *)
Definition rename_active (ok : bool) (path : string) : wal unit :=
  io_call ok ;;;
  dir <- get_dir ;;
  match dir !! WAL_FILENAME with
  | None => fail (Io NotFoundIo)
  | Some content =>
      modify_dir (λ d, <[path := content]> (delete WAL_FILENAME d)) ;;;
      modify (λ w, if decide (active_path w = WAL_FILENAME) then w <| active_path := path |> else w)
  end.

Definition rotate_active_file (io : rotate_io) : wal unit :=
  w <- get_writer ;;
  if max_rotated_files (options w) <=? zlen (rotated_files w)
  then fail (WalAtCapacity "rotated wal file cap reached; advance cursor before rotating")
  else
    flush_now (rotate_flush io) ;;;
    let old_len := current_len w in
    if old_len <=? active_header_size w then ret tt
    else
      modify (λ w, w <| aggregate_bytes ::= λ n, saturating_sub n old_len |>) ;;;
      let id := next_rotation_id w in
      modify (λ w, w <| next_rotation_id ::= λ n, saturating_add u64_max n 1 |>) ;;;
      let new_path := rotated_wal_path id in
      rename_active (rename_ok io) new_path ;;;
      io_call (negb (enforce_file_readonly (options w)) || permissions_ok io) ;;;
      io_call (dir_sync_ok io) ;;;
      let data_bytes := saturating_sub old_len (active_header_size w) in
      let new_end := saturating_add u64_max (active_wal_position_start w) data_bytes in
      modify (λ w, w <| rotated_files ::= λ l, l ++ [mkRotated new_path id old_len new_end] |>) ;;;
      modify (λ w, w <| aggregate_bytes ::= λ n, saturating_add u64_max n old_len |>) ;;;
      modify (λ w, w <| active_start := new_end |>) ;;;
      reopen_wal_file io new_end ;;;
      let new_header_size := encoded_len (header_new (cfg_hash (options w))) in
      modify (λ w, w <| active_header_size := new_header_size |>
                     <| active_path := WAL_FILENAME |> <| current_len := new_header_size |>
                     <| unflushed_bytes := 0 |>
                     <| aggregate_bytes ::= λ n, saturating_add u64_max n new_header_size |>
                     <| validated_boundary := new_header_size |>
                     <| entry_boundaries := [] |>
                     <| rotation_count ::= λ n, saturating_add u64_max n 1 |>) ;;;
      write_sidecar (rotate_sidecar io).

Definition maybe_rotate_after_append (io : rotate_io) : wal unit :=
  w <- get_writer ;;
  let active_data_bytes := saturating_sub (current_len w) (active_header_size w) in
  if active_data_bytes <=? rotation_target_bytes (options w) then ret tt
  else rotate_active_file io.

Definition append_bundle (io : append_io) (bundle : RecordBundle Batch) : wal WalOffset :=
  ts <- lift (system_time_to_nanos (ingestion_time bundle)) ;;
  w <- get_writer ;;
  let seq := next_sequence w in
  encoded <- lift (encode_slots bundle (descriptor_slots bundle) 0 []) ;;
  let '(bitmap, payload) := encoded in
  let header := encode_entry_header ts seq bitmap in
  let entry_body_len := Z.of_nat ENTRY_HEADER_LEN + zlen payload in
  if u32_max <? entry_body_len then fail (EntryTooLarge entry_body_len)
  else
    let crc := crc32 (header ++ payload) in
    let entry_total_bytes := 4 + entry_body_len + 4 in
    preflight_append entry_total_bytes ;;;
    entry_start <- write_entry io entry_body_len header payload crc ;;
    modify (λ w, w <| next_sequence ::= λ n, wrapping_add 64 n 1 |>) ;;;
    let entry_end_offset := saturating_add u64_max entry_start entry_total_bytes in
    modify (λ w, w <| current_len ::= λ n, saturating_add u64_max n entry_total_bytes |>) ;;;
    record_append entry_end_offset entry_total_bytes ;;;
    maybe_flush io entry_total_bytes ;;;
    w <- get_writer ;;
    let wal_position := to_wal_position w entry_start in
    let wal_next_position := to_wal_position w (saturating_add u64_max entry_start entry_total_bytes) in
    maybe_rotate_after_append (rotation io) ;;;
    ret (mkOffset wal_position wal_next_position seq).

(** ** The consumer cursor *)

Record cursor_io := mkCursorIo {
  cursor_sidecar : sidecar_fault;
  remove_ok : string → bool;      (** whether deleting a file succeeds *)
}.

Definition cursor_fine : cursor_io := mkCursorIo (Replacing NoFault) (λ _, true).

Definition ensure_entry_boundary (w : WalWriter) (target : Z) : result unit WalError :=
  if target =? validated_boundary w then Ok tt
  else if target <? validated_boundary w
  then Err (InvalidConsumerCursor "safe offset regressed (file offset)")
  else if target =? active_header_size w then Ok tt
  else if bool_decide (target ∈ entry_boundaries w) then Ok tt
  else Err (InvalidConsumerCursor "safe offset splits entry boundary").

Definition validate_cursor (cursor : WalConsumerCursor) : wal unit :=
  w <- get_writer ;;
  if match last_cursor_sequence w with Some last => safe_sequence cursor <? last | None => false end
  then fail (InvalidConsumerCursor "safe sequence regressed")
  else if safe_offset cursor <? cursor_position w
  then fail (InvalidConsumerCursor "safe offset regressed")
  else
    let start := active_wal_position_start w in
    if safe_offset cursor <=? start then ret tt
    else
      let data_within_active := saturating_sub (safe_offset cursor) start in
      let file_offset := saturating_add u64_max (active_header_size w) data_within_active in
      if current_len w <? file_offset
      then fail (InvalidConsumerCursor "safe offset beyond wal tail")
      else lift (ensure_entry_boundary w file_offset).

Definition record_wal_position (io : cursor_io) (wal_pos : Z) : wal unit :=
  w <- get_writer ;;
  dir <- get_dir ;;
  if (cursor_position w =? wal_pos) && bool_decide (is_Some (dir !! CURSOR_SIDECAR_FILENAME)) then ret tt
  else
    modify (λ w, w <| cursor_position := wal_pos |>) ;;;
    write_sidecar (cursor_sidecar io).

(** The loop of [purge_rotated_files] over the given files. *)
Fixpoint purge_loop (io : cursor_io) (files : list RotatedWalFile) : wal unit :=
  match files with
  | [] => ret tt
  | front :: files' =>
      w <- get_writer ;;
      if rotated_end front <=? cursor_position w then
        let purged_bytes := file_bytes front in
        io_call (remove_ok io (rotated_path front)) ;;;
        modify_dir (delete (rotated_path front)) ;;;
        modify (λ w, w <| aggregate_bytes ::= λ n, saturating_sub n purged_bytes |>) ;;;
        modify (budget_remove purged_bytes) ;;;
        modify (λ w, w <| purge_count ::= λ n, saturating_add u64_max n 1 |>) ;;;
        modify (λ w, w <| rotated_files ::= tail |>) ;;;
        purge_loop io files'
      else ret tt
  end.

Definition purge_rotated_files (io : cursor_io) : wal unit :=
  w <- get_writer ;;
  purge_loop io (rotated_files w).

Definition write_cursor_sidecar (io : cursor_io) (cursor : WalConsumerCursor) : wal unit :=
  let wal_pos := safe_offset cursor in
  record_wal_position io wal_pos ;;;
  w <- get_writer ;;
  let start := active_wal_position_start w in
  (if start <? wal_pos then
     let data_within_active := saturating_sub wal_pos start in
     let file_offset := saturating_add u64_max (active_header_size w) data_within_active in
     modify (λ w, w <| validated_boundary := file_offset |>
                    <| entry_boundaries ::= List.filter (λ o, file_offset <=? o) |>)
   else if wal_pos =? start then modify (λ w, w <| validated_boundary := active_header_size w |>)
   else ret tt) ;;;
  modify (λ w, w <| last_cursor_sequence := Some (safe_sequence cursor) |>) ;;;
  purge_rotated_files io.

Definition persist_cursor (io : cursor_io) (cursor : WalConsumerCursor) : wal unit :=
  validate_cursor cursor ;;;
  write_cursor_sidecar io cursor.

Definition flush (ok : bool) : wal unit := flush_now ok.

(** ** Opening *)

Record ScanResult := mkScan {
  last_sequence : option Z;
  last_valid_offset : Z;
  scan_boundaries : list Z;
}.

(** The errors at which the scan of a file stops. *)
Definition is_damage (e : WalError) : bool :=
  match e with UnexpectedEof _ | InvalidEntry _ | CrcMismatch _ _ => true | _ => false end.

(** The loop over the entries of the file; an entry takes at least one byte, so
    the length of the file is enough fuel. *)
Fixpoint scan_loop (fuel : nat) (bytes : list Z) (header_size start at_offset : Z) (acc : ScanResult)
    : result ScanResult WalError :=
  match fuel with
  | O => Ok acc
  | S fuel' =>
      match entry_at crc32 bytes (zlen bytes) header_size start at_offset with
      | None => Ok acc
      | Some (Err e) => if is_damage e then Ok acc else Err e
      | Some (Ok (bundle, next)) =>
          let position_in_file := saturating_sub (record_next_offset bundle) start in
          let valid := position_in_file + header_size in
          scan_loop fuel' bytes header_size start next
            (mkScan (Some (record_sequence bundle)) valid (scan_boundaries acc ++ [valid]))
      end
  end.

Definition scan_file_for_entries (content : option (list Z)) : result ScanResult WalError :=
  match content with
  | None => Ok (mkScan None 0 [])
  | Some bytes =>
      reader ←! reader_open (Some bytes);
      let hs := reader_header_size reader in
      scan_loop (S (length bytes)) bytes hs (reader_start reader) (offset_of_position reader 0)
        (mkScan None hs [])
  end.

(** [max_by_key(|f| f.rotation_id)] *)
Definition most_recent (files : list RotatedWalFile) : option RotatedWalFile :=
  foldl (λ acc f,
    match acc with
    | None => Some f
    | Some m => if rotated_id m <=? rotated_id f then Some f else acc
    end) None files.

(** The next sequence number, the end of the valid data of the active file, and
    the entry boundaries in it. *)
Definition detect_next_sequence (dir : Dir) (rotated : list RotatedWalFile)
    : result (Z * Z * list Z) WalError :=
  scan ←! scan_file_for_entries (dir !! WAL_FILENAME);
  match last_sequence scan with
  | Some seq => Ok (wrapping_add 64 seq 1, last_valid_offset scan, scan_boundaries scan)
  | None =>
      match most_recent rotated with
      | Some f =>
          rotated_scan ←! scan_file_for_entries (dir !! rotated_path f);
          match last_sequence rotated_scan with
          | Some s => Ok (wrapping_add 64 s 1, last_valid_offset scan, scan_boundaries scan)
          | None => Ok (0, last_valid_offset scan, scan_boundaries scan)
          end
      | None => Ok (0, last_valid_offset scan, scan_boundaries scan)
      end
  end.

(** The sizes of the rotated files, by increasing identifier. *)
Definition discover_rotated_sizes (dir : Dir) (names : list string) : list (Z * Z) :=
  (λ '(id, name), (id, zlen (default [] (dir !! name)))) <$> discover_rotated_wal_files names.

Fixpoint reload_loop (dir : Dir) (discovered : list (Z * Z)) (wal_position max_id : Z)
    : result (list RotatedWalFile * Z) WalError :=
  match discovered with
  | [] => Ok ([], max_id)
  | (id, len) :: discovered' =>
      let path := rotated_wal_path id in
      match dir !! path with
      | None => Err (Io NotFoundIo)
      | Some bytes =>
          header_size ←! read_header_size bytes;
          let data_bytes := saturating_sub len header_size in
          let wal_position := saturating_add u64_max wal_position data_bytes in
          '(files, max_id) ←! reload_loop dir discovered' wal_position (Z.max max_id id);
          Ok (mkRotated path id len wal_position :: files, max_id)
      end
  end.

(** The rotated files and the next rotation identifier. *)
Definition reload_rotated_files (dir : Dir) (names : list string)
    : result (list RotatedWalFile * Z) WalError :=
  match discover_rotated_sizes dir names with
  | [] => Ok ([], 1)
  | discovered =>
      '(files, max_id) ←! reload_loop dir discovered 0 0;
      Ok (files, saturating_add u64_max max_id 1)
  end.

Definition restore_cursor_offsets (w : WalWriter) : WalWriter :=
  let active_len := current_len w in
  let active_data := saturating_sub active_len (active_header_size w) in
  let rotated_total := match last (rotated_files w) with Some f => rotated_end f | None => 0 end in
  let total_on_disk := saturating_add u64_max rotated_total active_data in
  let w := if total_on_disk <? cursor_position w then w <| cursor_position := total_on_disk |> else w in
  w <| validated_boundary := to_file_offset w (cursor_position w) active_len |>.

Definition recalculate_aggregate_bytes (w : WalWriter) : WalWriter :=
  let rotated_total := foldr (λ f, Z.add (file_bytes f)) 0 (rotated_files w) in
  w <| aggregate_bytes := saturating_add u64_max rotated_total (current_len w) |>.

(** The header of the active file, created if the file is new. *)
Definition open_active (o : WalWriterOptions) (dir : Dir) : Dir * result (Z * Z) WalError :=
  let content := default [] (dir !! WAL_FILENAME) in
  let dir := <[WAL_FILENAME := content]> dir in
  match content with
  | [] =>
      let header := header_new (cfg_hash o) in
      (<[WAL_FILENAME := header_encode header]> dir, Ok (0, encoded_len header))
  | _ =>
      if (length content <? WAL_HEADER_MIN_LEN)%nat
      then (dir, Err (InvalidHeader "file smaller than minimum header"))
      else
        (dir,
         header ←! header_read_from content;
         if negb (bool_decide (segment_cfg_hash header = cfg_hash o))
         then Err (SegmentConfigMismatch (cfg_hash o) (segment_cfg_hash header))
         else Ok (wal_position_start header, encoded_len header))
  end.

(** [WalCoordinator::new] and [ActiveWalFile::new], with what the recovery found. *)
Definition writer_new (o : WalWriterOptions) (b : option DiskBudget) (cursor header_size start : Z)
    (rotated : list RotatedWalFile) (next_id next_seq valid : Z) (boundaries : list Z) : WalWriter :=
  mkWriter o b WAL_FILENAME valid 0 next_seq cursor header_size 0 rotated start next_id header_size
           header_size boundaries None 0 0.

Definition open (o : WalWriterOptions) (b : option DiskBudget) (names : list string) (dir : Dir)
    : Dir * result WalWriter WalError :=
  let '(dir, active) := open_active o dir in
  match
    '(start, header_size) ←! active;
    _ ←! validate o;
    cursor ←! load_cursor_state crc32 dir;
    '(rotated, next_id) ←! reload_rotated_files dir names;
    '(next_seq, valid, boundaries) ←! detect_next_sequence dir rotated;
    Ok (start, header_size, cursor, rotated, next_id, next_seq, valid, boundaries)
  with
  | Err e => (dir, Err e)
  | Ok (start, header_size, cursor, rotated, next_id, next_seq, valid, boundaries) =>
      let content := default [] (dir !! WAL_FILENAME) in
      let dir := if valid <? zlen content then <[WAL_FILENAME := take (Z.to_nat valid) content]> dir else dir in
      let w := writer_new o b cursor header_size start rotated next_id next_seq valid boundaries in
      let w := recalculate_aggregate_bytes (restore_cursor_offsets w) in
      let w := budget_add (aggregate_bytes w) w in
      (dir, Ok w)
  end.

End writer.
End WalWriter.
