(* ===== verification/WalLog.v ===== *)
(** * The log that the writer and the reader agree on

    The files of the write-ahead log as a sequence of entries: which bytes the
    rotated files and the active file hold, at which positions of the log their
    entries are, and what the reader returns for such files.  The theorems on
    runs of the writer are in [WalRuns]. *)
From S2P Require Import Prelude Bytes Files WalFormat WalReader Budget WalWriter.

Local Open Scope Z_scope.

Module WalLog.
Import WalFormat.
Import WalReader.
Import WalWriter.

Section log.
Context (crc32 : list Z → Z) (crc32_ok : ∀ l, u32_ok (crc32 l)).

(** ** Files and their entries *)

Record LogFile := mkLogFile {
  lf_id : Z;
  lf_start : Z;
  lf_entries : list LogEntry;
}.

Definition lf_end (f : LogFile) : Z := lf_start f + size (lf_entries f).

Definition lf_path (f : LogFile) : string := rotated_wal_path (lf_id f).

Definition file_content (hash : list Z) (start : Z) (es : list LogEntry) : list Z :=
  header_encode (with_base_offset hash start) ++ frames crc32 es.

(** The entries of the files, oldest first. *)
Definition entries_of (fs : list LogFile) : list LogEntry := concat (lf_entries <$> fs).

(** Files that follow each other without gaps, from one position to another,
    none of them empty. *)
Fixpoint chained (start : Z) (fs : list LogFile) (stop : Z) : Prop :=
  match fs with
  | [] => start = stop
  | f :: fs' => lf_start f = start ∧ lf_entries f ≠ [] ∧ chained (lf_end f) fs' stop
  end.

Definition info_of (f : LogFile) : WalFileInfo := mkInfo (lf_path f) (Some (lf_id f)) (lf_start f) (lf_end f).

Definition active_info (start : Z) (es : list LogEntry) : WalFileInfo :=
  mkInfo WAL_FILENAME None start (start + size es).

Definition file_reader (hash : list Z) (start : Z) (es : list LogEntry) (at_offset : Z) : WalReader :=
  mkReader (file_content hash start es) hash 38 start at_offset (38 + size es) false.

Lemma size_pos es : es ≠ [] → 0 < size es.
Proof.
  destruct es as [|e es]; [done|]. intros _. rewrite size_cons.
  pose proof (frame_len_pos e). pose proof (size_nonneg es). lia.
Qed.

Lemma size_zero es : size es = 0 → es = [].
Proof. intros Hz. destruct es as [|e es]; [done|]. pose proof (size_pos (e :: es) ltac:(done)). lia. Qed.

Lemma entries_of_cons f fs : entries_of (f :: fs) = lf_entries f ++ entries_of fs.
Proof. done. Qed.

Lemma entries_of_app fs fs' : entries_of (fs ++ fs') = entries_of fs ++ entries_of fs'.
Proof. unfold entries_of. by rewrite fmap_app, concat_app. Qed.

Lemma chained_size start fs stop : chained start fs stop → stop = start + size (entries_of fs).
Proof.
  revert start. induction fs as [|f fs IH]; intros start; [cbn; lia|]. intros (Hs & _ & Hc).
  rewrite (IH _ Hc), entries_of_cons, size_app. unfold lf_end. lia.
Qed.

Lemma chained_app start fs mid fs' stop : chained start fs mid → chained mid fs' stop → chained start (fs ++ fs') stop.
Proof.
  revert start. induction fs as [|f fs IH]; intros start; [by intros ->|]. intros (? & ? & Hc) Hc'.
  split_and!; [done..|]. by apply IH.
Qed.

Lemma chained_snoc start fs stop f :
  chained start fs stop → lf_start f = stop → lf_entries f ≠ [] → chained start (fs ++ [f]) (lf_end f).
Proof. intros Hc Hs Hne. by eapply chained_app. Qed.

Lemma chained_starts start fs stop f : chained start fs stop → f ∈ fs → start ≤ lf_start f ∧ lf_end f ≤ stop.
Proof.
  revert start. induction fs as [|g fs IH]; intros start; [by intros _ ?%elem_of_nil|].
  intros (Hs & Hne & Hc) [->|Hin]%elem_of_cons.
  - apply chained_size in Hc. pose proof (size_nonneg (entries_of fs)). unfold lf_end in *. lia.
  - destruct (IH _ Hc Hin). pose proof (size_nonneg (lf_entries g)). unfold lf_end in *. lia.
Qed.

Lemma file_content_length hash start es : length hash = 16%nat → zlen (file_content hash start es) = 38 + size es.
Proof.
  intros Hl. unfold file_content. rewrite zlen_app, frames_length. unfold zlen. by rewrite header_encode_length.
Qed.

(** A prefix of entries with less bytes than another is shorter. *)
Lemma app_size_split h1 h2 es es' : h1 ++ h2 = es ++ es' → size h1 < size es → ∃ m, es = h1 ++ m ∧ h2 = m ++ es'.
Proof.
  revert h1. induction es as [|e es IH]; intros h1 Heq Hlt; [cbn in Hlt; pose proof (size_nonneg h1); lia|].
  destruct h1 as [|x h1]; [by exists (e :: es)|]. cbn in Heq. injection Heq as -> Heq. rewrite !size_cons in Hlt.
  destruct (IH h1 Heq) as (m & -> & ->); [lia|]. by exists m.
Qed.

Lemma app_size_split_ge h1 h2 es es' : h1 ++ h2 = es ++ es' → size es ≤ size h1 → ∃ m, h1 = es ++ m ∧ es' = m ++ h2.
Proof.
  revert h1. induction es as [|e es IH]; intros h1 Heq Hle; [by exists h1|].
  destruct h1 as [|x h1].
  { rewrite size_cons in Hle. change (size []) with 0 in Hle. pose proof (frame_len_pos e). pose proof (size_nonneg es). lia. }
  cbn in Heq. injection Heq as -> Heq. rewrite !size_cons in Hle.
  destruct (IH h1 Heq) as (m & -> & ->); [lia|]. by exists m.
Qed.

(** ** Reading one file *)

Lemma reader_open_file hash start es :
  length hash = 16%nat → u64_ok start →
  reader_open (Some (file_content hash start es)) = Ok (file_reader hash start es 38).
Proof.
  intros Hl Hs. unfold reader_open, file_reader. unfold file_content at 1. rewrite wal_header_roundtrip by done.
  cbn [result_bind]. by rewrite file_content_length.
Qed.

Lemma seek_file hash start es off es1 es2 pos :
  0 ≤ start → es = es1 ++ es2 → pos = start + size es1 → pos + 38 ≤ u64_max →
  seek_to_position (file_reader hash start es off) pos = file_reader hash start es (38 + size es1).
Proof.
  intros Hs -> -> Hmax. unfold seek_to_position, file_reader, offset_of_position, saturating_sub, saturating_add.
  cbn. pose proof (size_nonneg es1). f_equal. lia.
Qed.

Lemma read_next_file hash start es1 e es2 :
  length hash = 16%nat → entry_ok e → 0 ≤ start → start + 38 + size (es1 ++ e :: es2) ≤ u64_max →
  read_next_entry crc32 (file_reader hash start (es1 ++ e :: es2) (38 + size es1)) =
    (file_reader hash start (es1 ++ e :: es2) (38 + size (es1 ++ [e])),
     Some (Ok (record_at (start + size es1) e))).
Proof.
  intros Hl He Hs Hmax. unfold read_next_entry, file_reader. cbn [finished file file_len reader_header_size reader_start next_file_offset].
  assert (file_content hash start (es1 ++ e :: es2) =
    file_content hash start es1 ++ frame crc32 e ++ frames crc32 es2) as Heq.
  { unfold file_content. rewrite frames_app, frames_cons. by rewrite app_assoc. }
  rewrite size_app, size_cons in *. pose proof (size_nonneg es1). pose proof (size_nonneg es2).
  pose proof (entry_at_frame crc32 crc32_ok (file_content hash start es1) e (frames crc32 es2) 38 start) as Hat.
  rewrite <- Heq in Hat. rewrite !file_content_length in Hat by done.
  rewrite size_app, size_cons in Hat. rewrite Hat by (done || lia).
  replace (start + (38 + size es1) - 38) with (start + size es1) by lia.
  replace (38 + size (es1 ++ [e])) with (38 + size es1 + frame_len e) by (rewrite size_app, size_cons; cbn; lia). done.
Qed.

Lemma read_end_file hash start es :
  length hash = 16%nat → (read_next_entry crc32 (file_reader hash start es (38 + size es))).2 = None.
Proof.
  intros Hl. unfold read_next_entry, file_reader. cbn [finished file file_len reader_header_size reader_start next_file_offset].
  rewrite <- (file_content_length hash start es) by done. by rewrite entry_at_end.
Qed.

(** ** Reading all files *)

Section files.
Context (hash : list Z) (Hhash : length hash = 16%nat) (dir : Dir).

(** A file of the log, by the description that the reader holds of it. *)
Record file_at (info : WalFileInfo) (es : list LogEntry) : Prop := {
  at_content : dir !! info_path info = Some (file_content hash (info_start info) es);
  at_start : u64_ok (info_start info);
  at_end : info_end info = info_start info + size es;
  at_bound : info_end info + 38 ≤ u64_max;
  at_entries : Forall entry_ok es;
}.

(** Consecutive files. *)
Inductive files_at : Z → list WalFileInfo → list LogEntry → Prop :=
  | files_nil pos : files_at pos [] []
  | files_cons info es infos es' :
      file_at info es → files_at (info_end info) infos es' →
      files_at (info_start info) (info :: infos) (es ++ es').

Lemma multi_next_open info infos es pos :
  file_at info es → pos ≤ info_end info →
  (∃ es1 es2, es = es1 ++ es2 ∧ Z.max pos (info_start info) = info_start info + size es1) →
  ∃ es1 es2, es = es1 ++ es2 ∧ Z.max pos (info_start info) = info_start info + size es1 ∧
    multi_next_from crc32 dir (info :: infos) None pos =
    multi_next_from crc32 dir (info :: infos) (Some (file_reader hash (info_start info) es (38 + size es1))) pos.
Proof.
  intros [Hc Hs He Hb _] Hpos (es1 & es2 & Hes & Hmax). exists es1, es2. split; [done|]. split; [done|].
  cbn [multi_next_from]. rewrite Hc, reader_open_file by done. rewrite (seek_file _ _ _ _ es1 es2); [done|..].
  - by destruct Hs.
  - done.
  - done.
  - pose proof (size_nonneg es). lia.
Qed.

Lemma collect_next fuel it it' :
  multi_next crc32 dir it = multi_next crc32 dir it' → collect crc32 fuel dir it = collect crc32 fuel dir it'.
Proof. intros H. destruct fuel as [|fuel]; [done|]. cbn [collect]. by rewrite H. Qed.

(** From inside a file: its remaining entries, then those of the next files. *)
Lemma collect_reader info infos es1 es2 es' pos fuel rest :
  file_at info (es1 ++ es2) → pos ≤ info_end info →
  (∀ fuel pos, pos ≤ info_end info → (length es' < fuel)%nat → collect crc32 fuel dir (mkIter infos None pos) = (rest, None)) →
  (length (es2 ++ es') < fuel)%nat →
  collect crc32 fuel dir
    (mkIter (info :: infos) (Some (file_reader hash (info_start info) (es1 ++ es2) (38 + size es1))) pos) =
  (place (info_start info + size es1) es2 ++ rest, None).
Proof.
  intros Hat. revert es1 pos fuel Hat. induction es2 as [|e es2 IH]; intros es1 pos fuel Hat Hpos Hrest Hfuel.
  - rewrite app_nil_r in *. cbn [place app] in *. rewrite <- (Hrest fuel pos) by done. apply collect_next.
    unfold multi_next. cbn [iter_files current_reader start_position multi_next_from].
    pose proof (read_end_file hash (info_start info) es1 Hhash) as Hend.
    destruct (read_next_entry _ _) as [r [?|]]; [done|]. done.
  - destruct fuel as [|fuel]; [cbn in Hfuel; lia|]. cbn [collect].
    unfold multi_next. cbn [iter_files current_reader start_position multi_next_from].
    pose proof Hat as [Hc Hs He Hb Hes]. rewrite read_next_file; [|done| | |].
    + cbn [record_next_offset record_at].
      replace (es1 ++ e :: es2) with ((es1 ++ [e]) ++ es2) in * by (by rewrite <- app_assoc).
      rewrite IH; [|done| |done|cbn in Hfuel; lia].
      * replace (info_start info + size (es1 ++ [e])) with (info_start info + size es1 + frame_len e)
          by (rewrite size_app, size_cons; cbn; lia). done.
      * rewrite He, !size_app, size_cons. pose proof (size_nonneg es2). cbn. lia.
    + apply Forall_app in Hes as [_ Hes]. by apply Forall_cons in Hes as [? _].
    + by destruct Hs.
    + lia.
Qed.

Lemma collect_files start infos es pos fuel :
  files_at start infos es → pos ≤ start → (length es < fuel)%nat →
  collect crc32 fuel dir (mkIter infos None pos) = (place start es, None).
Proof.
  intros Hf. revert pos fuel. induction Hf as [start|info es infos es' Hat Hf IH]; intros pos fuel Hpos Hfuel.
  { destruct fuel; done. }
  pose proof (at_end _ _ Hat) as He. pose proof (size_nonneg es).
  destruct (multi_next_open info infos es pos Hat) as (es1 & es2 & Hes & Hsz & Hnext); [lia| |].
  { exists [], es. split; [done|]. cbn. lia. }
  assert (es1 = []) as -> by (apply size_zero; lia).
  cbn [app] in Hes. subst es2.
  rewrite (collect_next _ _ (mkIter (info :: infos) (Some (file_reader hash (info_start info) ([] ++ es) (38 + size []))) pos))
    by exact Hnext.
  rewrite (collect_reader info infos [] es es' pos fuel (place (info_end info) es')); [|done|lia| |done].
  - rewrite place_app, He. cbn. by rewrite Z.add_0_r.
  - intros fuel' pos' Hpos' Hfuel'. by apply IH.
Qed.

(** Reading from an entry boundary returns exactly the entries from there on. *)
Lemma collect_from start infos h1 h2 fuel :
  files_at start infos (h1 ++ h2) → (length (h1 ++ h2) < fuel)%nat →
  collect crc32 fuel dir (multi_iter_from infos (start + size h1)) = (place (start + size h1) h2, None).
Proof.
  unfold multi_iter_from. intros Hf. remember (h1 ++ h2) as es eqn:Hh. revert h1 Hh.
  induction Hf as [start|info es infos es' Hat Hf IH]; intros h1 Hh Hfuel.
  { symmetry in Hh. apply app_eq_nil in Hh as [-> ->]. cbn. by destruct fuel. }
  pose proof (at_end _ _ Hat) as He. cbn [skip_until]. rewrite He.
  destruct (Z.ltb_spec (info_start info + size h1) (info_start info + size es)).
  - destruct (app_size_split h1 h2 es es') as (m & -> & ->); [done|lia|]. pose proof (size_nonneg h1).
    destruct (multi_next_open info infos (h1 ++ m) (info_start info + size h1) Hat) as (es1 & es2 & Hes & Hsz & Hnext).
    { rewrite He. lia. }
    { exists h1, m. split; [done|]. lia. }
    assert (size es1 = size h1) as Hs1 by lia.
    destruct (app_size_split_ge es1 es2 h1 m) as (x & Hx & ->); [done|lia|]. subst es1.
    rewrite size_app in Hs1. assert (x = []) as -> by (apply size_zero; lia).
    rewrite app_nil_r in *. cbn [app] in *.
    rewrite (collect_next _ _ (mkIter (info :: infos) (Some (file_reader hash (info_start info) (h1 ++ es2) (38 + size h1)))
      (info_start info + size h1))) by exact Hnext.
    rewrite (collect_reader info infos h1 es2 es' _ fuel (place (info_end info) es')).
    + rewrite place_app, He, size_app. by rewrite Z.add_assoc.
    + done.
    + rewrite He. lia.
    + intros. by apply collect_files with (1 := Hf).
    + rewrite !length_app in *. lia.
  - destruct (app_size_split_ge h1 h2 es es') as (m & -> & ->); [done|lia|].
    rewrite size_app, Z.add_assoc, <- He. apply IH; [done|]. rewrite !length_app in *. lia.
Qed.

End files.

(** ** The directory of the log *)

(** The identifier in the name of a rotated file. *)
Definition rotated_name (name : string) : option Z :=
  suffix ← strip_prefix (WAL_FILENAME +:+ ".") name;
  parse_u64 suffix.

(** The directory holds the given rotated files and active file, and no other
    file that looks like a rotated one. *)
Record layout (dir : Dir) (hash : list Z) (fs : list LogFile) (start : Z) (act : list LogEntry) : Prop := {
  lay_hash : length hash = 16%nat;
  lay_active : dir !! WAL_FILENAME = Some (file_content hash start act);
  lay_files : ∀ f, f ∈ fs → dir !! lf_path f = Some (file_content hash (lf_start f) (lf_entries f));
  lay_names : ∀ name id, is_Some (dir !! name) → rotated_name name = Some id →
    ∃ f, f ∈ fs ∧ lf_id f = id ∧ lf_path f = name;
  lay_ids : StronglySorted (λ f g, lf_id f < lf_id g) fs;
  lay_u64 : Forall (λ f, u64_ok (lf_id f)) fs;
}.

(** Where the files are in the log. *)
Record placed (p : Z) (fs : list LogFile) (start : Z) (act : list LogEntry) : Prop := {
  placed_chain : chained p fs start;
  placed_low : 0 ≤ p;
  placed_high : start + size act + 38 ≤ u64_max;
  placed_entries : Forall entry_ok (entries_of fs ++ act);
}.

Lemma rotated_name_path id : u64_ok id → rotated_name (rotated_wal_path id) = Some id.
Proof. intros Hid. transitivity (parse_u64 (print_u64 id)); [reflexivity|by apply parse_print_u64]. Qed.

Lemma NoDup_omap_name {A} (f : string → option A) (g : A → string) names :
  (∀ name x, f name = Some x → g x = name) → NoDup names → NoDup (omap f names).
Proof.
  intros Hg. induction 1 as [|name names Hnin Hnd IH]; [constructor|]. cbn.
  destruct (f name) as [x|] eqn:Hx; [|done]. constructor; [|done].
  intros (name' & Hin & Hx')%list_elem_of_omap. apply Hg in Hx, Hx'. congruence.
Qed.

Lemma discover_layout dir hash fs start act names :
  layout dir hash fs start act → names ≡ₚ (map_to_list dir).*1 →
  discover_rotated_wal_files names = (λ f, (lf_id f, lf_path f)) <$> fs.
Proof.
  intros [_ _ Hfiles Hnames Hids Hu] Hperm. apply sort_by_key_unique.
  - apply NoDup_Permutation.
    + apply (NoDup_omap_name _ snd).
      { intros name x Hx. destruct (strip_prefix _ name) as [sfx|]; [|done]. cbn in Hx.
        destruct (parse_u64 sfx); [|done]. by injection Hx as <-. }
      rewrite Hperm. apply NoDup_fst_map_to_list.
    + apply (NoDup_fmap_1 fst). rewrite <- list_fmap_compose. clear -Hids.
      induction Hids as [|f fs Hs IH Hf]; [constructor|]. cbn. constructor; [|done].
      intros (g & Hg & Hin)%list_elem_of_fmap. rewrite Forall_forall in Hf. specialize (Hf g Hin). cbn in *. lia.
    + intros [id name]. rewrite list_elem_of_omap, list_elem_of_fmap. split.
      * intros (name' & Hin & Hx). rewrite Hperm in Hin. apply list_elem_of_fmap in Hin as ([n c] & -> & Hin).
        apply elem_of_map_to_list in Hin. cbn in Hx.
        destruct (Hnames n id) as (f & Hf & Hfid & Hfp).
        { by eexists. }
        { unfold rotated_name. destruct (strip_prefix _ n) as [sfx|]; [|done]. cbn in *.
          destruct (parse_u64 sfx); [|done]. by injection Hx as ->. }
        exists f. split; [|done]. destruct (strip_prefix _ n) as [sfx|]; [|done]. cbn in Hx.
        destruct (parse_u64 sfx); [|done]. cbn in Hx. congruence.
      * intros (f & [= -> ->] & Hin). exists (lf_path f). split.
        -- rewrite Hperm. apply list_elem_of_fmap. eexists (_, _). split; [|apply elem_of_map_to_list, Hfiles, Hin]. done.
        -- rewrite Forall_forall in Hu. pose proof (rotated_name_path (lf_id f) (Hu f Hin)) as Hn.
           unfold rotated_name in Hn. unfold lf_path. destruct (strip_prefix _ _) as [sfx|]; [|done].
           cbn in *. by rewrite Hn.
  - clear -Hids. induction Hids as [|f fs Hs IH Hf]; [constructor|]. cbn. constructor; [done|].
    apply Forall_fmap. eapply Forall_impl; [done|]. intros g Hg. exact Hg.
Qed.

Lemma file_info_at dir hash path id start es :
  length hash = 16%nat → u64_ok start → start + size es ≤ u64_max → dir !! path = Some (file_content hash start es) →
  file_info dir path id = Ok (mkInfo path id start (start + size es)).
Proof.
  intros Hh Hs Hmax Hp. unfold file_info. rewrite Hp, reader_open_file by done. cbn [result_bind].
  unfold wal_position_end, file_reader, saturating_add, saturating_sub. cbn. pose proof (size_nonneg es).
  repeat f_equal. lia.
Qed.

Lemma placed_file p fs start act f :
  placed p fs start act → f ∈ fs →
  u64_ok (lf_start f) ∧ lf_end f ≤ start ∧ lf_end f + 38 ≤ u64_max ∧ Forall entry_ok (lf_entries f).
Proof.
  intros [Hc Hlo Hhi Hes] Hin. destruct (chained_starts _ _ _ _ Hc Hin) as [H1 H2].
  pose proof (size_nonneg act). pose proof (size_nonneg (lf_entries f)). unfold lf_end in *.
  change u64_max with 18446744073709551615 in *.
  split_and!; [unfold u64_ok; lia|lia|lia|]. apply Forall_app in Hes as [Hes _]. unfold entries_of in Hes.
  apply Forall_concat in Hes. rewrite Forall_fmap, Forall_forall in Hes. by apply Hes.
Qed.

Lemma placed_start p fs start act : placed p fs start act → u64_ok start.
Proof.
  intros [Hc Hlo Hhi _]. apply chained_size in Hc. pose proof (size_nonneg (entries_of fs)). pose proof (size_nonneg act).
  change u64_max with 18446744073709551615 in *. unfold u64_ok. lia.
Qed.

Lemma chained_infos p fs start act :
  chained p fs start → StronglySorted (λ a b, info_start a < info_start b) ((info_of <$> fs) ++ [active_info start act]).
Proof.
  revert p. induction fs as [|f fs IH]; intros p; [by repeat constructor|]. intros (Hs & Hne & Hc). cbn.
  constructor; [by eapply IH|]. pose proof (size_pos _ Hne). apply Forall_app. split.
  - apply Forall_fmap, Forall_forall. intros g Hg. destruct (chained_starts _ _ _ _ Hc Hg). unfold lf_end in *. cbn. lia.
  - apply Forall_singleton. apply chained_size in Hc. pose proof (size_nonneg (entries_of fs)). unfold lf_end in *. cbn. lia.
Qed.

(** Opening the reader finds the files in the order of the log. *)
Lemma multi_open_layout dir hash p fs start act names :
  layout dir hash fs start act → placed p fs start act → names ≡ₚ (map_to_list dir).*1 →
  multi_open dir names = Ok ((info_of <$> fs) ++ [active_info start act]).
Proof.
  intros Hl Hp Hperm. unfold multi_open. rewrite (discover_layout dir hash fs start act) by done.
  assert (omap (λ '(id, path), match file_info dir path (Some id) with Ok i => Some i | Err _ => None end)
    ((λ f, (lf_id f, lf_path f)) <$> fs) = info_of <$> fs) as ->.
  { assert (∀ f, f ∈ fs → file_info dir (lf_path f) (Some (lf_id f)) = Ok (info_of f)) as Hinfo.
    { intros f Hin. destruct (placed_file _ _ _ _ f Hp Hin) as (? & ? & ? & _).
      apply (file_info_at dir hash); [apply Hl|done| |by apply Hl]. unfold lf_end in *. lia. }
    clear -Hinfo. induction fs as [|f fs IH]; [done|]. rewrite !fmap_cons. cbn.
    rewrite (Hinfo f) by (by left). f_equal. apply IH. intros g Hg. apply Hinfo. by right. }
  rewrite (lay_active _ _ _ _ _ Hl).
  rewrite (file_info_at dir hash WAL_FILENAME None start act).
  - cbn [result_bind]. f_equal. apply sort_by_key_unique; [done|]. by eapply chained_infos, Hp.
  - apply Hl.
  - by eapply placed_start.
  - pose proof (placed_high _ _ _ _ Hp). lia.
  - apply Hl.
Qed.

Lemma files_at_chain dir hash p fs start act :
  (∀ f, f ∈ fs → file_at hash dir (info_of f) (lf_entries f)) → file_at hash dir (active_info start act) act →
  chained p fs start → files_at hash dir p ((info_of <$> fs) ++ [active_info start act]) (entries_of fs ++ act).
Proof.
  intros Hfiles Hact. revert p. induction fs as [|f fs IH]; intros p Hc.
  - cbn in Hc. subst p. cbn [fmap list_fmap app]. rewrite <- (app_nil_r (entries_of [] ++ act)).
    apply (files_cons hash dir (active_info start act) act [] []); [done|constructor].
  - destruct Hc as (<- & _ & Hc). rewrite fmap_cons, entries_of_cons, <- app_assoc. cbn [app].
    apply (files_cons hash dir (info_of f)); [apply Hfiles; by left|].
    apply IH; [|done]. intros g Hg. apply Hfiles. by right.
Qed.

(** The newest files of a log. *)
Lemma files_at_suffix dir hash p fs start act p' pre post :
  layout dir hash fs start act → placed p fs start act → fs = pre ++ post → chained p' post start →
  files_at hash dir p' ((info_of <$> post) ++ [active_info start act]) (entries_of post ++ act).
Proof.
  intros Hl Hp -> Hc. apply files_at_chain; [| |done].
  - intros f Hin. assert (f ∈ pre ++ post) as Hin' by (apply elem_of_app; by right).
    destruct (placed_file _ _ _ _ f Hp Hin') as (? & ? & ? & ?). split; try done. by apply Hl.
  - split; try done; [apply Hl|by eapply placed_start|by eapply placed_high|].
    pose proof (placed_entries _ _ _ _ Hp) as Hes. by apply Forall_app in Hes as [_ ?].
Qed.

Lemma files_at_layout dir hash p fs start act :
  layout dir hash fs start act → placed p fs start act →
  files_at hash dir p ((info_of <$> fs) ++ [active_info start act]) (entries_of fs ++ act).
Proof. intros Hl Hp. apply (files_at_suffix dir hash p fs start act p [] fs); [done..|]. by apply placed_chain with act. Qed.

(** Reading a log from an entry boundary. *)
Lemma read_layout dir hash p fs start act names h1 h2 fuel :
  layout dir hash fs start act → placed p fs start act → names ≡ₚ (map_to_list dir).*1 →
  entries_of fs ++ act = h1 ++ h2 → (length (h1 ++ h2) < fuel)%nat →
  ∃ files, multi_open dir names = Ok files ∧
    collect crc32 fuel dir (multi_iter_from files (p + size h1)) = (place (p + size h1) h2, None).
Proof.
  intros Hl Hp Hperm Heq Hfuel. eexists. split; [by eapply multi_open_layout|].
  eapply collect_from; [apply Hl| |done]. rewrite <- Heq. by apply files_at_layout.
Qed.

End log.
End WalLog.
