(* ===== verification/WalRuns.v ===== *)
(** * Runs of the write-ahead log

    The invariant that ties the writer to the files on disk, that appending,
    rotating, moving the consumer cursor and purging keep it, and what it gives:
    the reader returns exactly the entries that were appended and not consumed. *)
From S2P Require Import Prelude Bytes Files WalFormat WalReader Budget WalWriter WalLog.

Local Open Scope Z_scope.

Module WalRuns.
Import WalFormat.
Import WalReader.
Import WalWriter.
Import WalLog.
Import Budget.

Section runs.
Context (crc32 : list Z → Z) (crc32_ok : ∀ l, u32_ok (crc32 l)).
Context {Batch : Type} {HB : RecordBatch Batch}.

(** ** Invariant *)

(** [x] is the end of a prefix of the entries that begin at [off]. *)
Definition boundary (off : Z) (es : list LogEntry) (x : Z) : Prop :=
  ∃ a b, es = a ++ b ∧ x = off + size a.

Definition rotated_of (f : LogFile) : RotatedWalFile :=
  mkRotated (lf_path f) (lf_id f) (38 + size (lf_entries f)) (lf_end f).

(** The bytes of the given rotated files. *)
Definition disk_size (fs : list LogFile) : Z := foldr (λ f n, 38 + size (lf_entries f) + n) 0 fs.

(** [purged]: the entries of the files deleted so far; [fs]: the rotated files;
    [act]: the entries of the active file. *)
Record wal_inv (w : WalWriter) (dir : Dir) (purged : list LogEntry) (fs : list LogFile) (act : list LogEntry)
    : Prop := {
  inv_layout : layout crc32 dir (cfg_hash (options w)) fs (active_start w) act;
  inv_placed : placed (size purged) fs (active_start w) act;
  inv_purged : Forall entry_ok purged;
  inv_path : active_path w = WAL_FILENAME;
  inv_len : current_len w = 38 + size act;
  inv_header : active_header_size w = 38;
  inv_rotated : rotated_files w = rotated_of <$> fs;
  inv_ids : Forall (λ f, lf_id f < next_rotation_id w) fs;
  inv_next_id : 1 ≤ next_rotation_id w ≤ zlen (purged ++ entries_of fs) + 1;
  inv_seq : next_sequence w = zlen (purged ++ entries_of fs ++ act);
  inv_boundaries : ∀ x, x ∈ entry_boundaries w → boundary 38 act x;
  inv_validated : boundary 38 act (validated_boundary w);
  inv_cursor : size purged ≤ cursor_position w ≤ size (purged ++ entries_of fs ++ act);
  inv_cursor_active : active_start w < cursor_position w → boundary (active_start w) act (cursor_position w);
  inv_sidecar : load_cursor_state crc32 dir = Ok (cursor_position w);
  inv_aggregate : aggregate_bytes w = disk_size fs + current_len w;
  inv_tracked x : boundary 38 act x → 38 < x → cursor_position w < active_start w + (x - 38) → x ∈ entry_boundaries w;
  inv_validated_le : validated_boundary w ≤ Z.max 38 (38 + (cursor_position w - active_start w));
}.

Lemma frame_len_bound e : entry_ok e → frame_len e ≤ 2 ^ 29.
Proof. intros He. pose proof (entry_size_ok e He). unfold frame_len. change MAX_ENTRY_SIZE with 268435456 in *. lia. Qed.

Lemma size_bound es : Forall entry_ok es → size es ≤ zlen es * 2 ^ 29.
Proof.
  induction 1 as [|e es He Hes IH]; [done|]. rewrite size_cons, zlen_cons. pose proof (frame_len_bound e He). lia.
Qed.

Lemma disk_size_bound p fs stop :
  chained p fs stop → 0 ≤ disk_size fs ≤ 38 * zlen (entries_of fs) + size (entries_of fs).
Proof.
  revert p. induction fs as [|f fs IH]; intros p; [done|]. intros (_ & Hne & Hc). destruct (IH _ Hc).
  rewrite entries_of_cons, zlen_app, size_app. cbn [disk_size foldr]. fold (disk_size fs).
  pose proof (size_nonneg (lf_entries f)). destruct (lf_entries f) as [|e es]; [done|]. rewrite zlen_cons.
  pose proof (zlen_nonneg es). lia.
Qed.

Lemma disk_size_app fs fs' : disk_size (fs ++ fs') = disk_size fs + disk_size fs'.
Proof. induction fs as [|f fs IH]; [done|]. cbn [app disk_size foldr]. fold (disk_size (fs ++ fs')) (disk_size fs). lia. Qed.

Lemma boundary_app off es es' x : boundary off es x → boundary off (es ++ es') x.
Proof. intros (a & b & -> & ->). exists a, (b ++ es'). by rewrite app_assoc. Qed.

Lemma boundary_snoc off es e x : boundary off (es ++ [e]) x → boundary off es x ∨ x = off + size (es ++ [e]).
Proof.
  intros (a & b & Heq & ->). destruct b as [|y b _] using rev_ind.
  - right. by rewrite app_nil_r in Heq; subst a.
  - left. rewrite app_assoc in Heq. apply app_inj_tail in Heq as [-> _]. by exists a, b.
Qed.

Lemma boundary_all off es : boundary off es (off + size es).
Proof. exists es, []. by rewrite app_nil_r. Qed.

Lemma boundary_start off es : boundary off es off.
Proof. exists [], es. split; [done|]. cbn. lia. Qed.

Lemma last_rotated p fs start : chained p fs start →
  match last (rotated_of <$> fs) with Some f => rotated_end f | None => start end = start.
Proof.
  revert p. induction fs as [|f fs IH]; intros p; [done|]. intros (_ & _ & Hc). specialize (IH _ Hc).
  rewrite fmap_cons, last_cons. destruct (last (rotated_of <$> fs)) as [g|] eqn:Hl; [done|].
  apply last_None in Hl. apply fmap_nil_inv in Hl. subst fs. exact Hc.
Qed.

Lemma inv_start w dir purged fs act :
  wal_inv w dir purged fs act → active_wal_position_start w = active_start w.
Proof.
  intros Hi. unfold active_wal_position_start. rewrite (inv_rotated _ _ _ _ _ Hi).
  apply (last_rotated (size purged)). apply (inv_placed _ _ _ _ _ Hi).
Qed.

Lemma inv_start_size w dir purged fs act :
  wal_inv w dir purged fs act → active_start w = size (purged ++ entries_of fs).
Proof.
  intros Hi. rewrite size_app. apply chained_size. apply (inv_placed _ _ _ _ _ Hi).
Qed.

Lemma inv_entries w dir purged fs act : wal_inv w dir purged fs act → Forall entry_ok (purged ++ entries_of fs ++ act).
Proof. intros Hi. apply Forall_app. split; [apply Hi|apply (inv_placed _ _ _ _ _ Hi)]. Qed.

(** Positions stay far from overflow. *)
Lemma inv_bound w dir purged fs act :
  wal_inv w dir purged fs act → zlen (purged ++ entries_of fs ++ act) ≤ 2 ^ 32 →
  size (purged ++ entries_of fs ++ act) ≤ 2 ^ 61.
Proof. intros Hi Hn. pose proof (size_bound _ (inv_entries _ _ _ _ _ Hi)). lia. Qed.

(** ** Computations *)

Lemma bind_ok {A B} (m : wal A) (k : A → wal B) s s' a : m s = (s', Ok a) → bind m k s = k a s'.
Proof. unfold bind. by intros ->. Qed.

Lemma bind_err {A B} (m : wal A) (k : A → wal B) s s' e : m s = (s', Err e) → bind m k s = (s', Err e).
Proof. unfold bind. by intros ->. Qed.

(** The writer after the bytes of an entry were written. *)
Definition appended (w : WalWriter) (total unflushed : Z) : WalWriter :=
  budget_add total
    (w <| next_sequence ::= λ n, wrapping_add 64 n 1 |>
       <| current_len ::= λ n, saturating_add u64_max n total |>
       <| aggregate_bytes ::= λ n, saturating_add u64_max n total |>
       <| cumulative_bytes_written ::= λ n, saturating_add u64_max n total |>
       <| entry_boundaries ::= λ l, l ++ [saturating_add u64_max (current_len w) total] |>
       <| unflushed_bytes := unflushed |>).

Lemma maybe_flush_fine w dir el n :
  ∃ u, maybe_flush (append_fine el) n (w, dir) = ((w <| unflushed_bytes := u |>, dir), Ok tt).
Proof.
  destruct w as [op bu ap cl ub ns cp ab cw rf ast nr hs vb eb lcs rc pc].
  unfold maybe_flush, bind, modify, get_writer, flush_now, io_call, ret. cbn.
  destruct (flush_policy op); cbn; repeat case_match; by eexists.
Qed.

Lemma get_bind {B} (k : WalWriter → wal B) w dir : bind get_writer k (w, dir) = k w (w, dir).
Proof. done. Qed.

Lemma modify_bind {B} f (k : unit → wal B) w dir : bind (modify f) k (w, dir) = k tt (f w, dir).
Proof. done. Qed.

Lemma write_entry_fine el entry_len header payload crc w dir :
  write_entry (append_fine el) entry_len header payload crc (w, dir) =
    ((w, alter (λ c, c ++ entry_bytes entry_len header payload crc) (active_path w) dir), Ok (current_len w)).
Proof. done. Qed.

Lemma record_append_eq a total w dir :
  record_append a total (w, dir) =
    (((budget_add total
        (w <| aggregate_bytes ::= λ n, saturating_add u64_max n total |>
           <| cumulative_bytes_written ::= λ n, saturating_add u64_max n total |>))
        <| entry_boundaries ::= λ l, l ++ [a] |>, dir), Ok tt).
Proof. done. Qed.

Lemma append_writes w dir (bundle : RecordBundle Batch) el ts bitmap payload :
  let body_len := Z.of_nat ENTRY_HEADER_LEN + zlen payload in
  let header := encode_entry_header ts (next_sequence w) bitmap in
  let total := 4 + body_len + 4 in
  system_time_to_nanos (ingestion_time bundle) = Ok ts →
  encode_slots bundle (descriptor_slots bundle) 0 [] = Ok (bitmap, payload) →
  body_len ≤ u32_max → preflight_append total (w, dir) = ((w, dir), Ok tt) →
  ∃ u,
    append_bundle crc32 (append_fine el) bundle (w, dir) =
    match maybe_rotate_after_append crc32 rotate_fine
            (appended w total u,
             alter (λ c, c ++ entry_bytes body_len header payload (crc32 (header ++ payload))) (active_path w) dir)
    with
    | (s, Ok _) =>
        (s, Ok (mkOffset (to_wal_position (appended w total u) (current_len w))
                         (to_wal_position (appended w total u) (saturating_add u64_max (current_len w) total))
                         (next_sequence w)))
    | (s, Err e) => (s, Err e)
    end.
Proof.
  intros body_len header total Hts Henc Hlen Hpre. unfold append_bundle.
  erewrite bind_ok by (unfold lift; by rewrite Hts). erewrite bind_ok by done.
  erewrite bind_ok by (unfold lift; by rewrite Henc). cbv beta iota zeta.
  rewrite (proj2 (Z.ltb_ge _ _)) by exact Hlen. rewrite (bind_ok _ _ _ _ _ Hpre).
  fold header. fold body_len. fold total.
  set (dir2 := alter _ (active_path w) dir).
  destruct (maybe_flush_fine (appended w total (unflushed_bytes w)) dir2 el total) as [u Hflush]. exists u.
  rewrite (bind_ok _ _ _ _ _ (write_entry_fine _ _ _ _ _ _ _)). rewrite !modify_bind.
  rewrite (bind_ok _ _ _ _ _ (record_append_eq _ _ _ _)). fold dir2.
  replace ((budget_add total _) <| entry_boundaries ::= _ |>) with (appended w total (unflushed_bytes w))
    by (by destruct w).
  rewrite (bind_ok _ _ _ _ _ Hflush), get_bind.
  replace ((appended w total (unflushed_bytes w)) <| unflushed_bytes := u |>) with (appended w total u) by (by destruct w).
  cbv beta zeta. unfold bind. destruct (maybe_rotate_after_append _ _ _) as [s [?|?]]; done.
Qed.

(** What the caps leave for an entry of the given size. *)
Definition has_room (w : WalWriter) (total : Z) : Prop :=
  (rotation_target_bytes (options w) <
     saturating_sub (saturating_add u64_max (current_len w) total) (active_header_size w) →
   zlen (rotated_files w) < max_rotated_files (options w) ∧
   saturating_add u64_max (saturating_add u64_max (aggregate_bytes w) total) 38 ≤ max_wal_size (options w)) ∧
  saturating_add u64_max (aggregate_bytes w) total ≤ max_wal_size (options w).

Lemma preflight_cases total w dir :
  (∃ e, preflight_append total (w, dir) = ((w, dir), Err e)) ∧ ~ has_room w total ∨
  preflight_append total (w, dir) = ((w, dir), Ok tt) ∧ has_room w total.
Proof.
  unfold has_room, preflight_append. rewrite get_bind. cbv zeta.
  change (encoded_len (header_new (cfg_hash (options w)))) with 38.
  set (projected := saturating_add u64_max (aggregate_bytes w) total).
  destruct (Z.ltb_spec (rotation_target_bytes (options w))
    (saturating_sub (saturating_add u64_max (current_len w) total) (active_header_size w))) as [Hrot|Hrot]; cbn [andb].
  - destruct (Z.leb_spec (max_rotated_files (options w)) (zlen (rotated_files w))) as [Hfull|].
    { left. split; [by eexists|]. intros [Hroom _]. destruct (Hroom Hrot). lia. }
    destruct (Z.ltb_spec (max_wal_size (options w)) (saturating_add u64_max projected 38)) as [Hover|Hcap].
    { left. split; [by eexists|]. intros [Hroom _]. destruct (Hroom Hrot). lia. }
    right. split; [done|]. split; [done|]. revert Hcap.
    unfold projected, saturating_add. change u64_max with 18446744073709551615. lia.
  - destruct (Z.ltb_spec (max_wal_size (options w)) projected).
    { left. split; [by eexists|]. intros [_ Hroom]. lia. }
    right. split; [done|]. split; [lia|done].
Qed.

(** ** Names *)

Lemma lf_path_other id name : u64_ok id → rotated_name name = None → rotated_wal_path id ≠ name.
Proof. intros Hid Hn Heq. pose proof (rotated_name_path id Hid). congruence. Qed.

Lemma rotated_path_inj id id' : u64_ok id → u64_ok id' → rotated_wal_path id = rotated_wal_path id' → id = id'.
Proof. intros Hid Hid' Heq. pose proof (rotated_name_path id Hid). pose proof (rotated_name_path id' Hid'). congruence. Qed.

Lemma layout_files_u64 dir hash fs start act f : layout crc32 dir hash fs start act → f ∈ fs → u64_ok (lf_id f).
Proof. intros Hl Hin. pose proof (lay_u64 _ _ _ _ _ _ Hl) as Hu. rewrite Forall_forall in Hu. by apply Hu. Qed.

(** Files of other names do not matter. *)
Lemma layout_ext dir dir' hash fs start act :
  layout crc32 dir hash fs start act →
  (∀ name, name = WAL_FILENAME ∨ is_Some (rotated_name name) → dir' !! name = dir !! name) →
  layout crc32 dir' hash fs start act.
Proof.
  intros Hl Heq. split; try apply Hl.
  - rewrite Heq by (by left). apply Hl.
  - intros f Hin. rewrite Heq; [by apply Hl|]. right. exists (lf_id f). apply rotated_name_path.
    by eapply layout_files_u64.
  - intros name id Hn Hr. rewrite Heq in Hn by (right; by eexists). by eapply Hl.
Qed.

Lemma load_cursor_ext dir dir' :
  dir' !! CURSOR_SIDECAR_FILENAME = dir !! CURSOR_SIDECAR_FILENAME →
  load_cursor_state crc32 dir' = load_cursor_state crc32 dir.
Proof. intros Heq. unfold load_cursor_state, sidecar_read_from. by rewrite Heq. Qed.

Lemma write_sidecar_fine w dir :
  write_sidecar crc32 (Replacing NoFault) (w, dir) =
    ((w, <[CURSOR_SIDECAR_FILENAME := sidecar_encode crc32 (cursor_position w)]>
           (delete (temporary_path CURSOR_SIDECAR_FILENAME) dir)), Ok tt).
Proof. done. Qed.

Lemma sidecar_layout dir hash fs start act pos :
  layout crc32 dir hash fs start act →
  layout crc32 (<[CURSOR_SIDECAR_FILENAME := sidecar_encode crc32 pos]>
    (delete (temporary_path CURSOR_SIDECAR_FILENAME) dir)) hash fs start act.
Proof.
  intros Hl. apply (layout_ext dir); [done|]. intros name Hn.
  rewrite lookup_insert_ne, lookup_delete_ne; [done|..].
  - intros <-. destruct Hn as [?|[? ?]]; discriminate.
  - intros <-. destruct Hn as [?|[? ?]]; discriminate.
Qed.

(** ** Appending *)

Lemma append_keeps w dir purged fs act e u :
  wal_inv w dir purged fs act → zlen (purged ++ entries_of fs ++ act) < 2 ^ 32 → entry_ok e →
  entry_seq e = zlen (purged ++ entries_of fs ++ act) →
  wal_inv (appended w (frame_len e) u) (alter (λ c, c ++ frame crc32 e) WAL_FILENAME dir) purged fs (act ++ [e]).
Proof.
  intros Hi Hn He Hseq. pose proof (inv_bound _ _ _ _ _ Hi ltac:(lia)) as Hsz.
  pose proof (frame_len_bound e He) as Hfb. pose proof (frame_len_pos e) as Hfp.
  pose proof (inv_start_size _ _ _ _ _ Hi) as Hstart.
  assert (size (purged ++ entries_of fs ++ act ++ [e]) = size (purged ++ entries_of fs ++ act) + frame_len e) as Hsize.
  { rewrite !size_app, size_cons. cbn. lia. }
  assert (active_start w + size act = size (purged ++ entries_of fs ++ act)) as Hend.
  { rewrite Hstart, !size_app. lia. }
  destruct Hi as [Hl Hp Hpu Hpa Hlen Hhs Hro Hids Hni Hsq Hb Hv Hc Hca Hsc Hag Htr Hvl].
  pose proof (size_nonneg act). pose proof (size_nonneg (purged ++ entries_of fs)).
  pose proof (disk_size_bound _ _ _ (placed_chain _ _ _ _ Hp)) as Hdisk.
  destruct w as [op bu ap cl ub ns cp ab cw rf ast nr hs vb eb lcs rc pc].
  unfold appended, budget_add, saturating_add. cbn in *. subst ap cl hs.
  change u64_max with 18446744073709551615 in *.
  assert (zlen (purged ++ entries_of fs ++ act ++ [e]) = zlen (purged ++ entries_of fs ++ act) + 1) as Hzl.
  { rewrite !zlen_app. unfold zlen. cbn. lia. }
  split; cbn; try done.
  - pose proof (lay_active _ _ _ _ _ _ Hl) as Hact. split; try apply Hl.
    + rewrite lookup_alter_eq, Hact. cbn. f_equal. unfold file_content. by rewrite frames_app, <- app_assoc, frames_cons, app_nil_r.
    + intros f Hin. rewrite lookup_alter_ne; [by apply Hl|]. apply not_eq_sym, lf_path_other; [by eapply layout_files_u64|done].
    + intros name id Hname Hr. apply (lay_names _ _ _ _ _ _ Hl name id); [|done].
      destruct (decide (name = WAL_FILENAME)) as [->|]; [by eexists|]. by rewrite lookup_alter_ne in Hname.
  - destruct Hp as [H1 H2 H3 H4]. split; [done|done| |].
    + rewrite size_app, size_cons. cbn. change u64_max with 18446744073709551615. lia.
    + rewrite app_assoc. apply Forall_app. by split; [|apply Forall_singleton].
  - rewrite size_app, size_cons. cbn. lia.
  - unfold wrapping_add. rewrite Z.mod_small; [lia|]. pose proof (zlen_nonneg (purged ++ entries_of fs ++ act)). lia.
  - intros x [Hx|Hx%list_elem_of_singleton]%elem_of_app; [by apply boundary_app, Hb|]. subst x.
    replace (Z.min _ _) with (38 + size (act ++ [e])) by (rewrite size_app, size_cons; cbn; lia).
    apply boundary_all.
  - by apply boundary_app.
  - lia.
  - intros. by apply boundary_app, Hca.
  - rewrite <- Hsc. apply load_cursor_ext. by rewrite lookup_alter_ne.
  - rewrite Hag. rewrite !zlen_app in Hn. rewrite !size_app in Hsz.
    pose proof (zlen_nonneg purged). pose proof (zlen_nonneg act). pose proof (size_nonneg purged). lia.
  - intros x Hx H38 Hlt. apply elem_of_app. apply boundary_snoc in Hx as [Hx| ->]; [left; by apply Htr|right].
    apply list_elem_of_singleton. rewrite size_app, size_cons. cbn. lia.
Qed.

(** ** Rotation *)

(** The writer after a rotation. *)
Definition rotated (w : WalWriter) : WalWriter :=
  let old_len := current_len w in
  let id := next_rotation_id w in
  let new_end := saturating_add u64_max (active_wal_position_start w) (saturating_sub old_len (active_header_size w)) in
  w <| next_rotation_id ::= λ n, saturating_add u64_max n 1 |>
    <| rotated_files ::= λ l, l ++ [mkRotated (rotated_wal_path id) id old_len new_end] |>
    <| active_start := new_end |> <| active_header_size := 38 |> <| current_len := 38 |> <| unflushed_bytes := 0 |>
    <| aggregate_bytes ::= λ n,
         saturating_add u64_max (saturating_add u64_max (saturating_sub n old_len) old_len) 38 |>
    <| validated_boundary := 38 |> <| entry_boundaries := [] |>
    <| rotation_count ::= λ n, saturating_add u64_max n 1 |>.

Definition rotated_dir (w : WalWriter) (content : list Z) (dir : Dir) : Dir :=
  <[CURSOR_SIDECAR_FILENAME := sidecar_encode crc32 (cursor_position w)]>
    (delete (temporary_path CURSOR_SIDECAR_FILENAME)
      (<[WAL_FILENAME := header_encode (with_base_offset (cfg_hash (options w)) (active_start (rotated w)))]>
        (<[rotated_wal_path (next_rotation_id w) := content]> (delete WAL_FILENAME dir)))).

Lemma rotate_eq w dir content :
  active_path w = WAL_FILENAME → dir !! WAL_FILENAME = Some content → active_header_size w < current_len w →
  zlen (rotated_files w) < max_rotated_files (options w) →
  rotate_active_file crc32 rotate_fine (w, dir) = ((rotated w, rotated_dir w content dir), Ok tt).
Proof.
  intros Hpath Hdir Hlen Hcap. unfold rotate_active_file. rewrite get_bind.
  rewrite (proj2 (Z.leb_gt _ _)) by lia.
  rewrite (bind_ok _ _ _ (w <| unflushed_bytes := 0 |>, dir) tt) by done.
  cbv zeta. rewrite (proj2 (Z.leb_gt _ _)) by lia. rewrite !modify_bind.
  destruct w as [op bu ap cl ub ns cp ab cw rf ast nr hs vb eb lcs rc pc]. cbn in Hpath. subst ap.
  assert (∀ w', active_path w' = WAL_FILENAME →
    rename_active true (rotated_wal_path nr) (w', dir) =
    ((w' <| active_path := rotated_wal_path nr |>, <[rotated_wal_path nr := content]> (delete WAL_FILENAME dir)), Ok tt)) as Hren.
  { intros w' Hw'. unfold rename_active, bind, io_call, get_dir, ret, modify, modify_dir. cbn [fst snd]. rewrite Hdir. cbn [fst snd].
    by rewrite decide_True. }
  lazymatch goal with
  | |- bind _ _ (?w', _) = _ => rewrite (bind_ok _ _ _ _ _ (Hren w' ltac:(reflexivity)))
  end.
  replace (io_call _) with (@ret unit tt) by (unfold io_call; cbn; by destruct (enforce_file_readonly op)).
  reflexivity.
Qed.

Lemma active_not_rotated id : u64_ok id → rotated_wal_path id ≠ WAL_FILENAME.
Proof. intros. by apply lf_path_other. Qed.

Lemma rotate_layout w dir fs act :
  layout crc32 dir (cfg_hash (options w)) fs (active_start w) act →
  Forall (λ f, lf_id f < next_rotation_id w) fs → u64_ok (next_rotation_id w) →
  layout crc32 (rotated_dir w (file_content crc32 (cfg_hash (options w)) (active_start w) act) dir)
    (cfg_hash (options w)) (fs ++ [mkLogFile (next_rotation_id w) (active_start w) act]) (active_start (rotated w)) [].
Proof.
  intros Hl Hids Hid. apply sidecar_layout. rewrite Forall_forall in Hids.
  assert (∀ f, f ∈ fs → lf_path f ≠ rotated_wal_path (next_rotation_id w)) as Hne.
  { intros f Hin Heq. apply rotated_path_inj in Heq; [|by eapply layout_files_u64|done]. specialize (Hids f Hin). lia. }
  split.
  - apply Hl.
  - rewrite lookup_insert_eq. unfold file_content, frames. cbn. by rewrite app_nil_r.
  - intros f [Hin|Hf%list_elem_of_singleton]%elem_of_app; [|subst f]; cbn.
    + rewrite lookup_insert_ne by (apply not_eq_sym, active_not_rotated; by eapply layout_files_u64).
      rewrite lookup_insert_ne by (by apply not_eq_sym, Hne).
      rewrite lookup_delete_ne by (apply not_eq_sym, active_not_rotated; by eapply layout_files_u64).
      by apply Hl.
    + rewrite lookup_insert_ne by (by apply not_eq_sym, active_not_rotated). by rewrite lookup_insert_eq.
  - intros name id Hname Hr. destruct (decide (name = WAL_FILENAME)) as [->|Hn1]; [discriminate Hr|].
    rewrite lookup_insert_ne in Hname by done.
    destruct (decide (name = rotated_wal_path (next_rotation_id w))) as [->|Hn2].
    + rewrite rotated_name_path in Hr by done. injection Hr as <-.
      eexists. split; [apply elem_of_app; right; by apply list_elem_of_singleton|done].
    + rewrite lookup_insert_ne, lookup_delete_ne in Hname by done.
      destruct (lay_names _ _ _ _ _ _ Hl name id Hname Hr) as (f & Hf & ?). exists f. split; [|done].
      apply elem_of_app. by left.
  - apply StronglySorted_app_2; [|apply Hl|by repeat constructor].
    intros f g Hf Hg%list_elem_of_singleton. subst g. by apply Hids.
  - apply Forall_app. split; [apply Hl|]. by apply Forall_singleton.
Qed.

(** A rotation keeps the log. *)
Lemma rotate_keeps w dir purged fs act :
  wal_inv w dir purged fs act → act ≠ [] → zlen (purged ++ entries_of fs ++ act) ≤ 2 ^ 32 →
  wal_inv (rotated w) (rotated_dir w (file_content crc32 (cfg_hash (options w)) (active_start w) act) dir) purged
    (fs ++ [mkLogFile (next_rotation_id w) (active_start w) act]) [].
Proof.
  intros Hi Hne Hn. pose proof (inv_bound _ _ _ _ _ Hi Hn) as Hsz. pose proof (inv_start_size _ _ _ _ _ Hi) as Hstart.
  pose proof (inv_start _ _ _ _ _ Hi) as Hws.
  assert (active_start w + size act = size (purged ++ entries_of fs ++ act)) as Hend.
  { rewrite Hstart, !size_app. lia. }
  assert (entries_of (fs ++ [mkLogFile (next_rotation_id w) (active_start w) act]) = entries_of fs ++ act) as Hent.
  { rewrite entries_of_app. unfold entries_of at 2. cbn. by rewrite app_nil_r. }
  pose proof (size_nonneg act). pose proof (size_nonneg (purged ++ entries_of fs)).
  pose proof (disk_size_bound _ _ _ (placed_chain _ _ _ _ (inv_placed _ _ _ _ _ Hi))) as Hdisk.
  pose proof (zlen_nonneg purged). pose proof (zlen_nonneg (entries_of fs)).
  assert (0 < zlen act) as Hact by (destruct act; [done|rewrite zlen_cons; pose proof (zlen_nonneg act); lia]).
  destruct Hi as [Hl Hp Hpu Hpa Hlen Hhs Hro Hids Hni Hsq Hb Hv Hc Hca Hsc Hag Htr Hvl].
  assert (u64_ok (next_rotation_id w)) as Hid.
  { rewrite zlen_app in Hni. rewrite !zlen_app in Hn. unfold u64_ok. lia. }
  pose proof (rotate_layout w dir fs act Hl Hids Hid) as Hl'.
  assert (active_start (rotated w) = active_start w + size act) as Hnew.
  { unfold rotated, saturating_add, saturating_sub. rewrite Hws, Hlen, Hhs.
    change u64_max with 18446744073709551615. destruct w. cbn in *. lia. }
  rewrite !zlen_app in *. rewrite !size_app in *.
  split.
  - by destruct w.
  - split.
    + rewrite Hnew. destruct Hp as [Hch _ _ _]. apply (chained_snoc _ fs (active_start w) (mkLogFile _ _ _)); done.
    + apply Hp.
    + rewrite Hnew. change (size []) with 0. change u64_max with 18446744073709551615. lia.
    + rewrite Hent, app_nil_r. apply Hp.
  - done.
  - by destruct w.
  - by destruct w.
  - by destruct w.
  - rewrite fmap_app. cbn [fmap list_fmap]. rewrite <- Hro. unfold rotated_of, lf_end, lf_path. cbn [lf_id lf_start lf_entries].
    rewrite <- Hnew, <- Hlen. by destruct w.
  - apply Forall_app. split.
    + eapply Forall_impl; [exact Hids|]. intros f Hf. destruct w. unfold rotated, saturating_add. cbn in *.
      change u64_max with 18446744073709551615. lia.
    + apply Forall_singleton. destruct w. unfold rotated, saturating_add. cbn in *.
      change u64_max with 18446744073709551615. lia.
  - rewrite Hent, !zlen_app. destruct w. unfold rotated, saturating_add. cbn in *.
    change u64_max with 18446744073709551615. lia.
  - rewrite Hent, app_nil_r, !zlen_app. destruct w. unfold rotated. cbn in *. done.
  - intros x Hx. destruct w. cbn in Hx. by apply elem_of_nil in Hx.
  - replace (validated_boundary (rotated w)) with 38 by (by destruct w). apply boundary_start.
  - rewrite Hent, app_nil_r, !size_app. destruct w. cbn in *. done.
  - rewrite Hnew. destruct w. unfold rotated. cbn in *. lia.
  - unfold rotated_dir. apply sidecar_roundtrip; [done| |by rewrite lookup_insert_eq; destruct w].
    destruct w. cbn in *. unfold u64_ok. pose proof (size_nonneg purged). lia.
  - rewrite disk_size_app. change (disk_size [_]) with (38 + size act + 0). clear Hl' Hsc Hl. destruct w. unfold rotated, saturating_add, saturating_sub. cbn in *.
    change u64_max with 18446744073709551615. subst. pose proof (size_nonneg purged). lia.
  - intros x (a & b & Hnil & ->) H38 _. symmetry in Hnil. apply app_eq_nil in Hnil as [-> _]. cbn in H38. lia.
  - replace (validated_boundary (rotated w)) with 38 by (by destruct w). lia.
Qed.

(** ** Accounting *)

(** The budget, which had [u0] bytes in use when the log was opened, misses the
    headers of the files created by rotations; exactly these unless a purge took
    the counter to zero. *)
Definition budget_misses (u0 : Z) (w : WalWriter) (b : DiskBudget) : Prop :=
  0 ≤ used b ∧ u0 + aggregate_bytes w - 38 * rotation_count w ≤ used b ≤ u0 + aggregate_bytes w ∧
  (purge_count w = 0 ∨ 38 * rotation_count w ≤ u0 + 38 → used b = u0 + aggregate_bytes w - 38 * rotation_count w).

(** The caps are respected, and the budget misses at most the headers. *)
Record accounted (u0 : Z) (w : WalWriter) : Prop := {
  acc_range : u0 ≤ 2 ^ 62;
  acc_files : zlen (rotated_files w) ≤ max_rotated_files (options w);
  acc_bytes : aggregate_bytes w ≤ Z.max 38 (max_wal_size (options w));
  acc_rotations : 0 ≤ rotation_count w < next_rotation_id w;
  acc_purges : 0 ≤ purge_count w;
  acc_budget : 0 ≤ u0 → ∃ b, budget w = Some b ∧ budget_misses u0 w b;
}.

Lemma inv_sizes w dir purged fs act :
  wal_inv w dir purged fs act → zlen (purged ++ entries_of fs ++ act) ≤ 2 ^ 32 →
  aggregate_bytes w = disk_size fs + 38 + size act ∧ 0 ≤ disk_size fs ∧ 0 ≤ size act ∧
  disk_size fs + size act ≤ 2 ^ 62 ∧ next_rotation_id w ≤ 2 ^ 33.
Proof.
  intros Hi Hn. pose proof (inv_bound _ _ _ _ _ Hi Hn) as Hb.
  pose proof (disk_size_bound _ _ _ (placed_chain _ _ _ _ (inv_placed _ _ _ _ _ Hi))) as Hd.
  pose proof (inv_next_id _ _ _ _ _ Hi) as Hid. pose proof (inv_aggregate _ _ _ _ _ Hi) as Hag.
  rewrite (inv_len _ _ _ _ _ Hi) in Hag. rewrite !zlen_app in *. rewrite !size_app in *.
  pose proof (zlen_nonneg purged). pose proof (zlen_nonneg act). pose proof (size_nonneg act).
  pose proof (size_nonneg purged). pose proof (zlen_nonneg (entries_of fs)). lia.
Qed.

Lemma rotated_options w : options (rotated w) = options w.
Proof. by destruct w. Qed.

Lemma rotated_budget w : budget (rotated w) = budget w.
Proof. by destruct w. Qed.

Lemma rotated_aggregate w :
  aggregate_bytes (rotated w) =
    saturating_add u64_max (saturating_add u64_max (saturating_sub (aggregate_bytes w) (current_len w)) (current_len w)) 38.
Proof. by destruct w. Qed.

Lemma rotated_counts w :
  rotation_count (rotated w) = saturating_add u64_max (rotation_count w) 1 ∧ purge_count (rotated w) = purge_count w ∧
  next_rotation_id (rotated w) = saturating_add u64_max (next_rotation_id w) 1 ∧
  zlen (rotated_files (rotated w)) = zlen (rotated_files w) + 1.
Proof. destruct w. split_and!; [done..|]. apply zlen_app. Qed.

Lemma appended_fields w n u :
  options (appended w n u) = options w ∧ rotation_count (appended w n u) = rotation_count w ∧
  purge_count (appended w n u) = purge_count w ∧
  next_rotation_id (appended w n u) = next_rotation_id w ∧ rotated_files (appended w n u) = rotated_files w ∧
  budget (appended w n u) = (λ b, add b n) <$> budget w ∧
  aggregate_bytes (appended w n u) = saturating_add u64_max (aggregate_bytes w) n.
Proof. by destruct w. Qed.

Lemma rotated_accounted u0 w dir purged fs act :
  wal_inv w dir purged fs act → zlen (purged ++ entries_of fs ++ act) ≤ 2 ^ 32 →
  zlen (rotated_files w) < max_rotated_files (options w) →
  saturating_add u64_max (aggregate_bytes w) 38 ≤ max_wal_size (options w) →
  accounted u0 w → accounted u0 (rotated w).
Proof.
  intros Hi Hn Hfiles Hbytes [Hu Hf Hb Hr Hp Hbud]. destruct (inv_sizes _ _ _ _ _ Hi Hn) as (Hag & Hd & Ha & Hsum & Hid).
  pose proof (inv_aggregate _ _ _ _ _ Hi) as Hag'. clear Hi. destruct (rotated_counts w) as (Hrc & Hpc & Hnr & Hrf).
  pose proof (rotated_aggregate w) as Hagg. unfold budget_misses, saturating_add, saturating_sub in *.
  pose proof u64_max_eq.
  split; unfold budget_misses; rewrite ?Hagg, ?Hrc, ?Hpc, ?Hnr, ?Hrf, ?rotated_options, ?rotated_budget; [exact Hu|lia..|].
  intros Hle. destruct (Hbud Hle) as (b & Hb1 & Hb2 & Hb3 & Hb4). exists b. split; [done|].
  split_and!; [lia..|]. intros Hor. rewrite Hb4; lia.
Qed.

Lemma appended_accounted u0 w dir purged fs act e u :
  wal_inv w dir purged fs act → zlen (purged ++ entries_of fs ++ act) ≤ 2 ^ 32 → entry_ok e →
  saturating_add u64_max (aggregate_bytes w) (frame_len e) ≤ max_wal_size (options w) →
  accounted u0 w → accounted u0 (appended w (frame_len e) u).
Proof.
  intros Hi Hn He Hbytes [Hu Hf Hb Hr Hp Hbud]. destruct (inv_sizes _ _ _ _ _ Hi Hn) as (Hag & Hd & Ha & Hsum & Hid).
  pose proof (frame_len_bound e He). pose proof (frame_len_pos e). clear Hi.
  destruct (appended_fields w (frame_len e) u) as (Ho & Hrc & Hpc & Hnr & Hrf & Hbu & Hagg).
  unfold budget_misses, saturating_add in *. pose proof u64_max_eq.
  split; unfold budget_misses; rewrite ?Hagg, ?Hrc, ?Hpc, ?Hbu, ?Ho, ?Hnr, ?Hrf; [exact Hu|lia..|].
  intros Hle. destruct (Hbud Hle) as (b & -> & Hb2 & Hb3 & Hb4). eexists. split; [done|]. rewrite used_add by lia.
  split_and!; [lia..|]. intros Hor. rewrite Hb4; lia.
Qed.

(** ** The operations *)

Lemma inv_position w dir purged fs act a b :
  wal_inv w dir purged fs act → zlen (purged ++ entries_of fs ++ act) ≤ 2 ^ 32 → act = a ++ b →
  to_wal_position w (38 + size a) = size (purged ++ entries_of fs ++ a).
Proof.
  intros Hi Hn ->. pose proof (inv_bound _ _ _ _ _ Hi Hn) as Hb. pose proof (inv_start_size _ _ _ _ _ Hi) as Hs.
  unfold to_wal_position. rewrite (inv_start _ _ _ _ _ Hi), (inv_header _ _ _ _ _ Hi), Hs.
  rewrite !size_app in *. unfold saturating_add, saturating_sub. change u64_max with 18446744073709551615.
  pose proof (size_nonneg purged). pose proof (size_nonneg (entries_of fs)). pose proof (size_nonneg a).
  pose proof (size_nonneg b). lia.
Qed.

(** After the entry was written: the rotation, if it is due. *)
Lemma maybe_rotate_keeps w dir purged fs act s r :
  wal_inv w dir purged fs act → zlen (purged ++ entries_of fs ++ act) ≤ 2 ^ 32 → act ≠ [] →
  (rotation_target_bytes (options w) < saturating_sub (current_len w) (active_header_size w) →
   zlen (rotated_files w) < max_rotated_files (options w) ∧
   saturating_add u64_max (aggregate_bytes w) 38 ≤ max_wal_size (options w)) →
  maybe_rotate_after_append crc32 rotate_fine (w, dir) = (s, r) →
  r = Ok tt ∧ cursor_position s.1 = cursor_position w ∧ options s.1 = options w ∧
  purge_count s.1 = purge_count w ∧ (∀ u0, accounted u0 w → accounted u0 s.1) ∧
  ∃ fs' act', wal_inv s.1 s.2 purged fs' act' ∧ entries_of fs' ++ act' = entries_of fs ++ act.
Proof.
  intros Hi Hn Hne Hcap. unfold maybe_rotate_after_append. rewrite get_bind. cbv zeta.
  destruct (Z.leb_spec (saturating_sub (current_len w) (active_header_size w)) (rotation_target_bytes (options w))).
  - intros [= <- <-]. split_and!; [done..|]. by exists fs, act.
  - destruct (Hcap ltac:(lia)) as [Hfiles Hbytes].
    rewrite (rotate_eq w dir (file_content crc32 (cfg_hash (options w)) (active_start w) act)).
    + intros [= <- <-]. split_and!; [done|by destruct w..|by intros; eapply rotated_accounted|].
      exists (fs ++ [mkLogFile (next_rotation_id w) (active_start w) act]), []. split; [by apply rotate_keeps|].
      rewrite entries_of_app. unfold entries_of at 2. cbn. by rewrite !app_nil_r.
    + apply Hi.
    + apply (inv_layout _ _ _ _ _ Hi).
    + rewrite (inv_header _ _ _ _ _ Hi), (inv_len _ _ _ _ _ Hi). pose proof (size_pos act Hne). lia.
    + done.
Qed.

(** The bundles that the writer accepts: they can be encoded and there is room. *)
Definition accepts (w : WalWriter) (bundle : RecordBundle Batch) : Prop :=
  (∃ ts, system_time_to_nanos (ingestion_time bundle) = Ok ts) ∧
  (∃ encoded, encode_slots bundle (descriptor_slots bundle) 0 [] = Ok encoded) ∧
  has_room w (frame_len (bundle_entry bundle (next_sequence w))).

(** Appending a bundle: either nothing changes, or its entry is written. *)
Lemma append_cases w dir bundle el s r :
  let e := bundle_entry bundle (next_sequence w) in
  bundle_ok bundle → u64_ok (next_sequence w) →
  append_bundle crc32 (append_fine el) bundle (w, dir) = (s, r) →
  (∃ err, r = Err err) ∧ s = (w, dir) ∧ ~ accepts w bundle ∨
  entry_ok e ∧ accepts w bundle ∧
  ∃ u, (s, r) =
    match maybe_rotate_after_append crc32 rotate_fine
            (appended w (frame_len e) u, alter (λ c, c ++ frame crc32 e) (active_path w) dir)
    with
    | (s, Ok _) =>
        (s, Ok (mkOffset (to_wal_position (appended w (frame_len e) u) (current_len w))
                         (to_wal_position (appended w (frame_len e) u)
                            (saturating_add u64_max (current_len w) (frame_len e)))
                         (next_sequence w)))
    | (s, Err err) => (s, Err err)
    end.
Proof.
  intros e Hok Hseq Happ.
  destruct (system_time_to_nanos (ingestion_time bundle)) as [ts|err] eqn:Hts.
  2: { left. unfold append_bundle in Happ. rewrite (bind_err _ _ _ (w, dir) err) in Happ by (unfold lift; by rewrite Hts).
    injection Happ as <- <-. split_and!; [by eexists|done|]. intros ([ts ?] & _). congruence. }
  assert (ts = ingestion_time bundle) as ->.
  { unfold system_time_to_nanos in Hts. destruct (_ || _); [done|]. by injection Hts. }
  destruct (encode_slots bundle (descriptor_slots bundle) 0 []) as [[bitmap buffer]|err] eqn:Henc.
  2: { left. unfold append_bundle in Happ. rewrite (bind_ok _ _ _ (w, dir) (ingestion_time bundle)), get_bind in Happ
      by (unfold lift; by rewrite Hts).
    rewrite (bind_err _ _ _ (w, dir) err) in Happ by (unfold lift; by rewrite Henc).
    injection Happ as <- <-. split_and!; [by eexists|done|]. intros (_ & [? ?] & _). congruence. }
  destruct (encode_bundle_spec bundle (next_sequence w) bitmap buffer) as (Hbm & Hbuf & He); [done..|].
  assert (Z.of_nat ENTRY_HEADER_LEN + zlen buffer = zlen (entry_body e)) as Hlen.
  { unfold zlen. rewrite entry_body_length, Nat2Z.inj_add. by subst buffer. }
  assert (4 + (Z.of_nat ENTRY_HEADER_LEN + zlen buffer) + 4 = frame_len e) as Htot by (unfold frame_len; lia).
  pose proof (entry_size_ok e He) as Hmax. rewrite <- Hlen in Hmax. change MAX_ENTRY_SIZE with 268435456 in Hmax.
  destruct (preflight_cases (frame_len e) w dir) as [[[err Hpre] Hcap]|[Hpre Hcap]].
  - left. unfold append_bundle in Happ. rewrite (bind_ok _ _ _ (w, dir) (ingestion_time bundle)), get_bind in Happ
      by (unfold lift; by rewrite Hts).
    rewrite (bind_ok _ _ _ (w, dir) (bitmap, buffer)) in Happ by (unfold lift; by rewrite Henc).
    rewrite (proj2 (Z.ltb_ge _ _)), Htot, (bind_err _ _ _ _ _ Hpre) in Happ by (change u32_max with 4294967295; lia).
    injection Happ as <- <-. split_and!; [by eexists|done|]. by intros (_ & _ & ?).
  - right. split; [done|]. split; [by split_and!; [eexists|eexists|]|]. rewrite <- Htot in Hpre.
    destruct (append_writes w dir bundle el (ingestion_time bundle) bitmap buffer Hts Henc) as [u Hw];
      [change u32_max with 4294967295; lia|done|].
    exists u. rewrite <- Happ, Hw, Htot, Hlen. subst bitmap buffer. done.
Qed.

(** Appending a bundle: either nothing changes, or its entry is the next of the
    log and the offset says where. *)
Lemma append_step w dir purged fs act bundle el s r :
  let hist := purged ++ entries_of fs ++ act in
  let e := bundle_entry bundle (zlen hist) in
  wal_inv w dir purged fs act → zlen hist < 2 ^ 32 → bundle_ok bundle →
  append_bundle crc32 (append_fine el) bundle (w, dir) = (s, r) →
  (∃ err, r = Err err) ∧ s = (w, dir) ∧ ~ accepts w bundle ∨
  r = Ok (offset (record_at (size hist) e)) ∧ accepts w bundle ∧ cursor_position s.1 = cursor_position w ∧ options s.1 = options w ∧
  purge_count s.1 = purge_count w ∧ (∀ u0, accounted u0 w → accounted u0 s.1) ∧
  ∃ fs' act', wal_inv s.1 s.2 purged fs' act' ∧ purged ++ entries_of fs' ++ act' = hist ++ [e].
Proof.
  intros hist e Hi Hn Hok Happ. pose proof (zlen_nonneg hist). pose proof (inv_seq _ _ _ _ _ Hi) as Hseq.
  apply append_cases in Happ as [?|(He & Hacs & u & Heq)]; [by left| |done|rewrite Hseq; unfold u64_ok, hist in *; lia].
  right. pose proof (proj2 (proj2 Hacs)) as Hcap. rewrite Hseq in He, Hcap, Heq. fold hist in He, Hcap, Heq. fold e in He, Hcap, Heq. rewrite (inv_path _ _ _ _ _ Hi) in Heq.
  pose proof (append_keeps w dir purged fs act e u Hi Hn He eq_refl) as Hi'.
  assert (zlen (purged ++ entries_of fs ++ act ++ [e]) ≤ 2 ^ 32) as Hn'.
  { subst hist. rewrite !zlen_app in *. unfold zlen at 4. cbn. lia. }
  pose proof (inv_position _ _ _ _ _ act [e] Hi' Hn' eq_refl) as Hp1.
  pose proof (inv_position _ _ _ _ _ (act ++ [e]) [] Hi' Hn' ltac:(by rewrite app_nil_r)) as Hp2.
  destruct (maybe_rotate_after_append _ _ _) as [s' r'] eqn:Hrot.
  eapply maybe_rotate_keeps in Hrot as (-> & Hcur & Hopt & Hpc & Hacc & fs' & act' & Hi'' & Hent); [|done|done| |].
  - injection Heq as -> ->. split_and!; [|done|by rewrite Hcur; destruct w|by rewrite Hopt; destruct w|by rewrite Hpc; destruct w| |].
    + rewrite <- (inv_len _ _ _ _ _ Hi) in Hp1. rewrite Hp1.
      rewrite <- (inv_len _ _ _ _ _ Hi') in Hp2. replace (saturating_add _ _ _) with (current_len (appended w (frame_len e) u))
        by (by destruct w).
      rewrite Hp2. unfold record_at. cbn [offset]. f_equal. f_equal. subst hist. rewrite !size_app, size_cons. cbn. lia.
    + intros u0 Hu0. apply Hacc. eapply appended_accounted; [done|unfold hist in Hn; lia|done|apply Hcap|done].
    + exists fs', act'. split; [done|]. subst hist. rewrite Hent. by rewrite <- !app_assoc.
  - by destruct act.
  - intros Hd. destruct w. by apply Hcap.
Qed.

(** ** The cursor *)

Lemma boundary_shift off off' es x : boundary off es x → boundary off' es (x - off + off').
Proof. intros (a & b & -> & ->). exists a, b. split; [done|lia]. Qed.

Lemma boundary_at off es x y : boundary off es x → x = y → boundary off es y.
Proof. by intros ? <-. Qed.

(** What an accepted cursor promises. *)
Lemma validate_accepts w dir purged fs act c s r :
  wal_inv w dir purged fs act → zlen (purged ++ entries_of fs ++ act) ≤ 2 ^ 32 →
  validate_cursor c (w, dir) = (s, r) →
  s = (w, dir) ∧
  (r = Ok tt →
   cursor_position w ≤ safe_offset c ≤ size (purged ++ entries_of fs ++ act) ∧
   (active_start w < safe_offset c → boundary (active_start w) act (safe_offset c))).
Proof.
  intros Hi Hn. pose proof (inv_bound _ _ _ _ _ Hi Hn) as Hsz. pose proof (inv_start_size _ _ _ _ _ Hi) as Hs.
  pose proof (size_nonneg act). rewrite !size_app in *. pose proof (size_nonneg purged). pose proof (size_nonneg (entries_of fs)).
  unfold validate_cursor. rewrite get_bind. rewrite (inv_start _ _ _ _ _ Hi), (inv_len _ _ _ _ _ Hi), (inv_header _ _ _ _ _ Hi).
  lazymatch goal with |- (if ?regressed then _ else _) _ = _ → _ => destruct regressed end; [by intros [= <- <-]|].
  destruct (Z.ltb_spec (safe_offset c) (cursor_position w)); [by intros [= <- <-]|].
  destruct (Z.leb_spec (safe_offset c) (active_start w)); [intros [= <- <-]; split; [done|]; intros _; split; lia|].
  unfold saturating_sub, saturating_add. change u64_max with 18446744073709551615.
  destruct (Z.ltb_spec (38 + size act) (Z.min (38 + Z.max (safe_offset c - active_start w) 0) 18446744073709551615));
    [by intros [= <- <-]|].
  intros [= <- <-]. split; [done|]. intros Hok. split; [lia|]. intros _.
  replace (Z.min _ _) with (38 + (safe_offset c - active_start w)) in Hok by lia.
  assert (boundary 38 act (38 + (safe_offset c - active_start w))) as Hb.
  { unfold ensure_entry_boundary in Hok. rewrite (inv_header _ _ _ _ _ Hi) in Hok.
    destruct (Z.eqb_spec (38 + (safe_offset c - active_start w)) (validated_boundary w)) as [->|]; [apply (inv_validated _ _ _ _ _ Hi)|].
    destruct (_ <? _); [done|]. destruct (Z.eqb_spec (38 + (safe_offset c - active_start w)) 38) as [->|]; [apply boundary_start|].
    case_bool_decide as Hin; [|done]. by apply (inv_boundaries _ _ _ _ _ Hi). }
  eapply boundary_at; [by apply (boundary_shift 38 (active_start w))|]. lia.
Qed.

Lemma record_position_step w dir purged fs act pos s r :
  wal_inv w dir purged fs act → cursor_position w ≤ pos ≤ size (purged ++ entries_of fs ++ act) →
  size (purged ++ entries_of fs ++ act) ≤ 2 ^ 61 →
  (active_start w < pos → boundary (active_start w) act pos) →
  record_wal_position crc32 cursor_fine pos (w, dir) = (s, r) →
  r = Ok tt ∧ s.1 = w <| cursor_position := pos |> ∧ wal_inv s.1 s.2 purged fs act.
Proof.
  intros Hi Hpos Hsz Hact. unfold record_wal_position. rewrite get_bind.
  rewrite (bind_ok get_dir _ _ (w, dir) dir) by done.
  destruct (_ && _) eqn:Hsame.
  { apply andb_true_iff in Hsame as [Heq%Z.eqb_eq _]. intros [= <- <-]. subst pos. split; [done|]. by split; [destruct w|]. }
  rewrite modify_bind, write_sidecar_fine. intros [= <- <-]. split; [done|]. split; [done|].
  pose proof (size_nonneg purged). destruct Hi as [Hl Hp Hpu Hpa Hlen Hhs Hro Hids Hni Hsq Hb Hv Hc Hca Hsc Hag Htr Hvl].
  assert (load_cursor_state crc32 (<[CURSOR_SIDECAR_FILENAME:=sidecar_encode crc32 pos]>
    (delete (temporary_path CURSOR_SIDECAR_FILENAME) dir)) = Ok pos) as Hload.
  { apply sidecar_roundtrip; [done| |by rewrite lookup_insert_eq]. unfold u64_ok. lia. }
  pose proof (sidecar_layout dir _ fs (active_start w) act pos Hl) as Hl'.
  destruct w. split; try done; cbn in *; [lia| |lia]. intros x Hx H38 Hlt. apply Htr; [done..|lia].
Qed.

(** The boundaries of the active file that remain to be validated. *)
Lemma trim_keeps w dir purged fs act b l :
  wal_inv w dir purged fs act → boundary 38 act b → (∀ x, x ∈ l → x ∈ entry_boundaries w) →
  b ≤ Z.max 38 (38 + (cursor_position w - active_start w)) →
  (∀ x, x ∈ entry_boundaries w → cursor_position w < active_start w + (x - 38) → x ∈ l) →
  wal_inv (w <| validated_boundary := b |> <| entry_boundaries := l |>) dir purged fs act.
Proof.
  intros [Hl Hp Hpu Hpa Hlen Hhs Hro Hids Hni Hsq Hb Hv Hc Hca Hsc Hag Htr Hvl] Hnew Hsub Hle Hkeep.
  destruct w. split; try done.
  - intros x Hx. apply Hb, Hsub, Hx.
  - intros x Hx H38 Hlt. by apply Hkeep; [apply Htr|].
Qed.

Lemma sequence_keeps w dir purged fs act q :
  wal_inv w dir purged fs act → wal_inv (w <| last_cursor_sequence := q |>) dir purged fs act.
Proof. intros [Hl Hp Hpu Hpa Hlen Hhs Hro Hids Hni Hsq Hb Hv Hc Hca Hsc Hag Htr Hvl]. destruct w. by split. Qed.

(** ** Purging *)

Definition purged_one (w : WalWriter) (bytes : Z) : WalWriter :=
  (budget_remove bytes (w <| aggregate_bytes ::= λ n, saturating_sub n bytes |>))
    <| purge_count ::= λ n, saturating_add u64_max n 1 |> <| rotated_files ::= tail |>.

Lemma purge_layout dir hash f fs start act :
  layout crc32 dir hash (f :: fs) start act → layout crc32 (delete (lf_path f) dir) hash fs start act.
Proof.
  intros Hl. pose proof (lay_ids _ _ _ _ _ _ Hl) as Hs. apply StronglySorted_inv in Hs as [Hs Hlt].
  assert (∀ g, g ∈ f :: fs → u64_ok (lf_id g)) as Hu by (intros; by eapply layout_files_u64).
  rewrite Forall_forall in Hlt. split.
  - apply Hl.
  - rewrite lookup_delete_ne; [apply Hl|]. apply active_not_rotated, Hu. by left.
  - intros g Hg. rewrite lookup_delete_ne; [apply Hl; by right|].
    intros Heq. apply rotated_path_inj in Heq; [|apply Hu; by left|apply Hu; by right]. specialize (Hlt g Hg). lia.
  - intros name id Hname Hr. rewrite lookup_delete_is_Some in Hname. destruct Hname as [Hne Hname].
    destruct (lay_names _ _ _ _ _ _ Hl name id Hname Hr) as (g & [->|Hg]%elem_of_cons & Hid & Hpath); [congruence|].
    by exists g.
  - done.
  - pose proof (lay_u64 _ _ _ _ _ _ Hl) as Hall. by apply Forall_cons in Hall as [_ ?].
Qed.

Lemma purge_one_keeps w dir purged f fs act :
  wal_inv w dir purged (f :: fs) act → lf_end f ≤ cursor_position w →
  wal_inv (purged_one w (38 + size (lf_entries f))) (delete (lf_path f) dir) (purged ++ lf_entries f) fs act.
Proof.
  intros Hi Hend. pose proof (inv_entries _ _ _ _ _ Hi) as Hes.
  destruct Hi as [Hl Hp Hpu Hpa Hlen Hhs Hro Hids Hni Hsq Hb Hv Hc Hca Hsc Hag Htr Hvl].
  pose proof (purge_layout _ _ _ _ _ _ Hl) as Hl'. rewrite entries_of_cons in *.
  apply Forall_cons in Hids as [_ Hids]. rewrite <- app_assoc in *.
  assert (u64_ok (lf_id f)) as Hu by (eapply layout_files_u64; [exact Hl|by left]).
  assert (placed (size (purged ++ lf_entries f)) fs (active_start w) act) as Hp'.
  { destruct Hp as [(Hs & _ & Hch) Hlo Hhi Hall]. rewrite size_app, <- Hs. split; [done| |done|].
    - pose proof (size_nonneg (lf_entries f)). lia.
    - rewrite entries_of_cons, <- app_assoc in Hall. by apply Forall_app in Hall as [_ ?]. }
  assert (load_cursor_state crc32 (delete (lf_path f) dir) = Ok (cursor_position w)) as Hsc'.
  { rewrite <- Hsc. apply load_cursor_ext. rewrite lookup_delete_ne; [done|]. by apply lf_path_other. }
  destruct Hp as [(Hs & _ & Hch) _ _ _]. unfold lf_end in Hend.
  pose proof (disk_size_bound _ _ _ Hch) as Hd. pose proof (size_nonneg act).
  destruct w. split; try done.
  - apply Forall_app in Hes as [? Hes]. apply Forall_app. split; [done|]. by apply Forall_app in Hes as [? _].
  - unfold purged_one, budget_remove. cbn in *. by rewrite Hro.
  - by rewrite <- app_assoc.
  - by rewrite <- !app_assoc.
  - cbn in *. rewrite <- !app_assoc, !size_app in *. lia.
  - unfold purged_one, budget_remove, saturating_sub. cbn in *. fold (disk_size fs) in Hag. lia.
Qed.

Lemma purged_fields w n :
  options (purged_one w n) = options w ∧ rotation_count (purged_one w n) = rotation_count w ∧
  next_rotation_id (purged_one w n) = next_rotation_id w ∧ rotated_files (purged_one w n) = tail (rotated_files w) ∧
  budget (purged_one w n) = (λ b, remove b n) <$> budget w ∧
  aggregate_bytes (purged_one w n) = saturating_sub (aggregate_bytes w) n ∧
  purge_count (purged_one w n) = saturating_add u64_max (purge_count w) 1 ∧
  cursor_position (purged_one w n) = cursor_position w ∧ last_cursor_sequence (purged_one w n) = last_cursor_sequence w.
Proof. by destruct w. Qed.

Lemma purge_one_accounted u0 w dir purged f fs act :
  wal_inv w dir purged (f :: fs) act → accounted u0 w → accounted u0 (purged_one w (38 + size (lf_entries f))).
Proof.
  intros Hi [Hu Hf Hb Hr Hp Hbud]. pose proof (inv_aggregate _ _ _ _ _ Hi) as Hag. rewrite (inv_len _ _ _ _ _ Hi) in Hag.
  pose proof (placed_chain _ _ _ _ (inv_placed _ _ _ _ _ Hi)) as (_ & _ & Hc). pose proof (disk_size_bound _ _ _ Hc).
  change (disk_size (f :: fs)) with (38 + size (lf_entries f) + disk_size fs) in Hag.
  pose proof (size_nonneg act). pose proof (size_nonneg (lf_entries f)).
  destruct (purged_fields w (38 + size (lf_entries f))) as (Ho & Hrc & Hnr & Hrf & Hbu & Hagg & Hpc & _).
  unfold budget_misses, saturating_sub, saturating_add in *. pose proof u64_max_eq.
  split; unfold budget_misses; rewrite ?Hagg, ?Hrc, ?Hpc, ?Hbu, ?Ho, ?Hnr, ?Hrf; [exact Hu| |lia|lia|lia|].
  - rewrite (inv_rotated _ _ _ _ _ Hi) in *. rewrite fmap_cons in *. rewrite zlen_cons in Hf. cbn [tail]. lia.
  - intros Hle. destruct (Hbud Hle) as (b & -> & Hb2 & Hb3 & Hb4). eexists. split; [done|].
    rewrite used_removed. split_and!; [lia..|]. intros [?|Hor]; [lia|]. rewrite Hb4; lia.
Qed.

Lemma purge_loop_keeps fs w dir purged act :
  wal_inv w dir purged fs act →
  ∃ s fs1 fs2, purge_loop cursor_fine (rotated_of <$> fs) (w, dir) = (s, Ok tt) ∧ fs = fs1 ++ fs2 ∧
    wal_inv s.1 s.2 (purged ++ entries_of fs1) fs2 act ∧
    last_cursor_sequence s.1 = last_cursor_sequence w ∧ cursor_position s.1 = cursor_position w ∧ options s.1 = options w ∧
    (∀ u0, accounted u0 w → accounted u0 s.1) ∧
    (0 ≤ purge_count w → 0 ≤ purge_count s.1 ∧ (purge_count s.1 = 0 → fs1 = [] ∧ purge_count w = 0)) ∧
    match fs2 with f :: _ => cursor_position w < lf_end f | [] => True end.
Proof.
  revert w dir purged. induction fs as [|f fs IH]; intros w dir purged Hi.
  { exists (w, dir), [], []. change (entries_of []) with (@nil LogEntry). rewrite (app_nil_r purged). by split_and!. }
  cbn [fmap list_fmap purge_loop]. rewrite get_bind. cbn [rotated_of rotated_end file_bytes rotated_path].
  destruct (Z.leb_spec (lf_end f) (cursor_position w)) as [Hle|Hlt].
  - pose proof (purge_one_keeps _ _ _ _ _ _ Hi Hle) as Hi'.
    destruct (IH _ _ _ Hi') as (s & fs1 & fs2 & Hrun & -> & Hi'' & Hlast & Hcur & Hopt & Hacc & Hcnt & Hrest).
    destruct (purged_fields w (38 + size (lf_entries f))) as (Ho & _ & _ & _ & _ & _ & Hpc & Hcp & Hls).
    rewrite Ho in Hopt. rewrite Hcp in *. rewrite Hpc in Hcnt. rewrite Hls in Hlast.
    exists s, (f :: fs1), fs2. rewrite entries_of_cons, app_assoc. split_and!; try done.
    + intros. by eapply Hacc, purge_one_accounted.
    + unfold saturating_add in Hcnt. pose proof u64_max_eq. intros H0. destruct Hcnt as [? Hz]; [lia|]. split; [done|].
      intros Hs. destruct (Hz Hs). lia.
  - exists (w, dir), [], (f :: fs). change (entries_of []) with (@nil LogEntry). rewrite (app_nil_r purged).
    by split_and!.
Qed.

(** The boundaries after the cursor moved. *)
Lemma validated_step w dir purged fs act :
  wal_inv w dir purged fs act → zlen (purged ++ entries_of fs ++ act) ≤ 2 ^ 32 →
  let pos := cursor_position w in
  let start := active_wal_position_start w in
  let file_offset := saturating_add u64_max (active_header_size w) (saturating_sub pos start) in
  ∃ vb eb,
    (if start <? pos
     then modify (λ w, w <| validated_boundary := file_offset |>
                         <| entry_boundaries ::= List.filter (λ o, file_offset <=? o) |>)
     else if pos =? start then modify (λ w, w <| validated_boundary := active_header_size w |>)
     else ret tt) (w, dir) = ((w <| validated_boundary := vb |> <| entry_boundaries := eb |>, dir), Ok tt) ∧
    wal_inv (w <| validated_boundary := vb |> <| entry_boundaries := eb |>) dir purged fs act.
Proof.
  intros Hi Hn pos start file_offset. pose proof (inv_bound _ _ _ _ _ Hi Hn) as Hsz.
  pose proof (inv_start_size _ _ _ _ _ Hi) as Hs. pose proof (size_nonneg (purged ++ entries_of fs)).
  pose proof (inv_cursor _ _ _ _ _ Hi) as [_ Hc].
  destruct (Z.ltb_spec start pos) as [Hlt|Hge].
  - do 2 eexists. split; [by destruct w|].
    apply trim_keeps; [done| |intros x Hx; by apply list_elem_of_In, List.filter_In, proj1, list_elem_of_In in Hx|..].
    2: { subst start file_offset. rewrite (inv_start _ _ _ _ _ Hi), (inv_header _ _ _ _ _ Hi) in *.
      unfold saturating_add, saturating_sub. pose proof u64_max_eq. fold pos. lia. }
    2: { intros x Hx Hcur. apply list_elem_of_In, List.filter_In. split; [by apply list_elem_of_In|]. apply Z.leb_le.
      subst start file_offset. rewrite (inv_start _ _ _ _ _ Hi), (inv_header _ _ _ _ _ Hi) in *.
      unfold saturating_add, saturating_sub. pose proof u64_max_eq. fold pos in Hcur. lia. }
    subst start file_offset. rewrite (inv_start _ _ _ _ _ Hi) in *. rewrite (inv_header _ _ _ _ _ Hi).
    pose proof (inv_cursor_active _ _ _ _ _ Hi Hlt) as Hb. apply (boundary_shift _ 38) in Hb.
    eapply boundary_at; [exact Hb|]. unfold saturating_add, saturating_sub. change u64_max with 18446744073709551615. lia.
  - destruct (Z.eqb_spec pos start).
    + exists (active_header_size w), (entry_boundaries w). split; [by destruct w|].
      apply trim_keeps; [done| |done| |done]; rewrite (inv_header _ _ _ _ _ Hi); [apply boundary_start|lia].
    + exists (validated_boundary w), (entry_boundaries w). split; [by destruct w|].
      apply trim_keeps; [done| |done|apply (inv_validated_le _ _ _ _ _ Hi)|done]. apply (inv_validated _ _ _ _ _ Hi).
Qed.

(** Persisting a cursor: either nothing changes, or the cursor is stored and
    the files before it are deleted. *)
Lemma persist_step w dir purged fs act c s r :
  wal_inv w dir purged fs act → zlen (purged ++ entries_of fs ++ act) ≤ 2 ^ 32 →
  persist_cursor crc32 cursor_fine c (w, dir) = (s, r) →
  (∃ err, r = Err err ∧ validate_cursor c (w, dir) = ((w, dir), Err err)) ∧ s = (w, dir) ∨
  r = Ok tt ∧ last_cursor_sequence s.1 = Some (safe_sequence c) ∧ cursor_position s.1 = safe_offset c ∧ cursor_position w ≤ safe_offset c ∧ options s.1 = options w ∧
  (∀ u0, accounted u0 w → accounted u0 s.1) ∧
  ∃ fs1 fs2, fs = fs1 ++ fs2 ∧ wal_inv s.1 s.2 (purged ++ entries_of fs1) fs2 act ∧
    (0 ≤ purge_count w → 0 ≤ purge_count s.1 ∧ (purge_count s.1 = 0 → fs1 = [] ∧ purge_count w = 0)) ∧
    match fs2 with f :: _ => safe_offset c < lf_end f | [] => True end.
Proof.
  intros Hi Hn. unfold persist_cursor, write_cursor_sidecar.
  destruct (validate_cursor c (w, dir)) as [s1 r1] eqn:Hval.
  destruct (validate_accepts _ _ _ _ _ _ _ _ Hi Hn Hval) as [-> Hacc].
  destruct r1 as [[]|err]; [|rewrite (bind_err _ _ _ _ _ Hval); intros [= <- <-]; left; by split; [eexists|]].
  destruct (Hacc eq_refl) as [Hpos Hact]. rewrite (bind_ok _ _ _ _ _ Hval).
  destruct (record_wal_position crc32 cursor_fine (safe_offset c) (w, dir)) as [[w2 dir2] r2] eqn:Hrec.
  destruct (record_position_step _ _ _ _ _ _ _ _ Hi Hpos (inv_bound _ _ _ _ _ Hi Hn) Hact Hrec) as (-> & Hw2 & Hi2).
  rewrite (bind_ok _ _ _ _ _ Hrec), get_bind. cbn [fst snd] in *.
  assert (cursor_position w2 = safe_offset c) as Hcur by (subst w2; by destruct w).
  assert (options w2 = options w) as Hopt by (subst w2; by destruct w).
  destruct (validated_step _ _ _ _ _ Hi2 Hn) as (vb & eb & Hvb & Hi3). cbv zeta in Hvb. rewrite Hcur in Hvb.
  rewrite (bind_ok _ _ _ _ _ Hvb), modify_bind.
  apply (sequence_keeps _ _ _ _ _ (Some (safe_sequence c))) in Hi3.
  unfold purge_rotated_files. rewrite get_bind, (inv_rotated _ _ _ _ _ Hi3).
  destruct (purge_loop_keeps fs _ _ _ _ Hi3) as (s' & fs1 & fs2 & -> & -> & Hi4 & Hlast4 & Hcur4 & Hopt4 & Hacc4 & Hcnt4 & Hrest).
  intros [= <- <-]. right. split_and!; [done|by rewrite Hlast4; destruct w2|by rewrite Hcur4; destruct w2|lia|by rewrite Hopt4; destruct w2| |].
  - intros u0 Hu. apply Hacc4. rewrite Hw2. destruct Hu. by destruct w.
  - exists fs1, fs2. split_and!; [done..| |].
    + rewrite Hw2 in Hcnt4. by destruct w.
    + clear Hw2. destruct w2. cbn in *. by rewrite <- Hcur.
Qed.

(** ** Runs *)

(** The operations on an open log; [elapsed] is the time since the last flush. *)
Inductive WalOp :=
  | AppendBundle (bundle : RecordBundle Batch) (elapsed : Z)
  | PersistCursor (cursor : WalConsumerCursor)
  | Flush.

(** One operation, and the accepted bundle with the offset returned for it. *)
Definition wal_step (op : WalOp) (s : WalWriter * Dir) : WalWriter * Dir * list (WalOffset * RecordBundle Batch) :=
  match op with
  | AppendBundle bundle elapsed =>
      match append_bundle crc32 (append_fine elapsed) bundle s with
      | (s, Ok o) => (s, [(o, bundle)])
      | (s, Err _) => (s, [])
      end
  | PersistCursor cursor => ((persist_cursor crc32 cursor_fine cursor s).1, [])
  | Flush => ((flush true s).1, [])
  end.

Fixpoint run (ops : list WalOp) (s : WalWriter * Dir) : WalWriter * Dir * list (WalOffset * RecordBundle Batch) :=
  match ops with
  | [] => (s, [])
  | op :: ops =>
      let '(s, acks) := wal_step op s in
      let '(s, acks') := run ops s in
      (s, acks ++ acks')
  end.

Definition op_ok (op : WalOp) : Prop := match op with AppendBundle bundle _ => bundle_ok bundle | _ => True end.

(** What a reader should return for an accepted bundle. *)
Definition record_of (ack : WalOffset * RecordBundle Batch) : WalRecordBundle :=
  let '(o, bundle) := ack in
  mkRecord o (next_offset o) (ingestion_time bundle) (sequence o)
           (slots_bitmap (bundle_slots bundle)) (bundle_slots bundle).

(** The entries are numbered from zero. *)
Definition numbered (hist : list LogEntry) : Prop := entry_seq <$> hist = seqZ 0 (zlen hist).

(** A log whose accepted entries so far are [recs], as records. *)
Definition wal_holds (s : WalWriter * Dir) (recs : list WalRecordBundle) : Prop :=
  ∃ purged fs act, wal_inv s.1 s.2 purged fs act ∧
    recs = place 0 (purged ++ entries_of fs ++ act) ∧ numbered (purged ++ entries_of fs ++ act) ∧
    0 ≤ purge_count s.1 ∧ (purge_count s.1 = 0 → purged = []).

(** What every operation respects. *)
Definition evolves (s s' : WalWriter * Dir) : Prop :=
  options s'.1 = options s.1 ∧ cursor_position s.1 ≤ cursor_position s'.1 ∧
  ∀ u0, accounted u0 s.1 → accounted u0 s'.1.

Lemma numbered_snoc hist e : numbered hist → entry_seq e = zlen hist → numbered (hist ++ [e]).
Proof.
  unfold numbered. intros Hn He. rewrite fmap_app, Hn, zlen_app. change (zlen [e]) with 1.
  pose proof (zlen_nonneg hist). rewrite (seqZ_app _ _ 1) by lia. cbn [fmap list_fmap]. by rewrite He, Z.add_0_l.
Qed.

Lemma flush_keeps w dir purged fs act :
  wal_inv w dir purged fs act → wal_inv (w <| unflushed_bytes := 0 |>) dir purged fs act.
Proof. intros [Hl Hp Hpu Hpa Hle Hhs Hro Hids Hni Hsq Hb Hv Hc Hca Hsc Hag Htr Hvl]. destruct w. by split. Qed.

Lemma wal_step_keeps op s recs s' acks :
  wal_holds s recs → zlen recs < 2 ^ 32 → op_ok op → wal_step op s = (s', acks) →
  wal_holds s' (recs ++ (record_of <$> acks)) ∧ evolves s s' ∧ (length acks ≤ 1)%nat.
Proof.
  destruct s as [w dir]. intros (purged & fs & act & Hi & -> & Hnum & Hpc & Hpz) Hn Hok. cbn [fst snd] in *.
  assert (zlen (place 0 (purged ++ entries_of fs ++ act)) = zlen (purged ++ entries_of fs ++ act)) as Hlen
    by (unfold zlen; by rewrite place_length).
  rewrite Hlen in Hn. destruct op as [bundle el|c|]; cbn [wal_step op_ok] in *.
  - destruct (append_bundle _ _ _ _) as [s1 r] eqn:Happ.
    apply (append_step w dir purged fs act) in Happ
      as [([err ->] & -> & _)|(-> & _ & Hcur & Hopt & Hcnt & Hacc & fs' & act' & Hi' & Hh)]; [| |done..].
    + intros [= <- <-]. cbn [fmap list_fmap]. rewrite app_nil_r. split_and!; [by exists purged, fs, act| |cbn; lia].
      split_and!; [done|lia|done].
    + intros [= <- <-]. split_and!; [|split_and!; [done|rewrite Hcur; cbn; lia|done]|cbn; lia].
      exists purged, fs', act'. split; [done|]. rewrite Hh, Hcnt. split_and!; [|by apply numbered_snoc|done..].
      by rewrite (place_app 0 (purged ++ _) [_]), Z.add_0_l.
  - destruct (persist_cursor _ _ _ _) as [s1 r] eqn:Hper. intros [= <- <-]. cbn [fmap list_fmap fst]. rewrite app_nil_r.
    apply (persist_step w dir purged fs act) in Hper
      as [[_ ->]|(-> & _ & Hcur & Hle & Hopt & Hacc & fs1 & fs2 & -> & Hi' & Hcnt & _)]; [| |done|lia].
    + split_and!; [by exists purged, fs, act| |cbn; lia]. split_and!; [done|lia|done].
    + split_and!; [|split_and!; [done|cbn; lia|done]|cbn; lia].
      exists (purged ++ entries_of fs1), fs2, act. rewrite entries_of_app, <- !app_assoc in *.
      destruct (Hcnt Hpc) as [Hc1 Hc2]. split_and!; [done..|]. intros Hz. destruct (Hc2 Hz) as [-> Hz'].
      by rewrite (Hpz Hz').
  - intros [= <- <-]. cbn [fmap list_fmap fst]. rewrite app_nil_r. split_and!; [| |cbn; lia].
    + exists purged, fs, act. split; [by apply flush_keeps|]. by destruct w.
    + split_and!; [by destruct w|destruct w; cbn; lia|]. intros u0 []. by destruct w.
Qed.

(** Every run keeps the log. *)
Lemma run_keeps ops s recs s' acks :
  wal_holds s recs → zlen recs + zlen ops ≤ 2 ^ 32 → Forall op_ok ops → run ops s = (s', acks) →
  wal_holds s' (recs ++ (record_of <$> acks)) ∧ evolves s s' ∧ (length acks ≤ length ops)%nat.
Proof.
  revert s recs acks. induction ops as [|op ops IH]; intros s recs acks Hs Hn Hok; cbn [run].
  { intros [= <- <-]. cbn [fmap list_fmap]. rewrite app_nil_r. split_and!; [done| |done]. split_and!; [done|lia|done]. }
  apply Forall_cons in Hok as [Hop Hok]. rewrite zlen_cons in Hn. pose proof (zlen_nonneg ops).
  destruct (wal_step op s) as [s1 acks1] eqn:Hstep. destruct (run ops s1) as [s2 acks2] eqn:Hrun. intros [= <- <-].
  apply (wal_step_keeps _ _ recs) in Hstep as (Hs1 & (Ho1 & Hc1 & Ha1) & Hl1); [|done|lia|done].
  apply (IH _ (recs ++ (record_of <$> acks1))) in Hrun as (Hs2 & (Ho2 & Hc2 & Ha2) & Hl2); [|done| |done].
  - rewrite fmap_app, app_assoc. split_and!; [done| |rewrite length_app; cbn; lia].
    split_and!; [congruence|lia|]. intros u0 Hu. by apply Ha2, Ha1.
  - rewrite zlen_app. unfold zlen at 2. rewrite length_fmap. lia.
Qed.

(** The position after the given accepted bundles. *)
Definition end_position (acks : list (WalOffset * RecordBundle Batch)) : Z :=
  match last acks with Some (o, _) => next_offset o | None => 0 end.

Lemma place_split recs1 recs2 pos es :
  recs1 ++ recs2 = place pos es →
  ∃ es1 es2, es = es1 ++ es2 ∧ recs1 = place pos es1 ∧ recs2 = place (pos + size es1) es2.
Proof.
  revert pos es. induction recs1 as [|r recs1 IH]; intros pos es Heq.
  { exists [], es. cbn in *. by rewrite Z.add_0_r. }
  destruct es as [|e es]; [done|]. cbn in Heq. injection Heq as -> Heq.
  apply IH in Heq as (es1 & es2 & -> & -> & ->). exists (e :: es1), es2. rewrite size_cons, Z.add_assoc. done.
Qed.

Lemma place_end acks es :
  record_of <$> acks = place 0 es → end_position acks = size es.
Proof.
  intros Heq. unfold end_position. destruct acks as [|a acks _] using rev_ind; [by destruct es|].
  rewrite last_snoc. destruct es as [|e es _] using rev_ind.
  { rewrite fmap_app in Heq. by apply app_eq_nil in Heq as [_ ?]. }
  rewrite fmap_app, place_app in Heq. apply app_inj_tail in Heq as [_ Hr]. destruct a as [o b].
  apply (f_equal record_next_offset) in Hr. cbn in Hr. rewrite Hr, size_app, size_cons. cbn. lia.
Qed.

(** What the reader returns for the log. *)
Lemma holds_reads s acks names fuel a1 a2 :
  wal_holds s (record_of <$> acks) → names ≡ₚ (map_to_list s.2).*1 → (length acks < fuel)%nat →
  acks = a1 ++ a2 → cursor_position s.1 ≤ end_position a1 →
  ∃ files, multi_open s.2 names = Ok files ∧
    collect crc32 fuel s.2 (multi_iter_from files (end_position a1)) = (record_of <$> a2, None).
Proof.
  intros (purged & fs & act & Hi & Hrecs & _ & _) Hnames Hfuel -> Hcur.
  rewrite fmap_app in Hrecs. apply place_split in Hrecs as (h1 & h2 & Hh & H1 & H2).
  rewrite (place_end _ _ H1) in *. destruct (inv_cursor _ _ _ _ _ Hi) as [Hpc _].
  destruct (app_size_split_ge h1 h2 purged (entries_of fs ++ act)) as (m & -> & Hrest); [done|lia|].
  destruct (read_layout crc32 crc32_ok s.2 (cfg_hash (options s.1)) (size purged) fs (active_start s.1) act names m h2 fuel)
    as (files & Hopen & Hread); [apply Hi|apply Hi|done|done| |].
  - apply (f_equal length) in H1, H2. rewrite length_fmap, place_length in H1, H2.
    rewrite !length_app in *. lia.
  - exists files. split; [done|]. rewrite size_app, Hread, H2, size_app. done.
Qed.

End runs.

(** ** Examples *)

(** Batches that are their own encoding. *)
#[export] Instance bytes_batch : RecordBatch (list Z) := {| num_rows _ := 1; stream_encode l := Some l |}.

(** A bundle with one slot, whose entry takes 100 bytes. *)
Definition example_bundle (x : Z) : RecordBundle (list Z) :=
  mkBundle [0] (1000 + x) (λ _, Some (mkPayload (replicate 32 x) (replicate 25 x))).

Definition example_options : WalWriterOptions := (options_new (replicate 16 7) Immediate) <| rotation_target_bytes := 150 |>.

Lemma example_bundle_ok x : bundle_ok (example_bundle x).
Proof.
  split.
  - split; [apply NoDup_singleton|by repeat constructor].
  - intros id p [= <-]. done.
  - done.
Qed.

End WalRuns.
