(* ===== verification/WalRecovery.v ===== *)
(** * Recovery of the write-ahead log

    Opening a log after a crash: scanning the files, cutting off an entry that was
    not written completely, and continuing where the log ends.  The theorems
    follow a log through runs of the writer, crashes and restarts. *)
From S2P Require Import Prelude Bytes Files WalFormat WalReader Budget WalWriter WalLog WalRuns.

Local Open Scope Z_scope.

Module WalRecovery.
Import WalFormat.
Import WalReader.
Import WalWriter.
Import WalLog.
Import WalRuns.
Import Budget.

Section recovery.
Context (crc32 : list Z → Z) (crc32_ok : ∀ l, u32_ok (crc32 l)).

(** ** Scanning a file *)

(** What a crash can leave after the last complete entry. *)
Definition torn (tail : list Z) : Prop :=
  tail = [] ∨ ∃ e n, entry_ok e ∧ (n < length (frame crc32 e))%nat ∧ tail = take n (frame crc32 e).

(** Bytes after the given content at which a scan stops. *)
Definition stops (content : list Z) (start : Z) (tail : list Z) : Prop :=
  match entry_at crc32 (content ++ tail) (zlen (content ++ tail)) 38 start (zlen content) with
  | None => True
  | Some (Err e) => is_damage e = true
  | Some (Ok _) => False
  end.

Lemma torn_stops pre tail start : torn tail → stops pre start tail.
Proof.
  unfold stops. set (hs := 38).
  assert (entry_at crc32 (pre ++ []) (zlen (pre ++ [])) hs start (zlen pre) = None) as Hend.
  { rewrite app_nil_r. apply entry_at_end. }
  intros [->|(e & n & He & Hn & ->)]; [by rewrite Hend|].
  destruct (decide (n = 0%nat)) as [->|Hn0]; [by rewrite take_0, Hend|].
  destruct (entry_at_torn crc32 pre e n hs start He) as (err & -> & Herr); [lia|]. by destruct err.
Qed.

Lemma scan_frames es pre tail start fuel seq bs :
  Forall entry_ok es → stops (pre ++ frames crc32 es) start tail → 38 ≤ zlen pre → 0 ≤ start → start + zlen pre + size es ≤ u64_max →
  (length es < fuel)%nat →
  ∃ bs',
    scan_loop crc32 fuel (pre ++ frames crc32 es ++ tail) 38 start (zlen pre) (mkScan seq (zlen pre) bs) =
    Ok (mkScan (match last es with Some e => Some (entry_seq e) | None => seq end) (zlen pre + size es) (bs ++ bs')) ∧
    ∀ x, x ∈ bs' ↔ boundary (zlen pre) es x ∧ zlen pre < x.
Proof.
  revert pre fuel seq bs. induction es as [|e es IH]; intros pre fuel seq bs Hes Htail Hpre Hst Hmax Hfuel.
  - exists []. split.
    2: { intros x. split; [by intros Hx%elem_of_nil|]. intros [(a & b & Hnil & ->) Hlt]. symmetry in Hnil.
      apply app_eq_nil in Hnil as [-> _]. cbn in Hlt. lia. }
    destruct fuel as [|fuel]; [cbn in Hfuel; lia|].
    unfold stops in Htail. change (frames crc32 []) with (@nil Z) in *. rewrite app_nil_r in Htail.
    cbn [scan_loop app last size foldr]. rewrite app_nil_r, Z.add_0_r.
    destruct (entry_at _ _ _ _ _ _) as [[?|err]|]; [done| |done]. by rewrite Htail.
  - apply Forall_cons in Hes as [He Hes]. destruct fuel as [|fuel]; [cbn in Hfuel; lia|].
    pose proof (frame_len_pos e). pose proof (size_nonneg es). rewrite size_cons in Hmax.
    cbn [scan_loop]. rewrite frames_cons, <- app_assoc.
    rewrite entry_at_frame; [|done|done|lia|done|lia]. cbn [record_next_offset record_at record_sequence scan_boundaries].
    replace (saturating_sub _ _ + 38) with (zlen (pre ++ frame crc32 e))
      by (rewrite zlen_app, frame_length; unfold saturating_sub; lia).
    replace (zlen pre + frame_len e) with (zlen (pre ++ frame crc32 e)) by (by rewrite zlen_app, frame_length).
    rewrite (app_assoc pre).
    destruct (IH (pre ++ frame crc32 e) fuel (Some (entry_seq e)) (bs ++ [zlen (pre ++ frame crc32 e)]))
      as (bs' & -> & Hbs'); [done|by rewrite <- app_assoc, <- frames_cons|..].
    1-4: rewrite ?zlen_app, ?frame_length; cbn in Hfuel; lia.
    exists (zlen (pre ++ frame crc32 e) :: bs'). rewrite last_cons, <- app_assoc. split.
    + rewrite size_cons, zlen_app, frame_length, Z.add_assoc. by destruct (last es).
    + intros x. rewrite elem_of_cons, Hbs', zlen_app, frame_length. clear -H. split.
      * intros [->|[(a & b & -> & ->) Hlt]]; (split; [|lia]).
        -- exists [e], es. split; [done|]. rewrite size_cons. cbn. lia.
        -- exists (e :: a), b. split; [done|]. rewrite size_cons. lia.
      * intros [([|e' a] & b & Heq & ->) Hlt]; [cbn in Hlt; lia|]. injection Heq as <- ->. rewrite size_cons in *.
        destruct (decide (size a = 0)) as [Hz|Hz]; [left; lia|]. right. pose proof (size_nonneg a). split; [|lia].
        exists a, b. split; [done|lia].
Qed.

#[local] Opaque stops.

Lemma size_length es : Z.of_nat (length es) ≤ size es.
Proof. induction es as [|e es IH]; [done|]. rewrite size_cons. pose proof (frame_len_pos e). cbn [length]. lia. Qed.

Lemma scan_file hash start es tail :
  length hash = 16%nat → Forall entry_ok es → stops (file_content crc32 hash start es) start tail → u64_ok start → start + 38 + size es ≤ u64_max →
  ∃ bs,
    scan_file_for_entries crc32 (Some (file_content crc32 hash start es ++ tail)) =
      Ok (mkScan (entry_seq <$> last es) (38 + size es) bs) ∧
    ∀ x, x ∈ bs ↔ boundary 38 es x ∧ 38 < x.
Proof.
  intros Hh Hes Htail Hs Hmax. unfold scan_file_for_entries, reader_open, file_content.
  rewrite <- app_assoc, wal_header_roundtrip by done. cbn [result_bind reader_header_size reader_start header_size].
  set (hd := header_encode (with_base_offset hash start)).
  assert (zlen hd = 38) as Hhd by (unfold zlen, hd; by rewrite header_encode_length).
  destruct (scan_frames es hd tail start (S (length (hd ++ frames crc32 es ++ tail))) None [])
    as (bs & Hscan & Hbs); [done|done|lia|by destruct Hs|lia| |].
  { pose proof (size_length es) as Hsl. rewrite <- (frames_length crc32) in Hsl. unfold zlen in Hsl.
    rewrite !length_app. lia. }
  rewrite Hhd in *. exists bs. split; [|done].
  replace (offset_of_position _ 0) with 38.
  - transitivity (scan_loop crc32 (S (length (hd ++ frames crc32 es ++ tail))) (hd ++ frames crc32 es ++ tail) 38 start 38
      (mkScan None 38 [])); [done|]. rewrite Hscan. by destruct (last es).
  - unfold offset_of_position, saturating_sub, saturating_add. cbn [reader_start reader_header_size with_base_offset wal_position_start].
    change (header_size (with_base_offset hash start)) with 38. change u64_max with 18446744073709551615. destruct Hs. lia.
Qed.

(** ** The rotated files *)

(** A rotated file as it is found when the positions are counted from [q] instead
    of [p]. *)
Definition rotated_at (p q : Z) (f : LogFile) : RotatedWalFile :=
  mkRotated (lf_path f) (lf_id f) (38 + size (lf_entries f)) (lf_end f - p + q).

Lemma rotated_at_same p (fs : list LogFile) : rotated_at p p <$> fs = rotated_of <$> fs.
Proof. apply list_fmap_ext. intros i f _. unfold rotated_at, rotated_of. by replace (lf_end f - p + p) with (lf_end f) by lia. Qed.

Lemma reload_files dir hash fs p q stop m :
  length hash = 16%nat → 0 ≤ p → 0 ≤ q ≤ p → chained p fs stop → stop ≤ u64_max →
  (∀ f, f ∈ fs → dir !! lf_path f = Some (file_content crc32 hash (lf_start f) (lf_entries f))) →
  reload_loop dir ((λ f, (lf_id f, 38 + size (lf_entries f))) <$> fs) q m =
    Ok (rotated_at p q <$> fs, foldr (λ f, Z.max (lf_id f)) m (reverse fs)).
Proof.
  intros Hh. revert p q m. induction fs as [|f fs IH]; intros p q m Hp Hq Hc Hmax Hdir; [done|].
  cbn [fmap list_fmap reload_loop]. change (rotated_wal_path (lf_id f)) with (lf_path f). rewrite (Hdir f) by (by left). unfold file_content.
  rewrite wal_header_size_roundtrip by done. cbn [result_bind]. destruct Hc as (Hs & _ & Hc).
  pose proof (chained_size _ _ _ Hc) as Hsz. pose proof (size_nonneg (lf_entries f)). pose proof (size_nonneg (entries_of fs)).
  assert (saturating_add u64_max q (saturating_sub (38 + size (lf_entries f)) 38) = lf_end f - p + q) as ->
    by (unfold saturating_add, saturating_sub, lf_end in *; lia).
  rewrite (IH (lf_end f)); [|unfold lf_end; lia|unfold lf_end; lia|done|done|intros g Hg; apply Hdir; by right]. cbn [result_bind].
  rewrite reverse_cons, foldr_app. cbn [foldr]. rewrite (Z.max_comm (lf_id f)).
  replace (rotated_at (lf_end f) (lf_end f - p + q) <$> fs) with (rotated_at p q <$> fs); [done|].
  apply list_fmap_ext. intros i g _. unfold rotated_at. by replace (lf_end g - lf_end f + (lf_end f - p + q)) with (lf_end g - p + q) by lia.
Qed.

Lemma discover_sizes dir hash fs start act c names :
  layout crc32 dir hash fs start act → names ≡ₚ (map_to_list dir).*1 →
  discover_rotated_sizes (<[WAL_FILENAME := c]> dir) names = (λ f, (lf_id f, 38 + size (lf_entries f))) <$> fs.
Proof.
  intros Hl Hnames. unfold discover_rotated_sizes. rewrite (discover_layout crc32 dir hash fs start act) by done.
  rewrite <- list_fmap_compose. apply list_fmap_ext. intros i f Hf. cbn [compose].
  apply list_elem_of_lookup_2 in Hf.
  rewrite lookup_insert_ne by (apply not_eq_sym, active_not_rotated; by eapply layout_files_u64).
  rewrite (lay_files _ _ _ _ _ _ Hl) by done. cbn [default id].
  by rewrite (file_content_length crc32) by apply Hl.
Qed.

Lemma sorted_before fs f g :
  StronglySorted (λ f g, lf_id f < lf_id g) (fs ++ [f]) → g ∈ fs → lf_id g < lf_id f.
Proof. intros Hs Hg. eapply (StronglySorted_app_1_elem_of (λ f g, lf_id f < lf_id g)); [done|done|]. by apply list_elem_of_singleton. Qed.

Lemma max_id_last f fs :
  StronglySorted (λ f g, lf_id f < lf_id g) (fs ++ [f]) → 0 ≤ lf_id f →
  foldr (λ f, Z.max (lf_id f)) 0 (reverse (fs ++ [f])) = lf_id f.
Proof.
  intros Hs Hf. rewrite reverse_snoc. cbn [foldr].
  assert (∀ g, g ∈ reverse fs → lf_id g < lf_id f) as Hlt.
  { intros g Hg. rewrite elem_of_reverse in Hg. by apply (sorted_before fs). }
  induction (reverse fs) as [|g l IH]; cbn [foldr]; [lia|].
  pose proof (Hlt g ltac:(by left)). assert (Z.max (lf_id f) (foldr (λ f, Z.max (lf_id f)) 0 l) = lf_id f); [|lia].
  apply IH. intros x Hx. apply Hlt. by right.
Qed.

Lemma most_recent_last p f fs :
  StronglySorted (λ f g, lf_id f < lf_id g) (fs ++ [f]) →
  most_recent (rotated_at p 0 <$> (fs ++ [f])) = Some (rotated_at p 0 f).
Proof.
  intros Hs. unfold most_recent. rewrite fmap_app, foldl_app. cbn [fmap list_fmap foldl].
  assert (∀ g, g ∈ fs → lf_id g < lf_id f) as Hlt.
  { intros g Hg. by apply (sorted_before fs). }
  assert (match foldl (λ acc f, match acc with
      | None => Some f | Some m => if rotated_id m <=? rotated_id f then Some f else acc end) None (rotated_at p 0 <$> fs)
    with None => True | Some m => rotated_id m < lf_id f end) as Hacc.
  { clear Hs. induction fs as [|g fs IH] using rev_ind; [done|]. rewrite fmap_app, foldl_app. cbn [fmap list_fmap foldl].
    assert (lf_id g < lf_id f) by (apply Hlt, elem_of_app; right; by apply list_elem_of_singleton).
    destruct (foldl _ _ _) as [m|]; [|done]. destruct (rotated_id m <=? rotated_id (rotated_at p 0 g)); [done|].
    apply IH. intros x Hx. apply Hlt, elem_of_app. by left. }
  destruct (foldl _ _ _) as [m|]; [|done]. by rewrite (proj2 (Z.leb_le _ _)) by (cbn; lia).
Qed.

(** ** The end of the log *)

Lemma numbered_last hist e : numbered hist → last hist = Some e → entry_seq e = zlen hist - 1.
Proof.
  unfold numbered. intros Hn [l ->]%last_Some. rewrite zlen_app in *. change (zlen [e]) with 1 in *.
  pose proof (zlen_nonneg l). rewrite (seqZ_app _ _ 1), fmap_app in Hn by lia. cbn in Hn.
  apply app_inj_tail in Hn as [_ ->]. lia.
Qed.

Lemma chained_nonempty p fs stop f : chained p fs stop → f ∈ fs → lf_entries f ≠ [].
Proof.
  revert p. induction fs as [|g fs IH]; intros p; [by intros _ ?%elem_of_nil|].
  intros (_ & Hne & Hc) [->|Hin]%elem_of_cons; [done|]. by eapply IH.
Qed.

Lemma next_after hist e :
  numbered hist → last hist = Some e → zlen hist ≤ 2 ^ 32 → wrapping_add 64 (entry_seq e) 1 = zlen hist.
Proof.
  intros Hn Hl Hz. rewrite (numbered_last hist e Hn Hl). unfold wrapping_add. rewrite Z.mod_small; [lia|].
  pose proof (zlen_nonneg hist). lia.
Qed.

Lemma detect_next d hash pre fs start act tail :
  layout crc32 d hash fs start act → placed (size pre) fs start act → stops (file_content crc32 hash start act) start tail → numbered (pre ++ entries_of fs ++ act) →
  zlen (pre ++ entries_of fs ++ act) ≤ 2 ^ 32 → pre = [] ∨ fs ≠ [] →
  ∃ bs,
    detect_next_sequence crc32 (<[WAL_FILENAME := file_content crc32 hash start act ++ tail]> d) (rotated_at (size pre) 0 <$> fs) =
      Ok (zlen (pre ++ entries_of fs ++ act), 38 + size act, bs) ∧
    ∀ x, x ∈ bs ↔ boundary 38 act x ∧ 38 < x.
Proof.
  intros Hl Hp Htail Hnum Hz Hpre. unfold detect_next_sequence. rewrite lookup_insert_eq.
  pose proof (placed_high _ _ _ _ Hp) as Hhi. pose proof (placed_entries _ _ _ _ Hp) as Hes.
  apply Forall_app in Hes as [_ Hact].
  destruct (scan_file hash start act tail) as (bs & -> & Hbs); [apply Hl|done|done|by eapply placed_start|lia|].
  cbn [result_bind last_sequence last_valid_offset scan_boundaries]. exists bs. split; [|done].
  destruct (last act) as [e|] eqn:Hlast; cbn [fmap option_fmap option_map].
  { rewrite (next_after (pre ++ entries_of fs ++ act)); [done|done| |done]. by rewrite app_assoc, last_app, Hlast. }
  apply last_None in Hlast. subst act. rewrite app_nil_r in *.
  destruct fs as [|f fs _] using rev_ind; [by destruct Hpre as [->|?]|].
  rewrite most_recent_last by apply Hl. cbn [rotated_at rotated_path].
  assert (f ∈ fs ++ [f]) as Hin by (apply elem_of_app; right; by apply list_elem_of_singleton).
  rewrite lookup_insert_ne by (apply not_eq_sym, active_not_rotated; by eapply layout_files_u64).
  rewrite (lay_files _ _ _ _ _ _ Hl f Hin).
  destruct (placed_file _ _ _ _ f Hp Hin) as (Hs & _ & Hend & Hok). unfold lf_end in Hend.
  destruct (scan_file hash (lf_start f) (lf_entries f) []) as (bs' & Hscan & _);
    [apply Hl|done|by apply torn_stops; left|done|lia|]. rewrite app_nil_r in Hscan. rewrite Hscan.
  cbn [result_bind last_sequence].
  pose proof (chained_nonempty _ _ _ _ (placed_chain _ _ _ _ Hp) Hin) as Hne.
  destruct (last (lf_entries f)) as [e|] eqn:Hlast; [|by apply last_None in Hlast].
  cbn [fmap option_fmap option_map]. rewrite (next_after (pre ++ entries_of (fs ++ [f]))); [done|done| |done].
  rewrite entries_of_app, app_assoc. unfold entries_of at 2. cbn. by rewrite app_nil_r, last_app, Hlast.
Qed.

(** ** Opening *)

Lemma keys_insert (d : Dir) k v v' : d !! k = Some v → (map_to_list (<[k := v']> d)).*1 ≡ₚ (map_to_list d).*1.
Proof.
  intros Hk. rewrite <- (insert_delete_id d k v Hk) at 2. rewrite <- (insert_delete_eq d).
  rewrite !map_to_list_insert by apply lookup_delete_eq. done.
Qed.

Lemma reload_layout d hash p fs start act c names :
  layout crc32 d hash fs start act → placed p fs start act → names ≡ₚ (map_to_list d).*1 →
  ∀ n, Forall (λ f, lf_id f ≤ n) fs → 0 ≤ n ≤ 2 ^ 32 →
  ∃ next_id,
    reload_rotated_files (<[WAL_FILENAME := c]> d) names = Ok (rotated_at p 0 <$> fs, next_id) ∧
    Forall (λ f, lf_id f < next_id) fs ∧ 1 ≤ next_id ≤ n + 1.
Proof.
  intros Hl Hp Hnames n Hids Hz. unfold reload_rotated_files. rewrite (discover_sizes d hash fs start act) by done.
  destruct fs as [|f fs _] using rev_ind; [exists 1; split_and!; [done..|lia|lia]|].
  assert (∀ g, g ∈ fs ++ [f] → u64_ok (lf_id g)) as Hu by (intros; by eapply layout_files_u64).
  assert (f ∈ fs ++ [f]) as Hin by (apply elem_of_app; right; by apply list_elem_of_singleton).
  pose proof (Hu f Hin) as [Hf _]. pose proof (lay_ids _ _ _ _ _ _ Hl) as Hs.
  rewrite Forall_forall in Hids. pose proof (Hids f Hin) as Hfm.
  exists (lf_id f + 1). split_and!; [| |lia|lia].
  - destruct ((λ f, (lf_id f, 38 + size (lf_entries f))) <$> (fs ++ [f])) as [|x l] eqn:Hx.
    { by rewrite fmap_app in Hx; apply app_eq_nil in Hx as [_ ?]. }
    rewrite <- Hx. rewrite (reload_files _ hash _ p 0 start); [|apply Hl|apply Hp|split; [lia|apply Hp]|apply Hp| |].
    + cbn [result_bind]. rewrite max_id_last by done. unfold saturating_add. change u64_max with 18446744073709551615.
      by rewrite Z.min_l by lia.
    + pose proof (placed_high _ _ _ _ Hp). pose proof (size_nonneg act). lia.
    + intros g Hg. rewrite lookup_insert_ne by (apply not_eq_sym, active_not_rotated; by apply Hu). by apply Hl.
  - apply Forall_forall. intros g [Hg|Hg%list_elem_of_singleton]%elem_of_app; [|subst g; lia].
    pose proof (sorted_before fs f g Hs Hg). lia.
Qed.

Lemma open_active_file o hash start act tail d :
  length hash = 16%nat → u64_ok start → cfg_hash o = hash →
  open_active o (<[WAL_FILENAME := file_content crc32 hash start act ++ tail]> d) =
    (<[WAL_FILENAME := file_content crc32 hash start act ++ tail]> d, Ok (start, 38)).
Proof.
  intros Hh Hs Ho. unfold open_active. rewrite lookup_insert_eq. cbn [default id]. rewrite insert_insert_eq.
  unfold file_content. rewrite <- app_assoc.
  destruct (header_encode _ ++ _) as [|x l] eqn:Hc.
  { apply (f_equal length) in Hc. rewrite length_app, header_encode_length in Hc by done. discriminate Hc. }
  rewrite <- Hc, length_app, header_encode_length by done.
  rewrite (proj2 (Nat.ltb_ge _ _)) by (change WAL_HEADER_MIN_LEN with (WAL_HEADER_MIN_LEN + 0)%nat; unfold WAL_HEADER_MIN_LEN; cbn; lia).
  rewrite wal_header_roundtrip by done. cbn [result_bind segment_cfg_hash with_base_offset].
  by rewrite Ho, bool_decide_eq_true_2, !insert_insert_eq.
Qed.

(** What a recovery starts from: a log with an incomplete last entry. *)
Record recoverable (o : WalWriterOptions) (d : Dir) (fs : list LogFile) (start : Z) (act : list LogEntry) (c : Z) : Prop := {
  rec_layout : layout crc32 d (cfg_hash o) fs start act;
  rec_placed : placed 0 fs start act;
  rec_numbered : numbered (entries_of fs ++ act);
  rec_ids : Forall (λ f, lf_id f ≤ zlen (entries_of fs)) fs;
  rec_cursor : load_cursor_state crc32 d = Ok c;
  rec_range : 0 ≤ c ≤ size (entries_of fs ++ act);
  rec_boundary : start < c → boundary start act c;
  rec_options : validate o = Ok tt;
}.

Lemma recovered_total o d fs start act c :
  recoverable o d fs start act c →
  start = size (entries_of fs) ∧
  match last (rotated_of <$> fs) with Some f => rotated_end f | None => 0 end = start ∧
  match last (rotated_of <$> fs) with Some f => rotated_end f | None => start end = start.
Proof.
  intros Hr. pose proof (placed_chain _ _ _ _ (rec_placed _ _ _ _ _ _ Hr)) as Hc.
  pose proof (chained_size _ _ _ Hc) as Hsz. pose proof (last_rotated _ _ _ Hc) as Hl. split_and!; [lia| |done].
  destruct (last (rotated_of <$> fs)) as [f|] eqn:Hlast; [done|]. apply last_None, fmap_nil_inv in Hlast. by subst fs.
Qed.

(** The cursor is in the log, so it is kept. *)
Lemma restored_cursor o b d fs start act c next_id bs :
  recoverable o d fs start act c → zlen (entries_of fs ++ act) ≤ 2 ^ 32 →
  let w := writer_new o b c 38 start (rotated_of <$> fs) next_id (zlen (entries_of fs ++ act)) (38 + size act) bs in
  ∃ vb, restore_cursor_offsets w = w <| validated_boundary := vb |> ∧ boundary 38 act vb ∧
    vb ≤ Z.max 38 (38 + (c - start)).
Proof.
  intros Hr Hz w. destruct (recovered_total _ _ _ _ _ _ Hr) as (Hs & Ht0 & Ht).
  pose proof (placed_high _ _ _ _ (rec_placed _ _ _ _ _ _ Hr)) as Hhi.
  destruct (rec_range _ _ _ _ _ _ Hr) as [H0 Hc]. rewrite size_app in Hc. pose proof (size_nonneg act).
  pose proof (size_nonneg (entries_of fs)). change u64_max with 18446744073709551615 in *.
  unfold restore_cursor_offsets. subst w. cbn [writer_new rotated_files current_len active_header_size cursor_position].
  rewrite Ht0. unfold saturating_sub, saturating_add. change u64_max with 18446744073709551615.
  rewrite (proj2 (Z.ltb_ge _ _)) by lia. eexists. split; [done|].
  unfold to_file_offset, active_wal_position_start. cbn [cursor_position writer_new rotated_files active_header_size active_start]. rewrite Ht.
  destruct (Z.leb_spec c start) as [Hle|Hlt]; [split; [apply boundary_start|lia]|].
  split; [|unfold saturating_sub, saturating_add; lia].
  pose proof (rec_boundary _ _ _ _ _ _ Hr Hlt) as Hb. apply (boundary_shift _ 38) in Hb.
  eapply boundary_at; [exact Hb|]. unfold saturating_sub, saturating_add. change u64_max with 18446744073709551615. lia.
Qed.

Lemma rotated_bytes fs : foldr (λ f, Z.add (file_bytes f)) 0 (rotated_of <$> fs) = disk_size fs.
Proof. induction fs as [|f fs IH]; [done|]. cbn [fmap list_fmap foldr disk_size rotated_of file_bytes]. rewrite IH. done. Qed.

Lemma restored_inv o b d fs start act c next_id bs :
  recoverable o d fs start act c → zlen (entries_of fs ++ act) ≤ 2 ^ 32 →
  Forall (λ f, lf_id f < next_id) fs → 1 ≤ next_id ≤ zlen (entries_of fs) + 1 →
  (∀ x, x ∈ bs ↔ boundary 38 act x ∧ 38 < x) →
  let w := recalculate_aggregate_bytes (restore_cursor_offsets
    (writer_new o b c 38 start (rotated_of <$> fs) next_id (zlen (entries_of fs ++ act)) (38 + size act) bs)) in
  let w := budget_add (aggregate_bytes w) w in
  wal_inv crc32 w d [] fs act ∧ options w = o ∧ cursor_position w = c ∧ aggregate_bytes w = disk_size fs + 38 + size act ∧
  rotation_count w = 0 ∧ budget w = (λ b, add b (disk_size fs + 38 + size act)) <$> b ∧
  rotated_files w = rotated_of <$> fs ∧ purge_count w = 0.
Proof.
  intros Hr Hz Hids Hnext Hbs.
  destruct (restored_cursor o b d fs start act c next_id bs Hr Hz) as (vb & -> & Hvb & Hvl).
  destruct Hr as [Hl Hp Hnum _ Hcur Hrange Hbd _].
  pose proof (disk_size_bound _ _ _ (placed_chain _ _ _ _ Hp)) as Hdisk. rewrite zlen_app in Hz.
  pose proof (size_bound _ (placed_entries _ _ _ _ Hp)) as Hsb. rewrite size_app, zlen_app in Hsb.
  pose proof (zlen_nonneg (entries_of fs)). pose proof (size_nonneg act). pose proof (size_nonneg (entries_of fs)). pose proof (zlen_nonneg act).
  assert (saturating_add u64_max (foldr (λ f, Z.add (file_bytes f)) 0 (rotated_of <$> fs)) (38 + size act) =
    disk_size fs + 38 + size act) as Hagg.
  { rewrite rotated_bytes. unfold saturating_add. change u64_max with 18446744073709551615. lia. }
  unfold recalculate_aggregate_bytes, budget_add, writer_new. cbn. rewrite Hagg.
  split_and!; try done. split; cbn; try done; [by intros x [? _]%Hbs|lia|]. intros x Hx H38 _. by apply Hbs.
Qed.

(** Opening keeps the complete entries and continues after them. *)
Lemma open_recovers o b d fs start act c tail names :
  recoverable o d fs start act c → stops (file_content crc32 (cfg_hash o) start act) start tail → zlen (entries_of fs ++ act) ≤ 2 ^ 32 →
  let crashed := <[WAL_FILENAME := file_content crc32 (cfg_hash o) start act ++ tail]> d in
  names ≡ₚ (map_to_list crashed).*1 →
  ∃ w, open crc32 o b names crashed = (d, Ok w) ∧
    wal_inv crc32 w d [] fs act ∧ options w = o ∧ cursor_position w = c ∧
    aggregate_bytes w = disk_size fs + 38 + size act ∧
    rotation_count w = 0 ∧ budget w = (λ b, add b (disk_size fs + 38 + size act)) <$> b ∧
    rotated_files w = rotated_of <$> fs ∧ purge_count w = 0.
Proof.
  intros Hr Htorn Hz crashed Hnames. pose proof Hr as [Hl Hp Hnum Hids Hcur Hrange Hbd Hval].
  pose proof (lay_active _ _ _ _ _ _ Hl) as Hact. unfold crashed in Hnames. rewrite (keys_insert d _ _ _ Hact) in Hnames.
  destruct (detect_next d (cfg_hash o) [] fs start act tail Hl Hp Htorn Hnum Hz) as (bs & Hdet & Hbs); [by left|].
  destruct (reload_layout d (cfg_hash o) 0 fs start act (file_content crc32 (cfg_hash o) start act ++ tail) names Hl Hp Hnames
    (zlen (entries_of fs)) Hids) as (next_id & Hrel & Hlt & Hnext).
  { rewrite zlen_app in Hz. pose proof (zlen_nonneg act). pose proof (zlen_nonneg (entries_of fs)). lia. }
  change (size []) with 0 in Hdet. rewrite rotated_at_same in Hdet, Hrel. cbn [app] in Hdet.
  eexists. split; [|by eapply restored_inv].
  unfold open. unfold crashed. rewrite open_active_file; [|apply Hl|by eapply placed_start|done].
  rewrite (load_cursor_ext crc32 d) by (by rewrite lookup_insert_ne).
  cbn [result_bind]. rewrite Hval, Hcur. cbn [result_bind]. rewrite Hrel. cbn [result_bind]. rewrite Hdet. cbn [result_bind].
  rewrite lookup_insert_eq. cbn [default id]. rewrite zlen_app, file_content_length by apply Hl.
  f_equal. rewrite insert_insert_eq.
  destruct (Z.ltb_spec (38 + size act) (38 + size act + zlen tail)) as [Hlong|Hshort].
  - rewrite <- (file_content_length crc32 (cfg_hash o) start act) by apply Hl. unfold zlen. rewrite Nat2Z.id, take_app_length.
    by apply insert_id.
  - destruct tail as [|x tail]; [|rewrite zlen_cons in Hshort; pose proof (zlen_nonneg tail); lia]. rewrite app_nil_r. by apply insert_id.
Qed.

Section logs.
Context {Batch : Type} {HB : RecordBatch Batch}.

(** A new log in an empty directory. *)
Lemma open_fresh o b :
  length (cfg_hash o) = 16%nat → validate o = Ok tt →
  ∃ w dir, open crc32 o b [WAL_FILENAME] ∅ = (dir, Ok w) ∧ wal_holds crc32 (w, dir) [] ∧ options w = o ∧
    cursor_position w = 0 ∧ aggregate_bytes w = 38 ∧ rotation_count w = 0 ∧ budget w = (λ b, add b 38) <$> b ∧
    rotated_files w = [] ∧ (map_to_list dir).*1 = [WAL_FILENAME] ∧ purge_count w = 0.
Proof.
  intros Hh Hv. set (d := <[WAL_FILENAME := file_content crc32 (cfg_hash o) 0 []]> (∅ : Dir)).
  assert (recoverable o d [] 0 [] 0) as Hr.
  { split; [|by split|done|by constructor|done|done|done|done].
    split; [done|by apply lookup_insert_eq|by intros f ?%elem_of_nil| |by constructor|by constructor].
    intros name id Hname Hid. destruct (decide (name = WAL_FILENAME)) as [->|Hne]; [discriminate Hid|].
    unfold d in Hname. rewrite lookup_insert_ne, lookup_empty in Hname by done. by destruct Hname. }
  destruct (open_recovers o b d [] 0 [] 0 [] [WAL_FILENAME] Hr) as (w & Hopen & Hi & Ho & Hc & Ha & Hrc & Hb & Hrf & Hpc);
    [by apply torn_stops; left|done|..].
  { rewrite app_nil_r. unfold d. rewrite insert_insert_eq, map_to_list_insert, map_to_list_empty by apply lookup_empty. done. }
  exists w, d. split; [|split_and!; try done].
  - rewrite <- Hopen. unfold open. rewrite open_active_file by (done || unfold u64_ok; lia).
    rewrite app_nil_r. unfold d. rewrite insert_insert_eq.
    assert (open_active o ∅ = (<[WAL_FILENAME := file_content crc32 (cfg_hash o) 0 []]> ∅, Ok (0, 38))) as ->; [|done].
    unfold open_active. rewrite lookup_empty. cbn [default id]. rewrite insert_insert_eq.
    unfold file_content. change (frames crc32 []) with (@nil Z). by rewrite app_nil_r.
  - exists [], [], []. split_and!; try done. cbn. lia.
Qed.

(** ** Crashes *)

(** A crash while an append has written [tail]: the active file keeps its first
    [n] bytes. *)
Definition crash (n : nat) (tail : list Z) (dir : Dir) : Dir := alter (λ c, take n (c ++ tail)) WAL_FILENAME dir.

(** The accepted bundles whose entries end at or before a position. *)
Definition survivors (limit : Z) (acks : list (WalOffset * RecordBundle Batch)) : list (WalOffset * RecordBundle Batch) :=
  List.filter (λ '(o, _), next_offset o <=? limit) acks.

Lemma torn_take n tail : torn tail → torn (take n tail).
Proof.
  intros [->|(e & m & He & Hm & ->)]; [left; by rewrite take_nil|]. right. exists e, (n `min` m)%nat.
  split; [done|]. split; [lia|]. by rewrite take_take.
Qed.

(** The complete entries among the first bytes of a file. *)
Lemma take_frames n es tail :
  Forall entry_ok es → torn tail →
  ∃ es1 es2 tail', es = es1 ++ es2 ∧ take n (frames crc32 es ++ tail) = frames crc32 es1 ++ tail' ∧ torn tail' ∧
    size es1 ≤ Z.of_nat n ∧ match es2 with [] => True | e :: _ => Z.of_nat n < size es1 + frame_len e end.
Proof.
  intros Hes Htail. revert n. induction Hes as [|e es He Hes IH]; intros n.
  { exists [], [], (take n tail). split_and!; try done; [by apply torn_take|cbn; lia]. }
  rewrite frames_cons, <- app_assoc. pose proof (frame_length crc32 e) as Hl. unfold zlen in Hl.
  destruct (decide (n < length (frame crc32 e))%nat) as [Hlt|Hge].
  - exists [], (e :: es), (take n (frame crc32 e)). split_and!; [done| |right; by exists e, n|cbn; lia|cbn; lia].
    by rewrite take_app_le by lia.
  - destruct (IH (n - length (frame crc32 e))%nat) as (es1 & es2 & tail' & -> & Htake & Ht & Hsz & Hrest).
    exists (e :: es1), es2, tail'. rewrite take_app_ge, Htake, frames_cons, size_cons, app_assoc by lia.
    split_and!; [done..|lia|]. destruct es2; [done|]. lia.
Qed.

Lemma numbered_prefix a b : numbered (a ++ b) → numbered a.
Proof.
  unfold numbered. rewrite fmap_app, zlen_app. pose proof (zlen_nonneg a). pose proof (zlen_nonneg b).
  rewrite (seqZ_app _ (zlen a)) by lia. intros Heq. apply app_inj_1 in Heq as [? _]; [done|].
  rewrite length_fmap, length_seqZ. unfold zlen. lia.
Qed.

Lemma place_bounds pos es r : r ∈ place pos es → pos < record_next_offset r ≤ pos + size es.
Proof.
  revert pos. induction es as [|e es IH]; intros pos; [by intros ?%elem_of_nil|].
  pose proof (frame_len_pos e). pose proof (size_nonneg es). rewrite size_cons.
  intros [->|Hr]%elem_of_cons; [cbn; lia|]. specialize (IH _ Hr). lia.
Qed.

Lemma filter_all {A} (f : A → bool) l : (∀ x, x ∈ l → f x = true) → List.filter f l = l.
Proof.
  intros Hf. induction l as [|x l IH]; [done|]. cbn. rewrite Hf by (by left). f_equal. apply IH.
  intros y Hy. apply Hf. by right.
Qed.

Lemma filter_none {A} (f : A → bool) l : (∀ x, x ∈ l → f x = false) → List.filter f l = [].
Proof.
  intros Hf. induction l as [|x l IH]; [done|]. cbn. rewrite Hf by (by left). apply IH. intros y Hy. apply Hf. by right.
Qed.

(** The bundles whose entries survive are those of the complete entries. *)
Lemma survivors_take acks limit es1 es2 :
  record_of <$> acks = place 0 (es1 ++ es2) → size es1 ≤ limit →
  match es2 with [] => True | e :: _ => limit < size es1 + frame_len e end →
  survivors limit acks = take (length es1) acks ∧
  ∀ o b, (o, b) ∈ drop (length es1) acks → limit < next_offset o.
Proof.
  intros Hp Hle Hgt. rewrite place_app in Hp. apply fmap_app_inv in Hp as (k1 & k2 & H1 & H2 & ->).
  assert (length k1 = length es1) as Hlen by (apply (f_equal length) in H1; by rewrite length_fmap, place_length in H1).
  rewrite take_app_length', drop_app_length' by done.
  assert (∀ o b, (o, b) ∈ k2 → limit < next_offset o) as Hlost.
  { intros o b Hin. destruct es2 as [|e es2].
    { cbn in H2. symmetry in H2. apply fmap_nil_inv in H2 as ->. by apply elem_of_nil in Hin. }
    assert (record_of (o, b) ∈ record_of <$> k2) as Hr by (by apply list_elem_of_fmap_2). rewrite <- H2 in Hr.
    cbn [place] in Hr. apply elem_of_cons in Hr as [Hr|Hr].
    + apply (f_equal record_next_offset) in Hr. cbn in Hr. lia.
    + apply place_bounds in Hr. cbn [record_of record_next_offset] in Hr. pose proof (frame_len_pos e). lia. }
  split; [|done]. unfold survivors. rewrite List.filter_app, filter_all, filter_none, app_nil_r.
  - done.
  - intros [o b] Hin. by apply Z.leb_gt, (Hlost o b).
  - intros [o b] Hin. apply Z.leb_le.
    assert (record_of (o, b) ∈ record_of <$> k1) as Hr by (by apply list_elem_of_fmap_2). rewrite <- H1 in Hr.
    apply place_bounds in Hr. cbn [record_of record_next_offset] in Hr. lia.
Qed.

Lemma survivors_place acks limit es1 es2 :
  record_of <$> acks = place 0 (es1 ++ es2) → size es1 ≤ limit →
  match es2 with [] => True | e :: _ => limit < size es1 + frame_len e end →
  record_of <$> survivors limit acks = place 0 es1.
Proof.
  intros Hp Hle Hgt. destruct (survivors_take acks limit es1 es2 Hp Hle Hgt) as [-> _].
  rewrite fmap_take, Hp, place_app. apply take_app_length'. by rewrite place_length.
Qed.

(** A boundary below the cut is a boundary of the complete entries. *)
Lemma boundary_cut off es1 es2 x limit :
  boundary off (es1 ++ es2) x → x ≤ off + limit →
  match es2 with [] => True | e :: _ => limit < size es1 + frame_len e end → boundary off es1 x.
Proof.
  intros (a & b & Heq & ->) Hle Hgt. destruct (Z.le_gt_cases (size es1) (size a)) as [Hge|Hlt].
  - symmetry in Heq. destruct (app_size_split_ge a b es1 es2) as (m & -> & ->); [done|done|].
    rewrite size_app in *. destruct m as [|e m].
    { eapply boundary_at; [apply boundary_all|]. change (size []) with 0. lia. }
    cbn in Hgt. rewrite size_cons in Hle. pose proof (size_nonneg m). lia.
  - destruct (app_size_split a b es1 es2) as (m & -> & ->); [done|done|]. by exists a, m.
Qed.

(** The entries of the active file cut off at a complete entry. *)
Lemma layout_cut d hash fs start act act' :
  layout crc32 d hash fs start act →
  layout crc32 (<[WAL_FILENAME := file_content crc32 hash start act']> d) hash fs start act'.
Proof.
  intros Hl. split; try apply Hl.
  - by rewrite lookup_insert_eq.
  - intros f Hf. rewrite lookup_insert_ne by (apply not_eq_sym, active_not_rotated; by eapply layout_files_u64). by apply Hl.
  - intros name id Hname Hid. apply (lay_names _ _ _ _ _ _ Hl name id); [|done].
    destruct (decide (name = WAL_FILENAME)) as [->|]; [discriminate Hid|]. by rewrite lookup_insert_ne in Hname.
Qed.

Lemma cut_recoverable w dir fs act1 act2 limit :
  wal_inv crc32 w dir [] fs (act1 ++ act2) → numbered (entries_of fs ++ act1 ++ act2) → validate (options w) = Ok tt →
  cursor_position w ≤ active_start w + limit → size act1 ≤ limit →
  match act2 with [] => True | e :: _ => limit < size act1 + frame_len e end →
  recoverable (options w) (<[WAL_FILENAME := file_content crc32 (cfg_hash (options w)) (active_start w) act1]> dir)
    fs (active_start w) act1 (cursor_position w).
Proof.
  intros Hi Hnum Hval Hcur Hle Hcut. pose proof (inv_start_size _ _ _ _ _ _ Hi) as Hstart.
  destruct (inv_cursor _ _ _ _ _ _ Hi) as [Hlow _]. change (size []) with 0 in Hlow. cbn [app] in Hstart.
  assert (active_start w < cursor_position w → boundary (active_start w) act1 (cursor_position w)) as Hb.
  { intros Hlt. apply (boundary_cut _ act1 act2 _ limit); [by apply (inv_cursor_active _ _ _ _ _ _ Hi)|done|done]. }
  destruct (inv_placed _ _ _ _ _ _ Hi) as [Hch Hp0 Hhi Hes]. rewrite size_app in Hhi. pose proof (size_nonneg act2).
  split.
  - eapply layout_cut, Hi.
  - split; [done|done|lia|]. rewrite app_assoc in Hes. by apply Forall_app in Hes as [? _].
  - rewrite app_assoc in Hnum. by eapply numbered_prefix.
  - pose proof (inv_next_id _ _ _ _ _ _ Hi) as Hid. cbn [app] in Hid.
    eapply Forall_impl; [apply (inv_ids _ _ _ _ _ _ Hi)|]. intros f Hf. cbn in Hf. lia.
  - rewrite (load_cursor_ext crc32 dir) by (by rewrite lookup_insert_ne). apply Hi.
  - split; [done|]. rewrite size_app. pose proof (size_nonneg act1).
    destruct (Z.lt_ge_cases (active_start w) (cursor_position w)) as [Hlt|]; [|lia].
    destruct (Hb Hlt) as (a & c & -> & ->). rewrite size_app. pose proof (size_nonneg c). lia.
  - done.
  - done.
Qed.

(** Opening after a crash. *)
Lemma crash_open s acks n tail b names :
  wal_holds crc32 s (record_of <$> acks) → purge_count s.1 = 0 → zlen acks ≤ 2 ^ 32 →
  validate (options s.1) = Ok tt → torn tail → 38 ≤ Z.of_nat n →
  cursor_position s.1 ≤ active_start s.1 + (Z.of_nat n - 38) →
  names ≡ₚ (map_to_list (crash n tail s.2)).*1 →
  ∃ w dir, open crc32 (options s.1) b names (crash n tail s.2) = (dir, Ok w) ∧
    wal_holds crc32 (w, dir) (record_of <$> survivors (active_start s.1 + (Z.of_nat n - 38)) acks) ∧
    options w = options s.1 ∧ cursor_position w = cursor_position s.1 ∧ purge_count w = 0 ∧
    (map_to_list dir).*1 ≡ₚ (map_to_list (crash n tail s.2)).*1 ∧
    ∃ k, survivors (active_start s.1 + (Z.of_nat n - 38)) acks = take k acks ∧
      ∀ o b, (o, b) ∈ drop k acks → active_start s.1 + (Z.of_nat n - 38) < next_offset o.
Proof.
  intros (purged & fs & act & Hi & Hrecs & Hnum & _ & Hpz) Hpc Hz Hval Htorn Hn Hcur Hnames.
  rewrite (Hpz Hpc) in *. cbn [app] in *. pose proof (lay_active _ _ _ _ _ _ (inv_layout _ _ _ _ _ _ Hi)) as Hact.
  set (hash := cfg_hash (options s.1)) in *. set (start := active_start s.1) in *.
  assert (length (header_encode (with_base_offset hash start)) = 38%nat) as Hhd.
  { apply header_encode_length. apply (inv_layout _ _ _ _ _ _ Hi). }
  pose proof (inv_entries _ _ _ _ _ _ Hi) as Hes. cbn [app] in Hes. apply Forall_app in Hes as [_ Hes].
  destruct (take_frames (n - 38) act tail Hes Htorn) as (act1 & act2 & tail' & -> & Htake & Htorn' & Hsz & Hcut).
  replace (Z.of_nat (n - 38)) with (Z.of_nat n - 38) in * by lia.
  assert (crash n tail s.2 = <[WAL_FILENAME := file_content crc32 hash start act1 ++ tail']> s.2) as Hcrash.
  { unfold crash. rewrite <- (insert_id s.2 _ _ Hact) at 1. rewrite alter_insert_eq. f_equal. unfold file_content.
    rewrite <- !app_assoc, <- Htake, take_app_ge by lia. by rewrite Hhd. }
  set (d := <[WAL_FILENAME := file_content crc32 hash start act1]> s.2).
  pose proof (cut_recoverable s.1 s.2 fs act1 act2 (Z.of_nat n - 38) Hi Hnum Hval Hcur Hsz Hcut) as Hr.
  assert (crash n tail s.2 = <[WAL_FILENAME := file_content crc32 hash start act1 ++ tail']> d) as Hd.
  { unfold d. by rewrite Hcrash, insert_insert_eq. }
  rewrite Hd in *. destruct (open_recovers _ b d fs start act1 _ tail' names Hr (torn_stops _ _ _ Htorn'))
    as (w & Hopen & Hi' & Ho & Hc & _ & _ & _ & _ & Hpc'); [|exact Hnames|].
  - apply (f_equal zlen) in Hrecs. unfold zlen in *. rewrite length_fmap, place_length, !length_app in *. lia.
  - assert (size (entries_of fs ++ act1) ≤ start + (Z.of_nat n - 38) ∧
      match act2 with [] => True | e :: _ => start + (Z.of_nat n - 38) < size (entries_of fs ++ act1) + frame_len e end) as [Hin Hout].
    { subst start. rewrite (inv_start_size _ _ _ _ _ _ Hi), !size_app. change (size []) with 0. split; [lia|].
      destruct act2; [done|]. cbn beta iota in Hcut. lia. }
    rewrite app_assoc in Hrecs. exists w, d. split_and!; [done| |done|done|done| |].
    + exists [], fs, act1. split_and!; [done| |apply Hr|cbn; lia|done]. by apply (survivors_place _ _ _ act2).
    + unfold d. rewrite insert_insert_eq. by rewrite !(keys_insert s.2 _ _ _ Hact).
    + exists (length (entries_of fs ++ act1)). by apply (survivors_take _ _ (entries_of fs ++ act1) act2).
Qed.

(** ** Logs from their creation *)

(** Creating a log and running operations on it. *)
Definition run_new (o : WalWriterOptions) (b : option DiskBudget) (ops : list WalOp)
    : result (WalWriter * Dir * list (WalOffset * RecordBundle Batch)) WalError :=
  let '(dir, opened) := open crc32 o b [WAL_FILENAME] ∅ in
  match opened with
  | Ok w => Ok (run crc32 ops (w, dir))
  | Err e => Err e
  end.

(** From every entry boundary at or after the cursor, the reader returns the
    accepted bundles that follow, each with the offset that was returned for it. *)
Definition readable (s : WalWriter * Dir) (acks : list (WalOffset * RecordBundle Batch)) : Prop :=
  ∀ names fuel a1 a2,
    names ≡ₚ (map_to_list s.2).*1 → (length acks < fuel)%nat → acks = a1 ++ a2 →
    cursor_position s.1 ≤ end_position a1 →
    ∃ files, multi_open s.2 names = Ok files ∧
      collect crc32 fuel s.2 (multi_iter_from files (end_position a1)) = (record_of <$> a2, None).

(** The bytes of the files of the log. *)
Definition wal_bytes (w : WalWriter) (dir : Dir) : Z :=
  foldr (λ f n, zlen (default [] (dir !! rotated_path f)) + n) (zlen (default [] (dir !! WAL_FILENAME))) (rotated_files w).

Lemma run_new_holds o b ops :
  length (cfg_hash o) = 16%nat → validate o = Ok tt → Forall op_ok ops → zlen ops ≤ 2 ^ 32 →
  ∃ w0 dir0 w dir acks, run_new o b ops = Ok ((w, dir), acks) ∧ run crc32 ops (w0, dir0) = ((w, dir), acks) ∧
    wal_holds crc32 (w, dir) (record_of <$> acks) ∧ evolves (w0, dir0) (w, dir) ∧ (length acks ≤ length ops)%nat ∧
    options w0 = o ∧ aggregate_bytes w0 = 38 ∧ rotation_count w0 = 0 ∧ budget w0 = (λ b, add b 38) <$> b ∧
    rotated_files w0 = [] ∧ 1 ≤ next_rotation_id w0 ∧ purge_count w0 = 0.
Proof.
  intros Hh Hv Hok Hz. destruct (open_fresh o b Hh Hv) as (w0 & dir0 & Hopen & Hs & Ho & _ & Ha & Hr & Hb & Hf & _ & Hp).
  destruct (run crc32 ops (w0, dir0)) as [[w dir] acks] eqn:Hrun.
  exists w0, dir0, w, dir, acks. unfold run_new. rewrite Hopen, Hrun.
  destruct (run_keeps crc32 crc32_ok _ _ _ _ _ Hs Hz Hok Hrun) as (Hs' & He & Hl).
  split_and!; try done. destruct Hs as (purged & fs & act & Hi & _). apply (inv_next_id _ _ _ _ _ _ Hi).
Qed.

Lemma holds_readable s acks : wal_holds crc32 s (record_of <$> acks) → readable s acks.
Proof. intros Hs names fuel a1 a2 Hn Hf Ha Hc. by eapply holds_reads. Qed.

Lemma holds_bytes s recs : wal_holds crc32 s recs → wal_bytes s.1 s.2 = aggregate_bytes s.1.
Proof.
  intros (purged & fs & act & Hi & _). pose proof (inv_layout _ _ _ _ _ _ Hi) as Hl. unfold wal_bytes.
  rewrite (inv_aggregate _ _ _ _ _ _ Hi), (inv_len _ _ _ _ _ _ Hi), (inv_rotated _ _ _ _ _ _ Hi).
  rewrite (lay_active _ _ _ _ _ _ Hl). cbn [default id]. rewrite file_content_length by apply Hl.
  assert (∀ f, f ∈ fs → zlen (default [] (s.2 !! lf_path f)) = 38 + size (lf_entries f)) as Hf.
  { intros f Hin. rewrite (lay_files _ _ _ _ _ _ Hl f Hin). cbn [default id]. apply file_content_length, Hl. }
  clear -Hf. induction fs as [|f fs IH]; [cbn; lia|].
  rewrite fmap_cons. cbn [foldr rotated_of rotated_path]. rewrite IH by (intros g Hg; apply Hf; by right).
  rewrite Hf by (by left). cbn [disk_size foldr]. fold (disk_size fs). lia.
Qed.

(** The accounts of a new log with [u0] bytes of the budget in use. *)
Lemma run_new_accounted o b ops u0 :
  length (cfg_hash o) = 16%nat → validate o = Ok tt → Forall op_ok ops → zlen ops ≤ 2 ^ 32 → 0 ≤ max_rotated_files o →
  u0 ≤ 2 ^ 62 → (0 ≤ u0 → ∃ b', b = Some b' ∧ used b' = u0) →
  ∃ w dir acks, run_new o b ops = Ok ((w, dir), acks) ∧ options w = o ∧ wal_bytes w dir = aggregate_bytes w ∧
    accounted u0 w.
Proof.
  intros Hh Hv Hok Hz Hm Hu Hb.
  destruct (run_new_holds o b ops Hh Hv Hok Hz)
    as (w0 & dir0 & w & dir & acks & Hrun & _ & Hs & (Ho & _ & Hacc) & _ & Ho0 & Ha0 & Hr0 & Hb0 & Hf0 & Hid0 & Hp0).
  exists w, dir, acks. cbn [fst] in *. split_and!; [done|congruence|by apply (holds_bytes (w, dir) _ Hs)|].
  apply Hacc. split; unfold budget_misses; rewrite ?Ha0, ?Hr0, ?Hp0, ?Hf0, ?Ho0; [done|done|lia|lia|done|].
  intros Hle. destruct (Hb Hle) as (b1 & -> & Hb1). eexists. split; [done|]. rewrite used_add; lia.
Qed.

(** C3: a log from its creation, through any sequence of appends, cursor moves and
    flushes: reading from an entry boundary at or after the cursor returns exactly
    the bundles accepted from there on, in order, with the offsets and sequence
    numbers that the appends returned.  Rotation and purging lose none of them. *)
Theorem wal_reads_back o b ops :
  length (cfg_hash o) = 16%nat → validate o = Ok tt → Forall op_ok ops → zlen ops ≤ 2 ^ 32 →
  ∃ w dir acks, run_new o b ops = Ok ((w, dir), acks) ∧ readable (w, dir) acks.
Proof.
  intros Hh Hv Hok Hz. destruct (run_new_holds o b ops Hh Hv Hok Hz) as (w0 & dir0 & w & dir & acks & Hrun & _ & Hs & _).
  exists w, dir, acks. split; [done|]. by apply holds_readable.
Qed.

(** C4: recovery.  After a run in which no file was purged, a crash that keeps the
    first [n] bytes of the active file, in the middle of an entry or of an
    unfinished append, with the cursor before the cut: opening succeeds, keeps the
    cursor and exactly the complete entries, and later runs continue after them. *)
Theorem crash_recovers o b ops n tail b' names ops' :
  length (cfg_hash o) = 16%nat → validate o = Ok tt → Forall op_ok ops → Forall op_ok ops' →
  zlen ops + zlen ops' ≤ 2 ^ 32 → torn tail → 38 ≤ Z.of_nat n →
  ∃ w dir acks, run_new o b ops = Ok ((w, dir), acks) ∧
    let limit := active_start w + (Z.of_nat n - 38) in
    (purge_count w = 0 → cursor_position w ≤ limit → names ≡ₚ (map_to_list (crash n tail dir)).*1 →
     ∃ w1 dir1, open crc32 o b' names (crash n tail dir) = (dir1, Ok w1) ∧
       cursor_position w1 = cursor_position w ∧ readable (w1, dir1) (survivors limit acks) ∧
       let '(s2, acks2) := run crc32 ops' (w1, dir1) in readable s2 (survivors limit acks ++ acks2)).
Proof.
  intros Hh Hv Hok Hok' Hz Ht Hn. pose proof (zlen_nonneg ops'). pose proof (zlen_nonneg ops).
  destruct (run_new_holds o b ops Hh Hv Hok ltac:(lia)) as (w0 & dir0 & w & dir & acks & Hrun & _ & Hs & (Ho & _) & Hl & Ho0 & _).
  exists w, dir, acks. split; [done|]. intros limit Hpc Hcur Hnames. cbn [fst] in Ho. rewrite Ho0 in Ho.
  destruct (crash_open (w, dir) acks n tail b' names Hs) as (w1 & dir1 & Hopen & Hs1 & Ho1 & Hc1 & _);
    [done|unfold zlen in *; lia|cbn [fst]; by rewrite Ho|done..|].
  cbn [fst snd] in *. rewrite Ho in Hopen. exists w1, dir1. split_and!; [done|done|by apply holds_readable|].
  destruct (run crc32 ops' (w1, dir1)) as [s2 acks2] eqn:Hrun2.
  eapply run_keeps in Hrun2 as (Hs2 & _); [|exact crc32_ok|exact Hs1| |exact Hok'].
  - apply holds_readable. by rewrite fmap_app.
  - assert (length (survivors limit acks) ≤ length acks)%nat by apply List.filter_length_le.
    fold limit. unfold zlen in *. rewrite length_fmap. lia.
Qed.

(** C20: the caps of the log: after any run from its creation, the number of rotated
    files is within its cap, the writer knows exactly how many bytes its files
    have, and these are within the cap on the size (a new log has 38 bytes). *)
Theorem wal_respects_caps o b ops :
  length (cfg_hash o) = 16%nat → validate o = Ok tt → Forall op_ok ops → zlen ops ≤ 2 ^ 32 → 0 ≤ max_rotated_files o →
  ∃ w dir acks, run_new o b ops = Ok ((w, dir), acks) ∧
    zlen (rotated_files w) ≤ max_rotated_files o ∧
    wal_bytes w dir = aggregate_bytes w ∧ wal_bytes w dir ≤ Z.max 38 (max_wal_size o).
Proof.
  intros Hh Hv Hok Hz Hm.
  destruct (run_new_accounted o b ops (-1) Hh Hv Hok Hz Hm) as (w & dir & acks & Hrun & Ho & Hb & [_ Hf Ha _ _ _]); [done..|].
  exists w, dir, acks. rewrite Ho in *. split_and!; [done..|lia].
Qed.

(** C35: the budget: every rotation makes a new file whose 38 bytes of header are
    never added to the disk budget, while deleting a file takes all its bytes off.
    After any run of a log that alone uses the budget, the budget accounts for at
    most the bytes on disk and at most 38 bytes less per rotation; for exactly 38
    bytes less per rotation if no file was purged, or if the rotations are too few
    for a purge to take the counter to zero, where it stops. *)
Theorem budget_misses_headers o b ops :
  length (cfg_hash o) = 16%nat → validate o = Ok tt → Forall op_ok ops → zlen ops ≤ 2 ^ 32 → 0 ≤ max_rotated_files o →
  0 ≤ used b ≤ 2 ^ 62 →
  ∃ w dir acks b', run_new o (Some b) ops = Ok ((w, dir), acks) ∧ budget w = Some b' ∧
    used b + wal_bytes w dir - 38 * rotation_count w ≤ used b' ≤ used b + wal_bytes w dir ∧
    (purge_count w = 0 ∨ 38 * rotation_count w ≤ used b + 38 →
     used b' = used b + wal_bytes w dir - 38 * rotation_count w).
Proof.
  intros Hh Hv Hok Hz Hm Hu.
  destruct (run_new_accounted o (Some b) ops (used b) Hh Hv Hok Hz Hm) as (w & dir & acks & Hrun & Ho & Hb & [_ _ _ _ _ Hbud]);
    [lia|by exists b|].
  destruct Hbud as (b' & Hb' & _ & Hmiss); [lia|]. exists w, dir, acks, b'. by rewrite Hb.
Qed.


End logs.
End recovery.

(** ** Examples *)

(** Five bundles, two to a file; the first three are consumed. *)
Definition example_ops : list (WalOp (Batch := list Z)) :=
  (λ x, AppendBundle (example_bundle x) 0) <$> [1; 2; 3; 4; 5].

Definition example_cursor : WalOp (Batch := list Z) := PersistCursor (mkCursor 300 2).

Lemma example_ops_ok : Forall op_ok (example_ops ++ [example_cursor]).
Proof.
  apply Forall_app. split; [|by constructor]. apply Forall_fmap, Forall_forall. intros x _. apply example_bundle_ok.
Qed.

Definition example_run (ops : list WalOp) : WalWriter * Dir * list (WalOffset * RecordBundle (list Z)) :=
  match run_new sum32 example_options None ops with
  | Ok r => r
  | Err _ => (writer_new example_options None 0 0 0 [] 0 0 0 [], ∅, [])
  end.

Definition example_writer (ops : list WalOp) : WalWriter := (example_run ops).1.1.
Definition example_dir (ops : list WalOp) : Dir := (example_run ops).1.2.

(** The run rotates twice and purges one file; the reader returns the last two bundles. *)
Lemma wal_reads_back_witness :
  (rotation_count (example_writer (example_ops ++ [example_cursor])),
   purge_count (example_writer (example_ops ++ [example_cursor])),
   length (example_run (example_ops ++ [example_cursor])).2) = (2, 1, 5%nat) ∧
  ∃ w dir acks, run_new sum32 example_options None (example_ops ++ [example_cursor]) = Ok ((w, dir), acks) ∧
    readable sum32 (w, dir) acks.
Proof.
  split; [vm_compute; reflexivity|].
  apply (wal_reads_back sum32 sum32_u32 example_options None (example_ops ++ [example_cursor])).
  - reflexivity.
  - reflexivity.
  - exact example_ops_ok.
  - vm_compute. discriminate.
Defined.

(** The active file is cut in the middle of the fifth entry; four bundles survive
    and a sixth follows. *)
Lemma crash_recovers_witness :
  let w := example_writer example_ops in
  let dir := example_dir example_ops in
  let acks := (example_run example_ops).2 in
  let names := (map_to_list (crash 100 [] dir)).*1 in
  (purge_count w, cursor_position w, length (survivors (active_start w + 62) acks)) = (0, 0, 4%nat) ∧
  ∃ w1 dir1, open sum32 example_options None names (crash 100 [] dir) = (dir1, Ok w1) ∧
    readable sum32 (w1, dir1) (survivors (active_start w + 62) acks).
Proof.
  intros w dir acks names. split; [vm_compute; reflexivity|].
  destruct (crash_recovers sum32 sum32_u32 example_options None example_ops 100 [] None names
    [AppendBundle (example_bundle 6) 0]) as (w' & dir' & acks' & Hrun & Hopen).
  - reflexivity.
  - reflexivity.
  - pose proof example_ops_ok as Hok. apply Forall_app in Hok. apply Hok.
  - constructor; [apply example_bundle_ok|constructor].
  - vm_compute. discriminate.
  - left. reflexivity.
  - vm_compute. discriminate.
  - assert (example_run example_ops = ((w', dir'), acks')) as Hex by (unfold example_run; rewrite Hrun; reflexivity).
    assert (w' = w ∧ dir' = dir ∧ acks' = acks) as (-> & -> & ->).
    { unfold w, dir, acks, example_writer, example_dir. rewrite Hex. split; [reflexivity|split; reflexivity]. }
    destruct Hopen as (w1 & dir1 & Hopen & _ & Hread & _).
    + vm_compute. reflexivity.
    + vm_compute. discriminate.
    + apply Permutation_refl.
    + exists w1, dir1. split; [exact Hopen|exact Hread].
Defined.

Lemma wal_respects_caps_witness :
  let ops := example_ops ++ [example_cursor] in
  (zlen (rotated_files (example_writer ops)), wal_bytes (example_writer ops) (example_dir ops)) = (1, 376) ∧
  ∃ w dir acks, run_new sum32 example_options None ops = Ok ((w, dir), acks) ∧
    zlen (rotated_files w) ≤ max_rotated_files example_options ∧
    wal_bytes w dir = aggregate_bytes w ∧ wal_bytes w dir ≤ Z.max 38 (max_wal_size example_options).
Proof.
  intros ops. split; [vm_compute; reflexivity|].
  apply (wal_respects_caps sum32 sum32_u32 example_options None ops).
  - reflexivity.
  - reflexivity.
  - exact example_ops_ok.
  - vm_compute. discriminate.
  - vm_compute. discriminate.
Defined.

(** Two rotations: 76 bytes are missing in the budget. *)
Definition example_budget : DiskBudget := mkBudget 1000000 900000 1000 Backpressure.

Lemma budget_misses_headers_witness :
  match run_new sum32 example_options (Some example_budget) example_ops with
  | Ok ((w, dir), _) => (used <$> budget w, wal_bytes w dir, rotation_count w) = (Some 1538, 614, 2)
  | Err _ => False
  end ∧
  ∃ w dir acks b', run_new sum32 example_options (Some example_budget) example_ops = Ok ((w, dir), acks) ∧
    budget w = Some b' ∧
    used example_budget + wal_bytes w dir - 38 * rotation_count w ≤ used b' ≤ used example_budget + wal_bytes w dir ∧
    (purge_count w = 0 ∨ 38 * rotation_count w ≤ used example_budget + 38 →
     used b' = used example_budget + wal_bytes w dir - 38 * rotation_count w).
Proof.
  split; [vm_compute; reflexivity|].
  apply (budget_misses_headers sum32 sum32_u32 example_options example_budget example_ops).
  - reflexivity.
  - reflexivity.
  - pose proof example_ops_ok as Hok. apply Forall_app in Hok. apply Hok.
  - vm_compute. discriminate.
  - vm_compute. discriminate.
  - split; vm_compute; discriminate.
Defined.


End WalRecovery.
