(* ===== verification/WalFaults.v ===== *)
(** * Where the write-ahead log loses entries

    Two behaviours of [crates/quiver/src/wal/writer.rs] that the theorems of
    [WalRecovery] have to exclude.  Opening counts the positions of the rotated
    files from zero although older files were purged, so that cursors are compared
    with the wrong ends of files.  A write that fails in the middle leaves its bytes
    in the file, and the entries accepted after it are cut off by the next recovery. *)
From S2P Require Import Prelude Bytes Files WalFormat WalReader Budget WalWriter WalLog WalRuns WalRecovery.

Local Open Scope Z_scope.

Module WalFaults.
Import WalFormat.
Import WalReader.
Import WalWriter.
Import WalLog.
Import WalRuns.
Import WalRecovery.

Section faults.
Context (crc32 : list Z → Z) (crc32_ok : ∀ l, u32_ok (crc32 l)).
Context {Batch : Type} {HB : RecordBatch Batch}.

(** ** Opening after a purge *)

Lemma restored_fields o b c start files next_id seq valid bs :
  let w := recalculate_aggregate_bytes (restore_cursor_offsets (writer_new o b c 38 start files next_id seq valid bs)) in
  let w := budget_add (aggregate_bytes w) w in
  rotated_files w = files ∧ cursor_position w ≤ c ∧ last_cursor_sequence w = None ∧ active_header_size w = 38 ∧
  current_len w = valid.
Proof.
  unfold restore_cursor_offsets. cbn [writer_new rotated_files current_len active_header_size cursor_position].
  destruct (Z.ltb_spec (saturating_add u64_max (match last files with Some f => rotated_end f | None => 0 end)
    (saturating_sub valid 38)) c); cbn; split_and!; done || lia.
Qed.

(** The positions of the rotated files after reopening: those of the purged files
    are missing. *)
Lemma open_shifted w dir purged fs act b names :
  wal_inv crc32 w dir purged fs act → numbered (purged ++ entries_of fs ++ act) →
  zlen (purged ++ entries_of fs ++ act) ≤ 2 ^ 32 → validate (options w) = Ok tt → fs ≠ [] →
  names ≡ₚ (map_to_list dir).*1 →
  ∃ w1, open crc32 (options w) b names dir = (dir, Ok w1) ∧
    rotated_files w1 = rotated_at (size purged) 0 <$> fs ∧ cursor_position w1 ≤ cursor_position w ∧
    last_cursor_sequence w1 = None ∧ active_header_size w1 = 38 ∧ current_len w1 = 38 + size act.
Proof.
  intros Hi Hnum Hz Hval Hne Hnames. set (hash := cfg_hash (options w)).
  pose proof (inv_layout _ _ _ _ _ _ Hi) as Hl. pose proof (inv_placed _ _ _ _ _ _ Hi) as Hp.
  pose proof (lay_active _ _ _ _ _ _ Hl) as Hact.
  assert (dir = <[WAL_FILENAME := file_content crc32 hash (active_start w) act ++ []]> dir) as Hdir
    by (rewrite app_nil_r; symmetry; by apply insert_id).
  destruct (detect_next crc32 crc32_ok dir hash purged fs (active_start w) act [] Hl Hp) as (bs & Hdet & _);
    [by apply torn_stops; left|done|done|by right|].
  destruct (reload_layout crc32 dir hash (size purged) fs (active_start w) act
    (file_content crc32 hash (active_start w) act ++ []) names Hl Hp Hnames (zlen (purged ++ entries_of fs)))
    as (next_id & Hrel & _ & _).
  { pose proof (inv_next_id _ _ _ _ _ _ Hi). eapply Forall_impl; [apply (inv_ids _ _ _ _ _ _ Hi)|]. intros f Hf. cbn in Hf. lia. }
  { rewrite !zlen_app in *. pose proof (zlen_nonneg act). pose proof (zlen_nonneg purged). pose proof (zlen_nonneg (entries_of fs)). lia. }
  eexists. split; [|apply restored_fields].
  unfold open. rewrite Hdir. rewrite open_active_file; [|apply Hl|by eapply placed_start|done]. rewrite <- Hdir in Hdet, Hrel |- *.
  cbn [result_bind]. rewrite Hval, (inv_sidecar _ _ _ _ _ _ Hi). cbn [result_bind]. rewrite Hrel. cbn [result_bind].
  rewrite Hdet. cbn [result_bind]. rewrite Hact. cbn [default id]. rewrite file_content_length by apply Hl.
  by rewrite (proj2 (Z.ltb_ge _ _)) by lia.
Qed.

Lemma purge_front w dir f files :
  rotated_end f ≤ cursor_position w →
  ∃ w', purge_loop cursor_fine (f :: files) (w, dir) = purge_loop cursor_fine files (w', delete (rotated_path f) dir).
Proof.
  intros Hle. cbn [purge_loop]. rewrite get_bind, (proj2 (Z.leb_le _ _)) by done.
  rewrite (bind_ok _ _ _ (w, dir) tt) by done. rewrite (bind_ok _ _ _ (w, delete (rotated_path f) dir) tt) by done.
  rewrite !modify_bind. by eexists.
Qed.

Lemma purge_loop_deletes files w dir x :
  dir !! x = None → ∃ s, purge_loop cursor_fine files (w, dir) = (s, Ok tt) ∧ s.2 !! x = None.
Proof.
  revert w dir. induction files as [|f files IH]; intros w dir Hx; [by exists (w, dir)|].
  destruct (Z.leb_spec (rotated_end f) (cursor_position w)) as [Hle|Hgt].
  - destruct (purge_front w dir f files Hle) as [w' ->]. apply IH, lookup_delete_None. by right.
  - exists (w, dir). cbn [purge_loop]. by rewrite get_bind, (proj2 (Z.leb_gt _ _)).
Qed.

(** Persisting a cursor that is not in the active file, with no sequence number to
    compare with, deletes the oldest file if the cursor is at or after its end. *)
Lemma persist_deletes w dir f files c :
  rotated_files w = f :: files → last_cursor_sequence w = None → cursor_position w ≤ safe_offset c →
  rotated_end f ≤ safe_offset c ≤ active_wal_position_start w →
  ∃ s, persist_cursor crc32 cursor_fine c (w, dir) = (s, Ok tt) ∧ s.2 !! rotated_path f = None.
Proof.
  intros Hf Hseq Hcur Hpos. unfold persist_cursor, write_cursor_sidecar.
  assert (validate_cursor c (w, dir) = ((w, dir), Ok tt)) as Hval.
  { unfold validate_cursor. rewrite get_bind, Hseq, (proj2 (Z.ltb_ge _ _)) by lia. cbv zeta. by rewrite (proj2 (Z.leb_le _ _)) by lia. }
  rewrite (bind_ok _ _ _ _ _ Hval).
  assert (∃ dir2, record_wal_position crc32 cursor_fine (safe_offset c) (w, dir) =
    ((w <| cursor_position := safe_offset c |>, dir2), Ok tt)) as [dir2 Hrec].
  { unfold record_wal_position. rewrite get_bind. rewrite (bind_ok get_dir _ _ (w, dir) dir) by done.
    destruct (_ && _) eqn:Hsame; [|by eexists]. apply andb_true_iff in Hsame as [Heq%Z.eqb_eq _].
    exists dir. rewrite <- Heq. by destruct w. }
  rewrite (bind_ok _ _ _ _ _ Hrec), get_bind.
  set (w2 := w <| cursor_position := safe_offset c |>).
  assert (∃ w3, (if active_wal_position_start w2 <? safe_offset c
     then modify (λ w0, w0 <| validated_boundary :=
            saturating_add u64_max (active_header_size w2) (saturating_sub (safe_offset c) (active_wal_position_start w2)) |>
            <| entry_boundaries ::= List.filter (λ o, saturating_add u64_max (active_header_size w2)
                 (saturating_sub (safe_offset c) (active_wal_position_start w2)) <=? o) |>)
     else if safe_offset c =? active_wal_position_start w2
       then modify (λ w0, w0 <| validated_boundary := active_header_size w0 |>) else ret tt) (w2, dir2) = ((w3, dir2), Ok tt) ∧
    rotated_files w3 = f :: files ∧ cursor_position w3 = safe_offset c) as (w3 & Hmid & Hf3 & Hc3).
  { destruct (_ <? _); [|destruct (_ =? _)]; eexists; (split; [reflexivity|]); by destruct w. }
  rewrite (bind_ok _ _ _ _ _ Hmid), modify_bind. unfold purge_rotated_files. rewrite get_bind.
  replace (rotated_files (w3 <| last_cursor_sequence := _ |>)) with (f :: files) by (by destruct w3).
  destruct (purge_front (w3 <| last_cursor_sequence := Some (safe_sequence c) |>) dir2 f files) as [w4 ->].
  { replace (cursor_position (w3 <| last_cursor_sequence := _ |>)) with (safe_offset c) by (by destruct w3). lia. }
  apply purge_loop_deletes, lookup_delete_eq.
Qed.

(** C17: after a restart with purged files, unread files are deleted.  A log whose
    oldest rotated file begins at position [p] is opened again: the writer takes
    that file to begin at zero.  Then persisting a cursor [c] that lies before the
    end of the file, but at least its length after zero (for instance the cursor
    as it was), succeeds and deletes the file with the entries after [c]. *)
Theorem reopen_after_purge_deletes_unread o b ops b' names :
  length (cfg_hash o) = 16%nat → validate o = Ok tt → Forall op_ok ops → zlen ops ≤ 2 ^ 32 →
  ∃ w dir acks, run_new crc32 o b ops = Ok ((w, dir), acks) ∧
    ∀ f files, rotated_files w = f :: files → names ≡ₚ (map_to_list dir).*1 →
    let p := rotated_end f - (file_bytes f - 38) in
    ∃ w1, open crc32 o b' names dir = (dir, Ok w1) ∧ is_Some (dir !! rotated_path f) ∧
      ∀ c, cursor_position w ≤ safe_offset c < rotated_end f →
        rotated_end f - p ≤ safe_offset c ≤ active_wal_position_start w - p →
        ∃ s, persist_cursor crc32 cursor_fine c (w1, dir) = (s, Ok tt) ∧ s.2 !! rotated_path f = None.
Proof.
  intros Hh Hv Hok Hz.
  destruct (run_new_holds crc32 crc32_ok o b ops Hh Hv Hok Hz) as (w0 & dir0 & w & dir & acks & Hrun & _ &
    (purged & fs & act & Hi & Hrecs & Hnum & _) & (Ho & _) & Hl & Ho0 & _).
  exists w, dir, acks. split; [done|]. intros f files Hf Hnames p. cbn [fst snd] in *. rewrite Ho0 in Ho.
  pose proof (inv_rotated _ _ _ _ _ _ Hi) as Hro. rewrite Hf in Hro. destruct fs as [|g fs]; [done|].
  cbn [fmap list_fmap] in Hro. injection Hro as -> ->.
  pose proof (placed_chain _ _ _ _ (inv_placed _ _ _ _ _ _ Hi)) as Hch.
  assert (p = size purged) as Hp.
  { destruct Hch as (Hs & _ & _). unfold p, rotated_of, lf_end. cbn. lia. }
  destruct (open_shifted w dir purged (g :: fs) act b' names Hi Hnum) as (w1 & Hopen & Hf1 & Hc1 & Hq1 & _);
    [|by rewrite Ho|done|done|].
  { apply (f_equal length) in Hrecs. rewrite length_fmap, place_length in Hrecs. unfold zlen in *. lia. }
  rewrite Ho in Hopen. exists w1. split_and!; [done| |].
  { eexists. apply (lay_files _ _ _ _ _ _ (inv_layout _ _ _ _ _ _ Hi)). by left. }
  intros c Hc Hpos. apply (persist_deletes w1 dir (rotated_at p 0 g) (rotated_at p 0 <$> fs)).
  - by rewrite Hf1, Hp.
  - done.
  - lia.
  - cbn [rotated_at rotated_end rotated_of] in *. split; [lia|].
    unfold active_wal_position_start. rewrite Hf1. rewrite (inv_start _ _ _ _ _ _ Hi) in Hpos.
    pose proof (last_rotated _ _ _ Hch) as Hlast. rewrite !fmap_last in *.
    destruct (last (g :: fs)) as [h|] eqn:Hh'; [|by apply last_None in Hh']. cbn in *. lia.
Qed.

(** ** A write that fails *)

(** An append whose write fails after [n] bytes. *)
Definition failing (n : nat) (el : Z) : append_io := mkAppendIo (Some n) true el rotate_fine.

Lemma append_fails w dir bundle n el :
  bundle_ok bundle → u64_ok (next_sequence w) → accepts w bundle →
  append_bundle crc32 (failing n el) bundle (w, dir) =
    ((w, alter (λ c, c ++ take n (frame crc32 (bundle_entry bundle (next_sequence w)))) (active_path w) dir),
     Err (Io OtherIo)).
Proof.
  intros Hok Hseq ([ts Hts] & [[bitmap buffer] Henc] & Hroom).
  assert (ts = ingestion_time bundle) as ->.
  { unfold system_time_to_nanos in Hts. destruct (_ || _); [done|]. by injection Hts. }
  destruct (encode_bundle_spec bundle (next_sequence w) bitmap buffer) as (Hbm & Hbuf & He); [done..|].
  set (e := bundle_entry bundle (next_sequence w)) in *.
  assert (Z.of_nat ENTRY_HEADER_LEN + zlen buffer = zlen (entry_body e)) as Hlen.
  { unfold zlen. rewrite entry_body_length, Nat2Z.inj_add. by subst buffer. }
  assert (4 + (Z.of_nat ENTRY_HEADER_LEN + zlen buffer) + 4 = frame_len e) as Htot by (unfold frame_len; lia).
  pose proof (entry_size_ok e He) as Hmax. rewrite <- Hlen in Hmax. change MAX_ENTRY_SIZE with 268435456 in Hmax.
  destruct (preflight_cases (frame_len e) w dir) as [[_ Hno]|[Hpre _]]; [done|].
  unfold append_bundle. rewrite (bind_ok _ _ _ (w, dir) (ingestion_time bundle)), get_bind by (unfold lift; by rewrite Hts).
  rewrite (bind_ok _ _ _ (w, dir) (bitmap, buffer)) by (unfold lift; by rewrite Henc).
  rewrite (proj2 (Z.ltb_ge _ _)), Htot, (bind_ok _ _ _ _ _ Hpre) by (change u32_max with 4294967295; lia).
  rewrite Hlen. subst bitmap buffer. done.
Qed.

Lemma no_rotation w dir total u :
  saturating_sub (saturating_add u64_max (current_len w) total) (active_header_size w) ≤ rotation_target_bytes (options w) →
  maybe_rotate_after_append crc32 rotate_fine (appended w total u, dir) = ((appended w total u, dir), Ok tt).
Proof.
  intros Hle. unfold maybe_rotate_after_append. rewrite get_bind. cbv zeta.
  destruct w. cbn in *. by rewrite (proj2 (Z.leb_le _ _)).
Qed.

(** C21: the entry after a failed write is lost.  A write fails after [n] bytes, which
    stay in the file.  The next append is accepted and its bytes follow them.
    Unless the mixture happens to be a valid entry, the next recovery stops there
    and cuts the accepted entry off: the log is what it was before both appends. *)
Theorem failed_write_loses_next o b ops bundle1 n el bundle2 el' b' names :
  length (cfg_hash o) = 16%nat → validate o = Ok tt → Forall op_ok ops → zlen ops < 2 ^ 32 →
  bundle_ok bundle1 → bundle_ok bundle2 →
  ∃ w dir acks, run_new crc32 o b ops = Ok ((w, dir), acks) ∧
    let e1 := bundle_entry bundle1 (next_sequence w) in
    let e2 := bundle_entry bundle2 (next_sequence w) in
    ∀ content, purge_count w = 0 → dir !! WAL_FILENAME = Some content → accepts w bundle1 → accepts w bundle2 →
      saturating_sub (saturating_add u64_max (current_len w) (frame_len e2)) 38 ≤ rotation_target_bytes o →
      stops crc32 content (active_start w) (take n (frame crc32 e1) ++ frame crc32 e2) →
      let '(s1, r1) := append_bundle crc32 (failing n el) bundle1 (w, dir) in
      let '(s2, r2) := append_bundle crc32 (append_fine el') bundle2 s1 in
      r1 = Err (Io OtherIo) ∧ is_ok r2 ∧
      (names ≡ₚ (map_to_list s2.2).*1 →
       ∃ w3, open crc32 o b' names s2.2 = (dir, Ok w3) ∧ readable crc32 (w3, dir) acks).
Proof.
  intros Hh Hv Hok Hz Hb1 Hb2.
  destruct (run_new_holds crc32 crc32_ok o b ops Hh Hv Hok ltac:(lia)) as (w0 & dir0 & w & dir & acks & Hrun & _ &
    (purged & fs & act & Hi & Hrecs & Hnum & _ & Hpz) & (Ho & _) & Hl & Ho0 & _).
  exists w, dir, acks. split; [done|]. intros e1 e2 content Hpc Hcon Hacc1 Hacc2 Hnorot Hstop. cbn [fst snd] in *.
  rewrite Ho0 in Ho. rewrite (Hpz Hpc) in *. cbn [app] in *.
  assert (zlen acks = zlen (entries_of fs ++ act)) as Hlen.
  { apply (f_equal length) in Hrecs. rewrite length_fmap, place_length in Hrecs. unfold zlen. lia. }
  pose proof (inv_seq _ _ _ _ _ _ Hi) as Hseq. cbn [app] in Hseq. rewrite <- Hlen in Hseq.
  assert (u64_ok (next_sequence w)) as Hu by (rewrite Hseq; unfold u64_ok, zlen in *; lia).
  rewrite append_fails by done. fold e1. rewrite (inv_path _ _ _ _ _ _ Hi).
  set (dir1 := alter _ WAL_FILENAME dir).
  destruct (append_bundle crc32 (append_fine el') bundle2 (w, dir1)) as [s2 r2] eqn:Happ.
  apply append_cases in Happ as [(_ & _ & Hno)|(He & _ & u & Heq)]; [done| |done|done]. fold e2 in He, Heq.
  rewrite no_rotation in Heq by (rewrite ?(inv_header _ _ _ _ _ _ Hi), ?Ho; done).
  injection Heq as -> ->. split_and!; [done|done|]. intros Hnames. cbn [snd] in *.
  rewrite (inv_path _ _ _ _ _ _ Hi) in *.
  assert (content = file_content crc32 (cfg_hash o) (active_start w) act) as ->.
  { pose proof (lay_active _ _ _ _ _ _ (inv_layout _ _ _ _ _ _ Hi)) as Ha. rewrite Ho in Ha. congruence. }
  assert (alter (λ c, c ++ frame crc32 e2) WAL_FILENAME dir1 = <[WAL_FILENAME := file_content crc32 (cfg_hash o) (active_start w) act ++
    (take n (frame crc32 e1) ++ frame crc32 e2)]> dir) as Hd2.
  { unfold dir1. rewrite <- (insert_id dir _ _ Hcon) at 1. rewrite !alter_insert_eq. by rewrite app_assoc. }
  rewrite Hd2 in *.
  pose proof (cut_recoverable crc32 w dir fs act [] (size act)) as Hr. rewrite app_nil_r, Ho, insert_id in Hr by done.
  specialize (Hr Hi Hnum Hv).
  destruct (open_recovers crc32 crc32_ok o b' dir fs (active_start w) act (cursor_position w)
    (take n (frame crc32 e1) ++ frame crc32 e2) names) as (w3 & Hopen & Hi3 & _ & _ & _ & _ & _ & _ & Hpc3); [|done| |done|].
  - apply Hr; [|lia|done]. destruct (inv_cursor _ _ _ _ _ _ Hi) as [_ Hc]. cbn [app] in Hc.
    rewrite (inv_start_size _ _ _ _ _ _ Hi). cbn [app]. rewrite <- size_app. done.
  - rewrite <- Hlen. unfold zlen in *. lia.
  - exists w3. split; [done|]. apply holds_readable; [done|]. exists [], fs, act. split_and!; [done..|cbn; lia|done].
Qed.

End faults.

(** ** Examples *)

(** Seven bundles, two to a file; the first two are consumed and their file is
    purged.  After reopening, persisting the same cursor deletes the next file,
    with two bundles that nobody has read. *)
Definition purged_ops : list (WalOp (Batch := list Z)) :=
  ((λ x, AppendBundle (example_bundle x) 0) <$> [1; 2; 3; 4; 5; 6; 7]) ++ [PersistCursor (mkCursor 200 1)].

Lemma purged_ops_ok : Forall op_ok purged_ops.
Proof.
  apply Forall_app. split; [|by constructor]. apply Forall_fmap, Forall_forall. intros x _. apply example_bundle_ok.
Qed.

Lemma reopen_after_purge_deletes_unread_witness :
  let w := example_writer purged_ops in
  let dir := example_dir purged_ops in
  let names := (map_to_list dir).*1 in
  (cursor_position w, rotated_end <$> rotated_files w) = (200, [400; 600]) ∧
  ∃ w1 s, open sum32 example_options None names dir = (dir, Ok w1) ∧
    persist_cursor sum32 cursor_fine (mkCursor 200 1) (w1, dir) = (s, Ok tt) ∧
    is_Some (dir !! rotated_wal_path 2) ∧ s.2 !! rotated_wal_path 2 = None.
Proof.
  intros w dir names. split; [vm_compute; reflexivity|].
  destruct (reopen_after_purge_deletes_unread sum32 sum32_u32 example_options None purged_ops None names)
    as (w' & dir' & acks' & Hrun & Hopen).
  - reflexivity.
  - reflexivity.
  - exact purged_ops_ok.
  - vm_compute. discriminate.
  - assert (example_run purged_ops = ((w', dir'), acks')) as Hex by (unfold example_run; rewrite Hrun; reflexivity).
    assert (w' = w ∧ dir' = dir) as (-> & ->).
    { unfold w, dir, example_writer, example_dir. rewrite Hex. split; reflexivity. }
    destruct (Hopen (mkRotated (rotated_wal_path 2) 2 238 400) [mkRotated (rotated_wal_path 3) 3 238 600])
      as (w1 & Hw1 & Hsome & Hdel).
    + vm_compute. reflexivity.
    + apply Permutation_refl.
    + destruct (Hdel (mkCursor 200 1)) as (s & Hs & Hnone).
      * vm_compute. split; [discriminate|reflexivity].
      * vm_compute. split; discriminate.
      * exists w1, s. split; [exact Hw1|]. split; [exact Hs|]. split; [exact Hsome|exact Hnone].
Defined.

(** Ten bytes of a third bundle stay in the file, the fourth is accepted and lost. *)
Definition failed_ops : list (WalOp (Batch := list Z)) := [AppendBundle (example_bundle 1) 0].

Definition roomy_options : WalWriterOptions := example_options <| rotation_target_bytes := 1000 |>.

Definition failed_run : WalWriter * Dir * list (WalOffset * RecordBundle (list Z)) :=
  match run_new sum32 roomy_options None failed_ops with
  | Ok r => r
  | Err _ => example_run []
  end.

Lemma roomy_accepts x : accepts failed_run.1.1 (example_bundle x) ↔ 0 ≤ 1000 + x < 2 ^ 63.
Proof.
  unfold accepts. cbn [example_bundle ingestion_time]. unfold system_time_to_nanos. split.
  - intros ([ts Hts] & _). destruct (Z.ltb_spec (1000 + x) 0); [done|]. destruct (Z.leb_spec (2 ^ 63) (1000 + x)); [done|]. lia.
  - intros [H1 H2]. split_and!.
    + exists (1000 + x). by rewrite (proj2 (Z.ltb_ge _ _)), (proj2 (Z.leb_gt _ _)).
    + by eexists.
    + split; vm_compute; [intros Hlt; discriminate Hlt|intros Hgt; discriminate Hgt].
Qed.

Lemma failed_write_loses_next_witness :
  let w := failed_run.1.1 in
  let dir := failed_run.1.2 in
  let acks := failed_run.2 in
  let s1 := (append_bundle sum32 (failing 10 0) (example_bundle 2) (w, dir)).1 in
  let s2 := (append_bundle sum32 (append_fine 0) (example_bundle 3) s1).1 in
  length acks = 1%nat ∧ is_ok (append_bundle sum32 (append_fine 0) (example_bundle 3) s1).2 ∧
  ∃ w3, open sum32 roomy_options None (map_to_list s2.2).*1 s2.2 = (dir, Ok w3) ∧ readable sum32 (w3, dir) acks.
Proof.
  intros w dir acks s1 s2.
  destruct (failed_write_loses_next sum32 sum32_u32 roomy_options None failed_ops (example_bundle 2) 10 0 (example_bundle 3) 0
    None (map_to_list s2.2).*1) as (w' & dir' & acks' & Hrun & Hlost).
  - reflexivity.
  - reflexivity.
  - constructor; [apply example_bundle_ok|constructor].
  - vm_compute. reflexivity.
  - apply example_bundle_ok.
  - apply example_bundle_ok.
  - assert (failed_run = ((w', dir'), acks')) as Hex by (unfold failed_run; rewrite Hrun; reflexivity).
    assert (w' = w ∧ dir' = dir ∧ acks' = acks) as (-> & -> & ->).
    { unfold w, dir, acks. rewrite Hex. split; [reflexivity|split; reflexivity]. }
    split; [vm_compute; reflexivity|].
    specialize (Hlost (default [] (dir !! WAL_FILENAME))).
    destruct (append_bundle sum32 (failing 10 0) (example_bundle 2) (w, dir)) as [s1' r1] eqn:H1.
    assert (s1 = s1') as Hs1 by reflexivity.
    destruct (append_bundle sum32 (append_fine 0) (example_bundle 3) s1') as [s2' r2] eqn:H2.
    assert (s2 = s2') as Hs2 by (unfold s2; rewrite Hs1, H2; reflexivity). rewrite <- Hs2 in Hlost. rewrite Hs1, H2.
    destruct Hlost as (_ & Hok & Hlost).
    + vm_compute. reflexivity.
    + vm_compute. reflexivity.
    + apply roomy_accepts. split; [discriminate|reflexivity].
    + apply roomy_accepts. split; [discriminate|reflexivity].
    + vm_compute. discriminate.
    + vm_compute. reflexivity.
    + split; [exact Hok|]. apply Hlost, Permutation_refl.
Defined.

End WalFaults.
