(* ===== verification/Arrow.v ===== *)
(** * The interface of the Arrow crates

    What Quiver's segments use of [arrow_schema], [arrow_array], [arrow_select],
    [arrow_cast] and [arrow_ipc]: data types and schemas as data, arrays, record
    batches and IPC files as the class [Arrow] of operations, with the documented
    behaviour the segments rely on in [ArrowLaws].  An array is observed through
    its data type and its logical values, one per row ([cells]); the keys and
    values of a dictionary array, the children of a struct array and the bytes of
    an IPC file are representations of these.  [None] is an error returned by the
    crate, or a panic where the comment says so. *)
From S2P Require Import Prelude Bytes Files.

Local Open Scope Z_scope.
Set Warnings "-register-all".

Module Arrow.

(** ** Schemas *)

Record FieldOf (T : Type) := mkField {
  name : string;
  data_type : T;
  nullable : bool;
  metadata : list (string * string);
}.
Arguments mkField {T}.
Arguments name {T}.
Arguments data_type {T}.
Arguments nullable {T}.
Arguments metadata {T}.

(** The variants the segments match on; every other one is an [OtherType] with
    its nested fields. *)
Inductive DataType :=
  | Int8 | Int16 | Int32 | Int64
  | UInt8 | UInt16 | UInt32 | UInt64
  | FixedSizeBinary (size : Z)
  | Dictionary (key value : DataType)
  | Struct (fields : list (FieldOf DataType))
  | ListType (item : FieldOf DataType)
  | OtherType (tag : Z) (fields : list (FieldOf DataType)).

Abbreviation Field := (FieldOf DataType).

Record Schema := mkSchema {
  fields : list Field;
  schema_metadata : list (string * string);
}.

(** [Field::with_data_type] *)
Definition with_data_type (f : Field) (t : DataType) : Field :=
  mkField (name f) t (nullable f) (metadata f).

#[global] Instance FieldOf_eq_dec T : EqDecision T → EqDecision (FieldOf T).
Proof. solve_decision. Defined.

(** The cases of an equality test as a boolean function, which recurses through
    the fields. *)
Fixpoint type_eqb (s t : DataType) {struct s} : bool :=
  let field_eqb f g :=
    bool_decide (name f = name g) && type_eqb (data_type f) (data_type g)
    && Bool.eqb (nullable f) (nullable g) && bool_decide (metadata f = metadata g) in
  let fix fields_eqb l k :=
    match l, k with
    | [], [] => true
    | f :: l, g :: k => field_eqb f g && fields_eqb l k
    | _, _ => false
    end in
  match s, t with
  | Int8, Int8 | Int16, Int16 | Int32, Int32 | Int64, Int64
  | UInt8, UInt8 | UInt16, UInt16 | UInt32, UInt32 | UInt64, UInt64 => true
  | FixedSizeBinary a, FixedSizeBinary b => a =? b
  | Dictionary k v, Dictionary k' v' => type_eqb k k' && type_eqb v v'
  | Struct l, Struct l' => fields_eqb l l'
  | ListType f, ListType g => field_eqb f g
  | OtherType a l, OtherType b l' => (a =? b) && fields_eqb l l'
  | _, _ => false
  end.

(** Induction with a hypothesis for every nested field. *)
Lemma DataType_nested_ind (P : DataType → Prop) :
  (∀ t, match t with
        | Dictionary k v => P k ∧ P v
        | Struct l | OtherType _ l => Forall (λ f, P (data_type f)) l
        | ListType f => P (data_type f)
        | _ => True
        end → P t) → ∀ t, P t.
Proof.
  intros H. fix IH 1. intros [| | | | | | | |n|k v|l|f|n l]; apply H; try exact I.
  - split; apply IH.
  - induction l as [|f l IHl]; constructor; [apply IH|done].
  - apply IH.
  - induction l as [|f l IHl]; constructor; [apply IH|done].
Qed.

Lemma type_eqb_eq s t : type_eqb s t = true ↔ s = t.
Proof.
  revert t. induction s as [s IH] using DataType_nested_ind.
  assert (Hf : ∀ f g : Field, (∀ t, type_eqb (data_type f) t = true ↔ data_type f = t) →
    bool_decide (name f = name g) && type_eqb (data_type f) (data_type g)
    && Bool.eqb (nullable f) (nullable g) && bool_decide (metadata f = metadata g) = true ↔ f = g).
  { intros [n t b m] [n' t' b' m'] Ht. simpl in *.
    rewrite !andb_true_iff, !bool_decide_eq_true, Ht, Bool.eqb_true_iff. naive_solver. }
  intros t. destruct s as [| | | | | | | |n|k v|l|f|n l], t as [| | | | | | | |n'|k' v'|l'|f'|n' l']; simpl; try done.
  - rewrite Z.eqb_eq. naive_solver.
  - destruct IH as [IHk IHv]. rewrite andb_true_iff, IHk, IHv. naive_solver.
  - transitivity (l = l'); [|naive_solver]. revert l'.
    induction IH as [|f l Hfl _ IHl]; intros [|g l']; try done.
    rewrite andb_true_iff, (Hf f g Hfl), IHl. naive_solver.
  - rewrite (Hf f f' IH). naive_solver.
  - rewrite andb_true_iff, Z.eqb_eq. transitivity (n = n' ∧ l = l'); [|naive_solver].
    apply and_iff_compat_l. revert l'. induction IH as [|f l Hfl _ IHl]; intros [|g l']; try done.
    rewrite andb_true_iff, (Hf f g Hfl), IHl. naive_solver.
Qed.

#[global] Instance DataType_eq_dec : EqDecision DataType.
Proof. refine (λ s t, cast_if (decide (type_eqb s t = true))); by rewrite <-type_eqb_eq. Defined.

#[global] Instance Schema_eq_dec : EqDecision Schema.
Proof. solve_decision. Defined.

(** Number of dictionary encodings in a type, at any depth. *)
Fixpoint dictionary_count (t : DataType) : nat :=
  match t with
  | Dictionary _ v => S (dictionary_count v)
  | Struct l | OtherType _ l => sum_list_with (λ f, dictionary_count (data_type f)) l
  | ListType f => dictionary_count (data_type f)
  | _ => 0
  end.

(** ** Logical values *)

(** One row of an array: integers, any other scalar as the bytes that determine
    it, the fields of a struct, the elements of a list. *)
Inductive Value :=
  | Null
  | Int (z : Z)
  | Scalar (bytes : list Z)
  | Tuple (values : list Value)
  | Seq (values : list Value).

Definition int_cell (v : option Z) : Value := from_option Int Null v.

(** The rows a dictionary array stands for: each key selects a value. *)
Definition dictionary_cells (keys : list (option Z)) (values : list Value) : list Value :=
  (λ k, match k with Some i => default Null (values !! Z.to_nat i) | None => Null end) <$> keys.

(** Whether row [i] is masked by a validity buffer. *)
Definition masked (nulls : option (list bool)) (i : nat) : bool :=
  match nulls with Some valid => negb (default true (valid !! i)) | None => false end.

(** The rows of a struct array of length [n]. *)
Definition struct_cells (n : nat) (nulls : option (list bool)) (columns : list (list Value)) : list Value :=
  (λ i, if masked nulls i then Null else Tuple ((λ c, default Null (c !! i)) <$> columns)) <$> seq 0 n.

(** Position of the first field of a name. *)
Definition field_index (l : list Field) (n : string) : option nat :=
  fst <$> list_find (λ f, name f = n) l.

(** ** Operations *)

(** A block of an IPC file: [offset] and [bodyLength] are [i64], [metaDataLength]
    is [i32]. *)
Record Block := mkBlock {
  block_offset : Z;
  metaDataLength : Z;
  bodyLength : Z;
}.

Class Arrow := {
  ArrayRef : Type;
  array_type : ArrayRef → DataType;
  cells : ArrayRef → list Value;
  (** Dictionaries inside an array, from the outside in. *)
  dictionaries : ArrayRef → list ArrayRef;
  (** [downcast_ref::<DictionaryArray<K>>]: its keys and values. *)
  as_dictionary : DataType → ArrayRef → option (list (option Z) * ArrayRef);
  (** [DictionaryArray::<K>::new]; [None] is a panic. *)
  dictionary_new : DataType → list (option Z) → ArrayRef → option ArrayRef;
  (** [downcast_ref::<StructArray>]: its children and validity. *)
  as_struct : ArrayRef → option (list ArrayRef * option (list bool));
  struct_try_new : list Field → list ArrayRef → option (list bool) → option ArrayRef;
  struct_column_by_name : ArrayRef → string → option ArrayRef;
  new_empty_array : DataType → ArrayRef;
  concat_arrays : list ArrayRef → option ArrayRef;
  cast : ArrayRef → DataType → option ArrayRef;
  (** The builders of unsigned integers, and [as_primitive_opt] with [values()]
      and with [is_null]/[value]. *)
  uint_array : DataType → list (option Z) → ArrayRef;
  uint_values : DataType → ArrayRef → option (list Z);
  uint_options : DataType → ArrayRef → option (list (option Z));
  (** [FixedSizeBinaryBuilder]; size and values of a [FixedSizeBinaryArray]. *)
  fixed_binary_array : Z → list (list Z) → option ArrayRef;
  fixed_binary_values : ArrayRef → option (Z * list (list Z));
  (** [ListBuilder<StructBuilder>] over integer fields; [as_list_opt] and
      [value(i)] for every row. *)
  list_array : list Field → list (list (list Z)) → ArrayRef;
  list_values : ArrayRef → option (list ArrayRef);
  RecordBatch : Type;
  batch_schema : RecordBatch → Schema;
  columns : RecordBatch → list ArrayRef;
  num_rows : RecordBatch → Z;
  array_memory_size : RecordBatch → Z;
  batch_try_new : Schema → list ArrayRef → option RecordBatch;
  column_by_name : RecordBatch → string → option ArrayRef;
  (** [FileWriter] over a schema and its batches, into a buffer. *)
  ipc_write : Schema → list RecordBatch → option (list Z);
  (** [read_footer_length] of the last ten bytes, [root_as_footer] and its parts. *)
  read_footer_length : list Z → option Z;
  IpcFooter : Type;
  root_as_footer : list Z → option IpcFooter;
  footer_schema : IpcFooter → option Schema;
  footer_dictionaries : IpcFooter → list Block;
  footer_batches : IpcFooter → list Block;
  (** [FileDecoder] *)
  FileDecoder : Type;
  decoder_new : IpcFooter → Schema → FileDecoder;
  read_dictionary : FileDecoder → Block → list Z → option FileDecoder;
  read_record_batch : FileDecoder → Block → list Z → option (option RecordBatch);
}.

(** ** Documented behaviour *)

(** The key types of dictionaries. *)
Definition is_key_type (t : DataType) : bool :=
  match t with
  | Int8 | Int16 | Int32 | Int64 | UInt8 | UInt16 | UInt32 | UInt64 => true
  | _ => false
  end.

Definition is_uint_type (t : DataType) : bool :=
  match t with UInt16 | UInt32 | UInt64 => true | _ => false end.

(** A key selects one of [n] values. *)
Definition key_in_bounds (n : nat) (k : option Z) : Prop :=
  match k with Some i => 0 ≤ i < Z.of_nat n | None => True end.

Section arrow.
Context `{Arrow}.

Definition array_len (a : ArrayRef) : Z := zlen (cells a).

(** Two arrays that are equal for Arrow: the same type and logical values. *)
Definition same_array (a b : ArrayRef) : Prop := array_type b = array_type a ∧ cells b = cells a.

Definition same_batch (a b : RecordBatch) : Prop :=
  batch_schema b = batch_schema a ∧ num_rows b = num_rows a ∧ Forall2 same_array (columns a) (columns b).

(** The dictionaries of a batch, column by column. *)
Definition batch_dictionaries (b : RecordBatch) : list (list ArrayRef) := dictionaries <$> columns b.

(** The bytes of a block and whether it lies inside the file. *)
Definition block_len (k : Block) : Z := bodyLength k + metaDataLength k.

Definition block_data (k : Block) (bytes : list Z) : list Z :=
  slice (Z.to_nat (block_offset k)) (Z.to_nat (block_offset k + block_len k)) bytes.

Definition block_in (bytes : list Z) (k : Block) : Prop :=
  0 ≤ block_offset k ∧ 0 ≤ metaDataLength k ∧ 0 ≤ bodyLength k ∧ block_offset k + block_len k ≤ zlen bytes.

Fixpoint read_dictionaries (d : FileDecoder) (l : list Block) (bytes : list Z) : option FileDecoder :=
  match l with
  | [] => Some d
  | k :: l => d' ← read_dictionary d k (block_data k bytes); read_dictionaries d' l bytes
  end.

(** The layout of an IPC file that holds [batches]: the length of its footer in
    the last ten bytes, the footer before it, and in the footer the blocks of the
    dictionaries and of the batches. *)
Record ipc_file (bytes : list Z) (batches : list RecordBatch) (footer_len : Z)
    (footer : IpcFooter) (schema : Schema) (decoder : FileDecoder) : Prop := {
  ipc_size : 10 ≤ zlen bytes;
  ipc_footer_length : read_footer_length (drop (length bytes - 10) bytes) = Some footer_len;
  ipc_footer_bound : 0 ≤ footer_len ≤ zlen bytes - 10;
  ipc_footer :
    root_as_footer (slice (length bytes - 10 - Z.to_nat footer_len) (length bytes - 10) bytes) = Some footer;
  ipc_schema : footer_schema footer = Some schema;
  ipc_dictionary_blocks : Forall (block_in bytes) (footer_dictionaries footer);
  ipc_dictionary_count :
    (length (footer_dictionaries footer) ≤ from_option (λ b, length (concat (batch_dictionaries b))) 0%nat (head batches))%nat;
  ipc_batch_blocks : Forall (block_in bytes) (footer_batches footer);
  ipc_decoder :
    read_dictionaries (decoder_new footer schema) (footer_dictionaries footer) bytes = Some decoder;
  ipc_batches : Forall2 (λ b k, ∃ b',
    read_record_batch decoder k (block_data k bytes) = Some (Some b') ∧ same_batch b b')
    batches (footer_batches footer);
}.

End arrow.

(** [valid] holds of the arrays the crate builds, [batch_valid] of the batches. *)
Class ArrowLaws `{Arrow} := {
  valid : ArrayRef → Prop;
  batch_valid (b : RecordBatch) : Prop :=
    Forall2 (λ f c, valid c ∧ array_type c = data_type f ∧ array_len c = num_rows b)
      (fields (batch_schema b)) (columns b);
  as_dictionary_law a k v :
    valid a → array_type a = Dictionary k v → is_key_type k = true →
    ∃ keys values, as_dictionary k a = Some (keys, values) ∧ valid values ∧ array_type values = v
      ∧ Forall (key_in_bounds (length (cells values))) keys
      ∧ cells a = dictionary_cells keys (cells values)
      ∧ dictionaries a = values :: dictionaries values;
  dictionary_new_law k keys values :
    valid values → is_key_type k = true → Forall (key_in_bounds (length (cells values))) keys →
    ∃ a, dictionary_new k keys values = Some a ∧ valid a
      ∧ array_type a = Dictionary k (array_type values) ∧ as_dictionary k a = Some (keys, values);
  as_struct_law a l :
    valid a → array_type a = Struct l →
    ∃ children nulls, as_struct a = Some (children, nulls)
      ∧ Forall2 (λ f c, valid c ∧ array_type c = data_type f ∧ array_len c = array_len a) l children
      ∧ from_option (λ m, length m = length (cells a)) True nulls
      ∧ cells a = struct_cells (length (cells a)) nulls (cells <$> children)
      ∧ dictionaries a = concat (dictionaries <$> children);
  (** A row that is null in a field declared non-null has to be masked. *)
  struct_try_new_law l children nulls n :
    l ≠ [] →
    Forall2 (λ f c, valid c ∧ array_type c = data_type f ∧ length (cells c) = n
      ∧ (nullable f = false → ∀ i, cells c !! i = Some Null → masked nulls i = true)) l children →
    from_option (λ m, length m = n) True nulls →
    ∃ a, struct_try_new l children nulls = Some a ∧ valid a ∧ array_type a = Struct l
      ∧ length (cells a) = n ∧ as_struct a = Some (children, nulls);
  struct_column_law a l children nulls n :
    valid a → array_type a = Struct l → as_struct a = Some (children, nulls) →
    struct_column_by_name a n = field_index l n ≫= λ i, children !! i;
  new_empty_array_law t :
    valid (new_empty_array t) ∧ array_type (new_empty_array t) = t ∧ cells (new_empty_array t) = [];
  concat_arrays_law l t a :
    Forall (λ x, valid x ∧ array_type x = t) l → concat_arrays l = Some a →
    valid a ∧ array_type a = t ∧ cells a = concat (cells <$> l);
  cast_law a k v b :
    valid a → array_type a = Dictionary k v → cast a v = Some b →
    valid b ∧ array_type b = v ∧ cells b = cells a;
  dictionaries_law a : valid a → length (dictionaries a) = dictionary_count (array_type a);
  uint_array_law t vs :
    is_uint_type t = true →
    valid (uint_array t vs) ∧ array_type (uint_array t vs) = t ∧ cells (uint_array t vs) = int_cell <$> vs;
  uint_values_law t a vs :
    is_uint_type t = true → valid a → array_type a = t → cells a = Int <$> vs → uint_values t a = Some vs;
  uint_options_law t a vs :
    is_uint_type t = true → valid a → array_type a = t → cells a = int_cell <$> vs →
    uint_options t a = Some vs;
  fixed_binary_array_law n l :
    Forall (λ x, zlen x = n) l →
    ∃ a, fixed_binary_array n l = Some a ∧ valid a ∧ array_type a = FixedSizeBinary n ∧ cells a = Scalar <$> l;
  fixed_binary_values_law a n l :
    valid a → array_type a = FixedSizeBinary n → cells a = Scalar <$> l →
    fixed_binary_values a = Some (n, l);
  list_array_law l rows :
    l ≠ [] → Forall (λ f, is_uint_type (data_type f) = true) l → Forall (Forall (λ r, length r = length l)) rows →
    valid (list_array l rows)
    ∧ array_type (list_array l rows) = ListType (mkField "item" (Struct l) true [])
    ∧ cells (list_array l rows) = (λ row, Seq ((λ r, Tuple (Int <$> r)) <$> row)) <$> rows;
  list_values_law a f vss :
    valid a → array_type a = ListType f → cells a = Seq <$> vss →
    ∃ l, list_values a = Some l
      ∧ Forall2 (λ vs x, valid x ∧ array_type x = data_type f ∧ cells x = vs) vss l;
  batch_try_new_law s l n :
    l ≠ [] →
    Forall2 (λ f c, valid c ∧ array_type c = data_type f ∧ array_len c = n
      ∧ (nullable f = false → Null ∉ cells c)) (fields s) l →
    ∃ b, batch_try_new s l = Some b ∧ batch_schema b = s ∧ columns b = l ∧ num_rows b = n;
  column_by_name_law b n :
    batch_valid b →
    column_by_name b n = field_index (fields (batch_schema b)) n ≫= λ i, columns b !! i;
  (** The file format has one dictionary per field: the writer rejects a batch
      whose dictionaries differ from those of the batches before it. *)
  ipc_write_law s l :
    Forall (λ b, batch_valid b ∧ batch_schema b = s) l →
    (∀ b c, b ∈ l → c ∈ l → batch_dictionaries b = batch_dictionaries c) →
    is_Some (ipc_write s l);
  ipc_read_law s l bytes :
    Forall (λ b, batch_valid b ∧ batch_schema b = s) l → ipc_write s l = Some bytes → zlen bytes ≤ u64_max →
    ∃ footer_len footer schema decoder, ipc_file bytes l footer_len footer schema decoder
      ∧ (∀ k b', read_record_batch decoder k (block_data k bytes) = Some (Some b') → batch_valid b');
}.

End Arrow.
