(* ===== verification/ArrowModel.v ===== *)
(** * An instance of the Arrow interface

    Concrete arrays, batches and an IPC encoding that satisfy [ArrowLaws], so that
    the laws are known to be consistent and statements about segments can be
    applied to concrete batches.  It stands in for the Arrow crates only there. *)
From S2P Require Import Prelude Bytes Files Arrow.
Export Arrow.

Local Open Scope Z_scope.
Set Warnings "-register-all".

Module ArrowModel.

(** ** Serialization of types and values *)

Definition type_leaf : Type := (string * bool * list (string * string)) + Z.

Fixpoint type_tree (t : DataType) : gen_tree type_leaf :=
  let field_tree f := GenNode 0 [GenLeaf (inl (name f, nullable f, metadata f)); type_tree (data_type f)] in
  match t with
  | Int8 => GenNode 0 [] | Int16 => GenNode 1 [] | Int32 => GenNode 2 [] | Int64 => GenNode 3 []
  | UInt8 => GenNode 4 [] | UInt16 => GenNode 5 [] | UInt32 => GenNode 6 [] | UInt64 => GenNode 7 []
  | FixedSizeBinary n => GenNode 8 [GenLeaf (inr n)]
  | Dictionary k v => GenNode 9 [type_tree k; type_tree v]
  | Struct l => GenNode 10 (map field_tree l)
  | ListType f => GenNode 11 [field_tree f]
  | OtherType n l => GenNode 12 (GenLeaf (inr n) :: map field_tree l)
  end.

Fixpoint tree_type (t : gen_tree type_leaf) : DataType :=
  let tree_field t :=
    match t with
    | GenNode _ [GenLeaf (inl (n, b, m)); t'] => mkField n (tree_type t') b m
    | _ => mkField EmptyString Int8 false []
    end in
  match t with
  | GenNode 1 _ => Int16 | GenNode 2 _ => Int32 | GenNode 3 _ => Int64
  | GenNode 4 _ => UInt8 | GenNode 5 _ => UInt16 | GenNode 6 _ => UInt32 | GenNode 7 _ => UInt64
  | GenNode 8 [GenLeaf (inr n)] => FixedSizeBinary n
  | GenNode 9 [k; v] => Dictionary (tree_type k) (tree_type v)
  | GenNode 10 l => Struct (map tree_field l)
  | GenNode 11 [f] => ListType (tree_field f)
  | GenNode 12 (GenLeaf (inr n) :: l) => OtherType n (map tree_field l)
  | _ => Int8
  end.

Lemma tree_type_tree t : tree_type (type_tree t) = t.
Proof.
  induction t as [t IH] using DataType_nested_ind. destruct t as [| | | | | | | |n|k v|l|f|n l]; simpl; try done.
  - by destruct IH as [-> ->].
  - f_equal. rewrite map_map. induction IH as [|f l Hf _ IHl]; simpl; [done|]. rewrite IHl, Hf. by destruct f.
  - rewrite IH. by destruct f.
  - f_equal. rewrite map_map. induction IH as [|f l Hf _ IHl]; simpl; [done|]. rewrite IHl, Hf. by destruct f.
Qed.

#[global] Instance DataType_countable : Countable DataType := inj_countable' type_tree tree_type tree_type_tree.

Definition field_tuple (f : Field) : string * DataType * bool * list (string * string) :=
  (name f, data_type f, nullable f, metadata f).

Definition tuple_field (p : string * DataType * bool * list (string * string)) : Field :=
  let '(n, t, b, m) := p in mkField n t b m.

#[global] Instance Field_countable : Countable Field.
Proof. refine (inj_countable' field_tuple tuple_field _). by intros []. Defined.

#[global] Instance Schema_countable : Countable Schema.
Proof.
  refine (inj_countable' (λ s, (fields s, schema_metadata s)) (λ p, mkSchema p.1 p.2) _). by intros [].
Defined.

Fixpoint value_tree (v : Value) : gen_tree (Z + list Z) :=
  match v with
  | Null => GenNode 0 []
  | Int z => GenLeaf (inl z)
  | Scalar b => GenLeaf (inr b)
  | Tuple l => GenNode 1 (map value_tree l)
  | Seq l => GenNode 2 (map value_tree l)
  end.

Fixpoint tree_value (t : gen_tree (Z + list Z)) : Value :=
  match t with
  | GenLeaf (inl z) => Int z
  | GenLeaf (inr b) => Scalar b
  | GenNode 1 l => Tuple (map tree_value l)
  | GenNode 2 l => Seq (map tree_value l)
  | _ => Null
  end.

Lemma tree_value_tree v : tree_value (value_tree v) = v.
Proof.
  revert v. fix IH 1. intros [|z|b|l|l]; simpl; [reflexivity..| |]; f_equal; rewrite map_map;
    induction l as [|v l IHl]; simpl; [reflexivity|by rewrite IH, IHl|reflexivity|by rewrite IH, IHl].
Qed.

#[global] Instance Value_eq_dec : EqDecision Value.
Proof.
  refine (λ v w, cast_if (decide (value_tree v = value_tree w))); [|by intros ->].
  by rewrite <-(tree_value_tree v), <-(tree_value_tree w), e.
Defined.

#[global] Instance Value_countable : Countable Value := inj_countable' value_tree tree_value tree_value_tree.

(** ** Arrays *)

Inductive Arr :=
  | Plain (t : DataType) (values : list Value)
  | Dict (key : DataType) (keys : list (option Z)) (values : Arr)
  | StructArr (fs : list Field) (children : list Arr) (nulls : option (list bool)) (n : nat)
  | ListArr (fs : list Field) (rows : list (list (list Z))).

Definition arr_leaf : Type :=
  (DataType * list Value) + (DataType * list (option Z)) + (list Field * option (list bool) * nat)
  + (list Field * list (list (list Z))).

Fixpoint arr_tree (a : Arr) : gen_tree arr_leaf :=
  match a with
  | Plain t vs => GenLeaf (inl (inl (inl (t, vs))))
  | Dict k keys v => GenNode 0 [GenLeaf (inl (inl (inr (k, keys)))); arr_tree v]
  | StructArr fs cs nulls n => GenNode 1 (GenLeaf (inl (inr (fs, nulls, n))) :: map arr_tree cs)
  | ListArr fs rows => GenLeaf (inr (fs, rows))
  end.

Fixpoint tree_arr (t : gen_tree arr_leaf) : Arr :=
  match t with
  | GenLeaf (inl (inl (inl (t, vs)))) => Plain t vs
  | GenNode 0 [GenLeaf (inl (inl (inr (k, keys)))); v] => Dict k keys (tree_arr v)
  | GenNode 1 (GenLeaf (inl (inr (fs, nulls, n))) :: cs) => StructArr fs (map tree_arr cs) nulls n
  | GenLeaf (inr (fs, rows)) => ListArr fs rows
  | _ => Plain Int8 []
  end.

Lemma tree_arr_tree a : tree_arr (arr_tree a) = a.
Proof.
  revert a. fix IH 1. intros [t vs|k keys v|fs cs nulls n|fs rows]; simpl; [reflexivity|by rewrite IH| |reflexivity].
  f_equal. rewrite map_map. induction cs as [|c cs IHl]; simpl; [reflexivity|by rewrite IH, IHl].
Qed.

#[global] Instance Arr_eq_dec : EqDecision Arr.
Proof.
  refine (λ v w, cast_if (decide (arr_tree v = arr_tree w))); [|by intros ->].
  by rewrite <-(tree_arr_tree v), <-(tree_arr_tree w), e.
Defined.

#[global] Instance Arr_countable : Countable Arr := inj_countable' arr_tree tree_arr tree_arr_tree.

Fixpoint arr_type (a : Arr) : DataType :=
  match a with
  | Plain t _ => t
  | Dict k _ v => Dictionary k (arr_type v)
  | StructArr fs _ _ _ => Struct fs
  | ListArr fs _ => ListType (mkField "item" (Struct fs) true [])
  end.

Fixpoint arr_cells (a : Arr) : list Value :=
  match a with
  | Plain _ vs => vs
  | Dict _ keys v => dictionary_cells keys (arr_cells v)
  | StructArr _ cs nulls n => struct_cells n nulls (map arr_cells cs)
  | ListArr _ rows => (λ row, Seq ((λ r, Tuple (Int <$> r)) <$> row)) <$> rows
  end.

(** The dictionaries of an empty array of a type. *)
Fixpoint empty_dictionaries (t : DataType) : list Arr :=
  match t with
  | Dictionary _ v => Plain v [] :: empty_dictionaries v
  | Struct l | OtherType _ l => concat (map (λ f, empty_dictionaries (data_type f)) l)
  | ListType f => empty_dictionaries (data_type f)
  | _ => []
  end.

Fixpoint arr_dictionaries (a : Arr) : list Arr :=
  match a with
  | Plain t _ => empty_dictionaries t
  | Dict _ _ v => v :: arr_dictionaries v
  | StructArr _ cs _ _ => concat (map arr_dictionaries cs)
  | ListArr fs _ => empty_dictionaries (Struct fs)
  end.

(** Types whose values a [Plain] array holds directly. *)
Definition is_leaf (t : DataType) : bool :=
  match t with Dictionary _ _ | Struct _ | ListType _ => false | _ => true end.

Fixpoint arr_valid (a : Arr) : Prop :=
  match a with
  | Plain t vs => is_leaf t = true ∨ vs = []
  | Dict k keys v => arr_valid v ∧ is_key_type k = true ∧ Forall (key_in_bounds (length (arr_cells v))) keys
  | StructArr fs cs nulls n =>
      (fix all cs := match cs with [] => True | c :: cs => arr_valid c ∧ all cs end) cs
      ∧ Forall2 (λ f c, arr_type c = data_type f ∧ length (arr_cells c) = n) fs cs
      ∧ from_option (λ m, length m = n) True nulls
  | ListArr fs rows =>
      fs ≠ [] ∧ Forall (λ f, is_uint_type (data_type f) = true) fs
      ∧ Forall (Forall (λ r, length r = length fs)) rows
  end.

Definition arr_as_dictionary (k : DataType) (a : Arr) : option (list (option Z) * Arr) :=
  match a with
  | Dict k' keys v => if decide (k = k') then Some (keys, v) else None
  | Plain (Dictionary k' v) _ => if decide (k = k') then Some ([], Plain v []) else None
  | _ => None
  end.

Definition in_bounds (n : nat) (k : option Z) : bool :=
  match k with Some i => (0 <=? i) && (i <? Z.of_nat n) | None => true end.

Definition arr_dictionary_new (k : DataType) (keys : list (option Z)) (v : Arr) : option Arr :=
  if forallb (in_bounds (length (arr_cells v))) keys then Some (Dict k keys v) else None.

Definition arr_as_struct (a : Arr) : option (list Arr * option (list bool)) :=
  match a with
  | StructArr _ cs nulls _ => Some (cs, nulls)
  | Plain (Struct l) _ => Some ((λ f, Plain (data_type f) []) <$> l, None)
  | _ => None
  end.

Definition arr_struct_try_new (fs : list Field) (cs : list Arr) (nulls : option (list bool)) : option Arr :=
  Some (StructArr fs cs nulls (from_option (λ c, length (arr_cells c)) 0%nat (head cs))).

Definition arr_struct_column (a : Arr) (n : string) : option Arr :=
  match arr_type a with
  | Struct l => field_index l n ≫= λ i, arr_as_struct a ≫= λ s, s.1 !! i
  | _ => None
  end.

Definition arr_concat (l : list Arr) : option Arr :=
  match l with
  | a :: _ => if is_leaf (arr_type a) then Some (Plain (arr_type a) (concat (arr_cells <$> l))) else None
  | [] => None
  end.

Definition arr_cast (a : Arr) (t : DataType) : option Arr :=
  if is_leaf t then Some (Plain t (arr_cells a)) else None.

Definition cell_int (v : Value) : Z := match v with Int z => z | _ => 0 end.

Definition cell_option (v : Value) : option Z := match v with Int z => Some z | _ => None end.

Definition cell_bytes (v : Value) : list Z := match v with Scalar b => b | _ => [] end.

Definition arr_uint_values (t : DataType) (a : Arr) : option (list Z) :=
  if decide (arr_type a = t) then Some (cell_int <$> arr_cells a) else None.

Definition arr_uint_options (t : DataType) (a : Arr) : option (list (option Z)) :=
  if decide (arr_type a = t) then Some (cell_option <$> arr_cells a) else None.

Definition arr_fixed_values (a : Arr) : option (Z * list (list Z)) :=
  match arr_type a with FixedSizeBinary n => Some (n, cell_bytes <$> arr_cells a) | _ => None end.

(** One row of a list array as a struct array. *)
Definition row_struct (fs : list Field) (row : list (list Z)) : Arr :=
  StructArr fs (imap (λ j f, Plain (data_type f) ((λ r, Int (default 0 (r !! j))) <$> row)) fs) None (length row).

Definition arr_list_values (a : Arr) : option (list Arr) :=
  match a with
  | ListArr fs rows => Some (row_struct fs <$> rows)
  | Plain (ListType _) _ => Some []
  | _ => None
  end.

(** ** Batches and IPC files *)

Record Batch := mkBatch {
  b_schema : Schema;
  b_columns : list Arr;
  b_rows : Z;
}.

#[global] Instance Batch_eq_dec : EqDecision Batch.
Proof. solve_decision. Defined.

#[global] Instance Batch_countable : Countable Batch.
Proof.
  refine (inj_countable' (λ b, (b_schema b, b_columns b, b_rows b)) (λ '(s, c, n), mkBatch s c n) _). by intros [].
Defined.

Definition model_try_new (s : Schema) (l : list Arr) : option Batch :=
  Some (mkBatch s l (from_option (λ c, zlen (arr_cells c)) 0 (head l))).

Definition model_column (b : Batch) (n : string) : option Arr :=
  field_index (fields (b_schema b)) n ≫= λ i, b_columns b !! i.

(** The contents of an IPC file: everything is its footer, encoded as the bits of
    a number followed by one more byte per batch; the last ten bytes hold its
    length. *)
Fixpoint pos_bits (p : positive) : list Z :=
  match p with xH => [] | xO p => 0 :: pos_bits p | xI p => 1 :: pos_bits p end.

Fixpoint bits_pos (l : list Z) : positive :=
  match l with
  | 0 :: l => xO (bits_pos l)
  | 1 :: l => xI (bits_pos l)
  | _ => xH
  end.

Definition model_footer (p : Schema * list Batch) : list Z := pos_bits (encode p) ++ replicate (length p.2) 2.

Definition model_write (s : Schema) (l : list Batch) : option (list Z) :=
  Some (model_footer (s, l) ++ to_le_bytes 8 (zlen (model_footer (s, l))) ++ [0; 0]).

Definition model_footer_length (l : list Z) : option Z := Some (from_le_bytes (take 8 l)).

Definition model_root (l : list Z) : option (Schema * list Batch) := decode (bits_pos l).

(** Block [i] is the empty block at offset [i]. *)
Definition model_blocks (l : list Batch) : list Block := imap (λ i _, mkBlock (Z.of_nat i) 0 0) l.

Definition model_read (d : list Batch) (k : Block) : option (option Batch) :=
  Some (d !! Z.to_nat (block_offset k)).

Definition model : Arrow := {|
  ArrayRef := Arr;
  array_type := arr_type;
  cells := arr_cells;
  dictionaries := arr_dictionaries;
  as_dictionary := arr_as_dictionary;
  dictionary_new := arr_dictionary_new;
  as_struct := arr_as_struct;
  struct_try_new := arr_struct_try_new;
  struct_column_by_name := arr_struct_column;
  new_empty_array := λ t, Plain t [];
  concat_arrays := arr_concat;
  cast := arr_cast;
  uint_array := λ t vs, Plain t (int_cell <$> vs);
  uint_values := arr_uint_values;
  uint_options := arr_uint_options;
  fixed_binary_array := λ n l, Some (Plain (FixedSizeBinary n) (Scalar <$> l));
  fixed_binary_values := arr_fixed_values;
  list_array := ListArr;
  list_values := arr_list_values;
  RecordBatch := Batch;
  batch_schema := b_schema;
  columns := b_columns;
  num_rows := b_rows;
  array_memory_size := λ b, b_rows b * zlen (b_columns b);
  batch_try_new := model_try_new;
  column_by_name := model_column;
  ipc_write := model_write;
  read_footer_length := model_footer_length;
  IpcFooter := Schema * list Batch;
  root_as_footer := model_root;
  footer_schema := λ f, Some f.1;
  footer_dictionaries := λ _, [];
  footer_batches := λ f, model_blocks f.2;
  FileDecoder := list Batch;
  decoder_new := λ f _, f.2;
  read_dictionary := λ d _ _, Some d;
  read_record_batch := λ d k _, model_read d k;
|}.

(** ** The laws *)

Lemma arr_valid_children cs :
  (fix all cs := match cs with [] => True | c :: cs => arr_valid c ∧ all cs end) cs ↔ Forall arr_valid cs.
Proof. induction cs as [|c cs IH]; [done|]. rewrite Forall_cons, IH. done. Qed.

Lemma empty_dictionaries_length t : length (empty_dictionaries t) = dictionary_count t.
Proof.
  induction t as [t IH] using DataType_nested_ind. destruct t as [| | | | | | | |n|k v|l|f|n l]; simpl; try done.
  - by destruct IH as [_ ->].
  - induction IH as [|f l Hf _ IHl]; simpl; [done|]. by rewrite length_app, Hf, IHl.
  - induction IH as [|f l Hf _ IHl]; simpl; [done|]. by rewrite length_app, Hf, IHl.
Qed.

Lemma arr_dictionaries_length a : arr_valid a → length (arr_dictionaries a) = dictionary_count (arr_type a).
Proof.
  revert a. fix IH 1. intros [t vs|k keys v|fs cs nulls n|fs rows]; simpl.
  - intros _. apply empty_dictionaries_length.
  - intros (Hv & _). f_equal. by apply IH.
  - intros (Hv & HF & _). revert fs HF. induction cs as [|c cs IHl]; intros fs HF; simpl.
    + by apply Forall2_nil_inv_r in HF as ->.
    + destruct Hv as [Hc Hv]. apply Forall2_cons_inv_r in HF as (f & fs' & [Ht _] & HF & ->). simpl.
      rewrite length_app, (IH c Hc), (IHl Hv fs' HF), Ht. done.
  - intros _. apply (empty_dictionaries_length (Struct fs)).
Qed.

Lemma arr_as_dictionary_law a k v :
  arr_valid a → arr_type a = Dictionary k v →
  ∃ keys values, arr_as_dictionary k a = Some (keys, values) ∧ arr_valid values ∧ arr_type values = v
    ∧ Forall (key_in_bounds (length (arr_cells values))) keys
    ∧ arr_cells a = dictionary_cells keys (arr_cells values)
    ∧ arr_dictionaries a = values :: arr_dictionaries values.
Proof.
  destruct a as [t vs|k' keys values|fs cs nulls n|fs rows]; simpl; try done.
  - intros Hv ->. destruct Hv as [Hl|Hl]; [done|subst vs]. exists [], (Plain v []). rewrite decide_True by done.
    split_and!; try done. by right.
  - intros (Hv & Hk & HF) [= -> <-]. exists keys, values. by rewrite decide_True.
Qed.

Lemma in_bounds_spec n k : in_bounds n k = true ↔ key_in_bounds n k.
Proof. destruct k as [i|]; simpl; [|done]. by rewrite andb_true_iff, Z.leb_le, Z.ltb_lt. Qed.

Lemma arr_dictionary_new_law k keys values :
  arr_valid values → is_key_type k = true → Forall (key_in_bounds (length (arr_cells values))) keys →
  ∃ a, arr_dictionary_new k keys values = Some a ∧ arr_valid a
    ∧ arr_type a = Dictionary k (arr_type values) ∧ arr_as_dictionary k a = Some (keys, values).
Proof.
  intros Hv Hk HF. exists (Dict k keys values). unfold arr_dictionary_new.
  rewrite (proj2 (forallb_forall _ keys)).
  - split_and!; try done. simpl. by rewrite decide_True.
  - intros x Hx%list_elem_of_In. rewrite Forall_forall in HF. by apply in_bounds_spec, HF.
Qed.

Lemma struct_cells_length n nulls cols : length (struct_cells n nulls cols) = n.
Proof. unfold struct_cells. by rewrite length_fmap, length_seq. Qed.

Lemma arr_as_struct_law a l :
  arr_valid a → arr_type a = Struct l →
  ∃ children nulls, arr_as_struct a = Some (children, nulls)
    ∧ Forall2 (λ f c, arr_valid c ∧ arr_type c = data_type f ∧ zlen (arr_cells c) = zlen (arr_cells a)) l children
    ∧ from_option (λ m, length m = length (arr_cells a)) True nulls
    ∧ arr_cells a = struct_cells (length (arr_cells a)) nulls (arr_cells <$> children)
    ∧ arr_dictionaries a = concat (arr_dictionaries <$> children).
Proof.
  destruct a as [t vs|k' keys values|fs cs nulls n|fs rows]; simpl; try done.
  - intros Hv ->. destruct Hv as [Hl|Hl]; [done|subst vs]. exists ((λ f, Plain (data_type f) []) <$> l), None.
    split_and!; try done.
    + rewrite Forall2_fmap_r. apply Forall_Forall2_diag, Forall_true. intros f. split_and!; try done. by right.
    + f_equal. rewrite <-list_fmap_compose. done.
  - intros (Hv%arr_valid_children & HF & Hn) [= ->]. exists cs, nulls. rewrite struct_cells_length. split_and!; try done.
    apply Forall2_same_length_lookup_2; [by eapply Forall2_length|]. intros i f c Hf Hc.
    destruct (Forall2_lookup_lr _ _ _ i f c HF Hf Hc) as [Ht Hl]. rewrite Forall_forall in Hv.
    split; [by eapply Hv, list_elem_of_lookup_2|]. split; [done|]. unfold zlen. by rewrite Hl, struct_cells_length.
Qed.

Lemma arr_struct_try_new_law l children nulls n :
  l ≠ [] →
  Forall2 (λ f c, arr_valid c ∧ arr_type c = data_type f ∧ length (arr_cells c) = n) l children →
  from_option (λ m, length m = n) True nulls →
  ∃ a, arr_struct_try_new l children nulls = Some a ∧ arr_valid a ∧ arr_type a = Struct l
    ∧ length (arr_cells a) = n ∧ arr_as_struct a = Some (children, nulls).
Proof.
  intros Hl HF Hn. unfold arr_struct_try_new. destruct children as [|c cs].
  { by apply Forall2_nil_inv_r in HF. }
  assert (length (arr_cells c) = n) as Hc by (apply Forall2_cons_inv_r in HF as (f & l' & (_ & _ & ?) & _); done).
  eexists; split; [done|]. cbn [head from_option]. rewrite Hc. split_and!; [|done| |done].
  - split; [|split; [|done]].
    + apply (arr_valid_children (c :: cs)). eapply Forall2_Forall_r; [exact HF|]. apply Forall_true. by intros f x (? & _).
    + eapply Forall2_impl; [exact HF|]. by intros f x (_ & ? & ?).
  - apply struct_cells_length.
Qed.

Lemma arr_concat_law l t a :
  Forall (λ x, arr_valid x ∧ arr_type x = t) l → arr_concat l = Some a →
  arr_valid a ∧ arr_type a = t ∧ arr_cells a = concat (arr_cells <$> l).
Proof.
  unfold arr_concat. destruct l as [|x l]; [done|]. intros [[_ <-] _]%Forall_cons.
  destruct (is_leaf (arr_type x)) eqn:E; [|done]. intros [= <-]. split_and!; try done. by left.
Qed.

Lemma uint_leaf t : is_uint_type t = true → is_leaf t = true.
Proof. by destruct t. Qed.

Lemma arr_uint_values_law t a vs :
  arr_type a = t → arr_cells a = Int <$> vs → arr_uint_values t a = Some vs.
Proof.
  intros Ht Hc. unfold arr_uint_values. rewrite decide_True by done. f_equal. rewrite Hc, <-list_fmap_compose.
  apply list_fmap_id.
Qed.

Lemma arr_uint_options_law t a vs :
  arr_type a = t → arr_cells a = int_cell <$> vs → arr_uint_options t a = Some vs.
Proof.
  intros Ht Hc. unfold arr_uint_options. rewrite decide_True by done. f_equal. rewrite Hc, <-list_fmap_compose.
  rewrite <-(list_fmap_id vs) at 2. apply list_fmap_ext. by intros i [v|] _.
Qed.

Lemma row_struct_spec fs row :
  fs ≠ [] → Forall (λ f, is_uint_type (data_type f) = true) fs → Forall (λ r, length r = length fs) row →
  arr_valid (row_struct fs row) ∧ arr_cells (row_struct fs row) = (λ r, Tuple (Int <$> r)) <$> row.
Proof.
  intros Hne Hu Hr. split.
  - split; [|split; [|done]].
    + apply (arr_valid_children (imap _ fs)), Forall_lookup_2. intros j c. rewrite list_lookup_imap.
      destruct (fs !! j) as [f|] eqn:Ef; [|done]. intros [= <-]. left.
      rewrite Forall_forall in Hu. by eapply uint_leaf, Hu, list_elem_of_lookup_2.
    + apply Forall2_same_length_lookup_2; [by rewrite length_imap|]. intros j f c Hf. rewrite list_lookup_imap, Hf.
      intros [= <-]. split; [done|]. simpl. by rewrite length_fmap.
  - simpl. apply list_eq_same_length with (n := length row); [by rewrite length_fmap|apply struct_cells_length|].
    intros i x y Hi. unfold struct_cells. rewrite list_lookup_fmap, lookup_seq_lt by done. simpl. intros [= <-].
    rewrite list_lookup_fmap. destruct (row !! i) as [r|] eqn:Er; [|done]. intros [= <-]. f_equal.
    assert (length r = length fs) as Hlen by (rewrite Forall_forall in Hr; by eapply Hr, list_elem_of_lookup_2).
    change (map arr_cells ?l) with (arr_cells <$> l).
    apply list_eq_same_length with (n := length fs); [by rewrite length_fmap|by rewrite !length_fmap, length_imap|].
    intros j v w Hj Hv Hw. rewrite !list_lookup_fmap, list_lookup_imap in Hv. rewrite list_lookup_fmap in Hw.
    destruct (fs !! j) as [f|]; [|done]. destruct (r !! j) as [z|] eqn:Ez; simplify_eq/=.
    by rewrite list_lookup_fmap, Er; simpl; rewrite Ez.
Qed.

Lemma arr_list_values_law a f vss :
  arr_valid a → arr_type a = ListType f → arr_cells a = Seq <$> vss →
  ∃ l, arr_list_values a = Some l
    ∧ Forall2 (λ vs x, arr_valid x ∧ arr_type x = data_type f ∧ arr_cells x = vs) vss l.
Proof.
  destruct a as [t vs|k' keys values|fs cs nulls n|fs rows]; simpl; try done.
  - intros Hv -> ->. destruct Hv as [Hl|Hl]; [done|]. apply fmap_nil_inv in Hl as ->. by exists [].
  - intros (Hne & Hu & Hr) [= <-] Hc. eexists; split; [done|].
    assert (vss = (λ row : list (list Z), (λ r, Tuple (Int <$> r)) <$> row) <$> rows) as ->.
    { clear -Hc. revert vss Hc. induction rows as [|row rows IH]; intros [|vs vss]; csimpl; try done.
      intros [= <- Hc]. f_equal. by apply IH. }
    rewrite Forall2_fmap. apply Forall_Forall2_diag. eapply Forall_impl; [exact Hr|].
    intros row Hrow. destruct (row_struct_spec fs row Hne Hu Hrow) as [Hv ->]. done.
Qed.

(** ** IPC files *)

Lemma bits_pos_bits p n : bits_pos (pos_bits p ++ replicate n 2) = p.
Proof. induction p as [p IH|p IH|]; simpl; [by rewrite IH..|by destruct n]. Qed.

Lemma model_root_footer p : model_root (model_footer p) = Some p.
Proof. unfold model_root, model_footer. rewrite bits_pos_bits. apply decode_encode. Qed.

Lemma model_footer_size p : zlen p.2 ≤ zlen (model_footer p).
Proof. unfold model_footer, zlen. rewrite length_app, length_replicate. lia. Qed.

Lemma model_ipc_file s l bytes :
  model_write s l = Some bytes → zlen bytes ≤ u64_max →
  @ipc_file model bytes l (zlen (model_footer (s, l))) (s, l) s l.
Proof.
  unfold model_write. intros Hw%(inj Some) Hsize. subst bytes. set (foot := model_footer (s, l)) in *. rewrite !zlen_app in Hsize.
  change (zlen [0; 0]%Z) with 2 in Hsize. assert (zlen (to_le_bytes 8 (zlen foot)) = 8) as H8.
  { unfold zlen. by rewrite to_le_bytes_length. }
  assert (length (foot ++ to_le_bytes 8 (zlen foot) ++ [0; 0]%Z) = (length foot + 10)%nat) as Hlen.
  { rewrite !length_app, to_le_bytes_length. done. }
  pose proof (zlen_nonneg foot). pose proof (model_footer_size (s, l)) as Hfs. simpl in Hfs. fold foot in Hfs.
  unfold u64_max in Hsize. split; rewrite ?Hlen, ?Nat.add_sub.
  - rewrite !zlen_app, H8. change (zlen [0; 0]%Z) with 2. lia.
  - cbn [read_footer_length model]. unfold model_footer_length. rewrite drop_app_length, take_app_length' by (by rewrite to_le_bytes_length).
    by rewrite from_to_le_bytes by lia.
  - rewrite !zlen_app, H8. change (zlen [0; 0]%Z) with 2. lia.
  - cbn [root_as_footer model]. replace (length foot - Z.to_nat (zlen foot))%nat with 0%nat by (unfold zlen; lia).
    unfold slice. rewrite Nat.sub_0_r, drop_0,  take_app_length. apply model_root_footer.
  - done.
  - constructor.
  - simpl. lia.
  - simpl. unfold model_blocks. apply Forall_lookup_2. intros i k. rewrite list_lookup_imap.
    destruct (l !! i) as [b|] eqn:Eb; [|done]. intros [= <-]. apply lookup_lt_Some in Eb.
    repeat split; simpl; try lia. unfold block_len. simpl. rewrite !zlen_app. unfold zlen in *. lia.
  - done.
  - simpl. unfold model_blocks. apply Forall2_same_length_lookup_2; [by rewrite length_imap|].
    intros i b k Hb. rewrite list_lookup_imap, Hb. intros [= <-]. exists b. simpl. unfold model_read. simpl.
    rewrite Nat2Z.id, Hb. split; [done|]. split_and!; try done. by apply Forall_Forall2_diag, Forall_true.
Qed.

Definition model_laws : @ArrowLaws model.
Proof.
  refine {| valid := arr_valid : @ArrayRef model → Prop |}; simpl.
  - intros a k v Ha Ht _. by apply arr_as_dictionary_law.
  - apply arr_dictionary_new_law.
  - apply arr_as_struct_law.
  - intros l children nulls n Hl HF Hn. apply arr_struct_try_new_law; try done.
    eapply Forall2_impl; [exact HF|]. by intros f c (? & ? & ? & _).
  - intros a l children nulls n Ha Ht Has. unfold arr_struct_column. rewrite Ht.
    destruct (field_index l n) as [i|]; simpl; [|done]. by rewrite Has.
  - intros t. split_and!; try done. by right.
  - apply arr_concat_law.
  - intros a k v b Ha Ht. unfold arr_cast. destruct (is_leaf v) eqn:E; [|done]. intros [= <-]. split_and!; try done. by left.
  - apply arr_dictionaries_length.
  - intros t vs Ht. split_and!; try done. left. by apply uint_leaf.
  - intros t a vs _ _ Ht Hc. by apply arr_uint_values_law.
  - intros t a vs _ _ Ht Hc. by apply arr_uint_options_law.
  - intros n l _. eexists; split; [done|]. split_and!; try done. by left.
  - intros a n l _ Ht Hc. unfold arr_fixed_values. rewrite Ht, Hc, <-list_fmap_compose. do 2 f_equal. apply list_fmap_id.
  - intros l rows Hl Hu Hr. done.
  - apply arr_list_values_law.
  - intros s l n Hl HF. eexists; split; [done|]. split_and!; try done. simpl. destruct l as [|c l]; [done|].
    apply Forall2_cons_inv_r in HF as (f & fs & (_ & _ & Hn & _) & _). done.
  - done.
  - intros s l _ _. by eexists.
  - intros s l bytes Hl Hw Hsize. exists (zlen (model_footer (s, l))), (s, l), s, l.
    split; [by apply model_ipc_file|]. intros k b'. unfold model_read. intros [= Hb].
    rewrite Forall_forall in Hl. by destruct (Hl b' (list_elem_of_lookup_2 _ _ _ Hb)).
Defined.

End ArrowModel.
