(* ===== verification/SegmentTypes.v ===== *)
(** * Vocabulary and file trailer of segments

    Model of [crates/quiver/src/segment/types.rs] and [error.rs]: the limits of a
    segment, stream metadata, manifest entries, and the footer and trailer at the
    end of a segment file with their encodings.  The segment writer runs its
    serialization on a blocking task that catches panics, so a computation ends
    in a value, an error or a panic ([outcome]). *)
From S2P Require Import Prelude Bytes Files.

Local Open Scope Z_scope.

Module SegmentTypes.

(** ** Constants *)

(** [b"QUIVER\0S"] *)
Definition SEGMENT_MAGIC : list Z := [81; 85; 73; 86; 69; 82; 0; 83].

Definition SEGMENT_VERSION : Z := 1.

Definition TRAILER_SIZE : nat := 16.

Definition FOOTER_V1_SIZE : nat := 34.

Definition MAX_STREAMS_PER_SEGMENT : Z := 100000.

Definition MAX_BUNDLES_PER_SEGMENT : Z := 10000000.

Definition MAX_SLOTS_PER_BUNDLE : Z := 64.

Definition MAX_DICTIONARIES_PER_STREAM : Z := 10000.

Definition MAX_CHUNKS_PER_STREAM : Z := 10000000.

(** ** Errors and outcomes *)

Inductive SegmentError :=
  | Io (e : IoError)
  | ArrowError
  | InvalidFormat (message : string)
  | ChecksumMismatch (expected actual : Z)
  | StreamNotFound (stream_id : Z)
  | SlotNotInBundle (slot_id bundle_index : Z)
  | Truncated (expected actual : Z)
  | AccumulatorFinalized
  | SchemaMismatch (stream_id : Z)
  | EmptySegment.

Inductive outcome (A : Type) :=
  | Return (a : A)
  | Raise (e : SegmentError)
  | Panicked.
Arguments Return {A} a.
Arguments Raise {A} e.
Arguments Panicked {A}.

(** The [?] operator; a panic unwinds. *)
Definition outcome_bind {A B} (m : outcome A) (k : A → outcome B) : outcome B :=
  match m with Return a => k a | Raise e => Raise e | Panicked => Panicked end.

Declare Scope outcome_scope.
Delimit Scope outcome_scope with outcome.

Notation "x ←? e ; k" := (outcome_bind e (λ x, k))
  (at level 20, e at level 100, k at level 200, only parsing) : outcome_scope.
Notation "' x ←? e ; k" := (outcome_bind e (λ x, k))
  (at level 20, x pattern, e at level 100, k at level 200, only parsing) : outcome_scope.
Local Open Scope outcome_scope.

(** [map_err(|e| SegmentError::Arrow { source: e })?] *)
Definition of_arrow {A} (o : option A) : outcome A :=
  match o with Some a => Return a | None => Raise ArrowError end.

(** An operation that panics on [None], such as indexing. *)
Definition of_panic {A} (o : option A) : outcome A :=
  match o with Some a => Return a | None => Panicked end.

(** [ok_or_else] *)
Definition of_option {A} (e : SegmentError) (o : option A) : outcome A :=
  match o with Some a => Return a | None => Raise e end.

(** [iter().map(f).collect::<Result<_, _>>()] *)
Fixpoint collect {A B} (f : A → outcome B) (l : list A) : outcome (list B) :=
  match l with
  | [] => Return []
  | x :: l => y ←? f x; ys ←? collect f l; Return (y :: ys)
  end.

(** A guard with an early return of [InvalidFormat]. *)
Definition require (ok : bool) (message : string) : outcome unit :=
  if ok then Return tt else Raise (InvalidFormat message).

(** ** Streams and chunks *)

(** [(SlotId, SchemaFingerprint)] *)
Definition StreamKey : Type := (Z * list Z)%type.

#[global] Instance StreamKey_eq_dec : EqDecision StreamKey.
Proof. unfold StreamKey. apply _. Defined.

#[global] Instance StreamKey_countable : Countable StreamKey.
Proof. unfold StreamKey. apply _. Defined.

Record StreamMetadata := mkMetadata {
  id : Z;
  meta_slot_id : Z;
  meta_fingerprint : list Z;
  byte_offset : Z;
  byte_length : Z;
  meta_row_count : Z;
  meta_chunk_count : Z;
}.

Record SlotChunkRef := mkChunkRef {
  ref_stream_id : Z;
  ref_chunk_index : Z;
}.

(** ** Manifest *)

Record ManifestEntry := mkManifestEntry {
  bundle_index : Z;
  exact_item_count : option Z;
  exact_byte_count : option Z;
  slot_refs : gmap Z SlotChunkRef;
}.

Definition new_with_counts (index : Z) (items bytes : option Z) : ManifestEntry :=
  mkManifestEntry index items bytes ∅.

Definition item_count (e : ManifestEntry) : Z := default 0 (exact_item_count e).

Definition add_slot (e : ManifestEntry) (slot stream chunk : Z) : ManifestEntry :=
  mkManifestEntry (bundle_index e) (exact_item_count e) (exact_byte_count e)
    (<[slot := mkChunkRef stream chunk]> (slot_refs e)).

Definition get_slot (e : ManifestEntry) (slot : Z) : option SlotChunkRef := slot_refs e !! slot.

Definition slot_count (e : ManifestEntry) : Z := Z.of_nat (size (slot_refs e)).

(** ** Footer and trailer *)

Record Footer := mkFooter {
  version : Z;
  stream_count : Z;
  bundle_count : Z;
  directory_offset : Z;
  directory_length : Z;
  manifest_offset : Z;
  manifest_length : Z;
}.

Definition footer_encode (f : Footer) : list Z :=
  let buf := replicate FOOTER_V1_SIZE 0 in
  let buf := copy_from_slice 0 (to_le_bytes 2 (version f)) buf in
  let buf := copy_from_slice 2 (to_le_bytes 4 (stream_count f)) buf in
  let buf := copy_from_slice 6 (to_le_bytes 4 (bundle_count f)) buf in
  let buf := copy_from_slice 10 (to_le_bytes 8 (directory_offset f)) buf in
  let buf := copy_from_slice 18 (to_le_bytes 4 (directory_length f)) buf in
  let buf := copy_from_slice 22 (to_le_bytes 8 (manifest_offset f)) buf in
  let buf := copy_from_slice 30 (to_le_bytes 4 (manifest_length f)) buf in
  buf.

Definition footer_decode (buf : list Z) : outcome Footer :=
  _ ←? require (2 <=? length buf)%nat "footer too short to contain version";
  let version := from_le_bytes (slice 0 2 buf) in
  _ ←? require (version =? SEGMENT_VERSION) "unsupported segment version";
  _ ←? require (FOOTER_V1_SIZE <=? length buf)%nat "footer too short for version 1";
  Return (mkFooter version (from_le_bytes (slice 2 6 buf)) (from_le_bytes (slice 6 10 buf))
            (from_le_bytes (slice 10 18 buf)) (from_le_bytes (slice 18 22 buf))
            (from_le_bytes (slice 22 30 buf)) (from_le_bytes (slice 30 34 buf))).

(** The trailer's only field, [footer_size]. *)
Definition trailer_encode (footer_size : Z) : list Z :=
  let buf := replicate TRAILER_SIZE 0 in
  let buf := copy_from_slice 0 (to_le_bytes 4 footer_size) buf in
  let buf := copy_from_slice 4 SEGMENT_MAGIC buf in
  buf.

(** The size of the footer and the stored checksum. *)
Definition trailer_decode (buf : list Z) : outcome (Z * Z) :=
  _ ←? require (bool_decide (slice 4 12 buf = SEGMENT_MAGIC)) "invalid segment magic bytes in trailer";
  Return (from_le_bytes (slice 0 4 buf), from_le_bytes (slice 12 16 buf)).

(** ** Lemmas *)

(** A computation that returns, step by step. *)
Lemma outcome_bind_Return {A B} (m : outcome A) (k : A → outcome B) b :
  outcome_bind m k = Return b ↔ ∃ a, m = Return a ∧ k a = Return b.
Proof. destruct m; simpl; naive_solver. Qed.

Lemma require_true ok message : ok = true → require ok message = Return tt.
Proof. by intros ->. Qed.

Lemma collect_Forall2 {A B} (f : A → outcome B) l ys :
  collect f l = Return ys ↔ Forall2 (λ x y, f x = Return y) l ys.
Proof.
  split.
  - revert ys. induction l as [|x l IH]; intros ys; simpl.
    + intros [= <-]. constructor.
    + intros (y & Hy & (ys' & Hys & [= <-])%outcome_bind_Return)%outcome_bind_Return.
      constructor; [done|by apply IH].
  - induction 1 as [|x y l ys Hy _ IH]; simpl; [done|]. rewrite Hy. simpl. by rewrite IH.
Qed.

(** If [f] returns on every element, with a result related to it, so does the
    collection. *)
Lemma collect_returns {A B} (f : A → outcome B) (R : A → B → Prop) l :
  Forall (λ x, ∃ y, f x = Return y ∧ R x y) l → ∃ ys, collect f l = Return ys ∧ Forall2 R l ys.
Proof.
  induction 1 as [|x l (y & Hy & HR) _ (ys & Hys & H)]; [by exists []|].
  exists (y :: ys). simpl. rewrite Hy. simpl. rewrite Hys. simpl. split; [done|by constructor].
Qed.

Lemma Forall_pick {A B} (R : A → B → Prop) l : Forall (λ x, ∃ y, R x y) l → ∃ k, Forall2 R l k.
Proof. induction 1 as [|x l [y Hy] _ [k Hk]]; [by exists []|]. exists (y :: k). by constructor. Qed.

Lemma collect_imap_returns {A B} (f : nat * A → outcome B) (R : nat → A → B → Prop) l :
  (∀ i x, l !! i = Some x → ∃ y, f (i, x) = Return y ∧ R i x y) →
  ∃ ys, collect f (imap pair l) = Return ys ∧ length ys = length l
    ∧ ∀ i x y, l !! i = Some x → ys !! i = Some y → R i x y.
Proof.
  intros Hf. destruct (collect_returns f (λ p y, R p.1 p.2 y) (imap pair l)) as (ys & Hys & HR).
  { apply Forall_lookup_2. intros j [i x] Hj. rewrite list_lookup_imap in Hj.
    destruct (l !! j) eqn:E; simplify_eq/=. by apply Hf. }
  exists ys. split; [done|]. split; [by rewrite <-(Forall2_length _ _ _ HR), length_imap|].
  intros i x y Hx Hy. apply (Forall2_lookup_lr _ _ _ i (i, x) y HR); [|done]. by rewrite list_lookup_imap, Hx.
Qed.

(** The fields of a footer fit their encodings. *)
Record footer_ok (f : Footer) : Prop := {
  footer_version : version f = SEGMENT_VERSION;
  footer_streams : u32_ok (stream_count f);
  footer_bundles : u32_ok (bundle_count f);
  footer_directory_offset : u64_ok (directory_offset f);
  footer_directory_length : u32_ok (directory_length f);
  footer_manifest_offset : u64_ok (manifest_offset f);
  footer_manifest_length : u32_ok (manifest_length f);
}.

Lemma footer_encode_length f : length (footer_encode f) = FOOTER_V1_SIZE.
Proof. reflexivity. Qed.

Lemma footer_decode_encode f : footer_ok f → footer_decode (footer_encode f) = Return f.
Proof.
  destruct f as [v sc bc dof dl mo ml]. intros [Hv Hsc Hbc Hdo Hdl Hmo Hml].
  cbn [version stream_count bundle_count directory_offset directory_length manifest_offset manifest_length] in *.
  subst v.
  assert (footer_decode (footer_encode (mkFooter SEGMENT_VERSION sc bc dof dl mo ml)) =
    Return (mkFooter 1 (from_le_bytes (to_le_bytes 4 sc)) (from_le_bytes (to_le_bytes 4 bc))
      (from_le_bytes (to_le_bytes 8 dof)) (from_le_bytes (to_le_bytes 4 dl))
      (from_le_bytes (to_le_bytes 8 mo)) (from_le_bytes (to_le_bytes 4 ml)))) as -> by reflexivity.
  by rewrite !from_to_le_bytes.
Qed.

Lemma trailer_decode_encode footer_size crc :
  u32_ok footer_size → u32_ok crc →
  trailer_decode (take (TRAILER_SIZE - 4) (trailer_encode footer_size) ++ to_le_bytes 4 crc) =
    Return (footer_size, crc).
Proof.
  intros Hs Hc.
  assert (trailer_decode (take (TRAILER_SIZE - 4) (trailer_encode footer_size) ++ to_le_bytes 4 crc) =
    Return (from_le_bytes (to_le_bytes 4 footer_size), from_le_bytes (to_le_bytes 4 crc))) as -> by reflexivity.
  by rewrite !from_to_le_bytes.
Qed.

End SegmentTypes.
