(* ===== verification/Dictionaries.v ===== *)
(** * Unification of dictionaries

    Model of the dictionary part of
    [crates/quiver/src/segment/stream_accumulator.rs].  An Arrow IPC file has one
    dictionary per field, so before the batches of a stream are written their
    dictionary columns, and the dictionary children of their struct columns, are
    rewritten to share one values array: the concatenation of the values of all
    batches, with keys shifted accordingly, widened if they no longer fit, or
    replaced by plain values if they would need more than sixteen bits. *)
From S2P Require Import Prelude Bytes Files Arrow ArrowModel SegmentTypes.
Export Arrow SegmentTypes.

Local Open Scope Z_scope.
Local Open Scope outcome_scope.

Module Dictionaries.

Section dictionaries.
Context `{HA : Arrow}.

(** ** Key types *)

(** [MAX_DICT_KEY_TYPE] *)
Definition MAX_DICT_KEY_TYPE : DataType := UInt16.

Definition key_type_capacity (t : DataType) : Z :=
  match t with
  | Int8 => 2 ^ 7
  | Int16 => 2 ^ 15
  | Int32 => 2 ^ 31
  | Int64 => 2 ^ 63
  | UInt8 => 2 ^ 8
  | UInt16 => 2 ^ 16
  | UInt32 => 2 ^ 32
  | UInt64 => usize_max
  | _ => 0
  end.

Definition exceeds_max_dict_key (t : DataType) : bool :=
  key_type_capacity MAX_DICT_KEY_TYPE <? key_type_capacity t.

Definition widening_chain (original : DataType) : list DataType :=
  match original with
  | Int8 | Int16 | Int32 | Int64 => [Int16; Int32; Int64]
  | _ => [UInt16; UInt32; UInt64]
  end.

Definition widen_key_type (original : DataType) (total_values : Z) : outcome DataType :=
  if total_values <=? key_type_capacity original then Return original
  else of_option (InvalidFormat "dictionary exceeds maximum addressable keys")
         (snd <$> list_find (λ c, (total_values <=? key_type_capacity c) = true) (widening_chain original)).

Definition field_has_dict (t : DataType) : bool :=
  match t with
  | Dictionary _ _ => true
  | Struct l => existsb (λ f, match data_type f with Dictionary _ _ => true | _ => false end) l
  | _ => false
  end.

Definition has_dict_columns (s : Schema) : bool := existsb (λ f, field_has_dict (data_type f)) (fields s).

(** ** Remapping of keys *)

(** [dispatch_dict_key!] with a downcast: the keys and values of the column. *)
Definition dispatch_dictionary (col : ArrayRef) (key : DataType) : outcome (list (option Z) * ArrayRef) :=
  if is_key_type key
  then of_option (InvalidFormat "expected DictionaryArray") (as_dictionary key col)
  else Raise (InvalidFormat "unsupported dictionary key type").

Definition dict_values (col : ArrayRef) (key : DataType) : outcome ArrayRef :=
  '(_, values) ←? dispatch_dictionary col key;
  Return values.

(** [as_usize] of a key, the debug assertion, and the checked addition. *)
Definition offset_key (offset : Z) (k : option Z) : outcome (option Z) :=
  match k with
  | None => Return None
  | Some v =>
      let wide := v mod 2 ^ 64 in
      if (wide <? usize_max / 2) && (wide + offset <=? u64_max) then Return (Some (wide + offset)) else Panicked
  end.

Definition extract_offset_keys (col : ArrayRef) (key : DataType) (offset : Z) : outcome (list (option Z)) :=
  '(keys, _) ←? dispatch_dictionary col key;
  collect (offset_key offset) keys.

(** [Native::usize_as], a cast that truncates. *)
Definition usize_as (t : DataType) (v : Z) : Z :=
  match t with
  | Int8 => (v + 2 ^ 7) mod 2 ^ 8 - 2 ^ 7
  | Int16 => (v + 2 ^ 15) mod 2 ^ 16 - 2 ^ 15
  | Int32 => (v + 2 ^ 31) mod 2 ^ 32 - 2 ^ 31
  | Int64 => (v + 2 ^ 63) mod 2 ^ 64 - 2 ^ 63
  | UInt8 => v mod 2 ^ 8
  | UInt16 => v mod 2 ^ 16
  | UInt32 => v mod 2 ^ 32
  | _ => v mod 2 ^ 64
  end.

Definition build_dict_array (keys : list (option Z)) (target : DataType) (unified : ArrayRef)
    : outcome ArrayRef :=
  if is_key_type target
  then of_panic (dictionary_new target ((λ k : option Z, usize_as target <$> k) <$> keys) unified)
  else Raise (InvalidFormat "unsupported target dictionary key type").

Definition remap_dict_keys (col : ArrayRef) (original target : DataType) (unified : ArrayRef) (offset : Z)
    : outcome ArrayRef :=
  keys ←? extract_offset_keys col original offset;
  build_dict_array keys target unified.

(** ** Columns *)

(** The first loop: values arrays, their offsets in the concatenation, total. *)
Fixpoint collect_values (key : DataType) (arrays : list ArrayRef) (total : Z)
    : outcome (list ArrayRef * list Z * Z) :=
  match arrays with
  | [] => Return ([], [], total)
  | a :: arrays =>
      values ←? dict_values a key;
      '(refs, offsets, total') ←? collect_values key arrays (total + array_len values);
      Return (values :: refs, total :: offsets, total')
  end.

(** The dictionary arrays of one field over all batches: the new arrays and their
    type.  [unify_dict_column] and the loop of [unify_struct_column] have this
    body. *)
Definition unify_arrays (key value : DataType) (arrays : list ArrayRef) : outcome (list ArrayRef * DataType) :=
  '(refs, offsets, total) ←? collect_values key arrays 0;
  unified ←? (if bool_decide (refs = []) || (total =? 0) then Return (new_empty_array value)
              else of_arrow (concat_arrays refs));
  effective ←? widen_key_type key total;
  if exceeds_max_dict_key effective then
    columns ←? collect (λ a, of_arrow (cast a value)) arrays;
    Return (columns, value)
  else
    columns ←? collect (λ '(a, offset), remap_dict_keys a key effective unified offset) (zip arrays offsets);
    Return (columns, Dictionary effective value).

(** [batch.column(i)] of every batch. *)
Definition batch_columns (i : nat) (batches : list RecordBatch) : outcome (list ArrayRef) :=
  collect (λ b, of_panic (columns b !! i)) batches.

Definition unify_dict_column (i : nat) (f : Field) (key value : DataType) (batches : list RecordBatch)
    : outcome (list ArrayRef * Field) :=
  arrays ←? batch_columns i batches;
  '(columns, t) ←? unify_arrays key value arrays;
  Return (columns, with_data_type f t).

(** One child of the struct arrays. *)
Definition unify_child (structs : list (list ArrayRef * option (list bool))) (i : nat) (f : Field)
    : outcome (list ArrayRef * Field) :=
  arrays ←? collect (λ s, of_panic (s.1 !! i)) structs;
  match data_type f with
  | Dictionary key value =>
      '(columns, t) ←? unify_arrays key value arrays;
      Return (columns, with_data_type f t)
  | _ => Return (arrays, f)
  end.

(** Row [i] of a table given by its columns. *)
Definition transpose_row {A} (table : list (list A)) (i : nat) : outcome (list A) :=
  collect (λ c, of_panic (c !! i)) table.

Definition unify_struct_column (i : nat) (f : Field) (struct_fields : list Field) (batches : list RecordBatch)
    : outcome (list ArrayRef * Field) :=
  arrays ←? batch_columns i batches;
  structs ←? collect (λ a, of_option (InvalidFormat "expected StructArray") (as_struct a)) arrays;
  children ←? collect (λ '(ci, cf), unify_child structs ci cf) (imap pair struct_fields);
  columns ←? collect (λ '(bi, s),
               row ←? transpose_row children.*1 bi;
               of_arrow (struct_try_new children.*2 row s.2)) (imap pair structs);
  Return (columns, with_data_type f (Struct children.*2)).

Definition unify_column (batches : list RecordBatch) (i : nat) (f : Field) : outcome (list ArrayRef * Field) :=
  match data_type f with
  | Dictionary key value => unify_dict_column i f key value batches
  | Struct l =>
      if existsb (λ c, field_has_dict (data_type c)) l
      then unify_struct_column i f l batches
      else columns ←? batch_columns i batches; Return (columns, f)
  | _ => columns ←? batch_columns i batches; Return (columns, f)
  end.

Definition unify_batch_dicts (s : Schema) (batches : list RecordBatch) : outcome (Schema * list RecordBatch) :=
  table ←? collect (λ '(i, f), unify_column batches i f) (imap pair (fields s));
  let new_schema := mkSchema table.*2 (schema_metadata s) in
  new_batches ←? collect (λ bi,
                   row ←? transpose_row table.*1 bi;
                   of_arrow (batch_try_new new_schema row)) (seq 0 (length batches));
  Return (new_schema, new_batches).

End dictionaries.

(** ** Lemmas *)

Section laws.
Context `{HL : ArrowLaws}.

Lemma usize_as_small t v : is_key_type t = true → 0 ≤ v < key_type_capacity t → usize_as t v = v.
Proof.
  intros Ht Hv. destruct t; try done; cbn [usize_as key_type_capacity] in *; unfold usize_max, u64_max in *;
    rewrite Z.mod_small; lia.
Qed.

(** The key type is kept while the values fit, and otherwise is the least wider
    one of the same signedness. *)
Lemma widen_key_type_spec key total :
  is_key_type key = true → 0 ≤ total ≤ 2 ^ 63 →
  ∃ k, widen_key_type key total = Return k ∧ is_key_type k = true ∧ total ≤ key_type_capacity k
    ∧ (k = key ∨ key_type_capacity key < total ∧
        ∀ k', k' ∈ widening_chain key → total ≤ key_type_capacity k' → key_type_capacity k ≤ key_type_capacity k').
Proof.
  intros Hk Ht. unfold widen_key_type. destruct (Z.leb_spec total (key_type_capacity key)) as [Hle|Hgt].
  { exists key. naive_solver. }
  destruct (list_find _ _) as [[i k]|] eqn:E; simpl.
  - apply list_find_Some in E as (Hi & Hle & Hfirst). apply Z.leb_le in Hle.
    exists k. split; [done|]. split; [destruct key; try done; destruct i as [|[|[|i]]]; try done; by injection Hi as <-|].
    split; [done|]. right. split; [done|]. intros k' [j Hj]%list_elem_of_lookup Hle'.
    destruct (decide (j < i)%nat) as [Hji|Hji]; [by apply (Hfirst j k' Hj) in Hji; rewrite Z.leb_le in Hji|].
    destruct key; try done; destruct i as [|[|[|i]]]; try done; injection Hi as <-;
      destruct j as [|[|[|j]]]; try done; try lia; injection Hj as <-;
      cbn; unfold usize_max, u64_max; lia.
  - exfalso. apply list_find_None in E. rewrite Forall_forall in E.
    destruct key; try done; cbn [widening_chain] in E.
    all: first [apply (E Int64); [do 2 right; left|]; apply Z.leb_le; cbn; lia
               |apply (E UInt64); [do 2 right; left|]; apply Z.leb_le; cbn; unfold usize_max, u64_max; lia].
Qed.

Lemma dispatch_dictionary_spec a key value :
  valid a → array_type a = Dictionary key value → is_key_type key = true →
  ∃ keys values, dispatch_dictionary a key = Return (keys, values) ∧ as_dictionary key a = Some (keys, values).
Proof.
  intros Ha Ht Hk. destruct (as_dictionary_law a key value Ha Ht Hk) as (keys & values & Hd & _).
  exists keys, values. unfold dispatch_dictionary. by rewrite Hk, Hd.
Qed.

Lemma offset_keys_spec n offset keys :
  0 ≤ offset → offset + Z.of_nat n < 2 ^ 63 → Forall (key_in_bounds n) keys →
  collect (offset_key offset) keys = Return ((λ k : option Z, Z.add offset <$> k) <$> keys).
Proof.
  intros Ho Hn Hk. apply collect_Forall2. rewrite Forall2_fmap_r. apply Forall_Forall2_diag.
  eapply Forall_impl; [done|]. intros [v|]; simpl; [|done]. intros Hv.
  rewrite Z.mod_small by lia. unfold usize_max, u64_max.
  rewrite (proj2 (Z.ltb_lt _ _)), (proj2 (Z.leb_le _ _)) by (try change ((2 ^ 64 - 1) / 2) with (2 ^ 63 - 1); lia).
  simpl. by rewrite Z.add_comm.
Qed.

Lemma dictionary_cells_shift keys pre vs post :
  Forall (key_in_bounds (length vs)) keys →
  dictionary_cells ((λ k : option Z, Z.add (zlen pre) <$> k) <$> keys) (pre ++ vs ++ post) = dictionary_cells keys vs.
Proof.
  intros Hk. unfold dictionary_cells. rewrite <-list_fmap_compose. apply list_fmap_ext.
  intros i [v|] Hv; simpl; [|done]. rewrite Forall_forall in Hk.
  apply list_elem_of_lookup_2, Hk in Hv. simpl in Hv. f_equal.
  rewrite lookup_app_r by (unfold zlen; lia). rewrite lookup_app_l by (unfold zlen; lia).
  f_equal. unfold zlen. lia.
Qed.

(** Remapping into the unified values keeps every row. *)
Lemma remap_dict_keys_spec a key value target unified pre values post keys :
  valid a → array_type a = Dictionary key value → is_key_type key = true → is_key_type target = true →
  as_dictionary key a = Some (keys, values) → valid unified → array_type unified = value →
  cells unified = pre ++ cells values ++ post → array_len unified ≤ key_type_capacity target →
  array_len unified < 2 ^ 63 →
  ∃ c, remap_dict_keys a key target unified (zlen pre) = Return c ∧ valid c
    ∧ array_type c = Dictionary target value ∧ cells c = cells a
    ∧ dictionaries c = unified :: dictionaries unified.
Proof.
  intros Ha Ht Hk Htg Hd Hu Htu Hcu Hcap Hlen. unfold array_len in *. rewrite Hcu, !zlen_app in *.
  pose proof (zlen_nonneg pre). pose proof (zlen_nonneg post).
  destruct (as_dictionary_law a key value Ha Ht Hk) as (keys' & values' & Hd' & Hv & Htv & Hkeys & Hcells & _).
  rewrite Hd in Hd'. injection Hd' as <- <-. unfold zlen in Hcap, Hlen.
  unfold remap_dict_keys, extract_offset_keys, dispatch_dictionary. rewrite Hk, Hd. cbn [of_option outcome_bind].
  rewrite (offset_keys_spec (length (cells values))) by (done || unfold zlen in *; lia). cbn [outcome_bind].
  unfold build_dict_array. rewrite Htg.
  set (keys' := (λ k : option Z, Z.add (zlen pre) <$> k) <$> keys).
  assert ((λ k : option Z, usize_as target <$> k) <$> keys' = keys') as ->.
  { unfold keys'. rewrite <-list_fmap_compose. apply list_fmap_ext. intros i [v|] Hi; [|done]. simpl. f_equal.
    rewrite Forall_forall in Hkeys. apply list_elem_of_lookup_2, Hkeys in Hi. simpl in Hi.
    apply usize_as_small; [done|]. unfold zlen. lia. }
  assert (Forall (key_in_bounds (length (cells unified))) keys') as Hkeys'.
  { unfold keys'. rewrite Forall_fmap. eapply Forall_impl; [exact Hkeys|]. intros [v|]; simpl; [|done].
    rewrite Hcu, !length_app. unfold zlen. lia. }
  destruct (dictionary_new_law target keys' unified Hu Htg Hkeys') as (c & Hc & Hvc & Htc & Hdc).
  exists c. rewrite Hc. split_and!; [done..|by rewrite Htc, Htu| |].
  - destruct (as_dictionary_law c target _ Hvc Htc Htg) as (k1 & v1 & He & _ & _ & _ & Hc1 & _).
    rewrite Hdc in He. injection He as <- <-. rewrite Hc1, Hcells, Hcu. by apply dictionary_cells_shift.
  - destruct (as_dictionary_law c target _ Hvc Htc Htg) as (k1 & v1 & He & _ & _ & _ & _ & Hdic).
    rewrite Hdc in He. by injection He as <- <-.
Qed.

(** The values arrays of dictionary arrays. *)
Definition values_of (key : DataType) (a r : ArrayRef) : Prop := ∃ keys, as_dictionary key a = Some (keys, r).

(** Dictionary arrays of one field that can be unified: the concatenation of
    their values is within the limits of Arrow, and so is each array without its
    encoding. *)
Record unifiable (key value : DataType) (arrays : list ArrayRef) : Prop := {
  unify_key : is_key_type key = true;
  unify_value : dictionary_count value = 0%nat;
  unify_valid : Forall (λ a, valid a ∧ array_type a = Dictionary key value) arrays;
  unify_concat refs :
    Forall2 (values_of key) arrays refs → zlen (concat (cells <$> refs)) < 2 ^ 63 ∧ is_Some (concat_arrays refs);
  unify_cast : Forall (λ a, is_Some (cast a value)) arrays;
}.

(** What unification keeps of an array. *)
Definition rewritten (t : DataType) (a c : ArrayRef) : Prop :=
  valid c ∧ array_type c = t ∧ cells c = cells a.

Fixpoint offsets_from (total : Z) (refs : list ArrayRef) : list Z :=
  match refs with
  | [] => []
  | r :: refs => total :: offsets_from (total + array_len r) refs
  end.

Lemma collect_values_spec key arrays refs total :
  is_key_type key = true → Forall2 (values_of key) arrays refs →
  collect_values key arrays total = Return (refs, offsets_from total refs, total + zlen (concat (cells <$> refs))).
Proof.
  intros Hk HF. revert total. induction HF as [|a r arrays refs [keys Hr] _ IH]; intros total; simpl.
  - by rewrite Z.add_0_r.
  - unfold dict_values, dispatch_dictionary. rewrite Hk, Hr. simpl. rewrite IH. simpl.
    rewrite zlen_app. by rewrite Z.add_assoc.
Qed.

Lemma values_exist key value arrays :
  is_key_type key = true → Forall (λ a, valid a ∧ array_type a = Dictionary key value) arrays →
  ∃ refs, Forall2 (values_of key) arrays refs ∧ Forall (λ r, valid r ∧ array_type r = value) refs.
Proof.
  intros Hk. induction 1 as [|a arrays [Ha Ht] _ (refs & Hrefs & Hv)]; [by exists []|].
  destruct (as_dictionary_law a key value Ha Ht Hk) as (keys & values & Hd & Hval & Htv & _).
  exists (values :: refs). split; constructor; try done. by exists keys.
Qed.

Lemma remap_all_spec key value target unified pre arrays refs :
  is_key_type key = true → is_key_type target = true → valid unified → array_type unified = value →
  array_len unified ≤ key_type_capacity target → array_len unified < 2 ^ 63 →
  Forall (λ a, valid a ∧ array_type a = Dictionary key value) arrays →
  Forall2 (values_of key) arrays refs → cells unified = pre ++ concat (cells <$> refs) →
  ∃ cols, collect (λ '(a, offset), remap_dict_keys a key target unified offset)
      (zip arrays (offsets_from (zlen pre) refs)) = Return cols
    ∧ Forall2 (rewritten (Dictionary target value)) arrays cols
    ∧ Forall (λ c, dictionaries c = unified :: dictionaries unified) cols.
Proof.
  intros Hk Htg Hu Htu Hcap Hlen HF Hrefs. revert pre.
  induction Hrefs as [|a r arrays refs [keys Hr] _ IH]; intros pre Hcu; [by exists []|].
  apply Forall_cons in HF as [[Ha Ht] HF]. simpl in Hcu.
  destruct (remap_dict_keys_spec a key value target unified pre r (concat (cells <$> refs)) keys)
    as (c & Hc & Hvc & Htc & Hcc & Hdc); [done..|].
  destruct (IH HF (pre ++ cells r)) as (cols & Hcols & HR & HD); [by rewrite Hcu, app_assoc|].
  exists (c :: cols). simpl. rewrite Hc. simpl. unfold array_len. rewrite <-zlen_app, Hcols.
  split_and!; [done|by repeat constructor|by constructor].
Qed.

(** A dictionary small enough for readers, or no dictionary. *)
Definition key_supported (t : DataType) : Prop :=
  match t with Dictionary k _ => key_type_capacity k ≤ key_type_capacity MAX_DICT_KEY_TYPE | _ => True end.

(** Key types that readers support, in the places that are rewritten. *)
Definition type_supported (t : DataType) : Prop :=
  match t with Struct l => Forall (λ f, key_supported (data_type f)) l | _ => key_supported t end.

Lemma plain_supported t : dictionary_count t = 0%nat → key_supported t ∧ type_supported t.
Proof.
  intros Hd. split; [by destruct t|]. destruct t as [| | | | | | | |?|?|l|?|]; try done. simpl in Hd.
  apply Forall_forall. intros g Hg. unfold key_supported. destruct (data_type g) eqn:E; try done.
  exfalso. apply list_elem_of_split in Hg as (l1 & l2 & ->).
  rewrite sum_list_with_app in Hd. simpl in Hd. rewrite E in Hd. simpl in Hd. lia.
Qed.

(** Unified arrays keep their rows and share their dictionary. *)
Lemma unify_arrays_spec key value arrays :
  unifiable key value arrays →
  ∃ cols t dicts, unify_arrays key value arrays = Return (cols, t) ∧ Forall2 (rewritten t) arrays cols
    ∧ Forall (λ c, dictionaries c = dicts) cols ∧ key_supported t ∧ type_supported t
    ∧ (dictionary_count t ≤ 1)%nat.
Proof.
  intros [Hk Hvt HF Hconcat Hcast]. destruct (values_exist key value arrays Hk HF) as (refs & Hrefs & Hvr).
  destruct (Hconcat refs Hrefs) as [Hsize [u Hu]]. unfold unify_arrays.
  rewrite (collect_values_spec key arrays refs) by done. cbn [outcome_bind].
  set (total := 0 + zlen (concat (cells <$> refs))). pose proof (zlen_nonneg (concat (cells <$> refs))).
  destruct (widen_key_type_spec key total Hk ltac:(lia)) as (k & -> & Hkk & Hcap & _).
  assert (∃ unified, (if bool_decide (refs = []) || (total =? 0) then Return (new_empty_array value)
      else of_arrow (concat_arrays refs)) = Return unified ∧ valid unified ∧ array_type unified = value
      ∧ cells unified = concat (cells <$> refs)) as (unified & -> & Hun & Htun & Hcun).
  { destruct (concat_arrays_law refs value u Hvr Hu) as (Hvu & Htu & Hcu).
    destruct (new_empty_array_law value) as (Hve & Hte & Hce).
    destruct (bool_decide (refs = []) || (total =? 0)) eqn:E; [|by exists u; rewrite Hu].
    eexists; split; [done|]. split_and!; [done..|]. rewrite Hce. symmetry. apply nil_length_inv.
    apply orb_true_iff in E as [E%bool_decide_eq_true|E%Z.eqb_eq]; [by rewrite E|]. unfold total, zlen in E. lia. }
  cbn [outcome_bind]. destruct (exceeds_max_dict_key k) eqn:Ex.
  - destruct (collect_returns (λ a, of_arrow (cast a value)) (λ a c, rewritten value a c ∧ dictionaries c = []) arrays)
      as (cols & -> & HR).
    { rewrite Forall_forall in *. intros a Ha. destruct (Hcast a Ha) as [c Hc], (HF a Ha) as [Hva Hta].
      destruct (cast_law a key value c Hva Hta Hc) as (Hvc & Htc & Hcc). exists c. rewrite Hc.
      split; [done|]. split; [done|]. apply nil_length_inv. by rewrite (dictionaries_law c Hvc), Htc. }
    exists cols, value, []. split; [done|]. split_and!.
    + by eapply Forall2_impl; [exact HR|intros ?? []].
    + eapply Forall2_Forall_r; [exact HR|]. apply Forall_true. by intros ?? [].
    + by apply plain_supported.
    + by apply plain_supported.
    + lia.
  - destruct (remap_all_spec key value k unified [] arrays refs) as (cols & Hcols & HR & HD); try done.
    { unfold array_len. rewrite Hcun. unfold total in *. lia. }
    { unfold array_len. by rewrite Hcun. }
    change (zlen []) with 0 in Hcols. rewrite Hcols. exists cols, (Dictionary k value), (unified :: dictionaries unified).
    split_and!; [done..| | |]; simpl; [apply Z.ltb_ge, Ex..|lia].
Qed.

(** ** Struct columns *)

Lemma with_same_type (f : Field) : with_data_type f (data_type f) = f.
Proof. by destruct f. Qed.

Lemma transpose_row_spec {A} (table : list (list A)) i :
  Forall (λ c, (i < length c)%nat) table →
  ∃ row, transpose_row table i = Return row ∧ Forall2 (λ c x, c !! i = Some x) table row.
Proof.
  intros HF. apply collect_returns. eapply Forall_impl; [exact HF|]. intros c Hc.
  destruct (lookup_lt_is_Some_2 c i Hc) as [x Hx]. exists x. by rewrite Hx.
Qed.

(** The row of one batch in a table of rewritten columns. *)
Lemma table_row {A B} (table : list (list A * B)) n i :
  (∀ ci r, table !! ci = Some r → length r.1 = n) → (i < n)%nat →
  ∃ row, transpose_row table.*1 i = Return row ∧ length row = length table
    ∧ ∀ ci r x, table !! ci = Some r → row !! ci = Some x → r.1 !! i = Some x.
Proof.
  intros Hlen Hi. destruct (transpose_row_spec table.*1 i) as (row & Hrow & HR).
  { apply Forall_fmap, Forall_lookup_2. intros ci r Hr. simpl. by rewrite (Hlen ci r Hr). }
  exists row. split; [done|]. split; [by rewrite <-(Forall2_length _ _ _ HR), length_fmap|].
  intros ci r x Hr Hx. eapply (Forall2_lookup_lr _ _ _ ci r.1 x HR); [|done]. by rewrite list_lookup_fmap, Hr.
Qed.

(** The arrays of one field over all batches can be rewritten; only the direct
    children of a struct may be dictionaries besides the columns themselves. *)
Definition child_ok (f : Field) (arrays : list ArrayRef) : Prop :=
  match data_type f with
  | Dictionary key value => unifiable key value arrays
  | t => dictionary_count t = 0%nat
  end.

Record struct_ok (l : list Field) (structs : list (list ArrayRef * option (list bool))) : Prop := {
  struct_children ci f arrays :
    l !! ci = Some f → Forall2 (λ s c, s.1 !! ci = Some c) structs arrays → child_ok f arrays;
  struct_nulls ci f s c i :
    l !! ci = Some f → nullable f = false → s ∈ structs → s.1 !! ci = Some c →
    cells c !! i = Some Null → masked s.2 i = true;
}.

Definition column_ok (f : Field) (arrays : list ArrayRef) : Prop :=
  (nullable f = false → Forall (λ a, Null ∉ cells a) arrays) ∧
  match data_type f with
  | Dictionary key value => unifiable key value arrays
  | Struct l => ∀ structs, Forall2 (λ a s, as_struct a = Some s) arrays structs → struct_ok l structs
  | t => dictionary_count t = 0%nat
  end.

(** The result of rewriting the arrays of a field: the same rows, one type, one
    set of dictionaries. *)
Definition field_rewritten (f : Field) (arrays : list ArrayRef) (r : list ArrayRef * Field) : Prop :=
  ∃ t dicts, r.2 = with_data_type f t ∧ Forall2 (rewritten t) arrays r.1
    ∧ Forall (λ c, dictionaries c = dicts) r.1 ∧ type_supported t
    ∧ (dictionary_count t ≤ dictionary_count (data_type f))%nat.

Lemma unchanged_rewritten f arrays :
  Forall (λ a, valid a ∧ array_type a = data_type f) arrays → dictionary_count (data_type f) = 0%nat →
  field_rewritten f arrays (arrays, f).
Proof.
  intros HF Hd. exists (data_type f), []. rewrite with_same_type. split; [done|]. split_and!.
  - apply Forall_Forall2_diag. eapply Forall_impl; [exact HF|]. by intros a [??].
  - eapply Forall_impl; [exact HF|]. intros a [Ha Ht]. apply nil_length_inv. by rewrite (dictionaries_law a Ha), Ht.
  - by apply plain_supported.
  - done.
Qed.

Lemma unify_child_spec structs ci f arrays :
  Forall2 (λ s c, s.1 !! ci = Some c) structs arrays →
  Forall (λ a, valid a ∧ array_type a = data_type f) arrays → child_ok f arrays →
  ∃ r, unify_child structs ci f = Return r ∧ field_rewritten f arrays r ∧ key_supported (data_type r.2).
Proof.
  intros Hcs HF Hok. unfold unify_child.
  assert (collect (λ s : list ArrayRef * option (list bool), of_panic (s.1 !! ci)) structs = Return arrays) as ->.
  { apply collect_Forall2. eapply Forall2_impl; [exact Hcs|]. intros s c Hc. by rewrite Hc. }
  cbn [outcome_bind]. unfold child_ok in Hok. destruct (data_type f) as [| | | | | | | |?|k v|l|?|] eqn:Ht.
  10: { destruct (unify_arrays_spec k v arrays Hok) as (cols & t & dicts & -> & HR & HD & Hs & Hs' & Hn). simpl.
        eexists; split; [done|]. split; [|done]. exists t, dicts. rewrite Ht. simpl. split_and!; try done. lia. }
  all: exists (arrays, f); split; [done|]; split; [|simpl; by rewrite Ht]; apply unchanged_rewritten; by rewrite Ht.
Qed.

Lemma batch_columns_spec i batches arrays :
  Forall2 (λ b a, columns b !! i = Some a) batches arrays → batch_columns i batches = Return arrays.
Proof. intros HF. apply collect_Forall2. eapply Forall2_impl; [exact HF|]. intros b a Ha. by rewrite Ha. Qed.

(** A struct array by its children. *)
Definition struct_of (l : list Field) (a : ArrayRef) (s : list ArrayRef * option (list bool)) : Prop :=
  as_struct a = Some s
  ∧ Forall2 (λ f c, valid c ∧ array_type c = data_type f ∧ array_len c = array_len a) l s.1
  ∧ from_option (λ m, length m = length (cells a)) True s.2
  ∧ cells a = struct_cells (length (cells a)) s.2 (cells <$> s.1).

Lemma struct_of_valid l a : valid a → array_type a = Struct l → ∃ s, struct_of l a s.
Proof.
  intros Ha Ht. destruct (as_struct_law a l Ha Ht) as (cs & nulls & Hs & HF & Hn & Hc & _). by exists (cs, nulls).
Qed.

(** The children of the rewritten struct arrays, one entry per field. *)
Definition child_rewritten (structs : list (list ArrayRef * option (list bool))) (ci : nat) (f : Field)
    (r : list ArrayRef * Field) : Prop :=
  ∃ arrays, Forall2 (λ s c, s.1 !! ci = Some c) structs arrays ∧ field_rewritten f arrays r
    ∧ key_supported (data_type r.2).

Lemma unify_children_spec l arrays structs :
  Forall2 (struct_of l) arrays structs → struct_ok l structs →
  ∃ children, collect (λ '(ci, cf), unify_child structs ci cf) (imap pair l) = Return children
    ∧ length children = length l
    ∧ ∀ ci f r, l !! ci = Some f → children !! ci = Some r → child_rewritten structs ci f r.
Proof.
  intros Hst Hok. apply collect_imap_returns. intros ci f Hf.
  destruct (Forall_pick (λ (s : list ArrayRef * option (list bool)) c,
    s.1 !! ci = Some c ∧ valid c ∧ array_type c = data_type f) structs) as [cs Hcs].
  { eapply Forall2_Forall_r; [exact Hst|]. apply Forall_true. intros a s (_ & HF & _).
    destruct (Forall2_lookup_l _ _ _ ci f HF Hf) as (c & Hc & Hv & Ht & _). by exists c. }
  assert (Forall2 (λ s c, s.1 !! ci = Some c) structs cs) as Hlk.
  { eapply Forall2_impl; [exact Hcs|]. by intros s c (? & _). }
  destruct (unify_child_spec structs ci f cs) as (r & Hr & HR & Hs); [done| |by eapply (struct_children _ _ Hok)|].
  { eapply Forall2_Forall_r; [exact Hcs|]. apply Forall_true. by intros s c (_ & ? & ?). }
  exists r. split; [done|]. by exists cs.
Qed.

(** The dictionaries all arrays of a rewritten child have. *)
Definition shared_dictionaries (r : list ArrayRef * Field) : list ArrayRef :=
  default [] (dictionaries <$> head r.1).

(** One rewritten child in one batch. *)
Lemma child_at structs ci f r bi s c :
  child_rewritten structs ci f r → structs !! bi = Some s → r.1 !! bi = Some c →
  ∃ x t, s.1 !! ci = Some x ∧ r.2 = with_data_type f t ∧ rewritten t x c
    ∧ dictionaries c = shared_dictionaries r ∧ key_supported t.
Proof.
  intros (arrays & Hlk & (t & dicts & Hr2 & HR & HD & _ & _) & Hs) Hbi Hc.
  destruct (Forall2_lookup_l _ _ _ bi s Hlk Hbi) as (x & Hx & Hsx).
  exists x, t. split; [done|]. split; [done|]. split; [by eapply (Forall2_lookup_lr _ _ _ bi _ _ HR)|].
  split; [|by rewrite Hr2 in Hs]. unfold shared_dictionaries. destruct r as [[|c0 cols] f']; simpl in *; [done|].
  rewrite Forall_forall in HD. rewrite (HD c) by (by eapply list_elem_of_lookup_2). rewrite (HD c0) by left. done.
Qed.

Lemma child_lengths structs ci f r : child_rewritten structs ci f r → length r.1 = length structs.
Proof.
  intros (arrays & Hlk & (t & _ & _ & HR & _) & _).
  by rewrite <-(Forall2_length _ _ _ HR), (Forall2_length _ _ _ Hlk).
Qed.

(** A rebuilt struct array has the rows of the original. *)
Lemma rebuild_struct l structs children bi a s :
  l ≠ [] → length children = length l →
  (∀ ci f r, l !! ci = Some f → children !! ci = Some r → child_rewritten structs ci f r) →
  struct_ok l structs → structs !! bi = Some s → struct_of l a s →
  ∃ c, (row ←? transpose_row children.*1 bi; of_arrow (struct_try_new children.*2 row s.2)) = Return c
    ∧ rewritten (Struct children.*2) a c ∧ dictionaries c = concat (shared_dictionaries <$> children).
Proof.
  intros Hl Hlen Hch Hok Hbi (Has & HF & Hnulls & Hcells).
  destruct (table_row children (length structs) bi) as (row & -> & Hrl & Hrow); [|by eapply lookup_lt_Some|].
  { intros ci r Hr. destruct (lookup_lt_is_Some_2 l ci) as [f Hf]; [rewrite <-Hlen; by eapply lookup_lt_Some|].
    by eapply child_lengths, Hch. }
  cbn [outcome_bind]. rewrite Hlen in Hrl.
  assert (Hfacts : ∀ ci r c, children !! ci = Some r → row !! ci = Some c → ∃ f x t,
    l !! ci = Some f ∧ s.1 !! ci = Some x ∧ r.2 = with_data_type f t ∧ rewritten t x c
    ∧ dictionaries c = shared_dictionaries r ∧ length (cells c) = length (cells a)).
  { intros ci r c Hr Hc. destruct (lookup_lt_is_Some_2 l ci) as [f Hf]; [rewrite <-Hlen; by eapply lookup_lt_Some|].
    destruct (child_at structs ci f r bi s c) as (x & t & Hx & Hr2 & HR & HD & _); [by eauto..|].
    exists f, x, t. split_and!; try done. destruct HR as (_ & _ & ->).
    destruct (Forall2_lookup_lr _ _ _ ci f x HF Hf Hx) as (_ & _ & Hal). unfold array_len, zlen in Hal. lia. }
  assert (cells <$> row = cells <$> s.1) as Hsame.
  { apply list_eq_same_length with (n := length l); rewrite ?length_fmap; [|by rewrite Hrl|].
    - symmetry. by eapply Forall2_length.
    - intros ci x y Hci Hx Hy. rewrite list_lookup_fmap in Hx, Hy.
      destruct (row !! ci) as [c|] eqn:Ec, (s.1 !! ci) as [c'|] eqn:Ec'; simplify_eq/=.
      destruct (lookup_lt_is_Some_2 children ci ltac:(lia)) as [r Hr].
      destruct (Hfacts ci r c Hr Ec) as (f & x & t & _ & Hx & _ & (_ & _ & ->) & _). congruence. }
  destruct (struct_try_new_law children.*2 row s.2 (length (cells a))) as (c & Hc & Hvc & Htc & Hlc & Hsc); [| |done|].
  { destruct children; [|done]. by destruct l. }
  { apply Forall2_same_length_lookup_2; [by rewrite length_fmap, Hlen, Hrl|]. intros ci f' c Hf' Hc.
    rewrite list_lookup_fmap in Hf'. destruct (children !! ci) as [r|] eqn:Er; simplify_eq/=.
    destruct (Hfacts ci r c Er Hc) as (f & x & t & Hf & Hx & -> & (Hv & Ht & Hcx) & _ & Hlc). split_and!; try done.
    intros Hnn i. rewrite Hcx. apply (struct_nulls _ _ Hok ci f s x i Hf Hnn); [by eapply list_elem_of_lookup_2|done]. }
  exists c. rewrite Hc. split; [done|]. destruct (as_struct_law c _ Hvc Htc) as (cs & nulls & Hs' & _ & _ & Hcc & Hd).
  rewrite Hsc in Hs'. injection Hs' as <- <-. split.
  - split_and!; [done..|]. by rewrite Hcc, Hlc, Hsame, <-Hcells.
  - rewrite Hd. f_equal. apply list_eq_same_length with (n := length l); rewrite ?length_fmap; [done|done|].
    intros ci d d' Hci Hd1 Hd2. rewrite list_lookup_fmap in Hd1. rewrite list_lookup_fmap in Hd2.
    destruct (row !! ci) as [x|] eqn:Ex, (children !! ci) as [r|] eqn:Er; simplify_eq/=.
    by destruct (Hfacts ci r x Er Ex) as (? & ? & ? & _ & _ & _ & _ & ? & _).
Qed.

Lemma unify_struct_column_spec i f l batches arrays :
  data_type f = Struct l → l ≠ [] → Forall2 (λ b a, columns b !! i = Some a) batches arrays →
  Forall (λ a, valid a ∧ array_type a = Struct l) arrays →
  (∀ structs, Forall2 (λ a s, as_struct a = Some s) arrays structs → struct_ok l structs) →
  ∃ r, unify_struct_column i f l batches = Return r ∧ field_rewritten f arrays r.
Proof.
  intros Ht Hl Hcols HF Hok. unfold unify_struct_column. rewrite (batch_columns_spec i batches arrays Hcols).
  cbn [outcome_bind].
  destruct (collect_returns (λ a, of_option (InvalidFormat "expected StructArray") (as_struct a)) (struct_of l) arrays)
    as (structs & -> & Hst).
  { eapply Forall_impl; [exact HF|]. intros a [Ha Hta]. destruct (struct_of_valid l a Ha Hta) as [s Hs].
    exists s. destruct Hs as (Has & Hs). rewrite Has. done. }
  cbn [outcome_bind]. assert (struct_ok l structs) as Hsok.
  { apply Hok. eapply Forall2_impl; [exact Hst|]. by intros a s (? & _). }
  destruct (unify_children_spec l arrays structs Hst Hsok) as (children & -> & Hlen & Hch). cbn [outcome_bind].
  destruct (collect_imap_returns (λ '(bi, s), row ←? transpose_row children.*1 bi;
      of_arrow (struct_try_new children.*2 row s.2))
    (λ bi _ c, ∀ a, arrays !! bi = Some a → rewritten (Struct children.*2) a c
      ∧ dictionaries c = concat (shared_dictionaries <$> children)) structs) as (cols & -> & Hcl & HR).
  { intros bi s Hs. destruct (Forall2_lookup_r _ _ _ bi s Hst Hs) as (a & Ha & Has).
    destruct (rebuild_struct l structs children bi a s) as (c & Hc & HRc); [done..|].
    exists c. split; [done|]. intros a' Ha'. by simplify_eq. }
  eexists; split; [done|]. exists (Struct children.*2), (concat (shared_dictionaries <$> children)).
  pose proof (Forall2_length _ _ _ Hst) as Hsl. split; [done|].
  assert (∀ bi a c, arrays !! bi = Some a → cols !! bi = Some c → rewritten (Struct children.*2) a c
    ∧ dictionaries c = concat (shared_dictionaries <$> children)) as Hall.
  { intros bi a c Ha Hc. destruct (lookup_lt_is_Some_2 structs bi) as [s Hs].
    { rewrite <-Hsl. by eapply lookup_lt_Some. } by eapply HR. }
  simpl. split_and!.
  - apply Forall2_same_length_lookup_2; [congruence|]. intros bi a c Ha Hc. by eapply Hall.
  - apply Forall_lookup_2. intros bi c Hc. destruct (lookup_lt_is_Some_2 arrays bi) as [a Ha].
    { rewrite Hsl, <-Hcl. by eapply lookup_lt_Some. } by eapply Hall.
  - apply Forall_fmap, Forall_lookup_2. intros ci r Hr.
    destruct (lookup_lt_is_Some_2 l ci) as [g Hg]; [rewrite <-Hlen; by eapply lookup_lt_Some|].
    by destruct (Hch ci g r Hg Hr) as (? & _ & _ & ?).
  - rewrite Ht. simpl. clear -Hlen Hch.
    assert (Forall2 (λ r g, (dictionary_count (data_type r.2) ≤ dictionary_count (data_type g))%nat) children l) as HF.
    { apply Forall2_same_length_lookup_2; [done|]. intros ci r g Hr Hg.
      destruct (Hch ci g r Hg Hr) as (? & _ & (t & ? & -> & _ & _ & _ & ?) & _). done. }
    clear -HF. induction HF; csimpl; lia.
Qed.

Lemma no_dict_children l : field_has_dict (Struct l) = false →
  Forall (λ f, match data_type f with Dictionary _ _ => False | _ => True end) l.
Proof.
  simpl. induction l as [|f l IH]; simpl; [done|]. intros [Hf Hl]%orb_false_iff. constructor; [|by apply IH].
  by destruct (data_type f).
Qed.

(** A child that is no dictionary and contains none in turn. *)
Lemma no_dict_struct (l : list Field) :
  existsb (λ f : Field, field_has_dict (data_type f)) l = false → field_has_dict (Struct l) = false.
Proof.
  simpl. induction l as [|f l IH]; simpl; [done|]. intros [Hf Hl]%orb_false_iff. rewrite IH by done.
  by destruct (data_type f).
Qed.

(** A struct without dictionary children has no dictionaries at all. *)
Lemma plain_struct l arrays structs :
  Forall2 (struct_of l) arrays structs → struct_ok l structs → arrays ≠ [] →
  field_has_dict (Struct l) = false → dictionary_count (Struct l) = 0%nat.
Proof.
  intros Hst Hok Hne Hd. apply no_dict_children in Hd. simpl.
  assert (Forall (λ f, dictionary_count (data_type f) = 0%nat) l) as Hz.
  { apply Forall_lookup_2. intros ci f Hf.
    destruct (Forall_pick (λ (s : list ArrayRef * option (list bool)) c, s.1 !! ci = Some c) structs) as [cs Hcs].
    { eapply Forall2_Forall_r; [exact Hst|]. apply Forall_true. intros a s (_ & HF & _).
      destruct (Forall2_lookup_l _ _ _ ci f HF Hf) as (c & Hc & _). by exists c. }
    pose proof (struct_children _ _ Hok ci f cs Hf Hcs) as Hc. unfold child_ok in Hc.
    rewrite Forall_forall in Hd. specialize (Hd f (list_elem_of_lookup_2 _ _ _ Hf)). by destruct (data_type f). }
  clear -Hz. induction Hz as [|f l Hf _ IH]; simpl; lia.
Qed.

Lemma unify_column_spec i f batches arrays :
  arrays ≠ [] → Forall2 (λ b a, columns b !! i = Some a) batches arrays →
  Forall (λ a, valid a ∧ array_type a = data_type f) arrays → column_ok f arrays →
  ∃ r, unify_column batches i f = Return r ∧ field_rewritten f arrays r.
Proof.
  intros Hne Hcols HF [_ Hok]. unfold unify_column.
  assert (Hplain : dictionary_count (data_type f) = 0%nat → ∃ r,
    (columns ←? batch_columns i batches; Return (columns, f)) = Return r ∧ field_rewritten f arrays r).
  { intros Hd. rewrite (batch_columns_spec i batches arrays Hcols). exists (arrays, f).
    split; [done|]. by apply unchanged_rewritten. }
  destruct (data_type f) as [| | | | | | | |?|k v|l|?|] eqn:Ht; try by apply Hplain.
  - unfold unify_dict_column. rewrite (batch_columns_spec i batches arrays Hcols). cbn [outcome_bind].
    destruct (unify_arrays_spec k v arrays Hok) as (cols & t & dicts & -> & HR & HD & _ & Hs & Hn).
    eexists; split; [done|]. exists t, dicts. rewrite Ht. simpl. split_and!; try done. lia.
  - destruct (existsb _ l) eqn:E; [apply unify_struct_column_spec; try done; by destruct l|].
    apply Hplain. destruct (Forall_pick (struct_of l) arrays) as [structs Hst].
    { eapply Forall_impl; [exact HF|]. intros a [Ha Hta]. by apply struct_of_valid. }
    eapply plain_struct; [done| |done|by apply no_dict_struct]. apply Hok. eapply Forall2_impl; [exact Hst|]. by intros a s (? & _).
Qed.

(** ** Batches *)

(** The batches of a stream: valid, of one schema, with columns that can be
    rewritten. *)
Record batches_ok (s : Schema) (batches : list RecordBatch) : Prop := {
  batches_fields : fields s ≠ [];
  batches_valid : Forall (λ b, batch_valid b ∧ batch_schema b = s) batches;
  batches_columns i f arrays :
    fields s !! i = Some f → Forall2 (λ b a, columns b !! i = Some a) batches arrays → column_ok f arrays;
}.

(** Equal logical contents. *)
Definition same_rows (b b' : RecordBatch) : Prop :=
  num_rows b' = num_rows b ∧ cells <$> columns b' = cells <$> columns b.

(** The columns of field [i], one per batch. *)
Lemma field_columns s batches i f :
  batches_ok s batches → fields s !! i = Some f →
  ∃ arrays, Forall2 (λ b a, columns b !! i = Some a ∧ valid a ∧ array_type a = data_type f
    ∧ array_len a = num_rows b) batches arrays.
Proof.
  intros Hok Hf. apply Forall_pick. eapply Forall_impl; [exact (batches_valid _ _ Hok)|].
  intros b [Hb <-]. destruct (Forall2_lookup_l _ _ _ i f Hb Hf) as (a & Ha & ? & ? & ?). by exists a.
Qed.

Definition column_rewritten (batches : list RecordBatch) (i : nat) (f : Field) (r : list ArrayRef * Field) : Prop :=
  ∃ arrays, Forall2 (λ b a, columns b !! i = Some a ∧ array_len a = num_rows b) batches arrays
    ∧ field_rewritten f arrays r ∧ column_ok f arrays.

Lemma unify_table_spec s batches :
  batches ≠ [] → batches_ok s batches →
  ∃ table, collect (λ '(i, f), unify_column batches i f) (imap pair (fields s)) = Return table
    ∧ length table = length (fields s)
    ∧ ∀ i f r, fields s !! i = Some f → table !! i = Some r → column_rewritten batches i f r.
Proof.
  intros Hne Hok. apply collect_imap_returns. intros i f Hf.
  destruct (field_columns s batches i f Hok Hf) as [arrays HF].
  assert (Forall2 (λ b a, columns b !! i = Some a) batches arrays) as Hcols.
  { eapply Forall2_impl; [exact HF|]. by intros b a (? & _). }
  pose proof (batches_columns _ _ Hok i f arrays Hf Hcols) as Hc.
  destruct (unify_column_spec i f batches arrays) as (r & Hr & HR); [|done| |done|].
  { intros ->. by apply Forall2_nil_inv_r in Hcols. }
  { eapply Forall2_Forall_r; [exact HF|]. apply Forall_true. by intros b a (_ & ? & ? & _). }
  exists r. split; [done|]. exists arrays. split; [|done].
  eapply Forall2_impl; [exact HF|]. by intros b a (? & _ & _ & ?).
Qed.

(** One rewritten column in one batch. *)
Lemma column_at batches i f r bi b c :
  column_rewritten batches i f r → batches !! bi = Some b → r.1 !! bi = Some c →
  ∃ a t, columns b !! i = Some a ∧ r.2 = with_data_type f t ∧ rewritten t a c ∧ array_len c = num_rows b
    ∧ dictionaries c = shared_dictionaries r ∧ (nullable f = false → Null ∉ cells c).
Proof.
  intros (arrays & HF & (t & dicts & Hr2 & HR & HD & _) & [Hnn _]) Hb Hc.
  destruct (Forall2_lookup_l _ _ _ bi b HF Hb) as (a & Ha & Hai & Hal).
  destruct (Forall2_lookup_lr _ _ _ bi a c HR Ha Hc) as (Hv & Ht & Hcc).
  exists a, t. split_and!; try done.
  - unfold array_len. by rewrite Hcc.
  - unfold shared_dictionaries. destruct r as [[|c0 cols] f']; simpl in *; [done|].
    rewrite Forall_forall in HD. rewrite (HD c) by (by eapply list_elem_of_lookup_2). by rewrite (HD c0) by left.
  - intros Hnf. rewrite Hcc. specialize (Hnn Hnf). rewrite Forall_forall in Hnn. eapply Hnn, list_elem_of_lookup_2, Ha.
Qed.

Lemma column_lengths batches i f r : column_rewritten batches i f r → length r.1 = length batches.
Proof.
  intros (arrays & HF & (t & _ & _ & HR & _) & _).
  by rewrite <-(Forall2_length _ _ _ HR), (Forall2_length _ _ _ HF).
Qed.

(** A rebuilt batch has the rows of the original. *)
Lemma rebuild_batch s batches table bi b :
  fields s ≠ [] → length table = length (fields s) →
  (∀ i f r, fields s !! i = Some f → table !! i = Some r → column_rewritten batches i f r) →
  batches !! bi = Some b → batch_valid b → batch_schema b = s →
  let s' := mkSchema table.*2 (schema_metadata s) in
  ∃ b', (row ←? transpose_row table.*1 bi; of_arrow (batch_try_new s' row)) = Return b'
    ∧ same_rows b b' ∧ batch_valid b' ∧ batch_schema b' = s'
    ∧ batch_dictionaries b' = shared_dictionaries <$> table.
Proof.
  intros Hne Hlen Htab Hb Hbv Hbs s'.
  assert (Hf : ∀ i r, table !! i = Some r → ∃ f, fields s !! i = Some f).
  { intros i r Hr. apply lookup_lt_is_Some_2. rewrite <-Hlen. by eapply lookup_lt_Some. }
  destruct (table_row table (length batches) bi) as (row & -> & Hrl & Hrow); [|by eapply lookup_lt_Some|].
  { intros i r Hr. destruct (Hf i r Hr) as [f ?]. by eapply column_lengths, Htab. }
  cbn [outcome_bind]. assert (Hfacts : ∀ i r c, table !! i = Some r → row !! i = Some c → ∃ f a t,
    fields s !! i = Some f ∧ columns b !! i = Some a ∧ r.2 = with_data_type f t ∧ rewritten t a c
    ∧ array_len c = num_rows b ∧ dictionaries c = shared_dictionaries r ∧ (nullable f = false → Null ∉ cells c)).
  { intros i r c Hr Hc. destruct (Hf i r Hr) as [f Hfi].
    destruct (column_at batches i f r bi b c) as (a & t & ?); [by eauto..|]. by exists f, a, t. }
  assert (Hval : Forall2 (λ f c, valid c ∧ array_type c = data_type f ∧ array_len c = num_rows b
      ∧ (nullable f = false → Null ∉ cells c)) (fields s') row).
  { apply Forall2_same_length_lookup_2; [unfold s'; cbn [fields]; by rewrite length_fmap, Hrl|]. intros i f' c Hf' Hc. simpl in Hf'.
    rewrite list_lookup_fmap in Hf'. destruct (table !! i) as [r|] eqn:Er; simplify_eq/=.
    destruct (Hfacts i r c Er Hc) as (f & a & t & _ & _ & -> & (? & ? & _) & ? & _ & ?). done. }
  destruct (batch_try_new_law s' row (num_rows b)) as (b' & -> & Hs' & Hc' & Hn'); [|done|].
  { intros ->. destruct (fields s); [done|]. simpl in *. lia. }
  exists b'. split; [done|]. split_and!; [| |done|].
  - split; [done|]. rewrite Hc'. apply list_eq_same_length with (n := length table); rewrite ?length_fmap; [|done|].
    { rewrite Hlen, <-Hbs. symmetry. by eapply Forall2_length. }
    intros i x y Hi Hx Hy. rewrite list_lookup_fmap in Hx. rewrite list_lookup_fmap in Hy.
    destruct (row !! i) as [c|] eqn:Ec; simplify_eq/=. destruct (lookup_lt_is_Some_2 table i Hi) as [r Hr].
    destruct (Hfacts i r c Hr Ec) as (f & a & t & _ & Ha & _ & (_ & _ & ->) & _). by rewrite Ha in Hy; simplify_eq/=.
  - unfold batch_valid. rewrite Hs', Hc', Hn'. eapply Forall2_impl; [exact Hval|]. by intros f c (? & ? & ? & _).
  - unfold batch_dictionaries. rewrite Hc'.
    apply list_eq_same_length with (n := length table); rewrite ?length_fmap; [done|done|].
    intros i x y Hi Hx Hy. rewrite list_lookup_fmap in Hx. rewrite list_lookup_fmap in Hy.
    destruct (row !! i) as [c|] eqn:Ec, (table !! i) as [r|] eqn:Er; simplify_eq/=.
    by destruct (Hfacts i r c Er Ec) as (? & ? & ? & _ & _ & _ & _ & _ & ? & _).
Qed.

Lemma unify_batch_dicts_spec s batches :
  batches ≠ [] → batches_ok s batches →
  ∃ s' batches', unify_batch_dicts s batches = Return (s', batches')
    ∧ Forall2 same_rows batches batches'
    ∧ Forall (λ b, batch_valid b ∧ batch_schema b = s') batches'
    ∧ (∀ b c, b ∈ batches' → c ∈ batches' → batch_dictionaries b = batch_dictionaries c)
    ∧ Forall2 (λ f f', ∃ t, f' = with_data_type f t ∧ type_supported t
        ∧ (dictionary_count t ≤ dictionary_count (data_type f))%nat) (fields s) (fields s').
Proof.
  intros Hne Hok. destruct (unify_table_spec s batches Hne Hok) as (table & Ht & Hlen & Htab).
  unfold unify_batch_dicts. rewrite Ht. cbn [outcome_bind].
  set (s' := mkSchema table.*2 (schema_metadata s)).
  destruct (collect_returns (λ bi, row ←? transpose_row table.*1 bi; of_arrow (batch_try_new s' row))
    (λ bi b', ∀ b, batches !! bi = Some b → same_rows b b' ∧ batch_valid b' ∧ batch_schema b' = s'
       ∧ batch_dictionaries b' = shared_dictionaries <$> table) (seq 0 (length batches))) as (batches' & -> & HR).
  { apply Forall_forall. intros bi Hbi. apply elem_of_seq in Hbi.
    destruct (lookup_lt_is_Some_2 batches bi ltac:(lia)) as [b Hb].
    destruct (proj1 (Forall_lookup _ _) (batches_valid _ _ Hok) bi b Hb) as [Hbv Hbs].
    destruct (rebuild_batch s batches table bi b (batches_fields _ _ Hok) Hlen Htab Hb Hbv Hbs) as (b' & Hb' & HRb).
    exists b'. split; [done|]. intros b0 Hb0. by simplify_eq. }
  pose proof (Forall2_length _ _ _ HR) as Hl. rewrite length_seq in Hl.
  assert (Hall : ∀ bi b', batches' !! bi = Some b' → ∃ b, batches !! bi = Some b ∧ same_rows b b' ∧ batch_valid b'
    ∧ batch_schema b' = s' ∧ batch_dictionaries b' = shared_dictionaries <$> table).
  { intros bi b' Hb'. pose proof (lookup_lt_Some _ _ _ Hb') as Hlt.
    destruct (lookup_lt_is_Some_2 batches bi ltac:(lia)) as [b Hb]. exists b. split; [done|].
    apply (Forall2_lookup_lr _ _ _ bi bi b' HR); [|done|done]. apply lookup_seq. lia. }
  exists s', batches'. split; [done|]. split_and!.
  - apply Forall2_same_length_lookup_2; [done|]. intros bi b b' Hb Hb'.
    destruct (Hall bi b' Hb') as (b0 & Hb0 & ? & _). by simplify_eq.
  - apply Forall_lookup_2. intros bi b' Hb'. by destruct (Hall bi b' Hb') as (? & _ & _ & ? & ? & _).
  - intros b c [i Hb]%list_elem_of_lookup [j Hc]%list_elem_of_lookup.
    destruct (Hall i b Hb) as (? & _ & _ & _ & _ & ->). by destruct (Hall j c Hc) as (? & _ & _ & _ & _ & ->).
  - apply Forall2_same_length_lookup_2; [unfold s'; cbn [fields]; by rewrite length_fmap|].
    intros i f f' Hf Hf'. simpl in Hf'.
    rewrite list_lookup_fmap in Hf'. destruct (table !! i) as [r|] eqn:Er; simplify_eq/=.
    destruct (Htab i f r Hf Er) as (? & _ & (t & ? & Hr & _ & _ & Hs & ?) & _). by exists t.
Qed.

(** C6: Unifying the dictionaries of the batches of a stream always returns (no
    error, no panic) and changes no logical value of any row; all batches then
    share the dictionaries of every column and struct child, as an IPC file
    requires, the fields keep their names and nullability, and the keys of every
    rewritten dictionary have at most sixteen bits, a dictionary that would need
    more being replaced by its plain values. *)
Theorem unify_keeps_rows s batches :
  batches ≠ [] → batches_ok s batches →
  ∃ s' batches', unify_batch_dicts s batches = Return (s', batches')
    ∧ Forall2 same_rows batches batches'
    ∧ Forall (λ b, batch_valid b ∧ batch_schema b = s') batches'
    ∧ (∀ b c, b ∈ batches' → c ∈ batches' → batch_dictionaries b = batch_dictionaries c)
    ∧ Forall2 (λ f f', name f' = name f ∧ nullable f' = nullable f ∧ type_supported (data_type f'))
        (fields s) (fields s').
Proof.
  intros Hne Hok. destruct (unify_batch_dicts_spec s batches Hne Hok) as (s' & l & ? & ? & ? & ? & HF).
  exists s', l. split_and!; try done. eapply Forall2_impl; [exact HF|]. by intros f f' (t & -> & ? & _).
Qed.

End laws.

(** ** Example *)

Import ArrowModel.

(** A dictionary column and a struct with a dictionary child, in two batches. *)
Definition text : DataType := OtherType 0 [].

Definition name_field : Field := mkField "name" (Dictionary UInt8 text) true [].

Definition example_schema : Schema :=
  mkSchema [mkField "body" (Dictionary UInt8 text) true []; mkField "scope" (Struct [name_field]) true []] [].

Definition example_batch (a b : Z) : Batch :=
  mkBatch example_schema
    [Dict UInt8 [Some 0; None; Some 1] (Plain text [Scalar [a]; Scalar [b]]);
     StructArr [name_field] [Dict UInt8 [Some 0; Some 0; None] (Plain text [Scalar [b]])] None 3] 3.

Lemma example_unifiable (l : list (list (option Z) * list Value)) :
  l ≠ [] → Forall (λ p, Forall (key_in_bounds (length p.2)) p.1 ∧ zlen p.2 < 10) l → (length l < 10)%nat →
  @unifiable model model_laws UInt8 text ((λ p, Dict UInt8 p.1 (Plain text p.2)) <$> l).
Proof.
  intros Hne HF Hlen. split; [done|done| | |].
  - apply Forall_fmap. eapply Forall_impl; [exact HF|]. intros p [Hp _]. repeat split; try done. by left.
  - intros refs Hrefs. assert (refs = (λ p, Plain text p.2) <$> l) as ->.
    { clear -Hrefs. rewrite Forall2_fmap_l in Hrefs. induction Hrefs as [|p r l refs [keys Hr] _ IH]; [done|].
      csimpl in *. by injection Hr as _ <-; rewrite IH. }
    split; [|by destruct l].
    assert (zlen (concat (arr_cells <$> ((λ p : list (option Z) * list Value, Plain text p.2) <$> l)))
      ≤ 10 * Z.of_nat (length l)) as Hz; [|simpl; lia].
    clear -HF. induction HF as [|p l [_ Hp] _ IH]; csimpl; [done|]. rewrite zlen_app. simpl. lia.
  - apply Forall_fmap, Forall_true. intros p. by eexists.
Qed.

Definition example_body (a b : Z) : list (option Z) * list Value := ([Some 0; None; Some 1], [Scalar [a]; Scalar [b]]).

Definition example_name (b : Z) : list (option Z) * list Value := ([Some 0; Some 0; None], [Scalar [b]]).

Lemma example_batches_ok : @batches_ok model model_laws example_schema [example_batch 97 98; example_batch 99 98].
Proof.
  split; [done| |].
  - repeat constructor; try done; by left.
  - intros [|[|i]] f arrays; [| |done]; intros [= <-] HF;
      apply Forall2_cons_inv_l in HF as (a1 & l1 & [= <-] & HF & ->);
      apply Forall2_cons_inv_l in HF as (a2 & l2 & [= <-] & HF & ->); apply Forall2_nil_inv_l in HF as ->.
    + split; [done|]. apply (example_unifiable [example_body 97 98; example_body 99 98]); [done| |simpl; lia].
      repeat constructor; simpl; lia.
    + split; [done|]. intros structs HF.
      apply Forall2_cons_inv_l in HF as (s1 & k1 & [= <-] & HF & ->).
      apply Forall2_cons_inv_l in HF as (s2 & k2 & [= <-] & HF & ->). apply Forall2_nil_inv_l in HF as ->. split.
      * intros [|ci] f arrays; [|done]. intros [= <-] HF.
        apply Forall2_cons_inv_l in HF as (a1 & l1 & [= <-] & HF & ->).
        apply Forall2_cons_inv_l in HF as (a2 & l2 & [= <-] & HF & ->). apply Forall2_nil_inv_l in HF as ->.
        apply (example_unifiable [example_name 98; example_name 98]); [done| |simpl; lia]. repeat constructor; simpl; lia.
      * intros [|ci] f s c i; [|done]. by intros [= <-].
Qed.

Lemma unify_keeps_rows_witness :
  ∃ s' batches', @unify_batch_dicts model example_schema [example_batch 97 98; example_batch 99 98] = Return (s', batches')
    ∧ Forall2 (@same_rows model) [example_batch 97 98; example_batch 99 98] batches'.
Proof.
  destruct (@unify_keeps_rows model model_laws example_schema [example_batch 97 98; example_batch 99 98])
    as (s' & l & Hl & Hrows & _); [done|apply example_batches_ok|]. exists s', l. split; [exact Hl|exact Hrows].
Defined.

(** The keys of the second batch are shifted past the values of the first. *)
Example unify_shifts_keys :
  match @unify_batch_dicts model example_schema [example_batch 97 98; example_batch 99 98] with
  | Return (_, [_; b]) => head (b_columns b) =
      Some (Dict UInt8 [Some 2; None; Some 3] (Plain text [Scalar [97]; Scalar [98]; Scalar [99]; Scalar [98]]))
  | _ => False
  end.
Proof. vm_compute. reflexivity. Qed.

End Dictionaries.
