(* ===== verification/OpenSegment.v ===== *)
(** * Open segments

    Model of [crates/quiver/src/segment/open_segment.rs] and of
    [StreamAccumulator] in [stream_accumulator.rs]: a segment under construction
    routes the payloads of each bundle to one accumulator per slot and schema
    fingerprint, and its manifest records for every bundle the stream and chunk of
    each payload.  Readings of the clock are arguments. *)
From S2P Require Import Prelude Bytes Files WalFormat Arrow SegmentTypes Dictionaries.
Export Dictionaries.

Local Open Scope Z_scope.
Local Open Scope outcome_scope.

Module OpenSegment.
Section open_segment.
Context `{HA : Arrow}.

(** ** Bundles *)

(** What a segment uses of a [RecordBundle]: the descriptor and payloads, which
    the log encodes as well, and the counts. *)
Record RecordBundle := mkRecordBundle {
  bundle : WalFormat.RecordBundle RecordBatch;
  bundle_items : Z;
  item_count_is_known : bool;
  byte_count : option Z;
}.

(** ** Stream accumulators *)

Record StreamAccumulator := mkAccumulator {
  stream_id : Z;
  slot_id : Z;
  schema_fingerprint : list Z;
  schema : Schema;
  batches : list RecordBatch;
  row_count : Z;
  buffer_size : Z;
  acc_finalized : bool;
}.

Definition accumulator_new (id slot : Z) (fingerprint : list Z) (s : Schema) : StreamAccumulator :=
  mkAccumulator id slot fingerprint s [] 0 0 false.

(** [batches.len() as u32] *)
Definition chunk_count (acc : StreamAccumulator) : Z := zlen (batches acc) mod 2 ^ 32.

Definition accumulator_append (acc : StreamAccumulator) (b : RecordBatch)
    : result (StreamAccumulator * Z) SegmentError :=
  if acc_finalized acc then Err AccumulatorFinalized
  else if MAX_CHUNKS_PER_STREAM <=? zlen (batches acc)
  then Err (InvalidFormat "stream already has the maximum number of chunks")
  else if negb (bool_decide (batch_schema b = schema acc)) then Err (SchemaMismatch (stream_id acc))
  else
    Ok (mkAccumulator (stream_id acc) (slot_id acc) (schema_fingerprint acc) (schema acc)
          (batches acc ++ [b]) (row_count acc + num_rows b) (buffer_size acc + array_memory_size b) false,
        chunk_count acc).

Definition write_ipc_to (acc : StreamAccumulator) : outcome (list Z) :=
  if (1 <? length (batches acc))%nat && has_dict_columns (schema acc)
  then
    '(unified_schema, unified_batches) ←? unify_batch_dicts (schema acc) (batches acc);
    of_arrow (ipc_write unified_schema unified_batches)
  else of_arrow (ipc_write (schema acc) (batches acc)).

(** The bytes written and the metadata of the stream. *)
Definition write_to (acc : StreamAccumulator) (offset : Z) : outcome (list Z * StreamMetadata) :=
  if acc_finalized acc then Raise AccumulatorFinalized
  else
    bytes ←? write_ipc_to acc;
    Return (bytes, mkMetadata (stream_id acc) (slot_id acc) (schema_fingerprint acc) offset (zlen bytes)
                     (row_count acc) (chunk_count acc)).

(** ** The segment *)

Record OpenSegment := mkOpenSegment {
  streams : gmap StreamKey StreamAccumulator;
  next_stream_id : Z;
  manifest : list ManifestEntry;
  finalized : bool;
  opened_at : option Z;
}.

Definition open_new : OpenSegment := mkOpenSegment ∅ 0 [] false None.

Definition open_bundle_count (seg : OpenSegment) : Z := zlen (manifest seg).

Definition open_stream_count (seg : OpenSegment) : Z := Z.of_nat (size (streams seg)).

Definition is_empty (seg : OpenSegment) : bool := bool_decide (manifest seg = []).

Definition estimated_size_bytes (seg : OpenSegment) : Z :=
  map_fold (λ _ acc n, buffer_size acc + n) 0 (streams seg).

Definition get_or_create_accumulator (seg : OpenSegment) (key : StreamKey) (s : Schema)
    : OpenSegment * StreamAccumulator :=
  match streams seg !! key with
  | Some acc => (seg, acc)
  | None =>
      let acc := accumulator_new (next_stream_id seg) key.1 key.2 s in
      (mkOpenSegment (<[key := acc]> (streams seg)) (saturating_add u32_max (next_stream_id seg) 1)
         (manifest seg) (finalized seg) (opened_at seg), acc)
  end.

Definition set_stream (seg : OpenSegment) (key : StreamKey) (acc : StreamAccumulator) : OpenSegment :=
  mkOpenSegment (<[key := acc]> (streams seg)) (next_stream_id seg) (manifest seg) (finalized seg) (opened_at seg).

(** One payload: the stream limit, the accumulator, the append. *)
Definition append_payload (seg : OpenSegment) (entry : ManifestEntry) (slot : Z)
    (p : WalFormat.PayloadRef RecordBatch) : OpenSegment * result ManifestEntry SegmentError :=
  let key := (slot, WalFormat.fingerprint p) in
  if bool_decide (streams seg !! key = None) && (MAX_STREAMS_PER_SEGMENT <=? open_stream_count seg)
  then (seg, Err (InvalidFormat "segment already has the maximum number of streams"))
  else
    let '(seg, acc) := get_or_create_accumulator seg key (batch_schema (WalFormat.batch p)) in
    match accumulator_append acc (WalFormat.batch p) with
    | Err e => (seg, Err e)
    | Ok (acc', chunk) => (set_stream seg key acc', Ok (add_slot entry slot (stream_id acc) chunk))
    end.

(** The loop over the slots of the descriptor; an error leaves the payloads before
    it in their streams. *)
Fixpoint append_slots (seg : OpenSegment) (entry : ManifestEntry) (b : WalFormat.RecordBundle RecordBatch)
    (slots : list Z) : OpenSegment * result ManifestEntry SegmentError :=
  match slots with
  | [] => (seg, Ok entry)
  | slot :: slots =>
      match WalFormat.bundle_payload b slot with
      | None => append_slots seg entry b slots
      | Some p =>
          match append_payload seg entry slot p with
          | (seg', Ok entry') => append_slots seg' entry' b slots
          | (seg', Err e) => (seg', Err e)
          end
      end
  end.

Definition push_entry (seg : OpenSegment) (e : ManifestEntry) : OpenSegment :=
  mkOpenSegment (streams seg) (next_stream_id seg) (manifest seg ++ [e]) (finalized seg) (opened_at seg).

Definition append (now : Z) (seg : OpenSegment) (b : RecordBundle)
    : OpenSegment * result ManifestEntry SegmentError :=
  if finalized seg then (seg, Err AccumulatorFinalized)
  else if MAX_BUNDLES_PER_SEGMENT <=? zlen (manifest seg)
  then (seg, Err (InvalidFormat "segment already has the maximum number of bundles"))
  else if MAX_SLOTS_PER_BUNDLE <? zlen (WalFormat.descriptor_slots (bundle b))
  then (seg, Err (InvalidFormat "bundle exceeds the limit of slots"))
  else
    let seg := mkOpenSegment (streams seg) (next_stream_id seg) (manifest seg) (finalized seg)
                 (Some (default now (opened_at seg))) in
    let entry := new_with_counts (zlen (manifest seg) mod 2 ^ 32)
                   (if item_count_is_known b then Some (bundle_items b) else None) (byte_count b) in
    match append_slots seg entry (bundle b) (WalFormat.descriptor_slots (bundle b)) with
    | (seg, Err e) => (seg, Err e)
    | (seg, Ok entry) => (push_entry seg entry, Ok entry)
    end.

(** The accumulators in the order of their distinct ids, and the manifest. *)
Definition into_parts (seg : OpenSegment) : result (list StreamAccumulator * list ManifestEntry) SegmentError :=
  if finalized seg then Err AccumulatorFinalized
  else if is_empty seg then Err EmptySegment
  else Ok (sort_by_key stream_id (map_to_list (streams seg)).*2, manifest seg).

(** Appends one after the other: the segment and the bundles that were accepted. *)
Fixpoint append_all (seg : OpenSegment) (l : list (Z * RecordBundle)) : OpenSegment * list RecordBundle :=
  match l with
  | [] => (seg, [])
  | (now, b) :: l =>
      let '(seg', r) := append now seg b in
      let '(seg'', accepted) := append_all seg' l in
      (seg'', if is_ok r then b :: accepted else accepted)
  end.

(** ** Invariant *)

Record stream_ok (next : Z) (key : StreamKey) (acc : StreamAccumulator) : Prop := {
  stream_slot : slot_id acc = key.1;
  stream_fingerprint : schema_fingerprint acc = key.2;
  stream_range : 0 ≤ stream_id acc < next;
  stream_open : acc_finalized acc = false;
  stream_schemas : Forall (λ b, batch_schema b = schema acc) (batches acc);
  stream_chunks : zlen (batches acc) ≤ MAX_CHUNKS_PER_STREAM;
}.

Record seg_ok (seg : OpenSegment) : Prop := {
  seg_open : finalized seg = false;
  seg_next : next_stream_id seg = open_stream_count seg;
  seg_limit : open_stream_count seg ≤ MAX_STREAMS_PER_SEGMENT;
  seg_streams : map_Forall (stream_ok (next_stream_id seg)) (streams seg);
  seg_ids k k' acc acc' :
    streams seg !! k = Some acc → streams seg !! k' = Some acc' → stream_id acc = stream_id acc' → k = k';
  seg_bundles : zlen (manifest seg) ≤ MAX_BUNDLES_PER_SEGMENT;
}.

(** Streams only grow. *)
Definition extends (seg seg' : OpenSegment) : Prop :=
  ∀ key acc, streams seg !! key = Some acc → ∃ acc',
    streams seg' !! key = Some acc' ∧ stream_id acc' = stream_id acc ∧ batches acc `prefix_of` batches acc'.

#[local] Instance extends_preorder : PreOrder extends.
Proof.
  split.
  - intros seg key acc Hacc. by exists acc.
  - intros s1 s2 s3 H12 H23 key acc H1. destruct (H12 key acc H1) as (acc2 & H2 & Hid2 & Hp2).
    destruct (H23 key acc2 H2) as (acc3 & H3 & Hid3 & Hp3). exists acc3. split; [done|].
    split; [congruence|]. by etrans.
Qed.

(** The payload of a slot is the chunk the reference names. *)
Definition stored (seg : OpenSegment) (slot : Z) (p : WalFormat.PayloadRef RecordBatch) (ref : SlotChunkRef) : Prop :=
  0 ≤ ref_chunk_index ref ∧
  ∃ acc, streams seg !! (slot, WalFormat.fingerprint p) = Some acc ∧ stream_id acc = ref_stream_id ref
    ∧ batches acc !! Z.to_nat (ref_chunk_index ref) = Some (WalFormat.batch p).

Lemma stored_extends seg seg' slot p ref : extends seg seg' → stored seg slot p ref → stored seg' slot p ref.
Proof.
  intros Hext (Hc & acc & Hacc & Hid & Hb). split; [done|]. destruct (Hext _ _ Hacc) as (acc' & Hacc' & Hid' & Hp).
  exists acc'. split; [done|]. split; [congruence|]. by eapply prefix_lookup_Some.
Qed.

(** The references of an entry are the payloads of the given slots. *)
Definition refs_hold (seg : OpenSegment) (b : WalFormat.RecordBundle RecordBatch) (slots : list Z)
    (refs : gmap Z SlotChunkRef) : Prop :=
  ∀ slot, match refs !! slot with
          | Some ref => ∃ p, slot ∈ slots ∧ WalFormat.bundle_payload b slot = Some p ∧ stored seg slot p ref
          | None => slot ∈ slots → WalFormat.bundle_payload b slot = None
          end.

Lemma refs_hold_extends seg seg' b slots refs :
  extends seg seg' → refs_hold seg b slots refs → refs_hold seg' b slots refs.
Proof.
  intros Hext Hr slot. specialize (Hr slot). destruct (refs !! slot); [|done].
  destruct Hr as (p & ? & ? & ?). exists p. split_and!; [done..|]. by eapply stored_extends.
Qed.

(** ** Appending *)

Lemma accumulator_append_ok next key acc b :
  stream_ok next key acc →
  match accumulator_append acc b with
  | Ok (acc', chunk) => stream_ok next key acc' ∧ stream_id acc' = stream_id acc
      ∧ batches acc' = batches acc ++ [b] ∧ chunk = zlen (batches acc)
  | Err _ => True
  end.
Proof.
  intros [Hs Hf Hr Ho Hsc Hch]. unfold accumulator_append. rewrite Ho.
  destruct (Z.leb_spec MAX_CHUNKS_PER_STREAM (zlen (batches acc))); [done|].
  case_bool_decide as Hbs; simpl; [|done]. split_and!; [|done|done|].
  - split; simpl; try done.
    + apply Forall_app. by split; [|constructor].
    + rewrite zlen_app. change (zlen [b]) with 1. lia.
  - unfold chunk_count. unfold MAX_CHUNKS_PER_STREAM in *. apply Z.mod_small. pose proof (zlen_nonneg (batches acc)). lia.
Qed.

(** The accumulator of a stream exists afterwards; a new one gets the next id. *)
Lemma get_or_create_ok seg key s :
  seg_ok seg → (streams seg !! key = None → open_stream_count seg < MAX_STREAMS_PER_SEGMENT) →
  let '(seg', acc) := get_or_create_accumulator seg key s in
  seg_ok seg' ∧ extends seg seg' ∧ manifest seg' = manifest seg ∧ opened_at seg' = opened_at seg
  ∧ streams seg' !! key = Some acc.
Proof.
  intros Hok Hroom. unfold get_or_create_accumulator. destruct (streams seg !! key) as [acc|] eqn:E; [done|].
  specialize (Hroom eq_refl). pose proof (seg_next _ Hok) as Hn. unfold MAX_STREAMS_PER_SEGMENT in *.
  assert (saturating_add u32_max (next_stream_id seg) 1 = next_stream_id seg + 1) as Hsat.
  { unfold saturating_add, u32_max. lia. }
  assert (∀ k acc, streams seg !! k = Some acc → stream_ok (next_stream_id seg) k acc) as Hst by apply Hok.
  rewrite Hsat. unfold open_stream_count in *. split_and!; [| |done|done|simpl; by rewrite lookup_insert_eq].
  - split; simpl; [apply Hok| | | | |apply Hok].
    + unfold open_stream_count. simpl. rewrite map_size_insert_None by done. lia.
    + unfold open_stream_count, MAX_STREAMS_PER_SEGMENT. simpl. rewrite map_size_insert_None by done. lia.
    + apply map_Forall_insert_2.
      * split; simpl; try done. lia.
      * intros k acc Hacc. destruct (Hst k acc Hacc). split; try done. lia.
    + intros k k' acc acc' [[<- <-]|[? H1]]%lookup_insert_Some [[<- <-]|[? H2]]%lookup_insert_Some; simpl; try done.
      * intros Hid. pose proof (stream_range _ _ _ (Hst _ _ H2)). lia.
      * intros Hid. pose proof (stream_range _ _ _ (Hst _ _ H1)). lia.
      * by apply (seg_ids _ Hok).
  - intros k acc Hacc. exists acc. simpl. rewrite lookup_insert_ne; [done|]. intros ->. by rewrite E in Hacc.
Qed.

(** Replacing an accumulator by one with more batches. *)
Lemma set_stream_ok seg key acc acc' :
  seg_ok seg → streams seg !! key = Some acc → stream_ok (next_stream_id seg) key acc' →
  stream_id acc' = stream_id acc → batches acc `prefix_of` batches acc' →
  seg_ok (set_stream seg key acc') ∧ extends seg (set_stream seg key acc').
Proof.
  intros Hok Hacc Hacc' Hid Hp. split.
  - assert (size (<[key := acc']> (streams seg)) = size (streams seg)) as Hsize.
    { by rewrite map_size_insert_Some by (rewrite Hacc; eauto). }
    split; simpl; unfold open_stream_count; simpl; rewrite ?Hsize; [apply Hok..| | |apply Hok].
    + apply map_Forall_insert_2; [done|apply Hok].
    + intros k k' a a' [[<- <-]|[? H1]]%lookup_insert_Some [[<- <-]|[? H2]]%lookup_insert_Some; try done.
      * rewrite Hid. by apply (seg_ids _ Hok).
      * rewrite Hid. by apply (seg_ids _ Hok).
      * by apply (seg_ids _ Hok).
  - intros k a Ha. simpl. destruct (decide (k = key)) as [->|Hk].
    + exists acc'. rewrite lookup_insert_eq. by simplify_eq.
    + exists a. by rewrite lookup_insert_ne.
Qed.

Lemma append_payload_ok seg entry slot p :
  seg_ok seg →
  let '(seg', r) := append_payload seg entry slot p in
  seg_ok seg' ∧ extends seg seg' ∧ manifest seg' = manifest seg ∧ opened_at seg' = opened_at seg ∧
  match r with
  | Ok entry' => ∃ ref, entry' = add_slot entry slot (ref_stream_id ref) (ref_chunk_index ref) ∧ stored seg' slot p ref
  | Err _ => True
  end.
Proof.
  intros Hok. unfold append_payload. set (key := (slot, WalFormat.fingerprint p)).
  destruct (bool_decide _ && _) eqn:Eroom; [done|].
  pose proof (get_or_create_ok seg key (batch_schema (WalFormat.batch p)) Hok) as Hget.
  destruct (get_or_create_accumulator _ _ _) as [seg1 acc].
  destruct Hget as (Hok1 & Hext1 & Hm1 & Ho1 & Hacc).
  { intros Hnone. rewrite bool_decide_eq_true_2 in Eroom by done. apply Z.leb_gt. exact Eroom. }
  pose proof (accumulator_append_ok _ _ acc (WalFormat.batch p) (seg_streams _ Hok1 key acc Hacc)) as Happ.
  destruct (accumulator_append acc (WalFormat.batch p)) as [[acc' chunk]|e]; [|by split_and!].
  destruct Happ as (Hacc' & Hid & Hb & ->).
  destruct (set_stream_ok seg1 key acc acc') as [Hok2 Hext2]; try done.
  { rewrite Hb. by apply prefix_app_r. }
  split_and!; try done; [by etrans|].
  exists (mkChunkRef (stream_id acc) (zlen (batches acc))). split; [done|]. split; [apply zlen_nonneg|].
  exists acc'. simpl. rewrite lookup_insert_eq, Hb. split_and!; try done.
  unfold zlen. by rewrite Nat2Z.id, list_lookup_middle.
Qed.

(** A reference more. *)
Lemma refs_hold_add seg b slots refs slot p ref :
  refs_hold seg b slots refs → WalFormat.bundle_payload b slot = Some p → stored seg slot p ref →
  refs_hold seg b (slots ++ [slot]) (<[slot := ref]> refs).
Proof.
  intros Hr Hp Hs slot'. destruct (decide (slot' = slot)) as [->|Hne].
  - rewrite lookup_insert_eq. exists p. split_and!; [|done..]. apply elem_of_app. right. by left.
  - rewrite lookup_insert_ne by done. specialize (Hr slot'). destruct (refs !! slot').
    + destruct Hr as (q & ? & ? & ?). exists q. split_and!; try done. apply elem_of_app. by left.
    + intros [|Hin%list_elem_of_singleton]%elem_of_app; [by apply Hr|done].
Qed.

Lemma refs_hold_skip seg b slots refs slot :
  refs_hold seg b slots refs → WalFormat.bundle_payload b slot = None → refs_hold seg b (slots ++ [slot]) refs.
Proof.
  intros Hr Hp slot'. specialize (Hr slot'). destruct (refs !! slot').
  - destruct Hr as (q & ? & ? & ?). exists q. split_and!; try done. apply elem_of_app. by left.
  - intros [|Hin%list_elem_of_singleton]%elem_of_app; [by apply Hr|by subst].
Qed.

Lemma append_slots_ok b todo : ∀ seg entry slots,
  seg_ok seg → refs_hold seg b slots (slot_refs entry) →
  let '(seg', r) := append_slots seg entry b todo in
  seg_ok seg' ∧ extends seg seg' ∧ manifest seg' = manifest seg ∧
  match r with
  | Ok entry' => bundle_index entry' = bundle_index entry ∧ exact_item_count entry' = exact_item_count entry
      ∧ exact_byte_count entry' = exact_byte_count entry ∧ refs_hold seg' b (slots ++ todo) (slot_refs entry')
  | Err _ => True
  end.
Proof.
  induction todo as [|slot todo IH]; intros seg entry slots Hok Hr; simpl.
  { rewrite app_nil_r. by split_and!. }
  destruct (WalFormat.bundle_payload b slot) as [p|] eqn:Ep.
  - pose proof (append_payload_ok seg entry slot p Hok) as Hp.
    destruct (append_payload seg entry slot p) as [seg1 [entry1|e]]; [|naive_solver].
    destruct Hp as (Hok1 & Hext1 & Hm1 & _ & ref & -> & Hst).
    specialize (IH seg1 (add_slot entry slot (ref_stream_id ref) (ref_chunk_index ref)) (slots ++ [slot]) Hok1).
    destruct (append_slots seg1 _ b todo) as [seg2 r2]. destruct IH as (Hok2 & Hext2 & Hm2 & Hr2).
    { simpl. replace (mkChunkRef (ref_stream_id ref) (ref_chunk_index ref)) with ref by (by destruct ref).
      eapply refs_hold_add; [by eapply refs_hold_extends|done|done]. }
    split_and!; [done|by etrans|congruence|]. destruct r2; [|done]. by rewrite <-app_assoc in Hr2.
  - specialize (IH seg entry (slots ++ [slot]) Hok (refs_hold_skip _ _ _ _ _ Hr Ep)).
    destruct (append_slots seg entry b todo) as [seg2 r2]. destruct IH as (Hok2 & Hext2 & Hm2 & Hr2).
    split_and!; try done. destruct r2; [|done]. by rewrite <-app_assoc in Hr2.
Qed.

(** The manifest entry of a bundle. *)
Record entry_holds (seg : OpenSegment) (i : nat) (b : RecordBundle) (e : ManifestEntry) : Prop := {
  entry_index : bundle_index e = Z.of_nat i;
  entry_items : exact_item_count e = if item_count_is_known b then Some (bundle_items b) else None;
  entry_bytes : exact_byte_count e = byte_count b;
  entry_slots : zlen (WalFormat.descriptor_slots (bundle b)) ≤ MAX_SLOTS_PER_BUNDLE;
  entry_refs : refs_hold seg (bundle b) (WalFormat.descriptor_slots (bundle b)) (slot_refs e);
}.

(** The segment holds the accepted bundles, in order. *)
Record seg_holds (seg : OpenSegment) (accepted : list RecordBundle) : Prop := {
  holds_ok : seg_ok seg;
  holds_length : length (manifest seg) = length accepted;
  holds_entries i e b : manifest seg !! i = Some e → accepted !! i = Some b → entry_holds seg i b e;
}.

Lemma open_new_holds : seg_holds open_new [].
Proof. split; [|done|by intros i e b; rewrite lookup_nil]. by split. Qed.

Lemma entry_holds_extends seg seg' i b e : extends seg seg' → entry_holds seg i b e → entry_holds seg' i b e.
Proof. intros Hext []. split; try done. by eapply refs_hold_extends. Qed.

(** An append that succeeds adds the bundle; one that fails changes no bundle. *)
Lemma append_holds now seg b accepted :
  seg_holds seg accepted →
  let '(seg', r) := append now seg b in seg_holds seg' (if is_ok r then accepted ++ [b] else accepted).
Proof.
  intros [Hok Hlen Hent]. unfold append. rewrite (seg_open _ Hok).
  destruct (Z.leb_spec MAX_BUNDLES_PER_SEGMENT (zlen (manifest seg))) as [|Hm]; [done|].
  destruct (Z.ltb_spec MAX_SLOTS_PER_BUNDLE (zlen (WalFormat.descriptor_slots (bundle b)))) as [|Hs]; [done|].
  set (seg0 := mkOpenSegment _ _ _ _ _). set (entry := new_with_counts _ _ _).
  assert (seg_ok seg0) as Hok0 by (by destruct Hok; split).
  pose proof (append_slots_ok (bundle b) (WalFormat.descriptor_slots (bundle b)) seg0 entry [] Hok0) as Happ.
  destruct (append_slots seg0 entry _ _) as [seg1 r1]. destruct Happ as (Hok1 & Hext1 & Hm1 & Hr).
  { intros slot. simpl. rewrite lookup_empty. by intros ?%not_elem_of_nil. }
  change (manifest seg0) with (manifest seg) in Hm1. assert (extends seg seg1) as Hext by exact Hext1.
  destruct r1 as [e|err]; simpl.
  - destruct Hr as (Hi & Hit & Hby & Hrefs). split; simpl.
    + split; simpl; [apply Hok1..|]. rewrite zlen_app, Hm1. change (zlen [e]) with 1. lia.
    + rewrite Hm1, !length_app. simpl. lia.
    + rewrite Hm1. intros i e' b' He Hb. apply lookup_app_Some in He as [He|[Hi1 He]].
      * apply (entry_holds_extends seg); [done|]. apply Hent; [done|].
        rewrite lookup_app_l in Hb; [done|]. rewrite <-Hlen. by eapply lookup_lt_Some.
      * rewrite lookup_app_r, <-Hlen in Hb by lia. apply list_lookup_singleton_Some in He as [Hi0 <-].
        rewrite Hi0 in Hb. injection Hb as <-. split; try done.
        rewrite Hi. simpl. unfold MAX_BUNDLES_PER_SEGMENT in Hm. pose proof (zlen_nonneg (manifest seg)).
        rewrite Z.mod_small by lia. unfold zlen. lia.
  - split; [done|congruence|]. rewrite Hm1. intros i e b' He Hb. by eapply entry_holds_extends; [|apply Hent].
Qed.

Lemma append_all_holds l : ∀ seg accepted0,
  seg_holds seg accepted0 → let '(seg', accepted) := append_all seg l in seg_holds seg' (accepted0 ++ accepted).
Proof.
  induction l as [|[now b] l IH]; intros seg accepted0 Hh; simpl; [by rewrite app_nil_r|].
  pose proof (append_holds now seg b accepted0 Hh) as Happ. destruct (append now seg b) as [seg' r].
  specialize (IH _ _ Happ). destruct (append_all seg' l) as [seg'' accepted].
  destruct (is_ok r); [|done]. by rewrite <-app_assoc in IH.
Qed.

(** The parts of a segment: every accumulator once, by its id. *)
Lemma into_parts_spec seg accepted accs entries :
  seg_holds seg accepted → into_parts seg = Ok (accs, entries) →
  entries = manifest seg ∧ NoDup (stream_id <$> accs) ∧ zlen accs ≤ MAX_STREAMS_PER_SEGMENT
  ∧ ∀ acc, acc ∈ accs ↔ ∃ key, streams seg !! key = Some acc.
Proof.
  intros [Hok _ _]. unfold into_parts. rewrite (seg_open _ Hok). destruct (is_empty seg); [done|].
  intros [= <- <-]. destruct (sort_by_key_spec stream_id (map_to_list (streams seg)).*2) as [Hperm Hsorted].
  split; [done|]. split_and!.
  - rewrite Hperm, <-list_fmap_compose. apply NoDup_fmap_2_strong; [|apply NoDup_map_to_list].
    intros [k a] [k' a'] H1%elem_of_map_to_list H2%elem_of_map_to_list Hid. simpl in Hid.
    pose proof (seg_ids _ Hok k k' a a' H1 H2 Hid). congruence.
  - unfold zlen. rewrite Hperm, length_fmap, length_map_to_list. exact (seg_limit _ Hok).
  - intros acc. rewrite Hperm, list_elem_of_fmap. split.
    + intros ([k a] & -> & Hin%elem_of_map_to_list). by exists k.
    + intros (key & Hkey). exists (key, acc). split; [done|]. by apply elem_of_map_to_list.
Qed.

(** At most one reference per slot of the descriptor. *)
Lemma refs_size seg b slots refs : refs_hold seg b slots refs → (size refs ≤ length slots)%nat.
Proof.
  intros Hr. rewrite <-size_dom. transitivity (size (list_to_set slots : gset Z)).
  - apply subseteq_size. intros slot Hin. apply elem_of_dom in Hin as [ref Href].
    specialize (Hr slot). rewrite Href in Hr. destruct Hr as (p & ? & _). by apply elem_of_list_to_set.
  - clear. induction slots as [|x l IH]; [done|]. rewrite list_to_set_cons. cbn [length].
    rewrite size_union_alt, size_singleton.
    assert (size (list_to_set l ∖ {[x]} : gset Z) ≤ size (list_to_set l : gset Z))%nat; [|lia].
    apply subseteq_size. set_solver.
Qed.

End open_segment.
End OpenSegment.
