(* ===== verification/SegmentFile.v ===== *)
(** * Segment files

    Model of [crates/quiver/src/segment/writer.rs] and [reader.rs]: the bytes of a
    finalized segment (aligned streams, stream directory, batch manifest, footer
    and trailer with the checksum), and the reader that checks a file and
    reconstructs its bundles.  The CRC-32 of the [crc32fast] crate is the parameter
    [crc32]; the iteration order of the slots of a manifest entry, a hash map, is
    the parameter [slots]. *)
From S2P Require Import Prelude Bytes Files WalFormat Arrow SegmentTypes Dictionaries OpenSegment.
Export OpenSegment.

Local Open Scope Z_scope.
Local Open Scope outcome_scope.

Module SegmentFile.
Section segment_file.
Context `{HA : Arrow} (crc32 : list Z → Z) (slots : ManifestEntry → list (Z * SlotChunkRef)).

(** ** Writer *)

Definition STREAM_ALIGNMENT : Z := 64.

Definition plain_field (n : string) (t : DataType) (null : bool) : Field := mkField n t null [].

(** [FileWriter::try_new], one [write] and [finish]. *)
Definition encode_as_ipc (b : RecordBatch) : outcome (list Z) := of_arrow (ipc_write (batch_schema b) [b]).

Definition directory_fields : list Field :=
  [plain_field "stream_id" UInt32 false; plain_field "slot_id" UInt16 false;
   plain_field "schema_fingerprint" (FixedSizeBinary 32) false; plain_field "byte_offset" UInt64 false;
   plain_field "byte_length" UInt64 false; plain_field "row_count" UInt64 false;
   plain_field "chunk_count" UInt32 false].

Definition encode_stream_directory (l : list StreamMetadata) : outcome (list Z) :=
  fingerprints ←? of_arrow (fixed_binary_array 32 (meta_fingerprint <$> l));
  b ←? of_arrow (batch_try_new (mkSchema directory_fields [])
         [uint_array UInt32 (Some <$> (id <$> l)); uint_array UInt16 (Some <$> (meta_slot_id <$> l)); fingerprints;
          uint_array UInt64 (Some <$> (byte_offset <$> l)); uint_array UInt64 (Some <$> (byte_length <$> l));
          uint_array UInt64 (Some <$> (meta_row_count <$> l)); uint_array UInt32 (Some <$> (meta_chunk_count <$> l))]);
  encode_as_ipc b.

Definition slot_ref_fields : list Field :=
  [plain_field "slot_id" UInt16 false; plain_field "stream_id" UInt32 false; plain_field "chunk_index" UInt32 false].

Definition slot_refs_type : DataType := ListType (plain_field "item" (Struct slot_ref_fields) true).

Definition has_item_counts (entries : list ManifestEntry) : bool :=
  forallb (λ e, bool_decide (is_Some (exact_item_count e))) entries.

Definition has_any_byte_counts (entries : list ManifestEntry) : bool :=
  existsb (λ e, bool_decide (is_Some (exact_byte_count e))) entries.

(** The fields of the manifest with their columns, in the order of the schema. *)
Definition manifest_columns (entries : list ManifestEntry) : list (Field * ArrayRef) :=
  [(plain_field "bundle_index" UInt32 false, uint_array UInt32 (Some <$> (bundle_index <$> entries)))] ++
  (if has_item_counts entries
   then [(plain_field "item_count" UInt64 false, uint_array UInt64 (Some <$> omap exact_item_count entries))]
   else []) ++
  (if has_any_byte_counts entries
   then [(plain_field "byte_count" UInt64 true, uint_array UInt64 (exact_byte_count <$> entries))]
   else []) ++
  [(plain_field "slot_refs" slot_refs_type false,
    list_array slot_ref_fields
      ((λ e, (λ '(slot, r), [slot; ref_stream_id r; ref_chunk_index r]) <$> slots e) <$> entries))].

Definition encode_manifest (entries : list ManifestEntry) : outcome (list Z) :=
  let cols := manifest_columns entries in
  b ←? of_arrow (batch_try_new (mkSchema cols.*1 []) cols.*2);
  encode_as_ipc b.

(** The first loop: the file so far, the offset and the metadata of the streams. *)
Fixpoint write_streams (accs : list StreamAccumulator) (out : list Z) (offset : Z)
    : outcome (list Z * Z * list StreamMetadata) :=
  match accs with
  | [] => Return (out, offset, [])
  | acc :: accs =>
      let padding := (STREAM_ALIGNMENT - offset mod STREAM_ALIGNMENT) mod STREAM_ALIGNMENT in
      let out := out ++ replicate (Z.to_nat padding) 0 in
      let offset := offset + padding in
      '(bytes, meta) ←? write_to acc offset;
      '(out', offset', metas) ←? write_streams accs (out ++ bytes) (offset + byte_length meta);
      Return (out', offset', meta :: metas)
  end.

(** The bytes written, their number and the checksum. *)
Definition write_streaming (accs : list StreamAccumulator) (entries : list ManifestEntry)
    : outcome (list Z * Z * Z) :=
  _ ←? require (zlen accs <=? MAX_STREAMS_PER_SEGMENT) "segment exceeds the limit of streams";
  _ ←? require (zlen entries <=? MAX_BUNDLES_PER_SEGMENT) "segment exceeds the limit of bundles";
  '(out, offset, metas) ←? write_streams accs [] 0;
  directory ←? encode_stream_directory metas;
  let manifest_offset := offset + zlen directory in
  manifest ←? encode_manifest entries;
  let end_offset := manifest_offset + zlen manifest in
  let footer := footer_encode (mkFooter SEGMENT_VERSION (zlen metas mod 2 ^ 32) (zlen entries mod 2 ^ 32)
                  offset (zlen directory mod 2 ^ 32) manifest_offset (zlen manifest mod 2 ^ 32)) in
  let trailer := take (TRAILER_SIZE - 4) (trailer_encode (zlen footer mod 2 ^ 32)) in
  let body := out ++ directory ++ manifest ++ footer ++ trailer in
  let crc := crc32 body in
  Return (body ++ to_le_bytes 4 crc, end_offset + zlen footer + Z.of_nat TRAILER_SIZE, crc).

(** ** Reader *)

Record StreamDecoder := mkDecoder {
  decoder_buffer : list Z;
  file_decoder : FileDecoder;
  decoder_batches : list Block;
}.

(** [as usize] of a signed integer. *)
Definition as_usize (z : Z) : Z := z mod 2 ^ 64.

(** Offset and length of a block, checked against overflow and the buffer. *)
Definition checked_block (len : Z) (k : Block) : outcome (Z * Z) :=
  let block_len := as_usize (bodyLength k) + as_usize (metaDataLength k) in
  _ ←? require (block_len <=? usize_max) "block length overflow";
  let block_end := as_usize (block_offset k) + block_len in
  _ ←? require (block_end <=? usize_max) "block offset+length overflow";
  _ ←? require (block_end <=? len) "block extends beyond buffer";
  Return (as_usize (block_offset k), block_len).

(** [buffer.slice_with_length(offset, length)] *)
Definition slice_with_length (offset len : Z) (buffer : list Z) : list Z :=
  slice (Z.to_nat offset) (Z.to_nat (offset + len)) buffer.

Fixpoint decode_dictionaries (d : FileDecoder) (l : list Block) (buffer : list Z) : outcome FileDecoder :=
  match l with
  | [] => Return d
  | k :: l =>
      '(offset, len) ←? checked_block (zlen buffer) k;
      d' ←? of_arrow (read_dictionary d k (slice_with_length offset len buffer));
      decode_dictionaries d' l buffer
  end.

Definition decoder_open (buffer : list Z) : outcome StreamDecoder :=
  _ ←? require (10 <=? length buffer)%nat "IPC stream too short";
  let trailer_start := (length buffer - 10)%nat in
  footer_len ←? of_arrow (read_footer_length (drop trailer_start buffer));
  _ ←? require (footer_len <=? Z.of_nat trailer_start) "IPC footer length exceeds available space";
  footer ←? of_option (InvalidFormat "invalid IPC footer")
              (root_as_footer (slice (trailer_start - Z.to_nat footer_len) trailer_start buffer));
  schema ←? of_option (InvalidFormat "IPC footer missing schema") (footer_schema footer);
  _ ←? require (zlen (footer_dictionaries footer) <=? MAX_DICTIONARIES_PER_STREAM)
         "IPC stream exceeds the limit of dictionaries";
  d ←? decode_dictionaries (decoder_new footer schema) (footer_dictionaries footer) buffer;
  _ ←? require (zlen (footer_batches footer) <=? MAX_CHUNKS_PER_STREAM) "IPC stream exceeds the limit of batches";
  _ ←? collect (checked_block (zlen buffer)) (footer_batches footer);
  Return (mkDecoder buffer d (footer_batches footer)).

(** [get_batch] followed by [ok_or_else] on the missing batch. *)
Definition get_batch (d : StreamDecoder) (index : Z) : outcome RecordBatch :=
  k ←? of_option (InvalidFormat "batch index out of bounds") (decoder_batches d !! Z.to_nat index);
  let block_len := as_usize (bodyLength k) + as_usize (metaDataLength k) in
  _ ←? require (block_len <=? usize_max) "block length overflow";
  o ←? of_arrow (read_record_batch (file_decoder d) k
                   (slice_with_length (as_usize (block_offset k)) block_len (decoder_buffer d)));
  of_option (InvalidFormat "chunk returned None") o.

Definition validate_region (len offset length : Z) : outcome unit :=
  _ ←? require (offset + length <=? u64_max) "offset+length overflow";
  require (offset + length <=? len) "region extends beyond buffer".

Definition get_primitive_column (b : RecordBatch) (n : string) (t : DataType) : outcome (list Z) :=
  col ←? of_option (InvalidFormat "missing column") (column_by_name b n);
  of_option (InvalidFormat "column has the wrong type") (uint_values t col).

Definition get_fixed_binary_column (b : RecordBatch) (n : string) (size : Z) : outcome (list (list Z)) :=
  col ←? of_option (InvalidFormat "missing column") (column_by_name b n);
  '(len, values) ←? of_option (InvalidFormat "column is not FixedSizeBinary") (fixed_binary_values col);
  _ ←? require (len =? size) "column has the wrong size";
  Return values.

(** The single batch of an IPC region. *)
Definition read_region (buffer : list Z) (offset length : Z) (empty : string) : outcome RecordBatch :=
  d ←? decoder_open (slice_with_length offset length buffer);
  _ ←? require (negb (bool_decide (decoder_batches d = []))) empty;
  get_batch d 0.

(** Row [i] of the directory; indexing beyond a column panics. *)
Definition directory_row (ids slot_ids : list Z) (prints : list (list Z))
    (offsets lengths rows chunks : list Z) (i : nat) : outcome StreamMetadata :=
  print ←? of_panic (prints !! i);
  stream ←? of_panic (ids !! i);
  slot ←? of_panic (slot_ids !! i);
  offset ←? of_panic (offsets !! i);
  length ←? of_panic (lengths !! i);
  row ←? of_panic (rows !! i);
  chunk ←? of_panic (chunks !! i);
  Return (mkMetadata stream slot print offset length row chunk).

Definition read_stream_directory (buffer : list Z) (offset length : Z) : outcome (list StreamMetadata) :=
  b ←? read_region buffer offset length "empty stream directory";
  ids ←? get_primitive_column b "stream_id" UInt32;
  slot_ids ←? get_primitive_column b "slot_id" UInt16;
  prints ←? get_fixed_binary_column b "schema_fingerprint" 32;
  offsets ←? get_primitive_column b "byte_offset" UInt64;
  lengths ←? get_primitive_column b "byte_length" UInt64;
  rows ←? get_primitive_column b "row_count" UInt64;
  chunks ←? get_primitive_column b "chunk_count" UInt32;
  _ ←? require (num_rows b <=? MAX_STREAMS_PER_SEGMENT) "stream directory exceeds the limit of streams";
  collect (directory_row ids slot_ids prints offsets lengths rows chunks) (seq 0 (Z.to_nat (num_rows b))).

(** An optional column of counts: absent in older files, null where unknown. *)
Definition optional_counts (b : RecordBatch) (n : string) : option (list (option Z)) :=
  col ← column_by_name b n; uint_options UInt64 col.

(** [column_by_name(..).as_primitive()] of the struct of slot references, which
    panics on the wrong type, and [value(j)]. *)
Definition struct_values (a : ArrayRef) (n : string) (t : DataType) : outcome (list Z) :=
  col ←? of_option (InvalidFormat "slot_refs struct misses a field") (struct_column_by_name a n);
  of_panic (uint_values t col).

Definition read_slot_refs (entry : ManifestEntry) (a : ArrayRef) : outcome ManifestEntry :=
  _ ←? of_option (InvalidFormat "slot_refs list item is not a Struct") (as_struct a);
  _ ←? require (array_len a <=? MAX_SLOTS_PER_BUNDLE) "bundle exceeds the limit of slots";
  slot_ids ←? struct_values a "slot_id" UInt16;
  stream_ids ←? struct_values a "stream_id" UInt32;
  chunks ←? struct_values a "chunk_index" UInt32;
  refs ←? collect (λ j,
            slot ←? of_panic (slot_ids !! j);
            stream ←? of_panic (stream_ids !! j);
            chunk ←? of_panic (chunks !! j);
            Return (slot, stream, chunk)) (seq 0 (Z.to_nat (array_len a)));
  Return (foldl (λ e '(slot, stream, chunk), add_slot e slot stream chunk) entry refs).

(** [counts.as_ref().and_then(|c| c[i])] *)
Definition count_at (counts : option (list (option Z))) (i : nat) : outcome (option Z) :=
  match counts with None => Return None | Some l => of_panic (l !! i) end.

Definition manifest_row (items bytes : option (list (option Z))) (lists : list ArrayRef) (i : nat) (index : Z)
    : outcome ManifestEntry :=
  item ←? count_at items i;
  byte ←? count_at bytes i;
  a ←? of_panic (lists !! i);
  read_slot_refs (new_with_counts index item byte) a.

Definition read_manifest (buffer : list Z) (offset length : Z) : outcome (list ManifestEntry) :=
  b ←? read_region buffer offset length "empty manifest";
  indices ←? get_primitive_column b "bundle_index" UInt32;
  let items := optional_counts b "item_count" in
  let bytes := optional_counts b "byte_count" in
  col ←? of_option (InvalidFormat "missing column: slot_refs") (column_by_name b "slot_refs");
  lists ←? of_option (InvalidFormat "slot_refs is not a List") (list_values col);
  _ ←? require (num_rows b <=? MAX_BUNDLES_PER_SEGMENT) "manifest exceeds the limit of bundles";
  collect (λ '(i, index), manifest_row items bytes lists i index) (imap pair indices).

Record SegmentReader := mkReader {
  reader_buffer : list Z;
  reader_footer : Footer;
  reader_streams : list StreamMetadata;
  stream_by_id : gmap Z nat;
  reader_manifest : list ManifestEntry;
  stream_decoders : gmap Z StreamDecoder;
}.

Definition read_footer (buffer : list Z) (offset length : nat) : outcome Footer :=
  _ ←? validate_region (zlen buffer) (Z.of_nat offset) (Z.of_nat length);
  footer_decode (slice offset (offset + length) buffer).

(** The index of each stream id; the last one of equal ids. *)
Definition index_streams (l : list StreamMetadata) : gmap Z nat :=
  foldl (λ m '(i, s), <[id s := i]> m) ∅ (imap pair l).

Definition from_buffer (buffer : list Z) : outcome SegmentReader :=
  let file_size := length buffer in
  if (file_size <? TRAILER_SIZE)%nat
  then Raise (Truncated (Z.of_nat TRAILER_SIZE) (Z.of_nat file_size))
  else
    '(footer_size, stored_crc) ←? trailer_decode (drop (file_size - TRAILER_SIZE) buffer);
    _ ←? require (footer_size <=? Z.of_nat (file_size - TRAILER_SIZE)) "footer_size exceeds available space";
    let footer_size := Z.to_nat footer_size in
    footer ←? read_footer buffer (file_size - TRAILER_SIZE - footer_size) footer_size;
    let computed_crc := crc32 (take (file_size - 4) buffer) in
    _ ←? (if computed_crc =? stored_crc then Return tt else Raise (ChecksumMismatch stored_crc computed_crc));
    _ ←? validate_region (zlen buffer) (directory_offset footer) (directory_length footer);
    _ ←? validate_region (zlen buffer) (manifest_offset footer) (manifest_length footer);
    streams ←? read_stream_directory buffer (directory_offset footer) (directory_length footer);
    manifest ←? read_manifest buffer (manifest_offset footer) (manifest_length footer);
    Return (mkReader buffer footer streams (index_streams streams) manifest ∅).

(** [SegmentReader::stream] *)
Definition reader_stream (r : SegmentReader) (stream : Z) : option StreamMetadata :=
  stream_by_id r !! stream ≫= λ i, reader_streams r !! i.

(** The decoder of a stream, built from its region of the file. *)
Definition stream_decoder (r : SegmentReader) (stream : Z) : outcome StreamDecoder :=
  meta ←? of_option (StreamNotFound stream) (reader_stream r stream);
  _ ←? validate_region (zlen (reader_buffer r)) (byte_offset meta) (byte_length meta);
  decoder_open (slice_with_length (byte_offset meta) (byte_length meta) (reader_buffer r)).

Definition read_chunk (r : SegmentReader) (stream chunk : Z) : outcome RecordBatch :=
  d ←? stream_decoder r stream;
  get_batch d chunk.

Definition cache_decoder (r : SegmentReader) (stream : Z) (d : StreamDecoder) : SegmentReader :=
  mkReader (reader_buffer r) (reader_footer r) (reader_streams r) (stream_by_id r) (reader_manifest r)
    (<[stream := d]> (stream_decoders r)).

(** The reader with the cache it leaves. *)
Definition read_chunk_cached (r : SegmentReader) (stream chunk : Z) : SegmentReader * outcome RecordBatch :=
  match stream_decoders r !! stream with
  | Some d => (r, get_batch d chunk)
  | None =>
      match stream_decoder r stream with
      | Return d => (cache_decoder r stream d, get_batch d chunk)
      | Raise e => (r, Raise e)
      | Panicked => (r, Panicked)
      end
  end.

Fixpoint read_payloads (r : SegmentReader) (refs : list (Z * SlotChunkRef)) (acc : gmap Z RecordBatch)
    : SegmentReader * outcome (gmap Z RecordBatch) :=
  match refs with
  | [] => (r, Return acc)
  | (slot, ref) :: refs =>
      match read_chunk_cached r (ref_stream_id ref) (ref_chunk_index ref) with
      | (r', Return b) => read_payloads r' refs (<[slot := b]> acc)
      | (r', Raise e) => (r', Raise e)
      | (r', Panicked) => (r', Panicked)
      end
  end.

(** The payloads of a [ReconstructedBundle], with the index of its entry. *)
Definition read_bundle (r : SegmentReader) (e : ManifestEntry)
    : SegmentReader * outcome (Z * gmap Z RecordBatch) :=
  let '(r', o) := read_payloads r (slots e) ∅ in
  (r', payloads ←? o; Return (bundle_index e, payloads)).

End segment_file.
End SegmentFile.
