(* ===== verification/SegmentRoundtrip.v ===== *)
(** * Segment files read back

    The file the segment writer produces from an open segment is accepted by the
    reader and gives back every bundle the segment accepted: the decoders of the
    streams, the stream directory, the manifest, the footer, and the cache of
    decoders. *)
From S2P Require Import Prelude Bytes Files WalFormat Arrow ArrowModel SegmentTypes Dictionaries OpenSegment SegmentFile.
Export SegmentFile.

Local Open Scope Z_scope.
Local Open Scope outcome_scope.

Module SegmentRoundtrip.

(** ** Regions of a file *)

Lemma slice_with_length_app pre bytes post :
  slice_with_length (zlen pre) (zlen bytes) (pre ++ bytes ++ post) = bytes.
Proof.
  unfold slice_with_length, slice, zlen. rewrite Nat2Z.id, <-Nat2Z.inj_add, Nat2Z.id.
  rewrite drop_app_length. replace (length pre + length bytes - length pre)%nat with (length bytes) by lia.
  by rewrite take_app_length.
Qed.

(** [bytes] lie at an offset of a file. *)
Definition region (file : list Z) (offset : Z) (bytes : list Z) : Prop :=
  ∃ pre post, file = pre ++ bytes ++ post ∧ offset = zlen pre.

Lemma region_slice file offset bytes :
  region file offset bytes → slice_with_length offset (zlen bytes) file = bytes.
Proof. intros (pre & post & -> & ->). apply slice_with_length_app. Qed.

Lemma region_app file offset bytes more : region file offset bytes → region (file ++ more) offset bytes.
Proof. intros (pre & post & -> & ->). exists pre, (post ++ more). by rewrite !app_assoc. Qed.

Lemma region_bound file offset bytes : region file offset bytes → 0 ≤ offset ∧ offset + zlen bytes ≤ zlen file.
Proof.
  intros (pre & post & -> & ->). rewrite !zlen_app.
  pose proof (zlen_nonneg pre). pose proof (zlen_nonneg post). lia.
Qed.

Lemma region_valid file offset bytes :
  region file offset bytes → zlen file ≤ u64_max → validate_region (zlen file) offset (zlen bytes) = Return tt.
Proof.
  intros Hr%region_bound Hf. unfold validate_region.
  rewrite require_true by (apply Z.leb_le; lia). cbn [outcome_bind]. apply require_true, Z.leb_le. lia.
Qed.

(** ** IPC streams *)

Section ipc.
Context `{HL : ArrowLaws}.

Lemma checked_block_ok bytes k :
  zlen bytes ≤ u64_max → block_in bytes k → checked_block (zlen bytes) k = Return (block_offset k, block_len k).
Proof.
  intros Hb (Ho & Hm & Hl & Hend). unfold checked_block, as_usize, block_len in *. unfold u64_max, usize_max in *.
  rewrite !Z.mod_small by lia. unfold u64_max.
  rewrite !require_true by (apply Z.leb_le; lia). done.
Qed.

Lemma decode_dictionaries_ok bytes l : zlen bytes ≤ u64_max → Forall (block_in bytes) l → ∀ d d',
  read_dictionaries d l bytes = Some d' → decode_dictionaries d l bytes = Return d'.
Proof.
  intros Hb. induction 1 as [|k l Hk _ IH]; intros d d'; simpl; [by intros [= ->]|].
  rewrite checked_block_ok by done. cbn [outcome_bind]. intros (d1 & Hd1 & Hrest)%bind_Some.
  unfold slice_with_length. unfold block_data in Hd1. rewrite Hd1. cbn [of_arrow outcome_bind]. by apply IH.
Qed.

(** A decoder gives back the batches of a stream. *)
Record decodes (d : StreamDecoder) (l : list RecordBatch) : Prop := {
  decodes_count : length (decoder_batches d) = length l;
  decodes_batch i b :
    l !! i = Some b → ∃ b', get_batch d (Z.of_nat i) = Return b' ∧ same_batch b b' ∧ batch_valid b';
}.

Lemma ipc_decodes s l bytes :
  Forall (λ b, batch_valid b ∧ batch_schema b = s) l → ipc_write s l = Some bytes →
  zlen bytes ≤ u64_max → zlen l ≤ MAX_CHUNKS_PER_STREAM →
  from_option (λ b, zlen (concat (batch_dictionaries b))) 0 (head l) ≤ MAX_DICTIONARIES_PER_STREAM →
  ∃ d, decoder_open bytes = Return d ∧ decodes d l.
Proof.
  intros Hl Hw Hb Hn Hdict. destruct (ipc_read_law s l bytes Hl Hw Hb) as (flen & footer & schema & dec & Hf & Hval).
  destruct Hf as [Hsize Hfl Hfb Hroot Hsch Hdb Hdc Hbb Hdec Hbat].
  pose proof (Forall2_length _ _ _ Hbat) as Hlen.
  exists (mkDecoder bytes dec (footer_batches footer)). split.
  - unfold decoder_open. unfold zlen in Hsize, Hfb. rewrite require_true by (apply Nat.leb_le; lia).
    cbn [outcome_bind]. rewrite Hfl. cbn [of_arrow outcome_bind].
    rewrite require_true by (apply Z.leb_le; lia). cbn [outcome_bind].
    rewrite Hroot. cbn [of_option outcome_bind]. rewrite Hsch. cbn [of_option outcome_bind].
    rewrite require_true; [|apply Z.leb_le; unfold zlen; destruct l; simpl in *; unfold zlen in *; lia]. cbn [outcome_bind].
    erewrite decode_dictionaries_ok by done. cbn [outcome_bind].
    rewrite require_true by (apply Z.leb_le; unfold zlen in *; lia). cbn [outcome_bind].
    rewrite (proj2 (collect_Forall2 _ _ ((λ k, (block_offset k, block_len k)) <$> footer_batches footer))); [done|].
    rewrite Forall2_fmap_r. apply Forall_Forall2_diag. eapply Forall_impl; [exact Hbb|].
    intros k Hk. by apply checked_block_ok.
  - split; [done|]. intros i b Hi. destruct (Forall2_lookup_l _ _ _ i b Hbat Hi) as (k & Hk & b' & Hread & Hsame).
    exists b'. split; [|by eauto]. unfold get_batch. simpl. rewrite Nat2Z.id, Hk. cbn [of_option outcome_bind].
    rewrite Forall_forall in Hbb. destruct (Hbb k (list_elem_of_lookup_2 _ _ _ Hk)) as (Ho & Hm & Hl' & Hend).
    unfold block_data, block_len in *. unfold as_usize, usize_max, u64_max in *. rewrite !Z.mod_small by lia.
    rewrite require_true by (apply Z.leb_le; unfold u64_max; lia). cbn [outcome_bind]. unfold slice_with_length.
    by rewrite Hread.
Qed.

(** Number of dictionaries in the fields of a schema. *)
Definition schema_dictionaries (s : Schema) : nat := sum_list_with (λ f, dictionary_count (data_type f)) (fields s).

Lemma batch_dictionaries_count b :
  batch_valid b → length (concat (batch_dictionaries b)) = schema_dictionaries (batch_schema b).
Proof.
  unfold batch_valid, batch_dictionaries, schema_dictionaries.
  induction 1 as [|f c l cs (Hv & Ht & _) _ IH]; csimpl; [done|].
  by rewrite length_app, IH, (dictionaries_law c Hv), Ht.
Qed.

Lemma sum_list_with_le {A B} (f : A → nat) (g : B → nat) l k :
  Forall2 (λ x y, (g y ≤ f x)%nat) l k → (sum_list_with g k ≤ sum_list_with f l)%nat.
Proof. induction 1; simpl; lia. Qed.

(** The streams of a segment whose batches can be written. *)
Record stream_writable (acc : StreamAccumulator) : Prop := {
  writable_batches : batches_ok (schema acc) (batches acc);
  writable_dictionaries : Z.of_nat (schema_dictionaries (schema acc)) ≤ MAX_DICTIONARIES_PER_STREAM;
  writable_fingerprint : zlen (schema_fingerprint acc) = 32;
}.

(** Batches without dictionary columns have no dictionaries. *)
Lemma plain_batches s l :
  batches_ok s l → l ≠ [] → has_dict_columns s = false → schema_dictionaries s = 0%nat.
Proof.
  intros Hok Hne Hd. unfold schema_dictionaries.
  assert (Forall (λ f, dictionary_count (data_type f) = 0%nat) (fields s)) as HF.
  { apply Forall_lookup_2. intros i f Hf. destruct (field_columns s l i f Hok Hf) as [arrays Harr].
    destruct (batches_columns _ _ Hok i f arrays Hf) as [_ Hc].
    { eapply Forall2_impl; [exact Harr|]. by intros b a (? & _). }
    assert (field_has_dict (data_type f) = false) as Hfd.
    { unfold has_dict_columns in Hd. apply not_true_iff_false. intros Ht. apply not_true_iff_false in Hd.
      apply Hd, existsb_exists. exists f. split; [|done]. by eapply list_elem_of_In, list_elem_of_lookup_2. }
    destruct (data_type f) as [| | | | | | | |?|k v|cs|?|] eqn:Et; try done.
    destruct (Forall_pick (struct_of cs) arrays) as [structs Hst].
    { eapply Forall2_Forall_r; [exact Harr|]. apply Forall_true. intros b a (_ & Hv & Ht & _).
      apply struct_of_valid; [done|congruence]. }
    eapply plain_struct; [done| | |].
    - apply Hc. eapply Forall2_impl; [exact Hst|]. by intros a st (? & _).
    - intros ->. by apply Forall2_nil_inv_r in Harr.
    - done. }
  clear -HF. induction HF; simpl; lia.
Qed.

Lemma no_shared_dictionaries s b :
  schema_dictionaries s = 0%nat → batch_valid b → batch_schema b = s →
  batch_dictionaries b = replicate (length (columns b)) [].
Proof.
  intros Hz Hv Hs. pose proof (batch_dictionaries_count b Hv) as Hc. rewrite Hs, Hz in Hc.
  unfold batch_dictionaries in *. induction (columns b) as [|c cs IH]; csimpl in *; [done|].
  rewrite length_app in Hc. f_equal; [apply nil_length_inv; lia|]. apply IH. lia.
Qed.

(** Writing a stream succeeds, and its bytes decode to the same rows. *)
Lemma write_ipc_to_spec acc :
  zlen (batches acc) ≤ MAX_CHUNKS_PER_STREAM → stream_writable acc →
  ∃ bytes, write_ipc_to acc = Return bytes ∧
    (zlen bytes ≤ u64_max → ∃ d l, decoder_open bytes = Return d ∧ decodes d l ∧ Forall2 same_rows (batches acc) l).
Proof.
  intros Hch [Hok Hdict _]. unfold write_ipc_to. pose proof (batches_valid _ _ Hok) as Hval.
  assert (Hfin : ∀ s l, Forall (λ b, batch_valid b ∧ batch_schema b = s) l →
    (∀ b c, b ∈ l → c ∈ l → batch_dictionaries b = batch_dictionaries c) →
    (schema_dictionaries s ≤ schema_dictionaries (schema acc))%nat → Forall2 same_rows (batches acc) l →
    ∃ bytes, of_arrow (ipc_write s l) = Return bytes ∧
    (zlen bytes ≤ u64_max → ∃ d l, decoder_open bytes = Return d ∧ decodes d l ∧ Forall2 same_rows (batches acc) l)).
  { intros s l Hl Hshare Hn Hrows. destruct (ipc_write_law s l Hl Hshare) as [bytes Hb]. exists bytes.
    rewrite Hb. split; [done|]. intros Hsize. destruct (ipc_decodes s l bytes) as (d & Hd & Hdec); try done.
    - unfold zlen in *. by rewrite <-(Forall2_length _ _ _ Hrows).
    - destruct l as [|b l]; simpl; [unfold MAX_DICTIONARIES_PER_STREAM; lia|].
      apply Forall_cons in Hl as [[Hbv Hbs] _]. unfold zlen. rewrite (batch_dictionaries_count b Hbv), Hbs. lia.
    - by exists d, l. }
  destruct ((1 <? length (batches acc))%nat && has_dict_columns (schema acc)) eqn:E.
  - apply andb_true_iff in E as [Elen%Nat.ltb_lt _].
    destruct (unify_batch_dicts_spec (schema acc) (batches acc)) as (s' & l' & -> & Hrows & Hv' & Hsh & Hf); [|done|].
    { intros Hnil. rewrite Hnil in Elen. simpl in Elen. lia. }
    cbn [outcome_bind]. apply Hfin; try done. apply sum_list_with_le. eapply Forall2_impl; [exact Hf|].
    intros f f' (t & -> & _ & Ht). done.
  - apply Hfin; try done.
    + apply andb_false_iff in E as [E%Nat.ltb_ge|E].
      { destruct (batches acc) as [|b [|c l]]; [by intros ?? ?%not_elem_of_nil| |simpl in E; lia].
        by intros x y ->%list_elem_of_singleton ->%list_elem_of_singleton. }
      intros b c Hb Hc. rewrite Forall_forall in Hval. destruct (Hval b Hb) as [Hbv Hbs], (Hval c Hc) as [Hcv Hcs].
      assert (schema_dictionaries (schema acc) = 0%nat) as Hz.
      { eapply plain_batches; [done| |done]. intros Hnil. rewrite Hnil in Hb. by apply not_elem_of_nil in Hb. }
      rewrite (no_shared_dictionaries _ b Hz Hbv Hbs), (no_shared_dictionaries _ c Hz Hcv Hcs). f_equal.
      by rewrite <-(Forall2_length _ _ _ Hbv), <-(Forall2_length _ _ _ Hcv), Hbs, Hcs.
    + by apply Forall_Forall2_diag, Forall_true.
Qed.

(** ** Tables of metadata *)

(** A table without dictionaries, written and read back. *)
Lemma encode_as_ipc_spec b :
  batch_valid b → schema_dictionaries (batch_schema b) = 0%nat →
  ∃ bytes, encode_as_ipc b = Return bytes ∧
    ∀ file offset empty, region file offset bytes → zlen file ≤ u64_max →
      ∃ b', read_region file offset (zlen bytes) empty = Return b' ∧ same_batch b b' ∧ batch_valid b'.
Proof.
  intros Hv Hz. unfold encode_as_ipc.
  assert (Hl : Forall (λ c, batch_valid c ∧ batch_schema c = batch_schema b) [b]) by (by constructor).
  destruct (ipc_write_law (batch_schema b) [b] Hl) as [bytes Hb].
  { by intros x y ->%list_elem_of_singleton ->%list_elem_of_singleton. }
  exists bytes. rewrite Hb. split; [done|]. intros file offset empty Hr Hf. pose proof (region_bound _ _ _ Hr).
  destruct (ipc_decodes (batch_schema b) [b] bytes) as (d & Hd & [Hcount Hdec]); try done; [lia| |].
  { simpl. unfold zlen. rewrite (batch_dictionaries_count b Hv), Hz. unfold MAX_DICTIONARIES_PER_STREAM. lia. }
  destruct (Hdec 0%nat b) as (b' & Hb' & Hsame & Hval'); [done|]. exists b'. split; [|done].
  unfold read_region. rewrite (region_slice _ _ _ Hr), Hd. cbn [outcome_bind].
  rewrite require_true; [exact Hb'|]. rewrite bool_decide_eq_false_2; [done|]. intros Hnil. by rewrite Hnil in Hcount.
Qed.

(** Columns by name in the table that was read. *)
Lemma column_read b b' n i c :
  same_batch b b' → batch_valid b' → field_index (fields (batch_schema b)) n = Some i → columns b !! i = Some c →
  ∃ c', column_by_name b' n = Some c' ∧ valid c' ∧ array_type c' = array_type c ∧ cells c' = cells c.
Proof.
  intros (Hs & _ & Hc) Hv Hi Hci. destruct (Forall2_lookup_l _ _ _ i c Hc Hci) as (c' & Hc' & Ht & Hcells).
  exists c'. rewrite (column_by_name_law b' n Hv), Hs, Hi. split; [done|]. split; [|done].
  by destruct (Forall2_lookup_r _ _ _ i c' Hv Hc') as (f & _ & ? & _).
Qed.

Lemma uint_column_read b b' n i t vs :
  is_uint_type t = true → same_batch b b' → batch_valid b' →
  field_index (fields (batch_schema b)) n = Some i → columns b !! i = Some (uint_array t (Some <$> vs)) →
  get_primitive_column b' n t = Return vs.
Proof.
  intros Ht Hs Hv Hi Hc. destruct (column_read b b' n i _ Hs Hv Hi Hc) as (c' & Hc' & Hvc & Htc & Hcells).
  destruct (uint_array_law t (Some <$> vs) Ht) as (_ & Hty & Hce). unfold get_primitive_column. rewrite Hc'.
  cbn [of_option outcome_bind]. rewrite (uint_values_law t c' vs Ht Hvc); [done|congruence|].
  rewrite Hcells, Hce, <-list_fmap_compose. done.
Qed.

Lemma uint_no_null {A} t (f : A → Z) l : is_uint_type t = true → Null ∉ cells (uint_array t (Some <$> (f <$> l))).
Proof.
  intros Ht. destruct (uint_array_law t (Some <$> (f <$> l)) Ht) as (_ & _ & ->).
  intros (v & Hv & (z & -> & _)%list_elem_of_fmap)%list_elem_of_fmap. done.
Qed.

(** A column of integers as [try_new] wants it. *)
Lemma uint_column {A} t (f : A → Z) l n m :
  is_uint_type t = true →
  let c := uint_array t (Some <$> (f <$> l)) in
  valid c ∧ array_type c = t ∧ array_len c = zlen l ∧ (nullable (plain_field n t m) = false → Null ∉ cells c).
Proof.
  intros Ht c. destruct (uint_array_law t (Some <$> (f <$> l)) Ht) as (Hv & Hty & Hc). split_and!; try done.
  - unfold array_len, c. rewrite Hc. unfold zlen. by rewrite !length_fmap.
  - intros _. by apply uint_no_null.
Qed.

(** ** Stream directory *)

Lemma directory_rows (l : list StreamMetadata) :
  collect (directory_row (id <$> l) (meta_slot_id <$> l) (meta_fingerprint <$> l) (byte_offset <$> l)
    (byte_length <$> l) (meta_row_count <$> l) (meta_chunk_count <$> l)) (seq 0 (length l)) = Return l.
Proof.
  apply collect_Forall2, Forall2_same_length_lookup_2; [by rewrite length_seq|].
  intros i j m [-> Hlt]%lookup_seq Hm. simpl. unfold directory_row.
  rewrite !list_lookup_fmap, !Hm. simpl. by destruct m.
Qed.

(** The table the encoder builds from columns of a schema. *)
Lemma table_batch s l n :
  l ≠ [] →
  Forall2 (λ f c, valid c ∧ array_type c = data_type f ∧ array_len c = n ∧ (nullable f = false → Null ∉ cells c))
    (fields s) l →
  ∃ b, batch_try_new s l = Some b ∧ batch_schema b = s ∧ columns b = l ∧ num_rows b = n ∧ batch_valid b.
Proof.
  intros Hne HF. destruct (batch_try_new_law s l n Hne HF) as (b & Hb & Hs & Hc & Hn).
  exists b. split_and!; try done. unfold batch_valid. rewrite Hs, Hc, Hn.
  eapply Forall2_impl; [exact HF|]. by intros f c (? & ? & ? & _).
Qed.

Lemma fingerprint_read b b' n i c l :
  same_batch b b' → batch_valid b' → field_index (fields (batch_schema b)) n = Some i → columns b !! i = Some c →
  array_type c = FixedSizeBinary 32 → cells c = Scalar <$> l → get_fixed_binary_column b' n 32 = Return l.
Proof.
  intros Hs Hv Hi Hc Ht Hcells. destruct (column_read b b' n i c Hs Hv Hi Hc) as (c' & Hc' & Hvc & Htc & Hcc).
  unfold get_fixed_binary_column. rewrite Hc'. cbn [of_option outcome_bind].
  by rewrite (fixed_binary_values_law c' 32 l) by congruence.
Qed.

Lemma directory_roundtrip l :
  Forall (λ m, zlen (meta_fingerprint m) = 32) l → zlen l ≤ MAX_STREAMS_PER_SEGMENT →
  ∃ bytes, encode_stream_directory l = Return bytes ∧
    ∀ file offset, region file offset bytes → zlen file ≤ u64_max →
      read_stream_directory file offset (zlen bytes) = Return l.
Proof.
  intros Hfp Hn. destruct (fixed_binary_array_law 32 (meta_fingerprint <$> l)) as (fp & Hf & Hfv & Hft & Hfc).
  { by apply Forall_fmap. }
  unfold encode_stream_directory. rewrite Hf. cbn [of_arrow outcome_bind].
  destruct (table_batch (mkSchema directory_fields [])
    [uint_array UInt32 (Some <$> (id <$> l)); uint_array UInt16 (Some <$> (meta_slot_id <$> l)); fp;
     uint_array UInt64 (Some <$> (byte_offset <$> l)); uint_array UInt64 (Some <$> (byte_length <$> l));
     uint_array UInt64 (Some <$> (meta_row_count <$> l)); uint_array UInt32 (Some <$> (meta_chunk_count <$> l))]
    (zlen l)) as (b & -> & Hbs & Hbc & Hbn & Hbv); [done| |].
  { simpl. do 2 (constructor; [by apply uint_column|]). constructor; [|by do 4 (constructor; [by apply uint_column|])].
    split_and!; [done|done| |].
    - unfold array_len, zlen. by rewrite Hfc, !length_fmap.
    - intros _. rewrite Hfc. by intros (v & Hv & _)%list_elem_of_fmap. }
  cbn [of_arrow outcome_bind]. destruct (encode_as_ipc_spec b Hbv) as (bytes & Hbytes & Hread); [by rewrite Hbs|].
  exists bytes. split; [done|]. intros file offset Hr Hsize.
  destruct (Hread file offset "empty stream directory"%string Hr Hsize) as (b' & Hb' & Hsame & Hv').
  unfold read_stream_directory. rewrite Hb'. cbn [outcome_bind].
  rewrite (uint_column_read b b' "stream_id" 0 UInt32 (id <$> l)) by (rewrite ?Hbs, ?Hbc; done). cbn [outcome_bind].
  rewrite (uint_column_read b b' "slot_id" 1 UInt16 (meta_slot_id <$> l)) by (rewrite ?Hbs, ?Hbc; done).
  cbn [outcome_bind]. erewrite (fingerprint_read b b' "schema_fingerprint" 2 fp) by (rewrite ?Hbs, ?Hbc; done).
  cbn [outcome_bind].
  rewrite (uint_column_read b b' "byte_offset" 3 UInt64 (byte_offset <$> l)) by (rewrite ?Hbs, ?Hbc; done).
  cbn [outcome_bind].
  rewrite (uint_column_read b b' "byte_length" 4 UInt64 (byte_length <$> l)) by (rewrite ?Hbs, ?Hbc; done).
  cbn [outcome_bind].
  rewrite (uint_column_read b b' "row_count" 5 UInt64 (meta_row_count <$> l)) by (rewrite ?Hbs, ?Hbc; done).
  cbn [outcome_bind].
  rewrite (uint_column_read b b' "chunk_count" 6 UInt32 (meta_chunk_count <$> l)) by (rewrite ?Hbs, ?Hbc; done).
  cbn [outcome_bind]. destruct Hsame as (_ & Hrows & _). rewrite Hrows, Hbn.
  rewrite require_true by (by apply Z.leb_le). cbn [outcome_bind]. unfold zlen. rewrite Nat2Z.id. apply directory_rows.
Qed.

(** ** Manifest *)

(** A field of a struct array, from the tuples in its rows. *)
Lemma struct_child_cells {A} x fs cs nulls j c (f : A → list Value) (g : A → Z) (l : list A) :
  valid x → array_type x = Struct fs → as_struct x = Some (cs, nulls) → cs !! j = Some c →
  cells x = (λ a, Tuple (f a)) <$> l → (∀ a, f a !! j = Some (Int (g a))) → cells c = Int <$> (g <$> l).
Proof.
  intros Hv Ht Has Hc Hx Hf. destruct (as_struct_law x fs Hv Ht) as (cs' & nulls' & Has' & HF & _ & Hcells & _).
  rewrite Has in Has'. injection Has' as <- <-.
  destruct (Forall2_lookup_r _ _ _ j c HF Hc) as (fd & _ & _ & _ & Hlen). unfold array_len, zlen in Hlen.
  assert (length (cells x) = length l) as Hxl by (by rewrite Hx, length_fmap).
  apply list_eq_same_length with (n := length l); rewrite ?length_fmap; [done|lia|].
  intros i v w Hi Hvi Hwi. rewrite !list_lookup_fmap in Hwi. destruct (l !! i) as [a|] eqn:Ea; simplify_eq/=.
  assert (cells x !! i = Some (Tuple (f a))) as Hxi by (by rewrite Hx, list_lookup_fmap, Ea).
  rewrite Hcells in Hxi. unfold struct_cells in Hxi. rewrite list_lookup_fmap, lookup_seq_lt in Hxi by lia.
  simpl in Hxi.
  destruct (masked nulls i); simplify_eq/=. specialize (Hf a). rewrite <-Hxi in Hf.
  rewrite !list_lookup_fmap, Hc in Hf. simpl in Hf. rewrite Hvi in Hf. by simplify_eq/=.
Qed.

(** The row of one manifest entry: its slot references. *)
Definition ref_tuple (r : Z * SlotChunkRef) : Value :=
  Tuple [Int r.1; Int (ref_stream_id r.2); Int (ref_chunk_index r.2)].

Lemma struct_values_read {A} x cs nulls j c n t (f : A → list Value) (g : A → Z) (l : list A) :
  valid x → array_type x = Struct slot_ref_fields → as_struct x = Some (cs, nulls) →
  field_index slot_ref_fields n = Some j → cs !! j = Some c → valid c → array_type c = t → is_uint_type t = true →
  cells x = (λ a, Tuple (f a)) <$> l → (∀ a, f a !! j = Some (Int (g a))) →
  struct_values x n t = Return (g <$> l).
Proof.
  intros Hv Ht Has Hn Hc Hvc Htc Hu Hx Hf. unfold struct_values.
  rewrite (struct_column_law x slot_ref_fields cs nulls n Hv Ht Has), Hn. simpl. rewrite Hc.
  cbn [of_option outcome_bind]. rewrite (uint_values_law t c (g <$> l)); try done.
  exact (struct_child_cells x _ cs nulls j c f g l Hv Ht Has Hc Hx Hf).
Qed.

Lemma read_slot_refs_spec e x (l : list (Z * SlotChunkRef)) :
  valid x → array_type x = Struct slot_ref_fields → cells x = ref_tuple <$> l → zlen l ≤ MAX_SLOTS_PER_BUNDLE →
  read_slot_refs e x = Return (foldl (λ e '(slot, r), add_slot e slot (ref_stream_id r) (ref_chunk_index r)) e l).
Proof.
  intros Hv Ht Hx Hl. destruct (as_struct_law x _ Hv Ht) as (cs & nulls & Has & HF & _).
  assert (array_len x = zlen l) as Hlen by (unfold array_len, zlen; by rewrite Hx, length_fmap).
  pose proof (Forall2_length _ _ _ HF) as Hcl.
  destruct cs as [|c0 [|c1 [|c2 [|? ?]]]]; try done. repeat (apply Forall2_cons in HF as [(? & ? & ?) HF]).
  unfold read_slot_refs. rewrite Has. cbn [of_option outcome_bind]. rewrite Hlen.
  rewrite require_true by (by apply Z.leb_le). cbn [outcome_bind].
  rewrite (struct_values_read x _ nulls 0 c0 "slot_id" UInt16 (λ r : Z * SlotChunkRef,
    [Int r.1; Int (ref_stream_id r.2); Int (ref_chunk_index r.2)]) fst l) by done. cbn [outcome_bind].
  rewrite (struct_values_read x _ nulls 1 c1 "stream_id" UInt32 (λ r : Z * SlotChunkRef,
    [Int r.1; Int (ref_stream_id r.2); Int (ref_chunk_index r.2)]) (λ r, ref_stream_id r.2) l) by done. cbn [outcome_bind].
  rewrite (struct_values_read x _ nulls 2 c2 "chunk_index" UInt32 (λ r : Z * SlotChunkRef,
    [Int r.1; Int (ref_stream_id r.2); Int (ref_chunk_index r.2)]) (λ r, ref_chunk_index r.2) l) by done. cbn [outcome_bind].
  erewrite (proj2 (collect_Forall2 _ _ ((λ r, (r.1, ref_stream_id r.2, ref_chunk_index r.2)) <$> l))).
  - cbn [outcome_bind]. f_equal. clear. revert e. induction l as [|[slot r] l IH]; intros e; simpl; [done|]. apply IH.
  - apply Forall2_same_length_lookup_2; [rewrite length_seq, length_fmap; unfold zlen; lia|].
    intros i j r [-> Hlt]%lookup_seq Hr. rewrite !list_lookup_fmap in *. simpl.
    destruct (l !! i) as [a|] eqn:Ea; simplify_eq/=. done.
Qed.

Lemma add_slots_spec l e :
  NoDup l.*1 →
  foldl (λ e '(slot, r), add_slot e slot (ref_stream_id r) (ref_chunk_index r)) e l =
    mkManifestEntry (bundle_index e) (exact_item_count e) (exact_byte_count e)
      (list_to_map l ∪ slot_refs e).
Proof.
  revert e. induction l as [|[slot r] l IH]; intros e Hnd; simpl.
  { rewrite (left_id_L ∅ (∪)). by destruct e. }
  apply NoDup_cons in Hnd as [Hnotin Hnd]. rewrite IH by done. simpl. f_equal.
  rewrite <-insert_union_r, insert_union_l; [by destruct r|].
  by apply not_elem_of_list_to_map.
Qed.

Section manifest.
Context (slots : ManifestEntry → list (Z * SlotChunkRef)).
Hypothesis slots_perm : ∀ e, slots e ≡ₚ map_to_list (slot_refs e).

(** An entry as the file holds it: item counts are kept if every bundle of the
    segment has one. *)
Definition stored_entry (entries : list ManifestEntry) (e : ManifestEntry) : ManifestEntry :=
  mkManifestEntry (bundle_index e) (if has_item_counts entries then exact_item_count e else None)
    (exact_byte_count e) (slot_refs e).

Definition slots_ok (e : ManifestEntry) : Prop := Z.of_nat (size (slot_refs e)) ≤ MAX_SLOTS_PER_BUNDLE.

Lemma slots_to_map e : list_to_map (slots e) = slot_refs e.
Proof.
  rewrite (list_to_map_proper (slots e) (map_to_list (slot_refs e))); [apply list_to_map_to_list| |done].
  rewrite slots_perm. apply NoDup_fst_map_to_list.
Qed.

Lemma read_entry e x items bytes :
  slots_ok e → valid x → array_type x = Struct slot_ref_fields → cells x = ref_tuple <$> slots e →
  read_slot_refs (new_with_counts (bundle_index e) items bytes) x =
    Return (mkManifestEntry (bundle_index e) items bytes (slot_refs e)).
Proof.
  intros Hs Hv Ht Hx. rewrite (read_slot_refs_spec _ x (slots e)); try done.
  - rewrite add_slots_spec by (rewrite slots_perm; apply NoDup_fst_map_to_list). simpl.
    by rewrite (right_id_L ∅ (∪)), slots_to_map.
  - unfold zlen. by rewrite slots_perm, length_map_to_list.
Qed.

Lemma item_counts_column entries :
  has_item_counts entries = true → Some <$> omap exact_item_count entries = exact_item_count <$> entries.
Proof.
  unfold has_item_counts. induction entries as [|e l IH]; simpl; [done|].
  intros [[n Hn]%bool_decide_eq_true Hl]%andb_true_iff. rewrite Hn. simpl. f_equal. by apply IH.
Qed.

Lemma byte_counts_absent entries :
  has_any_byte_counts entries = false → ∀ e, e ∈ entries → exact_byte_count e = None.
Proof.
  unfold has_any_byte_counts. induction entries as [|e l IH]; simpl; [by intros _ e ?%not_elem_of_nil|].
  intros [He%bool_decide_eq_false Hl]%orb_false_iff e' [->|Hin]%elem_of_cons; [|by apply IH].
  by apply eq_None_not_Some.
Qed.

(** An optional column of counts. *)
Lemma optional_counts_read b b' n i vs :
  same_batch b b' → batch_valid b' → field_index (fields (batch_schema b)) n = Some i →
  columns b !! i = Some (uint_array UInt64 vs) → optional_counts b' n = Some vs.
Proof.
  intros Hs Hv Hi Hc. destruct (column_read b b' n i _ Hs Hv Hi Hc) as (c' & Hc' & Hvc & Htc & Hcells).
  destruct (uint_array_law UInt64 vs eq_refl) as (_ & Hty & Hce). unfold optional_counts. rewrite Hc'. simpl.
  apply uint_options_law; [done|done|congruence|congruence].
Qed.

Lemma optional_counts_absent b b' n :
  same_batch b b' → batch_valid b' → field_index (fields (batch_schema b)) n = None → optional_counts b' n = None.
Proof.
  intros (Hs & _) Hv Hi. unfold optional_counts. by rewrite (column_by_name_law b' n Hv), Hs, Hi.
Qed.

Lemma ref_rows_length (entries : list ManifestEntry) :
  Forall (Forall (λ r, length r = length slot_ref_fields))
    ((λ e, (λ '(slot, r), [slot; ref_stream_id r; ref_chunk_index r]) <$> slots e) <$> entries).
Proof. apply Forall_fmap, Forall_true. intros e. simpl. apply Forall_fmap, Forall_true. by intros [slot r]. Qed.

(** The columns of the manifest. *)
Lemma manifest_columns_ok entries :
  Forall2 (λ f c, valid c ∧ array_type c = data_type f ∧ array_len c = zlen entries
    ∧ (nullable f = false → Null ∉ cells c)) (manifest_columns slots entries).*1 (manifest_columns slots entries).*2.
Proof.
  apply Forall2_fmap, Forall_Forall2_diag. unfold manifest_columns. rewrite !Forall_app, !Forall_singleton.
  split; [by apply uint_column|]. split; [|split].
  - destruct (has_item_counts entries) eqn:E; [|done]. apply Forall_singleton.
    rewrite (item_counts_column _ E). destruct (uint_array_law UInt64 (exact_item_count <$> entries) eq_refl) as (Hv & Ht & Hc).
    split_and!; [done|done| |].
    + unfold array_len, zlen. simpl. by rewrite Hc, !length_fmap.
    + intros _. simpl. rewrite Hc, <-(item_counts_column _ E), <-list_fmap_compose.
      by intros (v & Hv' & _)%list_elem_of_fmap.
  - destruct (has_any_byte_counts entries); [|done]. apply Forall_singleton.
    destruct (uint_array_law UInt64 (exact_byte_count <$> entries) eq_refl) as (Hv & Ht & Hc).
    split_and!; [done|done| |done]. unfold array_len, zlen. simpl. by rewrite Hc, !length_fmap.
  - destruct (list_array_law slot_ref_fields
      ((λ e, (λ '(slot, r), [slot; ref_stream_id r; ref_chunk_index r]) <$> slots e) <$> entries))
      as (Hv & Ht & Hc); [done|by repeat constructor|by apply ref_rows_length|].
    split_and!; [done|done| |].
    + unfold array_len, zlen. simpl. by rewrite Hc, !length_fmap.
    + intros _. simpl. rewrite Hc. by intros (v & Hv' & _)%list_elem_of_fmap.
Qed.

(** Positions of the columns. *)
Lemma manifest_index entries :
  let cols := manifest_columns slots entries in
  (∃ i, field_index cols.*1 "bundle_index" = Some i ∧
     cols.*2 !! i = Some (uint_array UInt32 (Some <$> (bundle_index <$> entries))))
  ∧ (if has_item_counts entries
     then ∃ i, field_index cols.*1 "item_count" = Some i ∧
       cols.*2 !! i = Some (uint_array UInt64 (Some <$> omap exact_item_count entries))
     else field_index cols.*1 "item_count" = None)
  ∧ (if has_any_byte_counts entries
     then ∃ i, field_index cols.*1 "byte_count" = Some i ∧
       cols.*2 !! i = Some (uint_array UInt64 (exact_byte_count <$> entries))
     else field_index cols.*1 "byte_count" = None)
  ∧ (∃ i, field_index cols.*1 "slot_refs" = Some i ∧
     cols.*2 !! i = Some (list_array slot_ref_fields
       ((λ e, (λ '(slot, r), [slot; ref_stream_id r; ref_chunk_index r]) <$> slots e) <$> entries))).
Proof.
  unfold manifest_columns. destruct (has_item_counts entries), (has_any_byte_counts entries); split_and!;
    first [exists 0%nat; split; reflexivity | exists 1%nat; split; reflexivity | exists 2%nat; split; reflexivity
          | exists 3%nat; split; reflexivity | reflexivity].
Qed.

Lemma ref_rows (l : list (Z * SlotChunkRef)) :
  (λ r : list Z, Tuple (Int <$> r)) <$> ((λ '(slot, r), [slot; ref_stream_id r; ref_chunk_index r]) <$> l) =
    ref_tuple <$> l.
Proof. rewrite <-list_fmap_compose. apply list_fmap_ext. by intros i [slot r] _. Qed.

(** The lists of slot references, one array per entry. *)
Lemma slot_refs_read b b' i entries :
  same_batch b b' → batch_valid b' → field_index (fields (batch_schema b)) "slot_refs" = Some i →
  columns b !! i = Some (list_array slot_ref_fields
    ((λ e, (λ '(slot, r), [slot; ref_stream_id r; ref_chunk_index r]) <$> slots e) <$> entries)) →
  ∃ col lists, column_by_name b' "slot_refs" = Some col ∧ list_values col = Some lists
    ∧ Forall2 (λ e x, valid x ∧ array_type x = Struct slot_ref_fields ∧ cells x = ref_tuple <$> slots e) entries lists.
Proof.
  intros Hs Hv Hi Hc. destruct (column_read b b' _ i _ Hs Hv Hi Hc) as (col & Hcol & Hvc & Htc & Hcells).
  destruct (list_array_law slot_ref_fields _ ltac:(done) ltac:(by repeat constructor) (ref_rows_length entries))
    as (_ & Ht & Hce). rewrite Ht in Htc. rewrite Hce in Hcells.
  destruct (list_values_law col _ ((λ e, ref_tuple <$> slots e) <$> entries) Hvc Htc) as (lists & Hl & HF).
  { rewrite Hcells, <-!list_fmap_compose. apply list_fmap_ext. intros j e _. simpl. f_equal. apply ref_rows. }
  exists col, lists. split_and!; [done..|]. by rewrite Forall2_fmap_l in HF.
Qed.

(** The counts of the entry at a row. *)
Lemma counts_read b b' entries i e :
  same_batch b b' → batch_valid b' → fields (batch_schema b) = (manifest_columns slots entries).*1 →
  columns b = (manifest_columns slots entries).*2 → entries !! i = Some e →
  count_at (optional_counts b' "item_count") i =
    Return (if has_item_counts entries then exact_item_count e else None)
  ∧ count_at (optional_counts b' "byte_count") i = Return (exact_byte_count e).
Proof.
  intros Hs Hv Hf Hc He. destruct (manifest_index entries) as (_ & Hitems & Hbytes & _). rewrite <-Hf, <-Hc in *. split.
  - destruct (has_item_counts entries) eqn:E.
    + destruct Hitems as (k & Hk & Hck). rewrite (optional_counts_read b b' "item_count" k _ Hs Hv Hk Hck). simpl.
      by rewrite (item_counts_column _ E), list_lookup_fmap, He.
    + by rewrite (optional_counts_absent b b' "item_count" Hs Hv Hitems).
  - destruct (has_any_byte_counts entries) eqn:E.
    + destruct Hbytes as (k & Hk & Hck). rewrite (optional_counts_read b b' "byte_count" k _ Hs Hv Hk Hck). simpl.
      by rewrite list_lookup_fmap, He.
    + rewrite (optional_counts_absent b b' "byte_count" Hs Hv Hbytes). simpl.
      by rewrite (byte_counts_absent _ E e (list_elem_of_lookup_2 _ _ _ He)).
Qed.

Lemma manifest_roundtrip entries :
  Forall slots_ok entries → zlen entries ≤ MAX_BUNDLES_PER_SEGMENT →
  ∃ bytes, encode_manifest slots entries = Return bytes ∧
    ∀ file offset, region file offset bytes → zlen file ≤ u64_max →
      read_manifest file offset (zlen bytes) = Return (stored_entry entries <$> entries).
Proof.
  intros Hslots Hn. unfold encode_manifest.
  destruct (table_batch (mkSchema (manifest_columns slots entries).*1 []) (manifest_columns slots entries).*2 (zlen entries))
    as (b & -> & Hbs & Hbc & Hbn & Hbv); [done|apply manifest_columns_ok|]. cbn [of_arrow outcome_bind].
  destruct (encode_as_ipc_spec b Hbv) as (bytes & Hbytes & Hread).
  { rewrite Hbs. unfold manifest_columns. by destruct (has_item_counts entries), (has_any_byte_counts entries). }
  exists bytes. split; [done|]. intros file offset Hr Hsize.
  destruct (Hread file offset "empty manifest"%string Hr Hsize) as (b' & Hb' & Hsame & Hv').
  assert (fields (batch_schema b) = (manifest_columns slots entries).*1) as Hbf by (by rewrite Hbs).
  destruct (manifest_index entries) as ((i0 & Hi0 & Hc0) & _ & _ & (i3 & Hi3 & Hc3)).
  rewrite <-Hbf in Hi0, Hi3. rewrite <-Hbc in Hc0, Hc3. unfold read_manifest. rewrite Hb'. cbn [outcome_bind].
  rewrite (uint_column_read b b' "bundle_index" i0 UInt32 (bundle_index <$> entries)) by done. cbn [outcome_bind].
  destruct (slot_refs_read b b' i3 entries Hsame Hv' Hi3 Hc3) as (col & lists & -> & Hl & HF).
  cbn [of_option outcome_bind]. rewrite Hl. cbn [of_option outcome_bind].
  rewrite (proj1 (proj2 Hsame)), Hbn. rewrite require_true by (by apply Z.leb_le). cbn [outcome_bind].
  apply collect_Forall2, Forall2_same_length_lookup_2; [by rewrite length_imap, !length_fmap|].
  intros j [j' index] e' Hj He'. rewrite list_lookup_imap, list_lookup_fmap in Hj. rewrite list_lookup_fmap in He'.
  destruct (entries !! j) as [e|] eqn:He; simplify_eq/=.
  destruct (counts_read b b' entries j' e Hsame Hv' Hbf Hbc He) as [Hci Hcb].
  destruct (Forall2_lookup_l _ _ _ j' e HF He) as (x & Hx & Hvx & Htx & Hcx).
  unfold manifest_row. rewrite Hci, Hcb. cbn [outcome_bind]. rewrite Hx. cbn [of_panic outcome_bind].
  apply read_entry; try done. rewrite Forall_forall in Hslots. eapply Hslots, list_elem_of_lookup_2, He.
Qed.

End manifest.

(** ** Streams *)

(** A stream of the file: aligned bytes that its metadata names. *)
Record stream_at (file : list Z) (acc : StreamAccumulator) (m : StreamMetadata) : Prop := {
  at_id : id m = stream_id acc;
  at_fingerprint : zlen (meta_fingerprint m) = 32;
  at_aligned : byte_offset m mod STREAM_ALIGNMENT = 0;
  at_bytes : ∃ bytes, write_ipc_to acc = Return bytes ∧ byte_length m = zlen bytes ∧ region file (byte_offset m) bytes;
}.

Lemma stream_at_app file more acc m : stream_at file acc m → stream_at (file ++ more) acc m.
Proof.
  intros [Hi Hf Ha (bytes & Hw & Hl & Hr)]. split; try done. exists bytes. split_and!; try done. by apply region_app.
Qed.

(** The accumulators of a segment that can be written. *)
Record acc_ready (acc : StreamAccumulator) : Prop := {
  ready_open : acc_finalized acc = false;
  ready_chunks : zlen (batches acc) ≤ MAX_CHUNKS_PER_STREAM;
  ready_writable : stream_writable acc;
}.

Lemma padding_aligned offset :
  let padding := (STREAM_ALIGNMENT - offset mod STREAM_ALIGNMENT) mod STREAM_ALIGNMENT in
  0 ≤ padding ∧ (offset + padding) mod STREAM_ALIGNMENT = 0.
Proof.
  unfold STREAM_ALIGNMENT. split; [apply Z.mod_pos_bound; lia|].
  rewrite Z.add_mod_idemp_r by lia. replace (offset + (64 - offset mod 64)) with (64 + (offset - offset mod 64)) by lia.
  rewrite (Z.mod_eq offset 64) by lia. replace (64 + (offset - (offset - 64 * (offset / 64)))) with ((1 + offset / 64) * 64) by lia.
  apply Z.mod_mul. lia.
Qed.

Lemma write_streams_spec accs : Forall acc_ready accs → ∀ out,
  ∃ out' metas, write_streams accs out (zlen out) = Return (out ++ out', zlen (out ++ out'), metas)
    ∧ Forall2 (stream_at (out ++ out')) accs metas.
Proof.
  induction 1 as [|acc accs [Ho Hch Hwr] _ IH]; intros out; cbn [write_streams].
  { exists [], []. by rewrite app_nil_r. }
  destruct (padding_aligned (zlen out)) as [Hpad Hal].
  set (padding := (STREAM_ALIGNMENT - zlen out mod STREAM_ALIGNMENT) mod STREAM_ALIGNMENT) in *.
  set (pad := replicate (Z.to_nat padding) 0).
  assert (zlen out + padding = zlen (out ++ pad)) as Hoff.
  { rewrite zlen_app. f_equal. unfold pad, zlen. rewrite length_replicate. lia. }
  destruct (write_ipc_to_spec acc Hch Hwr) as (bytes & Hbytes & _).
  unfold write_to. rewrite Ho, Hbytes. cbn [outcome_bind byte_length]. rewrite Hoff, <-zlen_app.
  destruct (IH ((out ++ pad) ++ bytes)) as (out' & metas & -> & HF). cbn [outcome_bind].
  exists (pad ++ bytes ++ out'), (mkMetadata (stream_id acc) (slot_id acc) (schema_fingerprint acc) (zlen (out ++ pad))
    (zlen bytes) (row_count acc) (chunk_count acc) :: metas).
  rewrite !app_assoc. split; [done|]. constructor; [|done]. split; simpl; [done|apply Hwr|by rewrite <-Hoff|].
  exists bytes. split_and!; try done. exists (out ++ pad), out'. by rewrite <-!app_assoc.
Qed.

(** ** Files *)

Section file.
Context (crc32 : list Z → Z) (slots : ManifestEntry → list (Z * SlotChunkRef)).
Hypothesis crc32_u32 : ∀ l, u32_ok (crc32 l).
Hypothesis slots_perm : ∀ e, slots e ≡ₚ map_to_list (slot_refs e).

(** The parts of a file after the streams. *)
Definition footer_of (out directory manifest : list Z) (streams bundles : Z) : Footer :=
  mkFooter SEGMENT_VERSION (streams mod 2 ^ 32) (bundles mod 2 ^ 32) (zlen out) (zlen directory mod 2 ^ 32)
    (zlen out + zlen directory) (zlen manifest mod 2 ^ 32).

Definition body_of (out directory manifest : list Z) (f : Footer) : list Z :=
  out ++ directory ++ manifest ++ footer_encode f ++ take (TRAILER_SIZE - 4) (trailer_encode (Z.of_nat FOOTER_V1_SIZE)).

Definition file_of (out directory manifest : list Z) (f : Footer) : list Z :=
  body_of out directory manifest f ++ to_le_bytes 4 (crc32 (body_of out directory manifest f)).

Lemma body_length out directory manifest f :
  length (body_of out directory manifest f) = (length out + length directory + length manifest + 46)%nat.
Proof. unfold body_of. rewrite !length_app, footer_encode_length. change (length (take _ _)) with 12%nat. unfold FOOTER_V1_SIZE. lia. Qed.

Lemma file_length out directory manifest f :
  length (file_of out directory manifest f) = (length out + length directory + length manifest + 50)%nat.
Proof. unfold file_of. rewrite length_app, body_length, to_le_bytes_length. lia. Qed.

Lemma file_trailer out directory manifest f :
  trailer_decode (drop (length (file_of out directory manifest f) - TRAILER_SIZE) (file_of out directory manifest f)) =
    Return (Z.of_nat FOOTER_V1_SIZE, crc32 (body_of out directory manifest f)).
Proof.
  rewrite file_length.
  assert (file_of out directory manifest f = (out ++ directory ++ manifest ++ footer_encode f) ++
    take (TRAILER_SIZE - 4) (trailer_encode (Z.of_nat FOOTER_V1_SIZE)) ++
    to_le_bytes 4 (crc32 (body_of out directory manifest f))) as ->.
  { unfold file_of. set (crc := crc32 _). unfold body_of. by rewrite <-!app_assoc. }
  rewrite drop_app_length'; [by apply trailer_decode_encode|].
  rewrite !length_app, footer_encode_length. unfold TRAILER_SIZE, FOOTER_V1_SIZE. lia.
Qed.

Lemma file_footer out directory manifest f :
  footer_ok f → zlen (file_of out directory manifest f) ≤ u64_max →
  read_footer (file_of out directory manifest f)
    (length (file_of out directory manifest f) - TRAILER_SIZE - FOOTER_V1_SIZE) FOOTER_V1_SIZE = Return f.
Proof.
  intros Hf Hsize. assert (region (file_of out directory manifest f)
    (Z.of_nat (length (file_of out directory manifest f) - TRAILER_SIZE - FOOTER_V1_SIZE)) (footer_encode f)) as Hr.
  { exists (out ++ directory ++ manifest),
      (take (TRAILER_SIZE - 4) (trailer_encode (Z.of_nat FOOTER_V1_SIZE)) ++
       to_le_bytes 4 (crc32 (body_of out directory manifest f))). split.
    - unfold file_of. set (crc := crc32 _). unfold body_of. by rewrite <-!app_assoc.
    - rewrite file_length, !zlen_app. unfold zlen, TRAILER_SIZE, FOOTER_V1_SIZE. lia. }
  unfold read_footer. change (Z.of_nat FOOTER_V1_SIZE) with (zlen (footer_encode f)).
  rewrite (region_valid _ _ _ Hr Hsize). cbn [outcome_bind].
  pose proof (region_slice _ _ _ Hr) as Hs. unfold slice_with_length in Hs.
  rewrite Nat2Z.id in Hs. change (zlen (footer_encode f)) with (Z.of_nat FOOTER_V1_SIZE) in Hs.
  rewrite <-Nat2Z.inj_add, Nat2Z.id in Hs. rewrite Hs. by apply footer_decode_encode.
Qed.

Lemma file_regions out directory manifest f :
  region (file_of out directory manifest f) (zlen out) directory
  ∧ region (file_of out directory manifest f) (zlen out + zlen directory) manifest.
Proof.
  unfold file_of. set (crc := to_le_bytes 4 _). unfold body_of. split.
  - eexists out, _. split; [by rewrite <-!app_assoc|done].
  - eexists (out ++ directory), _. split; [by rewrite <-!app_assoc|by rewrite zlen_app].
Qed.

Lemma file_crc out directory manifest f :
  take (length (file_of out directory manifest f) - 4) (file_of out directory manifest f) =
    body_of out directory manifest f.
Proof.
  unfold file_of. rewrite length_app, to_le_bytes_length. rewrite take_app_length'; [done|]. lia.
Qed.

(** The reader opened on a file. *)
Record opened (file : list Z) (metas : list StreamMetadata) (entries : list ManifestEntry) (r : SegmentReader) : Prop := {
  opened_buffer : reader_buffer r = file;
  opened_streams : reader_streams r = metas;
  opened_index : stream_by_id r = index_streams metas;
  opened_manifest : reader_manifest r = entries;
  opened_cache : stream_decoders r = ∅;
}.

Lemma write_streaming_spec accs entries :
  Forall acc_ready accs → zlen accs ≤ MAX_STREAMS_PER_SEGMENT →
  Forall slots_ok entries → zlen entries ≤ MAX_BUNDLES_PER_SEGMENT →
  ∃ file crc metas, write_streaming crc32 slots accs entries = Return (file, zlen file, crc)
    ∧ Forall2 (stream_at file) accs metas
    ∧ (zlen file < 2 ^ 32 → ∃ r, from_buffer crc32 file = Return r ∧ opened file metas (stored_entry entries <$> entries) r).
Proof.
  intros Hacc Hna Hslots Hne. unfold write_streaming.
  rewrite !require_true by (by apply Z.leb_le). cbn [outcome_bind].
  destruct (write_streams_spec accs Hacc []) as (out & metas & Hw & HF). simpl in Hw. change (zlen []) with 0 in Hw.
  rewrite Hw. cbn [outcome_bind]. pose proof (Forall2_length _ _ _ HF) as Hlen.
  destruct (directory_roundtrip metas) as (directory & -> & Hdir).
  { eapply Forall2_Forall_r; [exact HF|]. apply Forall_true. by intros acc m []. }
  { unfold zlen in *. lia. }
  cbn [outcome_bind]. destruct (manifest_roundtrip slots slots_perm entries Hslots Hne) as (manifest & -> & Hman).
  cbn [outcome_bind]. set (f := footer_of out directory manifest (zlen metas) (zlen entries)).
  exists (file_of out directory manifest f), (crc32 (body_of out directory manifest f)), metas. split_and!.
  - unfold file_of. rewrite zlen_app. do 2 f_equal. f_equal. unfold zlen. rewrite body_length, to_le_bytes_length.
    change (length (footer_encode _)) with 34%nat. unfold TRAILER_SIZE. lia.
  - eapply Forall2_impl; [exact HF|]. intros acc m Hm. unfold file_of, body_of. rewrite <-!app_assoc.
    by apply stream_at_app.
  - intros Hsize. destruct (file_regions out directory manifest f) as [Hrd Hrm].
    pose proof (region_bound _ _ _ Hrd). pose proof (region_bound _ _ _ Hrm).
    pose proof (zlen_nonneg directory). pose proof (zlen_nonneg manifest).
    assert (zlen (file_of out directory manifest f) ≤ u64_max) as Hu by (unfold u64_max; lia).
    assert (footer_ok f) as Hf.
    { split; simpl; unfold u32_ok, u64_ok; try done; try (apply Z.mod_pos_bound; lia); lia. }
    assert (directory_length f = zlen directory ∧ manifest_length f = zlen manifest) as [Hdl Hml].
    { split; simpl; apply Z.mod_small; lia. }
    unfold from_buffer. pose proof (file_length out directory manifest f) as Hfl.
    rewrite (proj2 (Nat.ltb_ge _ _)) by (rewrite Hfl; unfold TRAILER_SIZE; lia).
    rewrite file_trailer. cbn [outcome_bind].
    rewrite require_true by (apply Z.leb_le; rewrite Hfl; unfold TRAILER_SIZE, FOOTER_V1_SIZE; lia).
    cbn [outcome_bind]. rewrite Nat2Z.id, file_footer by done. cbn [outcome_bind].
    rewrite file_crc, Z.eqb_refl. cbn [outcome_bind]. rewrite Hdl, Hml.
    change (directory_offset f) with (zlen out). change (manifest_offset f) with (zlen out + zlen directory).
    rewrite (region_valid _ _ _ Hrd Hu). cbn [outcome_bind]. rewrite (region_valid _ _ _ Hrm Hu). cbn [outcome_bind].
    rewrite (Hdir _ _ Hrd Hu). cbn [outcome_bind]. rewrite (Hman _ _ Hrm Hu). cbn [outcome_bind].
    eexists; split; [done|]. done.
Qed.

(** ** Reading chunks *)

(** Readers of the same file, which differ in their caches. *)
Definition same_file (r r' : SegmentReader) : Prop :=
  reader_buffer r' = reader_buffer r ∧ reader_streams r' = reader_streams r ∧ stream_by_id r' = stream_by_id r
  ∧ reader_manifest r' = reader_manifest r.

Lemma same_file_decoder r r' stream : same_file r r' → stream_decoder r' stream = stream_decoder r stream.
Proof. intros (Hb & Hs & Hi & _). unfold stream_decoder, reader_stream. by rewrite Hb, Hs, Hi. Qed.

(** The cache holds decoders of the streams they are filed under. *)
Definition cache_ok (r : SegmentReader) : Prop :=
  ∀ stream d, stream_decoders r !! stream = Some d → stream_decoder r stream = Return d.

(** The cached read returns what the uncached one returns. *)
Lemma read_chunk_cached_spec r stream chunk :
  cache_ok r →
  let '(r', o) := read_chunk_cached r stream chunk in
  o = read_chunk r stream chunk ∧ same_file r r' ∧ cache_ok r'.
Proof.
  intros Hc. unfold read_chunk_cached, read_chunk. destruct (stream_decoders r !! stream) as [d|] eqn:E.
  { rewrite (Hc stream d E). done. }
  destruct (stream_decoder r stream) as [d|e|] eqn:Ed; [|done|done]. split; [done|]. split; [done|].
  intros stream' d'. simpl. intros [[<- <-]|[_ Hd']]%lookup_insert_Some; [exact Ed|]. by apply Hc.
Qed.

Lemma read_payloads_spec refs : ∀ r acc,
  cache_ok r →
  let '(r', o) := read_payloads r refs acc in
  same_file r r' ∧ cache_ok r' ∧
  (NoDup refs.*1 → (∀ slot ref, (slot, ref) ∈ refs → ∃ b, read_chunk r (ref_stream_id ref) (ref_chunk_index ref) = Return b) →
   ∃ m, o = Return m ∧ ∀ slot, match (list_to_map refs : gmap Z SlotChunkRef) !! slot with
     | Some ref => ∃ b, m !! slot = Some b ∧ read_chunk r (ref_stream_id ref) (ref_chunk_index ref) = Return b
     | None => m !! slot = acc !! slot
     end).
Proof.
  induction refs as [|[slot ref] refs IH]; intros r acc Hc; simpl.
  { split_and!; [done..|]. intros _ _. exists acc. split; [done|]. intros slot. by rewrite lookup_empty. }
  pose proof (read_chunk_cached_spec r (ref_stream_id ref) (ref_chunk_index ref) Hc) as Hread.
  destruct (read_chunk_cached r _ _) as [r1 o1]. destruct Hread as (-> & Hsame & Hc1).
  destruct (read_chunk r (ref_stream_id ref) (ref_chunk_index ref)) as [b|e|] eqn:Eb.
  2,3: split_and!; [done..|]; intros _ Hall; destruct (Hall slot ref) as [b Hb]; [by left|congruence].
  specialize (IH r1 (<[slot := b]> acc) Hc1). destruct (read_payloads r1 refs _) as [r2 o2].
  destruct IH as (Hsame2 & Hc2 & Hm). split_and!; [|done|].
  { destruct Hsame as (? & ? & ? & ?), Hsame2 as (? & ? & ? & ?). repeat split; congruence. }
  assert (Hchunk : ∀ s c, read_chunk r1 s c = read_chunk r s c).
  { intros s c. unfold read_chunk. by rewrite (same_file_decoder r r1). }
  intros [Hnotin Hnd]%NoDup_cons Hall. destruct Hm as (m & -> & Hm); [done| |].
  { intros s rf Hin. rewrite Hchunk. apply (Hall s rf). by right. }
  exists m. split; [done|]. intros s. specialize (Hm s). destruct (decide (s = slot)) as [->|Hne].
  - rewrite lookup_insert_eq. rewrite not_elem_of_list_to_map_1 in Hm by done.
    exists b. by rewrite Hm, lookup_insert_eq.
  - rewrite lookup_insert_ne by done. destruct (list_to_map refs !! s) as [rf|] eqn:Er.
    + rewrite Hchunk in Hm. exact Hm.
    + by rewrite Hm, lookup_insert_ne.
Qed.

Lemma index_streams_lookup metas k m :
  NoDup (id <$> metas) → metas !! k = Some m → index_streams metas !! id m = Some k.
Proof.
  unfold index_streams. induction metas as [|x metas IH] using rev_ind; [done|].
  rewrite fmap_app. intros (Hnd & Hdisj & _)%NoDup_app Hm. rewrite imap_app, foldl_app. simpl.
  apply lookup_app_Some in Hm as [Hm|[Hge Hm]].
  - rewrite lookup_insert_ne; [by apply IH|]. intros Heq. apply (Hdisj (id m)).
    + by eapply list_elem_of_fmap_2, list_elem_of_lookup_2.
    + rewrite <-Heq. by left.
  - apply list_lookup_singleton_Some in Hm as [Hk <-]. rewrite lookup_insert_eq. f_equal. lia.
Qed.

Lemma same_batch_rows b c d : same_rows b c → same_batch c d → same_rows b d.
Proof.
  intros [Hn Hc] (_ & Hn' & HF). split; [congruence|]. rewrite <-Hc.
  clear -HF. induction HF as [|x y l k [_ Hxy] _ IH]; csimpl; [done|]. by rewrite Hxy, IH.
Qed.

(** A chunk of the file has the rows of the batch that was appended. *)
Lemma read_chunk_spec file accs metas entries r acc i b :
  zlen file ≤ u64_max → Forall acc_ready accs → NoDup (stream_id <$> accs) → Forall2 (stream_at file) accs metas →
  opened file metas entries r → acc ∈ accs → batches acc !! i = Some b →
  ∃ b', read_chunk r (stream_id acc) (Z.of_nat i) = Return b' ∧ same_rows b b'.
Proof.
  intros Hsize Hready Hnd HF [Hbuf Hst Hix _ _] [k Hk]%list_elem_of_lookup Hb.
  destruct (Forall2_lookup_l _ _ _ k acc HF Hk) as (m & Hm & [Hid _ _ (bytes & Hw & Hbl & Hr)]).
  assert (id <$> metas = stream_id <$> accs) as Hids.
  { clear -HF. induction HF as [|a m l k [Hid _ _ _] _ IH]; csimpl; [done|]. by rewrite Hid, IH. }
  unfold read_chunk, stream_decoder, reader_stream. rewrite Hix, <-Hid, Hst.
  rewrite (index_streams_lookup metas k m) by (by rewrite ?Hids). simpl. rewrite Hm. cbn [of_option outcome_bind].
  rewrite Hbuf, Hbl, (region_valid _ _ _ Hr Hsize). cbn [outcome_bind]. rewrite (region_slice _ _ _ Hr).
  rewrite Forall_forall in Hready. destruct (Hready acc (list_elem_of_lookup_2 _ _ _ Hk)) as [_ Hch Hwr].
  destruct (write_ipc_to_spec acc Hch Hwr) as (bytes' & Hw' & Hdec). rewrite Hw in Hw'. injection Hw' as <-.
  pose proof (region_bound _ _ _ Hr). destruct (Hdec ltac:(lia)) as (d & l & -> & [_ Hd] & Hrows). cbn [outcome_bind].
  destruct (Forall2_lookup_l _ _ _ i b Hrows Hb) as (c & Hc & Hbc).
  destruct (Hd i c Hc) as (b' & Hb' & Hsame & _). exists b'. split; [done|]. by eapply same_batch_rows.
Qed.

(** A reader after any sequence of reads of bundles. *)
Definition after_reads : relation SegmentReader := rtc (λ r r', ∃ e, r' = (read_bundle slots r e).1).

Lemma after_reads_keeps r r' : after_reads r r' → cache_ok r → same_file r r' ∧ cache_ok r'.
Proof.
  induction 1 as [r|r r1 r' [e ->] _ IH]; intros Hc; [done|].
  pose proof (read_payloads_spec (slots e) r ∅ Hc) as Hread. unfold read_bundle in IH.
  destruct (read_payloads r (slots e) ∅) as [r1 o]. destruct Hread as (Hs1 & Hc1 & _).
  destruct (IH Hc1) as [Hs2 Hc2]. split; [|done]. simpl in Hs2.
  destruct Hs1 as (? & ? & ? & ?), Hs2 as (? & ? & ? & ?). repeat split; congruence.
Qed.

(** The payloads of a bundle, read from an entry whose references are chunks. *)
Lemma read_bundle_spec r r' e (rows : Z → RecordBatch → Prop) :
  cache_ok r → after_reads r r' →
  (∀ slot ref, slot_refs e !! slot = Some ref →
     ∃ b, read_chunk r (ref_stream_id ref) (ref_chunk_index ref) = Return b ∧ rows slot b) →
  ∃ r'' payloads, read_bundle slots r' e = (r'', Return (bundle_index e, payloads))
    ∧ ∀ slot, match payloads !! slot with
              | Some b => is_Some (slot_refs e !! slot) ∧ rows slot b
              | None => slot_refs e !! slot = None
              end.
Proof.
  intros Hc Hafter Hrefs. destruct (after_reads_keeps r r' Hafter Hc) as [Hsame Hc'].
  assert (Hchunk : ∀ s c, read_chunk r' s c = read_chunk r s c).
  { intros s c. unfold read_chunk. by rewrite (same_file_decoder r r'). }
  pose proof (read_payloads_spec (slots e) r' ∅ Hc') as Hread. unfold read_bundle.
  destruct (read_payloads r' (slots e) ∅) as [r'' o]. destruct Hread as (_ & _ & Hm).
  destruct Hm as (m & -> & Hm).
  { rewrite slots_perm. apply NoDup_fst_map_to_list. }
  { intros slot ref Hin. rewrite slots_perm in Hin. apply elem_of_map_to_list in Hin.
    destruct (Hrefs slot ref Hin) as (b & Hb & _). exists b. by rewrite Hchunk. }
  exists r'', m. split; [done|]. intros slot. specialize (Hm slot). rewrite (slots_to_map slots slots_perm) in Hm.
  destruct (slot_refs e !! slot) as [ref|] eqn:Er.
  - destruct Hm as (b & -> & Hb). split; [eauto|]. destruct (Hrefs slot ref Er) as (b' & Hb' & Hrow).
    rewrite Hchunk, Hb' in Hb. by injection Hb as <-.
  - by rewrite Hm, lookup_empty.
Qed.

(** What a reader returns for a bundle: the payloads of the populated slots. *)
Definition same_payloads (b : RecordBundle) (payloads : gmap Z RecordBatch) : Prop :=
  ∀ slot, match payloads !! slot with
          | Some batch => ∃ p, slot ∈ WalFormat.descriptor_slots (bundle b)
              ∧ WalFormat.bundle_payload (bundle b) slot = Some p ∧ same_rows (WalFormat.batch p) batch
          | None => slot ∈ WalFormat.descriptor_slots (bundle b) → WalFormat.bundle_payload (bundle b) slot = None
          end.

Lemma segment_parts seg accepted :
  seg_holds seg accepted → accepted ≠ [] → map_Forall (λ _, stream_writable) (streams seg) →
  ∃ accs, into_parts seg = Ok (accs, manifest seg) ∧ Forall acc_ready accs ∧ NoDup (stream_id <$> accs)
    ∧ zlen accs ≤ MAX_STREAMS_PER_SEGMENT ∧ (∀ acc, acc ∈ accs ↔ ∃ key, streams seg !! key = Some acc)
    ∧ Forall slots_ok (manifest seg).
Proof.
  intros Hh Hne Hwr. destruct (into_parts seg) as [[accs entries]|e] eqn:Eparts.
  2:{ exfalso. unfold into_parts in Eparts. rewrite (seg_open _ (holds_ok _ _ Hh)) in Eparts.
      unfold is_empty in Eparts. case_bool_decide as Hm; [|done]. pose proof (holds_length _ _ Hh) as Hl.
      rewrite Hm in Hl. by destruct accepted. }
  destruct (into_parts_spec seg accepted accs entries Hh Eparts) as (-> & Hnd & Hn & Hin).
  exists accs. split_and!; try done.
  - apply Forall_forall. intros acc [key Hkey]%Hin.
    destruct (seg_streams _ (holds_ok _ _ Hh) key acc Hkey). split; [done|done|]. by eapply Hwr.
  - apply Forall_lookup_2. intros i e He. destruct (lookup_lt_is_Some_2 accepted i) as [b Hb].
    { rewrite <-(holds_length _ _ Hh). by eapply lookup_lt_Some. }
    destruct (holds_entries _ _ Hh i e b He Hb) as [_ _ _ Hs Hr]. apply refs_size in Hr.
    unfold slots_ok, zlen in *. lia.
Qed.

(** A bundle the segment accepted, read through its manifest entry. *)
Lemma read_accepted seg accepted accs file metas r r' i b e :
  seg_holds seg accepted → Forall acc_ready accs → NoDup (stream_id <$> accs) →
  (∀ acc, acc ∈ accs ↔ ∃ key, streams seg !! key = Some acc) → Forall2 (stream_at file) accs metas →
  zlen file ≤ u64_max → opened file metas (stored_entry (manifest seg) <$> manifest seg) r → after_reads r r' →
  accepted !! i = Some b → manifest seg !! i = Some e →
  ∃ r'' payloads, read_bundle slots r' (stored_entry (manifest seg) e) = (r'', Return (Z.of_nat i, payloads))
    ∧ same_payloads b payloads.
Proof.
  intros Hh Hready Hnd Hin HF Hsize Hop Hafter Hb He. destruct (holds_entries _ _ Hh i e b He Hb) as [Hi _ _ _ Hrefs].
  destruct (read_bundle_spec r r' (stored_entry (manifest seg) e) (λ slot c, ∃ p, slot ∈ WalFormat.descriptor_slots (bundle b)
    ∧ WalFormat.bundle_payload (bundle b) slot = Some p ∧ same_rows (WalFormat.batch p) c)) as (r'' & payloads & Hr & Hp).
  { intros stream d. by rewrite (opened_cache _ _ _ _ Hop), lookup_empty. }
  { done. }
  { intros slot ref Hslot. simpl in Hslot. specialize (Hrefs slot). rewrite Hslot in Hrefs.
    destruct Hrefs as (p & Hd & Hpay & Hc & acc & Hacc & Hid & Hch).
    destruct (read_chunk_spec file accs metas (stored_entry (manifest seg) <$> manifest seg) r acc
      (Z.to_nat (ref_chunk_index ref)) (WalFormat.batch p)) as (c & Hread & Hrows); try done.
    { apply Hin. by eexists. }
    rewrite Hid, Z2Nat.id in Hread by done. exists c. split; [done|]. by exists p. }
  exists r'', payloads. rewrite Hr. simpl. rewrite Hi. split; [done|]. intros slot. specialize (Hp slot).
  destruct (payloads !! slot) as [c|]; [by destruct Hp|]. simpl in Hp. specialize (Hrefs slot).
  by rewrite Hp in Hrefs.
Qed.

(** Item counts are stored if every bundle has one. *)
Lemma item_counts_known seg accepted :
  seg_holds seg accepted → has_item_counts (manifest seg) = forallb item_count_is_known accepted.
Proof.
  intros Hh. unfold has_item_counts. apply eq_bool_prop_intro. rewrite !forallb_True, !Forall_lookup.
  split; intros Hall i x Hx.
  - destruct (lookup_lt_is_Some_2 (manifest seg) i) as [e He].
    { rewrite (holds_length _ _ Hh). by eapply lookup_lt_Some. }
    specialize (Hall i e He). rewrite (entry_items _ _ _ _ (holds_entries _ _ Hh i e x He Hx)) in Hall.
    by destruct (item_count_is_known x).
  - destruct (lookup_lt_is_Some_2 accepted i) as [b Hb].
    { rewrite <-(holds_length _ _ Hh). by eapply lookup_lt_Some. }
    specialize (Hall i b Hb). rewrite (entry_items _ _ _ _ (holds_entries _ _ Hh i x b Hx Hb)).
    by destruct (item_count_is_known b).
Qed.

(** The file of a segment that holds the given bundles. *)
Lemma written_reads_back seg accepted :
  seg_holds seg accepted → accepted ≠ [] → map_Forall (λ _, stream_writable) (streams seg) →
  ∃ accs entries file crc,
    into_parts seg = Ok (accs, entries) ∧ write_streaming crc32 slots accs entries = Return (file, zlen file, crc) ∧
    (zlen file < 2 ^ 32 →
     ∃ r, from_buffer crc32 file = Return r ∧ length (reader_manifest r) = length accepted ∧
       ∀ r' i b, after_reads r r' → accepted !! i = Some b →
         ∃ e r'' payloads, reader_manifest r !! i = Some e
           ∧ read_bundle slots r' e = (r'', Return (Z.of_nat i, payloads)) ∧ same_payloads b payloads
           ∧ exact_byte_count e = byte_count b
           ∧ exact_item_count e = if forallb item_count_is_known accepted then Some (bundle_items b) else None).
Proof.
  intros Hh Hne Hwr.
  destruct (segment_parts seg accepted Hh Hne Hwr) as (accs & Hparts & Hready & Hnd & Hna & Hin & Hslots).
  destruct (write_streaming_spec accs (manifest seg) Hready Hna Hslots (seg_bundles _ (holds_ok _ _ Hh)))
    as (file & crc & metas & Hw & HF & Hopen).
  exists accs, (manifest seg), file, crc. split_and!; [done..|]. intros Hsize.
  destruct (Hopen Hsize) as (r & Hr & Hop). exists r. pose proof (opened_manifest _ _ _ _ Hop) as Hman.
  rewrite Hman, length_fmap, (holds_length _ _ Hh). split_and!; [done..|]. intros r' i b Hafter Hb.
  destruct (lookup_lt_is_Some_2 (manifest seg) i) as [e He].
  { rewrite (holds_length _ _ Hh). by eapply lookup_lt_Some. }
  destruct (read_accepted seg accepted accs file metas r r' i b e) as (r'' & payloads & Hread & Hpay); try done.
  { unfold u64_max. lia. }
  destruct (holds_entries _ _ Hh i e b He Hb) as [_ Hit Hby _ _].
  exists (stored_entry (manifest seg) e), r'', payloads. rewrite list_lookup_fmap, He. split_and!; try done.
  simpl. rewrite (item_counts_known seg accepted Hh), Hit. destruct (forallb item_count_is_known accepted) eqn:E; [|done].
  rewrite forallb_forall in E. by rewrite (E b) by (by eapply list_elem_of_In, list_elem_of_lookup_2).
Qed.

(** C5: The segment file of an open segment, whatever bundles were appended to it
    and whichever of them were rejected, can be written if its streams hold valid
    batches with dictionaries at most one struct deep, and while it is below
    4 GiB the reader accepts it and reconstructs exactly the accepted bundles, in
    their order and in any order of reads: the same populated slots with the same
    rows.  Byte counts are kept; item counts are kept if all bundles have one. *)
Theorem segment_reads_back l seg accepted :
  append_all open_new l = (seg, accepted) → accepted ≠ [] → map_Forall (λ _, stream_writable) (streams seg) →
  ∃ accs entries file crc,
    into_parts seg = Ok (accs, entries) ∧ write_streaming crc32 slots accs entries = Return (file, zlen file, crc) ∧
    (zlen file < 2 ^ 32 →
     ∃ r, from_buffer crc32 file = Return r ∧ length (reader_manifest r) = length accepted ∧
       ∀ r' i b, after_reads r r' → accepted !! i = Some b →
         ∃ e r'' payloads, reader_manifest r !! i = Some e
           ∧ read_bundle slots r' e = (r'', Return (Z.of_nat i, payloads)) ∧ same_payloads b payloads
           ∧ exact_byte_count e = byte_count b
           ∧ exact_item_count e = if forallb item_count_is_known accepted then Some (bundle_items b) else None).
Proof.
  intros Happ. pose proof (append_all_holds l open_new [] open_new_holds) as Hh. rewrite Happ in Hh. by apply written_reads_back.
Qed.

End file.
End ipc.
(** ** Example *)

Import ArrowModel.

Definition example_fingerprint : list Z := replicate 32 7.

(** A bundle with one payload, in the first of its two slots. *)
Definition example_bundle (a b : Z) : @RecordBundle model :=
  mkRecordBundle (HA := model)
    (WalFormat.mkBundle [3; 4] 0
       (λ slot, if slot =? 3 then Some (WalFormat.mkPayload example_fingerprint (example_batch a b)) else None))
    3 true (Some 10).

Definition example_appends : list (Z * @RecordBundle model) := [(0, example_bundle 97 98); (1, example_bundle 99 98)].

Definition example_segment : @OpenSegment model := (@append_all model open_new example_appends).1.

Lemma example_streams : map_to_list (@streams model example_segment) = [((3, example_fingerprint) : StreamKey,
  @mkAccumulator model 0 3 example_fingerprint example_schema [example_batch 97 98; example_batch 99 98] 6 12 false)].
Proof. vm_cast_no_check (eq_refl (map_to_list (@streams model example_segment))). Qed.

Lemma example_accepted : @append_all model open_new example_appends =
  (example_segment, [example_bundle 97 98; example_bundle 99 98]).
Proof. vm_cast_no_check (eq_refl (@append_all model open_new example_appends)). Qed.

Lemma example_writable : map_Forall (λ _, @stream_writable model model_laws) (@streams model example_segment).
Proof.
  apply map_Forall_to_list. rewrite example_streams. constructor; [|constructor]. split; [exact example_batches_ok|vm_compute; discriminate|done].
Qed.

Definition map_slots (e : ManifestEntry) : list (Z * SlotChunkRef) := map_to_list (slot_refs e).

Lemma example_size :
  match @into_parts model example_segment with
  | Ok (accs, entries) =>
      match @write_streaming model sum32 map_slots accs entries with Return (_, n, _) => n <? 2 ^ 32 | _ => false end
  | Err _ => false
  end = true.
Proof. vm_compute. reflexivity. Qed.

Lemma segment_reads_back_witness :
  ∃ accs entries file crc r, @into_parts model example_segment = Ok (accs, entries)
    ∧ @write_streaming model sum32 map_slots accs entries = Return (file, zlen file, crc)
    ∧ @from_buffer model sum32 file = Return r ∧ length (reader_manifest r) = 2%nat.
Proof.
  destruct (@segment_reads_back model model_laws sum32 map_slots sum32_u32 (λ e, reflexivity _)
    example_appends example_segment [example_bundle 97 98; example_bundle 99 98])
    as (accs & entries & file & crc & Hparts & Hw & Hread);
    [exact example_accepted|discriminate|exact example_writable|].
  pose proof example_size as Hsize. rewrite Hparts, Hw in Hsize. apply Z.ltb_lt in Hsize.
  destruct (Hread Hsize) as (r & Hr & Hlen & _). exists accs, entries, file, crc, r.
  split; [exact Hparts|]. split; [exact Hw|]. split; [exact Hr|exact Hlen].
Defined.

End SegmentRoundtrip.
