(* ===== verification/SegmentStore.v ===== *)
(** * Segment store

    Model of [crates/quiver/src/segment_store.rs]: the finalized segments that can
    be read, the files behind them and the accounting of their bytes in the disk
    budget.  Files are keyed by the sequence number in their name.  Outcomes of
    file system calls, modification times and the order in which a directory or
    a hash map is iterated are arguments; times are in nanoseconds.  The reader of
    a file is that of [SegmentFile]; the caching of decoders does not change what
    a read returns and is left out here.  The store is the provider of segments of
    the registry. *)
From S2P Require Import Prelude Bytes Files SubscriberTypes Progress SubscriberState Registry Budget Arrow SegmentTypes.
From S2P Require WalFormat.
From S2P Require Import ArrowModel Dictionaries OpenSegment SegmentFile.

Local Open Scope Z_scope.

Module SegmentStore.
Import Arrow.
Import SubscriberTypes.
Import SegmentTypes.
Import SegmentFile.
Import Budget.
Local Open Scope outcome_scope.

Definition MAX_DELETE_ATTEMPTS : Z := 10.

Definition BASE_RETRY_INTERVAL : Z := 1000000000.

Definition MAX_RETRY_INTERVAL : Z := 60 * 1000000000.

Record PendingDelete := mkPending {
  pending_size : Z;
  attempts : Z;
  backoff : Z;
  next_retry_at : Z;
}.

(** What [remove_file] does: it removes the file, finds it gone, or fails. *)
Inductive RemoveResult := Removed | RemovedByOther | RemoveFails.

Record ScanResult := mkScanResult {
  found : list (Z * Z);
  deleted : list (Z * Z);
  highest_seen : option Z;
}.

Record PendingDeleteResults := mkResults {
  removed : list (Z * Z);
  abandoned : list Z;
}.

Definition cleared (r : PendingDeleteResults) : Z := zlen (removed r) + zlen (abandoned r).

Section store.
Context {HA : Arrow} (crc32 : list Z → Z).

Record SegmentHandle := mkHandle {
  reader : SegmentReader;
  bundle_count : Z;
  total_item_count : option Z;
  total_byte_count : option Z;
  file_size_bytes : Z;
  finalized_at : Z;
}.

(** [files] is the directory of segments. *)
Record SegmentStore := mkStore {
  files : gmap Z (list Z);
  segments : gmap Z SegmentHandle;
  pending_deletes : gmap Z PendingDelete;
}.

(** The operations change the store and the shared budget. *)
Abbreviation state := (SegmentStore * option DiskBudget)%type.

Definition set_files (f : gmap Z (list Z) → gmap Z (list Z)) (st : SegmentStore) : SegmentStore :=
  mkStore (f (files st)) (segments st) (pending_deletes st).

Definition set_segments (f : gmap Z SegmentHandle → gmap Z SegmentHandle) (st : SegmentStore) : SegmentStore :=
  mkStore (files st) (f (segments st)) (pending_deletes st).

Definition set_pending (f : gmap Z PendingDelete → gmap Z PendingDelete) (st : SegmentStore) : SegmentStore :=
  mkStore (files st) (segments st) (f (pending_deletes st)).

(** The sum of the counts of all entries; none if a count is missing or the sum
    overflows. *)
Definition checked_total (counts : list (option Z)) : option Z :=
  foldl (λ total count, n ← total; k ← count; if n + k <=? u64_max then Some (n + k) else None) (Some 0) counts.

Definition handle_open (modified : Z) (file : option (list Z)) : outcome SegmentHandle :=
  bytes ←? of_option (Io NotFoundIo) file;
  r ←? from_buffer crc32 bytes;
  let m := reader_manifest r in
  Return (mkHandle r (zlen m mod 2 ^ 32) (checked_total (exact_item_count <$> m))
            (checked_total (exact_byte_count <$> m)) (zlen bytes) modified).

Definition defer_delete (now seq file_size : Z) (st : SegmentStore) : SegmentStore :=
  set_pending (λ m,
    match m !! seq with
    | Some p => <[seq := mkPending file_size (attempts p) (backoff p) (next_retry_at p)]> m
    | None => <[seq := mkPending file_size 0 BASE_RETRY_INTERVAL now]> m
    end) st.

(** The bundle count is what the callback is notified with. *)
Definition register_existing_segment (modified seq : Z) (s : state) : state * outcome Z :=
  let '(st, b) := s in
  match handle_open modified (files st !! seq) with
  | Return h => ((set_segments <[seq := h]> st, (λ b, add b (file_size_bytes h)) <$> b), Return (bundle_count h))
  | Raise e => (s, Raise e)
  | Panicked => (s, Panicked)
  end.

Definition register_new_segment (modified seq : Z) (st : SegmentStore) : SegmentStore * outcome Z :=
  match handle_open modified (files st !! seq) with
  | Return h => (set_segments <[seq := h]> st, Return (bundle_count h))
  | Raise e => (st, Raise e)
  | Panicked => (st, Panicked)
  end.

Definition unregister_segment (seq : Z) (st : SegmentStore) : SegmentStore := set_segments (delete seq) st.

(** [budget.remove] when there is a budget and a size. *)
Definition release (size : option Z) (b : option DiskBudget) : option DiskBudget :=
  match size with Some n => (λ b, remove b n) <$> b | None => b end.

Definition delete_segment (rm : RemoveResult) (now seq : Z) (s : state) : state * option Z :=
  let '(st, b) := s in
  let file_size := file_size_bytes <$> segments st !! seq in
  let st := set_segments (delete seq) st in
  match files st !! seq, rm with
  | Some _, RemoveFails => ((defer_delete now seq (default 0 file_size) st, b), None)
  | Some _, _ => ((set_files (delete seq) st, release file_size b), file_size)
  | None, _ => ((st, release file_size b), file_size)
  end.

Definition defer_orphaned_segment_cleanup (now seq : Z) (st : SegmentStore) : SegmentStore := defer_delete now seq 0 st.

(** A failed attempt: the entry as it is in the map is counted and postponed. *)
Definition postpone (now : Z) (p : PendingDelete) : PendingDelete :=
  mkPending (pending_size p) (attempts p + 1) (Z.min (backoff p * 2) MAX_RETRY_INTERVAL) (now + backoff p).

(** One entry of the snapshot taken at the beginning of a retry. *)
Definition retry_one (rm : Z → RemoveResult) (now : Z) (s : state) (seq : Z) (p : PendingDelete)
    : state * list (Z * Z) :=
  let '(st, b) := s in
  match files st !! seq, rm seq with
  | None, _ => ((set_pending (delete seq) st, release (Some (pending_size p)) b), [(seq, pending_size p)])
  | Some _, Removed =>
      ((set_files (delete seq) (set_pending (delete seq) st), release (Some (pending_size p)) b),
       [(seq, pending_size p)])
  | Some _, RemovedByOther => ((set_files (delete seq) (set_pending (alter (postpone now) seq) st), b), [])
  | Some _, RemoveFails => ((set_pending (alter (postpone now) seq) st, b), [])
  end.

Fixpoint retry_each (rm : Z → RemoveResult) (now : Z) (snapshot : list (Z * PendingDelete)) (s : state)
    : state * list (Z * Z) :=
  match snapshot with
  | [] => (s, [])
  | (seq, p) :: snapshot =>
      let '(s, r) := retry_one rm now s seq p in
      let '(s, r') := retry_each rm now snapshot s in
      (s, r ++ r')
  end.

Fixpoint evict_each (l : list (Z * Z)) (s : state) : state :=
  match l with
  | [] => s
  | (seq, size) :: l => evict_each l (set_pending (delete seq) s.1, release (Some size) s.2)
  end.

(** [order] is the order in which the map is iterated. *)
Definition retry_pending_deletes_with_results (order : gmap Z PendingDelete → list (Z * PendingDelete))
    (rm : Z → RemoveResult) (now : Z) (s : state) : state * PendingDeleteResults :=
  let snapshot := List.filter (λ '(_, p), next_retry_at p <=? now) (order (pending_deletes s.1)) in
  if bool_decide (snapshot = []) then (s, mkResults [] [])
  else
    let '(s, removed) := retry_each rm now snapshot s in
    let abandoned := (λ '(seq, p), (seq, pending_size p)) <$>
      List.filter (λ '(_, p), MAX_DELETE_ATTEMPTS <=? attempts p) (order (pending_deletes s.1)) in
    (evict_each abandoned s, mkResults removed abandoned.*1).

Definition retry_pending_deletes (order : gmap Z PendingDelete → list (Z * PendingDelete)) (rm : Z → RemoveResult)
    (now : Z) (s : state) : state * Z :=
  let '(s, r) := retry_pending_deletes_with_results order rm now s in (s, cleared r).

Definition pending_delete_count (st : SegmentStore) : Z := Z.of_nat (size (pending_deletes st)).

(** What the scan sees of a file: the number in its name, its modification time
    and what removing it does. *)
Record DirEntry := mkDirEntry {
  entry_seq : Z;
  entry_modified : Z;
  entry_remove : RemoveResult;
}.

Definition is_file_before_cutoff (e : DirEntry) (cutoff : option Z) : bool :=
  from_option (λ c, entry_modified e <? c) false cutoff.

Definition scan_one (cutoff : option Z) (e : DirEntry) (s : state) (acc : ScanResult) : outcome (state * ScanResult) :=
  let seq := entry_seq e in
  let acc := mkScanResult (found acc) (deleted acc) (Some (from_option (λ h, Z.max h seq) seq (highest_seen acc))) in
  match register_existing_segment (entry_modified e) seq s with
  | (s', Return n) => Return (s', mkScanResult (found acc ++ [(seq, n)]) (deleted acc) (highest_seen acc))
  | (s', Raise _) =>
      if is_file_before_cutoff e cutoff then
        match entry_remove e with
        | Removed =>
            Return ((set_files (delete seq) s'.1, s'.2),
              mkScanResult (found acc) (deleted acc ++ [(seq, zlen (default [] (files s'.1 !! seq)))]) (highest_seen acc))
        | RemovedByOther => Return ((set_files (delete seq) s'.1, s'.2), acc)
        | RemoveFails => Return (s', acc)
        end
      else Return (s', acc)
  | (_, Panicked) => Panicked
  end.

Fixpoint scan_each (cutoff : option Z) (l : list DirEntry) (s : state) (acc : ScanResult) : outcome (state * ScanResult) :=
  match l with
  | [] => Return (s, acc)
  | e :: l =>
      '(s', acc') ←? scan_one cutoff e s acc;
      scan_each cutoff l s' acc'
  end.

(** [now] and [max_age] give the cutoff, if it is representable. *)
Definition scan_existing_with_max_age (now : Z) (max_age : option Z) (l : list DirEntry) (s : state)
    : outcome (state * ScanResult) :=
  let cutoff := age ← max_age; if age <=? now then Some (now - age) else None in
  '(s', r) ←? scan_each cutoff l s (mkScanResult [] [] None);
  Return (s', mkScanResult (sort_by_key fst (found r)) (sort_by_key fst (deleted r)) (highest_seen r)).

Definition segment_count (st : SegmentStore) : Z := Z.of_nat (size (segments st)).

(** The keys of the map, in ascending order. *)
Definition segment_sequences (st : SegmentStore) : list Z := sort_by_key (λ s, s) (map_to_list (segments st)).*1.

Definition segment_file_size (st : SegmentStore) (seq : Z) : result Z SubscriberError :=
  match segments st !! seq with Some h => Ok (file_size_bytes h) | None => Err (SegmentNotFound seq) end.

Definition segments_older_than (now max_age : Z) (st : SegmentStore) : list Z :=
  if now <? max_age then []
  else List.filter (λ seq, from_option (λ h, finalized_at h <? now - max_age) false (segments st !! seq))
         (segment_sequences st).

Definition retention_drop_counts (st : SegmentStore) (seq : Z) : result (Z * option Z * option Z) SubscriberError :=
  match segments st !! seq with
  | Some h => Ok (bundle_count h, total_item_count h, total_byte_count h)
  | None => Err (SegmentNotFound seq)
  end.

(** ** The provider of the registry *)

Context (slots : ManifestEntry → list (Z * SlotChunkRef)).

(** Reading a bundle of an open file returns or fails; it never panics. *)
Definition handle_read_bundle (h : SegmentHandle) (index : Z) : result (Z * gmap Z RecordBatch) SubscriberError :=
  match reader_manifest (reader h) !! Z.to_nat index with
  | None => Err (BundleNotAvailable IndexOutOfRange)
  | Some e =>
      match (read_bundle slots (reader h) e).2 with
      | Return data => Ok data
      | _ => Err (SegmentIo EmptyString OtherIo)
      end
  end.

Definition with_handle {A} (st : SegmentStore) (seq : Z) (k : SegmentHandle → result A SubscriberError)
    : result A SubscriberError :=
  match segments st !! seq with Some h => k h | None => Err (SegmentNotFound seq) end.

#[global] Instance store_provider : Registry.SegmentProvider SegmentStore (Z * gmap Z RecordBatch) := {
  provider_bundle_count st seq := with_handle st seq (λ h, Ok (bundle_count h));
  bundle_item_count st ref := with_handle st (segment_seq ref) (λ h,
    Ok (from_option item_count 0 (reader_manifest (reader h) !! Z.to_nat (SubscriberTypes.bundle_index ref))));
  read_bundle st ref := with_handle st (segment_seq ref) (λ h, handle_read_bundle h (SubscriberTypes.bundle_index ref));
  available_segments st := segment_sequences st;
}.

(** Sequence numbers are [u64] and counts [u32]: the registry is proved correct
    for every such store. *)
Definition bounded (st : SegmentStore) : Prop :=
  map_Forall (λ seq h, u64_ok seq ∧ u32_ok (bundle_count h)) (segments st).

#[global] Instance bounded_provider : Registry.SegmentProvider {st | bounded st} (Z * gmap Z RecordBatch) := {
  provider_bundle_count st := Registry.provider_bundle_count (`st);
  bundle_item_count st := Registry.bundle_item_count (`st);
  read_bundle st := Registry.read_bundle (`st);
  available_segments st := Registry.available_segments (`st);
}.

#[global] Instance bounded_bounds : Registry.ProviderBounds {st | bounded st} (Z * gmap Z RecordBatch).
Proof.
  split.
  - intros [st Hst] seq. simpl. unfold segment_sequences. rewrite (proj1 (sort_by_key_spec _ _)).
    intros ([k h] & -> & Hin%elem_of_map_to_list)%list_elem_of_fmap. by apply (Hst k h).
  - intros [st Hst] seq n. simpl. unfold with_handle. destruct (segments st !! seq) as [h|] eqn:Hh; [|done].
    intros [= <-]. by apply (Hst seq h).
Qed.

Definition store_total_item_count (st : SegmentStore) (seq : Z) : result Z SubscriberError :=
  with_handle st seq (λ h, Ok (default 0 (total_item_count h))).

(** Item count, byte count and slots of the bundles of a segment. *)
Definition bundle_metadata (st : SegmentStore) (seq : Z) : result (list (Z * option Z * list Z)) SubscriberError :=
  with_handle st seq (λ h,
    Ok ((λ e, (item_count e, exact_byte_count e, (slots e).*1)) <$> reader_manifest (reader h))).

Definition segment_drop_counts (st : SegmentStore) (seq : Z) : result (Z * Z) SubscriberError :=
  with_handle st seq (λ h, Ok (bundle_count h, default 0 (total_item_count h))).

(** ** Invariant *)

(** The sum of a quantity over the values of a map. *)
Definition total {A} (f : A → Z) (m : gmap Z A) : Z := map_fold (λ _ x n, f x + n) 0 m.

Lemma total_insert {A} (f : A → Z) m k x : m !! k = None → total f (<[k := x]> m) = f x + total f m.
Proof. intros Hk. unfold total. rewrite map_fold_insert_L; [done|intros; lia|done]. Qed.

Lemma total_delete {A} (f : A → Z) m k x : m !! k = Some x → total f m = f x + total f (delete k m).
Proof. intros Hk. unfold total. rewrite (map_fold_delete_L _ _ k x m); [done|intros; lia|done]. Qed.

Lemma total_update {A} (f : A → Z) m k x y : m !! k = Some x → f y = f x → total f (<[k := y]> m) = total f m.
Proof.
  intros Hk Hf. rewrite (total_delete f m k x Hk), <-insert_delete_eq, total_insert by apply lookup_delete_eq. lia.
Qed.

Lemma total_nonneg {A} (f : A → Z) m : map_Forall (λ _ x, 0 ≤ f x) m → 0 ≤ total f m.
Proof.
  unfold total. induction m as [|k x m Hk IH] using map_ind; intros Hm; [done|].
  rewrite map_fold_insert_L by (done || (intros; lia)). apply map_Forall_insert in Hm as [? ?]; [|done].
  assert (0 ≤ map_fold (λ _ x n, f x + n) 0 m) by (by apply IH). lia.
Qed.

(** The bytes of the segments in the budget. *)
Definition charged (st : SegmentStore) : Z := total file_size_bytes (segments st) + total pending_size (pending_deletes st).

Record store_ok (st : SegmentStore) : Prop := {
  ok_files seq h : segments st !! seq = Some h → ∃ bytes, files st !! seq = Some bytes ∧ file_size_bytes h = zlen bytes;
  ok_disjoint seq : is_Some (segments st !! seq) → pending_deletes st !! seq = None;
  ok_sizes : map_Forall (λ _ p, 0 ≤ pending_size p) (pending_deletes st);
}.

Definition tracks (base : Z) (s : state) : Prop :=
  store_ok s.1 ∧ 0 ≤ base ∧ ∃ b, s.2 = Some b ∧ used b = base + charged s.1.

Lemma charged_nonneg st : store_ok st → 0 ≤ total file_size_bytes (segments st) ∧ 0 ≤ total pending_size (pending_deletes st).
Proof.
  intros [Hf _ Hp]. split; [|by apply total_nonneg]. apply total_nonneg. intros seq h Hh.
  destruct (Hf seq h Hh) as (bytes & _ & ->). apply zlen_nonneg.
Qed.

(** ** Operations *)

Lemma handle_open_size modified file h :
  handle_open modified file = Return h → ∃ bytes, file = Some bytes ∧ file_size_bytes h = zlen bytes.
Proof.
  unfold handle_open. destruct file as [bytes|]; simpl; [|done].
  destruct (from_buffer crc32 bytes) as [r| |]; simpl; [|done..]. intros [= <-]. by exists bytes.
Qed.

(** Changing how much of the budget a store uses. *)
Lemma tracks_add base st st' b n :
  tracks base (st, Some b) → store_ok st' → charged st' = charged st + n → 0 ≤ n → used b + n < 2 ^ 64 →
  tracks base (st', Some (add b n)).
Proof.
  intros (Hok & Hb & b' & [= <-] & Hu) Hok' Hc Hn Hmax. simpl in Hu. split_and!; [done..|]. exists (add b n). split; [done|].
  destruct (charged_nonneg st Hok). cbn [fst] in *. unfold charged in Hc, Hu |- *. rewrite used_add; lia.
Qed.

Lemma tracks_release base st st' b n :
  tracks base (st, b) → store_ok st' → charged st' = charged st - n → 0 ≤ n → tracks base (st', release (Some n) b).
Proof.
  intros (Hok & Hb & b' & [= ->] & Hu) Hok' Hc Hn. simpl in Hu. split_and!; [done..|]. exists (remove b' n). split; [done|].
  destruct (charged_nonneg st' Hok'). cbn [fst] in *. unfold charged in Hc, Hu |- *. rewrite used_remove; lia.
Qed.

Lemma tracks_same base st st' b : tracks base (st, b) → store_ok st' → charged st' = charged st → tracks base (st', b).
Proof. intros (Hok & Hb & b' & Hs & Hu) Hok' Hc. split_and!; [done..|]. exists b'. simpl in *. by rewrite Hc. Qed.

Lemma store_ok_register st seq bytes h :
  store_ok st → files st !! seq = Some bytes → file_size_bytes h = zlen bytes → pending_deletes st !! seq = None →
  store_ok (set_segments <[seq := h]> st).
Proof.
  intros [Hf Hd Hs] Hfile Hsize Hp. split; simpl; [| |done].
  - intros k h'. destruct (decide (k = seq)) as [->|Hne].
    + rewrite lookup_insert_eq. intros [= <-]. by exists bytes.
    + rewrite lookup_insert_ne by done. apply Hf.
  - intros k. destruct (decide (k = seq)) as [->|Hne]; [done|]. rewrite lookup_insert_ne by done. apply Hd.
Qed.

Lemma charged_register st seq h :
  segments st !! seq = None → charged (set_segments <[seq := h]> st) = charged st + file_size_bytes h.
Proof. intros Hs. unfold charged. simpl. rewrite total_insert by done. lia. Qed.

Lemma store_ok_delete st seq : store_ok st → store_ok (set_files (delete seq) (set_segments (delete seq) st)).
Proof.
  intros [Hf Hd Hs]. split; simpl; [| |done].
  - intros k h Hk%lookup_delete_Some. destruct Hk as [Hne Hk]. rewrite lookup_delete_ne by done. by apply Hf.
  - intros k [h [_ Hk]%lookup_delete_Some]. apply Hd. by exists h.
Qed.

Lemma store_ok_unregister st seq : store_ok st → store_ok (set_segments (delete seq) st).
Proof.
  intros [Hf Hd Hs]. split; simpl; [| |done].
  - intros k h [_ Hk]%lookup_delete_Some. by apply Hf.
  - intros k [h [_ Hk]%lookup_delete_Some]. apply Hd. by exists h.
Qed.

(** The bytes that a deletion releases. *)
Lemma charged_unregister st seq :
  charged st = charged (set_segments (delete seq) st) + default 0 (file_size_bytes <$> segments st !! seq).
Proof.
  unfold charged. simpl. destruct (segments st !! seq) as [h|] eqn:Hh; simpl.
  - rewrite (total_delete _ _ seq h Hh). lia.
  - rewrite delete_id by done. lia.
Qed.

Lemma charged_files st f : charged (set_files f st) = charged st.
Proof. done. Qed.

Lemma delete_keeps base rm now seq s :
  tracks base s → pending_deletes s.1 !! seq = None → tracks base (delete_segment rm now seq s).1.
Proof.
  destruct s as [st b]. simpl. intros Ht Hp. pose proof Ht as (Hok & _). simpl in Hok. pose proof (charged_unregister st seq) as Hc.
  assert (0 ≤ default 0 (file_size_bytes <$> segments st !! seq)) as Hsize.
  { destruct (segments st !! seq) as [h|] eqn:Hh; [|done]. destruct (ok_files _ Hok seq h Hh) as (bytes & _ & Hb).
    simpl. rewrite Hb. apply zlen_nonneg. }
  assert (∀ st', store_ok st' → charged st' = charged (set_segments (delete seq) st) →
    tracks base (st', release (file_size_bytes <$> segments st !! seq) b)) as Hrel.
  { intros st' Hok' Hc'. destruct (segments st !! seq) as [h|]; simpl in *.
    - apply (tracks_release base st); [done..|lia|done].
    - apply (tracks_same base st); [done..|lia]. }
  unfold delete_segment. cbn [files set_segments]. destruct (files st !! seq) as [bytes|] eqn:Hfile.
  2: { apply Hrel; [by apply store_ok_unregister|done]. }
  destruct rm; simpl; [by apply Hrel; [apply store_ok_delete|]..|].
  apply (tracks_same base st); [done| |].
  - destruct (store_ok_unregister st seq Hok) as [Hf Hd Hs]. unfold defer_delete, set_pending. simpl. rewrite Hp. split; simpl; [done| |].
    + intros k Hk. destruct (decide (k = seq)) as [->|Hne]; [destruct Hk as [? Hk]; by rewrite lookup_delete_eq in Hk|].
      rewrite lookup_insert_ne by done. by apply Hd.
    + by apply map_Forall_insert_2.
  - unfold defer_delete, charged in *. simpl in *. rewrite Hp. rewrite total_insert by done. simpl. lia.
Qed.

(** Dropping a pending entry, with or without its file. *)
Lemma store_ok_settle st seq p :
  store_ok st → pending_deletes st !! seq = Some p →
  store_ok (set_pending (delete seq) st) ∧ store_ok (set_files (delete seq) (set_pending (delete seq) st)) ∧
  charged (set_pending (delete seq) st) = charged st - pending_size p ∧ 0 ≤ pending_size p.
Proof.
  intros Hok Hp. pose proof Hok as [Hf Hd Hs].
  assert (segments st !! seq = None) as Hseg.
  { apply eq_None_not_Some. intros Hsome. rewrite (Hd seq Hsome) in Hp. done. }
  assert (∀ k, is_Some (segments st !! k) → delete seq (pending_deletes st) !! k = None) as Hd'.
  { intros k Hk. rewrite lookup_delete_None. right. by apply Hd. }
  split_and!; [by split; simpl; [|done|by apply map_Forall_delete]| | |by eapply (Hs seq)].
  - split; simpl; [|done|by apply map_Forall_delete].
    intros k h Hk. rewrite lookup_delete_ne; [by apply Hf|]. intros ->. by rewrite Hseg in Hk.
  - unfold charged. simpl. rewrite (total_delete _ _ seq p Hp). lia.
Qed.

(** A failed attempt changes no size. *)
Lemma store_ok_postpone st seq p now :
  store_ok st → pending_deletes st !! seq = Some p →
  store_ok (set_pending (alter (postpone now) seq) st) ∧
  store_ok (set_files (delete seq) (set_pending (alter (postpone now) seq) st)) ∧
  charged (set_pending (alter (postpone now) seq) st) = charged st.
Proof.
  intros Hok Hp. pose proof Hok as [Hf Hd Hs].
  assert (alter (postpone now) seq (pending_deletes st) = <[seq := postpone now p]> (pending_deletes st)) as Heq.
  { apply map_eq. intros k. destruct (decide (k = seq)) as [->|Hne].
    - by rewrite lookup_alter_eq, Hp, lookup_insert_eq.
    - by rewrite lookup_alter_ne, lookup_insert_ne. }
  assert (segments st !! seq = None) as Hseg.
  { apply eq_None_not_Some. intros Hsome. rewrite (Hd seq Hsome) in Hp. done. }
  assert (∀ k, is_Some (segments st !! k) → <[seq := postpone now p]> (pending_deletes st) !! k = None) as Hd'.
  { intros k Hk. rewrite lookup_insert_ne; [by apply Hd|]. intros ->. rewrite Hseg in Hk. by apply is_Some_None in Hk. }
  assert (map_Forall (λ _ p, 0 ≤ pending_size p) (<[seq := postpone now p]> (pending_deletes st))) as Hs'.
  { apply map_Forall_insert_2; [|done]. simpl. by eapply (Hs seq). }
  unfold set_pending. rewrite Heq. split_and!.
  - by split.
  - split; simpl; [|done..]. intros k h Hk. rewrite lookup_delete_ne; [by apply Hf|]. intros ->. by rewrite Hseg in Hk.
  - unfold charged. simpl. by rewrite (total_update _ _ seq p).
Qed.

(** Retrying one entry leaves the others as they are. *)
Lemma retry_one_keeps base rm now s seq p s' r :
  tracks base s → pending_deletes s.1 !! seq = Some p → retry_one rm now s seq p = (s', r) →
  tracks base s' ∧ ∀ k, k ≠ seq → pending_deletes s'.1 !! k = pending_deletes s.1 !! k.
Proof.
  destruct s as [st b]. simpl. intros Ht Hp. pose proof Ht as (Hok & _). simpl in Hok.
  destruct (store_ok_settle st seq p Hok Hp) as (Hok1 & Hok2 & Hc & Hn).
  destruct (store_ok_postpone st seq p now Hok Hp) as (Hok3 & Hok4 & Hc').
  destruct (files st !! seq) as [bytes|]; [destruct (rm seq)|]; intros [= <- <-]; (split;
    [|intros k Hne; simpl; by rewrite ?lookup_delete_ne, ?lookup_alter_ne by done]).
  - by apply (tracks_release base st).
  - by apply (tracks_same base st).
  - by apply (tracks_same base st).
  - by apply (tracks_release base st).
Qed.

Lemma retry_each_keeps base rm now snapshot : ∀ s s' r,
  tracks base s → NoDup snapshot.*1 → (∀ seq p, (seq, p) ∈ snapshot → pending_deletes s.1 !! seq = Some p) →
  retry_each rm now snapshot s = (s', r) → tracks base s'.
Proof.
  induction snapshot as [|[seq p] snapshot IH]; intros s s' r Ht Hnd Hin; cbn [retry_each].
  { by intros [= <- _]. }
  apply NoDup_cons in Hnd as [Hni Hnd]. destruct (retry_one rm now s seq p) as [s1 r1] eqn:E1.
  destruct (retry_one_keeps base rm now s seq p s1 r1 Ht) as [Ht1 Hother]; [by apply Hin; left|done|].
  destruct (retry_each rm now snapshot s1) as [s2 r2] eqn:E2. intros [= <- _].
  eapply IH; [exact Ht1|done| |exact E2]. intros k q Hk. rewrite Hother; [by apply Hin; right|].
  intros ->. apply Hni, list_elem_of_fmap. by exists (seq, q).
Qed.

Lemma evict_each_keeps base l : ∀ s,
  tracks base s → NoDup l.*1 →
  (∀ seq n, (seq, n) ∈ l → ∃ p, pending_deletes s.1 !! seq = Some p ∧ n = pending_size p) → tracks base (evict_each l s).
Proof.
  induction l as [|[seq n] l IH]; intros [st b] Ht Hnd Hin; cbn [evict_each]; [done|].
  apply NoDup_cons in Hnd as [Hni Hnd]. destruct (Hin seq n) as (p & Hp & ->); [by left|]. simpl in Hp.
  pose proof Ht as (Hok & _). destruct (store_ok_settle st seq p Hok Hp) as (Hok1 & _ & Hc & Hn).
  apply IH; [by apply (tracks_release base st)|done|]. intros k m Hk. cbn [fst pending_deletes set_pending].
  rewrite lookup_delete_ne; [by apply Hin; right|]. intros ->. apply Hni, list_elem_of_fmap. by exists (k, m).
Qed.

Lemma filter_NoDup_keys {A} (f : Z * A → bool) l : NoDup l.*1 → NoDup (List.filter f l).*1.
Proof.
  induction l as [|[k x] l IH]; intros Hnd; [done|]. apply NoDup_cons in Hnd as [Hni Hnd]. simpl.
  destruct (f (k, x)); [|by apply IH]. apply NoDup_cons. split; [|by apply IH].
  intros ([k' y] & Hk & Hin)%list_elem_of_fmap. simpl in Hk. subst k'. apply Hni, list_elem_of_fmap. exists (k, y).
  split; [done|]. apply list_elem_of_In in Hin. apply filter_In in Hin as [Hin _]. by apply list_elem_of_In.
Qed.

Context (order : gmap Z PendingDelete → list (Z * PendingDelete)).
Hypothesis order_perm : ∀ m, order m ≡ₚ map_to_list m.

Lemma order_filtered (f : Z * PendingDelete → bool) m :
  NoDup (List.filter f (order m)).*1 ∧ ∀ seq p, (seq, p) ∈ List.filter f (order m) → m !! seq = Some p.
Proof.
  split.
  - apply filter_NoDup_keys. rewrite order_perm. apply NoDup_fst_map_to_list.
  - intros seq p Hin%list_elem_of_In. apply filter_In in Hin as [Hin%list_elem_of_In _]. rewrite order_perm in Hin.
    by apply elem_of_map_to_list.
Qed.

Lemma retry_keeps base rm now s s' r :
  tracks base s → retry_pending_deletes_with_results order rm now s = (s', r) → tracks base s'.
Proof.
  intros Ht. unfold retry_pending_deletes_with_results. case_bool_decide as Hnil; [by intros [= <- _]|].
  destruct (order_filtered (λ '(_, p), next_retry_at p <=? now) (pending_deletes s.1)) as [Hnd Hin].
  destruct (retry_each rm now _ s) as [s1 removed] eqn:E. intros [= <- _].
  pose proof (retry_each_keeps base rm now _ s s1 removed Ht Hnd Hin E) as Ht1.
  destruct (order_filtered (λ '(_, p), MAX_DELETE_ATTEMPTS <=? attempts p) (pending_deletes s1.1)) as [Hnd1 Hin1].
  apply evict_each_keeps; [done| |].
  - rewrite <-list_fmap_compose. erewrite list_fmap_ext; [exact Hnd1|]. by intros _ [seq p] _.
  - intros seq n ([k p] & [= -> ->] & Hk)%list_elem_of_fmap. exists p. split; [by apply Hin1|done].
Qed.

(** ** Scanning *)

Lemma total_le {A B} (f : A → Z) (g : B → Z) m m' :
  (∀ k x, m !! k = Some x → ∃ y, m' !! k = Some y ∧ f x = g y) → (∀ y, 0 ≤ g y) → total f m ≤ total g m'.
Proof.
  intros Hsub Hg. revert m' Hsub. induction m as [|k x m Hk IH] using map_ind; intros m' Hsub.
  { apply total_nonneg. by intros ? y _. }
  destruct (Hsub k x) as (y & Hy & Hf); [apply lookup_insert_eq|].
  rewrite total_insert by done. rewrite (total_delete g m' k y Hy), Hf. apply Zplus_le_compat_l, IH.
  intros k' x' Hk'. assert (k ≠ k') by (intros ->; congruence).
  rewrite lookup_delete_ne by done. apply Hsub. by rewrite lookup_insert_ne.
Qed.

(** The state of a scan: no deletion is pending, and the files fit. *)
Record scanning (base : Z) (s : state) : Prop := {
  scan_tracks : tracks base s;
  scan_pending : pending_deletes s.1 = ∅;
  scan_fits : base + total zlen (files s.1) < 2 ^ 64;
}.

Lemma register_existing_keeps base modified seq s s' r :
  scanning base s → segments s.1 !! seq = None → register_existing_segment modified seq s = (s', r) →
  scanning base s' ∧ files s'.1 = files s.1 ∧ ∀ k, k ≠ seq → segments s'.1 !! k = segments s.1 !! k.
Proof.
  destruct s as [st b]. intros Hsc Hseg. unfold register_existing_segment. simpl in Hseg.
  destruct (handle_open modified (files st !! seq)) as [h| |] eqn:Eh; intros [= <- <-]; [|done..].
  destruct (handle_open_size _ _ _ Eh) as (bytes & Hfile & Hsize). destruct Hsc as [Ht Hp Hfit].
  pose proof Ht as (Hok & Hbase & b' & [= ->] & Hu). cbn [fst snd] in *.
  assert (store_ok (set_segments <[seq := h]> st)) as Hok'.
  { eapply store_ok_register; [done..|]. by rewrite Hp, lookup_empty. }
  pose proof (charged_register st seq h Hseg) as Hc.
  split_and!; [split; simpl|done|].
  - apply (tracks_add base st); [done..|rewrite Hsize; apply zlen_nonneg|].
    enough (charged (set_segments <[seq := h]> st) ≤ total zlen (files st)) by lia.
    unfold charged. simpl. rewrite Hp. change (total pending_size ∅) with 0. rewrite Z.add_0_r.
    apply total_le; [|apply zlen_nonneg]. intros k x Hk. by apply (ok_files _ Hok').
  - done.
  - done.
  - intros k Hne. simpl. by rewrite lookup_insert_ne.
Qed.

(** The scan deletes a file that cannot be opened. *)
Lemma scan_delete_keeps base seq s :
  scanning base s → segments s.1 !! seq = None → scanning base (set_files (delete seq) s.1, s.2).
Proof.
  intros [Ht Hp Hfit] Hseg. destruct s as [st b]. cbn [fst snd] in *. split; simpl; [|done|].
  - apply (tracks_same base st); [done| |done]. destruct Ht as ([Hf Hd Hs] & _). simpl in *. split; simpl; [|done..].
    intros k h Hk. rewrite lookup_delete_ne; [by apply Hf|]. intros <-. by rewrite Hseg in Hk.
  - destruct (files st !! seq) as [bytes|] eqn:Ef; [|by rewrite delete_id].
    rewrite (total_delete zlen _ _ bytes Ef) in Hfit. pose proof (zlen_nonneg bytes). lia.
Qed.

Lemma scan_one_keeps base cutoff e s acc s' acc' :
  scanning base s → segments s.1 !! entry_seq e = None → scan_one cutoff e s acc = Return (s', acc') →
  scanning base s' ∧ ∀ k, k ≠ entry_seq e → segments s'.1 !! k = segments s.1 !! k.
Proof.
  intros Hsc Hseg. unfold scan_one.
  destruct (register_existing_segment (entry_modified e) (entry_seq e) s) as [s1 r] eqn:E.
  destruct (register_existing_keeps base _ _ s s1 r Hsc Hseg E) as (Hsc1 & Hf1 & Hk1).
  destruct r as [n|err|]; [by intros [= <- _]| |done].
  destruct (is_file_before_cutoff e cutoff); [|by intros [= <- _]].
  assert (s1 = s) as ->.
  { unfold register_existing_segment in E. destruct s as [st b]. destruct (handle_open _ _); congruence. }
  pose proof (scan_delete_keeps base (entry_seq e) s Hsc Hseg). by destruct (entry_remove e); intros [= <- _].
Qed.

Lemma scan_each_keeps base cutoff l : ∀ s acc s' acc',
  scanning base s → NoDup (entry_seq <$> l) → (∀ e, e ∈ l → segments s.1 !! entry_seq e = None) →
  scan_each cutoff l s acc = Return (s', acc') → scanning base s'.
Proof.
  induction l as [|e l IH]; intros s acc s' acc' Hsc Hnd Hseg; cbn [scan_each]; [by intros [= <- _]|].
  apply NoDup_cons in Hnd as [Hni Hnd]. destruct (scan_one cutoff e s acc) as [[s1 acc1]| |] eqn:E; [|done..].
  cbn [outcome_bind]. destruct (scan_one_keeps base cutoff e s acc s1 acc1 Hsc) as [Hsc1 Hk]; [by apply Hseg; left|done|].
  apply IH; [done..|]. intros e' He'. rewrite Hk; [by apply Hseg; right|]. intros Heq. apply Hni. rewrite <-Heq.
  by apply list_elem_of_fmap_2.
Qed.

(** ** Runs *)

(** The steps of a store after the scan; [base] is what the other users of the
    budget hold.  The engine numbers segments upwards and deletes only segments
    that are registered. *)
Inductive store_step : Z → state → Z → state → Prop :=
  | StepFinalize base st b seq bytes modified st' n :
      files st !! seq = None → pending_deletes st !! seq = None → used b + zlen bytes < 2 ^ 64 →
      register_new_segment modified seq (set_files <[seq := bytes]> st) = (st', Return n) →
      store_step base (st, Some b) base (st', Some (add b (zlen bytes)))
  | StepOrphan base st b now seq bytes :
      files st !! seq = None → pending_deletes st !! seq = None →
      store_step base (st, b) base (defer_orphaned_segment_cleanup now seq (set_files <[seq := bytes]> st), b)
  | StepDelete base s rm now seq :
      pending_deletes s.1 !! seq = None → store_step base s base (delete_segment rm now seq s).1
  | StepRetry base s rm now : store_step base s base (retry_pending_deletes_with_results order rm now s).1
  | StepOther base st b d :
      0 ≤ base + d → used b + d < 2 ^ 64 →
      store_step base (st, Some b) (base + d) (st, Some (mkBudget (hard_cap b) (soft_cap b) (used b + d) (policy b))).

Inductive store_run : Z → state → Z → state → Prop :=
  | RunNil base s : store_run base s base s
  | RunStep base s base1 s1 base2 s2 :
      store_step base s base1 s1 → store_run base1 s1 base2 s2 → store_run base s base2 s2.

Lemma fresh_segment st seq : store_ok st → files st !! seq = None → segments st !! seq = None.
Proof.
  intros [Hf _ _] Hfile. destruct (segments st !! seq) as [h|] eqn:Hh; [|done].
  destruct (Hf seq h Hh) as (bytes & Hb & _). congruence.
Qed.

Lemma store_ok_write st seq bytes : store_ok st → files st !! seq = None → store_ok (set_files <[seq := bytes]> st).
Proof.
  intros [Hf Hd Hs] Hfile. split; simpl; [|done..]. intros k h Hk. rewrite lookup_insert_ne; [by apply Hf|].
  intros <-. destruct (Hf seq h Hk) as (? & ? & _). congruence.
Qed.

Lemma finalize_keeps base st b seq bytes modified st' n :
  tracks base (st, Some b) → files st !! seq = None → pending_deletes st !! seq = None → used b + zlen bytes < 2 ^ 64 →
  register_new_segment modified seq (set_files <[seq := bytes]> st) = (st', Return n) →
  tracks base (st', Some (add b (zlen bytes))).
Proof.
  intros Ht Hfile Hp Hmax. pose proof Ht as (Hok & _). simpl in Hok. unfold register_new_segment. simpl.
  rewrite lookup_insert_eq. destruct (handle_open modified (Some bytes)) as [h| |] eqn:Eh; intros [= <- _].
  destruct (handle_open_size _ _ _ Eh) as (? & [= <-] & Hsize).
  apply (tracks_add base st); [done| | |apply zlen_nonneg|done].
  - eapply store_ok_register; [by apply store_ok_write|simpl; apply lookup_insert_eq|done|done].
  - rewrite charged_register, Hsize; [done|]. by apply (fresh_segment st).
Qed.

Lemma orphan_keeps base st b now seq bytes :
  tracks base (st, b) → files st !! seq = None → pending_deletes st !! seq = None →
  tracks base (defer_orphaned_segment_cleanup now seq (set_files <[seq := bytes]> st), b).
Proof.
  intros Ht Hfile Hp. pose proof Ht as (Hok & _). simpl in Hok. pose proof (fresh_segment st seq Hok Hfile) as Hseg.
  destruct (store_ok_write st seq bytes Hok Hfile) as [Hf Hd Hs].
  unfold defer_orphaned_segment_cleanup, defer_delete, set_pending. simpl. rewrite Hp.
  apply (tracks_same base st); [done| |].
  - split; simpl; [done| |by apply map_Forall_insert_2].
    intros k Hk. rewrite lookup_insert_ne; [by apply Hd|]. intros <-. rewrite Hseg in Hk. by apply is_Some_None in Hk.
  - unfold charged. simpl. by rewrite total_insert.
Qed.

Lemma store_step_keeps base s base' s' : store_step base s base' s' → tracks base s → tracks base' s'.
Proof.
  destruct 1 as [| |base s rm now seq Hp|base s rm now|base st b d Hb Hmax]; intros Ht.
  - by eapply finalize_keeps.
  - by apply orphan_keeps.
  - by apply delete_keeps.
  - destruct (retry_pending_deletes_with_results order rm now s) as [s' r] eqn:E. by eapply retry_keeps.
  - destruct Ht as (Hok & _ & b' & [= <-] & Hu). simpl in *. split_and!; [done..|]. eexists. split; [done|]. simpl. lia.
Qed.

Lemma store_run_keeps base s base' s' : store_run base s base' s' → tracks base s → tracks base' s'.
Proof. induction 1; [done|]. intros Ht. eauto using store_step_keeps. Qed.


End store.

(** ** Example *)

Section example.
Import ArrowModel.

(** Removing files works, but for the first deletion. *)
Definition example_rm (seq : Z) : RemoveResult := if seq =? 3 then RemoveFails else Removed.

(** A damaged file that has expired and cannot be removed. *)
Definition example_entries : list DirEntry := [mkDirEntry 3 10 RemoveFails].

Definition example_budget (used : Z) : DiskBudget := mkBudget 1000 900 used Backpressure.

Definition example_store : @SegmentStore model := mkStore {[3 := [1; 2; 3]]} ∅ ∅.

(** A failed write leaves the file of segment 4, which a retry removes. *)
Definition example_left : @SegmentStore model :=
  defer_orphaned_segment_cleanup 20 4 (set_files <[4 := [5; 6]]> example_store).

Definition example_state : @SegmentStore model * option DiskBudget :=
  (retry_pending_deletes_with_results map_to_list example_rm 30 (example_left, Some (example_budget 107))).1.


End example.
End SegmentStore.
