(* ===== verification/EngineRegistry.v ===== *)
(** * The registry under the engine

    What the engine relies on: the calls of the registry return, keep it well
    formed, and make subscribers track only segments that the store lists; and
    dropping the oldest pending segment makes progress. *)
From S2P Require Import Prelude Bytes Files BTreeMap SubscriberTypes Progress SubscriberState Registry RegistryRuns.

Import SubscriberTypes.
Local Open Scope Z_scope.

Module EngineRegistry.
Import SubscriberState.
Import Registry.
Import RegistryRuns.

Create HintDb subsumed.

(** ** One subscriber *)

(** What [s'] tracks and has to process is what [s] does, or a segment that
    [counts] lists. *)
Definition subsumed (counts : Z → option Z) (s s' : State) : Prop :=
  (∀ seq n, count_of s' seq = Some n → count_of s seq = Some n ∨ counts seq = Some n) ∧
  (∀ seq, pending_in s' seq → pending_in s seq ∨ is_Some (counts seq)).

#[global] Instance subsumed_preorder counts : PreOrder (subsumed counts).
Proof.
  split; [split; auto|]. intros s1 s2 s3 [Hc1 Hp1] [Hc2 Hp2]. split.
  - intros seq n [?|?]%Hc2; auto.
  - intros seq [?|?]%Hp2; auto.
Qed.

Lemma subsumed_resolved counts s s' :
  state_ok s' → (∀ seq n, count_of s' seq = Some n → count_of s seq = Some n) →
  (∀ br, ref_ok br → tracked s' br → resolved_in s' br = false → resolved_in s br = false) → subsumed counts s s'.
Proof.
  intros Hs Hc Hr. split; [auto|]. intros seq (br & Hseq & Ht & Hres). left. exists br. split; [done|].
  split; [|by apply Hr; [eapply tracked_ref_ok|..]]. destruct Ht as (n & Hn & ?). exists n. auto.
Qed.

Lemma subsumed_segments counts s s' : segments s' = segments s → subsumed counts s s'.
Proof.
  intros Hs. unfold subsumed, pending_in, tracked, resolved_in, count_of. rewrite Hs. auto.
Qed.

Lemma add_segment_subsumed counts s seq n : counts seq = Some n → subsumed counts s (add_segment s seq n).
Proof.
  intros Hn. assert (∀ q, count_of (add_segment s seq n) q = count_of s q ∨
    q = seq ∧ count_of (add_segment s seq n) q = Some n) as Hcount.
  { intros q. unfold count_of. rewrite add_segment_get. destruct (BTreeMap.get q (segments s)); [by left|].
    destruct (Z.eqb_spec q seq); [by right|by left]. }
  split.
  - intros q m. destruct (Hcount q) as [->|[-> ->]]; [by left|]. intros [= <-]. by right.
  - intros q (br & Hq & (m & Hm & Hi) & Hres). rewrite add_segment_resolved in Hres. rewrite Hq in Hm.
    destruct (Hcount q) as [Heq|[-> _]]; [|right; eauto]. left. exists br. split; [done|]. split; [|done].
    exists m. by rewrite Hq, <-Heq.
Qed.

Lemma force_complete_subsumed counts segs s s' ev :
  state_ok s → run s (ForceComplete <$> segs) = Some (s', ev) → subsumed counts s s'.
Proof.
  revert s ev. induction segs as [|seq segs IH]; intros s ev Hs; cbn; [by intros [= <- <-]|].
  destruct (force_complete_spec s seq Hs) as (s1 & -> & Hs1 & _ & _ & _ & Hcnt & Hres). cbn.
  destruct (run s1 (ForceComplete <$> segs)) as [[s2 ev2]|] eqn:Hrun; [|done]. intros [= <- <-].
  etrans; [|by eapply IH]. apply subsumed_resolved; [done|by intros ? ?; rewrite Hcnt|].
  intros br Hbr _. rewrite Hres by done. by intros [? _]%orb_false_iff.
Qed.

Lemma cleanup_subsumed counts s before : state_ok s → subsumed counts s (remove_completed_segments_before s before).
Proof.
  intros Hs. apply subsumed_resolved; [by apply cleanup_ok|..].
  - intros seq n. unfold count_of. rewrite cleanup_get by done. destruct (BTreeMap.get seq (segments s)); [|done].
    by case_match.
  - intros br _ Ht. unfold resolved_in. apply tracked_get in Ht as (p & Hp & _). rewrite Hp. rewrite cleanup_get in Hp by done.
    destruct (BTreeMap.get (segment_seq br) (segments s)); [|done]. case_match; [|done]. by injection Hp as <-.
Qed.

Lemma record_subsumed counts s br o b s' :
  state_ok s → ref_ok br → record_outcome s br o = Some (b, s') → subsumed counts s s'.
Proof.
  intros Hs Hbr. destruct (record_outcome_spec s br o Hs Hbr) as (s1 & -> & Hs1 & _ & _ & _ & Hcnt & Hres).
  intros [= <- <-]. apply subsumed_resolved; [done|by intros ? ?; rewrite Hcnt|].
  intros br' Hbr' _. rewrite Hres by done. by intros [? _]%orb_false_iff.
Qed.

Lemma claim_subsumed counts s br b s' : claim s br = Some (b, s') → subsumed counts s s'.
Proof.
  unfold claim. destruct (is_resolved s br) as [[]|]; [| |done]; intros [= <- <-]; [done|].
  apply subsumed_segments. by destruct s.
Qed.

#[export] Hint Resolve add_segment_subsumed cleanup_subsumed record_subsumed claim_subsumed
  force_complete_subsumed : subsumed.

(** Nothing is left to process in a segment that was forced. *)
Lemma force_complete_not_pending segs s s' ev seq :
  state_ok s → run s (ForceComplete <$> segs) = Some (s', ev) → seq ∈ segs → ¬ pending_in s' seq.
Proof.
  revert s ev. induction segs as [|q segs IH]; intros s ev Hs; cbn; [by intros _ ?%elem_of_nil|].
  destruct (force_complete_spec s q Hs) as (s1 & -> & Hs1 & _ & _ & _ & Hcnt & Hres). cbn.
  destruct (run s1 (ForceComplete <$> segs)) as [[s2 ev2]|] eqn:Hrun; [|done]. intros [= <- <-] [->|Hin]%elem_of_cons; [|by eapply IH].
  intros Hp. destruct (force_complete_subsumed (λ _, None) _ _ _ _ Hs1 Hrun) as [_ Hsub].
  destruct (Hsub q Hp) as [(br & Hseq & Ht & Hb)|[? ?]]; [|done].
  rewrite Hres, bool_decide_eq_true_2, orb_true_r in Hb; [done| |by apply (tracked_ref_ok s1)].
  split; [done|]. by apply (count_of_tracked s1).
Qed.

(** ** The registry *)

(** Every subscriber before the call, or a new one. *)
Definition reg_subsumed (counts : Z → option Z) (r r' : Registry) : Prop :=
  ∀ key s', subscribers r' !! key = Some s' →
    ∃ s, (subscribers r !! key = Some s ∨ s = state_new key) ∧ subsumed counts s s'.

#[global] Instance reg_subsumed_preorder counts : PreOrder (reg_subsumed counts).
Proof.
  split.
  - intros r key s Hs. exists s. by split; [left|].
  - intros r1 r2 r3 H12 H23 key s3 Hs3. destruct (H23 key s3 Hs3) as (s2 & [Hs2| ->] & H2).
    + destruct (H12 key s2 Hs2) as (s1 & Hs1 & H1). exists s1. split; [done|]. by etrans.
    + exists (state_new key). by split; [right|].
Qed.

Lemma reg_subsumed_same counts r r' : subscribers r' = subscribers r → reg_subsumed counts r r'.
Proof. intros Heq key s. rewrite Heq. intros Hs. exists s. by split; [left|]. Qed.

Lemma reg_subsumed_put counts r key s s' :
  (subscribers r !! key = Some s ∨ s = state_new key) → subsumed counts s s' → reg_subsumed counts r (put_state r key s').
Proof.
  intros Hs Hsub k t. rewrite subscribers_put. intros [[<- <-]|[_ Ht]]%lookup_insert_Some.
  - by exists s.
  - exists t. by split; [left|].
Qed.

Lemma reg_subsumed_fmap counts r r' f :
  subscribers r' = f <$> subscribers r → (∀ key s, subscribers r !! key = Some s → subsumed counts s (f s)) →
  reg_subsumed counts r r'.
Proof.
  intros Heq Hf key s'. rewrite Heq, lookup_fmap. intros (s & Hs & ->)%fmap_Some. exists s. split; [by left|]. by eapply Hf.
Qed.

(** The segments that some subscriber has not completed. *)
Lemma reg_subsumed_needed counts r r' seq :
  reg_subsumed counts r r' → needed r' seq → needed r seq ∨ is_Some (counts seq).
Proof.
  intros Hsub (key & s' & Hs' & Hp). destruct (Hsub key s' Hs') as (s & Hs & _ & Hpend).
  destruct (Hpend seq Hp) as [Hq|]; [|by right]. left. destruct Hs as [Hs| ->]; [by exists key, s|].
  destruct Hq as (br & _ & (n & Hn & _) & _). done.
Qed.

(** The counts that [known] relates to segments. *)
Definition counts_known (known : Z → Z → Prop) (r : Registry) : Prop :=
  ∀ key s seq n, subscribers r !! key = Some s → count_of s seq = Some n → known seq n.

Lemma reg_subsumed_known counts known r r' :
  reg_subsumed counts r r' → (∀ seq n, counts seq = Some n → known seq n) → counts_known known r → counts_known known r'.
Proof.
  intros Hsub Hc Hk key s' seq n Hs' Hn. destruct (Hsub key s' Hs') as (s & Hs & Hcount & _).
  destruct (Hcount seq n Hn) as [Hq|]; [|auto]. destruct Hs as [Hs| ->]; [by eapply Hk|done].
Qed.

Lemma cleanup_reg_subsumed counts r before : reg_ok r → reg_subsumed counts r (cleanup_segments_before r before).
Proof.
  intros Hr. eapply reg_subsumed_fmap; [by destruct r|]. intros key s Hs. apply cleanup_subsumed, (reg_states r Hr key s Hs).
Qed.

Lemma cleanup_reg_ok r before : reg_ok r → reg_ok (cleanup_segments_before r before).
Proof.
  intros Hr. split. intros key s'. rewrite subscribers_cleanup. intros (s & Hs & ->)%fmap_Some.
  destruct (reg_states r Hr key s Hs) as [Hsok Hid]. split; [by apply cleanup_ok|]. by destruct s.
Qed.

Lemma force_result_subsumed counts r r' order segs u u' :
  reg_ok r → force_result r r' order segs u u' → reg_subsumed counts r r'.
Proof.
  intros Hr [_ _ Hf _ _] key s' Hs'. specialize (Hf key). unfold forced in Hf.
  destruct (subscribers r !! key) as [s|] eqn:Hs; [|congruence]. destruct Hf as (s1 & Hs1 & Hrun).
  replace s1 with s' in * by congruence. exists s. split; [by left|]. case_bool_decide; [|by subst].
  by eapply force_complete_subsumed; [apply (reg_states r Hr key s Hs)|].
Qed.

Lemma force_result_completed r r' order segs u u' seq :
  reg_ok r → key_order r order → force_result r r' order segs u u' → seq ∈ segs → ¬ needed r' seq.
Proof.
  intros Hr Ho [_ _ Hf _ _] Hin (key & s' & Hs' & Hp). specialize (Hf key). unfold forced in Hf.
  destruct (subscribers r !! key) as [s|] eqn:Hs; [|congruence]. destruct Hf as (s1 & Hs1 & Hrun).
  rewrite bool_decide_eq_true_2 in Hrun by (apply (key_order_elem r); [done|by exists s]).
  replace s1 with s' in * by congruence. revert Hp. by eapply force_complete_not_pending; [apply (reg_states r Hr key s Hs)|..].
Qed.

(** ** Dropping the oldest pending segment *)

(** The segment that is dropped was needed and is not any more. *)
Lemma force_drop_progress counts r order :
  reg_ok r → key_order r order →
  ∃ r' dropped u, force_drop_oldest_pending_segments_with_unresolved r order = Some (r', dropped, u) ∧ reg_ok r' ∧
    reg_subsumed counts r r' ∧
    match dropped with
    | [] => True
    | q :: rest => rest = [] ∧ needed r q ∧ ¬ needed r' q ∧ is_Some (BTreeMap.get q u)
    end.
Proof.
  intros Hr Ho. unfold force_drop_oldest_pending_segments_with_unresolved.
  set (states := omap (λ id, subscribers r !! id) order).
  destruct (scan_readers_spec states [] ∅) as (Hsort & Hpend & _).
  { apply Forall_forall. intros s Hs. apply (omap_states r order) in Hs as [key Hs]; [|done]. by apply (reg_states r Hr key). }
  { apply BTreeMap.sorted_nil. }
  destruct (scan_readers states [] ∅) as [pending readers]. cbn [fst snd] in *.
  destruct (List.filter _ pending.*1) as [|q rest] eqn:Hfil; [by exists r, [], []|].
  assert (q ∈ pending.*1) as Hq.
  { apply list_elem_of_In. apply (List.filter_In (λ seq, negb (bool_decide (seq ∈ readers)))). rewrite Hfil. by left. }
  assert (needed r q) as (key0 & s0 & Hs0 & Hp0).
  { apply in_keys_elem in Hq. rewrite Hpend in Hq. destruct Hq as [[? ?]|(s & [key Hs]%(omap_states r order) & Hp)]; [done| |done].
    by exists key, s. }
  destruct (reg_states r Hr _ _ Hs0) as [Hs0ok _].
  destruct (force_subscribers_spec r order [q] [(q, ∅)] Hr) as (r' & u & Hf & Hres).
  { by eapply key_order_NoDup. }
  { apply BTreeMap.sorted_cons. split; [constructor|apply BTreeMap.sorted_nil]. }
  { intros q' ->%list_elem_of_singleton. cbn. by rewrite Z.eqb_refl. }
  { apply Forall_singleton. by eapply pending_in_u64. }
  rewrite Hf. exists r', [q], u. split; [done|]. split_and!; [apply Hres|by eapply force_result_subsumed|done|by exists key0, s0| |].
  - eapply force_result_completed; [done..|by left].
  - destruct (force_unresolved _ _ _ _ _ _ Hres q ∅) as (lost & -> & _); [cbn; by rewrite Z.eqb_refl|done].
Qed.

Lemma force_complete_total counts r order segs :
  reg_ok r → key_order r order → Forall u64_ok segs →
  ∃ r' u, force_complete_segments_with_unresolved r order segs = Some (r', u) ∧ reg_ok r' ∧ reg_subsumed counts r r' ∧
    ∀ seq, seq ∈ segs → ¬ needed r' seq.
Proof.
  intros Hr Ho Hsegs. unfold force_complete_segments_with_unresolved. destruct segs as [|seq segs].
  { exists r, (Some []). split_and!; try done. by intros ? ?%elem_of_nil. }
  case_bool_decide as Hempty.
  { exists r, None. split_and!; try done. intros q _ (key & s & Hs & _). by rewrite Hempty in Hs. }
  destruct (initial_unresolved (λ _, 0) (seq :: segs) []) as [Hsort Hget]; [apply BTreeMap.sorted_nil|].
  destruct (force_subscribers_spec r order (seq :: segs) (foldl (λ m seq, BTreeMap.insert seq ∅ m) [] (seq :: segs)) Hr)
    as (r' & u & -> & Hres); [by eapply key_order_NoDup|done| |done|].
  { intros q Hq. apply Hget. by left. }
  exists r', (Some u). split_and!; [done|apply Hres|by eapply force_result_subsumed|].
  intros q Hq. by eapply force_result_completed.
Qed.

End EngineRegistry.
