(* ===== verification/EngineLog.v ===== *)
(** * The log under the engine

    What the engine relies on: appending extends the log, and a cursor that it
    took from an append or from a replayed entry is always accepted.  A log is
    described by the bundles it accepted since its creation and by how many of
    them the cursor has passed. *)
From S2P Require Import Prelude Bytes Files WalFormat WalReader Budget WalWriter WalLog WalRuns WalRecovery.

Local Open Scope Z_scope.

Module EngineLog.
Import WalFormat.
Import WalReader.
Import WalWriter.
Import WalLog.
Import WalRuns.
Import WalRecovery.
Import Budget.

(** ** Fields that a computation does not touch *)

Create HintDb untouched.

Definition untouched {A} (m : wal A) : Prop :=
  ∀ s s' r, m s = (s', r) → last_cursor_sequence s'.1 = last_cursor_sequence s.1.

Lemma untouched_bind {A B} (m : wal A) (k : A → wal B) : untouched m → (∀ a, untouched (k a)) → untouched (bind m k).
Proof.
  intros Hm Hk s s' r. unfold bind. destruct (m s) as [s1 [a|e]] eqn:E.
  - intros Hs. by rewrite (Hk a _ _ _ Hs), (Hm _ _ _ E).
  - intros [= <- <-]. exact (Hm _ _ _ E).
Qed.

Lemma untouched_same {A} (m : wal A) : (∀ s, (m s).1.1 = s.1) → untouched m.
Proof. intros Hm s s' r E. specialize (Hm s). rewrite E in Hm. cbn in Hm. by rewrite Hm. Qed.

Lemma untouched_modify f : (∀ w, last_cursor_sequence (f w) = last_cursor_sequence w) → untouched (modify f).
Proof. intros Hf s s' r [= <- <-]. apply Hf. Qed.

Lemma untouched_if {A} (b : bool) (m n : wal A) : untouched m → untouched n → untouched (if b then m else n).
Proof. by destruct b. Qed.

Lemma untouched_ret {A} (a : A) : untouched (ret a).
Proof. by apply untouched_same. Qed.

Lemma untouched_fail {A} e : untouched (fail e : wal A).
Proof. by apply untouched_same. Qed.

Lemma untouched_lift {A} (r : result A WalError) : untouched (lift r).
Proof. by apply untouched_same. Qed.

Lemma untouched_get : untouched get_writer.
Proof. by apply untouched_same. Qed.

Lemma untouched_get_dir : untouched get_dir.
Proof. by apply untouched_same. Qed.

Lemma untouched_dir f : untouched (modify_dir f).
Proof. by apply untouched_same. Qed.

Lemma untouched_io b : untouched (io_call b).
Proof. destruct b; by apply untouched_same. Qed.

#[export] Hint Resolve untouched_ret untouched_fail untouched_lift untouched_get untouched_get_dir untouched_dir
  untouched_io : untouched.
#[export] Hint Extern 1 (untouched (modify _)) => apply untouched_modify; intros []; by repeat case_match : untouched.

(** Follows the structure of the computation. *)
Ltac untouched := repeat (cbv zeta; first
  [ solve [eauto with untouched] | apply untouched_bind; [|intros ?] | apply untouched_if | case_match ]).

Section log.
Context (crc32 : list Z → Z) (crc32_ok : ∀ l, u32_ok (crc32 l)).
Context {Batch : Type} {HB : RecordBatch Batch}.

Lemma sidecar_untouched fault : untouched (write_sidecar crc32 fault).
Proof. apply untouched_same. intros s. unfold write_sidecar. by destruct (sidecar_write_to _ _ _ _). Qed.

#[local] Hint Resolve sidecar_untouched : untouched.

Lemma append_untouched io (b : RecordBundle Batch) : untouched (append_bundle crc32 io b).
Proof.
  unfold append_bundle, preflight_append, write_entry, record_append, maybe_flush, maybe_rotate_after_append, flush_now,
    rotate_active_file, rename_active, reopen_wal_file.
  untouched.
Qed.

(** ** The log of an engine *)

(** The cursor has passed the first [k] of the accepted bundles. *)
Record log_ready (s : WalWriter * Dir) (acks : list (WalOffset * RecordBundle Batch)) (k : nat) : Prop := {
  ready_holds : wal_holds crc32 s (record_of <$> acks);
  ready_cursor : cursor_position s.1 = end_position (take k acks);
  ready_sequence last : last_cursor_sequence s.1 = Some last → last < Z.of_nat k;
}.

(** The sequence number of an accepted bundle is its index. *)
Lemma numbered_ack acks es i o b :
  record_of <$> acks = place 0 es → numbered es → acks !! i = Some (o, b) → sequence o = Z.of_nat i.
Proof.
  intros Hp Hn Hi. pose proof (f_equal (λ l, l !! i) Hp) as Hl. cbn beta in Hl. rewrite list_lookup_fmap, Hi in Hl.
  assert (∀ pos l j r, place pos l !! j = Some r → record_sequence r = default 0 (entry_seq <$> l !! j)) as Hseq.
  { clear. intros pos l. revert pos. induction l as [|e l IH]; intros pos j r; [by rewrite lookup_nil|].
    destruct j as [|j]; cbn; [by intros [= <-]|]. apply IH. }
  symmetry in Hl. apply Hseq in Hl. cbn in Hl. rewrite Hl. unfold numbered in Hn.
  pose proof (f_equal (λ l, l !! i) Hn) as Hs. cbn beta in Hs. rewrite list_lookup_fmap in Hs. rewrite Hs.
  rewrite (proj2 (lookup_seqZ _ _ _ (Z.of_nat i))); [done|]. split; [lia|].
  apply (f_equal length) in Hp. rewrite length_fmap, place_length in Hp. apply lookup_lt_Some in Hi. unfold zlen. lia.
Qed.

Lemma budget_inv w b dir purged fs act :
  wal_inv crc32 w dir purged fs act → wal_inv crc32 (w <| budget := b |>) dir purged fs act.
Proof. intros [Hl Hp Hpu Hpa Hle Hhs Hro Hids Hni Hsq Hb Hv Hc Hca Hsc Hag Htr Hvl]. destruct w. by split. Qed.

(** The budget is not part of the log. *)
Lemma log_budget w d b acks k : log_ready (w, d) acks k → log_ready (w <| budget := b |>, d) acks k.
Proof.
  intros [(purged & fs & act & Hi & Hrest) Hc Hs]. split; [|by destruct w|by destruct w].
  exists purged, fs, act. split; [by apply budget_inv|]. by destruct w.
Qed.

Lemma log_entries s acks :
  wal_holds crc32 s (record_of <$> acks) →
  ∃ purged fs act, wal_inv crc32 s.1 s.2 purged fs act ∧ record_of <$> acks = place 0 (purged ++ entries_of fs ++ act) ∧
    numbered (purged ++ entries_of fs ++ act) ∧ zlen (purged ++ entries_of fs ++ act) = zlen acks ∧
    0 ≤ purge_count s.1 ∧ (purge_count s.1 = 0 → purged = []).
Proof.
  intros (purged & fs & act & Hi & Hrecs & Hnum & Hpc & Hpz). exists purged, fs, act. split_and!; try done.
  apply (f_equal zlen) in Hrecs. unfold zlen in *. rewrite length_fmap, place_length in Hrecs. done.
Qed.

Lemma log_append s acks k bundle el s' r :
  log_ready s acks k → (k ≤ length acks)%nat → zlen acks < 2 ^ 32 → bundle_ok bundle →
  append_bundle crc32 (append_fine el) bundle s = (s', r) →
  (∃ err, r = Err err) ∧ s' = s ∨
  ∃ o, r = Ok o ∧ sequence o = zlen acks ∧ log_ready s' (acks ++ [(o, bundle)]) k ∧
    options s'.1 = options s.1 ∧ purge_count s'.1 = purge_count s.1 ∧
    ∃ encoded, encode_slots bundle (descriptor_slots bundle) 0 [] = Ok encoded.
Proof.
  intros [Hh Hc Hs] Hk Hz Hok Happ. destruct (log_entries s acks Hh) as (purged & fs & act & Hi & Hrecs & Hnum & Hlen & Hpc & Hpz).
  pose proof (append_untouched _ _ _ _ _ Happ) as Hlast. destruct s as [w d].
  rewrite <-Hlen in Hz. destruct (append_step crc32 crc32_ok w d purged fs act bundle el s' r Hi Hz Hok Happ)
    as [(Herr & -> & _)|(-> & (_ & Henc & _) & Hcur & Hopt & Hpur & _ & fs' & act' & Hi' & Hent)]; [by left|].
  cbn [fst snd] in *. right. eexists. split; [done|]. set (o := offset (record_at _ _)).
  assert (record_of <$> acks ++ [(o, bundle)] = place 0 (purged ++ entries_of fs' ++ act')) as Hrecs'.
  { rewrite Hent, place_app, fmap_app, Hrecs. done. }
  split; [by rewrite <-Hlen|]. split_and!; [|done|done|done].
  split; [|by rewrite Hcur, Hc, take_app_le by done|by rewrite Hlast].
  exists purged, fs', act'. split_and!; [done|done| |by rewrite Hpur|by rewrite Hpur].
  rewrite Hent. apply numbered_snoc; [done|]. done.
Qed.

(** The cursor of an accepted bundle that the cursor has not passed is valid. *)
Lemma persist_accepts w d purged fs act c :
  wal_inv crc32 w d purged fs act → zlen (purged ++ entries_of fs ++ act) ≤ 2 ^ 32 →
  (∃ a b, purged ++ entries_of fs ++ act = a ++ b ∧ safe_offset c = size a) → cursor_position w < safe_offset c →
  (∀ last, last_cursor_sequence w = Some last → last ≤ safe_sequence c) →
  validate_cursor c (w, d) = ((w, d), Ok tt).
Proof.
  intros Hi Hz (a & b & Hsplit & Ha) Hpos Hseq. unfold validate_cursor. rewrite get_bind.
  replace (match last_cursor_sequence w with Some last => safe_sequence c <? last | None => false end) with false.
  2: { destruct (last_cursor_sequence w) as [last|]; [|done]. symmetry. apply Z.ltb_ge. by apply Hseq. }
  rewrite (proj2 (Z.ltb_ge _ _)) by lia. cbv zeta. rewrite (inv_start _ _ _ _ _ _ Hi).
  destruct (Z.leb_spec (safe_offset c) (active_start w)) as [|Hlt]; [done|].
  pose proof (inv_start_size _ _ _ _ _ _ Hi) as Hstart. pose proof (inv_bound _ _ _ _ _ _ Hi Hz) as Hsz.
  assert (∃ a', a = (purged ++ entries_of fs) ++ a' ∧ act = a' ++ b) as (a' & -> & ->).
  { rewrite app_assoc in Hsplit. symmetry in Hsplit. destruct (app_size_split_ge a b (purged ++ entries_of fs) act) as (m & -> & ->);
      [done|lia|]. by exists m. }
  rewrite !size_app in *. pose proof (size_nonneg purged). pose proof (size_nonneg (entries_of fs)). pose proof (size_nonneg a').
  pose proof (size_nonneg b). rewrite (inv_header _ _ _ _ _ _ Hi).
  replace (saturating_add u64_max 38 (saturating_sub (safe_offset c) (active_start w))) with (38 + size a')
    by (unfold saturating_add, saturating_sub; change u64_max with 18446744073709551615; lia).
  rewrite (inv_len _ _ _ _ _ _ Hi), size_app, (proj2 (Z.ltb_ge _ _)) by lia. unfold lift, ensure_entry_boundary.
  destruct (Z.eqb_spec (38 + size a') (validated_boundary w)) as [|Hne]; [done|].
  pose proof (inv_validated_le _ _ _ _ _ _ Hi) as Hvl. rewrite (proj2 (Z.ltb_ge _ _)) by lia.
  rewrite (inv_header _ _ _ _ _ _ Hi). destruct (Z.eqb_spec (38 + size a') 38) as [|H38]; [done|].
  rewrite bool_decide_eq_true_2; [done|]. apply (inv_tracked _ _ _ _ _ _ Hi); [|lia|lia]. by exists a', b.
Qed.

Lemma end_position_lt acks es k k' :
  record_of <$> acks = place 0 es → (k < k' ≤ length acks)%nat → end_position (take k acks) < end_position (take k' acks).
Proof.
  intros Hp [Hk Hk']. rewrite <-(take_drop k' acks), fmap_app in Hp. apply place_split in Hp as (es1 & es2 & -> & H1 & _).
  rewrite (place_end _ _ H1). rewrite <-(take_drop k (take k' acks)), fmap_app in H1.
  apply place_split in H1 as (es3 & es4 & -> & H3 & H4). rewrite take_take, Nat.min_l in H3 by lia.
  rewrite (place_end _ _ H3), size_app. destruct es4 as [|e es4]; [|rewrite size_cons; pose proof (frame_len_pos e); pose proof (size_nonneg es4); lia].
  apply (f_equal length) in H4. rewrite length_fmap, length_drop, length_take in H4. cbn in H4. lia.
Qed.

Lemma log_persist s acks k k' c s' r :
  log_ready s acks k → (k < k' ≤ length acks)%nat → zlen acks ≤ 2 ^ 32 →
  safe_offset c = end_position (take k' acks) → safe_sequence c = Z.of_nat k' - 1 →
  persist_cursor crc32 cursor_fine c s = (s', r) →
  r = Ok tt ∧ log_ready s' acks k' ∧ options s'.1 = options s.1.
Proof.
  intros [Hh Hc Hs] [Hk Hk'] Hz Hoff Hsq. destruct (log_entries s acks Hh) as (purged & fs & act & Hi & Hrecs & Hnum & Hlen & Hpc & Hpz).
  destruct s as [w d]. cbn [fst snd] in *.
  assert (∃ a b, purged ++ entries_of fs ++ act = a ++ b ∧ safe_offset c = size a) as Hsplit.
  { rewrite <-(take_drop k' acks), fmap_app in Hrecs. symmetry in Hrecs. rewrite Hoff.
    symmetry in Hrecs. apply place_split in Hrecs as (es1 & es2 & Hes & H1 & _). exists es1, es2. split; [done|]. by apply place_end. }
  assert (cursor_position w < safe_offset c) as Hlt.
  { rewrite Hc, Hoff. by apply (end_position_lt acks (purged ++ entries_of fs ++ act)). }
  intros Hper. destruct (persist_step crc32 crc32_ok w d purged fs act c s' r Hi ltac:(lia) Hper)
    as [[(err & -> & Hval) _]|(-> & Hlast & Hcur & _ & Hopt & _ & fs1 & fs2 & -> & Hi' & Hcnt & _)].
  { rewrite (persist_accepts w d purged fs act c Hi) in Hval; [done|lia|done|done|].
    intros last Hl. specialize (Hs last Hl). lia. }
  destruct (Hcnt Hpc) as [Hc1 Hc2]. split; [done|]. split; [|done]. split.
  - exists (purged ++ entries_of fs1), fs2, act. rewrite entries_of_app, <- !app_assoc in *. split_and!; try done.
    intros Hz'. destruct (Hc2 Hz') as [-> Hz0]. by rewrite (Hpz Hz0).
  - by rewrite Hcur.
  - intros last. rewrite Hlast. intros [= <-]. lia.
Qed.

(** ** Opening *)

Lemma open_last o b names d d' w : open crc32 o b names d = (d', Ok w) → last_cursor_sequence w = None.
Proof.
  unfold open. destruct (open_active o d) as [d1 active].
  match goal with |- match ?m with Ok _ => _ | Err _ => _ end = _ → _ => destruct m as [[[[[[[[start hs] cur] rot] nid] nseq] valid] bs]|err] end;
    [|done].
  intros [= _ <-]. unfold budget_add, recalculate_aggregate_bytes, restore_cursor_offsets. by destruct (_ <? _).
Qed.

Lemma log_fresh o b :
  length (cfg_hash o) = 16%nat → validate o = Ok tt →
  ∃ w d, open crc32 o b [WAL_FILENAME] ∅ = (d, Ok w) ∧ log_ready (w, d) [] 0 ∧ options w = o ∧
    (map_to_list d).*1 = [WAL_FILENAME].
Proof.
  intros Hh Hv. destruct (open_fresh crc32 crc32_ok o b Hh Hv) as (w & d & Hopen & Hholds & Ho & Hc & _ & _ & _ & _ & Hkeys & _).
  exists w, d. split; [done|]. split; [|done]. split; [done|done|]. cbn. by rewrite (open_last _ _ _ _ _ _ Hopen).
Qed.

(** After a crash that keeps the bytes up to the cursor, the log has the first
    bundles, at least those that the cursor has passed. *)
Lemma log_crash s acks k n tail b names :
  log_ready s acks k → (k ≤ length acks)%nat → purge_count s.1 = 0 → zlen acks ≤ 2 ^ 32 → validate (options s.1) = Ok tt → torn crc32 tail →
  38 ≤ Z.of_nat n → cursor_position s.1 ≤ active_start s.1 + (Z.of_nat n - 38) →
  names ≡ₚ (map_to_list (crash n tail s.2)).*1 →
  ∃ w d k', open crc32 (options s.1) b names (crash n tail s.2) = (d, Ok w) ∧ (k ≤ k')%nat ∧
    survivors (active_start s.1 + (Z.of_nat n - 38)) acks = take k' acks ∧ log_ready (w, d) (take k' acks) k ∧
    options w = options s.1 ∧ (map_to_list d).*1 ≡ₚ (map_to_list (crash n tail s.2)).*1.
Proof.
  intros [Hh Hc Hs] Hk Hpc Hz Hv Ht Hn Hcur Hnames.
  destruct (crash_open crc32 crc32_ok s acks n tail b names Hh Hpc Hz Hv Ht Hn Hcur Hnames)
    as (w & d & Hopen & Hh' & Ho & Hc' & _ & Hkeys & k' & Hsurv & Hlost).
  assert (k ≤ k')%nat as Hle.
  { destruct (Nat.le_gt_cases k k') as [|Hlt]; [done|]. exfalso. destruct (lookup_lt_is_Some_2 acks (k - 1)) as [[o b'] Hx]; [lia|].
    assert ((o, b') ∈ drop k' acks) as Hin.
    { apply list_elem_of_lookup. exists (k - 1 - k')%nat. rewrite lookup_drop. replace (k' + (k - 1 - k'))%nat with (k - 1)%nat by lia. done. }
    specialize (Hlost o b' Hin). rewrite Hc in Hcur. replace k with (S (k - 1))%nat in Hcur by lia.
    rewrite (take_S_r _ _ _ Hx) in Hcur. unfold end_position in Hcur. rewrite last_snoc in Hcur. lia. }
  exists w, d, k'. split_and!; try done. rewrite Hsurv in Hh'. split; [done|..].
  - cbn. rewrite Hc', Hc, take_take. by rewrite Nat.min_l.
  - cbn. by rewrite (open_last _ _ _ _ _ _ Hopen).
Qed.

End log.
End EngineLog.
