(* ===== verification/WalIter.v ===== *)
(** * Reading the log while it is purged

    The iterator of [wal/reader.rs] step by step.  The engine replays the log with
    an iterator while it finalizes segments, which moves the cursor and deletes
    the files before it.  The iterator holds the file it reads, and the files that
    it has not opened yet lie after the cursor, so it delivers every entry. *)
From S2P Require Import Prelude Bytes Files WalFormat WalReader Budget WalWriter WalLog WalRuns EngineLog.

Local Open Scope Z_scope.

Module WalIter.
Import WalFormat.
Import WalReader.
Import WalWriter.
Import WalLog.
Import WalRuns.
Import EngineLog.

Section iter.
Context (crc32 : list Z → Z) (crc32_ok : ∀ l, u32_ok (crc32 l)).
Context (hash : list Z) (Hhash : length hash = 16%nat).

(** An iterator inside a file, with the entries that the file still has and the
    files after it.  The file was opened before, from another directory. *)
Inductive reading : MultiFileWalIter → Z → list LogEntry → list WalFileInfo → Prop :=
  | reading_file dir0 info infos es1 es2 pos :
      file_at crc32 hash dir0 info (es1 ++ es2) → pos ≤ info_end info →
      reading (mkIter (info :: infos) (Some (file_reader crc32 hash (info_start info) (es1 ++ es2) (38 + size es1))) pos)
        (info_start info + size es1) es2 infos.

Lemma next_entry dir it pos e es infos :
  reading it pos (e :: es) infos →
  ∃ it', multi_next crc32 dir it = (it', Some (Ok (record_at pos e))) ∧ reading it' (pos + frame_len e) es infos.
Proof.
  inversion 1 as [dir0 info infos' es1 es2 p Hat Hp]; subst. pose proof Hat as [_ Hs He Hb Hes].
  unfold multi_next. cbn [iter_files current_reader start_position multi_next_from]. rewrite read_next_file; try done.
  - eexists. split; [done|]. replace (info_start info + size es1 + frame_len e) with (info_start info + size (es1 ++ [e]))
      by (rewrite size_app, size_cons; cbn; lia).
    replace (es1 ++ e :: es) with ((es1 ++ [e]) ++ es) in * by (by rewrite <- app_assoc).
    eapply reading_file; [done|]. cbn [record_next_offset record_at]. rewrite He, !size_app, size_cons.
    pose proof (size_nonneg es). cbn. lia.
  - apply Forall_app in Hes as [_ Hes]. by apply Forall_cons in Hes as [? _].
  - by destruct Hs.
  - lia.
Qed.

Lemma next_file dir it pos infos :
  reading it pos [] infos → ∃ p, p ≤ pos ∧ multi_next crc32 dir it = multi_next_from crc32 dir infos None p.
Proof.
  inversion 1 as [dir0 info infos' es1 es2 p Hat Hp]; subst. rewrite app_nil_r in *. exists p.
  rewrite (at_end _ _ _ _ _ Hat) in Hp. split; [done|]. unfold multi_next.
  cbn [iter_files current_reader start_position multi_next_from].
  pose proof (read_end_file crc32 hash (info_start info) es1 Hhash) as Hend.
  destruct (read_next_entry _ _) as [r [?|]]; [done|]. done.
Qed.

(** What is left to deliver: the rest of a file, then files that follow. *)
Definition delivers (dir : Dir) (it : MultiFileWalIter) (pos : Z) (es : list LogEntry) (infos : list WalFileInfo) : Prop :=
  ∃ es1 es2, es = es1 ++ es2 ∧ reading it pos es1 infos ∧ files_at crc32 hash dir (pos + size es1) infos es2.

(** The first entry of files that are not open. *)
Lemma next_files dir start infos es p :
  files_at crc32 hash dir start infos es → p ≤ start →
  match es with
  | [] => (multi_next_from crc32 dir infos None p).2 = None
  | e :: es' => ∃ it' infos', multi_next_from crc32 dir infos None p = (it', Some (Ok (record_at start e))) ∧
      delivers dir it' (start + frame_len e) es' infos' ∧ infos' `suffix_of` infos
  end.
Proof.
  intros Hf. revert p. induction Hf as [start|info es infos es' Hat Hf IH]; intros p Hp; [done|].
  pose proof (at_end _ _ _ _ _ Hat) as He. pose proof (size_nonneg es).
  destruct (multi_next_open crc32 hash Hhash dir info infos es p Hat) as (es1 & es2 & Hes & Hsz & Hnext); [lia| |].
  { exists [], es. split; [done|]. cbn. lia. }
  assert (es1 = []) as -> by (apply size_zero; lia). cbn [app] in Hes. subst es2.
  assert (multi_next_from crc32 dir (info :: infos) None p =
    multi_next crc32 dir (mkIter (info :: infos) (Some (file_reader crc32 hash (info_start info) es (38 + size []))) p)) as ->
    by exact Hnext.
  assert (reading (mkIter (info :: infos) (Some (file_reader crc32 hash (info_start info) es (38 + size []))) p)
    (info_start info + size []) es infos) as Hr by (apply (reading_file dir info infos [] es p Hat); lia).
  replace (info_start info + size []) with (info_start info) in Hr by (cbn; lia). destruct es as [|e es]; cbn [app].
  - destruct (next_file dir _ _ _ Hr) as (p' & Hp' & ->). cbn in He. rewrite Z.add_0_r in He.
    specialize (IH p' ltac:(lia)). destruct es' as [|e es']; [done|]. destruct IH as (it' & infos' & Hm & Hd & Hs).
    exists it', infos'. rewrite <-He. split_and!; [done..|]. by apply suffix_cons_r.
  - destruct (next_entry dir _ _ _ _ _ Hr) as (it' & Hm & Hr'). exists it', infos. split; [done|].
    split; [|by apply suffix_cons_r]. exists es, es'. split; [done|]. split; [done|].
    replace (info_start info + frame_len e + size es) with (info_end info) by (rewrite He, size_cons; lia). done.
Qed.

Lemma delivers_next dir it pos es infos :
  delivers dir it pos es infos →
  match es with
  | [] => (multi_next crc32 dir it).2 = None
  | e :: es' => ∃ it' infos', multi_next crc32 dir it = (it', Some (Ok (record_at pos e))) ∧
      delivers dir it' (pos + frame_len e) es' infos' ∧ infos' `suffix_of` infos
  end.
Proof.
  intros (es1 & es2 & -> & Hr & Hf). destruct es1 as [|e es1]; cbn [app].
  - destruct (next_file dir _ _ _ Hr) as (p & Hp & ->). cbn in Hf. rewrite Z.add_0_r in Hf. by apply next_files.
  - destruct (next_entry dir _ _ _ _ _ Hr) as (it' & Hm & Hr'). exists it', infos. split; [done|]. split; [|done].
    exists es1, es2. split; [done|]. split; [done|]. by rewrite size_cons, Z.add_assoc in Hf.
Qed.

(** The first entry from a position. *)
Lemma iter_from_next dir start infos h1 h2 :
  files_at crc32 hash dir start infos (h1 ++ h2) →
  match h2 with
  | [] => (multi_next crc32 dir (multi_iter_from infos (start + size h1))).2 = None
  | e :: es => ∃ it' infos', multi_next crc32 dir (multi_iter_from infos (start + size h1)) =
        (it', Some (Ok (record_at (start + size h1) e))) ∧
      delivers dir it' (start + size h1 + frame_len e) es infos' ∧ infos' `suffix_of` infos
  end.
Proof.
  unfold multi_iter_from, multi_next. cbn [iter_files current_reader start_position].
  intros Hf. remember (h1 ++ h2) as es eqn:Hh. revert h1 Hh.
  induction Hf as [start|info es infos es' Hat Hf IH]; intros h1 Hh.
  { symmetry in Hh. apply app_eq_nil in Hh as [-> ->]. done. }
  pose proof (at_end _ _ _ _ _ Hat) as He. cbn [skip_until]. rewrite He.
  destruct (Z.ltb_spec (info_start info + size h1) (info_start info + size es)).
  - destruct (app_size_split h1 h2 es es') as (m & -> & ->); [done|lia|]. pose proof (size_nonneg h1).
    destruct (multi_next_open crc32 hash Hhash dir info infos (h1 ++ m) (info_start info + size h1) Hat) as (es1 & es2 & Hes & Hsz & Hnext).
    { rewrite He. lia. }
    { exists h1, m. split; [done|]. lia. }
    assert (size es1 = size h1) as Hs1 by lia.
    destruct (app_size_split_ge es1 es2 h1 m) as (x & Hx & ->); [done|lia|]. subst es1.
    rewrite size_app in Hs1. assert (x = []) as -> by (apply size_zero; lia). rewrite app_nil_r in *. cbn [app] in *.
    rewrite Hnext. rewrite size_app in *. destruct es2 as [|e es2]; [cbn in *; lia|]. cbn [app].
    assert (reading (mkIter (info :: infos) (Some (file_reader crc32 hash (info_start info) (h1 ++ e :: es2) (38 + size h1)))
      (info_start info + size h1)) (info_start info + size h1) (e :: es2) infos) as Hr.
    { apply (reading_file dir info infos h1 (e :: es2) _ Hat). rewrite He. lia. }
    destruct (next_entry dir _ _ _ _ _ Hr) as (it' & Hm & Hr'). exists it', infos. split; [done|]. split; [|by apply suffix_cons_r].
    exists es2, es'. split; [done|]. split; [done|].
    replace (info_start info + size h1 + frame_len e + size es2) with (info_end info) by (rewrite He, size_cons; lia). done.
  - destruct (app_size_split_ge h1 h2 es es') as (m & -> & ->); [done|lia|].
    rewrite size_app, Z.add_assoc, <- He. specialize (IH m eq_refl). destruct h2 as [|e h2]; [done|].
    destruct IH as (it' & infos' & Hm & Hd & Hs). exists it', infos'. split_and!; [done..|]. by apply suffix_cons_r.
Qed.

End iter.

(** ** The iterator and the writer *)

Lemma chained_split p pre post stop :
  chained p (pre ++ post) stop → chained p pre (p + size (entries_of pre)) ∧ chained (p + size (entries_of pre)) post stop.
Proof.
  revert p. induction pre as [|f pre IH]; intros p; cbn [app chained].
  - change (entries_of []) with (@nil LogEntry). change (size []) with 0. by rewrite Z.add_0_r.
  - intros (Hs & Hne & Hc). destruct (IH _ Hc) as [H1 H2]. rewrite entries_of_cons, size_app. unfold lf_end in *.
    replace (p + (size (lf_entries f) + size (entries_of pre))) with (lf_start f + size (lf_entries f) + size (entries_of pre)) by lia.
    done.
Qed.

Lemma suffix_app_inv {A} (l a : list A) x :
  l `suffix_of` a ++ [x] → l = [] ∨ ∃ pre post, a = pre ++ post ∧ l = post ++ [x].
Proof.
  intros [k Hk]. destruct l as [|y l _] using rev_ind; [by left|]. right. rewrite app_assoc in Hk.
  apply app_inj_tail in Hk as [-> ->]. by exists k, l.
Qed.

(** Lists of files that end at the same place. *)
Lemma suffix_later p fs1 fs2 pre post stop :
  fs1 ++ fs2 = pre ++ post → chained p (fs1 ++ fs2) stop → size (entries_of fs1) ≤ size (entries_of pre) →
  ∃ mid, fs2 = mid ++ post ∧ pre = fs1 ++ mid.
Proof.
  revert p pre. induction fs1 as [|f fs1 IH]; intros p pre Heq Hc Hle; [by exists pre|].
  destruct Hc as (_ & Hne & Hc). rewrite entries_of_cons, size_app in Hle. pose proof (size_pos _ Hne).
  destruct pre as [|g pre]; cbn [app] in Heq.
  { change (size (entries_of [])) with 0 in Hle. pose proof (size_nonneg (entries_of fs1)). lia. }
  injection Heq as -> Heq. rewrite entries_of_cons, size_app in Hle.
  destruct (IH _ pre Heq Hc) as (mid & -> & ->); [lia|]. by exists mid.
Qed.

Section log.
Context (crc32 : list Z → Z) (crc32_ok : ∀ l, u32_ok (crc32 l)).
Context {Batch : Type} {HB : RecordBatch Batch}.
Implicit Types (acks : list (WalOffset * RecordBundle Batch)).

(** The iterator has delivered the first [n] accepted bundles. *)
Definition awaits (s : WalWriter * Dir) (it : MultiFileWalIter) acks (n : nat) : Prop :=
  ∃ purged fs act infos h es, wal_inv crc32 s.1 s.2 purged fs act ∧
    infos `suffix_of` (info_of <$> fs) ++ [active_info (active_start s.1) act] ∧
    purged ++ entries_of fs ++ act = h ++ es ∧ length h = n ∧ record_of <$> acks = place 0 (h ++ es) ∧
    delivers crc32 (cfg_hash (options s.1)) s.2 it (size h) es infos.

(** What the iterator returns next. *)
Definition next_ack (s : WalWriter * Dir) (it : MultiFileWalIter) acks (n : nat) : Prop :=
  match acks !! n with
  | None => (multi_next crc32 s.2 it).2 = None
  | Some a => ∃ it', multi_next crc32 s.2 it = (it', Some (Ok (record_of a))) ∧ awaits s it' acks (S n)
  end.

(** The record of a bundle, from the list of all entries. *)
Lemma placed_ack acks h es :
  record_of <$> acks = place 0 (h ++ es) →
  match es with
  | [] => acks !! length h = None
  | e :: _ => ∃ a, acks !! length h = Some a ∧ record_of a = record_at (size h) e
  end.
Proof.
  intros Heq. rewrite place_app in Heq. pose proof (f_equal (λ l, l !! length h) Heq) as Hl. cbn beta in Hl.
  rewrite list_lookup_fmap, lookup_app_r in Hl by (by rewrite place_length). rewrite place_length, Nat.sub_diag in Hl.
  destruct es as [|e es]; cbn in Hl; [by destruct (acks !! length h)|]. apply fmap_Some in Hl as (a & Ha & Hr).
  exists a. split; [done|]. exact (eq_sym Hr).
Qed.

Lemma placed_end acks h es : record_of <$> acks = place 0 (h ++ es) → end_position (take (length h) acks) = size h.
Proof.
  intros Hrec. apply place_end. rewrite place_app in Hrec. apply (f_equal (take (length h))) in Hrec.
  by rewrite <-fmap_take, take_app_length' in Hrec by (by rewrite place_length).
Qed.

Lemma awaits_next s it acks n : awaits s it acks n → next_ack s it acks n.
Proof.
  intros (purged & fs & act & infos & h & es & Hi & Hinf & Heq & <- & Hrec & Hd).
  pose proof (lay_hash _ _ _ _ _ _ (inv_layout _ _ _ _ _ _ Hi)) as Hh.
  pose proof (delivers_next crc32 crc32_ok _ Hh _ _ _ _ _ Hd) as Hn. pose proof (placed_ack _ _ _ Hrec) as Ha. unfold next_ack.
  destruct es as [|e es]; [by rewrite Ha|]. destruct Ha as (a & -> & ->). destruct Hn as (it' & infos' & -> & Hd' & Hs').
  exists it'. split; [done|]. exists purged, fs, act, infos', (h ++ [e]), es. rewrite <-app_assoc.
  split_and!; [done|by etrans|done|rewrite length_app; cbn; lia|done|].
  by replace (size (h ++ [e])) with (size h + frame_len e) by (rewrite size_app, size_cons; cbn; lia).
Qed.

(** Reading from the end of some accepted bundles, not before the cursor. *)
Lemma start_next s acks n names :
  wal_holds crc32 s (record_of <$> acks) → names ≡ₚ (map_to_list s.2).*1 → (n ≤ length acks)%nat →
  cursor_position s.1 ≤ end_position (take n acks) →
  ∃ files, multi_open s.2 names = Ok files ∧ wal_end_position files = end_position acks ∧
    next_ack s (multi_iter_from files (end_position (take n acks))) acks n.
Proof.
  intros (purged & fs & act & Hi & Hrecs & _) Hnames Hn Hcur.
  pose proof (inv_layout _ _ _ _ _ _ Hi) as Hl. pose proof (inv_placed _ _ _ _ _ _ Hi) as Hp.
  pose proof Hrecs as Hsplit. rewrite <-(take_drop n acks), fmap_app in Hsplit.
  apply place_split in Hsplit as (h & es & Hh & H1 & H2). rewrite (place_end _ _ H1) in *.
  destruct (inv_cursor _ _ _ _ _ _ Hi) as [Hpc _].
  destruct (app_size_split_ge h es purged (entries_of fs ++ act)) as (m & -> & Hrest); [done|lia|].
  eexists. split; [by eapply multi_open_layout|]. split.
  { unfold wal_end_position. rewrite last_snoc, (place_end _ _ Hrecs). cbn [info_end active_info].
    rewrite (chained_size _ _ _ (placed_chain _ _ _ _ Hp)), !size_app. lia. }
  pose proof (files_at_layout crc32 _ _ _ _ _ _ Hl Hp) as Hf. rewrite Hrest in Hf.
  pose proof (iter_from_next crc32 crc32_ok _ (lay_hash _ _ _ _ _ _ Hl) _ _ _ _ _ Hf) as Hnext. rewrite size_app.
  assert (length (purged ++ m) = n) as Hlen.
  { apply (f_equal length) in H1. rewrite length_fmap, place_length, length_take in H1. lia. }
  rewrite Hh in Hrecs. pose proof (placed_ack _ _ _ Hrecs) as Ha. rewrite Hlen in Ha. unfold next_ack.
  destruct es as [|e es]; [by rewrite Ha|]. destruct Ha as (a & -> & ->). destruct Hnext as (it' & infos' & Hm & Hd & Hs).
  rewrite size_app. exists it'. split; [done|]. exists purged, fs, act, infos', ((purged ++ m) ++ [e]), es. rewrite <-(app_assoc _ [e]).
  split_and!; [done|done|done|rewrite length_app; cbn; lia|done|].
  by replace (size ((purged ++ m) ++ [e])) with (size purged + size m + frame_len e)
    by (rewrite !size_app, size_cons; cbn; lia).
Qed.

Lemma awaits_budget w d b it acks n : awaits (w, d) it acks n → awaits (w <| budget := b |>, d) it acks n.
Proof.
  intros (purged & fs & act & infos & h & es & Hi & Hrest). exists purged, fs, act, infos, h, es.
  split; [by apply budget_inv|]. by destruct w.
Qed.

(** Moving the cursor up to where the iterator is. *)
Lemma awaits_persist s it acks n c s' r :
  awaits s it acks n → zlen acks ≤ 2 ^ 32 → safe_offset c ≤ end_position (take n acks) →
  persist_cursor crc32 cursor_fine c s = (s', r) → awaits s' it acks n.
Proof.
  intros Haw Hz Hc Hper. pose proof Haw as (purged & fs & act & infos & h & es & Hi & Hinf & Heq & <- & Hrec & Hd). destruct s as [w d].
  assert (zlen acks = zlen (h ++ es)) as Hlen.
  { apply (f_equal length) in Hrec. rewrite length_fmap, place_length in Hrec. unfold zlen. lia. }
  rewrite (placed_end _ _ _ Hrec) in Hc.
  cbn [fst snd] in *.
  destruct (persist_step crc32 crc32_ok w d purged fs act c s' _ Hi ltac:(rewrite Heq; lia) Hper)
    as [[_ ->]|(_ & _ & Hcur & _ & Hopt & _ & fs1 & fs2 & -> & Hi' & _)]; [exact Haw|]. clear Haw.
  rewrite entries_of_app, <-!app_assoc in Heq. destruct s' as [w' d']. cbn [fst snd] in *.
  destruct (inv_cursor _ _ _ _ _ _ Hi') as [Hle _]. rewrite Hcur, size_app in Hle.
  pose proof (inv_placed _ _ _ _ _ _ Hi) as Hp. pose proof (placed_chain _ _ _ _ Hp) as Hch.
  pose proof (inv_placed _ _ _ _ _ _ Hi') as Hp'. pose proof (chained_size _ _ _ (placed_chain _ _ _ _ Hp')) as Hst'.
  assert (active_start w' = active_start w) as Hst.
  { rewrite Hst', (chained_size _ _ _ Hch), entries_of_app, !size_app. lia. }
  exists (purged ++ entries_of fs1), fs2, act, infos, h, es. cbn [fst snd]. rewrite Hst, Hopt, <-app_assoc.
  destruct Hd as (es1 & es2 & -> & Hr & Hf).
  destruct (suffix_app_inv _ _ _ Hinf) as [->|(pre0 & post0 & Hpre & ->)].
  { split_and!; [done|apply suffix_nil|done..|]. exists es1, es2. split_and!; [done..|]. inversion Hf. constructor. }
  apply fmap_app_inv in Hpre as (pre & post & -> & -> & Hpp).
  assert (size purged + size (entries_of pre) = size h + size es1) as Hpos.
  { destruct (chained_split (size purged) pre post (active_start w)) as [_ Hc2]; [by rewrite <-Hpp|].
    destruct post as [|f post]; inversion Hf; subst; cbn [info_of active_info info_start] in *; [done|]. by destruct Hc2. }
  destruct (suffix_later (size purged) fs1 fs2 pre post (active_start w) Hpp Hch) as (mid & -> & ->).
  { pose proof (size_nonneg es1). lia. }
  rewrite !entries_of_app, <-!app_assoc in Heq. rewrite entries_of_app, size_app in Hpos.
  assert (es2 = entries_of post ++ act) as ->.
  { destruct (app_size_split_ge (h ++ es1) es2 (purged ++ entries_of fs1 ++ entries_of mid) (entries_of post ++ act)) as (x & Hx & Hes).
    - by rewrite <-!app_assoc.
    - rewrite !size_app. lia.
    - apply (f_equal size) in Hx. rewrite !size_app in Hx. assert (x = []) as -> by (apply size_zero; lia). done. }
  split_and!; [done| |by rewrite entries_of_app, <-!app_assoc|done..|].
  - rewrite fmap_app, <-app_assoc. by apply suffix_app_r.
  - exists es1, (entries_of post ++ act). split_and!; [done..|].
    rewrite <-Hopt, <-Hst. apply (files_at_suffix crc32 _ _ _ _ _ _ _ mid post (inv_layout _ _ _ _ _ _ Hi') Hp'); [done|].
    rewrite Hst. destruct (chained_split (size purged) (fs1 ++ mid) post (active_start w)) as [_ Hc2]; [by rewrite <-Hpp|].
    rewrite entries_of_app, size_app in Hc2. by replace (size h + size es1) with (size purged + (size (entries_of fs1) + size (entries_of mid))) by lia.
Qed.

End log.
End WalIter.
