(* ===== verification/Engine.v ===== *)
(** * Engine

    Model of [crates/quiver/src/engine.rs] with [wal/replay.rs] and
    [telemetry.rs]: ingestion into the write-ahead log and the open segment,
    finalization of segments, retention by size and by age, maintenance, and the
    replay of the log when the engine is opened.  The engine is composed of the
    models of its parts: the writer of the log, the open segment, the segment
    files, the store and the registry of subscribers.  Calls run one after the
    other; [EngineRaces] interleaves two of them.  The
    disk budget is shared and kept in the writer.  Outcomes of I/O calls and
    clocks are arguments; [None] is a panic. *)
From S2P Require Import Prelude Bytes Files BTreeMap SubscriberTypes Progress SubscriberState Registry.
From S2P Require Import WalFormat WalReader Budget WalWriter.
From S2P Require Import Arrow SegmentTypes Dictionaries OpenSegment SegmentFile SegmentStore.

Local Open Scope Z_scope.

Module Engine.
Import SubscriberTypes.
Import Registry.
Import WalReader.
Import WalWriter.
Import Budget.
Import Arrow.
Import SegmentTypes.
Import SegmentFile.
Import SegmentStore.
Import OpenSegment.

(** The part of the configuration that the engine reads. *)
Record EngineConfig := mkEngineConfig {
  target_size_bytes : Z;
  max_open_duration : Z;
  max_stream_count : Z;
  engine_durability : DurabilityMode;
  max_age : option Z;
}.

Inductive QuiverError :=
  | StorageAtCapacity (available soft_cap : Z)
  | WalFailed (e : WalFormat.WalError)
  | SegmentFailed (e : SegmentError).

Record PersistenceMetrics := mkMetrics {
  ingest_attempts : Z;
  flush_failures : Z;
}.

Record RetentionLossCounts := mkLoss {
  loss_segments : Z;
  loss_bundles : Z;
  loss_items : Z;
  loss_bytes : Z;
  loss_reclaimed_bytes : Z;
}.

Inductive ReclamationReason := ReclaimedDropOldest | ReclaimedExpired.

(** Item counts by the sorted slots of a bundle. *)
Abbreviation Shapes := (gmap (list Z) Z).

(** What happens when a segment is written: whether the file can be created; how
    many bytes reach it when a write fails; whether it can be synchronized; what
    is left in it when encoding fails; what removing it after an error does; its
    modification time. *)
Record segment_io := mkSegmentIo {
  create_ok : bool;
  segment_written : option nat;
  sync_ok : bool;
  left_over : list Z;
  cleanup_rm : RemoveResult;
  modified : Z;
}.

Record finalize_io := mkFinalizeIo {
  fin_segment : segment_io;
  fin_cursor : cursor_io;
  fin_now : Z;
}.

(** The clock when the bundle is appended and when the age of the segment is
    checked; the two attempts to append to the log; the finalization between
    them and the one at the end; deletions of files. *)
Record ingest_io := mkIngestIo {
  append_now : Z;
  check_now : Z;
  first_append : append_io;
  second_append : append_io;
  capacity_finalize : finalize_io;
  end_finalize : finalize_io;
  reclaim_rm : Z → RemoveResult;
  reclaim_now : Z;
}.

Section engine.
Context {HA : Arrow} (crc32 : list Z → Z) (slots : ManifestEntry → list (Z * SlotChunkRef)).
Context (stream_encode : RecordBatch → option (list Z)) (stream_decode : list Z → option RecordBatch).
Context (order : Registry → list SubscriberId).

(** The encoding of batches in the log. *)
#[local] Instance batch_encoder : WalFormat.RecordBatch RecordBatch := {
  WalFormat.num_rows := num_rows;
  WalFormat.stream_encode := stream_encode;
}.

Record QuiverEngine := mkQuiverEngine {
  config : EngineConfig;
  metrics : PersistenceMetrics;
  wal_writer : WalWriter;
  wal_dir : Dir;
  open_segment : OpenSegment;
  segment_cursor : WalConsumerCursor;
  next_segment_seq : Z;
  cumulative_wal_bytes : Z;
  cumulative_segment_bytes : Z;
  force_dropped : RetentionLossCounts;
  dropped_items_by_shape : Shapes;
  expired : RetentionLossCounts;
  expired_items_by_shape : Shapes;
  pending_reclaimed : gmap Z ReclamationReason;
  segment_store : SegmentStore;
  registry : Registry;
}.

Definition engine_budget (e : QuiverEngine) : option DiskBudget := budget (wal_writer e).

Definition over_soft_cap (e : QuiverEngine) : bool := from_option is_over_soft_cap false (engine_budget e).

(** An operation of the store, on the shared budget. *)
Definition with_store {A} (f : SegmentStore * option DiskBudget → (SegmentStore * option DiskBudget) * A)
    (e : QuiverEngine) : QuiverEngine * A :=
  let '((st, b), a) := f (segment_store e, engine_budget e) in
  (e <| segment_store := st |> <| wal_writer ::= λ w, w <| budget := b |> |>, a).

(** An operation of the writer of the log. *)
Definition with_wal {A} (m : wal A) (e : QuiverEngine) : QuiverEngine * result A WalFormat.WalError :=
  let '((w, d), r) := m (wal_writer e, wal_dir e) in
  (e <| wal_writer := w |> <| wal_dir := d |>, r).

(** ** Finalization *)

(** [SegmentWriter::write_segment] *)
Definition write_segment (io : segment_io) (seq : Z) (seg : OpenSegment) (st : SegmentStore)
    : SegmentStore * result (Z * Z) SegmentError :=
  match into_parts seg with
  | Err err => (st, Err err)
  | Ok (accs, entries) =>
      if negb (create_ok io) then (st, Err (Io OtherIo))
      else
        match write_streaming crc32 slots accs entries with
        | Raise err => (set_files <[seq := left_over io]> st, Err err)
        | Panicked => (set_files <[seq := left_over io]> st, Err (InvalidFormat "blocking task panicked"))
        | Return (bytes, n, crc) =>
            match segment_written io with
            | Some k => (set_files <[seq := take k bytes]> st, Err (Io OtherIo))
            | None => (set_files <[seq := bytes]> st, if sync_ok io then Ok (n, crc) else Err (Io OtherIo))
            end
        end
  end.

(** Removing the file after a failed write; if that fails, later. *)
Definition remove_partial (io : finalize_io) (seq : Z) (st : SegmentStore) : SegmentStore :=
  match files st !! seq, cleanup_rm (fin_segment io) with
  | None, _ => st
  | Some _, RemoveFails => defer_orphaned_segment_cleanup (fin_now io) seq st
  | Some _, _ => set_files (delete seq) st
  end.

(** The callback that the store invokes for a registered segment. *)
Definition notify (seq : Z) (r : outcome Z) (e : QuiverEngine) : option QuiverEngine :=
  match r with
  | Return n => Some (e <| registry ::= λ r, on_segment_finalized r seq n |>)
  | Raise _ => Some e
  | Panicked => None
  end.

Definition finalize_segment_impl (io : finalize_io) (e : QuiverEngine)
    : option (QuiverEngine * result unit QuiverError) :=
  if is_empty (open_segment e) then Some (e, Ok tt)
  else
    let segment := open_segment e in
    let cursor := segment_cursor e in
    let seq := next_segment_seq e in
    let e := e <| open_segment := open_new |> <| segment_cursor := cursor_default |>
               <| next_segment_seq ::= λ n, wrapping_add 64 n 1 |> in
    match write_segment (fin_segment io) seq segment (segment_store e) with
    | (st, Err err) =>
        Some (e <| segment_store := remove_partial io seq st |>
                <| metrics ::= λ m, m <| flush_failures ::= λ n, wrapping_add 64 n 1 |> |>,
              Err (SegmentFailed err))
    | (st, Ok (bytes_written, _)) =>
        let e := e <| segment_store := st |>
                   <| cumulative_segment_bytes ::= λ n, wrapping_add 64 n bytes_written |>
                   <| wal_writer ::= budget_add bytes_written |> in
        match with_wal (persist_cursor crc32 (fin_cursor io) cursor) e with
        | (e, Err err) => Some (e, Err (WalFailed err))
        | (e, Ok _) =>
            let '(st, r) := register_new_segment crc32 (modified (fin_segment io)) seq (segment_store e) in
            e ← notify seq r (e <| segment_store := st |>);
            Some (e, Ok tt)
        end
    end.

Definition flush (io : finalize_io) := finalize_segment_impl io.

Definition shutdown (io : finalize_io) := finalize_segment_impl io.

(** ** Ingestion *)

Definition should_finalize (now : Z) (c : EngineConfig) (seg : OpenSegment) : bool :=
  let size_exceeded := target_size_bytes c <=? estimated_size_bytes seg in
  let time_exceeded := from_option (λ opened, max_open_duration c <=? now - opened) false (opened_at seg) in
  let streams_exceeded := max_stream_count c <=? open_stream_count seg in
  size_exceeded || time_exceeded || streams_exceeded.

Definition append_to_segment_and_maybe_finalize (now check : Z) (io : finalize_io) (b : RecordBundle)
    (cursor : option WalConsumerCursor) (e : QuiverEngine)
    : option (QuiverEngine * result unit QuiverError) :=
  let e := match cursor with Some c => e <| segment_cursor := c |> | None => e end in
  match append now (open_segment e) b with
  | (seg, Err err) => Some (e <| open_segment := seg |>, Err (SegmentFailed err))
  | (seg, Ok _) =>
      let e := e <| open_segment := seg |> in
      if should_finalize check (config e) seg then finalize_segment_impl io e else Some (e, Ok tt)
  end.

Definition append_to_wal_with_capacity_handling (io : ingest_io) (b : RecordBundle) (e : QuiverEngine)
    : option (QuiverEngine * result WalFormat.WalOffset QuiverError) :=
  match with_wal (append_bundle crc32 (first_append io) (bundle b)) e with
  | (e, Ok o) => Some (e, Ok o)
  | (e, Err err) =>
      if WalFormat.is_at_capacity err then
        '(e, r) ← finalize_segment_impl (capacity_finalize io) e;
        match r with
        | Err err => Some (e, Err err)
        | Ok _ =>
            match with_wal (append_bundle crc32 (second_append io) (bundle b)) e with
            | (e, Ok o) => Some (e, Ok o)
            | (e, Err err) => Some (e, Err (WalFailed err))
            end
        end
      else Some (e, Err (WalFailed err))
  end.

(** *** Making room *)

Fixpoint delete_each (rm : Z → RemoveResult) (now : Z) (l : list Z) (e : QuiverEngine) : QuiverEngine :=
  match l with
  | [] => e
  | seq :: l => delete_each rm now l (with_store (delete_segment (rm seq) now seq) e).1
  end.

(** Deleting a segment never returns an error: failures are deferred. *)
Definition engine_cleanup_completed (rm : Z → RemoveResult) (now : Z) (e : QuiverEngine) : QuiverEngine * Z :=
  let '(r, deleted) :=
    cleanup_completed_segments (segment_sequences (segment_store e)) (λ _, false) (registry e) in
  ((delete_each rm now deleted e) <| registry := r |>, zlen deleted).

Definition checked_add (a b : option Z) : option Z := n ← a; k ← b; if n + k <=? u64_max then Some (n + k) else None.

(** Adding to the count of a shape. *)
Definition add_shape (ids : list Z) (n : Z) (m : Shapes) : Shapes :=
  let key := sort_by_key (λ x, x) ids in <[key := default 0 (m !! key) + n]> m.

(** The unresolved bundles of a segment: items, shapes and bytes. *)
Fixpoint count_lost (exact : bool) (metadata : list (Z * option Z * list Z)) (indexes : list Z) (items : Z) (m : Shapes)
    (bytes : option Z) : Z * Shapes * option Z :=
  match indexes with
  | [] => (items, m, bytes)
  | i :: indexes =>
      match metadata !! Z.to_nat i with
      | None => count_lost exact metadata indexes items m None
      | Some (n, size, ids) =>
          let bytes := checked_add bytes size in
          if exact then count_lost exact metadata indexes (items + n) (add_shape ids n m) bytes
          else count_lost exact metadata indexes items m bytes
      end
  end.

(** The loss of one segment that is dropped. *)
Definition dropped_loss (st : SegmentStore) (seq : Z) (unresolved : gset Z) (items : Z) (m : Shapes) (bytes : option Z)
    : Z * Shapes * option Z :=
  if bool_decide (unresolved = ∅) then (items, m, bytes)
  else
    match retention_drop_counts st seq, bundle_metadata slots st seq with
    | Ok (_, exact_items, _), Ok metadata =>
        let '(items, m, selected) :=
          count_lost (bool_decide (is_Some exact_items)) metadata (elements unresolved) items m (Some 0) in
        (items, m, match selected with Some _ => checked_add bytes selected | None => None end)
    | _, _ => (items, m, None)
    end.

(** Deleting a segment for the given reason. *)
Definition reclaim (reason : ReclamationReason) (rm : RemoveResult) (now seq : Z) (e : QuiverEngine)
    : QuiverEngine * option Z :=
  match with_store (delete_segment rm now seq) e with
  | (e, Some size) => (e, Some size)
  | (e, None) => (e <| pending_reclaimed ::= <[seq := reason]> |>, None)
  end.

(** [None] is the panic of [expect] for a segment without unresolved set. *)
Fixpoint drop_each (rm : Z → RemoveResult) (now : Z) (l : list Z) (unresolved : Unresolved) (e : QuiverEngine)
    (counts : RetentionLossCounts) (m : Shapes) (bytes : option Z)
    : option (QuiverEngine * RetentionLossCounts * Shapes * option Z) :=
  match l with
  | [] => Some (e, counts, m, bytes)
  | seq :: l =>
      lost ← BTreeMap.get seq unresolved;
      let '(items, m, bytes) := dropped_loss (segment_store e) seq lost (loss_items counts) m bytes in
      let counts := counts <| loss_bundles ::= λ n, n + Z.of_nat (base.size lost) |> <| loss_items := items |> in
      let '(e, deletion) := reclaim ReclaimedDropOldest (rm seq) now seq e in
      let counts := match deletion with
                    | Some size => counts <| loss_segments ::= Z.add 1 |>
                                          <| loss_reclaimed_bytes ::= λ n, saturating_add u64_max n size |>
                    | None => counts
                    end in
      drop_each rm now l unresolved e counts m bytes
  end.

Definition add_losses (total counts : RetentionLossCounts) (bytes : option Z) : RetentionLossCounts :=
  mkLoss (wrapping_add 64 (loss_segments total) (loss_segments counts))
    (wrapping_add 64 (loss_bundles total) (loss_bundles counts))
    (wrapping_add 64 (loss_items total) (loss_items counts))
    (wrapping_add 64 (loss_bytes total) (default 0 bytes))
    (wrapping_add 64 (loss_reclaimed_bytes total) (loss_reclaimed_bytes counts)).

(** The registry forgets the completed segments up to the highest of the list. *)
Definition forget_through (l : list Z) (r : Registry) : Registry :=
  match l with
  | [] => r
  | seq :: l => cleanup_segments_before r (saturating_add u64_max (foldr Z.max seq l) 1)
  end.

Definition no_losses : RetentionLossCounts := mkLoss 0 0 0 0 0.

Definition force_drop_oldest_pending_segments (rm : Z → RemoveResult) (now : Z) (e : QuiverEngine)
    : option (QuiverEngine * Z) :=
  '(r, to_drop, unresolved) ← force_drop_oldest_pending_segments_with_unresolved (registry e) (order (registry e));
  let e := e <| registry := r |> in
  match to_drop with
  | [] => Some (e, 0)
  | _ =>
      '(e, counts, m, bytes) ←
        drop_each rm now to_drop unresolved e no_losses (dropped_items_by_shape e) (Some 0);
      Some (e <| dropped_items_by_shape := m |>
              <| force_dropped ::= λ t, add_losses t counts bytes |>
              <| registry ::= forget_through to_drop |>, zlen to_drop)
  end.

(** The loop of [ingest] for the policy [DropOldest]; [None] also when the fuel
    is used up. *)
Fixpoint drop_until_room (fuel : nat) (rm : Z → RemoveResult) (now : Z) (e : QuiverEngine) : option QuiverEngine :=
  match fuel with
  | O => None
  | S fuel =>
      if over_soft_cap e then
        '(e, dropped) ← force_drop_oldest_pending_segments rm now e;
        if dropped =? 0 then Some e else drop_until_room fuel rm now e
      else Some e
  end.

(** Every round resolves a segment that a subscriber tracks. *)
Definition drop_fuel (r : Registry) : nat := S (S (map_fold (λ _ s n, length (SubscriberState.segments s) + n)%nat 0%nat (subscribers r))).

Definition make_room (io : ingest_io) (e : QuiverEngine) : option (QuiverEngine * result unit QuiverError) :=
  if over_soft_cap e then
    let e := (engine_cleanup_completed (reclaim_rm io) (reclaim_now io) e).1 in
    if over_soft_cap e then
      e ← match policy <$> engine_budget e with
          | Some DropOldest => drop_until_room (drop_fuel (registry e)) (reclaim_rm io) (reclaim_now io) e
          | _ => Some e
          end;
      if over_soft_cap e then
        Some (e, Err (from_option (λ b, StorageAtCapacity (soft_cap_headroom b) (soft_cap b))
                        (StorageAtCapacity 0 0) (engine_budget e)))
      else Some (e, Ok tt)
    else Some (e, Ok tt)
  else Some (e, Ok tt).

Definition ingest (io : ingest_io) (b : RecordBundle) (e : QuiverEngine)
    : option (QuiverEngine * result unit QuiverError) :=
  let e := e <| metrics ::= λ m, m <| ingest_attempts ::= λ n, wrapping_add 64 n 1 |> |> in
  '(e, room) ← make_room io e;
  match room with
  | Err err => Some (e, Err err)
  | Ok _ =>
      match engine_durability (config e) with
      | SegmentOnly => append_to_segment_and_maybe_finalize (append_now io) (check_now io) (end_finalize io) b None e
      | DurabilityWal =>
          '(e, r) ← append_to_wal_with_capacity_handling io b e;
          match r with
          | Err err => Some (e, Err err)
          | Ok o =>
              let e := e <| cumulative_wal_bytes ::= λ n,
                wrapping_add 64 n (saturating_sub (WalFormat.next_offset o) (WalFormat.position o)) |> in
              append_to_segment_and_maybe_finalize (append_now io) (check_now io) (end_finalize io) b
                (Some (cursor_from_offset o)) e
          end
      end
  end.

(** ** Retention by age *)

(** The loss of one expired segment; [unresolved] is missing when there are no
    subscribers. *)
Definition expired_loss (st : SegmentStore) (seq : Z) (unresolved : option (gset Z)) (counts : RetentionLossCounts)
    (m : Shapes) (bytes : option Z) : RetentionLossCounts * Shapes * option Z :=
  match retention_drop_counts st seq with
  | Err _ => (counts, m, bytes)
  | Ok (stored, exact_items, exact_bytes) =>
      let counts := counts <| loss_bundles ::= λ n, n + from_option (λ u, Z.of_nat (base.size u)) stored unresolved |> in
      let '(counts, bytes) :=
        match unresolved with
        | None => (counts <| loss_items ::= λ n, n + default 0 exact_items |>, checked_add bytes exact_bytes)
        | Some _ => (counts, bytes)
        end in
      match unresolved with
      | Some u =>
          if bool_decide (u = ∅) then (counts, m, bytes)
          else
            match bundle_metadata slots st seq with
            | Ok metadata =>
                let '(items, m, selected) := count_lost (bool_decide (is_Some exact_items)) metadata (elements u)
                                               (loss_items counts) m (Some 0) in
                (counts <| loss_items := items |>, m,
                 match selected with Some _ => checked_add bytes selected | None => None end)
            | Err _ => (counts, m, None)
            end
      | None =>
          match exact_items with
          | None => (counts, m, None)
          | Some _ =>
              match bundle_metadata slots st seq with
              | Ok metadata => (counts, foldl (λ m '(n, _, ids), add_shape ids n m) m metadata, bytes)
              | Err _ => (counts, m, bytes)
              end
          end
      end
  end.

Fixpoint expire_each (rm : Z → RemoveResult) (now : Z) (l : list Z) (unresolved : option Unresolved) (e : QuiverEngine)
    (counts : RetentionLossCounts) (m : Shapes) (bytes : option Z)
    : QuiverEngine * RetentionLossCounts * Shapes * option Z :=
  match l with
  | [] => (e, counts, m, bytes)
  | seq :: l =>
      let '(counts, m, bytes) :=
        expired_loss (segment_store e) seq (unresolved ≫= BTreeMap.get seq) counts m bytes in
      let '(e, deletion) := reclaim ReclaimedExpired (rm seq) now seq e in
      let counts := match deletion with
                    | Some size => counts <| loss_segments ::= Z.add 1 |>
                                          <| loss_reclaimed_bytes ::= λ n, saturating_add u64_max n size |>
                    | None => counts
                    end in
      expire_each rm now l unresolved e counts m bytes
  end.

Definition cleanup_expired_segments (rm : Z → RemoveResult) (now : Z) (e : QuiverEngine) : option (QuiverEngine * Z) :=
  match max_age (config e) with
  | None => Some (e, 0)
  | Some age =>
      match segments_older_than now age (segment_store e) with
      | [] => Some (e, 0)
      | old =>
          '(r, unresolved) ← force_complete_segments_with_unresolved (registry e) (order (registry e)) old;
          let '(e, counts, m, bytes) :=
            expire_each rm now old unresolved (e <| registry := r |>) no_losses (expired_items_by_shape e) (Some 0) in
          Some (e <| expired_items_by_shape := m |>
                  <| expired ::= λ t, add_losses t counts bytes |>
                  <| registry ::= forget_through old |>, zlen old)
      end
  end.

(** ** Maintenance *)

(** The reason for which a deferred deletion was made is settled. *)
Definition settle_removed (e : QuiverEngine) (removed : Z * Z) : QuiverEngine :=
  let '(seq, bytes) := removed in
  let count t := t <| loss_segments ::= λ n, wrapping_add 64 n 1 |>
                   <| loss_reclaimed_bytes ::= λ n, wrapping_add 64 n bytes |> in
  let reason := pending_reclaimed e !! seq in
  let e := e <| pending_reclaimed ::= delete seq |> in
  match reason with
  | Some ReclaimedDropOldest => e <| force_dropped ::= count |>
  | Some ReclaimedExpired => e <| expired ::= count |>
  | None => e
  end.

Record MaintenanceStats := mkStats {
  flushed : Z;
  stats_deleted : Z;
  stats_expired : Z;
  pending_deletes_cleared : Z;
}.

(** [faults], [dirty]: the outcomes of writing progress files and the order of the
    dirty set; [pending]: the order of the pending deletions; [progress_dir]: the
    directory of the progress files. *)
Definition maintain (faults : SubscriberId → io_fault) (dirty : list SubscriberId)
    (pending : gmap Z PendingDelete → list (Z * PendingDelete)) (rm : Z → RemoveResult) (now : Z)
    (e : QuiverEngine) (progress_dir : Dir)
    : option (QuiverEngine * Dir * result MaintenanceStats SubscriberError) :=
  let '(r, progress_dir, f) := flush_progress crc32 faults dirty (registry e) progress_dir in
  let e := e <| registry := r |> in
  match f with
  | Err err => Some (e, progress_dir, Err err)
  | Ok flushed =>
      let '(e, deleted) := engine_cleanup_completed rm now e in
      '(e, old) ← cleanup_expired_segments rm now e;
      let '(e, results) := with_store (retry_pending_deletes_with_results pending rm now) e in
      let e := foldl settle_removed e (removed results) in
      let e := e <| pending_reclaimed ::= λ m, foldl (λ m seq, delete seq m) m (abandoned results) |> in
      Some (e, progress_dir, Ok (mkStats flushed deleted old (cleared results)))
  end.

(** ** Subscribers *)

Definition with_registry (f : Registry → Registry) (e : QuiverEngine) : QuiverEngine := e <| registry ::= f |>.

Definition register_subscriber (key : SubscriberId) (e : QuiverEngine) : QuiverEngine :=
  with_registry (λ r, register r key) e.

Definition activate_subscriber (key : SubscriberId) (e : QuiverEngine) : QuiverEngine * result unit SubscriberError :=
  let '(r, res) := Registry.activate (HP := store_provider slots) (segment_store e) (registry e) key in
  (e <| registry := r |>, res).

(** The data of a handle: the index of the bundle and its payloads. *)
Abbreviation Handle := (BundleHandle (Z * gmap Z RecordBatch)).

Definition engine_poll_next_bundle (key : SubscriberId) (e : QuiverEngine)
    : option (QuiverEngine * result (option Handle) SubscriberError) :=
  '(r, res) ← poll_next_bundle (HP := store_provider slots) (segment_store e) (registry e) key;
  Some (e <| registry := r |>, res).

Definition engine_claim_bundle (key : SubscriberId) (br : BundleRef) (e : QuiverEngine)
    : option (QuiverEngine * result Handle SubscriberError) :=
  '(r, res) ← claim_bundle (HP := store_provider slots) (segment_store e) (registry e) key br;
  Some (e <| registry := r |>, res).

(** ** Reports *)

Record RetentionLossSnapshot := mkLossSnapshot {
  drop_oldest_loss : RetentionLossCounts;
  expired_loss_counts : RetentionLossCounts;
}.

Definition retention_loss_snapshot (e : QuiverEngine) : RetentionLossSnapshot := mkLossSnapshot (force_dropped e) (expired e).

Definition drain_dropped_items_by_shape (e : QuiverEngine) : QuiverEngine * Shapes :=
  (e <| dropped_items_by_shape := ∅ |>, dropped_items_by_shape e).

Definition drain_expired_items_by_shape (e : QuiverEngine) : QuiverEngine * Shapes :=
  (e <| expired_items_by_shape := ∅ |>, expired_items_by_shape e).

(** ** Replay *)

(** [ReplayBundle::from_wal_entry]: the bundle of an entry whose payloads can be
    decoded.  Slots are found by their first occurrence. *)
Definition from_wal_entry (entry : WalFormat.WalRecordBundle) : option RecordBundle :=
  decoded ← mapM (λ s, b ← stream_decode (WalFormat.payload s);
                       Some (WalFormat.slot_id s, WalFormat.mkPayload (WalFormat.schema_fingerprint s) b))
              (WalFormat.slots entry);
  Some (mkRecordBundle
          (WalFormat.mkBundle decoded.*1 (Z.max 0 (WalFormat.ingestion_ts_nanos entry))
             (λ slot, snd <$> List.find (λ p, p.1 =? slot) decoded))
          0 false None).

Definition set_item_count (n : Z) (b : RecordBundle) : RecordBundle := mkRecordBundle (bundle b) n true (byte_count b).

Definition set_byte_count (n : Z) (b : RecordBundle) : RecordBundle :=
  mkRecordBundle (bundle b) (bundle_items b) (item_count_is_known b) (Some n).

(** The counters that the caller passes, the order of the directory, the clock
    when the replay begins, and for each entry the clocks and I/O outcomes. *)
Record replay_io := mkReplayIo {
  item_counter : option (RecordBundle → option Z);
  byte_counter : option (RecordBundle → option Z);
  wal_names : list string;
  replay_now : Z;
  entry_now : nat → Z;
  entry_check : nat → Z;
  entry_finalize : nat → finalize_io;
  replay_cursor : cursor_io;
}.

(** Accounting for an entry that has expired. *)
Definition count_expired (io : replay_io) (entry : WalFormat.WalRecordBundle) (e : QuiverEngine) : QuiverEngine :=
  match from_wal_entry entry with
  | None => e
  | Some b =>
      let e := match item_counter io ≫= λ count, count b with
               | Some n =>
                   let e := e <| expired ::= λ t, t <| loss_items ::= λ k, wrapping_add 64 k n |> |> in
                   if 0 <? n
                   then e <| expired_items_by_shape ::= add_shape (WalFormat.slot_id <$> WalFormat.slots entry) n |>
                   else e
               | None => e
               end in
      match byte_counter io ≫= λ count, count b with
      | Some n => e <| expired ::= λ t, t <| loss_bytes ::= λ k, wrapping_add 64 k n |> |>
      | None => e
      end
  end.

Definition with_counts (io : replay_io) (b : RecordBundle) : RecordBundle :=
  let b := from_option (λ n, set_item_count n b) b (item_counter io ≫= λ count, count b) in
  from_option (λ n, set_byte_count n b) b (byte_counter io ≫= λ count, count b).

(** The loop over the entries: the number of entries read so far, replayed and
    expired. *)
Fixpoint replay_entries (fuel : nat) (io : replay_io) (cutoff : option Z) (it : MultiFileWalIter) (i : nat)
    (replayed skipped : Z) (e : QuiverEngine)
    : option (QuiverEngine * result (Z * Z) QuiverError) :=
  match fuel with
  | O => None
  | S fuel =>
      match multi_next crc32 (wal_dir e) it with
      | (_, None) | (_, Some (Err _)) => Some (e, Ok (replayed, skipped))
      | (it, Some (Ok entry)) =>
          let cursor := cursor_after entry in
          if from_option (λ c, Z.max 0 (WalFormat.ingestion_ts_nanos entry) <? c) false cutoff
          then
            let e := match item_counter io, byte_counter io with
                     | None, None => e
                     | _, _ => count_expired io entry e
                     end in
            replay_entries fuel io cutoff it (S i) replayed (skipped + 1) (e <| segment_cursor := cursor |>)
          else
            match from_wal_entry entry with
            | None => replay_entries fuel io cutoff it (S i) replayed skipped (e <| segment_cursor := cursor |>)
            | Some b =>
                '(e, r) ← append_to_segment_and_maybe_finalize (entry_now io i) (entry_check io i)
                                    (entry_finalize io i) (with_counts io b) (Some cursor) e;
                match r with
                | Err err => Some (e, Err err)
                | Ok _ => replay_entries fuel io cutoff it (S i) (replayed + 1) skipped e
                end
            end
      end
  end.

(** Where the replay starts: the position of the sidecar, if it can be read. *)
Definition sidecar_position (dir : Dir) : Z :=
  match dir !! WalFormat.CURSOR_SIDECAR_FILENAME with
  | None => 0
  | Some data => match WalFormat.sidecar_decode crc32 data with Ok pos => pos | Err _ => 0 end
  end.

(** Every entry takes at least a byte. *)
Definition replay_fuel (dir : Dir) : nat := S (map_fold (λ _ content n, length content + n)%nat 0%nat dir).

Definition replay_wal (io : replay_io) (e : QuiverEngine)
    : option (QuiverEngine * result Z QuiverError) :=
  match multi_open (wal_dir e) (wal_names io) with
  | Err _ => Some (e, Ok 0)
  | Ok wal_files =>
      let position := Z.min (sidecar_position (wal_dir e)) (wal_end_position wal_files) in
      let cutoff := (λ age, if age <=? replay_now io then replay_now io - age else 0) <$> max_age (config e) in
      '(e, r) ← replay_entries (replay_fuel (wal_dir e)) io cutoff (multi_iter_from wal_files position) 0 0 0 e;
      match r with
      | Err err => Some (e, Err err)
      | Ok (replayed, skipped) =>
          if 0 <? skipped then
            let e := e <| expired ::= λ t, t <| loss_bundles ::= λ n, wrapping_add 64 n skipped |> |> in
            if replayed =? 0 then
              match with_wal (persist_cursor crc32 (replay_cursor io) (segment_cursor e)) e with
              | (e, Ok _) => Some (e, Ok replayed)
              | (e, Err err) => Some (e, Err (WalFailed err))
              end
            else Some (e, Ok replayed)
          else Some (e, Ok replayed)
      end
  end.

(** ** Opening *)

(** The names in the directory of the log; the segment files as the scan sees
    them, if the directory can be read; the directory of progress files; clocks
    and outcomes of deletions. *)
Record open_io := mkOpenIo {
  open_names : list string;
  scan_entries : option (list DirEntry);
  scan_now : Z;
  progress_files : option Dir;
  progress_names : list string;
  expire_rm : Z → RemoveResult;
  expire_now : Z;
}.

(** The number of the next segment: after the highest file and after every
    segment that a progress file names.  The first addition is unchecked in the
    code: it wraps around in a release build. *)
Definition first_segment_seq (highest : option Z) (r : Registry) : Z :=
  let seq := from_option (λ h, wrapping_add 64 h 1) 0 highest in
  from_option (λ h, Z.max seq (saturating_add u64_max h 1)) seq (highest_progress_segment r).

(** [b]: the budget before the log and the segments are counted. *)
Definition open_engine (cfg : EngineConfig) (o : WalWriterOptions) (b : DiskBudget) (io : open_io) (rio : replay_io)
    (dir : Dir) (segment_files : gmap Z (list Z))
    : option (Dir * result QuiverEngine QuiverError) :=
  match WalWriter.open crc32 o (Some b) (open_names io) dir with
  | (dir, Err err) => Some (dir, Err (WalFailed err))
  | (dir, Ok w) =>
      '((st, b), scan) ←
        match scan_entries io with
        | None => Some ((mkStore segment_files ∅ ∅, budget w), mkScanResult [] [] None)
        | Some l =>
            match scan_existing_with_max_age crc32 (scan_now io) (max_age cfg) l (mkStore segment_files ∅ ∅, budget w) with
            | Return r => Some r
            | _ => None
            end
        end;
      restored ← Registry.open crc32 (HP := store_provider slots) (progress_files io) (progress_names io) st;
      match restored with
      | Err _ => Some (dir, Err (SegmentFailed (Io OtherIo)))
      | Ok r =>
          r ← match deleted scan with
              | [] => Some r
              | l => fst <$> force_complete_segments_with_unresolved r (order r) l.*1
              end;
          let startup := mkLoss (zlen (deleted scan)) 0 0 0 (foldr (λ x n, x.2 + n) 0 (deleted scan)) in
          let e := mkQuiverEngine cfg (mkMetrics 0 0) (w <| budget := b |>) dir open_new cursor_default
                     (first_segment_seq (highest_seen scan) r) 0 0 no_losses ∅ startup ∅ ∅ st r in
          '(e, _) ← cleanup_expired_segments (expire_rm io) (expire_now io) e;
          '(e, replayed) ← replay_wal rio e;
          match replayed with
          | Ok _ => Some (wal_dir e, Ok e)
          | Err err => Some (wal_dir e, Err err)
          end
      end
  end.

End engine.
End Engine.
