(* ===== verification/EngineRetention.v ===== *)
(** * Retention in the engine

    Clean-up of completed segments, forced drops and expiry change the store, the
    registry and the counters of the engine, and nothing else; every loop returns;
    and a segment that some subscriber still needs afterwards is still there. *)
From S2P Require Import Prelude Bytes Files BTreeMap SubscriberTypes Progress SubscriberState Registry RegistryRuns.
From S2P Require Import WalFormat WalReader Budget WalWriter.
From S2P Require Import Arrow SegmentTypes Dictionaries OpenSegment SegmentFile SegmentStore EngineRegistry Engine.

Local Open Scope Z_scope.

Module EngineRetention.
Import SubscriberTypes.
Import Registry.
Import WalWriter.
Import Budget.
Import SegmentStore.
Import EngineRegistry.
Import Engine.

Section retention.
Context {HA : Arrow.Arrow} (slots : SegmentTypes.ManifestEntry → list (Z * SegmentTypes.SlotChunkRef)).
Context (order : Registry → list SubscriberId) (order_keys : ∀ r, key_order r (order r)).

(** Registered segments have files, which are not about to be deleted. *)
Definition store_wf (st : SegmentStore) : Prop :=
  ∀ seq, is_Some (segments st !! seq) → is_Some (files st !! seq) ∧ pending_deletes st !! seq = None.

(** What retention does to an engine. *)
Record retains (e e' : QuiverEngine) : Prop := {
  ret_config : config e' = config e;
  ret_writer : ∃ b, wal_writer e' = (wal_writer e) <| budget := b |>;
  ret_dir : wal_dir e' = wal_dir e;
  ret_open : open_segment e' = open_segment e;
  ret_cursor : segment_cursor e' = segment_cursor e;
  ret_next : next_segment_seq e' = next_segment_seq e;
  ret_segments : segments (segment_store e') ⊆ segments (segment_store e);
  ret_files : files (segment_store e') ⊆ files (segment_store e);
  ret_pending seq : is_Some (pending_deletes (segment_store e') !! seq) →
    is_Some (pending_deletes (segment_store e) !! seq) ∨ is_Some (files (segment_store e) !! seq);
  ret_store : store_wf (segment_store e) → store_wf (segment_store e');
  ret_reg : reg_ok (registry e) →
    reg_ok (registry e') ∧ ∀ counts, reg_subsumed counts (registry e) (registry e');
  ret_spares : reg_ok (registry e) → ∀ seq, needed (registry e') seq →
    is_Some (segments (segment_store e) !! seq) → is_Some (segments (segment_store e') !! seq);
}.

#[global] Instance retains_preorder : PreOrder retains.
Proof.
  split.
  - intros e. split; try done; [|by left]. exists (budget (wal_writer e)). by destruct (wal_writer e).
  - intros e1 e2 e3 [C1 [b1 W1] D1 O1 S1 N1 G1 F1 Q1 T1 R1 P1] [C2 [b2 W2] D2 O2 S2 N2 G2 F2 Q2 T2 R2 P2].
    split; try congruence.
    + exists b2. rewrite W2, W1. by destruct (wal_writer e1).
    + transitivity (segments (segment_store e2)); done.
    + transitivity (files (segment_store e2)); done.
    + intros seq [Hq|[x Hf]]%Q2; [by apply Q1|]. right. exists x. by eapply lookup_weaken.
    + auto.
    + intros Hr. destruct (R1 Hr) as [Hr2 Hs1]. destruct (R2 Hr2) as [Hr3 Hs2]. split; [done|].
      intros counts. etrans; [apply Hs1|apply Hs2].
    + intros Hr seq Hn Hs. destruct (R1 Hr) as [Hr2 _]. destruct (R2 Hr2) as [_ Hs2]. apply P2; [done..|]. apply P1; [done| |done].
      destruct (reg_subsumed_needed _ _ _ seq (Hs2 (λ _, None)) Hn) as [|[]]; done.
Qed.

(** Counters do not matter. *)
Lemma retains_options e e' : retains e e' → options (wal_writer e') = options (wal_writer e).
Proof. intros Hr. destruct (ret_writer _ _ Hr) as [b ->]. by destruct (wal_writer e). Qed.

Lemma retains_same e e' :
  config e' = config e → wal_writer e' = wal_writer e → wal_dir e' = wal_dir e → open_segment e' = open_segment e →
  segment_cursor e' = segment_cursor e → next_segment_seq e' = next_segment_seq e → segment_store e' = segment_store e →
  registry e' = registry e → retains e e'.
Proof.
  intros HC HW HD HO HS HN HT HR. split; rewrite ?HT, ?HR; try done; [|by left].
  exists (budget (wal_writer e)). rewrite HW. by destruct (wal_writer e).
Qed.

Lemma retains_registry e r :
  (reg_ok (registry e) → reg_ok r ∧ ∀ counts, reg_subsumed counts (registry e) r) → retains e (e <| registry := r |>).
Proof.
  intros Hr. destruct e as [? ? w]. split; try done; [|by left]. exists (budget w). by destruct w.
Qed.

(** ** Deletions *)

Lemma delete_segment_segments rm now seq s : segments (delete_segment rm now seq s).1.1 = delete seq (segments s.1).
Proof.
  destruct s as [st b]. unfold delete_segment. cbn [files set_segments]. by destruct (files st !! seq), rm.
Qed.

Lemma delete_segment_files rm now seq s : files (delete_segment rm now seq s).1.1 ⊆ files s.1.
Proof.
  destruct s as [st b]. unfold delete_segment. cbn [files set_segments].
  destruct (files st !! seq), rm; cbn; try done; apply delete_subseteq.
Qed.

Lemma delete_segment_pending rm now seq s q :
  is_Some (pending_deletes (delete_segment rm now seq s).1.1 !! q) → is_Some (pending_deletes s.1 !! q) ∨ is_Some (files s.1 !! q).
Proof.
  destruct s as [st b]. unfold delete_segment. cbn [files set_segments fst].
  destruct (files st !! seq) as [x|] eqn:Hf, rm; cbn; auto.
  destruct (decide (q = seq)) as [->|Hne]; [rewrite Hf; eauto|].
  destruct (pending_deletes st !! seq); rewrite lookup_insert_ne by done; auto.
Qed.

Lemma delete_segment_wf rm now seq s : store_wf s.1 → store_wf (delete_segment rm now seq s).1.1.
Proof.
  intros Hwf q. rewrite delete_segment_segments. intros [h [Hne Hh]%lookup_delete_Some]. destruct (Hwf q) as [Hf Hp]; [by exists h|].
  destruct s as [st b]. unfold delete_segment. cbn [files set_segments fst] in *.
  assert (delete seq (files st) !! q = files st !! q) as Hd by (by apply lookup_delete_ne).
  destruct (files st !! seq), rm; cbn; rewrite ?Hd; try done. split; [done|].
  destruct (pending_deletes st !! seq); by rewrite lookup_insert_ne.
Qed.

Lemma with_store_retains {A} (f : SegmentStore * option DiskBudget → (SegmentStore * option DiskBudget) * A) e :
  let s := (f (segment_store e, engine_budget e)).1 in
  segments s.1 ⊆ segments (segment_store e) → files s.1 ⊆ files (segment_store e) →
  (∀ seq, is_Some (pending_deletes s.1 !! seq) →
    is_Some (pending_deletes (segment_store e) !! seq) ∨ is_Some (files (segment_store e) !! seq)) →
  (store_wf (segment_store e) → store_wf s.1) →
  (∀ seq, needed (registry e) seq → is_Some (segments (segment_store e) !! seq) → is_Some (segments s.1 !! seq)) →
  retains e (with_store f e).1.
Proof.
  intros s Hs Hf Hpd Hwf Hn. unfold with_store. subst s. destruct (f _) as [[st b] a]. destruct e. cbn in *.
  split; try done. by exists b.
Qed.

Lemma delete_retains rm now seq e : ¬ needed (registry e) seq → retains e (with_store (delete_segment rm now seq) e).1.
Proof.
  intros Hn. apply with_store_retains.
  - rewrite delete_segment_segments. apply delete_subseteq.
  - apply delete_segment_files.
  - apply (delete_segment_pending rm now seq (segment_store e, engine_budget e)).
  - apply (delete_segment_wf rm now seq (segment_store e, engine_budget e)).
  - intros q Hq [h Hh]. rewrite delete_segment_segments, lookup_delete_ne; [by exists h|]. by intros ->.
Qed.

Lemma with_store_registry {A} (f : SegmentStore * option DiskBudget → (SegmentStore * option DiskBudget) * A) e :
  registry (with_store f e).1 = registry e.
Proof. unfold with_store. destruct (f _) as [[st b] a]. by destruct e. Qed.

Lemma delete_each_retains rm now l e :
  (∀ seq, seq ∈ l → ¬ needed (registry e) seq) →
  retains e (delete_each rm now l e) ∧ registry (delete_each rm now l e) = registry e.
Proof.
  revert e. induction l as [|seq l IH]; intros e Hl; cbn [delete_each]; [done|].
  destruct (IH (with_store (delete_segment (rm seq) now seq) e).1) as [Hr Heq].
  { intros q Hq. rewrite with_store_registry. apply Hl. by right. }
  split; [|by rewrite Heq, with_store_registry]. etrans; [|exact Hr]. apply delete_retains, Hl. by left.
Qed.

Lemma reclaim_retains reason rm now seq e :
  ¬ needed (registry e) seq →
  retains e (reclaim reason rm now seq e).1 ∧ registry (reclaim reason rm now seq e).1 = registry e.
Proof.
  intros Hn. unfold reclaim. pose proof (delete_retains rm now seq e Hn) as Hd.
  pose proof (with_store_registry (delete_segment rm now seq) e) as Heq.
  destruct (with_store (delete_segment rm now seq) e) as [e1 [size|]]; cbn [fst] in *; [done|].
  split; [|by destruct e1]. etrans; [exact Hd|]. by destruct e1; apply retains_same.
Qed.

(** ** Completed segments *)

Lemma cleanup_completed_needed store fails r r' deleted :
  reg_ok r → cleanup_completed_segments store fails r = (r', deleted) →
  reg_ok r' ∧ (∀ counts, reg_subsumed counts r r') ∧ ∀ seq, seq ∈ deleted → ¬ needed r seq.
Proof.
  intros Hr Hc. destruct (cleanup_completed_spec _ _ _ _ _ Hr Hc) as [[[before ->]| ->] Hdel].
  - split_and!; [by apply cleanup_reg_ok|intros; by apply cleanup_reg_subsumed|]. intros. by apply Hdel.
  - split_and!; [done..|]. intros. by apply Hdel.
Qed.

Lemma engine_cleanup_retains rm now e : reg_ok (registry e) → retains e (engine_cleanup_completed rm now e).1.
Proof.
  intros Hr. unfold engine_cleanup_completed.
  destruct (cleanup_completed_segments _ _ (registry e)) as [r deleted] eqn:Hc.
  destruct (cleanup_completed_needed _ _ _ _ _ Hr Hc) as (Hr' & Hsub & Hdel). cbn [fst].
  destruct (delete_each_retains rm now deleted e Hdel) as [Hret Heq]. etrans; [exact Hret|].
  apply retains_registry. rewrite Heq. auto.
Qed.

(** ** Forced drops *)

Lemma forget_through_retains l e : retains e (e <| registry ::= forget_through l |>).
Proof.
  destruct l as [|seq l].
  - destruct e. by apply retains_same.
  - pose proof (retains_registry e (forget_through (seq :: l) (registry e))) as H. destruct e. apply H.
    cbn. intros Hr. split; [by apply cleanup_reg_ok|]. intros. by apply cleanup_reg_subsumed.
Qed.

Lemma drop_each_total rm now l u e counts m bytes :
  (∀ seq, seq ∈ l → ¬ needed (registry e) seq ∧ is_Some (BTreeMap.get seq u)) →
  ∃ e' counts' m' bytes', drop_each slots rm now l u e counts m bytes = Some (e', counts', m', bytes') ∧
    retains e e' ∧ registry e' = registry e.
Proof.
  revert e counts m bytes. induction l as [|seq l IH]; intros e counts m bytes Hl; cbn [drop_each]; [by do 4 eexists|].
  destruct (Hl seq) as [Hn [lost ->]]; [by left|]. cbn [mbind option_bind].
  destruct (dropped_loss _ _ _ _ _ _ _) as [[items m1] bytes1].
  destruct (reclaim_retains ReclaimedDropOldest (rm seq) now seq e Hn) as [Hret Heq].
  destruct (reclaim _ _ _ _ e) as [e1 deletion]. cbn [fst] in *.
  match goal with |- context [drop_each slots rm now l u e1 ?c m1 bytes1] =>
    destruct (IH e1 c m1 bytes1) as (e2 & c2 & m2 & b2 & -> & Hret2 & Heq2) end.
  { intros q Hq. rewrite Heq. apply Hl. by right. }
  do 4 eexists. split; [done|]. split; [by etrans|congruence].
Qed.

(** One round drops nothing, or a segment that was needed and is not any more. *)
Lemma force_drop_total rm now e :
  reg_ok (registry e) →
  ∃ e' n, force_drop_oldest_pending_segments slots order rm now e = Some (e', n) ∧ retains e e' ∧
    (n = 0 ∨ ∃ q, needed (registry e) q ∧ ¬ needed (registry e') q).
Proof.
  intros Hr. unfold force_drop_oldest_pending_segments.
  destruct (force_drop_progress (λ _, None) (registry e) (order (registry e)) Hr (order_keys _))
    as (r & dropped & u & Hf & Hr' & _ & Hd).
  assert (retains e (e <| registry := r |>)) as Hret.
  { apply retains_registry. intros _. split; [done|]. intros counts.
    destruct (force_drop_progress counts (registry e) (order (registry e)) Hr (order_keys _)) as (r2 & d2 & u2 & Hf2 & _ & Hs & _).
    rewrite Hf in Hf2. by injection Hf2 as <- <- <-. }
  rewrite Hf. cbn [mbind option_bind]. assert (registry (e <| registry := r |>) = r) as Hreg by (by destruct e).
  destruct dropped as [|q rest]; [do 2 eexists; split; [done|]; split; [done|by left]|].
  destruct Hd as (-> & Hq & Hnq & Hu).
  destruct (drop_each_total rm now [q] u (e <| registry := r |>) no_losses (dropped_items_by_shape (e <| registry := r |>)) (Some 0))
    as (e1 & counts & m & bytes & -> & Hret1 & Heq1).
  { intros q' ->%list_elem_of_singleton. by rewrite Hreg. }
  cbn [mbind option_bind]. do 2 eexists. split; [done|].
  set (e2 := e1 <| dropped_items_by_shape := m |> <| force_dropped ::= λ t, add_losses t counts bytes |>).
  assert (retains e1 e2) as Hret2 by (by destruct e1; apply retains_same).
  assert (registry e2 = r) as Heq2 by (rewrite <-Hreg, <-Heq1; by destruct e1).
  pose proof (forget_through_retains [q] e2) as Hret3. split.
  - etrans; [exact Hret|]. etrans; [exact Hret1|]. etrans; [exact Hret2|]. exact Hret3.
  - right. exists q. split; [done|]. intros Hn. destruct (ret_reg _ _ Hret3) as [_ Hsub]; [by rewrite Heq2|].
    destruct (reg_subsumed_needed _ _ _ q (Hsub (λ _, None)) Hn) as [Hn2|[]]; [|done]. by rewrite Heq2 in Hn2.
Qed.

Lemma drop_until_room_total rm now fuel X e :
  reg_ok (registry e) → (∀ q, needed (registry e) q → q ∈ X) → (size (X : gset Z) < fuel)%nat →
  ∃ e', drop_until_room slots order fuel rm now e = Some e' ∧ retains e e'.
Proof.
  revert X e. induction fuel as [|fuel IH]; intros X e Hr HX Hsize; [lia|]. cbn [drop_until_room].
  destruct (over_soft_cap e); [|by exists e]. destruct (force_drop_total rm now e Hr) as (e1 & n & -> & Hret & Hn).
  cbn [mbind option_bind]. destruct (Z.eqb_spec n 0) as [|Hne]; [by exists e1|]. destruct Hn as [|(q & Hq & Hnq)]; [done|].
  destruct (ret_reg _ _ Hret Hr) as [Hr1 Hsub]. destruct (IH (X ∖ {[q]}) e1) as (e2 & Hd & Hret2); [done|..].
  - intros q' Hq'. apply elem_of_difference. split; [|intros ->%elem_of_singleton; done].
    apply HX. destruct (reg_subsumed_needed _ _ _ q' (Hsub (λ _, None)) Hq') as [|[]]; done.
  - assert (size (X ∖ {[q]}) < size X)%nat; [|lia]. apply subset_size. specialize (HX q Hq). set_solver.
  - exists e2. split; [done|]. by etrans.
Qed.

(** All the segments that the subscribers track. *)
Definition tracked_segments (r : Registry) : gset Z :=
  list_to_set (concat ((λ x, (SubscriberState.segments x.2).*1) <$> map_to_list (subscribers r))).

Lemma size_list_to_set_le (l : list Z) : (size (list_to_set l : gset Z) ≤ length l)%nat.
Proof.
  induction l as [|x l IH]; [done|]. rewrite list_to_set_cons. cbn [length]. rewrite size_union_alt, size_singleton.
  assert (size (list_to_set l ∖ {[x]} : gset Z) ≤ size (list_to_set l : gset Z))%nat; [|lia]. apply subseteq_size. set_solver.
Qed.

Lemma tracked_segments_fuel r : (size (tracked_segments r) < drop_fuel r)%nat.
Proof.
  unfold tracked_segments, drop_fuel. rewrite map_fold_foldr.
  pose proof (size_list_to_set_le (concat ((λ x, (SubscriberState.segments x.2).*1) <$> map_to_list (subscribers r)))) as Hle.
  assert (length (concat ((λ x, (SubscriberState.segments x.2).*1) <$> map_to_list (subscribers r))) =
    foldr (uncurry (λ _ s n, (length (SubscriberState.segments s) + n)%nat)) 0%nat (map_to_list (subscribers r))) as Heq; [|lia].
  clear Hle. induction (map_to_list (subscribers r)) as [|[key s] l IH]; [done|].
  rewrite fmap_cons. cbn [concat foldr uncurry snd]. by rewrite length_app, length_fmap, IH.
Qed.

Lemma needed_tracked r seq : reg_ok r → needed r seq → seq ∈ tracked_segments r.
Proof.
  intros Hr (key & s & Hs & Hp). destruct (reg_states r Hr key s Hs) as [Hsok _].
  apply SubscriberState.pending_in_get in Hp as (p & Hp & _); [|done]. unfold tracked_segments.
  apply elem_of_list_to_set, list_elem_of_In, in_concat. exists (SubscriberState.segments s).*1. split.
  - apply list_elem_of_In, list_elem_of_fmap. exists (key, s). split; [done|]. by apply elem_of_map_to_list.
  - apply list_elem_of_In, list_elem_of_fmap. exists (seq, p). split; [done|]. by apply BTreeMap.get_elem.
Qed.

Lemma make_room_total io e :
  reg_ok (registry e) → ∃ e' r, make_room slots order io e = Some (e', r) ∧ retains e e'.
Proof.
  intros Hr. unfold make_room. destruct (over_soft_cap e); [|by do 2 eexists].
  pose proof (engine_cleanup_retains (reclaim_rm io) (reclaim_now io) e Hr) as Hret.
  set (e1 := (engine_cleanup_completed (reclaim_rm io) (reclaim_now io) e).1) in *. destruct (ret_reg _ _ Hret Hr) as [Hr1 _].
  destruct (over_soft_cap e1); [|by do 2 eexists].
  assert (∃ e2, match policy <$> engine_budget e1 with
    | Some DropOldest => drop_until_room slots order (drop_fuel (registry e1)) (reclaim_rm io) (reclaim_now io) e1
    | _ => Some e1 end = Some e2 ∧ retains e1 e2) as (e2 & -> & Hret2).
  { destruct (policy <$> engine_budget e1) as [[]|]; [by exists e1| |by exists e1].
    apply (drop_until_room_total _ _ _ (tracked_segments (registry e1))); [done| |apply tracked_segments_fuel].
    intros q. by apply needed_tracked. }
  cbn [mbind option_bind]. destruct (over_soft_cap e2); do 2 eexists; (split; [done|by etrans]).
Qed.

(** ** Expiry *)

Lemma expire_each_retains rm now l u e counts m bytes :
  (∀ seq, seq ∈ l → ¬ needed (registry e) seq) →
  let e' := (expire_each slots rm now l u e counts m bytes).1.1.1 in retains e e' ∧ registry e' = registry e.
Proof.
  revert e counts m bytes. induction l as [|seq l IH]; intros e counts m bytes Hl; cbn [expire_each]; [done|].
  destruct (expired_loss _ _ _ _ _ _ _) as [[c1 m1] b1].
  destruct (reclaim_retains ReclaimedExpired (rm seq) now seq e) as [Hret Heq]; [apply Hl; by left|].
  destruct (reclaim _ _ _ _ e) as [e1 deletion]. cbn [fst] in *.
  match goal with |- context [expire_each slots rm now l u e1 ?c m1 b1] => destruct (IH e1 c m1 b1) as [Hret2 Heq2] end.
  { intros q Hq. rewrite Heq. apply Hl. by right. }
  split; [by etrans|]. by rewrite Heq2.
Qed.

Lemma older_u64 now age st : bounded st → Forall u64_ok (segments_older_than now age st).
Proof.
  intros Hb. unfold segments_older_than. destruct (now <? age); [constructor|]. apply Forall_forall.
  intros seq Hin. apply list_elem_of_In, filter_In in Hin as [_ Hh].
  destruct (segments st !! seq) as [h|] eqn:E; [|done]. by apply (Hb seq h).
Qed.

Lemma cleanup_expired_total rm now e :
  reg_ok (registry e) → bounded (segment_store e) →
  ∃ e' n, cleanup_expired_segments slots order rm now e = Some (e', n) ∧ retains e e'.
Proof.
  intros Hr Hb. unfold cleanup_expired_segments. destruct (max_age (config e)) as [age|]; [|by do 2 eexists].
  pose proof (older_u64 now age _ Hb) as Hold. destruct (segments_older_than now age (segment_store e)) as [|q old]; [by do 2 eexists|].
  destruct (force_complete_total (λ _, None) (registry e) (order (registry e)) (q :: old) Hr (order_keys _) Hold)
    as (r & u & Hf & Hr' & _ & Hdone). rewrite Hf. cbn [mbind option_bind].
  assert (retains e (e <| registry := r |>)) as Hret.
  { apply retains_registry. intros _. split; [done|]. intros counts.
    destruct (force_complete_total counts (registry e) (order (registry e)) (q :: old) Hr (order_keys _) Hold) as (r2 & u2 & Hf2 & _ & Hs & _).
    rewrite Hf in Hf2. by injection Hf2 as <- <-. }
  assert (registry (e <| registry := r |>) = r) as Hreg by (by destruct e).
  pose proof (expire_each_retains rm now (q :: old) u (e <| registry := r |>) no_losses (expired_items_by_shape e) (Some 0)) as Hex.
  rewrite Hreg in Hex. specialize (Hex Hdone).
  destruct (expire_each _ _ _ _ _ _ _ _ _) as [[[e1 counts] m] bytes]. cbn [fst] in Hex. destruct Hex as [Hret1 _].
  do 2 eexists. split; [done|]. etrans; [exact Hret|]. etrans; [exact Hret1|].
  etrans; [|apply forget_through_retains]. by destruct e1; apply retains_same.
Qed.

(** ** Maintenance *)

Lemma retry_one_segments rm now s seq p :
  segments (retry_one rm now s seq p).1.1 = segments s.1 ∧ files (retry_one rm now s seq p).1.1 ⊆ files s.1 ∧
  dom (pending_deletes (retry_one rm now s seq p).1.1) ⊆ dom (pending_deletes s.1).
Proof.
  destruct s as [st b]. unfold retry_one.
  destruct (files st !! seq), (rm seq); cbn; rewrite ?dom_delete_L, ?dom_alter_L; (split; [done|]);
    (split; [try done; apply delete_subseteq|set_solver]).
Qed.

Lemma retry_each_segments rm now l s :
  segments (retry_each rm now l s).1.1 = segments s.1 ∧ files (retry_each rm now l s).1.1 ⊆ files s.1 ∧
  dom (pending_deletes (retry_each rm now l s).1.1) ⊆ dom (pending_deletes s.1).
Proof.
  revert s. induction l as [|[seq p] l IH]; intros s; cbn [retry_each]; [done|].
  destruct (retry_one_segments rm now s seq p) as (H1 & H2 & H3). destruct (retry_one rm now s seq p) as [s1 r1].
  destruct (IH s1) as (H4 & H5 & H6). destruct (retry_each rm now l s1) as [s2 r2]. cbn [fst] in *.
  split_and!; [congruence|by etrans..].
Qed.

Lemma evict_each_segments l s :
  segments (evict_each l s).1 = segments s.1 ∧ files (evict_each l s).1 = files s.1 ∧
  dom (pending_deletes (evict_each l s).1) ⊆ dom (pending_deletes s.1).
Proof.
  revert s. induction l as [|[seq n] l IH]; intros s; cbn [evict_each]; [done|]. destruct (IH (set_pending (delete seq) s.1, release (Some n) s.2)) as (-> & -> & Hd).
  split_and!; [done..|]. etrans; [exact Hd|]. cbn. rewrite dom_delete_L. set_solver.
Qed.

Lemma retry_one_wf rm now s seq p :
  segments s.1 !! seq = None → store_wf s.1 → store_wf (retry_one rm now s seq p).1.1.
Proof.
  destruct s as [st b]. cbn [fst]. intros Hn Hwf q Hq. rewrite (proj1 (retry_one_segments _ _ _ _ _)) in Hq. cbn [fst] in Hq.
  assert (q ≠ seq) as Hne by (intros ->; rewrite Hn in Hq; by destruct Hq). destruct (Hwf q Hq) as [Hf Hp].
  unfold retry_one. destruct (files st !! seq), (rm seq); cbn;
    rewrite ?lookup_delete_ne, ?lookup_alter_ne by done; by try done.
Qed.

Lemma retry_each_wf rm now l s :
  Forall (λ x, segments s.1 !! x.1 = None) l → store_wf s.1 → store_wf (retry_each rm now l s).1.1.
Proof.
  revert s. induction l as [|[seq p] l IH]; intros s; cbn [retry_each]; [done|]. intros [Hn Hl]%Forall_cons Hwf.
  pose proof (retry_one_wf rm now s seq p Hn Hwf) as Hwf1. destruct (retry_one_segments rm now s seq p) as (H1 & _).
  destruct (retry_one rm now s seq p) as [s1 r1]. cbn [fst] in *. rewrite <-H1 in Hl. specialize (IH s1 Hl Hwf1).
  by destruct (retry_each rm now l s1) as [s2 r2].
Qed.

Lemma evict_each_wf l s : store_wf s.1 → store_wf (evict_each l s).1.
Proof.
  revert s. induction l as [|[seq n] l IH]; intros s Hwf; cbn [evict_each]; [done|]. apply IH. intros q Hq.
  destruct (Hwf q Hq) as [Hf Hp]. split; [done|]. cbn. rewrite lookup_delete_None. by right.
Qed.

(** Orders of iteration over the pending deletions. *)
Definition pending_order (pending : gmap Z PendingDelete → list (Z * PendingDelete)) : Prop :=
  ∀ m, pending m ≡ₚ map_to_list m.

Lemma retry_wf pending rm now s :
  pending_order pending → store_wf s.1 → store_wf (retry_pending_deletes_with_results pending rm now s).1.1.
Proof.
  intros Ho Hwf. unfold retry_pending_deletes_with_results. case_bool_decide; [done|].
  match goal with |- context [retry_each rm now ?l s] => pose proof (retry_each_wf rm now l s) as Hr end.
  destruct (retry_each rm now _ s) as [s1 r1]. cbn [fst] in *. apply evict_each_wf, Hr; [|done].
  apply Forall_forall. intros [seq p] Hin. apply list_elem_of_In, filter_In in Hin as [Hin _]. apply list_elem_of_In in Hin.
  rewrite (Ho _) in Hin. apply elem_of_map_to_list in Hin. cbn. apply eq_None_not_Some. intros Hs. destruct (Hwf seq Hs). congruence.
Qed.

Lemma retry_segments pending rm now s :
  let s' := (retry_pending_deletes_with_results pending rm now s).1 in
  segments s'.1 = segments s.1 ∧ files s'.1 ⊆ files s.1 ∧ dom (pending_deletes s'.1) ⊆ dom (pending_deletes s.1).
Proof.
  unfold retry_pending_deletes_with_results. case_bool_decide; [done|].
  match goal with |- context [retry_each rm now ?l s] => destruct (retry_each_segments rm now l s) as (H1 & H2 & H3) end.
  destruct (retry_each rm now _ s) as [s1 r1]. cbn [fst] in *.
  match goal with |- context [evict_each ?l s1] => destruct (evict_each_segments l s1) as (-> & -> & H4) end.
  split_and!; [done..|]. by etrans.
Qed.

Lemma retry_retains pending rm now e :
  pending_order pending → retains e (with_store (retry_pending_deletes_with_results pending rm now) e).1.
Proof.
  intros Ho. pose proof (retry_segments pending rm now (segment_store e, engine_budget e)) as (H1 & H2 & H3). cbn [fst] in *.
  apply with_store_retains; cbn zeta.
  - by rewrite H1.
  - done.
  - intros seq Hq. left. apply elem_of_dom. apply H3. by apply elem_of_dom.
  - by apply (retry_wf _ _ _ (segment_store e, engine_budget e)).
  - by rewrite H1.
Qed.

Lemma settle_retains l e : retains e (foldl settle_removed e l).
Proof.
  revert e. induction l as [|[seq n] l IH]; intros e; cbn [foldl]; [done|]. etrans; [|apply IH].
  unfold settle_removed. destruct (pending_reclaimed e !! seq) as [[]|]; by destruct e; apply retains_same.
Qed.

Lemma bounded_subseteq st st' : segments st' ⊆ segments st → bounded st → bounded st'.
Proof. intros Hsub Hb seq h Hh. apply (Hb seq h). by eapply lookup_weaken. Qed.

Lemma flush_progress_subscribers crc32 faults dirty r d :
  subscribers (flush_progress crc32 faults dirty r d).1.1 = subscribers r.
Proof.
  unfold flush_progress. destruct dirty as [|k l]; [by destruct r|].
  rewrite RegistryRuns.flush_all_subscribers. by destruct r.
Qed.

Lemma maintain_total crc32 faults dirty pending rm now e d :
  pending_order pending → reg_ok (registry e) → bounded (segment_store e) →
  ∃ e' d' r, maintain crc32 slots order faults dirty pending rm now e d = Some (e', d', r) ∧ retains e e'.
Proof.
  intros Ho Hr Hb. unfold maintain. pose proof (flush_progress_subscribers crc32 faults dirty (registry e) d) as Hsubs.
  destruct (flush_progress crc32 faults dirty (registry e) d) as [[r1 d1] f]. cbn [fst] in Hsubs.
  assert (retains e (e <| registry := r1 |>)) as Hret1.
  { apply retains_registry. intros _. split; [by eapply reg_ok_subscribers|]. intros. by apply reg_subsumed_same. }
  destruct (ret_reg _ _ Hret1 Hr) as [Hr1 _]. destruct f as [n|err]; [|by do 3 eexists].
  pose proof (engine_cleanup_retains rm now _ Hr1) as Hret2. destruct (engine_cleanup_completed rm now _) as [e2 deleted]. cbn [fst] in *.
  destruct (ret_reg _ _ Hret2 Hr1) as [Hr2 _].
  destruct (cleanup_expired_total rm now e2 Hr2) as (e3 & old & -> & Hret3).
  { eapply bounded_subseteq, Hb. etrans; [apply Hret2|apply Hret1]. }
  cbn [mbind option_bind]. pose proof (retry_retains pending rm now e3 Ho) as Hret4.
  destruct (with_store _ e3) as [e4 results]. cbn [fst] in Hret4. do 3 eexists. split; [done|].
  etrans; [exact Hret1|]. etrans; [exact Hret2|]. etrans; [exact Hret3|]. etrans; [exact Hret4|].
  etrans; [apply (settle_retains (removed results))|]. by destruct (foldl _ _ _); apply retains_same.
Qed.

End retention.
End EngineRetention.
