(* ===== verification/EngineState.v ===== *)
(** * States of the engine

    The invariant that ties the parts of the engine together: the log holds every
    accepted bundle; those that the cursor has not passed and that were not
    rejected are in the open segment; the others are in segment files that the
    store serves; subscribers track only segments with the right counts, and the
    segments they still need are in the store. *)
From S2P Require Import Prelude Bytes Files BTreeMap SubscriberTypes Progress SubscriberState Registry RegistryRuns.
From S2P Require Import WalFormat WalReader Budget WalWriter WalLog WalRuns WalRecovery.
From S2P Require Import Arrow SegmentTypes Dictionaries OpenSegment SegmentFile SegmentRoundtrip SegmentStore.
From S2P Require Import EngineRegistry EngineLog Engine EngineRetention.

Local Open Scope Z_scope.

Module EngineState.
Import SubscriberTypes.
Import Registry.
Import WalWriter.
Import WalRuns.
Import Budget.
Import Arrow.
Import SegmentTypes.
Import OpenSegment.
Import SegmentFile.
Import SegmentRoundtrip.
Import SegmentStore.
Import EngineRegistry.
Import EngineLog.
Import Engine.
Import EngineRetention.

Section state.
Context `{HL : ArrowLaws} (crc32 : list Z → Z) (crc32_ok : ∀ l, u32_ok (crc32 l)).
Context (slots : ManifestEntry → list (Z * SlotChunkRef)) (slots_perm : ∀ e, slots e ≡ₚ map_to_list (slot_refs e)).
Context (stream_encode : RecordBatch → option (list Z)).
(** When a bundle of the open segment is one that the log accepted. *)
Context (logs : WalFormat.RecordBundle RecordBatch → RecordBundle → Prop).

#[local] Hint Extern 0 (WalFormat.RecordBatch _) => exact (batch_encoder stream_encode) : typeclass_instances.

(** ** Segments *)

(** An open segment file from which the bundles are read. *)
Definition handle_serves (h : SegmentHandle) (bs : list RecordBundle) : Prop :=
  bundle_count h = zlen bs ∧
  ∀ i b, bs !! i = Some b →
    ∃ payloads, handle_read_bundle slots h (Z.of_nat i) = Ok (Z.of_nat i, payloads) ∧ same_payloads b payloads.

Definition file_serves (bytes : list Z) (bs : list RecordBundle) : Prop :=
  ∀ modified, ∃ h, handle_open crc32 modified (Some bytes) = Return h ∧ handle_serves h bs.

(** A segment that can be written, to a file below 4 GiB. *)
Definition seg_writable (seg : OpenSegment) : Prop :=
  map_Forall (λ _, stream_writable) (streams seg) ∧
  ∀ accs entries file n crc, into_parts seg = Ok (accs, entries) →
    write_streaming crc32 slots accs entries = Return (file, n, crc) → zlen file < 2 ^ 32.

Definition segment_fine (io : segment_io) : Prop :=
  create_ok io = true ∧ segment_written io = None ∧ sync_ok io = true.

Lemma write_segment_fine io seq seg bs st :
  seg_holds seg bs → bs ≠ [] → seg_writable seg → segment_fine io →
  ∃ file n crc, write_segment crc32 slots io seq seg st = (set_files <[seq := file]> st, Ok (n, crc)) ∧ file_serves file bs.
Proof.
  intros Hh Hne [Hw Hsize] (Hc & Hn & Hs).
  destruct (written_reads_back crc32 slots crc32_ok slots_perm seg bs Hh Hne Hw) as (accs & entries & file & crc & Hparts & Hwrite & Hread).
  destruct (Hread (Hsize _ _ _ _ _ Hparts Hwrite)) as (r & Hr & Hlen & Hb).
  exists file, (zlen file), crc. unfold write_segment. rewrite Hparts, Hc, Hwrite, Hn, Hs. split; [done|].
  intros modified. unfold handle_open. cbn [of_option outcome_bind]. rewrite Hr. cbn [outcome_bind].
  eexists. split; [done|]. pose proof (seg_bundles _ (holds_ok _ _ Hh)) as Hmax. unfold MAX_BUNDLES_PER_SEGMENT in Hmax.
  pose proof (holds_length _ _ Hh) as Hl. split.
  - cbn. unfold zlen in *. rewrite Hlen, <-Hl. apply Z.mod_small. lia.
  - intros i b Hi. destruct (Hb r i b) as (e & r'' & payloads & He & Hrd & Hp & _); [done..|].
    exists payloads. unfold handle_read_bundle. cbn [reader]. rewrite Nat2Z.id, He, Hrd. done.
Qed.

Lemma handle_serves_u32 h bs : handle_serves h bs → zlen bs < 2 ^ 32 → u32_ok (bundle_count h).
Proof. intros [-> _] Hlt. pose proof (zlen_nonneg bs). unfold u32_ok. lia. Qed.

(** ** The invariant *)

(** [acks]: the bundles accepted by the log; [k]: how many of them the cursor has
    passed; [k2]: how many the open segment takes into account; [parts]: the
    bundles of the finalized segments; [live]: those of the open segment; [seen]:
    all the bundles that were offered. *)
Record engine_ok (e : QuiverEngine) (acks : list (WalFormat.WalOffset * WalFormat.RecordBundle RecordBatch)) (k k2 : nat)
    (parts : list (Z * list RecordBundle)) (live seen : list RecordBundle) : Prop := {
  ok_log : log_ready crc32 (wal_writer e, wal_dir e) acks k;
  ok_range : (k ≤ k2 ≤ length acks)%nat;
  ok_cursor : live ≠ [] → (k < k2)%nat ∧ segment_cursor e = mkCursor (end_position (take k2 acks)) (Z.of_nat k2 - 1);
  ok_logged : ∃ l, l `sublist_of` (drop k (take k2 acks)).*2 ∧ Forall2 logs l live;
  ok_open : ∃ l, append_all open_new l = (open_segment e, live) ∧ l.*2 `sublist_of` seen;
  ok_numbers : StronglySorted Z.lt (parts.*1 ++ [next_segment_seq e]);
  ok_first : Forall (λ q, 0 ≤ q) (parts.*1 ++ [next_segment_seq e]);
  ok_served seq h : segments (segment_store e) !! seq = Some h → ∃ bs, (seq, bs) ∈ parts ∧ handle_serves h bs;
  ok_stored seq bytes : files (segment_store e) !! seq = Some bytes → ∃ bs, (seq, bs) ∈ parts ∧ file_serves bytes bs;
  ok_pending seq : is_Some (pending_deletes (segment_store e) !! seq) → seq < next_segment_seq e;
  ok_present : store_wf (segment_store e);
  ok_sizes : Forall (λ p, zlen p.2 < 2 ^ 32) parts;
  ok_registry : reg_ok (registry e);
  ok_counts : counts_known (λ seq n, ∃ bs, (seq, bs) ∈ parts ∧ n = zlen bs) (registry e);
  ok_needed seq : needed (registry e) seq → is_Some (segments (segment_store e) !! seq);
}.

(** The bundles that the engine keeps. *)
Definition contents (parts : list (Z * list RecordBundle)) (live : list RecordBundle) : list RecordBundle :=
  concat parts.*2 ++ live.

Lemma ok_segment e acks k k2 parts live seen :
  engine_ok e acks k k2 parts live seen → seg_holds (open_segment e) live.
Proof.
  intros Hok. destruct (ok_open _ _ _ _ _ _ _ Hok) as (l & Hl & _).
  pose proof (append_all_holds l open_new [] open_new_holds) as Hh. by rewrite Hl in Hh.
Qed.

Lemma ok_empty e acks k k2 parts live seen :
  engine_ok e acks k k2 parts live seen → is_empty (open_segment e) = bool_decide (live = []).
Proof.
  intros Hok. pose proof (holds_length _ _ (ok_segment _ _ _ _ _ _ _ Hok)) as Hl. unfold is_empty.
  apply bool_decide_ext. rewrite <-!length_zero_iff_nil. lia.
Qed.

Lemma ok_below e acks k k2 parts live seen seq bs :
  engine_ok e acks k k2 parts live seen → (seq, bs) ∈ parts → 0 ≤ seq < next_segment_seq e.
Proof.
  intros Hok Hin. assert (seq ∈ parts.*1) as Hseq by (by apply (list_elem_of_fmap_2' fst) with (seq, bs)).
  pose proof (ok_numbers _ _ _ _ _ _ _ Hok) as Hs. pose proof (ok_first _ _ _ _ _ _ _ Hok) as Hf.
  rewrite Forall_forall in Hf. split; [apply Hf, elem_of_app; by left|].
  clear -Hs Hseq. induction (parts.*1) as [|q l IH]; [by apply elem_of_nil in Hseq|].
  cbn in Hs. apply StronglySorted_inv in Hs as [Hs Hall]. apply elem_of_cons in Hseq as [->|]; [|auto].
  rewrite Forall_forall in Hall. apply Hall, elem_of_app. right. by left.
Qed.

Lemma ok_fresh e acks k k2 parts live seen :
  engine_ok e acks k k2 parts live seen →
  files (segment_store e) !! next_segment_seq e = None ∧ segments (segment_store e) !! next_segment_seq e = None.
Proof.
  intros Hok. split; apply eq_None_not_Some.
  - intros [bytes Hb]. destruct (ok_stored _ _ _ _ _ _ _ Hok _ _ Hb) as (bs & Hin & _).
    pose proof (ok_below _ _ _ _ _ _ _ _ _ Hok Hin). lia.
  - intros [h Hh]. destruct (ok_served _ _ _ _ _ _ _ Hok _ _ Hh) as (bs & Hin & _).
    pose proof (ok_below _ _ _ _ _ _ _ _ _ Hok Hin). lia.
Qed.

Lemma ok_bounded e acks k k2 parts live seen :
  engine_ok e acks k k2 parts live seen → next_segment_seq e < 2 ^ 64 → bounded (segment_store e).
Proof.
  intros Hok Hlt seq h Hh. destruct (ok_served _ _ _ _ _ _ _ Hok _ _ Hh) as (bs & Hin & Hs).
  pose proof (ok_below _ _ _ _ _ _ _ _ _ Hok Hin). split; [unfold u64_ok; lia|]. apply (handle_serves_u32 h bs Hs).
  pose proof (ok_sizes _ _ _ _ _ _ _ Hok) as Hsz. rewrite Forall_forall in Hsz. by apply (Hsz _ Hin).
Qed.

(** Retention keeps the invariant, except that it may remove segments that
    nobody needs. *)
Lemma ok_fresh_pending e acks k k2 parts live seen :
  engine_ok e acks k k2 parts live seen → pending_deletes (segment_store e) !! next_segment_seq e = None.
Proof. intros Hok. apply eq_None_not_Some. intros Hp%(ok_pending _ _ _ _ _ _ _ Hok). lia. Qed.

Lemma retains_ok e e' acks k k2 parts live seen :
  engine_ok e acks k k2 parts live seen → retains e e' →
  engine_ok e' acks k k2 parts live seen.
Proof.
  intros Hok. pose proof Hok as [Hl Hr Hc Hlg Ho Hn Hf Hsv Hst Hpd Hp Hsz Hrg Hct Hnd].
  intros [_ [b Hw] Hd Hop Hcu Hnx Hseg Hfil Hpn Hwf Hreg Hsp].
  destruct (Hreg Hrg) as [Hrg' Hsub]. split; rewrite ?Hop, ?Hcu, ?Hnx; try done; [..|by apply Hwf| |].
  - rewrite Hw, Hd. by apply log_budget.
  - intros seq h Hh. apply Hsv. by eapply lookup_weaken.
  - intros seq bytes Hb. apply Hst. by eapply lookup_weaken.
  - intros seq [Hq|[bytes Hb]]%Hpn; [by apply Hpd|]. destruct (Hst _ _ Hb) as (bs & Hin & _). by apply (ok_below _ _ _ _ _ _ _ _ _ Hok Hin).
  - by apply (reg_subsumed_known (λ _, None) _ (registry e)); [apply Hsub|..].
  - intros seq Hq. apply Hsp; [done..|]. apply Hnd.
    destruct (reg_subsumed_needed _ _ _ seq (Hsub (λ _, None)) Hq) as [|[]]; done.
Qed.

End state.

Arguments ok_log {_ crc32 slots stream_encode logs e acks k k2 parts live seen}.
Arguments ok_range {_ crc32 slots stream_encode logs e acks k k2 parts live seen}.
Arguments ok_cursor {_ crc32 slots stream_encode logs e acks k k2 parts live seen}.
Arguments ok_logged {_ crc32 slots stream_encode logs e acks k k2 parts live seen}.
Arguments ok_open {_ crc32 slots stream_encode logs e acks k k2 parts live seen}.
Arguments ok_numbers {_ crc32 slots stream_encode logs e acks k k2 parts live seen}.
Arguments ok_first {_ crc32 slots stream_encode logs e acks k k2 parts live seen}.
Arguments ok_served {_ crc32 slots stream_encode logs e acks k k2 parts live seen}.
Arguments ok_stored {_ crc32 slots stream_encode logs e acks k k2 parts live seen}.
Arguments ok_pending {_ crc32 slots stream_encode logs e acks k k2 parts live seen}.
Arguments ok_present {_ crc32 slots stream_encode logs e acks k k2 parts live seen}.
Arguments ok_sizes {_ crc32 slots stream_encode logs e acks k k2 parts live seen}.
Arguments ok_registry {_ crc32 slots stream_encode logs e acks k k2 parts live seen}.
Arguments ok_counts {_ crc32 slots stream_encode logs e acks k k2 parts live seen}.
Arguments ok_needed {_ crc32 slots stream_encode logs e acks k k2 parts live seen}.
Arguments ok_segment {_ crc32 slots stream_encode logs e acks k k2 parts live seen}.
Arguments ok_empty {_ crc32 slots stream_encode logs e acks k k2 parts live seen}.
Arguments ok_below {_ crc32 slots stream_encode logs e acks k k2 parts live seen seq bs}.
Arguments ok_fresh {_ crc32 slots stream_encode logs e acks k k2 parts live seen}.
Arguments ok_bounded {_ crc32 slots stream_encode logs e acks k k2 parts live seen}.
Arguments ok_fresh_pending {_ crc32 slots stream_encode logs e acks k k2 parts live seen}.

End EngineState.
