(* ===== verification/EngineRuns.v ===== *)
(** * Runs of the engine

    Ingestion, finalization, maintenance and calls of subscribers keep the
    invariant of the engine; opening establishes it. *)
From S2P Require Import Prelude Bytes Files BTreeMap SubscriberTypes Progress SubscriberState Registry RegistryRuns.
From S2P Require Import WalFormat WalReader Budget WalWriter WalLog WalRuns WalRecovery.
From S2P Require Import Arrow SegmentTypes Dictionaries OpenSegment SegmentFile SegmentRoundtrip SegmentStore.
From S2P Require Import EngineRegistry EngineLog Engine EngineRetention EngineState.

Local Open Scope Z_scope.

Module EngineRuns.
Import SubscriberTypes.
Import Registry.
Import WalWriter.
Import WalRuns.
Import Budget.
Import Arrow.
Import SegmentTypes.
Import OpenSegment.
Import SegmentFile.
Import SegmentRoundtrip.
Import SegmentStore.
Import EngineRegistry.
Import EngineLog.
Import Engine.
Import EngineRetention.
Import EngineState.

Section runs.
Context `{HL : ArrowLaws} (crc32 : list Z → Z) (crc32_ok : ∀ l, u32_ok (crc32 l)).
Context (slots : ManifestEntry → list (Z * SlotChunkRef)) (slots_perm : ∀ e, slots e ≡ₚ map_to_list (slot_refs e)).
Context (stream_encode : RecordBatch → option (list Z)) (stream_decode : list Z → option RecordBatch).
Context (order : Registry → list SubscriberId) (order_keys : ∀ r, key_order r (order r)).

#[local] Hint Extern 0 (WalFormat.RecordBatch _) => exact (batch_encoder stream_encode) : typeclass_instances.
#[local] Hint Extern 0 (SegmentProvider SegmentStore _) => exact (store_provider slots) : typeclass_instances.

Context (logs : WalFormat.RecordBundle RecordBatch → RecordBundle → Prop).

Abbreviation engine_ok := (engine_ok crc32 slots stream_encode logs).

(** ** Finalization *)

Definition finalize_fine (io : finalize_io) : Prop := segment_fine (fin_segment io) ∧ fin_cursor io = cursor_fine.

Lemma finalize_empty io e acks k k2 parts seen :
  engine_ok e acks k k2 parts [] seen → finalize_segment_impl crc32 slots io e = Some (e, Ok tt).
Proof. intros Hok. unfold finalize_segment_impl. by rewrite (ok_empty Hok). Qed.

(** The registry learns of the segment. *)
Lemma finalized_registry r seq n :
  reg_ok r → u64_ok seq → u32_ok n →
  reg_ok (on_segment_finalized r seq n) ∧
  reg_subsumed (λ q, if q =? seq then Some n else None) r (on_segment_finalized r seq n).
Proof.
  intros Hr Hseq Hn. split.
  - split. intros key s'. unfold on_segment_finalized. destruct r. cbn. rewrite lookup_fmap.
    intros (s & Hs & ->)%fmap_Some. destruct (reg_states _ Hr key s Hs) as [Hsok Hid].
    destruct (SubscriberState.active s); [|done]. split; [by apply SubscriberState.add_segment_ok|]. by destruct s.
  - eapply reg_subsumed_fmap; [by destruct r|]. intros key s _. cbn. destruct (SubscriberState.active s); [|done].
    apply add_segment_subsumed. by rewrite Z.eqb_refl.
Qed.

Lemma sorted_snoc (l : list Z) (x y : Z) : StronglySorted Z.lt (l ++ [x]) → x < y → StronglySorted Z.lt ((l ++ [x]) ++ [y]).
Proof.
  intros Hs Hlt. induction l as [|q l IH]; cbn in *.
  - repeat constructor. done.
  - apply StronglySorted_inv in Hs as [Hs Hall]. constructor; [by apply IH|].
    apply Forall_app. split; [done|]. constructor; [|constructor].
    rewrite Forall_forall in Hall. specialize (Hall x). rewrite elem_of_app in Hall. assert (q < x); [|lia].
    apply Hall. right. by left.
Qed.

(** The invariant after a segment was written, the cursor moved and the segment
    registered. *)
Lemma finalized_ok e e' acks k k2 parts live seen file h :
  engine_ok e acks k k2 parts live seen → next_segment_seq e < 2 ^ 63 → zlen live < 2 ^ 32 →
  log_ready crc32 (wal_writer e', wal_dir e') acks k2 → file_serves crc32 slots file live → handle_serves slots h live →
  open_segment e' = open_new → next_segment_seq e' = next_segment_seq e + 1 →
  segment_store e' = set_segments <[next_segment_seq e := h]> (set_files <[next_segment_seq e := file]> (segment_store e)) →
  registry e' = on_segment_finalized (registry e) (next_segment_seq e) (zlen live) →
  engine_ok e' acks k2 k2 (parts ++ [(next_segment_seq e, live)]) [] seen.
Proof.
  intros Hok Hnx Hlive Hlog Hfile Hh Hseg Hnext Hst Hreg. pose proof (ok_fresh_pending Hok) as Hpend.
  destruct (ok_fresh Hok) as [Hff Hfs].
  destruct Hok as [Hl Hr Hc Hlg Ho Hn Hf Hsv Hstd Hpd Hp Hsz Hrg Hct Hnd]. set (nx := next_segment_seq e) in *.
  assert (0 ≤ nx) as Hpos by (apply Forall_app in Hf as [_ Hf]; by apply Forall_cons in Hf as [? _]).
  pose proof (zlen_nonneg live). destruct (finalized_registry (registry e) nx (zlen live) Hrg) as [Hrg' Hsub];
    [unfold u64_ok; lia|unfold u32_ok; lia|].
  assert (∀ q bs, (q, bs) ∈ parts → (q, bs) ∈ parts ++ [(nx, live)]) as Hold by (intros; apply elem_of_app; by left).
  assert ((nx, live) ∈ parts ++ [(nx, live)]) as Hnew by (apply elem_of_app; right; by left).
  split; rewrite ?Hst, ?Hreg, ?Hseg, ?Hnext; cbn [files segments pending_deletes set_files set_segments]; try done.
  - lia.
  - exists []. split; [apply sublist_nil_l|constructor].
  - exists []. split; [done|]. apply sublist_nil_l.
  - rewrite fmap_app. by apply (sorted_snoc parts.*1 nx (nx + 1)); [|lia].
  - rewrite fmap_app. apply Forall_app. split; [done|]. constructor; [lia|constructor].
  - intros seq h' [[<- <-]|[_ Hh']]%lookup_insert_Some; [by exists live|]. destruct (Hsv _ _ Hh') as (bs & Hin & ?). eauto.
  - intros seq bytes [[<- <-]|[_ Hb]]%lookup_insert_Some; [by exists live|]. destruct (Hstd _ _ Hb) as (bs & Hin & ?). eauto.
  - intros seq Hq%Hpd. lia.
  - intros seq. cbn. destruct (decide (seq = nx)) as [->|]; [by rewrite !lookup_insert_eq|]. rewrite !lookup_insert_ne by done. apply Hp.
  - apply Forall_app. split; [done|]. by constructor.
  - eapply (reg_subsumed_known (λ q, if q =? nx then Some (zlen live) else None)); [done|..].
    + intros seq m. destruct (Z.eqb_spec seq nx) as [->|]; [|done]. intros [= <-]. by exists live.
    + intros key s seq m Hs Hm. destruct (Hct key s seq m Hs Hm) as (bs & Hin & ->). eauto.
  - intros seq Hq. destruct (decide (seq = nx)) as [->|Hne]; [by rewrite lookup_insert_eq|]. rewrite lookup_insert_ne by done.
    destruct (reg_subsumed_needed _ _ _ seq Hsub Hq) as [|Hs]; [by apply Hnd|]. rewrite (proj2 (Z.eqb_neq _ _)) in Hs by done. by destruct Hs.
Qed.

Lemma finalize_step io e acks k k2 parts live seen :
  engine_ok e acks k k2 parts live seen → live ≠ [] → zlen acks ≤ 2 ^ 32 → next_segment_seq e < 2 ^ 63 →
  seg_writable crc32 slots (open_segment e) → finalize_fine io →
  ∃ e' h, finalize_segment_impl crc32 slots io e = Some (e', Ok tt) ∧
    engine_ok e' acks k2 k2 (parts ++ [(next_segment_seq e, live)]) [] seen ∧
    config e' = config e ∧ options (wal_writer e') = options (wal_writer e) ∧ next_segment_seq e' = next_segment_seq e + 1 ∧
    segments (segment_store e') = <[next_segment_seq e := h]> (segments (segment_store e)).
Proof.
  intros Hok Hne Hz Hnx Hwr [Hsf Hcf]. pose proof (ok_segment Hok) as Hseg.
  pose proof (ok_empty Hok) as Hemp. rewrite bool_decide_eq_false_2 in Hemp by done.
  destruct (ok_cursor Hok Hne) as [Hk Hcur]. pose proof (ok_range Hok) as Hr.
  assert (0 ≤ next_segment_seq e) as Hpos.
  { pose proof (ok_first Hok) as Hf. apply Forall_app in Hf as [_ Hf]. by apply Forall_cons in Hf as [? _]. }
  destruct (write_segment_fine crc32 crc32_ok slots slots_perm (fin_segment io) (next_segment_seq e) (open_segment e) live
    (segment_store e) Hseg Hne Hwr Hsf) as (file & n & crc & Hwrite & Hserves).
  destruct (persist_cursor crc32 cursor_fine (segment_cursor e) (budget_add n (wal_writer e), wal_dir e)) as [[w' d'] r] eqn:Hper.
  destruct (log_persist crc32 crc32_ok _ acks k k2 (segment_cursor e) _ _
    (log_budget crc32 _ _ ((λ b, add b n) <$> budget (wal_writer e)) _ _ (ok_log Hok))
    ltac:(lia) Hz ltac:(by rewrite Hcur) ltac:(by rewrite Hcur) Hper) as (-> & Hlog & Hopt).
  destruct (Hserves (modified (fin_segment io))) as (h & Hopen & Hh).
  assert (register_new_segment crc32 (modified (fin_segment io)) (next_segment_seq e)
    (set_files <[next_segment_seq e := file]> (segment_store e)) =
    (set_segments <[next_segment_seq e := h]> (set_files <[next_segment_seq e := file]> (segment_store e)), Return (zlen live))) as Hreg.
  { unfold register_new_segment. cbn [files set_files]. rewrite lookup_insert_eq, Hopen. destruct Hh as [-> _]. done. }
  clear Hopen. pose proof (finalized_ok e) as Hfin. unfold finalize_segment_impl. rewrite Hemp.
  destruct e as [cfg mt w d seg cur nx cw cs fd di ex ei pr st rg].
  cbn -[budget_add register_new_segment set_files set_segments on_segment_finalized] in *. rewrite Hwrite. unfold with_wal.
  cbn -[budget_add register_new_segment set_files set_segments on_segment_finalized]. rewrite Hcf, Hper.
  cbn -[budget_add register_new_segment set_files set_segments on_segment_finalized]. rewrite Hreg.
  cbn -[set_files set_segments on_segment_finalized]. 
  assert (wrapping_add 64 nx 1 = nx + 1) as -> by (apply Z.mod_small; lia).
  eexists _, h. split; [done|]. split_and!; try done. eapply Hfin; try done.
  pose proof (seg_bundles _ (holds_ok _ _ Hseg)) as Hmax. unfold MAX_BUNDLES_PER_SEGMENT, zlen in *.
  rewrite (holds_length _ _ Hseg) in Hmax. lia.
Qed.

(** ** Growth *)

(** Segments are only added, and the new ones are registered. *)
Record advances (n : Z) (e e' : QuiverEngine) (parts parts' : list (Z * list RecordBundle)) : Prop := {
  adv_config : config e' = config e;
  adv_options : options (wal_writer e') = options (wal_writer e);
  adv_next : next_segment_seq e ≤ next_segment_seq e' ≤ next_segment_seq e + n;
  adv_kept seq : is_Some (segments (segment_store e) !! seq) → is_Some (segments (segment_store e') !! seq);
  adv_parts : ∃ new, parts' = parts ++ new ∧ ∀ seq bs, (seq, bs) ∈ new → is_Some (segments (segment_store e') !! seq);
}.

Lemma advances_refl n e e' parts :
  0 ≤ n → config e' = config e → options (wal_writer e') = options (wal_writer e) → next_segment_seq e' = next_segment_seq e →
  segment_store e' = segment_store e → advances n e e' parts parts.
Proof.
  intros Hn Hc Ho Hx Hs. split; [done|done|lia|by rewrite Hs|]. exists []. rewrite app_nil_r. split; [done|]. by intros ? ? ?%elem_of_nil.
Qed.

Lemma advances_trans n1 n2 e1 e2 e3 p1 p2 p3 :
  advances n1 e1 e2 p1 p2 → advances n2 e2 e3 p2 p3 → advances (n1 + n2) e1 e3 p1 p3.
Proof.
  intros [C1 O1 N1 K1 (new1 & -> & P1)] [C2 O2 N2 K2 (new2 & -> & P2)]. split; [congruence|congruence|lia|auto|].
  exists (new1 ++ new2). rewrite app_assoc. split; [done|]. intros seq bs [Hin|Hin]%elem_of_app; eauto.
Qed.

(** What the engine can write: every segment that takes bundles among [seen]. *)
Definition all_writable (seen : list RecordBundle) : Prop :=
  ∀ l, l.*2 `sublist_of` seen → seg_writable crc32 slots (append_all open_new l).1.

Lemma finalize_total io e acks k k2 parts live seen :
  engine_ok e acks k k2 parts live seen → zlen acks ≤ 2 ^ 32 → next_segment_seq e < 2 ^ 63 → all_writable seen → finalize_fine io →
  ∃ e' k' parts', finalize_segment_impl crc32 slots io e = Some (e', Ok tt) ∧
    engine_ok e' acks k' k2 parts' [] seen ∧ contents parts' [] = contents parts live ∧ advances 1 e e' parts parts' ∧
    k' = if decide (live = []) then k else k2.
Proof.
  intros Hok Hz Hnx Hwr Hio. destruct (decide (live = [])) as [->|Hne].
  { exists e, k, parts. split; [by eapply finalize_empty|]. split_and!; [done..| |done]. by apply advances_refl. }
  destruct (ok_open Hok) as (l & Hl & Hsub). specialize (Hwr l Hsub). rewrite Hl in Hwr.
  destruct (finalize_step io e acks k k2 parts live seen Hok Hne Hz Hnx Hwr Hio) as (e' & h & Hf & Hok' & Hc & Ho & Hn & Hs).
  exists e', k2, (parts ++ [(next_segment_seq e, live)]). split_and!; [done..| | |done].
  - unfold contents. rewrite fmap_app, concat_app, app_nil_r. cbn. by rewrite app_nil_r.
  - split; [done|done|lia| |].
    + intros seq Hq. rewrite Hs. by apply lookup_insert_is_Some'; right.
    + exists [(next_segment_seq e, live)]. split; [done|]. intros seq bs [= -> ->]%list_elem_of_singleton.
      by rewrite Hs, lookup_insert_eq.
Qed.

(** ** Appending to the open segment *)

Lemma append_all_snoc l seg seg0 live now b :
  append_all seg0 l = (seg, live) →
  append_all seg0 (l ++ [(now, b)]) =
    ((append now seg b).1, if is_ok (append now seg b).2 then live ++ [b] else live).
Proof.
  revert seg0 live. induction l as [|[t x] l IH]; intros seg0 live; cbn [append_all app].
  - intros [= <- <-]. by destruct (append now seg0 b) as [seg' []].
  - destruct (append t seg0 x) as [seg1 r1]. destruct (append_all seg1 l) as [seg2 acc] eqn:E. intros [= <- <-].
    rewrite (IH _ _ E). by destruct (is_ok r1), (is_ok (append now seg2 b).2).
Qed.

(** The cursor after the first [n] accepted bundles. *)
Definition cursor_at (acks : list (WalFormat.WalOffset * WalFormat.RecordBundle RecordBatch)) (n : nat) : WalConsumerCursor :=
  mkCursor (end_position (take n acks)) (Z.of_nat n - 1).

Lemma sublist_take_mono {A} (l : list A) k n m : (n ≤ m)%nat → drop k (take n l) `sublist_of` drop k (take m l).
Proof.
  intros Hle. rewrite <-(take_drop n (take m l)), take_take, Nat.min_l by done.
  destruct (Nat.le_gt_cases k (length (take n l))) as [Hk|Hk].
  - rewrite drop_app_le by done. by apply sublist_inserts_r.
  - rewrite (drop_ge (take n l)) by lia. apply sublist_nil_l.
Qed.

(** The segment and the cursor after a bundle that the log accepted as number
    [n]; it may be rejected. *)
Lemma appended_ok now e e' acks k k2 n parts live seen b x :
  engine_ok e acks k k2 parts live seen → (k2 ≤ n)%nat → acks !! n = Some x → logs x.2 b →
  e' = e <| segment_cursor := cursor_at acks (S n) |> <| open_segment := (append now (open_segment e) b).1 |> →
  engine_ok e' acks k (S n) parts (if is_ok (append now (open_segment e) b).2 then live ++ [b] else live) (seen ++ [b]).
Proof.
  intros Hok Hn Hx Hlogs ->. pose proof (lookup_lt_Some _ _ _ Hx) as Hlt.
  destruct Hok as [Hl Hr Hc Hlg (l & Happ & Hsub) Hnum Hf Hsv Hst Hpd Hp Hsz Hrg Hct Hnd].
  set (ok := is_ok (append now (open_segment e) b).2). pose proof (append_all_snoc l _ _ _ now b Happ) as Happ'. fold ok in Happ'.
  destruct e. cbn -[append append_all] in *. split; try done.
  - cbn. lia.
  - intros _. split; [lia|done].
  - destruct Hlg as (l0 & Hl0 & Hall). assert (l0 `sublist_of` (drop k (take n acks)).*2) as Hl1.
    { etrans; [exact Hl0|]. apply (fmap_sublist snd), sublist_take_mono. lia. }
    assert ((drop k (take (S n) acks)).*2 = (drop k (take n acks)).*2 ++ [x.2]) as Htake.
    { rewrite (take_S_r _ _ x) by done. rewrite drop_app_le, fmap_app; [done|]. rewrite length_take. lia. }
    cbn [segment_cursor]. rewrite Htake. destruct ok.
    + exists (l0 ++ [x.2]). split; [by apply sublist_app|]. apply Forall2_app; [done|]. by constructor.
    + exists l0. split; [by apply sublist_inserts_r|done].
  - exists (l ++ [(now, b)]). rewrite Happ'. split; [done|]. rewrite fmap_app. by apply sublist_app.
Qed.

Lemma contents_snoc parts live b : contents parts (live ++ [b]) = contents parts live ++ [b].
Proof. unfold contents. by rewrite app_assoc. Qed.

Lemma segment_step now check io e acks k k2 n parts live seen b x :
  engine_ok e acks k k2 parts live seen → (k2 ≤ n)%nat → acks !! n = Some x → logs x.2 b →
  zlen acks ≤ 2 ^ 32 → next_segment_seq e < 2 ^ 63 → all_writable (seen ++ [b]) → finalize_fine io →
  ∃ e' r k' parts' live',
    append_to_segment_and_maybe_finalize crc32 slots now check io b (Some (cursor_at acks (S n))) e = Some (e', r) ∧
    engine_ok e' acks k' (S n) parts' live' (seen ++ [b]) ∧
    contents parts' live' = contents parts live ++ (if is_ok r then [b] else []) ∧ advances 1 e e' parts parts' ∧
    (r = Ok tt ∧ (live' = [] → k' = S n) ∨ ∃ err, r = Err (SegmentFailed err) ∧ (append now (open_segment e) b).2 = Err err).
Proof.
  intros Hok Hn Hx Hlogs Hz Hnx Hwr Hio. pose proof (appended_ok now e _ acks k k2 n parts live seen b x Hok Hn Hx Hlogs eq_refl) as Hok'.
  unfold append_to_segment_and_maybe_finalize.
  assert (open_segment (e <| segment_cursor := cursor_at acks (S n) |>) = open_segment e) as -> by (by destruct e).
  assert (∀ seg, advances 1 e (e <| segment_cursor := cursor_at acks (S n) |> <| open_segment := seg |>) parts parts) as Hadv.
  { intros seg. by destruct e; apply advances_refl. }
  destruct (append now (open_segment e) b) as [seg [entry|err]]; cbn [fst snd is_ok] in *.
  2: { do 5 eexists. split; [done|]. split_and!; [exact Hok'|by rewrite app_nil_r|done|]. right. eauto. }
  destruct (should_finalize _ _ _).
  - destruct (finalize_total io _ _ _ _ _ _ _ Hok' Hz) as (e' & k' & parts' & Hf & Hok2 & Hcont & Hadv2 & Hk);
      [by destruct e|done|done|]. rewrite decide_False in Hk by (by intros [_ ?]%app_eq_nil).
    exists e', (Ok tt), k', parts', []. split_and!; [done|done| | |by left].
    + by rewrite Hcont, contents_snoc.
    + destruct (Hadv seg) as [C1 O1 N1 K1 P1], Hadv2 as [C2 O2 N2 K2 P2].
      destruct e. split; done.
  - do 5 eexists. split; [done|]. split_and!; [exact Hok'|by rewrite contents_snoc|done|]. left. split; [done|]. by intros [_ ?]%app_eq_nil.
Qed.

(** ** Ingestion *)

(** The payloads of a bundle can be encoded. *)
Definition encodes (b : WalFormat.RecordBundle RecordBatch) : Prop :=
  ∃ encoded, WalFormat.encode_slots b (WalFormat.descriptor_slots b) 0 [] = Ok encoded.

Lemma wal_append_step el b e acks k k2 parts live seen e' r :
  engine_ok e acks k k2 parts live seen → zlen acks < 2 ^ 32 → WalFormat.bundle_ok (bundle b) →
  with_wal (append_bundle crc32 (append_fine el) (bundle b)) e = (e', r) →
  (∃ err, r = Err err) ∧ e' = e ∨
  ∃ o, r = Ok o ∧ cursor_from_offset o = cursor_at (acks ++ [(o, bundle b)]) (S (length acks)) ∧
    engine_ok e' (acks ++ [(o, bundle b)]) k k2 parts live seen ∧ advances 0 e e' parts parts ∧ encodes (bundle b).
Proof.
  intros Hok Hz Hb. unfold with_wal. destruct (append_bundle _ _ _ _) as [[w d] r0] eqn:Happ. intros [= <- <-].
  pose proof (ok_range Hok) as Hr.
  destruct (log_append crc32 crc32_ok _ acks k (bundle b) el _ _ (ok_log Hok) ltac:(lia) Hz Hb Happ)
    as [[Herr [= -> ->]]|(o & -> & Hseq & Hlog & Hopt & _ & Henc)].
  { left. split; [done|]. by destruct e. }
  right. exists o. split; [done|]. split_and!; [| |by destruct e; apply advances_refl|done].
  - unfold cursor_from_offset, cursor_at. rewrite take_ge by (rewrite length_app; cbn; lia).
    unfold end_position. rewrite last_snoc, Hseq. f_equal. unfold zlen. lia.
  - destruct Hok as [Hl _ Hc Hlg Ho Hnum Hf Hsv Hst Hpd Hp Hsz Hrg Hct Hnd].
    destruct e. cbn -[append_all] in *. split; try done; rewrite ?take_app_le by lia; try done.
    rewrite length_app. cbn. lia.
Qed.

Definition ingest_fine (io : ingest_io) : Prop :=
  (∃ el, first_append io = append_fine el) ∧ (∃ el, second_append io = append_fine el) ∧
  finalize_fine (capacity_finalize io) ∧ finalize_fine (end_finalize io).

Lemma all_writable_sub seen seen' : seen `sublist_of` seen' → all_writable seen' → all_writable seen.
Proof. intros Hsub Hw l Hl. apply Hw. by etrans. Qed.

(** The log after a bundle was offered. *)
Definition offered (b : RecordBundle) (acks acks' : list (WalFormat.WalOffset * WalFormat.RecordBundle RecordBatch))
    (r : result WalFormat.WalOffset QuiverError) : Prop :=
  match r with
  | Ok o => acks' = acks ++ [(o, bundle b)] ∧ cursor_from_offset o = cursor_at acks' (S (length acks)) ∧ encodes (bundle b)
  | Err _ => acks' = acks
  end.

Lemma capacity_step io b e acks k k2 parts live seen :
  engine_ok e acks k k2 parts live seen → zlen acks < 2 ^ 32 → next_segment_seq e < 2 ^ 63 → WalFormat.bundle_ok (bundle b) →
  all_writable seen → ingest_fine io →
  ∃ e' r acks' k' parts' live',
    append_to_wal_with_capacity_handling crc32 slots stream_encode io b e = Some (e', r) ∧
    engine_ok e' acks' k' k2 parts' live' seen ∧ offered b acks acks' r ∧
    contents parts' live' = contents parts live ∧ advances 1 e e' parts parts'.
Proof.
  intros Hok Hz Hnx Hb Hwr ([el1 H1] & [el2 H2] & Hf & _). unfold append_to_wal_with_capacity_handling. rewrite H1, H2.
  destruct (with_wal _ e) as [e1 r1] eqn:Hw1.
  destruct (wal_append_step _ _ _ _ _ _ _ _ _ _ _ Hok Hz Hb Hw1) as [[[err ->] ->]|(o & -> & Hc & Hok1 & Hadv & Henc)].
  2: { do 6 eexists. split; [done|]. split_and!; [exact Hok1|done|done|]. destruct Hadv. split; [done|done|lia|done|done]. }
  destruct (WalFormat.is_at_capacity err); [|do 6 eexists; split; [done|]; split_and!; [exact Hok|done|done|by apply advances_refl]].
  destruct (finalize_total (capacity_finalize io) e acks k k2 parts live seen) as (e2 & k' & parts' & -> & Hok2 & Hcont & Hadv & _); [done|lia|done..|].
  cbn [mbind option_bind]. destruct (with_wal _ e2) as [e3 r3] eqn:Hw3.
  destruct (wal_append_step _ _ _ _ _ _ _ _ _ _ _ Hok2 Hz Hb Hw3) as [[[err3 ->] ->]|(o & -> & Hc & Hok3 & Hadv3 & Henc)].
  - do 6 eexists. split; [done|]. by split_and!; [exact Hok2|..].
  - do 6 eexists. split; [done|]. split_and!; [exact Hok3|done|done|]. exact (advances_trans _ _ _ _ _ _ _ _ Hadv Hadv3).
Qed.

Lemma ok_seen e acks k k2 parts live seen b :
  engine_ok e acks k k2 parts live seen → engine_ok e acks k k2 parts live (seen ++ [b]).
Proof.
  intros [Hl Hr Hc Hlg (l & Hl0 & Hsub) Hnum Hf Hsv Hst Hpd Hp Hsz Hrg Hct Hnd]. split; try done.
  exists l. split; [done|]. by apply sublist_inserts_r.
Qed.

Lemma advances_weaken n m e e' parts parts' : advances n e e' parts parts' → n ≤ m → advances m e e' parts parts'.
Proof. intros [] Hle. split; [done|done|lia|done|done]. Qed.

Lemma ingest_step io b e acks k k2 parts live seen :
  engine_ok e acks k k2 parts live seen → (∀ b, logs (bundle b) b) → zlen acks < 2 ^ 32 → next_segment_seq e + 1 < 2 ^ 63 →
  WalFormat.bundle_ok (bundle b) → all_writable (seen ++ [b]) → ingest_fine io → engine_durability (config e) = DurabilityWal →
  ∃ e1 e' r acks' k' k2' parts' live',
    ingest crc32 slots stream_encode order io b e = Some (e', r) ∧ retains e e1 ∧
    engine_ok e' acks' k' k2' parts' live' (seen ++ [b]) ∧ (acks' = acks ∨ ∃ o, acks' = acks ++ [(o, bundle b)] ∧ encodes (bundle b)) ∧
    contents parts' live' = contents parts live ++ (if is_ok r then [b] else []) ∧ advances 2 e1 e' parts parts' ∧
    (is_ok r → k2' = length acks' ∧ (live' = [] → k' = k2')).
Proof.
  intros Hok Hlogs Hz Hnx Hb Hwr Hio Hwal. unfold ingest.
  set (e0 := e <| metrics ::= _ |>). assert (retains e e0) as Hret0 by (by destruct e; apply retains_same).
  pose proof (retains_ok _ _ _ _ _ _ _ _ _ _ _ _ Hok Hret0) as Hok0.
  destruct (make_room_total slots order order_keys io e0 (ok_registry Hok0)) as (e1 & room & -> & Hret1).
  assert (retains e e1) as Hret by (by etrans). pose proof (retains_ok _ _ _ _ _ _ _ _ _ _ _ _ Hok Hret) as Hok1.
  assert (all_writable seen) as Hwr0 by (eapply all_writable_sub; [|exact Hwr]; by apply sublist_inserts_r).
  cbn [mbind option_bind]. destruct room as [[]|err].
  2: { exists e1, e1, (Err err), acks, k, k2, parts, live. split_and!; [done..| |by left|by rewrite app_nil_r|by apply advances_refl|done].
    by apply ok_seen. }
  rewrite (ret_config _ _ Hret), Hwal.
  destruct (capacity_step io b e1 acks k k2 parts live seen Hok1) as (e2 & r2 & acks' & k' & parts' & live' & -> & Hok2 & Hoff & Hcont & Hadv);
    [done|rewrite (ret_next _ _ Hret); lia|done..|].
  cbn [mbind option_bind]. destruct r2 as [o|err]; cbn [offered] in Hoff.
  2: { subst acks'. exists e1, e2, (Err err), acks, k', k2, parts', live'. split_and!; [done..| |by left| | |done].
    - by apply ok_seen.
    - by rewrite Hcont, app_nil_r.
    - eapply advances_weaken; [done|lia]. }
  destruct Hoff as (-> & Hcur & Henc). set (e3 := e2 <| cumulative_wal_bytes ::= _ |>).
  assert (retains e2 e3) as Hret3 by (by destruct e2; apply retains_same).
  pose proof (retains_ok _ _ _ _ _ _ _ _ _ _ _ _ Hok2 Hret3) as Hok3. pose proof (ok_range Hok) as Hrange.
  pose proof (adv_next _ _ _ _ _ Hadv) as Hn2. rewrite (ret_next _ _ Hret) in Hn2.
  destruct (segment_step (append_now io) (check_now io) (end_finalize io) e3 (acks ++ [(o, bundle b)]) k' k2 (length acks) parts' live' seen b
    (o, bundle b) Hok3) as (e' & r & k3 & parts3 & live3 & Hseg & Hok4 & Hcont4 & Hadv4 & Hres); [lia| |apply Hlogs| | |done|apply Hio|].
  - by rewrite list_lookup_middle.
  - rewrite zlen_app. change (zlen [_]) with 1. lia.
  - rewrite (ret_next _ _ Hret3). lia.
  - rewrite <-Hcur in Hseg. rewrite Hseg. exists e1, e', r, (acks ++ [(o, bundle b)]), k3, (S (length acks)), parts3, live3.
    split_and!; [done..|right; by exists o|by rewrite Hcont4, Hcont| |].
    + apply (advances_trans 1 1 e1 e2 e' parts parts' parts3); [done|]. by destruct e2, Hadv4.
    + destruct Hres as [[-> Hk]|(err & -> & _)]; [|done]. intros _. rewrite length_app. cbn. split; [lia|done].
Qed.

(** ** Calls of subscribers *)

Abbreviation Handle := (BundleHandle (Z * gmap Z RecordBatch)).

Inductive SubscriberCall :=
  | Register (key : SubscriberId)
  | Activate (key : SubscriberId)
  | Deactivate (key : SubscriberId)
  | Unregister (fails : bool) (key : SubscriberId)
  | Poll (key : SubscriberId)
  | Claim (key : SubscriberId) (br : BundleRef)
  | Ack (h : Handle)
  | Reject (h : Handle)
  | Defer (h : Handle)
  | DropHandle (h : Handle).

(** The engine and the directory of progress files after a call. *)
Definition subscriber_call (c : SubscriberCall) (e : QuiverEngine) (d : Dir) : option (QuiverEngine * Dir) :=
  match c with
  | Register key => Some (register_subscriber key e, d)
  | Activate key => Some ((activate_subscriber slots key e).1, d)
  | Deactivate key => Some (with_registry (λ r, (deactivate r key).1) e, d)
  | Unregister fails key => let '(r, d, _) := unregister fails (registry e) d key in Some (e <| registry := r |>, d)
  | Poll key => '(e, _) ← engine_poll_next_bundle slots key e; Some (e, d)
  | Claim key br => '(e, _) ← engine_claim_bundle slots key br e; Some (e, d)
  | Ack h => r ← ack (registry e) h; Some (e <| registry := r |>, d)
  | Reject h => r ← reject (registry e) h; Some (e <| registry := r |>, d)
  | Defer h => Some (with_registry (λ r, (defer r h).1) e, d)
  | DropHandle h => Some (with_registry (λ r, drop_handle r h) e, d)
  end.

(** Arguments of machine width. *)
Definition call_valid (c : SubscriberCall) : Prop :=
  match c with
  | Claim _ br => SubscriberState.ref_ok br
  | Ack h | Reject h | Defer h | DropHandle h => SubscriberState.ref_ok (handle_ref h)
  | _ => True
  end.

(** The bundle counts of the segments in the store. *)
Definition stored_counts (st : SegmentStore) (seq : Z) : option Z := bundle_count <$> segments st !! seq.

Lemma registry_ok e r acks k k2 parts live seen :
  engine_ok e acks k k2 parts live seen → reg_ok r → reg_subsumed (stored_counts (segment_store e)) (registry e) r →
  engine_ok (e <| registry := r |>) acks k k2 parts live seen.
Proof.
  intros [Hl Hr Hc Hlg Ho Hnum Hf Hsv Hst Hpd Hp Hsz Hrg Hct Hnd] Hr' Hsub. destruct e. cbn -[append_all] in *. split; try done.
  - eapply reg_subsumed_known; [done| |done]. intros seq n (h & Hh & ->)%fmap_Some.
    destruct (Hsv seq h Hh) as (bs & Hin & [Hcount _]). by exists bs.
  - intros seq Hq. destruct (reg_subsumed_needed _ _ _ seq Hsub Hq) as [|Hs]; [by apply Hnd|]. by apply fmap_is_Some in Hs.
Qed.

Lemma add_available_subsumed st seqs s :
  subsumed (stored_counts st) s (add_available (HP := store_provider slots) st s seqs).1.
Proof.
  revert s. induction seqs as [|seq seqs IH]; intros s; cbn [add_available]; [done|].
  destruct (provider_bundle_count st seq) as [n|err] eqn:Hn; [|done]. etrans; [|apply IH]. apply add_segment_subsumed.
  cbn in Hn. unfold with_handle in Hn. unfold stored_counts. destruct (segments st !! seq); [|done]. by injection Hn as <-.
Qed.

Lemma add_available_bounded (p : {st | bounded st}) seqs s :
  add_available (HP := bounded_provider slots) p s seqs = add_available (HP := store_provider slots) (`p) s seqs.
Proof.
  revert s. induction seqs as [|seq seqs IH]; intros s; cbn [add_available]; [done|].
  cbn [provider_bundle_count bounded_provider]. by destruct (provider_bundle_count (`p) seq).
Qed.

Lemma activate_bounded (p : {st | bounded st}) r key :
  Registry.activate (HP := bounded_provider slots) p r key = Registry.activate (HP := store_provider slots) (`p) r key.
Proof.
  unfold Registry.activate. destruct (subscribers r !! key) as [s|]; [|done]. by rewrite add_available_bounded.
Qed.

Lemma release_subsumed counts r key br : reg_subsumed counts r (release_bundle r key br).
Proof.
  unfold release_bundle. destruct (subscribers r !! key) as [s|] eqn:Hs; [|done].
  eapply reg_subsumed_put; [by left|]. apply subsumed_segments. by destruct s.
Qed.

Lemma resolution_subsumed counts r key br o r' :
  reg_ok r → SubscriberState.ref_ok br → record_resolution r key br o = Some r' → reg_subsumed counts r r'.
Proof.
  intros Hr Hbr. unfold record_resolution. destruct (subscribers r !! key) as [s|] eqn:Hs; cbn.
  - destruct (SubscriberState.record_outcome s br o) as [[b s']|] eqn:Hrec; [|done]. cbn. intros [= <-].
    transitivity (put_state r key s'); [|apply reg_subsumed_same; by destruct r].
    eapply reg_subsumed_put; [by left|]. eapply record_subsumed; [apply (reg_states r Hr key s Hs)|done|done].
  - intros [= <-]. apply reg_subsumed_same. by destruct r.
Qed.

Lemma activate_subsumed st r key :
  reg_subsumed (stored_counts st) r (Registry.activate (HP := store_provider slots) st r key).1.
Proof.
  unfold Registry.activate. destruct (subscribers r !! key) as [s|] eqn:Hs; [|done].
  destruct (SubscriberState.active s); [done|]. pose proof (add_available_subsumed st (available_segments st) s) as Hsub.
  destruct (add_available st s (available_segments st)) as [s' [u|err]]; cbn [fst] in *; (eapply reg_subsumed_put; [by left|]); [|done].
  etrans; [exact Hsub|]. apply subsumed_segments. by destruct s'.
Qed.

Lemma poll_subsumed counts (p : SegmentStore) r key r' res :
  poll_next_bundle (HP := store_provider slots) p r key = Some (r', res) → reg_subsumed counts r r'.
Proof.
  unfold poll_next_bundle. destruct (subscribers r !! key) as [s|] eqn:Hs; [|by intros [= <- <-]].
  destruct (negb (SubscriberState.active s)); [by intros [= <- <-]|].
  destruct (SubscriberState.next_pending s) as [[br|]|]; cbn; [|by intros [= <- <-]|done].
  destruct (SubscriberState.claim s br) as [[b s']|] eqn:Hc; [|done]. cbn.
  destruct (read_claimed p key br); intros [= <- <-]; (eapply reg_subsumed_put; [by left|by eapply claim_subsumed]).
Qed.

Lemma claim_bundle_subsumed counts (p : SegmentStore) r key br r' res :
  claim_bundle (HP := store_provider slots) p r key br = Some (r', res) → reg_subsumed counts r r'.
Proof.
  unfold claim_bundle. destruct (subscribers r !! key) as [s|] eqn:Hs; [|by intros [= <- <-]].
  destruct (SubscriberState.is_resolved s br) as [[]|]; cbn; [by intros [= <- <-]| |done].
  destruct (SubscriberState.is_claimed s br); [by intros [= <- <-]|].
  destruct (SubscriberState.claim s br) as [[b s']|] eqn:Hc; [|done]. cbn.
  destruct (negb b); intros [= <- <-]; (eapply reg_subsumed_put; [by left|by eapply claim_subsumed]).
Qed.

Lemma simple_subsumed counts r key :
  reg_subsumed counts r (register r key) ∧ reg_subsumed counts r (deactivate r key).1.
Proof.
  unfold register, deactivate. destruct (subscribers r !! key) as [s|] eqn:Hs; (split; [try done|]); try done.
  - eapply reg_subsumed_put; [by left|]. apply subsumed_segments. by destruct s.
  - eapply reg_subsumed_put; [by right|done].
Qed.

Lemma unregister_subsumed counts fails r d key : reg_subsumed counts r (unregister fails r d key).1.1.
Proof.
  unfold unregister. destruct (subscribers r !! key) as [s|] eqn:Hs; [|done].
  destruct (Progress.delete_progress_file _ _ _) as [d' res]. intros k t Ht. exists t. split; [left|done].
  destruct r. cbn in Ht. by apply lookup_delete_Some in Ht as [_ Ht].
Qed.

Lemma with_registry_set f e : with_registry f e = e <| registry := f (registry e) |>.
Proof. by destruct e. Qed.

(** What a call does to the registry. *)
Lemma call_registry c e d :
  reg_ok (registry e) → bounded (segment_store e) → call_valid c →
  ∃ r d', subscriber_call c e d = Some (e <| registry := r |>, d') ∧ reg_ok r ∧
    reg_subsumed (stored_counts (segment_store e)) (registry e) r.
Proof.
  intros Hr Hb Hc. set (p := exist _ (segment_store e) Hb).
  set (o := match c with
    | Register key => RegistryRuns.RRegister key
    | Activate key => RegistryRuns.RActivate p key
    | Deactivate key => RegistryRuns.RDeactivate key
    | Unregister fails key => RegistryRuns.RUnregister fails key
    | Poll key => RegistryRuns.RPoll p key
    | Claim key br => RegistryRuns.RClaim p key br
    | Ack h => RegistryRuns.RAck h
    | Reject h => RegistryRuns.RReject h
    | Defer h => RegistryRuns.RDefer h
    | DropHandle h => RegistryRuns.RDrop h
    end).
  destruct (RegistryRuns.reg_step_ok (HP := bounded_provider slots) crc32 (RegistryRuns.mkWorld (registry e) d) o)
    as (w & hs & Hstep & Hw & _); [done|by destruct c|].
  unfold RegistryRuns.reg_step in Hstep. cbn [RegistryRuns.reg RegistryRuns.dir] in Hstep.
  destruct c; unfold o in Hstep; cbn [subscriber_call].
  - injection Hstep as <- <-. exists (register (registry e) key), d. split; [by destruct e|]. split; [done|apply simple_subsumed].
  - rewrite activate_bounded in Hstep. injection Hstep as <- <-. exists (Registry.activate (HP := store_provider slots) (segment_store e) (registry e) key).1, d.
    split; [|split; [exact Hw|apply activate_subsumed]]. unfold activate_subscriber. by destruct (Registry.activate _ _ _).
  - injection Hstep as <- <-. eexists _, d. rewrite with_registry_set. split; [done|]. split; [done|apply simple_subsumed].
  - pose proof (unregister_subsumed (stored_counts (segment_store e)) fails (registry e) d key) as Hsub.
    destruct (unregister fails (registry e) d key) as [[r d'] res]. injection Hstep as <- <-. by exists r, d'.
  - change (poll_next_bundle p (registry e) key)
      with (poll_next_bundle (HP := store_provider slots) (segment_store e) (registry e) key) in Hstep.
    unfold engine_poll_next_bundle. destruct (poll_next_bundle _ _ _) as [[r res]|] eqn:Hpoll; [|done].
    cbn in *. injection Hstep as <- <-. exists r, d. split; [done|]. split; [done|by eapply poll_subsumed].
  - change (claim_bundle p (registry e) key br)
      with (claim_bundle (HP := store_provider slots) (segment_store e) (registry e) key br) in Hstep.
    unfold engine_claim_bundle. destruct (claim_bundle _ _ _ _) as [[r res]|] eqn:Hclaim; [|done].
    cbn in *. injection Hstep as <- <-. exists r, d. split; [done|]. split; [done|by eapply claim_bundle_subsumed].
  - unfold ack in *. cbn in Hstep |- *. destruct (on_resolved _ _ _ _) as [r|] eqn:Hres; [|done]. cbn in *. injection Hstep as <- <-.
    exists r, d. split; [done|]. split; [done|by eapply resolution_subsumed].
  - unfold reject in *. cbn in Hstep |- *. destruct (on_resolved _ _ _ _) as [r|] eqn:Hres; [|done]. cbn in *. injection Hstep as <- <-.
    exists r, d. split; [done|]. split; [done|by eapply resolution_subsumed].
  - injection Hstep as <- <-. eexists _, d. rewrite with_registry_set. split; [done|]. split; [done|apply release_subsumed].
  - injection Hstep as <- <-. eexists _, d. rewrite with_registry_set. split; [done|]. split; [done|].
    unfold drop_handle. destruct (handle_resolved h); [done|apply release_subsumed].
Qed.

Lemma call_step c e d acks k k2 parts live seen :
  engine_ok e acks k k2 parts live seen → next_segment_seq e < 2 ^ 64 → call_valid c →
  ∃ e' d', subscriber_call c e d = Some (e', d') ∧ engine_ok e' acks k k2 parts live seen ∧ advances 0 e e' parts parts.
Proof.
  intros Hok Hn Hc. destruct (call_registry c e d (ok_registry Hok) (ok_bounded Hok Hn) Hc) as (r & d' & Hcall & Hr & Hsub).
  exists (e <| registry := r |>), d'. split_and!; [done|by apply registry_ok|]. by destruct e; apply advances_refl.
Qed.

End runs.
End EngineRuns.
