(* ===== verification/EngineReplay.v ===== *)
(** * Replay of the log

    When an engine is opened it reads the log from the cursor and appends the
    bundles to the open segment, finalizing segments on the way, which moves the
    cursor and purges the log that is being read. *)
From S2P Require Import Prelude Bytes Files BTreeMap SubscriberTypes Progress SubscriberState Registry RegistryRuns.
From S2P Require Import WalFormat WalReader Budget WalWriter WalLog WalRuns WalRecovery.
From S2P Require Import Arrow SegmentTypes Dictionaries OpenSegment SegmentFile SegmentRoundtrip SegmentStore.
From S2P Require Import EngineRegistry EngineLog WalIter Engine EngineRetention EngineState EngineRuns.

Local Open Scope Z_scope.

Module EngineReplay.
Import WalReader.
Import WalWriter.
Import WalLog.
Import WalRuns.
Import Arrow.
Import SegmentTypes.
Import OpenSegment.
Import SegmentFile.
Import SegmentStore.
Import EngineLog.
Import WalIter.
Import Engine.
Import EngineRetention.
Import EngineState.
Import EngineRuns.

Section replay.
Context `{HL : ArrowLaws} (crc32 : list Z → Z) (crc32_ok : ∀ l, u32_ok (crc32 l)).
Context (slots : ManifestEntry → list (Z * SlotChunkRef)) (slots_perm : ∀ e, slots e ≡ₚ map_to_list (slot_refs e)).
Context (stream_encode : RecordBatch → option (list Z)) (stream_decode : list Z → option RecordBatch).

#[local] Hint Extern 0 (WalFormat.RecordBatch _) => exact (batch_encoder stream_encode) : typeclass_instances.

(** The log of the engine. *)
Definition wal (e : QuiverEngine) : WalWriter * Dir := (wal_writer e, wal_dir e).

(** Finalization reaches the log only to store the cursor. *)
Lemma finalize_wal io e e' r :
  fin_cursor io = cursor_fine → finalize_segment_impl crc32 slots io e = Some (e', r) →
  wal e' = wal e ∨ is_empty (open_segment e) = false ∧
    ∃ n r', persist_cursor crc32 cursor_fine (segment_cursor e) (budget_add n (wal_writer e), wal_dir e) = (wal e', r').
Proof.
  intros Hio. unfold finalize_segment_impl. rewrite Hio. destruct (is_empty (open_segment e)); [intros [= <- <-]; by left|].
  destruct e as [cfg mt w d seg cur nx cw cs fd di ex ei pr st rg]. cbn -[budget_add write_segment register_new_segment].
  destruct (write_segment _ _ _ _ _ _) as [st1 [[n crc]|err]]; [|intros [= <- <-]; by left].
  unfold with_wal. cbn -[budget_add write_segment register_new_segment].
  destruct (persist_cursor _ _ _ _) as [[w' d'] [[]|err]] eqn:Hper; cbn -[budget_add write_segment register_new_segment];
    [|intros [= <- <-]; right; split; [done|]; exists n, (Err err); exact Hper].
  destruct (register_new_segment _ _ _ _) as [st2 r2]. intros Hn. right. split; [done|]. exists n, (Ok tt). rewrite Hper. f_equal.
  by destruct r2; cbn in Hn; [injection Hn as <- <-..|].
Qed.

Section loop.
Context (logs : WalFormat.RecordBundle RecordBatch → RecordBundle → Prop).
Context (acks : list (WalFormat.WalOffset * WalFormat.RecordBundle RecordBatch)).

Abbreviation engine_ok := (engine_ok crc32 slots stream_encode logs).
Abbreviation awaits := (awaits crc32).

Lemma finalize_awaits io e e' r it k k2 parts live seen n :
  engine_ok e acks k k2 parts live seen → zlen acks ≤ 2 ^ 32 → (k2 ≤ n ≤ length acks)%nat → fin_cursor io = cursor_fine →
  finalize_segment_impl crc32 slots io e = Some (e', r) → awaits (wal e) it acks n → awaits (wal e') it acks n.
Proof.
  intros Hok Hz Hn Hio Hf Haw. destruct (finalize_wal _ _ _ _ Hio Hf) as [->|(Hne & m & r' & Hper)]; [done|].
  rewrite (ok_empty Hok) in Hne. apply bool_decide_eq_false in Hne. destruct (ok_cursor Hok Hne) as [Hk Hc].
  eapply awaits_persist; [done|by apply awaits_budget|done| |exact Hper]. rewrite Hc. cbn [safe_offset].
  destruct (decide (k2 = n)) as [->|]; [done|]. destruct (log_entries crc32 _ acks (ready_holds _ _ _ _ (ok_log Hok))) as (p & fs & act & _ & Hrec & _).
  pose proof (end_position_lt _ _ k2 n Hrec). lia.
Qed.

Lemma segment_awaits now check io e e' r it k n parts live seen b x :
  engine_ok e acks k n parts live seen → acks !! n = Some x → logs x.2 b → zlen acks ≤ 2 ^ 32 → fin_cursor io = cursor_fine →
  append_to_segment_and_maybe_finalize crc32 slots now check io b (Some (cursor_at acks (S n))) e = Some (e', r) →
  awaits (wal e) it acks (S n) → awaits (wal e') it acks (S n).
Proof.
  intros Hok Hx Hlogs Hz Hio Happ Haw.
  pose proof (appended_ok crc32 slots stream_encode logs now e _ acks k n n parts live seen b x Hok (le_n _) Hx Hlogs eq_refl) as Hok'.
  apply lookup_lt_Some in Hx. unfold append_to_segment_and_maybe_finalize in Happ.
  assert (open_segment (e <| segment_cursor := cursor_at acks (S n) |>) = open_segment e) as Hos by (by destruct e). rewrite Hos in Happ.
  destruct (append now (open_segment e) b) as [seg [entry|err]]; cbn [fst snd is_ok] in *; [|injection Happ as <- <-; by destruct e].
  destruct (should_finalize _ _ _); [|injection Happ as <- <-; by destruct e].
  eapply finalize_awaits; [exact Hok'|done| |exact Hio|exact Happ|by destruct e]. lia.
Qed.

(** The cursor moves past an entry that is not appended. *)
Lemma passed_ok e k n parts live seen :
  engine_ok e acks k n parts live seen → (n < length acks)%nat →
  engine_ok (e <| segment_cursor := cursor_at acks (S n) |>) acks k (S n) parts live seen.
Proof.
  intros [Hl Hr Hc (l & Hsub & Hall) Ho Hnum Hf Hsv Hst Hpd Hp Hsz Hrg Hct Hnd] Hn.
  destruct e. cbn -[append_all] in *. split; try done.
  - cbn. lia.
  - intros _. split; [lia|done].
  - exists l. split; [|done]. etrans; [exact Hsub|]. apply (fmap_sublist snd), sublist_take_mono. lia.
Qed.

Lemma cursor_after_at e k n parts live seen a :
  engine_ok e acks k n parts live seen → acks !! n = Some a → cursor_after (record_of a) = cursor_at acks (S n).
Proof.
  intros Hok Ha. destruct (log_entries crc32 _ acks (ready_holds _ _ _ _ (ok_log Hok))) as (p & fs & act & _ & Hrec & Hnum & _).
  destruct a as [o w]. pose proof (numbered_ack _ _ _ _ _ Hrec Hnum Ha) as Hseq.
  unfold cursor_after, cursor_from_offset, cursor_at, end_position. cbn [record_of WalFormat.offset].
  rewrite (take_S_r _ _ _ Ha), last_snoc. f_equal. lia.
Qed.

(** ** The loop *)

Section entries.
Context (io : replay_io) (cutoff : option Z).

Definition expired_ack (a : WalFormat.WalOffset * WalFormat.RecordBundle RecordBatch) : bool :=
  from_option (λ c, Z.max 0 (WalFormat.ingestion_ts_nanos (record_of a)) <? c) false cutoff.

(** The bundle that is appended for an accepted bundle. *)
Definition replay_of (a : WalFormat.WalOffset * WalFormat.RecordBundle RecordBatch) : option RecordBundle :=
  if expired_ack a then None else with_counts io <$> from_wal_entry stream_decode (record_of a).

Definition replays (n : nat) : list RecordBundle := omap replay_of (drop n acks).

Definition expirations (n : nat) : Z := zlen (List.filter expired_ack (drop n acks)).

(** Segments take all of these bundles. *)
Definition accepts (bs : list RecordBundle) : Prop :=
  ∀ l now b, l.*2 ++ [b] `sublist_of` bs → is_ok (append now (append_all open_new l).1 b).2.

Context (acks_bound : zlen acks ≤ 2 ^ 32) (replay_logs : ∀ a b, a ∈ acks → replay_of a = Some b → logs a.2 b).
Context (entries_fine : ∀ i, finalize_fine (entry_finalize io i)).

Lemma count_expired_same entry e : retains e (count_expired stream_decode io entry e) ∧
  segment_cursor (count_expired stream_decode io entry e) = segment_cursor e ∧
  segment_store (count_expired stream_decode io entry e) = segment_store e ∧ wal (count_expired stream_decode io entry e) = wal e.
Proof.
  unfold count_expired. destruct (from_wal_entry _ _) as [b|]; [|done].
  destruct (item_counter io ≫= _) as [x|]; [destruct (0 <? x)|]; destruct (byte_counter io ≫= _) as [y|];
    by destruct e; split_and!; try done; apply retains_same.
Qed.

Lemma replays_S n a : acks !! n = Some a → replays n = option_list (replay_of a) ++ replays (S n).
Proof. intros Ha. unfold replays. rewrite (drop_S _ _ _ Ha). cbn. by destruct (replay_of a). Qed.

Lemma expirations_S n a :
  acks !! n = Some a → expirations n = (if expired_ack a then 1 else 0) + expirations (S n).
Proof.
  intros Ha. unfold expirations. rewrite (drop_S _ _ _ Ha). cbn [List.filter]. destruct (expired_ack a); [|done].
  rewrite zlen_cons. lia.
Qed.

(** What the rest of the replay achieves. *)
Definition replays_rest (n : nat) (e e' : QuiverEngine) (k k' : nat) (parts parts' : list (Z * list RecordBundle))
    (live live' seen : list RecordBundle) : Prop :=
  engine_ok e' acks k' (length acks) parts' live' (seen ++ replays n) ∧
  contents parts' live' = contents parts live ++ replays n ∧ advances (zlen (replays n)) e e' parts parts' ∧
  (replays n = [] → k' = k ∧ live' = live ∧
    segment_cursor e' = if decide (n < length acks)%nat then cursor_at acks (length acks) else segment_cursor e).

(** The entry is passed. *)
Lemma replays_pass n e e1 e' k k' parts parts' live live' seen :
  replays n = replays (S n) → (n < length acks)%nat →
  config e1 = config e → options (wal_writer e1) = options (wal_writer e) → next_segment_seq e1 = next_segment_seq e →
  segment_store e1 = segment_store e → segment_cursor e1 = cursor_at acks (S n) →
  replays_rest (S n) e1 e' k k' parts parts' live live' seen → replays_rest n e e' k k' parts parts' live live' seen.
Proof.
  unfold replays_rest. intros -> Hn Hc Ho Hx Hs Hcur (Hok & Hcont & [A1 AO A2 A3 A4] & Hnil). split_and!; [done..| |].
  - split; [congruence|congruence|lia|by rewrite <-Hs|done].
  - intros Hr. destruct (Hnil Hr) as (-> & -> & ->). split_and!; [done..|]. rewrite (decide_True _ _ Hn), Hcur.
    case_decide; [done|]. f_equal. lia.
Qed.

(** Nothing is left. *)
Lemma replays_end e k parts live seen :
  engine_ok e acks k (length acks) parts live seen →
  replays (length acks) = [] ∧ expirations (length acks) = 0 ∧ replays_rest (length acks) e e k k parts parts live live seen.
Proof.
  intros Hok. assert (replays (length acks) = []) as Hrep by (unfold replays; by rewrite drop_ge). split; [done|].
  split; [unfold expirations; by rewrite drop_ge|]. unfold replays_rest. rewrite Hrep, !app_nil_r. change (zlen []) with 0.
  split_and!; [done..|by apply advances_refl|]. intros _. rewrite decide_False by lia. done.
Qed.

(** The entry is appended to the open segment. *)
Lemma replay_append it' i e n k parts live seen a b :
  engine_ok e acks k n parts live seen → acks !! n = Some a → awaits (wal e) it' acks (S n) → replay_of a = Some b →
  next_segment_seq e + 1 < 2 ^ 63 → all_writable crc32 slots (seen ++ [b]) → accepts (seen ++ [b]) →
  ∃ e1 k1 parts1 live1,
    append_to_segment_and_maybe_finalize crc32 slots (entry_now io i) (entry_check io i) (entry_finalize io i) b
      (Some (cursor_at acks (S n))) e = Some (e1, Ok tt) ∧
    engine_ok e1 acks k1 (S n) parts1 live1 (seen ++ [b]) ∧ contents parts1 live1 = contents parts live ++ [b] ∧
    advances 1 e e1 parts parts1 ∧ next_ack crc32 (wal e1) it' acks (S n).
Proof.
  intros Hok Ha Haw Hb Hnx Hwr Hacc. pose proof (lookup_lt_Some _ _ _ Ha) as Hlt.
  assert (logs a.2 b) as Hlogs by (apply replay_logs; [by eapply list_elem_of_lookup_2|done]).
  destruct (segment_step crc32 crc32_ok slots slots_perm stream_encode logs (entry_now io i) (entry_check io i) (entry_finalize io i)
    e acks k n n parts live seen b a Hok) as (e1 & r & k1 & parts1 & live1 & Hstep & Hok1 & Hcont1 & Hadv1 & Hres);
    [done..|lia|done|apply entries_fine|].
  destruct Hres as [[-> _]|(err & -> & Herr)].
  - exists e1, k1, parts1, live1. split_and!; [done..|]. apply awaits_next; [done|].
    eapply segment_awaits; [exact Hok|exact Ha|exact Hlogs|done|apply entries_fine|exact Hstep|done].
  - exfalso. destruct (ok_open Hok) as (l & Hl & Hsub). specialize (Hacc l (entry_now io i) b).
    rewrite Hl in Hacc. cbn [fst] in Hacc. rewrite Herr in Hacc. apply Hacc. by apply sublist_app.
Qed.

Lemma replay_loop fuel : ∀ it i replayed skipped e n k parts live seen,
  engine_ok e acks k n parts live seen → next_ack crc32 (wal e) it acks n → (length acks - n < fuel)%nat →
  next_segment_seq e + zlen (replays n) < 2 ^ 63 → all_writable crc32 slots (seen ++ replays n) → accepts (seen ++ replays n) →
  ∃ e' k' parts' live',
    replay_entries crc32 slots stream_decode fuel io cutoff it i replayed skipped e =
      Some (e', Ok (replayed + zlen (replays n), skipped + expirations n)) ∧
    replays_rest n e e' k k' parts parts' live live' seen.
Proof.
  induction fuel as [|fuel IH]; intros it i replayed skipped e n k parts live seen Hok Hnext Hfuel Hnx Hwr Hacc; [lia|].
  cbn [replay_entries]. pose proof (ok_range Hok) as Hr. unfold next_ack in Hnext. destruct (acks !! n) as [a|] eqn:Ha.
  2: { apply lookup_ge_None in Ha. assert (n = length acks) as -> by lia. destruct (replays_end e k parts live seen Hok) as (-> & -> & Hend).
    change (wal e).2 with (wal_dir e) in Hnext. destruct (multi_next _ _ _) as [it' [|]]; [done|].
    exists e, k, parts, live. change (zlen []) with 0. by rewrite !Z.add_0_r. }
  destruct Hnext as (it' & Hm & Haw). change (wal e).2 with (wal_dir e) in Hm. rewrite Hm. pose proof (lookup_lt_Some _ _ _ Ha) as Hlt.
  rewrite (cursor_after_at e k n parts live seen a Hok Ha). fold (expired_ack a).
  pose proof (replays_S n a Ha) as HS. pose proof (expirations_S n a Ha) as HE. unfold replay_of in HS.
  assert (∀ e1 skip', retains e e1 → wal e1 = wal e → segment_store e1 = segment_store e → replays n = replays (S n) →
    ∃ e' k' parts' live', replay_entries crc32 slots stream_decode fuel io cutoff it' (S i) replayed skip'
        (e1 <| segment_cursor := cursor_at acks (S n) |>) = Some (e', Ok (replayed + zlen (replays n), skip' + expirations (S n))) ∧
      replays_rest n e e' k k' parts parts' live live' seen) as Hpass.
  { intros e1 skip' Hret Hw Hs Hrep. pose proof (retains_ok _ _ _ _ _ _ _ _ _ _ _ _ Hok Hret) as Hok1. rewrite Hrep in *.
    destruct (IH it' (S i) replayed skip' (e1 <| segment_cursor := cursor_at acks (S n) |>) (S n) k parts live seen)
      as (e' & k' & parts' & live' & He & Hrest); [by apply passed_ok| |lia| |done..|].
    - apply awaits_next; [done|]. by replace (wal _) with (wal e) by (rewrite <-Hw; by destruct e1).
    - destruct Hret. by destruct e1; cbn in *; subst.
    - exists e', k', parts', live'. split; [done|]. injection Hw as Hww _.
      eapply replays_pass; [done|lia|..|exact Hrest]; destruct Hret; destruct e1; try done. by cbn in *; subst. }
  destruct (expired_ack a) eqn:Hexp.
  - cbn [option_list app] in HS. rewrite HE. replace (skipped + (1 + expirations (S n))) with (skipped + 1 + expirations (S n)) by lia.
    destruct (count_expired_same (record_of a) e) as (Hret & _ & Hst & Hw).
    destruct (item_counter io), (byte_counter io); by apply Hpass.
  - destruct (from_wal_entry stream_decode (record_of a)) as [b|] eqn:Hb; cbn in HS.
    2: { rewrite HE, Z.add_0_l. by apply Hpass. }
    clear Hpass. set (b' := with_counts io b) in *. unfold replays_rest. rewrite HE, HS. rewrite HS in Hnx, Hwr, Hacc.
    rewrite zlen_cons in Hnx |- *. pose proof (zlen_nonneg (replays (S n))).
    replace (seen ++ b' :: replays (S n)) with ((seen ++ [b']) ++ replays (S n)) in * by (by rewrite <-app_assoc).
    destruct (replay_append it' i e n k parts live seen a b') as (e1 & k1 & parts1 & live1 & Hstep & Hok1 & Hcont1 & Hadv1 & Hnext);
      [done..|unfold replay_of; by rewrite Hexp, Hb|lia| | |].
    { eapply all_writable_sub; [|exact Hwr]. by apply sublist_inserts_r. }
    { intros l now x Hl. apply Hacc. etrans; [exact Hl|]. by apply sublist_inserts_r. }
    rewrite Hstep. cbn [mbind option_bind].
    replace (replayed + (zlen (replays (S n)) + 1)) with (replayed + 1 + zlen (replays (S n))) by lia. rewrite Z.add_0_l.
    destruct (IH it' (S i) (replayed + 1) skipped e1 (S n) k1 parts1 live1 (seen ++ [b'])) as (e2 & k2 & parts2 & live2 & He & Hok2 & Hcont2 & Hadv2 & Hnil);
      [done|done|lia| |done..|].
    { pose proof (adv_next _ _ _ _ _ Hadv1). lia. }
    exists e2, k2, parts2, live2. split_and!; [done..| | |done].
    + rewrite Hcont2, Hcont1. by rewrite <-app_assoc.
    + rewrite Z.add_comm. by apply (advances_trans 1 _ e e1 e2 parts parts1 parts2).
Qed.

End entries.
End loop.

(** ** The whole replay *)

(** The lengths of distinct files. *)
Lemma fold_lengths (d : Dir) (l : list (string * nat)) :
  NoDup l.*1 → (∀ path m, (path, m) ∈ l → ∃ c, d !! path = Some c ∧ (m ≤ length c)%nat) →
  (sum_list l.*2 ≤ map_fold (λ _ content n, length content + n)%nat 0%nat d)%nat.
Proof.
  revert d. induction l as [|[path m] l IH]; intros d; cbn; [lia|]. intros [Hn Hnd]%NoDup_cons Hl.
  destruct (Hl path m) as (c & Hc & Hm); [by left|].
  rewrite (map_fold_delete_L _ _ path c d) by (done || lia).
  specialize (IH (delete path d) Hnd). enough (sum_list l.*2 ≤ map_fold (λ _ content n, length content + n)%nat 0%nat (delete path d))%nat by lia.
  apply IH. intros path' m' Hin. destruct (Hl path' m') as (c' & Hc' & Hm'); [by right|]. exists c'. split; [|done].
  rewrite lookup_delete_ne; [done|]. intros ->. apply Hn, list_elem_of_fmap. by exists (path', m').
Qed.

Lemma length_size es : Z.of_nat (length es) ≤ size es.
Proof. induction es as [|e es IH]; [done|]. rewrite size_cons. pose proof (frame_len_pos e). cbn [length]. lia. Qed.

Lemma replay_fuel_enough w d purged fs act :
  wal_inv crc32 w d purged fs act → (length (entries_of fs ++ act) < replay_fuel d)%nat.
Proof.
  intros Hi. pose proof (inv_layout _ _ _ _ _ _ Hi) as Hl. pose proof (lay_hash _ _ _ _ _ _ Hl) as Hh.
  assert (∀ start es, (length es ≤ length (file_content crc32 (cfg_hash (options w)) start es))%nat) as Hlen.
  { intros start es. pose proof (file_content_length crc32 _ start es Hh). pose proof (length_size es). unfold zlen in *. lia. }
  assert (NoDup (lf_path <$> fs)) as Hnd.
  { pose proof (lay_ids _ _ _ _ _ _ Hl) as Hs. pose proof (lay_u64 _ _ _ _ _ _ Hl) as Hu. clear -Hs Hu.
    induction Hs as [|f fs Hs IH Hall]; [constructor|]. apply Forall_cons in Hu as [Hf Hu]. cbn. constructor; [|by apply IH].
    intros (g & Heq & Hg)%list_elem_of_fmap. rewrite Forall_forall in Hall, Hu. specialize (Hall g Hg).
    apply (f_equal rotated_name) in Heq. unfold lf_path in Heq. rewrite !rotated_name_path in Heq by auto. injection Heq. lia. }
  pose proof (fold_lengths d ((WalFormat.WAL_FILENAME, length act) :: ((λ f, (lf_path f, length (lf_entries f))) <$> fs))) as Hsum.
  unfold replay_fuel. apply Nat.lt_succ_r. etrans; [|apply Hsum].
  - rewrite length_app, Nat.add_comm. cbn. apply Nat.add_le_mono_l. rewrite <-list_fmap_compose. clear.
    induction fs as [|f fs IH]; [done|]. rewrite entries_of_cons, length_app. cbn in *. lia.
  - cbn. rewrite <-list_fmap_compose. apply NoDup_cons. split; [|done].
    intros (f & Heq & Hf)%list_elem_of_fmap. pose proof (lay_u64 _ _ _ _ _ _ Hl) as Hu. rewrite Forall_forall in Hu.
    by apply (active_not_rotated (lf_id f) (Hu f Hf)).
  - intros path m [[= -> ->]|(f & [= -> ->] & Hf)%list_elem_of_fmap]%elem_of_cons; eexists; (split; [by apply Hl|apply Hlen]).
Qed.

Lemma slice_take a b n (l : list Z) : (b ≤ n)%nat → slice a b (take n l) = slice a b l.
Proof. intros Hb. unfold slice. rewrite skipn_firstn_comm, take_take. f_equal. lia. Qed.

(** The decoder reads no further than the length that is stored. *)
Lemma sidecar_decode_take n l :
  Z.of_nat n = from_le_bytes (slice 10 12 l) → (WalFormat.SIDECAR_MIN_LEN ≤ n ≤ length l)%nat →
  WalFormat.sidecar_decode crc32 (take n l) = WalFormat.sidecar_decode crc32 l.
Proof.
  intros Hn Hlen. unfold WalFormat.sidecar_decode, WalFormat.SIDECAR_MIN_LEN, WalFormat.SIDECAR_V1_LEN in *.
  rewrite !slice_take by lia. rewrite <-Hn. unfold zlen. rewrite length_take, Nat.min_l by lia.
  rewrite !(proj2 (Nat.ltb_ge _ _)), (proj2 (Z.ltb_ge (Z.of_nat n) (Z.of_nat n))),
    (proj2 (Z.ltb_ge (Z.of_nat (length l)) (Z.of_nat n))) by lia.
  rewrite Nat2Z.id, take_take, Nat.min_l by lia. destruct (negb _); [done|].
  destruct (_ =? WalFormat.CURSOR_SIDECAR_VERSION).
  - destruct (Z.eqb_spec (Z.of_nat n) (Z.of_nat 24)); [|done]. by rewrite slice_take by lia.
  - destruct (_ <? from_le_bytes _); [|done]. destruct (Z.ltb_spec (Z.of_nat n) (Z.of_nat 24)); [done|].
    by rewrite slice_take by lia.
Qed.

Lemma sidecar_position_load d c : WalFormat.load_cursor_state crc32 d = Ok c → sidecar_position crc32 d = c.
Proof.
  unfold WalFormat.load_cursor_state, WalFormat.sidecar_read_from, sidecar_position.
  destruct (d !! WalFormat.CURSOR_SIDECAR_FILENAME) as [l|]; [|by intros [= <-]].
  unfold WalFormat.sidecar_read_size, read_exact. destruct (Nat.leb_spec WalFormat.SIDECAR_MIN_LEN (length l)) as [Hl|Hl].
  2: { intros [= <-]. unfold WalFormat.sidecar_decode. by rewrite (proj2 (Nat.ltb_lt _ _)). }
  rewrite !slice_take by (unfold WalFormat.SIDECAR_MIN_LEN; lia).
  destruct (negb _) eqn:Hm; cbn [result_bind].
  { intros [= <-]. unfold WalFormat.sidecar_decode. by rewrite (proj2 (Nat.ltb_ge _ _)), Hm. }
  set (n := from_le_bytes (slice 10 12 l)). destruct (Z.ltb_spec n (Z.of_nat WalFormat.SIDECAR_MIN_LEN)) as [Hn|Hn]; cbn [result_bind].
  { intros [= <-]. unfold WalFormat.sidecar_decode. rewrite (proj2 (Nat.ltb_ge _ _)), Hm by done. cbv zeta. fold n.
    destruct (zlen l <? n); [done|]. unfold WalFormat.SIDECAR_MIN_LEN, WalFormat.SIDECAR_V1_LEN in *.
    destruct (_ =? _); [rewrite (proj2 (Z.eqb_neq _ _)) by lia; done|].
    destruct (_ <? from_le_bytes _); [rewrite (proj2 (Z.ltb_lt _ _)) by lia; done|done]. }
  destruct (Nat.leb_spec (Z.to_nat n) (length l)) as [Hle|Hlt].
  - rewrite sidecar_decode_take by (fold n; lia). destruct (WalFormat.sidecar_decode crc32 l) as [pos|err] eqn:Hd; [by intros [= ->]|].
    destruct err; try congruence. case_match; congruence.
  - intros [= <-]. unfold WalFormat.sidecar_decode. rewrite (proj2 (Nat.ltb_ge _ _)), Hm by done. cbv zeta. fold n.
    rewrite (proj2 (Z.ltb_lt (zlen l) n)); [done|]. unfold zlen. lia.
Qed.

Section whole.
Context (logs : WalFormat.RecordBundle RecordBatch → RecordBundle → Prop).
Context (acks : list (WalFormat.WalOffset * WalFormat.RecordBundle RecordBatch)).
Context (io : replay_io) (acks_bound : zlen acks ≤ 2 ^ 32).

Abbreviation engine_ok := (engine_ok crc32 slots stream_encode logs).

(** Entries before this time have expired. *)
Definition replay_cutoff (cfg : EngineConfig) : option Z :=
  (λ age, if age <=? replay_now io then replay_now io - age else 0) <$> max_age cfg.

(** The cursor is stored when all that was read has expired. *)
Lemma persist_expired e k k2 parts seen :
  engine_ok e acks k k2 parts [] seen → (k < k2)%nat → segment_cursor e = cursor_at acks k2 → replay_cursor io = cursor_fine →
  ∃ e', with_wal (persist_cursor crc32 (replay_cursor io) (segment_cursor e)) e = (e', Ok tt) ∧
    engine_ok e' acks k2 k2 parts [] seen ∧ advances 0 e e' parts parts.
Proof.
  intros Hok Hk Hcur Hio. pose proof (ok_range Hok) as Hr. unfold with_wal. rewrite Hio, Hcur.
  destruct (persist_cursor _ _ _ _) as [[w d] r] eqn:Hper.
  destruct (log_persist crc32 crc32_ok _ acks k k2 (cursor_at acks k2) _ _ (ok_log Hok) ltac:(lia) acks_bound eq_refl eq_refl Hper) as (-> & Hlog & Hopt).
  eexists. split; [done|]. split; [|by destruct e; apply advances_refl].
  destruct Hok as [Hl _ Hc Hlg Ho Hnum Hf Hsv Hst Hpd Hp Hsz Hrg Hct Hnd]. destruct e. cbn -[append_all] in *.
  split; try done; [cbn; lia|]. exists []. split; [apply sublist_nil_l|constructor].
Qed.

(** There is fuel for the entries after the cursor. *)
Lemma unread_fuel e k k2 parts live seen :
  engine_ok e acks k k2 parts live seen → (length acks - k < replay_fuel (wal_dir e))%nat.
Proof.
  intros Hok. destruct (log_entries crc32 _ acks (ready_holds _ _ _ _ (ok_log Hok))) as (purged & fs & act & Hi & Hrec & _ & Hlen & _).
  pose proof (ready_cursor _ _ _ _ (ok_log Hok)) as Hcur. cbn [fst snd] in *. destruct (inv_cursor _ _ _ _ _ _ Hi) as [Hpc _].
  pose proof (replay_fuel_enough _ _ _ _ _ Hi) as Hfuel. pose proof Hrec as Hsplit.
  rewrite <-(take_drop k acks), fmap_app in Hsplit. apply place_split in Hsplit as (h & es & Hh & H1 & H2).
  rewrite Hcur, (place_end _ _ H1) in Hpc.
  destruct (app_size_split_ge h es purged (entries_of fs ++ act)) as (m & -> & Hrest); [done|lia|].
  apply (f_equal length) in Hrec, H1. rewrite length_fmap, place_length in Hrec, H1. rewrite !length_app in *. rewrite length_take in H1. lia.
Qed.

Lemma replay_wal_total e k parts seen :
  engine_ok e acks k k parts [] seen → wal_names io ≡ₚ (map_to_list (wal_dir e)).*1 →
  (∀ a b, a ∈ acks → replay_of io (replay_cutoff (config e)) a = Some b → logs a.2 b) →
  (∀ i, finalize_fine (entry_finalize io i)) → replay_cursor io = cursor_fine →
  let bs := replays acks io (replay_cutoff (config e)) k in
  next_segment_seq e + zlen bs < 2 ^ 63 → all_writable crc32 slots (seen ++ bs) → accepts (seen ++ bs) →
  ∃ e' k' parts' live', replay_wal crc32 slots stream_decode io e = Some (e', Ok (zlen bs)) ∧
    engine_ok e' acks k' (length acks) parts' live' (seen ++ bs) ∧
    contents parts' live' = contents parts [] ++ bs ∧ advances (zlen bs) e e' parts parts'.
Proof.
  intros Hok Hnames Hlogs Hfin Hrc bs Hnx Hwr Hacc. unfold replay_wal. pose proof (ok_range Hok) as Hr.
  destruct (log_entries crc32 _ acks (ready_holds _ _ _ _ (ok_log Hok))) as (purged & fs & act & Hi & Hrec & _).
  pose proof (ready_cursor _ _ _ _ (ok_log Hok)) as Hcur. cbn [fst snd] in *.
  destruct (start_next crc32 crc32_ok (wal e) acks k (wal_names io)) as (files & Hopen & Hend & Hnext);
    [apply (ok_log Hok)|done|lia|cbn; lia|].
  change (wal e).2 with (wal_dir e) in Hopen. rewrite Hopen, Hend.
  rewrite (sidecar_position_load _ _ (inv_sidecar _ _ _ _ _ _ Hi)), Hcur.
  assert (end_position (take k acks) ≤ end_position acks) as Hle.
  { destruct (decide (k = length acks)) as [->|]; [by rewrite take_ge by done|].
    rewrite <-(take_ge acks (length acks)) at 2 by done. pose proof (end_position_lt _ _ k (length acks) Hrec). lia. }
  rewrite Z.min_l by done. fold (replay_cutoff (config e)).
  destruct (replay_loop logs acks io (replay_cutoff (config e)) acks_bound
    Hlogs Hfin (replay_fuel (wal_dir e)) _ 0%nat 0 0 e k k parts [] seen Hok Hnext) as (e1 & k' & parts' & live' & Hloop & Hok1 & Hcont & Hadv & Hnil);
    [|done..|].
  { by eapply unread_fuel. }
  fold bs in Hok1, Hcont, Hadv, Hnil, Hloop. rewrite Hloop. cbn [mbind option_bind]. rewrite !Z.add_0_l.
  destruct (Z.ltb_spec 0 (expirations acks (replay_cutoff (config e)) k)) as [Hsk|]; [|by exists e1, k', parts', live'].
  set (e2 := e1 <| expired ::= _ |>). assert (retains e1 e2) as Hret by (by destruct e1; apply retains_same).
  pose proof (retains_ok _ _ _ _ _ _ _ _ _ _ _ _ Hok1 Hret) as Hok2.
  assert (advances (zlen bs) e e2 parts parts') as Hadv2 by (by destruct e1, Hadv).
  destruct (Z.eqb_spec (zlen bs) 0) as [Hz|]; [|by exists e2, k', parts', live'].
  assert (bs = []) as Hz0 by (destruct bs; [done|rewrite zlen_cons in Hz; pose proof (zlen_nonneg bs); lia]). destruct (Hnil Hz0) as (-> & -> & Hc).
  destruct (Nat.le_gt_cases (length acks) k) as [Hge|Hlt].
  { unfold expirations in Hsk. by rewrite drop_ge in Hsk by done. }
  rewrite decide_True in Hc by done.
  destruct (persist_expired e2 k (length acks) parts' (seen ++ bs) Hok2) as (e3 & -> & Hok3 & Hadv3); [lia|by destruct e1|done|].
  exists e3, (length acks), parts', []. split_and!; [done..|]. rewrite <-(Z.add_0_r (zlen bs)).
  by apply (advances_trans _ _ e e2 e3 parts parts' parts').
Qed.

End whole.
End replay.
End EngineReplay.
