(* ===== verification/EngineOpen.v ===== *)
(** * Opening an engine

    Opening scans the segment files, restores the registry and replays the log.
    The theorems on restarts are for an engine without progress files: what
    subscribers had resolved is the subject of the restart of the registry. *)
From S2P Require Import Prelude Bytes Files BTreeMap SubscriberTypes Progress SubscriberState Registry RegistryRuns.
From S2P Require Import WalFormat WalReader Budget WalWriter WalLog WalRuns WalRecovery.
From S2P Require Import Arrow SegmentTypes Dictionaries OpenSegment SegmentFile SegmentRoundtrip SegmentStore.
From S2P Require Import EngineRegistry EngineLog WalIter Engine EngineRetention EngineState EngineRuns EngineReplay.

Local Open Scope Z_scope.

Module EngineOpen.
Import SubscriberTypes.
Import Registry.
Import WalWriter.
Import WalRuns.
Import Budget.
Import Arrow.
Import SegmentTypes.
Import OpenSegment.
Import SegmentFile.
Import SegmentStore.
Import EngineRegistry.
Import EngineLog.
Import Engine.
Import EngineRetention.
Import EngineState.
Import EngineRuns.
Import EngineReplay.

Section opening.
Context `{HL : ArrowLaws} (crc32 : list Z → Z) (crc32_ok : ∀ l, u32_ok (crc32 l)).
Context (slots : ManifestEntry → list (Z * SlotChunkRef)) (slots_perm : ∀ e, slots e ≡ₚ map_to_list (slot_refs e)).
Context (stream_encode : RecordBatch → option (list Z)) (stream_decode : list Z → option RecordBatch).
Context (order : Registry → list SubscriberId) (order_keys : ∀ r, key_order r (order r)).

#[local] Hint Extern 0 (WalFormat.RecordBatch _) => exact (batch_encoder stream_encode) : typeclass_instances.
#[local] Hint Extern 0 (SegmentProvider SegmentStore _) => exact (store_provider slots) : typeclass_instances.

(** ** The scan of the segment files *)

(** What is known of the highest number after a scan. *)
Definition highest_bounds (h h' : option Z) (seqs : list Z) : Prop :=
  (∀ seq, h = Some seq ∨ seq ∈ seqs → ∃ m, h' = Some m ∧ seq ≤ m) ∧ (∀ m, h' = Some m → h = Some m ∨ m ∈ seqs).

Lemma scan_served cutoff l : ∀ st b acc,
  (∀ e, e ∈ l → ∀ m, ∃ h, handle_open crc32 m (files st !! entry_seq e) = Return h) →
  ∃ st' b' acc', scan_each crc32 cutoff l (st, b) acc = Return ((st', b'), acc') ∧
    files st' = files st ∧ pending_deletes st' = pending_deletes st ∧ deleted acc' = deleted acc ∧
    (∀ seq h, segments st' !! seq = Some h → segments st !! seq = Some h ∨ ∃ m, handle_open crc32 m (files st !! seq) = Return h) ∧
    (∀ seq, is_Some (segments st !! seq) ∨ seq ∈ entry_seq <$> l → is_Some (segments st' !! seq)) ∧
    highest_bounds (highest_seen acc) (highest_seen acc') (entry_seq <$> l).
Proof.
  induction l as [|e l IH]; intros st b acc Hl; cbn [scan_each].
  { exists st, b, acc. split_and!; try done; [by left|by intros seq [?|?%elem_of_nil]|].
    split; [intros seq [?|?%elem_of_nil]; [|done]; exists seq; split; [done|lia]|by left]. }
  destruct (Hl e ltac:(by left) (entry_modified e)) as [h Hh]. unfold scan_one, register_existing_segment. rewrite Hh.
  cbn [outcome_bind]. set (st1 := set_segments <[entry_seq e := h]> st).
  set (hs := Some (from_option (λ h, Z.max h (entry_seq e)) (entry_seq e) (highest_seen acc))).
  destruct (IH st1 ((λ b, add b (file_size_bytes h)) <$> b)
    (mkScanResult (found acc ++ [(entry_seq e, bundle_count h)]) (deleted acc) hs)) as (st' & b' & acc' & Hscan & Hf & Hp & Hd & Hs1 & Hs2 & Hb1 & Hb2).
  { intros e' He'. apply Hl. by right. }
  exists st', b', acc'. split_and!; [exact Hscan|done..| | |].
  - intros seq h' Hh'. destruct (Hs1 seq h' Hh') as [Hq|Hq]; [|by right]. cbn in Hq.
    apply lookup_insert_Some in Hq as [[<- <-]|[_ Hq]]; [right; eauto|by left].
  - intros seq Hq. apply Hs2. cbn. rewrite lookup_insert_is_Some'. rewrite fmap_cons, elem_of_cons in Hq. naive_solver.
  - cbn [highest_seen] in Hb1, Hb2. split.
    + intros seq Hq. rewrite fmap_cons, elem_of_cons in Hq. destruct (Hb1 (default 0 hs)) as (m & Hm & Hle); [by left|].
      destruct Hq as [Hq|[->|Hq]]; [|exists m; split; [done|]|by apply Hb1; right].
      * exists m. split; [done|]. unfold hs in Hle. rewrite Hq in Hle. cbn in Hle. lia.
      * unfold hs in Hle. destruct (highest_seen acc); cbn in Hle; lia.
    + intros m Hm. rewrite fmap_cons, elem_of_cons. destruct (Hb2 m Hm) as [Hq|]; [|by right; right].
      unfold hs in Hq. injection Hq as <-. destruct (highest_seen acc) as [x|]; cbn; [|by right; left].
      destruct (Z.max_spec x (entry_seq e)) as [[_ ->]|[_ ->]]; [by right; left|by left].
Qed.

(** ** From the files to a state *)

(** Segment files with numbers below [bound] that hold the given bundles. *)
Record files_hold (bound : Z) (m : gmap Z (list Z)) (parts : list (Z * list RecordBundle)) : Prop := {
  hold_sorted : StronglySorted Z.lt parts.*1;
  hold_range : Forall (λ p, 0 ≤ p.1 < bound ∧ zlen p.2 < 2 ^ 32) parts;
  hold_files seq bytes : m !! seq = Some bytes → ∃ bs, (seq, bs) ∈ parts ∧ file_serves crc32 slots bytes bs;
  hold_parts seq bs : (seq, bs) ∈ parts → is_Some (m !! seq);
}.

(** What the caller of [open] passes for segment files and progress files. *)
Record opens_files (io : open_io) (m : gmap Z (list Z)) (l : list DirEntry) : Prop := {
  opens_scan : scan_entries io = Some l;
  opens_entries : entry_seq <$> l ≡ₚ (map_to_list m).*1;
  opens_progress : Progress.scan_progress_files (progress_names io) = [];
}.

Lemma open_no_progress io (st : SegmentStore) :
  Progress.scan_progress_files (progress_names io) = [] →
  Registry.open crc32 (HP := store_provider slots) (progress_files io) (progress_names io) st = Some (Ok empty_registry).
Proof. intros Hp. unfold Registry.open. destruct (progress_files io); [|done]. by rewrite Hp. Qed.

Lemma empty_subscribers key : subscribers empty_registry !! key = None.
Proof. apply lookup_empty. Qed.

Lemma empty_registry_ok : reg_ok empty_registry.
Proof. split. intros key s Hs. by rewrite empty_subscribers in Hs. Qed.

Lemma sorted_bound (l : list Z) x : StronglySorted Z.lt l → Forall (λ y, y < x) l → StronglySorted Z.lt (l ++ [x]).
Proof.
  intros Hs Hl. induction Hs as [|y l Hs IH Hy]; [by repeat constructor|]. apply Forall_cons in Hl as [Hyx Hl].
  cbn. constructor; [by apply IH|]. apply Forall_app. split; [done|]. by constructor.
Qed.

Section state.
Context (logs : WalFormat.RecordBundle RecordBatch → RecordBundle → Prop).
Abbreviation engine_ok := (engine_ok crc32 slots stream_encode logs).

Lemma scanned_ok bound e acks k parts h seqs :
  log_ready crc32 (wal_writer e, wal_dir e) acks k → (k ≤ length acks)%nat → 0 ≤ bound ≤ 2 ^ 62 → files_hold bound (files (segment_store e)) parts →
  open_segment e = open_new → registry e = empty_registry → pending_deletes (segment_store e) = ∅ →
  highest_bounds None h seqs → seqs ≡ₚ (map_to_list (files (segment_store e))).*1 →
  next_segment_seq e = first_segment_seq h empty_registry →
  (∀ seq hd, segments (segment_store e) !! seq = Some hd → ∃ m, handle_open crc32 m (files (segment_store e) !! seq) = Return hd) →
  engine_ok e acks k k parts [] [] ∧ 0 ≤ next_segment_seq e ≤ bound.
Proof.
  intros Hlog Hk Hbound [Hsrt Hrg Hfl Hpt] Hos Hreg Hpd [Hb1 Hb2] Hseqs Hnx Hsg. rewrite Forall_forall in Hrg.
  assert (∀ m, h = Some m → 0 ≤ m < bound) as Hhigh.
  { intros m Hm. destruct (Hb2 m Hm) as [?|Hin]; [done|]. rewrite Hseqs in Hin. apply list_elem_of_fmap in Hin as ([q bytes] & -> & Hin).
    apply elem_of_map_to_list in Hin. destruct (Hfl _ _ Hin) as (bs & Hp & _). apply (Hrg _ Hp). }
  assert (next_segment_seq e = from_option (λ m, m + 1) 0 h) as Hnext.
  { rewrite Hnx. unfold first_segment_seq. destruct h as [m|]; [|done]. specialize (Hhigh m eq_refl). cbn.
    unfold wrapping_add. apply Z.mod_small. lia. }
  assert (∀ seq bs, (seq, bs) ∈ parts → seq < next_segment_seq e) as Hbelow.
  { intros seq bs Hin. destruct (Hpt seq bs Hin) as [bytes Hby]. destruct (Hb1 seq) as (m & -> & Hle).
    - right. rewrite Hseqs. apply list_elem_of_fmap. exists (seq, bytes). split; [done|]. by apply elem_of_map_to_list.
    - rewrite Hnext. cbn. lia. }
  assert (0 ≤ next_segment_seq e ≤ bound) as Hrange.
  { rewrite Hnext. destruct h as [m|]; cbn; [specialize (Hhigh m eq_refl)|]; lia. }
  assert (∀ P : Z → Prop, (∀ seq bs, (seq, bs) ∈ parts → P seq) → Forall P parts.*1) as Hfst.
  { intros P HP. apply Forall_fmap, Forall_forall. intros [seq bs] Hin. by eapply HP. }
  split; [|done]. split; try done; rewrite ?Hpd, ?Hreg, ?Hos; try done.
  - exists []. split; [apply sublist_nil_l|constructor].
  - by exists [].
  - apply sorted_bound; [done|]. apply Hfst, Hbelow.
  - apply Forall_app. split; [|constructor; [lia|constructor]]. apply Hfst. intros seq bs Hin. by destruct (Hrg _ Hin) as [[] _].
  - intros seq hd Hhd. destruct (Hsg seq hd Hhd) as [m Hm]. destruct (files (segment_store e) !! seq) as [bytes|] eqn:Hby; [|done].
    destruct (Hfl _ _ Hby) as (bs & Hin & Hserves). exists bs. split; [done|].
    destruct (Hserves m) as (h' & Hh' & ?). rewrite Hm in Hh'. by injection Hh' as ->.
  - intros seq. rewrite lookup_empty. by intros [].
  - intros seq [hd Hhd]. rewrite Hpd, lookup_empty. split; [|done]. destruct (Hsg seq hd Hhd) as [m Hm].
    by destruct (files (segment_store e) !! seq).
  - apply Forall_forall. intros p Hp. by apply (Hrg _ Hp).
  - intros seq (key & s & Hs & _). by rewrite empty_subscribers in Hs.
Qed.

(** ** Opening *)

(** The outcomes of the calls that write during the replay. *)
Definition replay_fine (io : replay_io) : Prop := (∀ i, finalize_fine (entry_finalize io i)) ∧ replay_cursor io = cursor_fine.

Abbreviation replays := (replays stream_encode stream_decode).

Lemma replays_length acks rio cutoff n : zlen (replays acks rio cutoff n) ≤ zlen acks.
Proof.
  unfold EngineReplay.replays. etrans; [apply zlen_omap|]. unfold zlen. rewrite length_drop. lia.
Qed.

Lemma open_total bound cfg o b io rio dir m l d w acks k parts :
  WalWriter.open crc32 o (Some b) (open_names io) dir = (d, Ok w) → log_ready crc32 (w, d) acks k → (k ≤ length acks)%nat →
  zlen acks ≤ 2 ^ 32 → 0 ≤ bound ≤ 2 ^ 62 → files_hold bound m parts → opens_files io m l → wal_names rio ≡ₚ (map_to_list d).*1 → replay_fine rio →
  (∀ a b, a ∈ acks → replay_of stream_encode stream_decode rio (replay_cutoff rio cfg) a = Some b → logs a.2 b) →
  let bs := replays acks rio (replay_cutoff rio cfg) k in
  all_writable crc32 slots bs → accepts bs →
  ∃ e e1 k' parts' live, open_engine crc32 slots stream_decode order cfg o b io rio dir m = Some (wal_dir e, Ok e) ∧
    engine_ok e acks k' (length acks) parts' live bs ∧ contents parts' live = contents parts [] ++ bs ∧
    config e = cfg ∧ options (wal_writer e) = options w ∧ next_segment_seq e ≤ bound + zlen bs ∧
    advances (zlen bs) e1 e parts parts' ∧
    (max_age cfg = None → ∀ seq bs, (seq, bs) ∈ parts → is_Some (segments (segment_store e1) !! seq)).
Proof.
  intros Hopen Hlog Hk Hz Hbound Hm [Hscan Hent Hprog] Hnames [Hfin Hrc] Hlogs bs Hwr Hacc.
  pose proof (replays_length acks rio (replay_cutoff rio cfg) k) as Hbs. fold bs in Hbs.
  unfold open_engine. rewrite Hopen, Hscan. unfold scan_existing_with_max_age.
  set (cutoff := age ← max_age cfg; _). set (st0 := mkStore m ∅ ∅).
  destruct (scan_served cutoff l st0 (budget w) (mkScanResult [] [] None)) as (st & b' & acc & Hsc & Hf & Hp & Hd & Hs1 & Hs2 & Hb).
  { intros e He mt. change (files st0) with m. assert (entry_seq e ∈ (map_to_list m).*1) as Hin by (rewrite <-Hent; by apply list_elem_of_fmap_2).
    apply list_elem_of_fmap in Hin as ([q bytes] & Hq & Hin). apply elem_of_map_to_list in Hin. cbn in Hq. rewrite Hq, Hin.
    destruct (hold_files _ _ _ Hm _ _ Hin) as (bs' & _ & Hserves). destruct (Hserves mt) as (h & -> & _). by exists h. }
  unfold st0 in *. rewrite Hsc. cbn [outcome_bind mbind option_bind deleted highest_seen]. cbn [files pending_deletes deleted highest_seen] in *.
  rewrite Hd. rewrite open_no_progress by done. cbn [mbind option_bind].
  change (sort_by_key fst (@nil (Z * Z))) with (@nil (Z * Z)). cbn [mbind option_bind]. set (e0 := mkQuiverEngine _ _ _ _ _ _ _ _ _ _ _ _ _ _ _ _).
  destruct (scanned_ok bound e0 acks k parts (highest_seen acc) (entry_seq <$> l)) as [Hok0 Hrange]; try done.
  { unfold e0. cbn [wal_writer wal_dir]. by apply log_budget. }
  { unfold e0. cbn [segment_store]. by rewrite Hf. }
  { unfold e0. cbn [segment_store]. by rewrite Hf. }
  { intros seq hd Hhd. destruct (Hs1 seq hd Hhd) as [Hq|Hq]; [cbn in Hq; by rewrite lookup_empty in Hq|]. unfold e0. cbn [segment_store]. by rewrite Hf. }
  destruct (cleanup_expired_total slots order order_keys (expire_rm io) (expire_now io) e0) as (e1 & n & Hcl & Hret);
    [apply empty_registry_ok|eapply ok_bounded; [exact Hok0|lia]|].
  rewrite Hcl. cbn [mbind option_bind]. pose proof (retains_ok _ _ _ _ _ _ _ _ _ _ _ _ Hok0 Hret) as Hok1.
  assert (config e1 = cfg) as Hcfg by apply Hret.
  destruct (replay_wal_total crc32 crc32_ok slots slots_perm stream_encode stream_decode logs acks rio Hz e1 k parts [] Hok1)
    as (e2 & k' & parts' & live' & Hrep & Hok2 & Hcont & Hadv); rewrite ?Hcfg, ?(ret_next _ _ Hret), ?(ret_dir _ _ Hret); try done.
  { fold bs. lia. }
  rewrite Hcfg in *. rewrite Hrep. cbn [mbind option_bind]. exists e2, e1, k', parts', live'.
  split_and!; [done..|by rewrite (adv_config _ _ _ _ _ Hadv)| | |done|].
  - rewrite (adv_options _ _ _ _ _ Hadv), (retains_options _ _ Hret). by destruct w.
  - pose proof (adv_next _ _ _ _ _ Hadv) as Hn. rewrite (ret_next _ _ Hret) in Hn. fold bs in Hn. lia.
  - intros Hage seq bs' Hin. unfold cleanup_expired_segments in Hcl. cbn [config e0] in Hcl. rewrite Hage in Hcl. injection Hcl as <- _.
    apply Hs2. right. rewrite Hent. destruct (hold_parts _ _ _ Hm _ _ Hin) as [bytes Hby]. apply list_elem_of_fmap. exists (seq, bytes).
    split; [done|]. by apply elem_of_map_to_list.
Qed.

End state.
End opening.
End EngineOpen.
