(* ===== verification/EngineExample.v ===== *)
(** * Data for examples of engines

    Bundles of one payload with one plain column, an encoding of batches as the
    bits of a number, and outcomes of I/O calls that succeed. *)
From S2P Require Import Prelude Bytes Files BTreeMap SubscriberTypes Progress SubscriberState Registry.
From S2P Require Import WalFormat WalReader Budget WalWriter Arrow ArrowModel SegmentTypes Dictionaries OpenSegment SegmentFile SegmentRoundtrip SegmentStore.
From S2P Require Import EngineLog Engine EngineRetention EngineState EngineRuns EngineReplay.

Local Open Scope Z_scope.

Module EngineExample.
Import SubscriberTypes.
Import Registry.
Import WalWriter.
Import Budget.
Import Arrow.
Import ArrowModel.
Import SegmentTypes.
Import Dictionaries.
Import OpenSegment.
Import SegmentFile.
Import SegmentRoundtrip.
Import SegmentStore.
Import Engine.
Import EngineRetention.
Import EngineState.
Import EngineRuns.
Import EngineReplay.

Definition plain_schema : Schema := mkSchema [mkField "body" text true []] [].

Definition plain_batch (x : Z) : Batch := mkBatch plain_schema [Plain text [Scalar [x]]] 1.

Definition plain_bundle (x : Z) : @RecordBundle model :=
  mkRecordBundle (HA := model)
    (WalFormat.mkBundle [3] 0
       (λ slot, if slot =? 3 then Some (WalFormat.mkPayload example_fingerprint (plain_batch x)) else None))
    1 true None.

(** Batches as the bits of their number. *)
Definition bits_encode (b : Batch) : option (list Z) := Some (pos_bits (encode b)).

Definition bits_decode (l : list Z) : option Batch := decode (bits_pos l).

Lemma bits_codec b bytes : bits_encode b = Some bytes → bits_decode bytes = Some b.
Proof.
  intros [= <-]. unfold bits_decode. pose proof (bits_pos_bits (encode b) 0) as Hb. cbn [replicate] in Hb.
  rewrite app_nil_r in Hb. rewrite Hb. apply decode_encode.
Qed.

Definition map_order (r : Registry) : list SubscriberId := (map_to_list (subscribers r)).*1.

Lemma map_order_keys r : key_order r (map_order r).
Proof. unfold key_order, map_order. reflexivity. Qed.

Lemma plain_bundle_ok x :
  WalFormat.bundle_ok (HB := batch_encoder (HA := model) bits_encode) (bundle (plain_bundle x)) ↔
  25 + zlen (WalFormat.slots_bytes (WalFormat.bundle_slots (HB := batch_encoder (HA := model) bits_encode) (bundle (plain_bundle x)))) ≤ 268435456.
Proof.
  split; [by intros [_ _ Hs]|]. intros Hs. split.
  - split; [repeat constructor; by intros ?%elem_of_nil|repeat constructor; lia].
  - intros id p. cbn. destruct (id =? 3); [|done]. intros [= <-]. done.
  - exact Hs.
Qed.

Lemma plain_batches_ok l : @batches_ok model model_laws plain_schema (plain_batch <$> l).
Proof.
  split; [done| |].
  - apply Forall_fmap, Forall_true. intros x. split; [|done]. by repeat constructor.
  - intros [|i] f arrays; [|done]. intros [= <-] HF. done.
Qed.

(** Plain bundles, one after the other; the times do not matter. *)
Definition plain_appends (l : list (Z * Z)) : list (Z * @RecordBundle model) := (λ p, (p.1, plain_bundle p.2)) <$> l.

Definition plain_segment (l : list (Z * Z)) : @OpenSegment model := (@append_all model open_new (plain_appends l)).1.

(** The size of the file is checked by computation. *)
Definition fits (seg : @OpenSegment model) : bool :=
  match @into_parts model seg with
  | Ok (accs, entries) =>
      match @write_streaming model sum32 map_slots accs entries with Return (file, _, _) => zlen file <? 2 ^ 32 | _ => true end
  | Err _ => true
  end.

Lemma fits_writable seg :
  map_Forall (λ _, @stream_writable model model_laws) (@streams model seg) → fits seg = true →
  @seg_writable model model_laws sum32 map_slots seg.
Proof.
  intros Hs Hf. split; [done|]. intros accs entries file n crc Hp Hw. unfold fits in Hf. rewrite Hp, Hw in Hf. by apply Z.ltb_lt.
Qed.

Definition plain_accumulator (l : list Z) : @StreamAccumulator model :=
  @mkAccumulator model 0 3 example_fingerprint plain_schema (plain_batch <$> l) (zlen l) (zlen l) false.

Lemma plain_stream l :
  @stream_writable model model_laws (plain_accumulator l).
Proof. split; [apply plain_batches_ok|done|done]. Qed.

Example plain_streams_1 t x : map_to_list (@streams model (plain_segment [(t, x)])) = [((3, example_fingerprint) : StreamKey, plain_accumulator [x])].
Proof. vm_compute. reflexivity. Qed.

Example plain_streams_2 t x t' y :
  map_to_list (@streams model (plain_segment [(t, x); (t', y)])) = [((3, example_fingerprint) : StreamKey, plain_accumulator [x; y])].
Proof. vm_compute. reflexivity. Qed.

Lemma sublist_two {A} (x y : A) l : l `sublist_of` [x; y] → l = [] ∨ l = [x] ∨ l = [y] ∨ l = [x; y].
Proof.
  intros [Hl|(l' & -> & Hl)]%sublist_cons_r; apply sublist_cons_r in Hl as [Hl|(l'' & -> & Hl)]; apply sublist_nil_r in Hl as ->; auto.
Qed.

Lemma times_of {A} (l : list (Z * A)) (k : list A) : l.*2 = k → ∃ ts, length ts = length k ∧ l = zip ts k.
Proof. intros <-. exists l.*1. split; [by rewrite !length_fmap|]. by rewrite zip_fst_snd. Qed.

Lemma empty_writable : @seg_writable model model_laws sum32 map_slots open_new.
Proof. apply fits_writable; [apply map_Forall_empty|done]. Qed.

Lemma plain_writable : @all_writable model model_laws sum32 map_slots [plain_bundle 65; plain_bundle 66].
Proof.
  intros l Hl. apply sublist_two in Hl as [Hl|[Hl|[Hl|Hl]]]; apply times_of in Hl as (ts & Hts & ->).
  - destruct ts; apply empty_writable.
  - destruct ts as [|t [|]]; [done| |done]. apply (fits_writable (plain_segment [(t, 65)])).
    + apply map_Forall_to_list. rewrite (plain_streams_1 t 65). constructor; [apply plain_stream|constructor].
    + vm_compute. reflexivity.
  - destruct ts as [|t [|]]; [done| |done]. apply (fits_writable (plain_segment [(t, 66)])).
    + apply map_Forall_to_list. rewrite (plain_streams_1 t 66). constructor; [apply plain_stream|constructor].
    + vm_compute. reflexivity.
  - destruct ts as [|t [|t' [|]]]; [done|done| |done]. apply (fits_writable (plain_segment [(t, 65); (t', 66)])).
    + apply map_Forall_to_list. rewrite (plain_streams_2 t 65 t' 66). constructor; [apply plain_stream|constructor].
    + vm_compute. reflexivity.
Qed.

(** Outcomes of calls that succeed. *)
Definition fine_segment : segment_io := mkSegmentIo true None true [] Removed 5.

Definition fine_finalize : finalize_io := mkFinalizeIo fine_segment cursor_fine 5.

Definition fine_ingest : ingest_io :=
  mkIngestIo 1 1 (append_fine 0) (append_fine 0) fine_finalize fine_finalize (λ _, Removed) 1.

Definition failing_finalize : finalize_io := mkFinalizeIo (mkSegmentIo false None true [] Removed 5) cursor_fine 5.

Definition example_config : EngineConfig := mkEngineConfig 1000000 1000 100 DurabilityWal None.

Definition example_wal_options : WalWriterOptions := options_new (replicate 16 7) Immediate.

Definition example_disk : DiskBudget := budget_new 1000000000 1000 Backpressure.

Definition example_replay : @replay_io model :=
  mkReplayIo None None [WalFormat.WAL_FILENAME] 0 (λ _, 1) (λ _, 1) (λ _, fine_finalize) cursor_fine.

Definition example_open : open_io := mkOpenIo [WalFormat.WAL_FILENAME] (Some []) 0 (Some ∅) [] (λ _, Removed) 0.

End EngineExample.
