(* ===== verification/EngineDurable.v ===== *)
(** * Durability of the engine

    An engine from its creation, through ingestion, flushes, maintenance and the
    calls of subscribers, with I/O that succeeds: no call gets stuck, and every
    acknowledged bundle is, in the order of ingestion, in a segment that the store
    serves until nobody needs it, or in the open segment and in the log. *)
From S2P Require Import Prelude Bytes Files BTreeMap SubscriberTypes Progress SubscriberState Registry RegistryRuns.
From S2P Require Import WalFormat WalReader Budget WalWriter WalLog WalRuns WalRecovery.
From S2P Require Import Arrow SegmentTypes Dictionaries OpenSegment SegmentFile SegmentRoundtrip SegmentStore.
From S2P Require Import EngineRegistry EngineLog WalIter Engine EngineRetention EngineState EngineRuns EngineReplay EngineOpen ArrowModel EngineExample.

Local Open Scope Z_scope.

Module EngineDurable.
Import SubscriberTypes.
Import Registry.
Import WalWriter.
Import WalRuns.
Import Budget.
Import Arrow.
Import SegmentTypes.
Import OpenSegment.
Import SegmentFile.
Import SegmentRoundtrip.
Import SegmentStore.
Import EngineRegistry.
Import EngineLog.
Import Engine.
Import EngineRetention.
Import EngineState.
Import EngineRuns.
Import EngineReplay.
Import EngineOpen.

Section durable.
Context `{HL : ArrowLaws} (crc32 : list Z → Z) (crc32_ok : ∀ l, u32_ok (crc32 l)).
Context (slots : ManifestEntry → list (Z * SlotChunkRef)) (slots_perm : ∀ e, slots e ≡ₚ map_to_list (slot_refs e)).
Context (stream_encode : RecordBatch → option (list Z)) (stream_decode : list Z → option RecordBatch).
Context (order : Registry → list SubscriberId) (order_keys : ∀ r, key_order r (order r)).

#[local] Hint Extern 0 (WalFormat.RecordBatch _) => exact (batch_encoder stream_encode) : typeclass_instances.
#[local] Hint Extern 0 (SegmentProvider SegmentStore _) => exact (store_provider slots) : typeclass_instances.

(** ** Runs *)

Inductive EngineOp :=
  | Ingest (io : ingest_io) (b : RecordBundle)
  | FlushSegment (io : finalize_io)
  | Subscriber (c : SubscriberCall)
  | Maintain (faults : SubscriberId → io_fault) (dirty : list SubscriberId)
      (pending : gmap Z PendingDelete → list (Z * PendingDelete)) (rm : Z → RemoveResult) (now : Z).

(** The bundle that an operation acknowledges. *)
Definition engine_step (op : EngineOp) (s : QuiverEngine * Dir) : option (QuiverEngine * Dir * list RecordBundle) :=
  let '(e, d) := s in
  match op with
  | Ingest io b =>
      '(e, r) ← ingest crc32 slots stream_encode order io b e;
      Some (e, d, if is_ok r then [b] else [])
  | FlushSegment io => '(e, _) ← flush crc32 slots io e; Some (e, d, [])
  | Subscriber c => '(e, d) ← subscriber_call slots c e d; Some (e, d, [])
  | Maintain faults dirty pending rm now =>
      '(e, d, _) ← maintain crc32 slots order faults dirty pending rm now e d; Some (e, d, [])
  end.

(** The segments that are not in the store any more. *)
Definition removed_segments (e e' : QuiverEngine) : list Z :=
  List.filter (λ seq, bool_decide (segments (segment_store e') !! seq = None)) (segment_sequences (segment_store e)).

(** The state after the operations, the acknowledged bundles and the removed segments. *)
Fixpoint engine_run (ops : list EngineOp) (s : QuiverEngine * Dir)
    : option (QuiverEngine * Dir * list RecordBundle * list Z) :=
  match ops with
  | [] => Some (s, [], [])
  | op :: ops =>
      '(s1, acked) ← engine_step op s;
      '(s2, acked', removed) ← engine_run ops s1;
      Some (s2, acked ++ acked', removed_segments s.1 s1.1 ++ removed)
  end.

(** I/O on the log, on segment files and on the cursor succeeds; removals of files
    and writes of progress files may fail. *)
Definition engine_op_fine (op : EngineOp) : Prop :=
  match op with
  | Ingest io b => ingest_fine io ∧ WalFormat.bundle_ok (bundle b)
  | FlushSegment io => finalize_fine io
  | Subscriber c => call_valid c
  | Maintain _ _ pending _ _ => pending_order pending
  end.

(** The bundles that are offered. *)
Definition offers (ops : list EngineOp) : list RecordBundle :=
  omap (λ op, match op with Ingest _ b => Some b | _ => None end) ops.

Section relation.
Context (logs : WalFormat.RecordBundle RecordBatch → RecordBundle → Prop) (logs_bundle : ∀ b, logs (bundle b) b).

Abbreviation engine_ok := (engine_ok crc32 slots stream_encode logs).

(** A finalized segment is in the store, or was removed. *)
Definition accounted_for (e : QuiverEngine) (parts : list (Z * list RecordBundle)) (removed : list Z) : Prop :=
  ∀ seq bs, (seq, bs) ∈ parts → is_Some (segments (segment_store e) !! seq) ∨ seq ∈ removed.

Lemma accounted_step n e e1 e' parts parts' removed :
  accounted_for e parts removed → advances n e1 e' parts parts' →
  accounted_for e' parts' (removed ++ removed_segments e e').
Proof.
  intros Hacc [_ _ _ _ (new & -> & Hnew)] seq bs [Hin|Hin]%elem_of_app; [|left; by eapply Hnew].
  destruct (segments (segment_store e') !! seq) as [h|] eqn:Hs; [left; eauto|]. right. apply elem_of_app.
  destruct (Hacc seq bs Hin) as [[h Hh]|]; [right|by left].
  apply list_elem_of_In, filter_In. split; [|by apply bool_decide_eq_true_2].
  apply list_elem_of_In. unfold segment_sequences. rewrite (proj1 (sort_by_key_spec _ _)).
  apply list_elem_of_fmap. exists (seq, h). split; [done|]. by apply elem_of_map_to_list.
Qed.

(** The log grows by some of the bundles that are offered. *)
Definition logged_from (acks acks' : list (WalFormat.WalOffset * WalFormat.RecordBundle RecordBatch)) (bs : list RecordBundle) : Prop :=
  ∃ new, acks' = acks ++ new ∧ new.*2 `sublist_of` bundle <$> bs ∧ Forall (encodes stream_encode) new.*2.

Lemma logged_length acks acks' bs : logged_from acks acks' bs → zlen acks' ≤ zlen acks + zlen bs.
Proof.
  intros (new & -> & Hsub%sublist_length & _). rewrite zlen_app. unfold zlen. rewrite !length_fmap in Hsub. lia.
Qed.

Lemma logged_refl acks bs : logged_from acks acks bs.
Proof. exists []. rewrite app_nil_r. split; [done|]. split; [apply sublist_nil_l|constructor]. Qed.

Lemma logged_trans acks1 acks2 acks3 bs1 bs2 :
  logged_from acks1 acks2 bs1 → logged_from acks2 acks3 bs2 → logged_from acks1 acks3 (bs1 ++ bs2).
Proof.
  intros (n1 & -> & H1 & F1) (n2 & -> & H2 & F2). exists (n1 ++ n2). rewrite app_assoc, !fmap_app. split; [done|].
  split; [by apply sublist_app|by apply Forall_app].
Qed.

Lemma engine_step_ok op e d acks k k2 parts live seen :
  engine_ok e acks k k2 parts live seen → zlen acks < 2 ^ 32 → next_segment_seq e + 2 < 2 ^ 63 → engine_op_fine op →
  all_writable crc32 slots (seen ++ offers [op]) → engine_durability (config e) = DurabilityWal →
  ∃ e1 e' d' acked acks' k' k2' parts' live', engine_step op (e, d) = Some (e', d', acked) ∧ retains e e1 ∧
    engine_ok e' acks' k' k2' parts' live' (seen ++ offers [op]) ∧ logged_from acks acks' (offers [op]) ∧
    contents parts' live' = contents parts live ++ acked ∧ advances 2 e1 e' parts parts'.
Proof.
  intros Hok Hz Hnx Hop Hwr Hwal. destruct op as [io b|io|c|faults dirty pending rm now]; cbn [engine_step offers omap list_omap].
  - destruct Hop as [Hio Hb].
    destruct (ingest_step crc32 crc32_ok slots slots_perm stream_encode order order_keys logs io b e acks k k2 parts live seen)
      as (e1 & e' & r & acks' & k' & k2' & parts' & live' & Hi & Hret & Hok' & Hz' & Hc & Hadv & _); [done..|lia|done|done|done|done|].
    rewrite Hi. exists e1, e', d, (if is_ok r then [b] else []), acks', k', k2', parts', live'. split_and!; try done.
    destruct Hz' as [->|(o & -> & Henc)]; [apply logged_refl|]. exists [(o, bundle b)]. split_and!; [done..|by constructor].
  - destruct (finalize_total crc32 crc32_ok slots slots_perm stream_encode logs io e acks k k2 parts live seen)
      as (e' & k' & parts' & Hf & Hok' & Hc & Hadv & _); [done|lia|lia| |done|].
    { by rewrite app_nil_r in Hwr. }
    unfold flush. rewrite Hf. exists e, e', d, [], acks, k', k2, parts', []. rewrite !app_nil_r.
    split_and!; [done..|apply logged_refl|done|]. eapply advances_weaken; [done|lia].
  - destruct (call_step crc32 slots stream_encode logs c e d acks k k2 parts live seen) as (e' & d' & Hc & Hok' & Hadv); [done|lia|done|].
    rewrite Hc. exists e, e', d', [], acks, k, k2, parts, live. rewrite !app_nil_r.
    split_and!; [done..|apply logged_refl|done|]. eapply advances_weaken; [done|lia].
  - destruct (maintain_total slots order order_keys crc32 faults dirty pending rm now e d) as (e' & d' & r & Hm & Hret);
      [done|apply Hok|eapply ok_bounded; [exact Hok|lia]|].
    rewrite Hm. exists e', e', d', [], acks, k, k2, parts, live. rewrite !app_nil_r.
    split_and!; [done..|by eapply retains_ok|apply logged_refl|done|]. by apply advances_refl.
Qed.

Lemma engine_run_ok ops : ∀ e d acks k k2 parts live seen removed,
  engine_ok e acks k k2 parts live seen → zlen acks + zlen ops ≤ 2 ^ 32 → next_segment_seq e + 2 * zlen ops < 2 ^ 63 →
  Forall engine_op_fine ops → all_writable crc32 slots (seen ++ offers ops) → engine_durability (config e) = DurabilityWal →
  accounted_for e parts removed →
  ∃ e' d' acked removed' acks' k' k2' parts' live', engine_run ops (e, d) = Some (e', d', acked, removed') ∧
    engine_ok e' acks' k' k2' parts' live' (seen ++ offers ops) ∧ logged_from acks acks' (offers ops) ∧
    next_segment_seq e' ≤ next_segment_seq e + 2 * zlen ops ∧ config e' = config e ∧
    options (wal_writer e') = options (wal_writer e) ∧
    contents parts' live' = contents parts live ++ acked ∧ accounted_for e' parts' (removed ++ removed') ∧
    parts `prefix_of` parts'.
Proof.
  induction ops as [|op ops IH]; intros e d acks k k2 parts live seen removed Hok Hz Hnx Hops Hwr Hwal Hacc; cbn [engine_run].
  { exists e, d, [], [], acks, k, k2, parts, live. cbn [offers omap list_omap]. rewrite !app_nil_r. change (zlen []) with 0.
    split_and!; try done; [apply logged_refl|lia]. }
  rewrite zlen_cons in Hz, Hnx. pose proof (zlen_nonneg ops). apply Forall_cons in Hops as [Hop Hops].
  assert (offers (op :: ops) = offers [op] ++ offers ops) as Hoff by (by destruct op). rewrite Hoff in *.
  destruct (engine_step_ok op e d acks k k2 parts live seen) as (e1 & e2 & d2 & acked & acks2 & k' & k2' & parts2 & live2 & Hstep & Hret & Hok2 & Hz2 & Hc2 & Hadv);
    [done|lia|lia|done| |done|].
  { eapply all_writable_sub; [|exact Hwr]. rewrite app_assoc. by apply sublist_inserts_r. }
  assert (zlen acks2 ≤ zlen acks + 1) as Hlen by (pose proof (logged_length _ _ _ Hz2) as Hl; unfold zlen in *; destruct op; cbn in Hl; lia).
  pose proof (adv_next _ _ _ _ _ Hadv) as Hn. rewrite (ret_next _ _ Hret) in Hn.
  assert (config e2 = config e) as Hcfg by (rewrite (adv_config _ _ _ _ _ Hadv); apply Hret).
  assert (options (wal_writer e2) = options (wal_writer e)) as Hopt.
  { rewrite (adv_options _ _ _ _ _ Hadv). by apply retains_options. }
  destruct (IH e2 d2 acks2 k' k2' parts2 live2 (seen ++ offers [op]) (removed ++ removed_segments e e2))
    as (e3 & d3 & acked3 & removed3 & acks3 & k3 & k23 & parts3 & live3 & Hrun & Hok3 & Hz3 & Hn3 & Hcfg3 & Hopt3 & Hc3 & Hacc3 & Hp3);
    [done|lia|lia|done|by rewrite <-app_assoc|by rewrite Hcfg|by eapply accounted_step|].
  rewrite Hstep. cbn [mbind option_bind]. rewrite Hrun. cbn [mbind option_bind fst].
  exists e3, d3, (acked ++ acked3), (removed_segments e e2 ++ removed3), acks3, k3, k23, parts3, live3.
  rewrite zlen_cons. rewrite <-!app_assoc in *. split_and!; try done; [by eapply logged_trans|lia|congruence|congruence| |].
  - by rewrite Hc3, Hc2, <-app_assoc.
  - etrans; [|exact Hp3]. destruct (adv_parts _ _ _ _ _ Hadv) as (new & -> & _). by apply prefix_app_r.
Qed.

End relation.
(** ** A new engine *)

Definition options_fine (o : WalWriterOptions) : Prop := length (cfg_hash o) = 16%nat ∧ validate o = Ok tt.

(** Opening in an empty directory. *)
Record first_open (io : open_io) (rio : replay_io) : Prop := {
  first_names : open_names io = [WalFormat.WAL_FILENAME] ∧ wal_names rio = [WalFormat.WAL_FILENAME];
  first_files : opens_files io ∅ [];
  first_replay : replay_fine rio;
}.

Lemma all_writable_nil : all_writable crc32 slots [].
Proof.
  intros l Hl%sublist_nil_r. apply fmap_nil_inv in Hl as ->. split; [apply map_Forall_empty|].
  intros accs entries file n crc Hp. by cbn in Hp.
Qed.

Lemma accepts_nil : accepts [].
Proof. intros l now b Hl%sublist_nil_r. by apply app_eq_nil in Hl as [_ ?]. Qed.

Lemma open_first logs cfg o b io rio :
  options_fine o → first_open io rio →
  ∃ e k parts live, open_engine crc32 slots stream_decode order cfg o b io rio ∅ ∅ = Some (wal_dir e, Ok e) ∧
    engine_ok crc32 slots stream_encode logs e [] k 0 parts live [] ∧ contents parts live = [] ∧ accounted_for e parts [] ∧
    config e = cfg ∧ options (wal_writer e) = o ∧ next_segment_seq e ≤ 0.
Proof.
  intros [Hh Hv] [[Hn1 Hn2] Hf Hr]. destruct (log_fresh crc32 crc32_ok o (Some b) Hh Hv) as (w & d & Hopen & Hlog & <- & Hkeys).
  destruct (open_total crc32 crc32_ok slots slots_perm stream_encode stream_decode order order_keys logs 0 cfg (options w) b io rio ∅ ∅ [] d w [] 0 [])
    as (e & e1 & k' & parts' & live & He & Hok & Hcont & Hcfg & Hopt & Hnx & Hadv & _); try done.
  - by rewrite Hn1.
  - split; [constructor|constructor| |].
    + intros seq bytes Hq. by rewrite lookup_empty in Hq.
    + by intros seq bs ?%elem_of_nil.
  - by rewrite Hn2, Hkeys.
  - by intros a b' ?%elem_of_nil.
  - apply all_writable_nil.
  - apply accepts_nil.
  - exists e, k', parts', live. split_and!; try done.
    destruct (adv_parts _ _ _ _ _ Hadv) as (new & -> & Hnew). intros seq bs Hin. left. by eapply Hnew.
Qed.

(** ** What an engine keeps *)

(** What a record of the log and a bundle have in common. *)
Definition record_content (r : WalFormat.WalRecordBundle) := (WalFormat.ingestion_ts_nanos r, WalFormat.slots r).

Definition bundle_content (b : RecordBundle) := (WalFormat.ingestion_time (bundle b), WalFormat.bundle_slots (bundle b)).

(** Reading the log from the stored cursor returns the bundles, in order. *)
Definition log_has (dir : Dir) (bs : list RecordBundle) : Prop :=
  ∃ recs n, bundle_content <$> bs `sublist_of` record_content <$> recs ∧
    ∀ names fuel, names ≡ₚ (map_to_list dir).*1 → (n < fuel)%nat →
      ∃ files, WalReader.multi_open dir names = Ok files ∧
        WalReader.collect crc32 fuel dir (WalReader.multi_iter_from files (sidecar_position crc32 dir)) = (recs, None).

(** [parts]: the bundles of the finalized segments; [live]: those of the open
    segment. *)
Record durable (e : QuiverEngine) (acked : list RecordBundle) (removed : list Z)
    (parts : list (Z * list RecordBundle)) (live : list RecordBundle) : Prop := {
  dur_order : acked = concat parts.*2 ++ live;
  dur_numbers : StronglySorted Z.lt parts.*1;
  dur_segments seq bs : (seq, bs) ∈ parts →
    seq ∈ removed ∨ ∃ h, segments (segment_store e) !! seq = Some h ∧ handle_serves slots h bs;
  dur_open : seg_holds (open_segment e) live;
  dur_log : log_has (wal_dir e) live;
  dur_pending key s br : subscribers (registry e) !! key = Some s →
    SubscriberState.tracked s br → SubscriberState.resolved_in s br = false →
    ∃ bs b payloads, (segment_seq br, bs) ∈ parts ∧ bs !! Z.to_nat (SubscriberTypes.bundle_index br) = Some b ∧
      Registry.read_bundle (segment_store e) br = Ok (SubscriberTypes.bundle_index br, payloads) ∧ same_payloads b payloads;
}.

Lemma log_has_live e acks k k2 parts live seen :
  engine_ok crc32 slots stream_encode (λ w b, w = bundle b) e acks k k2 parts live seen → log_has (wal_dir e) live.
Proof.
  intros Hok. destruct (ok_logged Hok) as (l & Hsub & Hall). pose proof (ok_log Hok) as Hlog. pose proof (ok_range Hok) as Hr.
  exists (record_of <$> drop k acks), (length acks). split.
  - assert (bundle_content <$> live = (λ w, (WalFormat.ingestion_time w, WalFormat.bundle_slots w)) <$> l) as ->.
    { clear -Hall. induction Hall as [|w b l live -> Hall IH]; [done|]. by rewrite !fmap_cons, IH. }
    rewrite <-list_fmap_compose. assert (l `sublist_of` (drop k acks).*2) as Hl.
    { etrans; [exact Hsub|]. apply (fmap_sublist snd). rewrite <-(take_ge acks (length acks)) at 2 by done. apply sublist_take_mono. lia. }
    apply (fmap_sublist (λ w, (WalFormat.ingestion_time w, WalFormat.bundle_slots w))) in Hl. rewrite <-list_fmap_compose in Hl.
    assert ((record_content ∘ record_of) <$> drop k acks =
      ((λ w, (WalFormat.ingestion_time w, WalFormat.bundle_slots w)) ∘ snd) <$> drop k acks) as -> by (apply list_fmap_ext; by intros i [o w] _).
    exact Hl.
  - intros names fuel Hn Hf. destruct (log_entries crc32 _ acks (ready_holds _ _ _ _ Hlog)) as (purged & fs & act & Hi & _).
    cbn [fst snd] in Hi. rewrite (sidecar_position_load _ _ _ (inv_sidecar _ _ _ _ _ _ Hi)). pose proof (ready_cursor _ _ _ _ Hlog) as Hcur. cbn [fst snd] in *.
    rewrite Hcur. eapply (holds_reads crc32 crc32_ok (wal_writer e, wal_dir e)); [apply Hlog|done|done|by rewrite take_drop|cbn; lia].
Qed.

Lemma sorted_prefix (l : list Z) x : StronglySorted Z.lt (l ++ [x]) → StronglySorted Z.lt l.
Proof.
  induction l as [|q l IH]; [constructor|]. cbn. intros [Hs Hall]%StronglySorted_inv.
  constructor; [by apply IH|]. by apply Forall_app in Hall as [? _].
Qed.

Lemma parts_unique (parts : list (Z * list RecordBundle)) seq bs bs' :
  StronglySorted Z.lt parts.*1 → (seq, bs) ∈ parts → (seq, bs') ∈ parts → bs = bs'.
Proof.
  induction parts as [|[q x] parts IH]; [by intros _ ?%elem_of_nil|]. cbn. intros [Hs Hall]%StronglySorted_inv.
  rewrite Forall_forall in Hall. assert (∀ y, (q, y) ∉ parts) as Hq.
  { intros y Hy. apply (list_elem_of_fmap_2 fst) in Hy. specialize (Hall _ Hy). cbn in Hall. lia. }
  rewrite !elem_of_cons. intros [[= -> ->]|Hin] [[= ->]|Hin']; try done; [|by destruct (Hq bs)|by apply IH]. by destruct (Hq bs').
Qed.

(** The segment of a number in the store. *)
Lemma store_serves e acks k k2 parts live seen logs seq bs h :
  engine_ok crc32 slots stream_encode logs e acks k k2 parts live seen → (seq, bs) ∈ parts →
  segments (segment_store e) !! seq = Some h → handle_serves slots h bs.
Proof.
  intros Hok Hin Hh. destruct (ok_served Hok _ _ Hh) as (bs' & Hin' & Hs).
  by rewrite (parts_unique parts seq bs bs' (sorted_prefix _ _ (ok_numbers Hok)) Hin Hin').
Qed.

Lemma pending_readable e acks k k2 parts live seen logs key s br :
  engine_ok crc32 slots stream_encode logs e acks k k2 parts live seen → subscribers (registry e) !! key = Some s →
  SubscriberState.tracked s br → SubscriberState.resolved_in s br = false →
  ∃ bs b payloads, (segment_seq br, bs) ∈ parts ∧ bs !! Z.to_nat (SubscriberTypes.bundle_index br) = Some b ∧
    Registry.read_bundle (segment_store e) br = Ok (SubscriberTypes.bundle_index br, payloads) ∧ same_payloads b payloads.
Proof.
  intros Hok Hs Htr Hres. pose proof Htr as (n & Hn & Hi). destruct (ok_counts Hok _ _ _ _ Hs Hn) as (bs & Hin & ->).
  destruct (ok_needed Hok (segment_seq br)) as [h Hh]; [exists key, s; split; [done|]; by exists br|].
  pose proof (store_serves _ _ _ _ _ _ _ _ _ _ _ Hok Hin Hh) as [_ Hserves].
  destruct (lookup_lt_is_Some_2 bs (Z.to_nat (SubscriberTypes.bundle_index br))) as [b Hb]; [unfold zlen in Hi; lia|].
  destruct (Hserves _ _ Hb) as (payloads & Hread & Hsame). rewrite Z2Nat.id in Hread by lia.
  exists bs, b, payloads. split_and!; try done. cbn. unfold with_handle. by rewrite Hh.
Qed.

Lemma engine_ok_durable e acks k k2 parts live seen removed :
  engine_ok crc32 slots stream_encode (λ w b, w = bundle b) e acks k k2 parts live seen → accounted_for e parts removed →
  durable e (contents parts live) removed parts live.
Proof.
  intros Hok Hacc. split.
  - done.
  - apply (sorted_prefix _ _ (ok_numbers Hok)).
  - intros seq bs Hin. destruct (Hacc seq bs Hin) as [[h Hh]|]; [|by left]. right. exists h. split; [done|]. by eapply store_serves.
  - apply (ok_segment Hok).
  - by eapply log_has_live.
  - intros key s br. by eapply pending_readable.
Qed.

(** C1: durability of an engine.  From an empty directory, through any sequence of
    ingestions, flushes, maintenance and calls of subscribers in which the writes
    of the log, of segments and of the cursor succeed (removals of files and
    writes of progress files may fail), no call gets stuck, and the acknowledged
    bundles are, in the order of ingestion, in the finalized segments and then in
    the open segment.  Every finalized segment can be read from the store, with
    the payloads that were ingested, unless retention removed it; the bundles of
    the open segment are in the log after the stored cursor; and every bundle that
    a subscriber has not resolved can be read. *)
Theorem engine_keeps_acknowledged cfg o b io rio ops d :
  options_fine o → first_open io rio → engine_durability cfg = DurabilityWal → Forall engine_op_fine ops →
  all_writable crc32 slots (offers ops) → zlen ops ≤ 2 ^ 32 →
  ∃ e0 e d' acked removed parts live,
    open_engine crc32 slots stream_decode order cfg o b io rio ∅ ∅ = Some (wal_dir e0, Ok e0) ∧
    engine_run ops (e0, d) = Some (e, d', acked, removed) ∧ durable e acked removed parts live.
Proof.
  intros Ho Hfirst Hwal Hops Hwr Hz. destruct (open_first (λ w b, w = bundle b) cfg o b io rio Ho Hfirst)
    as (e0 & k & parts & live & Hopen & Hok & Hcont & Hacc & Hcfg & _ & Hnx).
  destruct (engine_run_ok (λ w b, w = bundle b) (λ _, eq_refl) ops e0 d [] k 0 parts live [] [])
    as (e & d' & acked & removed & acks & k' & k2' & parts' & live' & Hrun & Hok' & _ & _ & _ & _ & Hcont' & Hacc' & _);
    [done|unfold zlen in *; cbn; lia|lia|done|done|by rewrite Hcfg|done|].
  exists e0, e, d', acked, removed, parts', live'. split_and!; [done..|]. rewrite Hcont in Hcont'. cbn in Hcont'. rewrite <-Hcont'.
  by eapply engine_ok_durable.
Qed.

End durable.

(** ** Example *)

Import ArrowModel.
Import EngineExample.

Abbreviation plain_encoder := (batch_encoder (HA := model) bits_encode).

Lemma plain_size x : x = 65 ∨ x = 66 → WalFormat.bundle_ok (HB := plain_encoder) (bundle (plain_bundle x)).
Proof. intros [-> | ->]; apply plain_bundle_ok; vm_compute; discriminate. Qed.

Lemma example_first : @first_open model example_open example_replay.
Proof. by repeat split. Qed.

Lemma fine_ingest_fine : ingest_fine fine_ingest.
Proof. split; [by exists 0|]. split; [by exists 0|]. by repeat split. Qed.

(** A bundle that is flushed, one that stays in the open segment, and a
    subscriber. *)
Definition example_run_ops : list (@EngineOp model) :=
  [Subscriber (Register "a"); Subscriber (Activate "a"); Ingest fine_ingest (plain_bundle 65);
   FlushSegment fine_finalize; Ingest fine_ingest (plain_bundle 66); Subscriber (Poll "a")].

Lemma example_run_fine : Forall (@engine_op_fine model bits_encode) example_run_ops.
Proof.
  repeat (apply Forall_cons; split); try apply Forall_nil_2; try done.
  - split; [apply fine_ingest_fine|apply plain_size; by left].
  - split; [apply fine_ingest_fine|apply plain_size; by right].
Qed.

Lemma engine_keeps_acknowledged_witness :
  ∃ e0 e d' acked removed parts live,
    @open_engine model sum32 map_slots bits_decode map_order example_config example_wal_options example_disk example_open
      example_replay ∅ ∅ = Some (wal_dir e0, Ok e0) ∧
    @engine_run model sum32 map_slots bits_encode map_order example_run_ops (e0, ∅) = Some (e, d', acked, removed) ∧
    @durable model sum32 map_slots bits_encode e acked removed parts live.
Proof.
  apply (@engine_keeps_acknowledged model model_laws sum32 sum32_u32 map_slots (λ e, reflexivity _) bits_encode bits_decode map_order
    map_order_keys example_config example_wal_options example_disk example_open example_replay example_run_ops ∅).
  - by split.
  - apply example_first.
  - reflexivity.
  - apply example_run_fine.
  - apply plain_writable.
  - vm_compute. discriminate.
Defined.

End EngineDurable.
