(* ===== verification/EngineRecovery.v ===== *)
(** * Recovery of the engine

    An engine that runs, loses the end of its log in a crash, and is opened again
    on the same directories. *)
From S2P Require Import Prelude Bytes Files BTreeMap SubscriberTypes Progress SubscriberState Registry RegistryRuns.
From S2P Require Import WalFormat WalReader Budget WalWriter WalLog WalRuns WalRecovery.
From S2P Require Import Arrow SegmentTypes Dictionaries OpenSegment SegmentFile SegmentRoundtrip SegmentStore.
From S2P Require Import EngineRegistry EngineLog WalIter Engine EngineRetention EngineState EngineRuns EngineReplay EngineOpen ArrowModel EngineExample EngineDurable.

Local Open Scope Z_scope.

Module EngineRecovery.
Import SubscriberTypes.
Import Registry.
Import WalWriter.
Import WalRuns.
Import WalRecovery.
Import Budget.
Import Arrow.
Import SegmentTypes.
Import OpenSegment.
Import SegmentFile.
Import SegmentRoundtrip.
Import SegmentStore.
Import EngineLog.
Import Engine.
Import EngineRetention.
Import EngineState.
Import EngineRuns.
Import EngineReplay.
Import EngineOpen.
Import EngineDurable.

Section recovery.
Context `{HL : ArrowLaws} (crc32 : list Z → Z) (crc32_ok : ∀ l, u32_ok (crc32 l)).
Context (slots : ManifestEntry → list (Z * SlotChunkRef)) (slots_perm : ∀ e, slots e ≡ₚ map_to_list (slot_refs e)).
Context (stream_encode : RecordBatch → option (list Z)) (stream_decode : list Z → option RecordBatch).
(** The stream format returns the batch that was written. *)
Context (codec : ∀ b bytes, stream_encode b = Some bytes → stream_decode bytes = Some b).
Context (order : Registry → list SubscriberId) (order_keys : ∀ r, key_order r (order r)).

#[local] Hint Extern 0 (WalFormat.RecordBatch _) => exact (batch_encoder stream_encode) : typeclass_instances.
#[local] Hint Extern 0 (SegmentProvider SegmentStore _) => exact (store_provider slots) : typeclass_instances.

(** ** The bundle of a log entry *)

(** A replayed bundle has the populated slots of the original, with the same
    payloads. *)
Record restored (w : WalFormat.RecordBundle RecordBatch) (b : RecordBundle) : Prop := {
  restored_time : WalFormat.ingestion_time (bundle b) = Z.max 0 (WalFormat.ingestion_time w);
  restored_slots slot : slot ∈ WalFormat.descriptor_slots (bundle b) ↔
    slot ∈ WalFormat.descriptor_slots w ∧ is_Some (WalFormat.bundle_payload w slot);
  restored_payload slot : WalFormat.bundle_payload (bundle b) slot =
    if decide (slot ∈ WalFormat.descriptor_slots w) then WalFormat.bundle_payload w slot else None;
}.

(** Reading a replayed bundle gives what reading the original would give. *)
Lemma restored_same w b b' payloads :
  restored w b' → w = bundle b → same_payloads b' payloads → same_payloads b payloads.
Proof.
  intros [_ Hs Hp] -> Hsame slot. specialize (Hsame slot). destruct (payloads !! slot) as [c|].
  - destruct Hsame as (p & Hin & Hpay & Hrows). apply Hs in Hin as [Hin _]. rewrite Hp, decide_True in Hpay by done. by exists p.
  - intros Hin. rewrite Hp, decide_True in Hsame by done. destruct (WalFormat.bundle_payload (bundle b) slot) eqn:E; [|done].
    apply Hsame, Hs. split; [done|]. by rewrite E.
Qed.

(** The payloads of the slots that are populated. *)
Definition populated (w : WalFormat.RecordBundle RecordBatch) (id : Z) : option (Z * WalFormat.PayloadRef RecordBatch) :=
  pair id <$> WalFormat.bundle_payload w id.

Lemma decode_slots w ids bitmap buffer r :
  WalFormat.encode_slots w ids bitmap buffer = Ok r →
  mapM (λ s, b ← stream_decode (WalFormat.payload s);
             Some (WalFormat.slot_id s, WalFormat.mkPayload (WalFormat.schema_fingerprint s) b))
    (omap (WalFormat.slot_of w) ids) = Some (omap (populated w) ids).
Proof.
  revert bitmap buffer. induction ids as [|id ids IH]; intros bitmap buffer; cbn [WalFormat.encode_slots]; [done|].
  destruct (64 <=? id); [done|]. cbn. unfold WalFormat.slot_of at 1, populated at 1.
  destruct (WalFormat.bundle_payload w id) as [p|] eqn:Hp; cbn; [|apply IH].
  unfold WalFormat.encode_slot_into_buffer. destruct (_ <? _); [done|].
  change (WalFormat.stream_encode (WalFormat.batch p)) with (stream_encode (WalFormat.batch p)).
  destruct (stream_encode (WalFormat.batch p)) as [bytes|] eqn:He; cbn; [|done].
  destruct (_ <? zlen bytes); [done|]. cbn. intros Henc. rewrite (codec _ _ He). cbn. rewrite (IH _ _ Henc). cbn. by destruct p.
Qed.

Lemma populated_ids w ids slot : slot ∈ (omap (populated w) ids).*1 ↔ slot ∈ ids ∧ is_Some (WalFormat.bundle_payload w slot).
Proof.
  rewrite list_elem_of_fmap. setoid_rewrite list_elem_of_omap. unfold populated. split.
  - intros ([q p] & -> & id & Hid & (p' & Hp' & [= -> ->])%fmap_Some). cbn. by rewrite Hp'.
  - intros [Hin [p Hp]]. exists (slot, p). split; [done|]. exists slot. by rewrite Hp.
Qed.

Lemma populated_find w ids slot :
  snd <$> List.find (λ p : Z * WalFormat.PayloadRef RecordBatch, p.1 =? slot) (omap (populated w) ids) =
    if decide (slot ∈ ids) then WalFormat.bundle_payload w slot else None.
Proof.
  induction ids as [|id ids IH]; [done|]. cbn. unfold populated at 1.
  destruct (decide (slot = id)) as [->|Hne].
  - rewrite decide_True by (by left). destruct (WalFormat.bundle_payload w id) as [p|] eqn:Hp; cbn; [by rewrite Z.eqb_refl|].
    rewrite IH. by case_decide.
  - rewrite (decide_ext (slot ∈ id :: ids) (slot ∈ ids)) by (rewrite elem_of_cons; naive_solver).
    destruct (WalFormat.bundle_payload w id) as [p|]; cbn; [|done]. by rewrite (proj2 (Z.eqb_neq _ _)).
Qed.

Lemma with_counts_bundle rio b : bundle (with_counts rio b) = bundle b.
Proof. unfold with_counts. destruct (item_counter rio ≫= _), (byte_counter rio ≫= _); done. Qed.

Lemma replay_restored rio a :
  encodes stream_encode a.2 → ∃ b, replay_of stream_encode stream_decode rio None a = Some b ∧ restored a.2 b.
Proof.
  intros [r Henc]. destruct a as [off w]. unfold replay_of. cbn [expired_ack from_option record_of].
  unfold from_wal_entry. cbn [WalFormat.slots WalFormat.ingestion_ts_nanos]. unfold WalFormat.bundle_slots. cbn in Henc.
  rewrite (decode_slots _ _ _ _ _ Henc). cbn [mbind option_bind fmap option_fmap option_map]. eexists. split; [done|].
  split; rewrite with_counts_bundle; cbn [bundle WalFormat.ingestion_time WalFormat.descriptor_slots WalFormat.bundle_payload snd].
  - done.
  - intros slot. apply populated_ids.
  - intros slot. apply populated_find.
Qed.

(** ** Sublists *)

Lemma sublist_of_fmap {A B} (f : A → B) l k : k `sublist_of` f <$> l → ∃ l', l' `sublist_of` l ∧ k = f <$> l'.
Proof.
  revert k. induction l as [|x l IH]; intros k; cbn.
  - intros ->%sublist_nil_r. by exists [].
  - intros [Hk|(k' & -> & Hk)]%sublist_cons_r; destruct (IH _ Hk) as (l' & Hl & ->).
    + exists l'. split; [by apply sublist_cons|done].
    + exists (x :: l'). split; [by apply sublist_skip|done].
Qed.

Lemma omap_of_sublist {A B} (f : A → option B) l k : l `sublist_of` k → omap f l `sublist_of` omap f k.
Proof.
  induction 1 as [|x l k Hl IH|x l k Hl IH]; cbn; [done|..]; destruct (f x); try done; [by apply sublist_skip|by apply sublist_cons].
Qed.

(** ** What is replayed *)

(** The bundle that the replay appends for a bundle that was offered. *)
Definition replay_bundle (rio : replay_io) (b : RecordBundle) : option RecordBundle :=
  replay_of stream_encode stream_decode rio None (WalFormat.mkOffset 0 0 0, bundle b).

(** Segments can be written for, and take, every selection of the replayed bundles. *)
Definition replayable (rio : replay_io) (bs : list RecordBundle) : Prop :=
  ∀ l, l `sublist_of` bs → all_writable crc32 slots (omap (replay_bundle rio) l) ∧ accepts (omap (replay_bundle rio) l).

Abbreviation replays := (replays stream_encode stream_decode).

Lemma replays_offered rio acks k bs :
  acks.*2 `sublist_of` bundle <$> bs → ∃ l, l `sublist_of` bs ∧ replays acks rio None k = omap (replay_bundle rio) l.
Proof.
  intros Hsub. assert ((drop k acks).*2 `sublist_of` bundle <$> bs) as Hd.
  { etrans; [|exact Hsub]. rewrite <-(take_drop k acks) at 2. rewrite fmap_app. by apply sublist_inserts_l. }
  apply sublist_of_fmap in Hd as (l & Hl & Heq). exists l. split; [done|]. unfold EngineReplay.replays. clear -Heq.
  revert l Heq. induction (drop k acks) as [|[o w] x IH]; intros [|b l] Heq; try done. injection Heq as -> Heq.
  cbn. rewrite (IH _ Heq). done.
Qed.

(** The bundles of the open segment before the crash: those that survive are
    replayed. *)
Lemma live_replayed rio acks k k2 k' live :
  (k ≤ k2 ≤ length acks)%nat → (k ≤ k')%nat → Forall (encodes stream_encode) acks.*2 →
  bundle <$> live `sublist_of` (drop k (take k2 acks)).*2 →
  ∃ kept lost replayed, live = kept ++ lost ∧ ((length acks ≤ k')%nat → lost = []) ∧
    Forall2 restored (bundle <$> kept) replayed ∧ replayed `sublist_of` replays (take k' acks) rio None k.
Proof.
  intros Hk Hk' Henc Hlive.
  assert (drop k (take k2 acks) = drop k (take k' (take k2 acks)) ++ drop k' (take k2 acks)) as Hsplit.
  { rewrite <-(take_drop k' (take k2 acks)) at 1. destruct (Nat.le_gt_cases k' (length (take k2 acks))) as [Hle|Hgt].
    - apply drop_app_le. rewrite length_take. lia.
    - rewrite (drop_ge (take k2 acks) k'), app_nil_r, app_nil_r by lia. done. }
  rewrite Hsplit, fmap_app in Hlive. apply sublist_app_r in Hlive as (l1 & l2 & Hl & H1 & H2).
  apply fmap_app_inv in Hl as (kept & lost & -> & -> & ->). apply sublist_of_fmap in H1 as (x & Hx & Hkept).
  assert (x `sublist_of` drop k (take k' acks)) as Hx'.
  { etrans; [exact Hx|]. rewrite take_take. apply sublist_take_mono. lia. }
  assert (Forall (encodes stream_encode) x.*2) as Hex.
  { rewrite Forall_forall in Henc. apply Forall_forall. intros w Hw. apply Henc. eapply elem_of_sublist; [exact Hw|].
    apply (fmap_sublist snd). etrans; [exact Hx'|]. etrans; [apply sublist_drop|apply sublist_take]. }
  exists kept, lost, (omap (replay_of stream_encode stream_decode rio None) x). split_and!; [done|..].
  - intros Hlong. rewrite drop_ge in H2 by (rewrite length_take; lia). apply sublist_nil_r, fmap_nil_inv in H2. done.
  - rewrite Hkept. clear -Hex codec. induction x as [|a x IH]; [constructor|]. apply Forall_cons in Hex as [Ha Hex].
    destruct (replay_restored rio a Ha) as (b & Hb & Hr). rewrite fmap_cons. cbn [omap list_omap]. rewrite Hb.
    constructor; [done|by apply IH].
  - by apply omap_of_sublist.
Qed.

(** Nothing is lost when the active file is complete. *)
Lemma survivors_all s acks n k' :
  log_ready crc32 s acks k' → current_len s.1 ≤ Z.of_nat n → survivors (active_start s.1 + (Z.of_nat n - 38)) acks = acks.
Proof.
  intros [Hh _ _] Hlen. destruct (log_entries crc32 s acks Hh) as (purged & fs & act & Hi & Hrec & _).
  apply filter_all. intros [o w] Hin. apply Z.leb_le.
  assert (record_of (o, w) ∈ record_of <$> acks) as Hr by (by apply list_elem_of_fmap_2). rewrite Hrec in Hr.
  apply place_bounds in Hr. cbn [record_of WalFormat.record_next_offset] in Hr.
  rewrite (inv_start_size _ _ _ _ _ _ Hi). rewrite (inv_len _ _ _ _ _ _ Hi) in Hlen. rewrite !WalReader.size_app in *. lia.
Qed.

Lemma sorted_filter (P : Z * list RecordBundle → Prop) `{∀ p, Decision (P p)} parts :
  StronglySorted Z.lt parts.*1 → StronglySorted Z.lt (filter P parts).*1.
Proof.
  induction parts as [|p parts IH]; [done|]. rewrite fmap_cons. intros [Hs Hall]%StronglySorted_inv.
  rewrite filter_cons. case_decide; [|by apply IH]. rewrite fmap_cons. constructor; [by apply IH|]. rewrite Forall_forall in Hall. apply Forall_forall. intros q (x & -> & Hx)%list_elem_of_fmap.
  apply Hall, list_elem_of_fmap. exists x. split; [done|]. by apply list_elem_of_filter in Hx as [_ ?].
Qed.

(** The segment files of an engine. *)
Lemma ok_files_hold logs e acks k k2 parts live seen bound :
  engine_ok crc32 slots stream_encode logs e acks k k2 parts live seen → next_segment_seq e ≤ bound →
  files_hold crc32 slots bound (files (segment_store e)) (filter (λ p, is_Some (files (segment_store e) !! p.1)) parts).
Proof.
  intros Hok Hb. split.
  - apply sorted_filter, (sorted_prefix _ _ (ok_numbers Hok)).
  - apply Forall_forall. intros [seq bs] [_ Hin]%list_elem_of_filter. pose proof (ok_below Hok Hin). split; [cbn; lia|].
    pose proof (ok_sizes Hok) as Hsz. rewrite Forall_forall in Hsz. by apply (Hsz _ Hin).
  - intros seq bytes Hby. destruct (ok_stored Hok _ _ Hby) as (bs & Hin & Hs). exists bs. split; [|done].
    apply list_elem_of_filter. split; [|done]. cbn. by rewrite Hby.
  - intros seq bs [Hq _]%list_elem_of_filter. done.
Qed.

(** ** The theorem *)

(** A segment of the store that serves the given bundles. *)
Definition stored (e : QuiverEngine) (seq : Z) (bs : list RecordBundle) : Prop :=
  ∃ h, segments (segment_store e) !! seq = Some h ∧ handle_serves slots h bs.

(** An engine that was opened again.  [kept] and [lost]: the bundles of the open
    segment before the crash; [new] and [live]: the segments that the replay
    finalized, and the open segment. *)
Record recovered (rio : replay_io) (offered : list RecordBundle) (kept lost : list RecordBundle)
    (parts : list (Z * list RecordBundle)) (removed : list Z)
    (e : QuiverEngine) (new : list (Z * list RecordBundle)) (live : list RecordBundle) : Prop := {
  rec_segments seq bs : (seq, bs) ∈ parts → seq ∉ removed → stored e seq bs;
  rec_kept : ∃ replayed, Forall2 restored (bundle <$> kept) replayed ∧ replayed `sublist_of` concat new.*2 ++ live;
  rec_only : concat new.*2 ++ live `sublist_of` omap (replay_bundle rio) offered;
  rec_new seq bs : (seq, bs) ∈ new → stored e seq bs;
  rec_open : seg_holds (open_segment e) live;
}.

Lemma reopened cfg o b io rio e acks k k2 parts live seen removed n tail l :
  engine_ok crc32 slots stream_encode (λ w b, w = bundle b) e acks k k2 parts live seen → accounted_for e parts removed →
  logged_from stream_encode [] acks seen → zlen acks ≤ 2 ^ 32 → next_segment_seq e ≤ 2 ^ 62 → options (wal_writer e) = o →
  validate o = Ok tt → max_age cfg = None → replayable rio seen →
  purge_count (wal_writer e) = 0 → torn crc32 tail → 38 ≤ Z.of_nat n →
  cursor_position (wal_writer e) ≤ active_start (wal_writer e) + (Z.of_nat n - 38) →
  open_names io ≡ₚ (map_to_list (crash n tail (wal_dir e))).*1 → wal_names rio ≡ₚ (map_to_list (crash n tail (wal_dir e))).*1 →
  opens_files io (files (segment_store e)) l → replay_fine rio →
  ∃ e' kept lost new live',
    open_engine crc32 slots stream_decode order cfg o b io rio (crash n tail (wal_dir e)) (files (segment_store e)) =
      Some (wal_dir e', Ok e') ∧ live = kept ++ lost ∧ (current_len (wal_writer e) ≤ Z.of_nat n → lost = []) ∧
    recovered rio seen kept lost parts removed e' new live'.
Proof.
  intros Hok Hacc (acks0 & Heq & Hoff & Henc) Hz Hnx Ho Hv Hage Hrep Hpc Htorn Hn Hcur Hn1 Hn2 Hf Hr. cbn in Heq. subst acks0.
  pose proof (ok_range Hok) as Hk.
  destruct (log_crash crc32 crc32_ok (wal_writer e, wal_dir e) acks k n tail (Some b) (open_names io) (ok_log Hok))
    as (w & d & k' & Hopen & Hk' & Hsurv & Hlog & Hopt & Hkeys); try done; [lia|cbn; congruence|]. cbn [fst snd] in *.
  assert ((take k' acks).*2 `sublist_of` bundle <$> seen) as Hoff'.
  { etrans; [|exact Hoff]. apply (fmap_sublist snd), sublist_take. }
  destruct (replays_offered rio (take k' acks) k seen Hoff') as (offs & Hoffs & Hbs). destruct (Hrep offs Hoffs) as [Hwr Hac].
  rewrite <-Hbs in Hwr, Hac. rewrite Ho in Hopen.
  assert (replay_cutoff rio cfg = None) as Hcut by (unfold replay_cutoff; by rewrite Hage).
  pose proof (ok_files_hold _ e acks k k2 parts live seen (2 ^ 62) Hok Hnx) as Hheld. set (held := filter _ parts) in Hheld.
  destruct (open_total crc32 crc32_ok slots slots_perm stream_encode stream_decode order order_keys (λ _ _, True) (2 ^ 62) cfg o b io rio
    (crash n tail (wal_dir e)) (files (segment_store e)) l d w (take k' acks) k held Hopen Hlog) as
    (e' & e1 & k3 & parts' & live' & He & Hok' & Hcont & _ & _ & _ & Hadv & Hall); rewrite ?Hcut; try done.
  { rewrite length_take. lia. }
  { unfold zlen in *. rewrite length_take. lia. }
  { by rewrite Hkeys. }
  rewrite Hcut in *. destruct (adv_parts _ _ _ _ _ Hadv) as (new & -> & Hnew).
  assert (concat new.*2 ++ live' = replays (take k' acks) rio None k) as Hnl.
  { unfold contents in Hcont. rewrite fmap_app, concat_app, app_nil_r, <-app_assoc in Hcont. by apply app_inv_head in Hcont. }
  assert (∀ seq bs, (seq, bs) ∈ held ++ new → is_Some (segments (segment_store e') !! seq) → stored e' seq bs) as Hst.
  { intros seq bs Hin [h Hh]. exists h. split; [done|]. by eapply store_serves. }
  destruct (ok_logged Hok) as (lw & Hlw & Hwl). assert (lw = bundle <$> live) as ->.
  { clear -Hwl. induction Hwl as [|x y lx ly -> Hxy IH]; [done|]. by rewrite IH. }
  destruct (live_replayed rio acks k k2 k' live Hk Hk' Henc Hlw) as (kept & lost & replayed & -> & Hlost & Hkept & Hsub).
  exists e', kept, lost, new, live'. split_and!; [done..| |split].
  - intros Hlen. apply Hlost. pose proof (survivors_all _ _ n _ (ok_log Hok) Hlen) as Hs. cbn [fst] in Hs. rewrite Hs in Hsurv.
    apply (f_equal length) in Hsurv. rewrite length_take in Hsurv. lia.
  - intros seq bs Hin Hnr. destruct (Hacc seq bs Hin) as [Hs|]; [|done].
    assert ((seq, bs) ∈ held) as Hh. { apply list_elem_of_filter. split; [|done]. by apply (ok_present Hok). }
    apply Hst; [apply elem_of_app; by left|]. apply (adv_kept _ _ _ _ _ Hadv). by apply (Hall Hage _ _ Hh).
  - exists replayed. by rewrite Hnl.
  - rewrite Hnl, Hbs. by apply omap_of_sublist.
  - intros seq bs Hin. apply Hst; [apply elem_of_app; by right|]. by eapply Hnew.
  - apply (ok_segment Hok').
Qed.


End recovery.

(** ** Example *)

Import ArrowModel.
Import EngineExample.

Definition example_ops : list (@EngineOp model) := [Ingest fine_ingest (plain_bundle 65)].

Definition example_engine : option (@QuiverEngine model) :=
  match @open_engine model sum32 map_slots bits_decode map_order example_config example_wal_options example_disk example_open
          example_replay ∅ ∅ with
  | Some (_, Ok e0) =>
      '(e, _, _, _) ← @engine_run model sum32 map_slots bits_encode map_order example_ops (e0, ∅); Some e
  | _ => None
  end.

(** A crash that keeps the whole active file. *)
Definition example_crash (e : @QuiverEngine model) : Dir := crash (Z.to_nat (current_len (wal_writer e))) [] (wal_dir e).

(** The facts about the engine that the theorem asks for. *)
Definition can_reopen (e : @QuiverEngine model) : bool :=
  let w := wal_writer e in
  (purge_count w =? 0) && (38 <=? current_len w) && (cursor_position w <=? active_start w + (current_len w - 38))
  && bool_decide ((map_to_list (example_crash e)).*1 = [WalFormat.WAL_FILENAME])
  && bool_decide ((map_to_list (files (segment_store e))).*1 = []).

Example example_reopens : can_reopen <$> example_engine = Some true.
Proof. vm_compute. reflexivity. Qed.

(** The bundle that the replay appends. *)
Definition replayed_bundle : @RecordBundle model :=
  default (plain_bundle 0) (@replay_bundle model bits_encode bits_decode example_replay (plain_bundle 65)).

Lemma replayed_check : match @replay_bundle model bits_encode bits_decode example_replay (plain_bundle 65) with Some _ => true | None => false end = true.
Proof. vm_compute. reflexivity. Qed.

Lemma replayed_some : @replay_bundle model bits_encode bits_decode example_replay (plain_bundle 65) = Some replayed_bundle.
Proof.
  pose proof replayed_check as Hc. unfold replayed_bundle.
  destruct (@replay_bundle model bits_encode bits_decode example_replay (plain_bundle 65)); [reflexivity|discriminate Hc].
Qed.

Lemma replayed_streams t :
  map_to_list (@streams model (@append_all model open_new [(t, replayed_bundle)]).1) = [((3, example_fingerprint) : StreamKey, plain_accumulator [65])].
Proof. vm_cast_no_check (eq_refl [((3, example_fingerprint), plain_accumulator [65])]). Qed.

Lemma single_writable b :
  (∀ t, @seg_writable model model_laws sum32 map_slots (@append_all model open_new [(t, b)]).1) →
  @all_writable model model_laws sum32 map_slots [b].
Proof.
  intros Hb l [Hl|(l' & Hl & Hl')]%sublist_cons_r.
  - apply sublist_nil_r, fmap_nil_inv in Hl as ->. apply empty_writable.
  - apply sublist_nil_r in Hl' as ->. apply times_of in Hl as ([|t [|]] & Hts & ->); try done. apply Hb.
Qed.

Lemma single_accepted b : (∀ now, is_ok (append now open_new b).2) → @accepts model [b].
Proof.
  intros Hb l now b' Hl. apply sublist_length in Hl as Hlen. rewrite length_app in Hlen. cbn in Hlen.
  destruct l as [|p l]; [|cbn in Hlen; lia]. apply sublist_cons_r in Hl as [Hl|(l' & [= -> <-] & _)]; [by apply sublist_nil_r in Hl|].
  apply Hb.
Qed.

Lemma replayed_fits t : fits (@append_all model open_new [(t, replayed_bundle)]).1 = true.
Proof. vm_compute. reflexivity. Qed.

Lemma replayed_accepted now : is_ok (@append model now open_new replayed_bundle).2 = true.
Proof. vm_compute. reflexivity. Qed.

Lemma replayed_writable : @all_writable model model_laws sum32 map_slots [replayed_bundle].
Proof.
  apply single_writable. intros t. apply fits_writable; [|exact (replayed_fits t)].
  apply map_Forall_to_list. rewrite replayed_streams. constructor; [apply plain_stream|constructor].
Qed.

Lemma example_replayable :
  @replayable model model_laws sum32 map_slots bits_encode bits_decode example_replay (offers example_ops).
Proof.
  intros l [Hl|(l' & -> & Hl)]%sublist_cons_r; apply sublist_nil_r in Hl as ->.
  - split; [apply all_writable_nil|apply accepts_nil].
  - cbn [omap list_omap]. rewrite replayed_some. split; [exact replayed_writable|].
    apply single_accepted. intros now. rewrite replayed_accepted. exact I.
Qed.


End EngineRecovery.
