(* ===== verification/EngineFaults.v ===== *)
(** * A failed finalization

    Finalization takes the open segment and its cursor before it writes the file
    ([engine.rs], [finalize_segment_impl]).  When the write fails, the bundles are
    in the log only, and the next finalization stores a cursor past them. *)
From S2P Require Import Prelude Bytes Files BTreeMap SubscriberTypes Progress SubscriberState Registry RegistryRuns.
From S2P Require Import WalFormat WalReader Budget WalWriter WalLog WalRuns WalRecovery.
From S2P Require Import Arrow SegmentTypes Dictionaries OpenSegment SegmentFile SegmentRoundtrip SegmentStore.
From S2P Require Import EngineRegistry EngineLog WalIter Engine EngineRetention EngineState EngineRuns EngineReplay EngineOpen ArrowModel EngineExample EngineDurable.

Local Open Scope Z_scope.

Module EngineFaults.
Import SubscriberTypes.
Import Registry.
Import WalWriter.
Import WalRuns.
Import Budget.
Import Arrow.
Import SegmentTypes.
Import OpenSegment.
Import SegmentFile.
Import SegmentRoundtrip.
Import SegmentStore.
Import EngineLog.
Import Engine.
Import EngineRetention.
Import EngineState.
Import EngineRuns.
Import EngineReplay.
Import EngineOpen.
Import EngineDurable.

Section faults.
Context `{HL : ArrowLaws} (crc32 : list Z → Z) (crc32_ok : ∀ l, u32_ok (crc32 l)).
Context (slots : ManifestEntry → list (Z * SlotChunkRef)) (slots_perm : ∀ e, slots e ≡ₚ map_to_list (slot_refs e)).
Context (stream_encode : RecordBatch → option (list Z)) (stream_decode : list Z → option RecordBatch).
Context (order : Registry → list SubscriberId) (order_keys : ∀ r, key_order r (order r)).

#[local] Hint Extern 0 (WalFormat.RecordBatch _) => exact (batch_encoder stream_encode) : typeclass_instances.

Abbreviation engine_ok := (engine_ok crc32 slots stream_encode (λ w b, w = bundle b)).

(** The segment file cannot be created: the open segment is gone. *)
Lemma finalize_fails io e acks k k2 parts live seen :
  engine_ok e acks k k2 parts live seen → live ≠ [] → next_segment_seq e < 2 ^ 63 → create_ok (fin_segment io) = false →
  ∃ e' err, flush crc32 slots io e = Some (e', Err (SegmentFailed err)) ∧ engine_ok e' acks k k2 parts [] seen ∧
    next_segment_seq e' = next_segment_seq e + 1 ∧ config e' = config e.
Proof.
  intros Hok Hne Hnx Hio. unfold flush, finalize_segment_impl. rewrite (ok_empty Hok), bool_decide_eq_false_2 by done.
  assert (0 ≤ next_segment_seq e) as Hpos.
  { pose proof (ok_first Hok) as Hf. apply Forall_app in Hf as [_ Hf]. by apply Forall_cons in Hf as [? _]. }
  assert (∃ err, write_segment crc32 slots (fin_segment io) (next_segment_seq e) (open_segment e) (segment_store e) =
    (segment_store e, Err err)) as [err Hw].
  { unfold write_segment. rewrite Hio. destruct (into_parts (open_segment e)) as [[accs entries]|err]; by eexists. }
  assert (remove_partial io (next_segment_seq e) (segment_store e) = segment_store e) as Hrm.
  { unfold remove_partial. destruct (ok_fresh Hok) as [-> _]. done. }
  assert (Forall (λ q, q < next_segment_seq e + 1) parts.*1) as Hall.
  { apply Forall_fmap, Forall_forall. intros [q bs] Hin. pose proof (ok_below Hok Hin). cbn. lia. }
  destruct Hok as [Hl Hr Hc Hlg Ho Hnum Hf Hsv Hst Hpd Hp Hsz Hrg Hct Hnd].
  destruct e as [cfg mt w d seg cur nx cw cs fd di ex ei pr st rg]. cbn -[write_segment remove_partial append_all] in *.
  rewrite Hw, Hrm. do 2 eexists. split; [done|]. cbn -[append_all].
  assert (wrapping_add 64 nx 1 = nx + 1) as -> by (apply Z.mod_small; lia). split; [|done].
  split; cbn -[append_all]; try done.
  - exists []. split; [apply sublist_nil_l|constructor].
  - exists []. split; [done|apply sublist_nil_l].
  - apply sorted_bound; [by eapply sorted_prefix|done].
  - apply Forall_app in Hf as [Hf _]. apply Forall_app. split; [done|]. constructor; [lia|constructor].
  - intros seq Hq. specialize (Hpd seq Hq). lia.
Qed.

(** Nothing is read from the log after the stored cursor. *)
Definition log_empty (dir : Dir) : Prop :=
  ∃ n, ∀ names fuel, names ≡ₚ (map_to_list dir).*1 → (n < fuel)%nat →
    ∃ files, WalReader.multi_open dir names = Ok files ∧
      WalReader.collect crc32 fuel dir (WalReader.multi_iter_from files (sidecar_position crc32 dir)) = ([], None).

Lemma log_empty_all e acks k2 parts live seen :
  engine_ok e acks (length acks) k2 parts live seen → log_empty (wal_dir e).
Proof.
  intros Hok. pose proof (ok_log Hok) as Hlog. exists (length acks). intros names fuel Hn Hf.
  destruct (log_entries crc32 _ acks (ready_holds _ _ _ _ Hlog)) as (purged & fs & act & Hi & _). cbn [fst snd] in Hi.
  rewrite (sidecar_position_load _ _ _ (inv_sidecar _ _ _ _ _ _ Hi)). pose proof (ready_cursor _ _ _ _ Hlog) as Hcur. cbn [fst snd] in Hcur.
  rewrite Hcur. eapply (holds_reads crc32 crc32_ok (wal_writer e, wal_dir e) acks names fuel _ []); [apply Hlog|done|done| |cbn; lia].
  by rewrite app_nil_r, take_ge.
Qed.

(** The bundle after the failure, and the finalization that follows. *)
Lemma ingest_then_flush iio fio x e acks k k2 parts seen :
  engine_ok e acks k k2 parts [] seen → zlen acks < 2 ^ 32 → next_segment_seq e + 2 < 2 ^ 63 →
  engine_durability (config e) = DurabilityWal → ingest_fine iio → WalFormat.bundle_ok (bundle x) → finalize_fine fio →
  all_writable crc32 slots (seen ++ [x]) →
  ∃ e1 r, ingest crc32 slots stream_encode order iio x e = Some (e1, r) ∧
    (r = Ok tt → ∃ e2 acks' parts', flush crc32 slots fio e1 = Some (e2, Ok tt) ∧
      engine_ok e2 acks' (length acks') (length acks') parts' [] (seen ++ [x]) ∧ concat parts'.*2 = concat parts.*2 ++ [x]).
Proof.
  intros Hok Hz Hnx Hwal Hio Hb Hf Hwr.
  destruct (ingest_step crc32 crc32_ok slots slots_perm stream_encode order order_keys (λ w b, w = bundle b) iio x e acks k k2 parts [] seen)
    as (e0 & e1 & r & acks' & k' & k2' & parts' & live' & Hi & Hret & Hok' & Hacks & Hc & Hadv & Hr); [done..|lia|done|done|done|done|].
  exists e1, r. split; [done|]. intros ->. destruct (Hr I) as [-> Hk]. cbn [is_ok] in Hc.
  pose proof (adv_next _ _ _ _ _ Hadv) as Hn. rewrite (ret_next _ _ Hret) in Hn.
  destruct (finalize_total crc32 crc32_ok slots slots_perm stream_encode (λ w b, w = bundle b) fio e1 acks' k' (length acks') parts' live' (seen ++ [x]))
    as (e2 & k3 & parts3 & Hfl & Hok3 & Hc3 & _ & Hk3); [done| |lia|done|done|].
  { destruct Hacks as [->|(o & -> & _)]; [lia|]. rewrite zlen_app. change (zlen [_]) with 1. lia. }
  assert (k3 = length acks') as -> by (rewrite Hk3; case_decide; [by apply Hk|done]).
  exists e2, acks', parts3. split_and!; [done..|]. unfold contents in *. rewrite !app_nil_r in *. by rewrite Hc3, Hc.
Qed.

(** C19: a finalization that fails loses acknowledged bundles.  Let an engine run
    as above, and let its open segment hold the bundles [live].  If the segment
    file cannot be created, [flush] returns an error; if then one more bundle is
    acknowledged and the next flush succeeds, the store has the earlier segments
    and that bundle only, the open segment is empty, and reading the log from the
    stored cursor, as the replay does, returns nothing: the acknowledged bundles
    [live] are in no place from which they can be read again. *)
Theorem failed_flush_loses_bundles cfg o b io rio ops d fio iio x fio2 :
  options_fine o → first_open io rio → engine_durability cfg = DurabilityWal → Forall (engine_op_fine stream_encode) ops →
  zlen ops < 2 ^ 32 → create_ok (fin_segment fio) = false → ingest_fine iio → WalFormat.bundle_ok (bundle x) → finalize_fine fio2 →
  all_writable crc32 slots (offers ops ++ [x]) →
  ∃ e0 e d' acked removed (parts : list (Z * list RecordBundle)) live,
    open_engine crc32 slots stream_decode order cfg o b io rio ∅ ∅ = Some (wal_dir e0, Ok e0) ∧
    engine_run crc32 slots stream_encode order ops (e0, d) = Some (e, d', acked, removed) ∧ acked = concat parts.*2 ++ live ∧
    seg_holds (open_segment e) live ∧
    (is_empty (open_segment e) = false → ∃ e1 err e2 r,
      flush crc32 slots fio e = Some (e1, Err (SegmentFailed err)) ∧ ingest crc32 slots stream_encode order iio x e1 = Some (e2, r) ∧
      (r = Ok tt → ∃ e3 parts', flush crc32 slots fio2 e2 = Some (e3, Ok tt) ∧ concat parts'.*2 = concat parts.*2 ++ [x] ∧
        (∀ seq h, segments (segment_store e3) !! seq = Some h → ∃ bs, (seq, bs) ∈ parts' ∧ handle_serves slots h bs) ∧
        is_empty (open_segment e3) = true ∧ log_empty (wal_dir e3))).
Proof.
  intros Ho Hfirst Hwal Hops Hz Hfail Hio Hb Hf2 Hwr.
  destruct (open_first crc32 crc32_ok slots slots_perm stream_encode stream_decode order order_keys (λ w b, w = bundle b) cfg o b io rio Ho Hfirst)
    as (e0 & k & parts & live & Hopen & Hok & Hcont & Hacc & Hcfg & Hopt & Hnx).
  destruct (engine_run_ok crc32 crc32_ok slots slots_perm stream_encode order order_keys (λ w b, w = bundle b) (λ _, eq_refl) ops e0 d [] k 0 parts live [] [])
    as (e & d' & acked & removed & acks & k' & k2' & parts' & live' & Hrun & Hok' & Hlog & Hnx' & Hcfg' & _ & Hcont' & _);
    [done|unfold zlen in *; cbn; lia|lia|done|eapply all_writable_sub; [|exact Hwr]; by apply sublist_inserts_r|by rewrite Hcfg|done|].
  exists e0, e, d', acked, removed, parts', live'. rewrite Hcont in Hcont'. split_and!; [done..|apply (ok_segment Hok')|]. intros Hne.
  rewrite (ok_empty Hok') in Hne. apply bool_decide_eq_false in Hne.
  destruct (finalize_fails fio e acks k' k2' parts' live' (offers ops) Hok' Hne) as (e1 & err & Hfl & Hok1 & Hn1 & Hc1); [lia|done|].
  destruct (ingest_then_flush iio fio2 x e1 acks k' k2' parts' (offers ops)) as (e2 & r & Hi & Hr); try done; [|lia|congruence|].
  { pose proof (logged_length _ _ _ _ Hlog) as Hl. pose proof (zlen_omap (λ op, match op with Ingest _ b => Some b | _ => None end) ops) as Hle.
    unfold offers in Hl. change (zlen []) with 0 in Hl. lia. }
  exists e1, err, e2, r. split_and!; [done..|]. intros Hrok. destruct (Hr Hrok) as (e3 & acks' & parts3 & Hf3 & Hok3 & Hc3).
  exists e3, parts3. split_and!; [done..|apply (ok_served Hok3)|by rewrite (ok_empty Hok3)|]. by eapply log_empty_all.
Qed.

End faults.

(** ** Example *)

Import ArrowModel.
Import EngineExample.

Definition one_ingest : list (@EngineOp model) := [Ingest fine_ingest (plain_bundle 65)].

(** The open segment holds a bundle, and after the failure the next bundle is
    accepted. *)
Definition failing_run : bool :=
  match @open_engine model sum32 map_slots bits_decode map_order example_config example_wal_options example_disk example_open
          example_replay ∅ ∅ with
  | Some (_, Ok e0) =>
      match @engine_run model sum32 map_slots bits_encode map_order one_ingest (e0, ∅) with
      | Some (e, _, _, _) =>
          match @flush model sum32 map_slots failing_finalize e with
          | Some (e1, _) =>
              match @ingest model sum32 map_slots bits_encode map_order fine_ingest (plain_bundle 66) e1 with
              | Some (_, r) => is_ok r && negb (is_empty (open_segment e))
              | None => false
              end
          | None => false
          end
      | None => false
      end
  | _ => false
  end.

Example failing_run_true : failing_run = true.
Proof. vm_compute. reflexivity. Qed.

Lemma failed_flush_loses_bundles_witness :
  ∃ e0 e d' acked removed live e1 err e2 e3,
    @open_engine model sum32 map_slots bits_decode map_order example_config example_wal_options example_disk example_open
      example_replay ∅ ∅ = Some (wal_dir e0, Ok e0) ∧
    @engine_run model sum32 map_slots bits_encode map_order one_ingest (e0, ∅) = Some (e, d', acked, removed) ∧
    @seg_holds model (open_segment e) live ∧ is_empty (open_segment e) = false ∧
    @flush model sum32 map_slots failing_finalize e = Some (e1, Err (SegmentFailed err)) ∧
    @ingest model sum32 map_slots bits_encode map_order fine_ingest (plain_bundle 66) e1 = Some (e2, Ok tt) ∧
    @flush model sum32 map_slots fine_finalize e2 = Some (e3, Ok tt) ∧ is_empty (open_segment e3) = true ∧ log_empty sum32 (wal_dir e3).
Proof.
  destruct (@failed_flush_loses_bundles model model_laws sum32 sum32_u32 map_slots (λ e, reflexivity _) bits_encode bits_decode map_order
    map_order_keys example_config example_wal_options example_disk example_open example_replay one_ingest ∅ failing_finalize fine_ingest
    (plain_bundle 66) fine_finalize) as (e0 & e & d' & acked & removed & parts & live & Hopen & Hrun & _ & Hseg & Hlost).
  - by split.
  - apply example_first.
  - reflexivity.
  - constructor; [|constructor]. split; [apply fine_ingest_fine|apply plain_size; by left].
  - vm_compute. reflexivity.
  - reflexivity.
  - apply fine_ingest_fine.
  - apply plain_size. by right.
  - by repeat split.
  - apply plain_writable.
  - pose proof failing_run_true as Hrt. unfold failing_run in Hrt. rewrite Hopen, Hrun in Hrt.
    destruct (is_empty (open_segment e)) eqn:Hne.
    { exfalso. destruct (flush _ _ _ e) as [[e1 r1]|]; [|discriminate Hrt].
      destruct (ingest _ _ _ _ _ _ e1) as [[e2 r]|]; [|discriminate Hrt]. rewrite andb_false_r in Hrt. discriminate Hrt. }
    destruct (Hlost eq_refl) as (e1 & err & e2 & r & Hf1 & Hi & Hr). rewrite Hf1, Hi in Hrt.
    destruct r as [[]|err2]; [|discriminate Hrt]. destruct (Hr eq_refl) as (e3 & parts' & Hf3 & _ & _ & Hem & Hle).
    exists e0, e, d', acked, removed, live, e1, err, e2, e3. repeat (split; [eassumption|]). exact Hle.
Defined.

End EngineFaults.
