(* ===== verification/EngineRaces.v ===== *)
(** * Interleaved ingestion

    [QuiverEngine::ingest] ([engine.rs]) can be called from several tasks: it locks
    the writer of the log while it appends, and later the cursor and the open
    segment, but nothing in between.  A call has two parts, and other calls may run
    between them.  The cursor of the open segment then covers entries of the log
    whose bundles are not in the segment yet. *)
From S2P Require Import Prelude Bytes Files BTreeMap SubscriberTypes Progress SubscriberState Registry.
From S2P Require Import WalFormat WalReader Budget WalWriter WalLog WalRuns WalRecovery.
From S2P Require Import Arrow SegmentTypes Dictionaries OpenSegment SegmentFile SegmentRoundtrip SegmentStore.
From S2P Require Import EngineLog Engine EngineRetention EngineState EngineRuns EngineOpen ArrowModel EngineExample EngineDurable EngineFaults.

Local Open Scope Z_scope.

Module EngineRaces.
Import SubscriberTypes.
Import Registry.
Import WalWriter.
Import WalRuns.
Import Budget.
Import Arrow.
Import SegmentTypes.
Import OpenSegment.
Import SegmentFile.
Import SegmentRoundtrip.
Import SegmentStore.
Import EngineLog.
Import Engine.
Import EngineRetention.
Import EngineState.
Import EngineRuns.
Import EngineDurable.
Import EngineFaults.

Section races.
Context `{HL : ArrowLaws} (crc32 : list Z → Z) (crc32_ok : ∀ l, u32_ok (crc32 l)).
Context (slots : ManifestEntry → list (Z * SlotChunkRef)) (slots_perm : ∀ e, slots e ≡ₚ map_to_list (slot_refs e)).
Context (stream_encode : RecordBatch → option (list Z)) (stream_decode : list Z → option RecordBatch).
Context (order : Registry → list SubscriberId) (order_keys : ∀ r, key_order r (order r)).

#[local] Hint Extern 0 (WalFormat.RecordBatch _) => exact (batch_encoder stream_encode) : typeclass_instances.

(** ** The parts of a call *)

(** Up to the append to the log: the cursor after the entry, if there is a log. *)
Definition ingest_log (io : ingest_io) (b : RecordBundle) (e : QuiverEngine)
    : option (QuiverEngine * result (option WalConsumerCursor) QuiverError) :=
  let e := e <| metrics ::= λ m, m <| ingest_attempts ::= λ n, wrapping_add 64 n 1 |> |> in
  '(e, room) ← make_room slots order io e;
  match room with
  | Err err => Some (e, Err err)
  | Ok _ =>
      match engine_durability (config e) with
      | SegmentOnly => Some (e, Ok None)
      | DurabilityWal =>
          '(e, r) ← append_to_wal_with_capacity_handling crc32 slots stream_encode io b e;
          match r with
          | Err err => Some (e, Err err)
          | Ok o =>
              Some (e <| cumulative_wal_bytes ::= λ n,
                      wrapping_add 64 n (saturating_sub (WalFormat.next_offset o) (WalFormat.position o)) |>,
                    Ok (Some (cursor_from_offset o)))
          end
      end
  end.

(** From the append to the open segment. *)
Definition ingest_segment (io : ingest_io) (b : RecordBundle) (cursor : option WalConsumerCursor) (e : QuiverEngine)
    : option (QuiverEngine * result unit QuiverError) :=
  append_to_segment_and_maybe_finalize crc32 slots (append_now io) (check_now io) (end_finalize io) b cursor e.

(** A call that is not interrupted is one part after the other. *)
Lemma ingest_parts io b e :
  ingest crc32 slots stream_encode order io b e =
    '(e, r) ← ingest_log io b e;
    match r with Err err => Some (e, Err err) | Ok cursor => ingest_segment io b cursor e end.
Proof.
  unfold ingest, ingest_log, ingest_segment. set (e0 := e <| metrics ::= _ |>).
  destruct (make_room _ _ _ e0) as [[e1 [[]|err]]|]; [|done..]. cbn [mbind option_bind].
  destruct (engine_durability (config e1)); [|done].
  by destruct (append_to_wal_with_capacity_handling _ _ _ _ _ e1) as [[e2 [o|err]]|].
Qed.

Abbreviation engine_ok := (engine_ok crc32 slots stream_encode (λ w b, w = bundle b)).

Lemma log_step io b e acks k k2 parts live seen e' c :
  engine_ok e acks k k2 parts live seen → zlen acks < 2 ^ 32 → next_segment_seq e < 2 ^ 63 → WalFormat.bundle_ok (bundle b) →
  all_writable crc32 slots seen → ingest_fine io → engine_durability (config e) = DurabilityWal → ingest_log io b e = Some (e', Ok c) →
  ∃ o k' parts' live', c = Some (cursor_at (acks ++ [(o, bundle b)]) (S (length acks))) ∧
    engine_ok e' (acks ++ [(o, bundle b)]) k' k2 parts' live' seen ∧ contents parts' live' = contents parts live ∧
    next_segment_seq e' ≤ next_segment_seq e + 1 ∧ config e' = config e.
Proof.
  intros Hok Hz Hnx Hb Hwr Hio Hwal. unfold ingest_log. set (e0 := e <| metrics ::= _ |>).
  assert (retains e e0) as Hret0 by (by destruct e; apply retains_same).
  pose proof (retains_ok _ _ _ _ _ _ _ _ _ _ _ _ Hok Hret0) as Hok0.
  destruct (make_room_total slots order order_keys io e0 (ok_registry Hok0)) as (e1 & room & -> & Hret1).
  assert (retains e e1) as Hret by (by etrans). pose proof (retains_ok _ _ _ _ _ _ _ _ _ _ _ _ Hok Hret) as Hok1.
  cbn [mbind option_bind]. destruct room as [[]|err]; [|done]. rewrite (ret_config _ _ Hret), Hwal.
  destruct (capacity_step crc32 crc32_ok slots slots_perm stream_encode (λ w b, w = bundle b) io b e1 acks k k2 parts live seen Hok1)
    as (e2 & r2 & acks' & k' & parts' & live' & -> & Hok2 & Hoff & Hcont & Hadv); [done|rewrite (ret_next _ _ Hret); lia|done..|].
  cbn [mbind option_bind]. destruct r2 as [o|err]; [|done]. destruct Hoff as (-> & Hcur & _). intros [= <- <-].
  exists o, k', parts', live'. rewrite Hcur. split_and!; [done| |done| |].
  - eapply retains_ok; [exact Hok2|]. by destruct e2; apply retains_same.
  - pose proof (adv_next _ _ _ _ _ Hadv) as Hn. rewrite (ret_next _ _ Hret) in Hn. destruct e2. cbn in *. lia.
  - rewrite <-(ret_config _ _ Hret), <-(adv_config _ _ _ _ _ Hadv). by destruct e2.
Qed.

(** ** A stale cursor *)

Lemma stale_cursor c (s : WalWriter * Dir) :
  safe_offset c < cursor_position s.1 →
  ∃ m, persist_cursor crc32 cursor_fine c s = (s, Err (WalFormat.InvalidConsumerCursor m)).
Proof.
  intros Hlt. destruct s as [w d]. unfold persist_cursor, bind, validate_cursor, get_writer. cbn [fst] in Hlt. unfold bind.
  destruct (match last_cursor_sequence w with Some last => _ | None => _ end); [by eexists|].
  cbn [fst]. rewrite (proj2 (Z.ltb_lt _ _) Hlt). by eexists.
Qed.

(** A segment whose cursor is behind that of the log is written, but never
    registered. *)
Lemma stale_flush io e live :
  seg_holds (open_segment e) live → live ≠ [] → seg_writable crc32 slots (open_segment e) → finalize_fine io →
  safe_offset (segment_cursor e) < cursor_position (wal_writer e) →
  ∃ e' m, finalize_segment_impl crc32 slots io e = Some (e', Err (WalFailed (WalFormat.InvalidConsumerCursor m))) ∧
    segments (segment_store e') = segments (segment_store e) ∧ open_segment e' = open_new.
Proof.
  intros Hseg Hne Hwr [Hsf Hcf] Hlt. assert (is_empty (open_segment e) = false) as Hemp.
  { unfold is_empty. apply bool_decide_eq_false. intros Hz. apply Hne, length_zero_iff_nil. pose proof (holds_length _ _ Hseg).
    apply (f_equal length) in Hz. cbn in Hz. lia. }
  destruct (write_segment_fine crc32 crc32_ok slots slots_perm (fin_segment io) (next_segment_seq e) (open_segment e) live
    (segment_store e) Hseg Hne Hwr Hsf) as (file & n & crc & Hwrite & _).
  destruct (stale_cursor (segment_cursor e) (budget_add n (wal_writer e), wal_dir e)) as [m Hm]; [by destruct e as [? ? []]|].
  unfold finalize_segment_impl. rewrite Hemp. destruct e as [cfg mt w d seg cur nx cw cs fd di ex ei pr st rg].
  cbn -[budget_add set_files] in *. rewrite Hwrite. unfold with_wal. cbn -[budget_add set_files]. rewrite Hcf, Hm.
  cbn -[budget_add set_files]. do 2 eexists. split; [done|]. by destruct st.
Qed.

(** A bundle whose entry of the log is already behind the stored cursor. *)
Lemma late_segment io b e acks n parts seen e' :
  engine_ok e acks (length acks) (length acks) parts [] seen → (S n < length acks)%nat → all_writable crc32 slots (seen ++ [b]) →
  finalize_fine (end_finalize io) → ingest_segment io b (Some (cursor_at acks (S n))) e = Some (e', Ok tt) →
  seg_holds (open_segment e') [b] ∧ wal_dir e' = wal_dir e ∧ segment_store e' = segment_store e ∧
  seg_writable crc32 slots (open_segment e') ∧ safe_offset (segment_cursor e') < cursor_position (wal_writer e').
Proof.
  intros Hok Hn Hwr Hfin. unfold ingest_segment, append_to_segment_and_maybe_finalize.
  assert (end_position (take (S n) acks) < cursor_position (wal_writer e)) as Hlt.
  { pose proof (ready_cursor _ _ _ _ (ok_log Hok)) as Hc. cbn [fst] in Hc. rewrite Hc.
    destruct (log_entries crc32 _ _ (ready_holds _ _ _ _ (ok_log Hok))) as (purged & fs & act & _ & Hrec & _).
    eapply end_position_lt; [exact Hrec|lia]. }
  destruct (ok_open Hok) as (l & Hl & Hsub). pose proof (append_all_snoc l _ _ _ (append_now io) b Hl) as Hl'.
  set (e0 := e <| segment_cursor := _ |>). assert (open_segment e0 = open_segment e) as -> by (by destruct e).
  destruct (append (append_now io) (open_segment e) b) as [seg [u|err]] eqn:Happ; [|done]. cbn [fst snd is_ok app] in Hl'.
  pose proof (append_all_holds (l ++ [(append_now io, b)]) open_new [] open_new_holds) as Hh. rewrite Hl' in Hh. cbn [fst snd app] in Hh.
  assert (seg_writable crc32 slots seg) as Hw.
  { specialize (Hwr (l ++ [(append_now io, b)])). rewrite Hl' in Hwr. apply Hwr. rewrite fmap_app. by apply sublist_app. }
  set (e1 := e0 <| open_segment := seg |>).
  assert (open_segment e1 = seg ∧ wal_dir e1 = wal_dir e ∧ segment_store e1 = segment_store e ∧
    safe_offset (segment_cursor e1) < cursor_position (wal_writer e1)) as (Hs & Hd & Hst & Hc) by (by destruct e).
  destruct (should_finalize _ _ _).
  - destruct (stale_flush (end_finalize io) e1 [b]) as (e2 & m & -> & _); [by rewrite Hs|done|by rewrite Hs|done..].
  - intros [= <-]. rewrite Hs. split_and!; done.
Qed.

(** ** The race *)

(** The two calls, interleaved, on an engine that satisfies the invariant. *)
Lemma interleaved iox ioy fio fio2 x y e acks k k2 parts live seen e1 cx e2 cy e3 acked :
  engine_ok e acks k k2 parts live seen → zlen acks + 1 < 2 ^ 32 → next_segment_seq e + 4 < 2 ^ 63 →
  engine_durability (config e) = DurabilityWal → ingest_fine iox → ingest_fine ioy → WalFormat.bundle_ok (bundle x) →
  WalFormat.bundle_ok (bundle y) → finalize_fine fio → finalize_fine fio2 → all_writable crc32 slots seen →
  all_writable crc32 slots (seen ++ [y]) → all_writable crc32 slots (seen ++ [y; x]) → contents parts live = acked →
  ingest_log iox x e = Some (e1, Ok cx) → ingest_log ioy y e1 = Some (e2, Ok cy) → ingest_segment ioy y cy e2 = Some (e3, Ok tt) →
  ∃ e4 parts', flush crc32 slots fio e3 = Some (e4, Ok tt) ∧ concat parts'.*2 = acked ++ [y] ∧
    ∀ e5, ingest_segment iox x cx e4 = Some (e5, Ok tt) →
      (∀ seq h, segments (segment_store e5) !! seq = Some h → ∃ bs, (seq, bs) ∈ parts' ∧ handle_serves slots h bs) ∧
      seg_holds (open_segment e5) [x] ∧ log_empty crc32 (wal_dir e5) ∧
      ∃ e6 m, flush crc32 slots fio2 e5 = Some (e6, Err (WalFailed (WalFormat.InvalidConsumerCursor m))) ∧
        segments (segment_store e6) = segments (segment_store e5) ∧ open_segment e6 = open_new.
Proof.
  intros Hok Hz Hnx Hwal Hiox Hioy Hx Hy Hf1 Hf2 Hwr Hwry Hwryx <- Hlx Hly Hsy.
  destruct (log_step iox x e acks k k2 parts live seen e1 cx) as (ox & k1 & parts1 & live1 & -> & Hok1 & Hc1 & Hn1 & Hcfg1); [done|lia|lia|done..|].
  assert (zlen (acks ++ [(ox, bundle x)]) = zlen acks + 1) as Hz1 by (by rewrite zlen_app).
  destruct (log_step ioy y e1 (acks ++ [(ox, bundle x)]) k1 k2 parts1 live1 seen e2 cy)
    as (oy & k3 & parts2 & live2 & -> & Hok2 & Hc2 & Hn2 & Hcfg2); [done|lia|lia|done..|congruence|done|].
  set (acks2 := (acks ++ [(ox, bundle x)]) ++ [(oy, bundle y)]) in *.
  assert (length acks2 = S (S (length acks))) as Hlen2 by (unfold acks2; rewrite !length_app; cbn; lia).
  rewrite length_app, Nat.add_1_r in Hsy. pose proof (ok_range Hok) as Hr.
  destruct (segment_step crc32 crc32_ok slots slots_perm stream_encode (λ w b, w = bundle b) (append_now ioy) (check_now ioy) (end_finalize ioy)
    e2 acks2 k3 k2 (S (length acks)) parts2 live2 seen y (oy, bundle y) Hok2)
    as (e3' & r & k4 & parts3 & live3 & Hstep & Hok3 & Hc3 & Hadv3 & Hres); [lia| |done| |lia|done|apply Hioy|].
  { unfold acks2. rewrite lookup_app_r by (rewrite length_app; cbn; lia). rewrite length_app. cbn.
    by replace (S (length acks) - (length acks + 1))%nat with 0%nat by lia. }
  { unfold acks2. rewrite zlen_app, Hz1. change (zlen [_]) with 1. lia. }
  unfold ingest_segment in Hsy. rewrite Hstep in Hsy. injection Hsy as -> ->. destruct Hres as [[_ Hlive]|(err & ? & _)]; [|done].
  pose proof (adv_next _ _ _ _ _ Hadv3) as Hn3. rewrite <-Hlen2 in Hok3, Hlive.
  destruct (finalize_total crc32 crc32_ok slots slots_perm stream_encode (λ w b, w = bundle b) fio e3 acks2 k4 (length acks2) parts3 live3 (seen ++ [y]))
    as (e4 & k5 & parts4 & Hfl & Hok4 & Hc4 & _ & Hk5); [done|unfold acks2; rewrite zlen_app, Hz1; change (zlen [_]) with 1; lia|lia|done|done|].
  assert (k5 = length acks2) as -> by (rewrite Hk5; case_decide; [by apply Hlive|done]).
  exists e4, parts4. split; [done|]. unfold contents in *. rewrite app_nil_r in Hc4. split; [by rewrite Hc4, Hc3, Hc2, Hc1|]. intros e5 Hsx.
  assert (cursor_at (acks ++ [(ox, bundle x)]) (S (length acks)) = cursor_at acks2 (S (length acks))) as Heq.
  { unfold cursor_at, acks2. rewrite (take_app_le _ [(oy, bundle y)]); [done|]. rewrite length_app. cbn. lia. }
  rewrite Heq in Hsx. destruct (late_segment iox x e4 acks2 (length acks) parts4 (seen ++ [y]) e5) as (Hh & Hd & Hst & Hw & Hcur);
    [done|lia|by rewrite <-app_assoc|apply Hiox|done|].
  split_and!; [rewrite Hst; apply (ok_served Hok4)|done|rewrite Hd; by eapply log_empty_all|by eapply stale_flush].
Qed.

(** C18: concurrent calls of [ingest] lose an acknowledged bundle.  After a run as
    above, two tasks ingest [x] and [y]: both append to the log, [x] first; [y] is
    appended to the open segment, which is finalized; then [x] is appended to the
    new open segment, and both calls return successfully.  The finalization has
    stored the cursor after [y], so the replay of the log would return nothing: [x],
    acknowledged, is only in memory.  The next finalization, with I/O that
    succeeds, returns an error because its cursor is older than the stored one; the
    segment with [x] is not in the store, and the open segment is empty. *)
Theorem concurrent_ingests_lose_bundle cfg o b io rio ops d iox ioy x y fio fio2 :
  options_fine o → first_open io rio → engine_durability cfg = DurabilityWal → Forall (engine_op_fine stream_encode) ops →
  zlen ops + 1 < 2 ^ 32 → ingest_fine iox → ingest_fine ioy → WalFormat.bundle_ok (bundle x) → WalFormat.bundle_ok (bundle y) →
  finalize_fine fio → finalize_fine fio2 → all_writable crc32 slots (offers ops ++ [y; x]) →
  ∃ e0 e d' acked removed,
    open_engine crc32 slots stream_decode order cfg o b io rio ∅ ∅ = Some (wal_dir e0, Ok e0) ∧
    engine_run crc32 slots stream_encode order ops (e0, d) = Some (e, d', acked, removed) ∧
    ∀ e1 cx e2 cy e3, ingest_log iox x e = Some (e1, Ok cx) → ingest_log ioy y e1 = Some (e2, Ok cy) →
      ingest_segment ioy y cy e2 = Some (e3, Ok tt) →
      ∃ e4 parts, flush crc32 slots fio e3 = Some (e4, Ok tt) ∧ concat parts.*2 = acked ++ [y] ∧
        ∀ e5, ingest_segment iox x cx e4 = Some (e5, Ok tt) →
          (∀ seq h, segments (segment_store e5) !! seq = Some h → ∃ bs, (seq, bs) ∈ parts ∧ handle_serves slots h bs) ∧
          seg_holds (open_segment e5) [x] ∧ log_empty crc32 (wal_dir e5) ∧
          ∃ e6 m, flush crc32 slots fio2 e5 = Some (e6, Err (WalFailed (WalFormat.InvalidConsumerCursor m))) ∧
            segments (segment_store e6) = segments (segment_store e5) ∧ open_segment e6 = open_new.
Proof.
  intros Ho Hfirst Hwal Hops Hz Hiox Hioy Hx Hy Hf1 Hf2 Hwr.
  destruct (open_first crc32 crc32_ok slots slots_perm stream_encode stream_decode order order_keys (λ w b, w = bundle b) cfg o b io rio Ho Hfirst)
    as (e0 & k & parts & live & Hopen & Hok & Hcont & Hacc & Hcfg & _ & Hnx).
  assert (all_writable crc32 slots (offers ops)) as Hwr0 by (eapply all_writable_sub; [|exact Hwr]; by apply sublist_inserts_r).
  assert (all_writable crc32 slots (offers ops ++ [y])) as Hwry.
  { eapply all_writable_sub; [|exact Hwr]. apply sublist_app; [done|]. apply sublist_skip, sublist_nil_l. }
  destruct (engine_run_ok crc32 crc32_ok slots slots_perm stream_encode order order_keys (λ w b, w = bundle b) (λ _, eq_refl) ops e0 d [] k 0 parts live [] [])
    as (e & d' & acked & removed & acks & k' & k2 & parts' & live' & Hrun & Hok' & Hlog & Hnx' & Hcfg' & _ & Hcont' & _);
    [done|unfold zlen in *; cbn; lia|lia|done|done|by rewrite Hcfg|done|].
  rewrite Hcont in Hcont'. exists e0, e, d', acked, removed. split_and!; [done..|]. intros e1 cx e2 cy e3 Hlx Hly Hsy.
  assert (zlen acks + 1 < 2 ^ 32) as Hlen.
  { pose proof (logged_length _ _ _ _ Hlog) as Hl. pose proof (zlen_omap (λ op, match op with Ingest _ b => Some b | _ => None end) ops) as Hle.
    unfold offers in Hl. change (zlen []) with 0 in Hl. lia. }
  eapply interleaved; try done; [lia|congruence].
Qed.

End races.

(** ** Example *)

Import ArrowModel.
Import EngineExample.

(** All the parts of the two calls succeed on a new engine. *)
Definition race_run : bool :=
  match @open_engine model sum32 map_slots bits_decode map_order example_config example_wal_options example_disk example_open
          example_replay ∅ ∅ with
  | Some (_, Ok e) =>
      match @ingest_log model sum32 map_slots bits_encode map_order fine_ingest (plain_bundle 66) e with
      | Some (e1, Ok cx) =>
          match @ingest_log model sum32 map_slots bits_encode map_order fine_ingest (plain_bundle 65) e1 with
          | Some (e2, Ok cy) =>
              match @ingest_segment model sum32 map_slots fine_ingest (plain_bundle 65) cy e2 with
              | Some (e3, Ok tt) =>
                  match @flush model sum32 map_slots fine_finalize e3 with
                  | Some (e4, _) =>
                      match @ingest_segment model sum32 map_slots fine_ingest (plain_bundle 66) cx e4 with
                      | Some (_, Ok tt) => true
                      | _ => false
                      end
                  | None => false
                  end
              | _ => false
              end
          | _ => false
          end
      | _ => false
      end
  | _ => false
  end.

Example race_run_true : race_run = true.
Proof. vm_compute. reflexivity. Qed.

Lemma concurrent_ingests_lose_bundle_witness :
  ∃ e0 e1 cx e2 cy e3 e4 e5 e6 m,
    @open_engine model sum32 map_slots bits_decode map_order example_config example_wal_options example_disk example_open
      example_replay ∅ ∅ = Some (wal_dir e0, Ok e0) ∧
    @ingest_log model sum32 map_slots bits_encode map_order fine_ingest (plain_bundle 66) e0 = Some (e1, Ok cx) ∧
    @ingest_log model sum32 map_slots bits_encode map_order fine_ingest (plain_bundle 65) e1 = Some (e2, Ok cy) ∧
    @ingest_segment model sum32 map_slots fine_ingest (plain_bundle 65) cy e2 = Some (e3, Ok tt) ∧
    @flush model sum32 map_slots fine_finalize e3 = Some (e4, Ok tt) ∧
    @ingest_segment model sum32 map_slots fine_ingest (plain_bundle 66) cx e4 = Some (e5, Ok tt) ∧
    @seg_holds model (open_segment e5) [plain_bundle 66] ∧ log_empty sum32 (wal_dir e5) ∧
    @flush model sum32 map_slots fine_finalize e5 = Some (e6, Err (WalFailed (WalFormat.InvalidConsumerCursor m))).
Proof.
  destruct (@concurrent_ingests_lose_bundle model model_laws sum32 sum32_u32 map_slots (λ e, reflexivity _) bits_encode bits_decode map_order
    map_order_keys example_config example_wal_options example_disk example_open example_replay [] ∅ fine_ingest fine_ingest
    (plain_bundle 66) (plain_bundle 65) fine_finalize fine_finalize) as (e0 & e & d' & acked & removed & Hopen & Hrun & Hlost).
  - by split.
  - apply example_first.
  - reflexivity.
  - constructor.
  - vm_compute. reflexivity.
  - apply fine_ingest_fine.
  - apply fine_ingest_fine.
  - apply plain_size. by right.
  - apply plain_size. by left.
  - by repeat split.
  - by repeat split.
  - apply plain_writable.
  - cbn in Hrun. injection Hrun as <- _ _ _. pose proof race_run_true as Hrt. unfold race_run in Hrt. rewrite Hopen in Hrt.
    destruct (ingest_log _ _ _ _ _ _ e0) as [[e1 [cx|]]|] eqn:H1; [|discriminate Hrt..].
    destruct (ingest_log _ _ _ _ _ _ e1) as [[e2 [cy|]]|] eqn:H2; [|discriminate Hrt..].
    destruct (ingest_segment _ _ _ _ _ e2) as [[e3 [[]|]]|] eqn:H3; [|discriminate Hrt..].
    destruct (Hlost e1 cx e2 cy e3 eq_refl H2 H3) as (e4 & parts & H4 & _ & H). rewrite H4 in Hrt.
    destruct (ingest_segment _ _ _ _ _ e4) as [[e5 [[]|]]|] eqn:H5; [|discriminate Hrt..].
    destruct (H e5 eq_refl) as (_ & Hh & Hle & e6 & m & H6 & _).
    exists e0, e1, cx, e2, cy, e3, e4, e5, e6, m. repeat (split; [eassumption|]). exact H6.
Defined.

End EngineRaces.
