(* ===== verification/Configuration.v ===== *)
(** * Configuration

    Model of [crates/quiver/src/config.rs] and of the beginning of
    [QuiverEngine::open_with_wal_counters] in [engine.rs]: the configuration, its
    builder and its validation, the options of the log that are derived from it,
    and the checks of the budget before an engine is opened.  Durations are
    nanoseconds, paths are strings. *)
From S2P Require Import Prelude Bytes Files BTreeMap SubscriberTypes Registry.
From S2P Require Import WalFormat WalReader Budget WalWriter Arrow SegmentTypes OpenSegment SegmentRoundtrip SegmentStore.
From S2P Require Import EngineRegistry EngineState Engine EngineOpen EngineDurable ArrowModel EngineExample.

Local Open Scope Z_scope.

Module Configuration.
Import SubscriberTypes.
Import WalWriter.
Import Budget.
Import Arrow.
Import SegmentTypes.
Import SegmentStore.
Import Registry.
Import Engine.
Import EngineDurable.

(** ** Configurations *)

Inductive SegmentReadMode := Standard | Mmap.

Record WalConfig := mkWalConfig {
  max_size_bytes : Z;
  wal_rotated_files : Z;
  wal_rotation_target : Z;
  flush_interval : Z;
}.

Record SegmentConfig := mkSegmentConfig {
  segment_target_bytes : Z;
  segment_open_duration : Z;
  segment_stream_count : Z;
}.

Record RetentionConfig := mkRetentionConfig { retention_max_age : option Z }.

Record QuiverConfig := mkQuiverConfig {
  config_durability : DurabilityMode;
  wal_config : WalConfig;
  segment_config : SegmentConfig;
  retention : RetentionConfig;
  read_mode : SegmentReadMode;
  data_dir : string;
}.

Definition wal_config_validate (c : WalConfig) : result unit string :=
  if wal_rotated_files c =? 0 then Err "max_rotated_files must be at least 1"
  else if max_size_bytes c <? wal_rotation_target c
  then Err "rotation_target_bytes must not exceed max_size_bytes"
  else Ok tt.

Definition segment_config_validate (c : SegmentConfig) : result unit string :=
  if segment_stream_count c =? 0 then Err "max_stream_count must be at least 1" else Ok tt.

Definition retention_validate (c : RetentionConfig) : result unit string :=
  if from_option (λ d, d =? 0) false (retention_max_age c) then Err "max_age must be greater than zero when set" else Ok tt.

(** The log is only checked if it is used. *)
Definition config_validate (c : QuiverConfig) : result unit string :=
  match match config_durability c with DurabilityWal => wal_config_validate (wal_config c) | SegmentOnly => Ok tt end with
  | Err m => Err m
  | Ok _ =>
      match segment_config_validate (segment_config c) with
      | Err m => Err m
      | Ok _ =>
          match retention_validate (retention c) with
          | Err m => Err m
          | Ok _ => if String.eqb (data_dir c) EmptyString then Err "data_dir must not be empty" else Ok tt
          end
      end
  end.

Definition with_data_dir (c : QuiverConfig) (dir : string) : QuiverConfig := c <| data_dir := dir |>.

Definition wal_default : WalConfig := mkWalConfig (128 * 1024 * 1024) 10 (64 * 1024 * 1024) (25 * 1000000).

Definition segment_default : SegmentConfig := mkSegmentConfig (32 * 1024 * 1024) (5 * 1000000000) 512.

(** The default read mode depends on a feature of the crate. *)
Definition config_default (mode : SegmentReadMode) : QuiverConfig :=
  mkQuiverConfig DurabilityWal wal_default segment_default (mkRetentionConfig None) mode "./quiver_data".

(** The builder holds a configuration; without a directory it takes the default. *)
Definition builder_default (mode : SegmentReadMode) : QuiverConfig := (config_default mode) <| data_dir := EmptyString |>.

Definition build (b : QuiverConfig) : result QuiverConfig string :=
  let c := if String.eqb (data_dir b) EmptyString then b <| data_dir := "./quiver_data" |> else b in
  match config_validate c with Err m => Err m | Ok _ => Ok c end.

(** ** Opening *)

(** The bytes of QUIVER_SEGCFG and three zeros. *)
Definition segment_cfg_hash : list Z := [81; 85; 73; 86; 69; 82; 95; 83; 69; 71; 67; 70; 71; 0; 0; 0].

(** [initialize_wal_writer]: the options that the log is opened with. *)
Definition wal_options (c : WalConfig) (set_permissions_supported : bool) : WalWriterOptions :=
  let policy := if flush_interval c =? 0 then Immediate else EveryDuration (flush_interval c) in
  let o := (options_new segment_cfg_hash policy) <| max_wal_size := max_size_bytes c |> in
  (with_rotation_target (with_max_rotated_files o (wal_rotated_files c)) (wal_rotation_target c))
    <| enforce_file_readonly := set_permissions_supported |>.

(** What the budget and the engine read of the configuration. *)
Definition budget_config (c : QuiverConfig) : Budget.QuiverConfig :=
  mkConfig (segment_target_bytes (segment_config c)) (max_size_bytes (wal_config c)) (config_durability c).

Definition engine_config (c : QuiverConfig) : EngineConfig :=
  mkEngineConfig (segment_target_bytes (segment_config c)) (segment_open_duration (segment_config c))
    (segment_stream_count (segment_config c)) (config_durability c) (retention_max_age (retention c)).

Inductive OpenError := InvalidConfig (message : string) | OpenFailed (e : QuiverError).

Definition budget_too_small : string := "disk budget must be at least 2x segment size to prevent deadlock".

Definition headroom_too_small : string := "budget segment_headroom must be at least segment_target_size".

(** The budget must hold the log and two segments, and keep room for one. *)
Definition check_budget (c : QuiverConfig) (b : DiskBudget) : result unit string :=
  let segment_size := segment_target_bytes (segment_config c) in
  if (hard_cap b <? minimum_hard_cap segment_size (effective_wal_size (budget_config c))) && negb (hard_cap b =? u64_max)
  then Err budget_too_small
  else if (saturating_sub (hard_cap b) (soft_cap b) <? segment_size) && negb (hard_cap b =? u64_max)
  then Err headroom_too_small
  else Ok tt.

Section opening.
Context {HA : Arrow} (crc32 : list Z → Z) (slots : ManifestEntry → list (Z * SlotChunkRef)).
Context (stream_decode : list Z → option RecordBatch) (order : Registry.Registry → list SubscriberId).

(** [dir_ok]: whether the directories can be created; [set_permissions_supported]:
    what probing the file system finds.  The counters are part of [rio]. *)
Definition open_with_wal_counters (c : QuiverConfig) (b : DiskBudget) (dir_ok set_permissions_supported : bool) (io : open_io)
    (rio : replay_io) (dir : Dir) (segment_files : gmap Z (list Z))
    : option (Dir * result QuiverEngine OpenError) :=
  match config_validate c with
  | Err m => Some (dir, Err (InvalidConfig m))
  | Ok _ =>
      match check_budget c b with
      | Err m => Some (dir, Err (InvalidConfig m))
      | Ok _ =>
          if negb dir_ok then Some (dir, Err (OpenFailed (SegmentFailed (Io OtherIo))))
          else
            '(dir, r) ← open_engine crc32 slots stream_decode order (engine_config c)
                          (wal_options (wal_config c) set_permissions_supported) b io rio dir segment_files;
            Some (dir, match r with Ok e => Ok e | Err err => Err (OpenFailed err) end)
      end
  end.

(** [QuiverEngineBuilder::build]: without a budget there is no limit. *)
Definition engine_build (c : QuiverConfig) (b : option DiskBudget) := open_with_wal_counters c (default unlimited b).

End opening.

(** ** Accepted configurations *)

(** What the types of the fields give: [NonZeroU64] and [u64]. *)
Definition config_typed (c : QuiverConfig) : Prop :=
  0 < segment_target_bytes (segment_config c) ≤ u64_max ∧ 0 < max_size_bytes (wal_config c) ≤ u64_max.

(** The budget that is made for a configuration passes the checks. *)
Lemma for_config_checked c cap pol b :
  config_typed c → u64_ok cap → for_config cap (budget_config c) pol = Ok b → check_budget c b = Ok tt.
Proof.
  intros [Ht Hw] Hcap. unfold for_config, check_budget. cbn [segment_target_size budget_config].
  set (w := effective_wal_size _). set (t := segment_target_bytes _) in *.
  assert (0 ≤ w) as Hw0 by (unfold w, effective_wal_size; cbn; destruct (config_durability c); lia).
  destruct (_ && _) eqn:E; [done|]. intros [= <-]. cbn [hard_cap soft_cap budget_new]. rewrite E.
  unfold u64_ok, minimum_hard_cap, saturating_add, saturating_sub in *. rewrite u64_max_eq in *.
  case_match eqn:E2; [|done]. apply andb_true_iff in E2 as [E2%Z.ltb_lt E3%negb_true_iff%Z.eqb_neq].
  apply andb_false_iff in E as [E%Z.ltb_ge|E%negb_false_iff%Z.eqb_eq]; lia.
Qed.

Lemma wal_options_fine c s : options_fine (wal_options c s).
Proof. split; [done|]. unfold wal_options. by destruct (flush_interval c =? 0). Qed.

Section accepted.
Context `{HL : ArrowLaws} (crc32 : list Z → Z) (crc32_ok : ∀ l, u32_ok (crc32 l)).
Context (slots : ManifestEntry → list (Z * SlotChunkRef)) (slots_perm : ∀ e, slots e ≡ₚ map_to_list (slot_refs e)).
Context (stream_encode : RecordBatch → option (list Z)) (stream_decode : list Z → option RecordBatch).
Context (order : Registry.Registry → list SubscriberId) (order_keys : ∀ r, key_order r (order r)).

(** C32: a budget that is made for a configuration is accepted with it, and opening
    an engine in an empty directory fails only for a configuration that the
    validation refuses, with its message; otherwise it gives an engine with this
    configuration, an empty log and a log writer that has the configured limits.
    A configuration that the builder returns is one that the validation accepts. *)
Theorem configuration_opens c cap pol b s io rio :
  config_typed c → u64_ok cap → for_config cap (budget_config c) pol = Ok b → first_open io rio →
  (∀ m, config_validate c = Err m →
    open_with_wal_counters crc32 slots stream_decode order c b true s io rio ∅ ∅ = Some (∅, Err (InvalidConfig m))) ∧
  (config_validate c = Ok tt → ∃ e,
    open_with_wal_counters crc32 slots stream_decode order c b true s io rio ∅ ∅ = Some (wal_dir e, Ok e) ∧
    config e = engine_config c ∧ options (wal_writer e) = wal_options (wal_config c) s ∧ OpenSegment.is_empty (open_segment e) = true) ∧
  (∀ bd c', build bd = Ok c' → config_validate c' = Ok tt).
Proof.
  intros Hty Hcap Hb Hfirst. split_and!.
  - intros m Hm. unfold open_with_wal_counters. by rewrite Hm.
  - intros Hv. destruct (open_first crc32 crc32_ok slots slots_perm stream_encode stream_decode order order_keys (λ _ _, False) (engine_config c)
      (wal_options (wal_config c) s) b io rio (wal_options_fine _ _) Hfirst) as (e & k & parts & live & Hopen & Hok & Hcont & _ & Hc & Ho & _).
    exists e. unfold open_with_wal_counters. rewrite Hv, (for_config_checked c cap pol b Hty Hcap Hb). cbn [negb].
    rewrite Hopen. cbn [mbind option_bind]. split_and!; [done..|]. rewrite (EngineState.ok_empty Hok). apply bool_decide_eq_true.
    by apply app_nil in Hcont as [_ ?].
  - intros bd c'. unfold build. destruct (config_validate _) as [[]|m] eqn:E; [|done]. by intros [= <-].
Qed.

End accepted.

Import SegmentRoundtrip.
Import ArrowModel.
Import EngineExample.

(** The default configuration with a budget of a gibibyte. *)
Lemma configuration_opens_witness :
  ∃ b e, for_config (2 ^ 30) (budget_config (config_default Mmap)) DropOldest = Ok b ∧
    @open_with_wal_counters model sum32 map_slots bits_decode map_order (config_default Mmap) b true true example_open example_replay ∅ ∅ =
      Some (wal_dir e, Ok e).
Proof.
  exists (budget_new (2 ^ 30) (32 * 1024 * 1024) DropOldest).
  destruct (@configuration_opens model model_laws sum32 sum32_u32 map_slots (λ e, reflexivity _) bits_encode bits_decode map_order
    map_order_keys (config_default Mmap) (2 ^ 30) DropOldest (budget_new (2 ^ 30) (32 * 1024 * 1024) DropOldest) true example_open example_replay)
    as (_ & Hopen & _).
  - by split; vm_compute.
  - by split; vm_compute.
  - reflexivity.
  - apply example_first.
  - destruct (Hopen eq_refl) as (e & He & _). exists e. by split.
Defined.

End Configuration.
